(* ===== verification/_CoqProject ===== *)
-Q . S2P
Prelude.v
FloatBytes.v
Ordered.v
Hash.v
Features.v
InteractionPredict.v
InteractionGen.v
IoBuf.v
ModelUtils.v
Labels.v
CacheParser.v
Ngrams.v
Explore.v
Queue.v
AllReduce.v
CbEstimates.v
Losses.v
Weights.v
Gd.v
GdModel.v
TextUtils.v
LabelText.v
TextParser.v
Learner.v
Ect.v
Setup.v
Driver.v
Oaa.v
Plt.v
