(* ===== verification/Prelude.v ===== *)
(** * Vowpal Wabbit: a verification development (root file)

    Vowpal Wabbit learns online: a parser turns input into examples, a thread-safe queue hands them
    to the learner thread, reductions turn each example into examples for a base learner, and the
    base learner predicts with, and updates, an array of weights that is indexed by hashes of
    features. This library models the parts of [src/vowpalwabbit] that carry that work, shallowly:
    a C++ function is a Rocq function on explicit state, with the same control flow; what can fail
    returns [option] or [io_result], an endless loop has fuel, threads are step relations.

    ** How the parts interact, and where they are

    An example holds feature groups ([Features], core/feature_group.{h,cc}) whose indices come from
    hashes ([Hash], common/hash.h, core/hashstring.h) and, for text, grams of several words
    ([Ngrams], core/kskip_ngram_transformer.cc), and a label ([Labels], core/*_label.cc). It is read
    from lines of text or from a cache, through a buffer ([IoBuf], core/io_buf.{h,cc}). Text goes
    through [TextUtils] (core/parse_primitives.{h,cc}, core/fast_pow10.h, core/named_labels.cc,
    common/text_utils.h: numbers, tokens, quoting), [LabelText] (parse_label of each label type) and
    [TextParser] (text_parser/parse_example_text.cc: the grammar of the features). The cache
    ([CacheParser], cache_parser/parse_example_cache.cc) holds typed fields ([ModelUtils],
    core/model_utils.h; [FloatBytes] for the bytes of a [float]). Before it is learned from, an example is set up ([Setup], core/vw.cc,
    core/unique_sort.cc): sorted, held out or not, and its indices spread over the rows of the
    weights. The driver ([Driver], core/parse_dispatch_loop.h, core/learner.cc) runs this loop over the
    passes and hands the examples, alone or in groups, to the learners; with a thread of its own the
    parser hands them over through a queue ([Queue], core/queue.h). The reduction
    generate_interactions expands wildcards ([InteractionGen], core/interactions.h,
    reductions/generate_interactions.cc; [Ordered] for the ordered containers it uses); prediction
    generates the cross features of the expanded interactions ([InteractionPredict],
    core/interactions_predict.h). Gradient descent ([Gd], reductions/gd.{h,cc}, core/gd_predict.h)
    visits the features of the example and those interactions, reads and writes the weights through
    the class [WeightStore] ([Weights], core/array_parameters*.{h,cc}), and updates them by a loss
    ([Losses], core/loss_functions.cc). [GdModel] (reductions/gd.cc, core/parse_regressor.cc) saves
    weights and state to a file and loads them, on any store. Contextual bandits make costs from what was observed
    ([CbEstimates], core/gen_cs_example.{h,cc}, reductions/cb/cb_algs.h) and explore by drawing from
    a distribution over actions ([Explore], explore/explore_internal.h, common/random_details.h).
    [Learner] (core/learner.{h,cc}, reductions/scorer.cc, reductions/binary.cc) is the interface between
    a reduction and the learner below it: calls with offsets, and the classes [Answers] and [Learns]
    of what a base learner promises, of which gradient descent under the scorer is an instance. [Ect]
    (reductions/ect.cc) predicts a label by tournaments, [Oaa] (reductions/oaa.cc) by one model for
    each label and [Plt] (reductions/plt.cc) a set of labels by a tree of models, against that interface.
    Several learners average their weights by [all_reduce] ([AllReduce],
    allreduce/allreduce_threads.cc).

    A definition keeps the name of the C++ function or type it translates; a record has its fields
    in the order of the code where the order matters. Interfaces between files are classes with laws:
    [Num], [Widen] and [MathFns] for number formats, [WeightStore] with [WeightStoreLaws] for the
    weights, [FieldLaws] for the typed fields, [TotalLt] for keys with [operator<].

    ** Numbers

    Unsigned integers are [Z] with their wrap-around written out ([u32], [u64]); indices of vectors
    are [nat]. Code on [float] and [double] is polymorphic in two formats [F] and [D] with the
    operations of [Num]: with [spec_float] ([num_f32], [num_f64]) the definitions compute IEEE-754
    results bit for bit; theorems that need exact arithmetic are about the same definitions over the
    rationals, or the reals where exponentials occur. What holds for every format is stated so.

    ** What the theorems show

    - Data: the public operations build well-formed feature groups only; sorting, flattening and the
      dot product do what their names say ([Features]); hashing is injective where it can be
      ([Hash]); the grams appended are the choices that skip
      at most the given number of features in all, which is fewer than the header comment of
      kskip_ngram_transformer.h lists ([Ngrams]).
    - Interactions: the loops generate exactly the features of a recursive reference, in order, and
      the closed formulas agree with the enumeration ([InteractionPredict]); expansion of wildcards
      yields each interaction once up to order ([InteractionGen]).
    - Input and output: reads and line reads are those of one concatenated stream, whatever the
      refills ([IoBuf]); fields of every type built from the overloads, labels and whole examples
      read back as written and a truncated input is an error, except inside a string
      ([ModelUtils], [Labels], [CacheParser]).
    - Text: a file of text, however it is cut into reads, yields the example each line describes;
      the parser of features ends on every line and keeps its example well formed ([TextParser]);
      labels that are accepted are well formed in the sense of their type: probabilities of contextual
      bandits lie between 0 and 1, those of slates are only numbers ([LabelText]); decimal numbers are read as what they
      denote, except where the exponent wraps around ([TextUtils]).
    - Setting up: examples that are read from text are well formed, setting them up never fails and
      keeps them so, and a line of text is read, set up and predicted end to end ([Setup]).
    - The loop: the passes asked for are run and end, groups are learned as the lines delimit them, and
      every example goes back to the pool or is held, whatever the learners throw; with batches of
      several examples the limit of examples is not kept, and an exception returns some of a batch
      twice ([Driver]).
    - Learning: an update moves the prediction exactly where it announces, on any store of weights;
      several models at once is each model alone; folding the regularisation into the weights keeps
      predictions ([Gd]); the sparse store refines the dense one ([Weights]); importance weights
      compose, no step overshoots and derivatives are derivatives ([Losses]); what an online learner
      saves another one loads, loading ends on every input, and a model saved by a learner that only
      tests does not load as it was ([GdModel]).
    - Reductions: a base learner that answers keeps its promise through the scorer and when several
      models are asked at once ([Learner]); the circuit of an error correcting tournament is built for
      any sizes, prediction and training end within the width reserved, and prediction finds the label
      all whose matches are won, but neither survives an error in a first match nor trains every pair
      of the final tournament ([Ect]); one against all predicts the first largest score and tells each
      model the label that is its due, with negatives subsampled each model at most once, but with
      labels from 0 on the wrong one is left out ([Oaa]); a label tree trains the paths to the labels,
      and finds exactly the labels above a threshold, or the most probable ones, when every internal
      node has all its children, but also labels it does not have when the last one lacks some ([Plt]).
    - Exploration and bandits: exploration algorithms return distributions, sampling inverts their
      cumulative sums and returns after a bounded number of draws ([Explore]); IPS costs are unbiased,
      DR costs are in prediction, and in training but for what learning from an action changes in
      the predictions for later ones ([CbEstimates]).
    - Concurrency: under every interleaving the queue is first in first out, bounded, and loses no
      wakeup ([Queue]); all-reduce terminates with the same reduction everywhere and no race
      ([AllReduce]). The step relations take one critical section or one shared access per step.

    ** Fuel

    Functions with fuel are total in the development: a theorem says the fuel the callers pass is
    enough. [IoBuf.read_fuel], [IoBuf.write_fuel] and the fuel of [readto] bound the refills by the
    bytes and files left; [InteractionPredict] and [InteractionGen] bound their odometers by the
    number of combinations; [TextParser] and [GdModel.rows_fuel] their loops by the bytes of the
    line and of the input; [Features.follow_cycle] by the elements not yet placed;
    [Driver.loop_fuel] counts the batches and the passes; [Ect.circuit_fuel] bounds the levels of a circuit by the matches that can still be played, and its
    number of nodes the walks up and down it; [Plt.loop_fuel] counts the nodes a walk can pop;
    [Explore.sample_pdf] by six draws, after which every seed has been accepted; a varint has at
    most ten bytes; [Gd.ceil_log_2] by the 64 bits of a word.

    ** Not modelled

    Parsers of JSON, CSV and flatbuffers, options and set-up, most reductions (among them the
    search library, memory and recall trees, topic models and the AutoML family), the header of a model file, the
    text dump of a model and the merging of models, metrics and audit printing, sockets, gzip and files behind the adapters, the
    daemon, the command line tools and the language bindings. Exceptions thrown by memory
    allocation are not modelled, except where a parameter [alloc] can refuse. Each component's
    file says what of it is left out. *)

From Stdlib Require Export ZArith QArith Lia Lqa.
From Stdlib Require Export Strings.Byte.
From Stdlib Require Strings.String.
Export (notations) Stdlib.Strings.String.
From Stdlib Require Import Floats.SpecFloat.
From coqutil Require Export Byte.
From coqutil Require Export Word.LittleEndianList.
From stdpp Require Export base tactics list numbers option sorting.

#[global] Set Default Goal Selector "!".
#[global] Set Warnings "-clear-no-such-hyp".
#[global] Open Scope Z_scope.

(** ** Machine words: a [w]-bit unsigned value is a [Z] in [0, 2^w). *)

Definition u32 (x : Z) : Z := x mod 2 ^ 32.
Definition u64 (x : Z) : Z := x mod 2 ^ 64.

Lemma u32_id x : 0 <= x < 2 ^ 32 -> u32 x = x.
Proof. apply Z.mod_small. Qed.

Lemma u64_id x : 0 <= x < 2 ^ 64 -> u64 x = x.
Proof. apply Z.mod_small. Qed.

(** Induction on lists two elements at a time. *)
Lemma pairs_ind {A} (P : list A -> Prop) : P [] -> (forall x, P [x]) -> (forall x y l, P l -> P (x :: y :: l)) -> forall l, P l.
Proof.
  intros H0 H1 H2 l. enough (P l /\ forall x, P (x :: l)) by tauto. induction l as [|y l [IH IH']]; [by split|].
  split; [done|]. intros x. by apply H2.
Qed.

Lemma u64_plus_sub o a : 0 <= o < 2 ^ 64 -> u64 (u64 (o + a) - a) = o.
Proof. intros Ho. unfold u64. rewrite Zminus_mod_idemp_l. replace (o + a - a) with o by lia. by apply Z.mod_small. Qed.

(** The signed reading of a 64-bit pattern ([static_cast<int64_t>]). *)
Definition i64 (x : Z) : Z := let y := u64 x in if y <? 2 ^ 63 then y else y - 2 ^ 64.

(** A [char] of the code is a byte; [byte_val] is its [unsigned char] value. *)
Abbreviation byte_val := byte.unsigned (only parsing).

#[export] Instance byte_eq_dec : EqDecision byte := Byte.byte_eq_dec.

(** A string literal of the code, as its bytes. *)
Definition str (s : String.string) : list byte := String.list_byte_of_string s.
Arguments str s%_string_scope.

(** ** Numbers: the code's [float] and [double] operations.

    The numeric code is translated once, over the operations of the class
    below. [num_f32] and [num_f64] are IEEE-754 binary32 and binary64 (the
    executable [SpecFloat] of the Standard Library, round to nearest even):
    running a definition there is running the code. [num_Q] is exact
    arithmetic, in which the algebraic theorems are stated. *)

Class Num (F : Type) := {
  n_of_Z : Z -> F;
  nlit : Q -> F;
  nadd : F -> F -> F;
  nsub : F -> F -> F;
  nmul : F -> F -> F;
  ndiv : F -> F -> F;
  nltb : F -> F -> bool;
  nleb : F -> F -> bool;
  neqb : F -> F -> bool
}.

(** Conversions between [float] and [double]. *)
Class Widen (F D : Type) := { widen : F -> D; narrow : D -> F }.

Declare Scope num_scope.
Delimit Scope num_scope with num.
Infix "+" := nadd : num_scope.
Infix "-" := nsub : num_scope.
Infix "*" := nmul : num_scope.
Infix "/" := ndiv : num_scope.
Infix "<?" := nltb : num_scope.
Infix "<=?" := nleb : num_scope.
Infix "=?" := neqb : num_scope.
Notation "x >? y" := (nltb y x) (only parsing) : num_scope.
Notation "x >=? y" := (nleb y x) (only parsing) : num_scope.

(** [std::max(a, b)]: [(a < b) ? b : a]. *)
Definition nmax {F} `{Num F} (a b : F) : F := if (a <? b)%num then b else a.

#[export] Instance num_Q : Num Q := {|
  n_of_Z z := inject_Z z;
  nlit q := q;
  nadd := Qplus; nsub := Qminus; nmul := Qmult; ndiv := Qdiv;
  nltb a b := negb (Qle_bool b a);
  nleb := Qle_bool;
  neqb := Qeq_bool
|}.
#[export] Instance widen_Q : Widen Q Q := {| widen q := q; narrow q := q |}.

(** IEEE-754 formats: precision and maximal exponent. *)
Definition f32 : Type := spec_float.
Definition f64 : Type := spec_float.
Definition sf_of_Z (prec emax z : Z) : spec_float := binary_normalize prec emax z 0 false.

(** Rounding a finite number to another format ([static_cast]). *)
Definition sf_round (prec emax : Z) (x : spec_float) : spec_float :=
  match x with
  | S754_finite s m e => binary_normalize prec emax (cond_Zopp s (Zpos m)) e s
  | _ => x
  end.

Definition num_sf (prec emax : Z) : Num spec_float := {|
  n_of_Z := sf_of_Z prec emax;
  nlit q := SFdiv prec emax (sf_of_Z prec emax (Qnum q)) (sf_of_Z prec emax (Zpos (Qden q)));
  nadd := SFadd prec emax; nsub := SFsub prec emax;
  nmul := SFmul prec emax; ndiv := SFdiv prec emax;
  nltb := SFltb; nleb := SFleb; neqb := SFeqb
|}.
Definition num_f32 : Num f32 := num_sf 24 128.
Definition num_f64 : Num f64 := num_sf 53 1024.
Definition widen_f32_f64 : Widen f32 f64 := {| widen x := x; narrow := sf_round 24 128 |}.

(** ** Tactics *)

(** Expose the rational operations behind the class. *)
Ltac qnum :=
  cbn [n_of_Z nlit nadd nsub nmul ndiv nltb nleb neqb num_Q widen narrow widen_Q] in *.

(** Turn boolean comparisons of hypotheses and goal into propositions. *)
Ltac bprop :=
  repeat match goal with
  | H : (_ && _)%bool = true |- _ => apply andb_true_iff in H as [? ?]
  | H : (_ || _)%bool = true |- _ => apply orb_true_iff in H
  | H : (_ || _)%bool = false |- _ => apply orb_false_iff in H as [? ?]
  | H : (_ && _)%bool = false |- _ => apply andb_false_iff in H
  | H : negb _ = true |- _ => apply negb_true_iff in H
  | H : negb _ = false |- _ => apply negb_false_iff in H
  | H : Z.ltb _ _ = true |- _ => apply Z.ltb_lt in H
  | H : Z.ltb _ _ = false |- _ => apply Z.ltb_ge in H
  | H : Z.leb _ _ = true |- _ => apply Z.leb_le in H
  | H : Z.leb _ _ = false |- _ => apply Z.leb_gt in H
  | H : Z.eqb _ _ = true |- _ => apply Z.eqb_eq in H
  | H : Z.eqb _ _ = false |- _ => apply Z.eqb_neq in H
  | H : Nat.ltb _ _ = true |- _ => apply Nat.ltb_lt in H
  | H : Nat.ltb _ _ = false |- _ => apply Nat.ltb_ge in H
  | H : Nat.leb _ _ = true |- _ => apply Nat.leb_le in H
  | H : Nat.leb _ _ = false |- _ => apply Nat.leb_gt in H
  | H : Nat.eqb _ _ = true |- _ => apply Nat.eqb_eq in H
  | H : Nat.eqb _ _ = false |- _ => apply Nat.eqb_neq in H
  | H : Qle_bool _ _ = true |- _ => apply Qle_bool_iff in H
  | H : Qle_bool _ _ = false |- _ =>
      apply not_true_iff_false in H; rewrite Qle_bool_iff in H; apply Qnot_le_lt in H
  | H : Qeq_bool _ _ = true |- _ => apply Qeq_bool_iff in H
  | H : Qeq_bool _ _ = false |- _ => apply Qeq_bool_neq in H
  end.

(** Case analysis on the scrutinees of the [if]s of the goal. *)
Ltac case_if :=
  match goal with
  | |- context [if ?b then _ else _] =>
      lazymatch type of b with bool => let E := fresh "E" in destruct b eqn:E end
  end.

Create HintDb vw.

(** ** Sorting: [std::stable_sort] and [std::sort] *)

(** A strict weak order, what the comparators of the code must be. *)
Record strict_weak {A} (lt : A -> A -> bool) : Prop := {
  sw_irrefl a : lt a a = false;
  sw_trans a b c : lt a b = true -> lt b c = true -> lt a c = true;
  sw_incomp a b c : lt a b = false -> lt b c = false -> lt a c = false
}.

Section StableSort.
Context {A : Type} (lt : A -> A -> bool).

Fixpoint stable_insert (a : A) (l : list A) : list A :=
  match l with
  | [] => [a]
  | b :: l' => if lt b a then b :: stable_insert a l' else a :: l
  end.

(** The unique stable arrangement of [l] for the strict weak order [lt]. *)
Fixpoint stable_sort (l : list A) : list A :=
  match l with
  | [] => []
  | a :: l' => stable_insert a (stable_sort l')
  end.

Definition sorted_by (l : list A) : Prop := StronglySorted (fun a b => lt b a = false) l.

Lemma stable_insert_perm a l : stable_insert a l ≡ₚ a :: l.
Proof.
  induction l as [|b l IH]; simpl; [done|].
  destruct (lt b a); [|done]. rewrite IH. constructor.
Qed.

Lemma stable_sort_perm l : stable_sort l ≡ₚ l.
Proof.
  induction l as [|a l IH]; simpl; [done|]. by rewrite stable_insert_perm, IH.
Qed.

Hypothesis Hlt : strict_weak lt.

Lemma sw_asym a b : lt a b = true -> lt b a = false.
Proof.
  intros H. destruct (lt b a) eqn:E; [|done].
  pose proof (sw_trans _ Hlt _ _ _ H E). by rewrite (sw_irrefl _ Hlt) in *.
Qed.

Lemma stable_insert_sorted a l : sorted_by l -> sorted_by (stable_insert a l).
Proof.
  unfold sorted_by. induction 1 as [|b l Hl IH Hb]; simpl; [repeat constructor|].
  destruct (lt b a) eqn:E.
  - constructor; [done|]. rewrite stable_insert_perm. constructor; [|done].
    by apply sw_asym.
  - constructor; [by constructor|]. constructor; [done|].
    eapply Forall_impl; [exact Hb|]. intros c Hc. cbn in *.
    eapply sw_incomp; eauto.
Qed.

Lemma stable_sort_sorted l : sorted_by (stable_sort l).
Proof. induction l; simpl; [constructor|by apply stable_insert_sorted]. Qed.
End StableSort.

(** [std::sort] only promises a sorted permutation; the order of equivalent
    elements is unspecified. The code that uses it is verified against this
    interface. *)
Class StdSort := {
  std_sort : forall {A : Type}, (A -> A -> bool) -> list A -> list A;
  std_sort_perm : forall {A} (lt : A -> A -> bool) l, std_sort lt l ≡ₚ l;
  std_sort_sorted : forall {A} (lt : A -> A -> bool) l,
    strict_weak lt -> sorted_by lt (std_sort lt l)
}.

Definition std_sort_stable : StdSort := {|
  std_sort := @stable_sort;
  std_sort_perm := @stable_sort_perm;
  std_sort_sorted A lt l H := stable_sort_sorted lt H l
|}.

(** ** Lists *)

Lemma Forall2_lookup_eq {A} (l k : list A) :
  length l = length k -> (forall i, (i < length l)%nat -> l !! i = k !! i) -> l = k.
Proof.
  intros Hlen H. apply list_eq. intros i.
  destruct (decide (i < length l)%nat); [by apply H|].
  rewrite !lookup_ge_None_2 by lia. done.
Qed.

(** Sums over the rationals. *)
Fixpoint qsum (l : list Q) : Q := match l with [] => 0%Q | x :: l' => (x + qsum l')%Q end.

Lemma qsum_app l k : (qsum (l ++ k) == qsum l + qsum k)%Q.
Proof. induction l as [|a l IH]; simpl; [lra|]. rewrite IH. lra. Qed.

#[export] Instance qsum_perm : Proper ((≡ₚ) ==> Qeq) qsum.
Proof.
  induction 1 as [| x l k _ IH | x y l | l k m _ IH1 _ IH2]; simpl; lra.
Qed.

Lemma qsum_map_ext {A} (f g : A -> Q) l :
  (forall a, a ∈ l -> f a == g a)%Q -> (qsum (f <$> l) == qsum (g <$> l))%Q.
Proof.
  induction l as [|a l IH]; intros H; csimpl; [lra|].
  rewrite IH by (intros; apply H; by right).
  pose proof (H a (list_elem_of_here a l)). lra.
Qed.

Lemma qsum_map_scale {A} (f : A -> Q) c l :
  (qsum ((fun a => c * f a) <$> l) == c * qsum (f <$> l))%Q.
Proof.
  induction l as [|a l IH]; [simpl; lra|]. rewrite !fmap_cons. cbn [qsum] in *.
  rewrite IH. lra.
Qed.

Lemma qsum_map_plus {A} (f g : A -> Q) l :
  (qsum ((fun a => f a + g a) <$> l) == qsum (f <$> l) + qsum (g <$> l))%Q.
Proof.
  induction l as [|a l IH]; [simpl; lra|]. rewrite !fmap_cons. cbn [qsum] in *.
  rewrite IH. lra.
Qed.

Lemma qsum_const {A} (c : Q) (l : list A) :
  (qsum ((fun _ => c) <$> l) == inject_Z (Z.of_nat (length l)) * c)%Q.
Proof.
  induction l as [|a l IH]; [cbn; ring|].
  rewrite fmap_cons, length_cons, Nat2Z.inj_succ, <- Z.add_1_r, inject_Z_plus.
  change (inject_Z 1) with 1%Q. cbn [qsum] in *. rewrite IH. lra.
Qed.

Lemma qsum_nonneg l : Forall (fun x => 0 <= x)%Q l -> (0 <= qsum l)%Q.
Proof. induction 1; simpl; lra. Qed.

(** The left fold the loops of the code perform, and the sum. *)
Lemma qsum_fold_left l a : (fold_left Qplus l a == a + qsum l)%Q.
Proof.
  revert a; induction l as [|x l IH]; intros a; simpl; [lra|]. rewrite IH. lra.
Qed.

Create Rewrite HintDb vw.
#[export] Hint Rewrite qsum_app qsum_fold_left : vw.

Lemma strongly_sorted_impl {A} (R S : A -> A -> Prop) l :
  (forall a b, R a b -> S a b) -> StronglySorted R l -> StronglySorted S l.
Proof.
  intros HRS. induction 1 as [|a l _ IH Ha]; constructor; [done|].
  eapply Forall_impl; [exact Ha|]. intros b. apply HRS.
Qed.

(** Multiplication commutes, exactly, in every number format used. *)
Class NumComm (F : Type) `{Num F} := nmul_comm : forall a b : F, (a * b)%num = (b * a)%num.

#[export] Instance num_comm_Q : NumComm Q.
Proof. intros [a b] [c d]. cbn. unfold Qmult. cbn. by rewrite Z.mul_comm, Pos.mul_comm. Qed.

Lemma num_comm_sf prec emax : NumComm spec_float (H := num_sf prec emax).
Proof.
  intros [s| s | | s m e] [s'| s' | | s' m' e']; cbn; rewrite ?(xorb_comm s s'); try done.
  by rewrite Pos.mul_comm, Z.add_comm.
Qed.

Lemma existsb_none {A} (f : A -> bool) l : existsb f l = false <-> forall x, x ∈ l -> f x = false.
Proof.
  induction l as [|a l IH]; simpl.
  - split; [intros _ x Hx; by apply elem_of_nil in Hx|done].
  - rewrite orb_false_iff, IH. split.
    + intros [Ha Hl] x [->|Hx]%elem_of_cons; auto.
    + intros Hx. split; [apply Hx; by left|]. intros x ?. apply Hx. by right.
Qed.

(** A sum over a list, one element replaced. *)
Lemma sum_insert {A} (f : A -> nat) i x y (l : list A) :
  l !! i = Some x -> (sum_list_with f (<[i := y]> l) + f x = sum_list_with f l + f y)%nat.
Proof.
  intros Hi. rewrite <- (take_drop_middle l i x Hi) at 2. rewrite insert_take_drop by (by eapply lookup_lt_Some).
  rewrite !sum_list_with_app. cbn. lia.
Qed.

Lemma filter_none {A} (P : A -> Prop) `{forall x, Decision (P x)} l : Forall (fun x => ~ P x) l -> filter P l = [].
Proof. induction 1; [done|]. by rewrite filter_cons_False. Qed.

Lemma filter_every {A} (P : A -> Prop) `{forall x, Decision (P x)} l : Forall P l -> filter P l = l.
Proof. induction 1 as [|x l Hx _ IH]; [done|]. by rewrite filter_cons_True, IH. Qed.

Lemma fold_left_ext {A B} (f g : A -> B -> A) l a :
  (forall a b, b ∈ l -> f a b = g a b) -> fold_left f l a = fold_left g l a.
Proof.
  revert a; induction l as [|b l IH]; intros a Hfg; [done|]. cbn. rewrite Hfg by apply list_elem_of_here.
  apply IH. intros. apply Hfg. by right.
Qed.

Lemma bind_bind {A B C} (f : A -> list B) (g : B -> list C) (l : list A) : (l ≫= f) ≫= g = l ≫= (fun a => f a ≫= g).
Proof. induction l as [|a l IH]; [done|]. by rewrite !bind_cons, bind_app, IH. Qed.

Lemma imap_imap {A B C} (f : nat -> B -> C) (g : nat -> A -> B) (l : list A) : imap f (imap g l) = imap (fun i a => f i (g i a)) l.
Proof. revert f g; induction l as [|a l IH]; intros f g; [done|]. rewrite !imap_cons. f_equal. apply (IH (f ∘ S) (g ∘ S)). Qed.
