(* ===== verification/FloatBytes.v ===== *)
(** * The bytes of a [float] and of a [double]

    What [memcpy] of a floating-point number stores: the IEEE-754 bit pattern of the [SpecFloat]
    value, little endian. A format has one abstract NaN; its pattern is the quiet one. *)

From Stdlib Require Import Floats.SpecFloat.
From S2P Require Import Prelude.

Lemma digits2_pos_log2 m : Zpos (digits2_pos m) = Z.log2 (Zpos m) + 1.
Proof.
  induction m as [m IH|m IH|]; [..|done]; cbn [digits2_pos]; rewrite Pos2Z.inj_succ, IH.
  - rewrite (Pos2Z.inj_xI m), Z.log2_succ_double by lia. lia.
  - rewrite (Pos2Z.inj_xO m), Z.log2_double by lia. lia.
Qed.

(** ** A format: [mw] bits of mantissa, [ew] of exponent, one of sign *)

Section Format.
Context (mw ew : Z).

(** The implied first bit of the mantissa, the exponents, the least exponent less one. *)
Definition hidden : Z := 2 ^ mw.
Definition exponents : Z := 2 ^ ew.
Definition bias : Z := 2 ^ (ew - 1) + mw - 1.
Definition sign_bit (s : bool) : Z := if s then exponents * hidden else 0.

Definition bits_of_float (x : spec_float) : Z :=
  match x with
  | S754_zero s => sign_bit s
  | S754_infinity s => sign_bit s + (exponents - 1) * hidden
  | S754_nan => (exponents - 1) * hidden + 2 ^ (mw - 1)
  | S754_finite s m e => sign_bit s + (if Zpos m <? hidden then Zpos m else (e + bias) * hidden + (Zpos m - hidden))
  end.

Definition float_of_bits (z : Z) : spec_float :=
  let s := exponents * hidden <=? z in
  let ex := (z / hidden) mod exponents in
  let fr := z mod hidden in
  if ex =? 0 then match fr with Zpos m => S754_finite s m (1 - bias) | _ => S754_zero s end
  else if ex =? exponents - 1 then (if fr =? 0 then S754_infinity s else S754_nan)
  else match fr + hidden with Zpos m => S754_finite s m (ex - bias) | _ => S754_nan end.

Definition valid_float (x : spec_float) : Prop := valid_binary (mw + 1) (2 ^ (ew - 1)) x = true.

Hypothesis Hmw : 1 < mw.
Hypothesis Hew : 1 < ew.

Lemma hidden_ok : 2 < hidden /\ 0 < 2 ^ (mw - 1) < hidden.
Proof.
  assert (hidden = 2 * 2 ^ (mw - 1)) as -> by (unfold hidden; rewrite <- Z.pow_succ_r by lia; f_equal; lia).
  assert (2 ^ 1 <= 2 ^ (mw - 1)) by (apply Z.pow_le_mono_r; lia). lia.
Qed.

Lemma exponents_ok : exponents = 2 * 2 ^ (ew - 1) /\ 2 <= 2 ^ (ew - 1).
Proof.
  assert (exponents = 2 * 2 ^ (ew - 1)) as -> by (unfold exponents; rewrite <- Z.pow_succ_r by lia; f_equal; lia).
  assert (2 ^ 1 <= 2 ^ (ew - 1)) by (apply Z.pow_le_mono_r; lia). lia.
Qed.

(** The mantissas and exponents of the format. *)
Lemma valid_finite s m e : valid_float (S754_finite s m e) ->
  (0 < Zpos m < hidden /\ e = 1 - bias) \/ (hidden <= Zpos m < 2 * hidden /\ 1 - bias <= e <= exponents - 2 - bias).
Proof.
  unfold valid_float. cbn [valid_binary]. unfold bounded, canonical_mantissa, fexp, emin. intros Hv. bprop.
  destruct exponents_ok as [Hx Hx1]. rewrite digits2_pos_log2 in *.
  match goal with E : Z.max _ _ = e |- _ => rename E into He end.
  unfold bias, hidden in *. rewrite Hx. destruct (decide (Zpos m < 2 ^ mw)) as [Hm|Hm].
  - left. assert (Z.log2 (Zpos m) < mw) by (apply Z.log2_lt_pow2; lia). lia.
  - right. assert (mw <= Z.log2 (Zpos m)) by (apply Z.log2_le_pow2; lia).
    assert (Z.log2 (Zpos m) <= mw) by lia.
    split; [|lia]. split; [lia|]. replace (2 * 2 ^ mw) with (2 ^ Z.succ mw) by (rewrite Z.pow_succ_r; lia).
    apply Z.log2_lt_pow2; lia.
Qed.

Lemma split_bits (sg ex fr z : Z) : (sg = 0 \/ sg = 1) -> 0 <= ex < exponents -> 0 <= fr < hidden ->
  z = sg * (exponents * hidden) + ex * hidden + fr ->
  (exponents * hidden <=? z) = (sg =? 1) /\ (z / hidden) mod exponents = ex /\ z mod hidden = fr.
Proof.
  intros Hs He Hf ->. destruct hidden_ok as [Hh _]. destruct exponents_ok as [Hx Hx1].
  assert ((sg * (exponents * hidden) + ex * hidden + fr) / hidden = sg * exponents + ex) as Hd.
  { symmetry. apply (Z.div_unique _ _ _ fr); lia. }
  split_and!.
  - destruct Hs as [-> | ->]; [apply Z.leb_gt|apply Z.leb_le]; nia.
  - rewrite Hd. rewrite Z.add_comm, Z.mod_add by lia. by apply Z.mod_small.
  - symmetry. apply (Z.mod_unique _ _ (sg * exponents + ex)); lia.
Qed.

Lemma split_finite s ex fr : 0 <= ex < exponents -> 0 <= fr < hidden ->
  let z := sign_bit s + (ex * hidden + fr) in
  (exponents * hidden <=? z) = s /\ (z / hidden) mod exponents = ex /\ z mod hidden = fr.
Proof.
  intros He Hf. cbn zeta. destruct (split_bits (if s then 1 else 0) ex fr (sign_bit s + (ex * hidden + fr))) as (H1 & H2 & H3);
    [destruct s; lia|done|done|unfold sign_bit; destruct s; lia|].
  rewrite H1, H2, H3. by destruct s.
Qed.

Lemma bits_range x : valid_float x -> 0 <= bits_of_float x < 2 * exponents * hidden.
Proof.
  intros Hv. destruct hidden_ok as [Hh Hh2]. destruct exponents_ok as [Hx Hx1].
  assert (forall s, 0 <= sign_bit s <= exponents * hidden) as Hs by (unfold sign_bit; intros []; nia).
  destruct x as [s|s| |s m e]; cbn [bits_of_float]; try (specialize (Hs s)); try nia.
  apply valid_finite in Hv. destruct (Zpos m <? hidden) eqn:E; bprop; [nia|].
  destruct Hv as [[? ->]|[? ?]]; [lia|]. assert (0 <= (e + bias) * hidden <= (exponents - 2) * hidden) by (split; [nia|apply Z.mul_le_mono_nonneg_r; lia]). nia.
Qed.

Lemma float_bits_roundtrip x : valid_float x -> float_of_bits (bits_of_float x) = x.
Proof.
  intros Hv. destruct hidden_ok as [Hh Hh2]. destruct exponents_ok as [Hx Hx1].
  unfold float_of_bits. destruct x as [s|s| |s m e]; cbn [bits_of_float].
  - destruct (split_finite s 0 0) as (H1 & H2 & H3); [lia|lia|]. rewrite Z.mul_0_l, Z.add_0_r in *. by rewrite H1, H2, H3.
  - destruct (split_finite s (exponents - 1) 0) as (H1 & H2 & H3); [lia|lia|]. rewrite Z.add_0_r in *. rewrite H1, H2, H3.
    rewrite (proj2 (Z.eqb_neq _ _)) by lia. by rewrite Z.eqb_refl.
  - destruct (split_finite false (exponents - 1) (2 ^ (mw - 1))) as (H1 & H2 & H3); [lia|lia|]. cbn [sign_bit] in *.
    rewrite Z.add_0_l in *. rewrite H2, H3. rewrite (proj2 (Z.eqb_neq (exponents - 1) 0)) by lia.
    rewrite Z.eqb_refl. by rewrite (proj2 (Z.eqb_neq _ _)) by lia.
  - apply valid_finite in Hv. destruct Hv as [[Hm ->] | [Hm He]].
    + rewrite (proj2 (Z.ltb_lt _ _)) by lia. destruct (split_finite s 0 (Zpos m)) as (H1 & H2 & H3); [lia|lia|].
      rewrite Z.mul_0_l, Z.add_0_l in *. by rewrite H1, H2, H3.
    + rewrite (proj2 (Z.ltb_ge _ _)) by lia. destruct (split_finite s (e + bias) (Zpos m - hidden)) as (H1 & H2 & H3); [lia|lia|].
      rewrite H1, H2, H3. rewrite (proj2 (Z.eqb_neq _ _)) by lia. rewrite (proj2 (Z.eqb_neq _ _)) by lia.
      rewrite Z.sub_add. cbn iota. by rewrite Z.add_simpl_r.
Qed.
End Format.

(** ** [float] *)

Definition bits_of_b32 : f32 -> Z := bits_of_float 23 8.
Definition b32_of_bits : Z -> f32 := float_of_bits 23 8.
Definition valid_f32 (x : f32) : Prop := valid_binary 24 128 x = true.

Definition float_bytes (x : f32) : list byte := le_split 4 (bits_of_b32 x).
Definition float_of_bytes (bs : list byte) : f32 := b32_of_bits (le_combine bs).

Lemma float_bytes_roundtrip x : valid_f32 x -> float_of_bytes (float_bytes x) = x.
Proof.
  intros Hv. unfold float_of_bytes, float_bytes. rewrite le_combine_split. change (2 ^ (Z.of_nat 4 * 8)) with (2 * exponents 8 * hidden 23).
  rewrite Z.mod_small by (apply (bits_range 23 8); [lia|lia|exact Hv]). by apply (float_bits_roundtrip 23 8).
Qed.

Lemma length_float_bytes x : length (float_bytes x) = 4%nat.
Proof. apply length_le_split. Qed.
#[export] Hint Rewrite length_float_bytes : vw.

(** ** [double] *)

Definition valid_f64 (x : f64) : Prop := valid_binary 53 1024 x = true.

Definition double_bytes (x : f64) : list byte := le_split 8 (bits_of_float 52 11 x).
Definition double_of_bytes (bs : list byte) : f64 := float_of_bits 52 11 (le_combine bs).

Lemma double_bytes_roundtrip x : valid_f64 x -> double_of_bytes (double_bytes x) = x.
Proof.
  intros Hv. unfold double_of_bytes, double_bytes. rewrite le_combine_split. change (2 ^ (Z.of_nat 8 * 8)) with (2 * exponents 11 * hidden 52).
  rewrite Z.mod_small by (apply (bits_range 52 11); [lia|lia|exact Hv]). by apply (float_bits_roundtrip 52 11).
Qed.

Lemma length_double_bytes x : length (double_bytes x) = 8%nat.
Proof. apply length_le_split. Qed.
#[export] Hint Rewrite length_double_bytes : vw.

(** ** Constants

    [1.f] and [-1.f]; a comparison with them succeeds on no other value. *)
Definition f32_one : f32 := S754_finite false 8388608 (-23).
Definition f32_minus_one : f32 := S754_finite true 8388608 (-23).

Lemma f32_eqb_finite s m e x : SFeqb x (S754_finite s m e) = true -> x = S754_finite s m e.
Proof.
  unfold SFeqb, SFcompare. destruct x as [[]|[]| |s' m' e']; destruct s; try done; destruct s'; try done.
  all: destruct (Z.compare_spec e' e) as [->| |]; try done; change (PosDef.Pos.compare_cont Eq m' m) with (Pos.compare m' m);
    destruct (Pos.compare_spec m' m) as [->| |]; done.
Qed.
