(* ===== verification/Ordered.v ===== *)
(** * Ordered keys: [operator<] on keys, pairs and vectors, [std::set], [std::unique]

    What the C++ standard library promises about ordered containers, for the components that sort
    interactions or keep sets of namespaces. A [std::set] is the strictly increasing list of its
    elements, which is the order its iterators visit them in. *)

From S2P Require Import Prelude.

(** A strict total order given by [operator<]. *)
Class TotalLt (T : Type) := {
  key_ltb : T -> T -> bool;
  key_irrefl a : key_ltb a a = false;
  key_trans a b c : key_ltb a b = true -> key_ltb b c = true -> key_ltb a c = true;
  key_total a b : key_ltb a b = false -> key_ltb b a = false -> a = b
}.

#[export] Instance total_Z : TotalLt Z.
Proof.
  refine {| key_ltb := Z.ltb |}.
  - intros a. apply Z.ltb_irrefl.
  - intros a b c ? ?. bprop. apply Z.ltb_lt. lia.
  - intros a b ? ?. bprop. lia.
Defined.

(** [operator<] of [std::pair]. *)
Definition pair_ltb {A B} `{TotalLt A, TotalLt B} (x y : A * B) : bool :=
  key_ltb x.1 y.1 || (negb (key_ltb y.1 x.1) && key_ltb x.2 y.2).

(** [operator<] of [std::vector]: lexicographic. *)
Fixpoint list_ltb {A} `{TotalLt A} (l k : list A) : bool :=
  match l, k with
  | _, [] => false
  | [], _ :: _ => true
  | a :: l', b :: k' => key_ltb a b || (negb (key_ltb b a) && list_ltb l' k')
  end.

Section TotalLtFacts.
Context {T : Type} `{TotalLt T}.

Lemma key_asym a b : key_ltb a b = true -> key_ltb b a = false.
Proof.
  intros Hab. destruct (key_ltb b a) eqn:Hba; [|done].
  pose proof (key_trans _ _ _ Hab Hba). by rewrite key_irrefl in *.
Qed.

Lemma key_cases a b : key_ltb a b = true \/ a = b \/ key_ltb b a = true.
Proof.
  destruct (key_ltb a b) eqn:E; [by left|]. destruct (key_ltb b a) eqn:E'; [by right; right|].
  right; left. by apply key_total.
Qed.

Lemma key_le_lt_trans a b c : key_ltb b a = false -> key_ltb b c = true -> key_ltb a c = true.
Proof.
  intros Hba Hbc. destruct (key_cases a b) as [Hab|[->|Hab]]; [by eapply key_trans|done|congruence].
Qed.

(** Comparing by a key. *)
Lemma strict_weak_key {A} (f : A -> T) : strict_weak (fun a b => key_ltb (f a) (f b)).
Proof.
  split.
  - intros a. apply key_irrefl.
  - intros a b c. apply key_trans.
  - intros a b c Hab Hbc. destruct (key_ltb (f a) (f c)) eqn:E; [|done].
    rewrite (key_le_lt_trans _ _ _ Hab E) in Hbc. done.
Qed.
End TotalLtFacts.

#[export] Instance total_pair {A B} `{TotalLt A, TotalLt B} : TotalLt (A * B).
Proof.
  refine {| key_ltb := pair_ltb |}; unfold pair_ltb.
  - intros [a b]. simpl. by rewrite !key_irrefl.
  - intros [a b] [a' b'] [a'' b'']. simpl.
    destruct (key_cases a a') as [E|[->|E]]; rewrite ?E, ?(key_asym _ _ E), ?key_irrefl; simpl; [|intros Hb|done].
    + intros _ Hbc. destruct (key_ltb a a'') eqn:E2; [done|].
      rewrite (key_le_lt_trans a'' a a') in Hbc by done. simpl in Hbc. rewrite orb_false_r in Hbc.
      rewrite (key_trans _ _ _ E Hbc) in E2. done.
    + destruct (key_ltb a' a''); [done|]. simpl. destruct (key_ltb a'' a'); [done|]. simpl. by apply key_trans.
  - intros [a b] [a' b']. simpl. destruct (key_cases a a') as [E|[->|E]].
    + by rewrite E.
    + rewrite key_irrefl. simpl. intros. f_equal. by apply key_total.
    + rewrite E. intros _. done.
Defined.

#[export] Instance total_list {A} `{TotalLt A} : TotalLt (list A).
Proof.
  refine {| key_ltb := list_ltb |}.
  - induction a as [|a l IH]; [done|]. simpl. by rewrite key_irrefl, IH.
  - induction a as [|a l IH]; intros [|b k] [|c m]; simpl; try done.
    destruct (key_cases a b) as [E|[->|E]]; rewrite ?E, ?(key_asym _ _ E), ?key_irrefl; simpl; [|intros Hb|done].
    + intros _ Hbc. destruct (key_ltb a c) eqn:E2; [done|].
      rewrite (key_le_lt_trans c a b) in Hbc by done. simpl in Hbc. rewrite orb_false_r in Hbc.
      rewrite (key_trans _ _ _ E Hbc) in E2. done.
    + destruct (key_ltb b c); [done|]. simpl. destruct (key_ltb c b); [done|]. simpl. by apply IH.
  - induction a as [|a l IH]; intros [|b k]; simpl; try done.
    destruct (key_cases a b) as [E|[->|E]].
    + by rewrite E.
    + rewrite key_irrefl. simpl. intros. f_equal. by apply IH.
    + rewrite E. intros _. done.
Defined.

(** ** [std::set] *)

Section Set_.
Context {T : Type} `{TotalLt T}.

Fixpoint set_insert (x : T) (s : list T) : list T :=
  match s with
  | [] => [x]
  | y :: s' => if key_ltb x y then x :: s else if key_ltb y x then y :: set_insert x s' else s
  end.

Definition increasing (s : list T) : Prop := StronglySorted (fun a b => key_ltb a b = true) s.

Lemma elem_of_set_insert x y s : y ∈ set_insert x s <-> y = x \/ y ∈ s.
Proof.
  induction s as [|z s IH]; simpl; [by rewrite elem_of_cons|].
  case_if; [by rewrite elem_of_cons|]. case_if.
  - rewrite !elem_of_cons, IH. naive_solver.
  - rewrite (key_total _ _ E E0), elem_of_cons. naive_solver.
Qed.

Lemma set_insert_increasing x s : increasing s -> increasing (set_insert x s).
Proof.
  unfold increasing. induction 1 as [|y s Hs IH Hy]; simpl; [repeat constructor|].
  case_if; [|case_if].
  - constructor; [by constructor|]. constructor; [done|]. eapply Forall_impl; [exact Hy|].
    intros z Hz. by eapply key_trans.
  - constructor; [done|]. apply Forall_forall. intros z Hz. apply elem_of_set_insert in Hz as [->|Hz]; [done|].
    by eapply Forall_forall in Hy.
  - by constructor.
Qed.

Lemma increasing_eq s s' : increasing s -> increasing s' -> (forall x, x ∈ s <-> x ∈ s') -> s = s'.
Proof.
  unfold increasing. intros Hs. revert s'. induction Hs as [|y s Hs IH Hy]; intros s' Hs' Heq.
  - destruct s' as [|z s']; [done|]. specialize (Heq z). rewrite elem_of_nil, elem_of_cons in Heq. naive_solver.
  - destruct Hs' as [|z s' Hs' Hz].
    { specialize (Heq y). rewrite elem_of_nil, elem_of_cons in Heq. naive_solver. }
    rewrite Forall_forall in Hy, Hz. assert (y = z) as <-.
    { pose proof (proj1 (Heq y) (list_elem_of_here _ _)) as H1. pose proof (proj2 (Heq z) (list_elem_of_here _ _)) as H2.
      apply elem_of_cons in H1 as [->|H1]; [done|]. apply elem_of_cons in H2 as [->|H2]; [done|].
      pose proof (key_asym _ _ (Hy _ H2)). rewrite (Hz _ H1) in *. done. }
    f_equal. apply IH; [done|]. intros x. specialize (Heq x). rewrite !elem_of_cons in Heq. split; intros Hx.
    + destruct (proj1 Heq (or_intror Hx)) as [->|?]; [|done]. specialize (Hy _ Hx). by rewrite key_irrefl in Hy.
    + destruct (proj2 Heq (or_intror Hx)) as [->|?]; [|done]. specialize (Hz _ Hx). by rewrite key_irrefl in Hz.
Qed.

(** Inserting a range. *)
Definition set_insert_all (xs s : list T) : list T := foldl (fun s x => set_insert x s) s xs.

Lemma elem_of_set_insert_all xs s y : y ∈ set_insert_all xs s <-> y ∈ xs \/ y ∈ s.
Proof.
  unfold set_insert_all. revert s; induction xs as [|x xs IH]; intros s; simpl.
  - rewrite elem_of_nil. naive_solver.
  - rewrite IH, elem_of_set_insert, elem_of_cons. naive_solver.
Qed.

Lemma set_insert_all_increasing xs s : increasing s -> increasing (set_insert_all xs s).
Proof.
  unfold set_insert_all. revert s; induction xs as [|x xs IH]; intros s Hs; [done|]. by apply IH, set_insert_increasing.
Qed.

Lemma increasing_NoDup s : increasing s -> NoDup s.
Proof.
  induction 1 as [|y s Hs IH Hy]; constructor; [|done]. intros Hin. eapply Forall_forall in Hin; [|exact Hy].
  cbn in Hin. by rewrite key_irrefl in Hin.
Qed.

Lemma increasing_filter (P : T -> Prop) `{forall x, Decision (P x)} s : increasing s -> increasing (filter P s).
Proof.
  induction 1 as [|y s Hs IH Hy]; [constructor|]. rewrite filter_cons. case_decide; [|done].
  constructor; [done|]. apply Forall_forall. intros z [_ Hz]%list_elem_of_filter. by eapply Forall_forall in Hy.
Qed.

Lemma set_insert_known x s : increasing s -> x ∈ s -> set_insert x s = s.
Proof.
  intros Hs Hx. apply increasing_eq; [by apply set_insert_increasing|done|].
  intros y. rewrite elem_of_set_insert. split; [|by right]. intros [->|?]; done.
Qed.

(** An insertion changes the set exactly when it grows. *)
Lemma set_insert_all_length xs s : increasing s ->
  (length s <= length (set_insert_all xs s))%nat /\
  (length (set_insert_all xs s) = length s -> set_insert_all xs s = s).
Proof.
  intros Hs. pose proof (increasing_NoDup _ Hs) as Hnd.
  assert (s ⊆ set_insert_all xs s) as Hsub by (intros y Hy; apply elem_of_set_insert_all; by right).
  split; [by apply submseteq_length, NoDup_submseteq|].
  intros Hlen. symmetry. apply increasing_eq; [done|by apply set_insert_all_increasing|].
  intros y. split; [apply Hsub|].
  assert (s ≡ₚ set_insert_all xs s) as <-; [|done].
  apply submseteq_length_Permutation; [by apply NoDup_submseteq|lia].
Qed.
End Set_.

(** ** [std::unique] and stability *)

Section Unique.
Context {A : Type} (eqb : A -> A -> bool).

(** Each element is compared with the last one kept. *)
Fixpoint unique_from (last : A) (l : list A) : list A :=
  match l with
  | [] => []
  | a :: l' => if eqb last a then unique_from last l' else a :: unique_from a l'
  end.
Definition std_unique (l : list A) : list A := match l with [] => [] | a :: l' => a :: unique_from a l' end.
End Unique.
