(* ===== verification/Hash.v ===== *)
(** * Hashing ([common/include/vw/common/hash.h], [core/include/vw/core/hashstring.h],
      [core/src/hashstring.cc])

    The 32-bit murmur hash of feature and namespace names, and the [strings] hasher that maps a
    decimal name to its number. *)

From S2P Require Import Prelude.

Definition rotl32 (x r : Z) : Z := Z.lor (u32 (Z.shiftl x r)) (Z.shiftr x (32 - r)).

Definition fmix (h : Z) : Z :=
  let h := Z.lxor h (Z.shiftr h 16) in
  let h := u32 (h * 0x85ebca6b) in
  let h := Z.lxor h (Z.shiftr h 13) in
  let h := u32 (h * 0xc2b2ae35) in
  Z.lxor h (Z.shiftr h 16).

Definition byte_at (p : list byte) (i : nat) : Z := byte_val (nth i p Byte.x00).

Definition get_block (p : list byte) (i : nat) : Z :=
  Z.lor (Z.lor (Z.lor (byte_at p (0 + i * 4)) (Z.shiftl (byte_at p (1 + i * 4)) 8))
    (Z.shiftl (byte_at p (2 + i * 4)) 16)) (Z.shiftl (byte_at p (3 + i * 4)) 24).

Definition c1 : Z := 0xcc9e2d51.
Definition c2 : Z := 0x1b873593.

(** [k1 *= c1; k1 = rotl32(k1, 15); k1 *= c2] *)
Definition mix_k1 (k1 : Z) : Z := u32 (rotl32 (u32 (k1 * c1)) 15 * c2).

(** One iteration of the body. *)
Definition body_step (h1 k1 : Z) : Z := u32 (rotl32 (Z.lxor h1 (mix_k1 k1)) 13 * 5 + 0xe6546b64).

(** The [switch] on the length of the tail, with its fall through. *)
Definition tail_k1 (tail : list byte) (len : nat) : Z :=
  match len with
  | 3%nat => Z.lxor (Z.lxor (Z.shiftl (byte_at tail 2) 16) (Z.shiftl (byte_at tail 1) 8)) (byte_at tail 0)
  | 2%nat => Z.lxor (Z.shiftl (byte_at tail 1) 8) (byte_at tail 0)
  | _ => byte_at tail 0
  end.

Definition murmurhash_x86_32 (data : list byte) (seed : Z) : Z :=
  let len := length data in
  let num_blocks := (len / 4)%nat in
  let h1 := fold_left (fun h1 i => body_step h1 (get_block data i)) (seq 0 num_blocks) seed in
  let tail := drop (num_blocks * 4) data in
  let h1 := if (len mod 4 =? 0)%nat then h1 else Z.lxor h1 (mix_k1 (tail_k1 tail (len mod 4))) in
  fmix (Z.lxor h1 (u32 (Z.of_nat len))).

Definition uniform_hash (data : list byte) (seed : Z) : Z := murmurhash_x86_32 data seed.

(** ** [hashall] and [hashstring] *)

Definition hashall (s : list byte) (h : Z) : Z := uniform_hash s h.

(** A [char] between 0 and 0x20 (a [char] of 128 and more is negative). *)
Definition is_blank (b : byte) : bool := byte_val b <=? 0x20.
Definition is_digit (b : byte) : bool := (48 <=? byte_val b) && (byte_val b <=? 57).

Fixpoint trim_front (s : list byte) : list byte :=
  match s with b :: s' => if is_blank b then trim_front s' else s | [] => [] end.
Definition trim (s : list byte) : list byte := rev (trim_front (rev (trim_front s))).

(** The loop over the characters; [None] at the first one that is not a digit. *)
Fixpoint parse_digits (p : list byte) (ret : Z) : option Z :=
  match p with
  | [] => Some ret
  | b :: p' => if is_digit b then parse_digits p' (u64 (10 * ret + byte_val b - 48)) else None
  end.

Definition hashstring (s : list byte) (h : Z) : Z :=
  let front := trim s in
  match parse_digits front 0 with
  | Some ret => u32 (u32 ret + h)
  | None => uniform_hash front h
  end.

Inductive hash_func_t := Hashstring | Hashall.

(** [get_hasher]; [None] is the exception for an unknown name. *)
Definition get_hasher (s : list byte) : option hash_func_t :=
  if decide (s = str "strings") then Some Hashstring
  else if decide (s = str "all") then Some Hashall
  else None.

Definition run_hasher (f : hash_func_t) : list byte -> Z -> Z :=
  match f with Hashstring => hashstring | Hashall => hashall end.

(** * Theorems *)

(** ** Each step of the hash is injective on 32-bit words *)

Definition word32 (x : Z) : Prop := 0 <= x < 2 ^ 32.

Lemma u32_word x : word32 (u32 x).
Proof. unfold word32, u32. apply Z.mod_pos_bound. done. Qed.

Lemma u32_small x : word32 x -> u32 x = x.
Proof. intros. unfold u32. by apply Z.mod_small. Qed.

Lemma word32_shiftr x k : word32 x -> 0 <= k -> word32 (Z.shiftr x k).
Proof.
  intros Hx Hk. rewrite Z.shiftr_div_pow2 by done. unfold word32 in *.
  assert (0 < 2 ^ k) by (apply Z.pow_pos_nonneg; lia). split; [apply Z.div_pos; lia|].
  apply Z.le_lt_trans with x; [|lia]. apply Z.div_le_upper_bound; nia.
Qed.

Lemma word32_lxor x y : word32 x -> word32 y -> word32 (Z.lxor x y).
Proof.
  unfold word32. intros Hx Hy. split; [apply Z.lxor_nonneg; lia|].
  destruct (decide (Z.lxor x y = 0)) as [->|Hne]; [done|].
  assert (0 < Z.lxor x y) by (assert (0 <= Z.lxor x y) by (apply Z.lxor_nonneg; lia); lia).
  apply Z.log2_lt_pow2; [done|]. eapply Z.le_lt_trans; [apply Z.log2_lxor; lia|].
  apply Z.max_lub_lt.
  - destruct (decide (x = 0)) as [->|]; [done|]. apply Z.log2_lt_pow2; lia.
  - destruct (decide (y = 0)) as [->|]; [done|]. apply Z.log2_lt_pow2; lia.
Qed.

Lemma lxor_inj_r x y z : Z.lxor x z = Z.lxor y z -> x = y.
Proof.
  intros H. rewrite <- (Z.lxor_0_r x), <- (Z.lxor_0_r y), <- (Z.lxor_nilpotent z), <- !Z.lxor_assoc. by rewrite H.
Qed.

(** [h ^= h >> k] *)
Lemma xorshift_inj k x y :
  0 < k -> 0 <= x -> 0 <= y -> Z.lxor x (Z.shiftr x k) = Z.lxor y (Z.shiftr y k) -> x = y.
Proof.
  intros Hk Hx Hy Heq. apply Z.lxor_eq.
  set (z := Z.lxor x y).
  assert (z = Z.shiftr z k) as Hz.
  { subst z. rewrite Z.shiftr_lxor. apply (lxor_inj_r _ _ (Z.lxor y (Z.shiftr x k))).
    transitivity (Z.lxor x (Z.shiftr x k)).
    - rewrite (Z.lxor_comm x y), (Z.lxor_comm y (Z.shiftr x k)), Z.lxor_assoc, <- (Z.lxor_assoc x), (Z.lxor_comm _ y).
      by rewrite <- Z.lxor_assoc, Z.lxor_nilpotent, Z.lxor_0_l.
    - rewrite Heq. rewrite (Z.lxor_comm (Z.shiftr x k) (Z.shiftr y k)), (Z.lxor_comm y (Z.shiftr x k)).
      by rewrite Z.lxor_assoc, <- (Z.lxor_assoc (Z.shiftr x k)), Z.lxor_nilpotent, Z.lxor_0_l, Z.lxor_comm. }
  assert (0 <= z) as Hz0 by (apply Z.lxor_nonneg; lia).
  rewrite Z.shiftr_div_pow2 in Hz by lia.
  assert (1 < 2 ^ k) by (apply Z.pow_gt_1; lia).
  destruct (decide (z = 0)); [done|]. pose proof (Z.div_lt z (2 ^ k)). lia.
Qed.

(** Multiplication by a constant that has an inverse modulo 2^32. *)
Lemma mul_inj c cinv x y :
  (c * cinv) mod 2 ^ 32 = 1 -> word32 x -> word32 y -> u32 (x * c) = u32 (y * c) -> x = y.
Proof.
  unfold u32. intros Hc Hx Hy Heq.
  assert (forall z, word32 z -> ((z * c) mod 2 ^ 32 * cinv) mod 2 ^ 32 = z) as Hinv.
  { intros z Hz. rewrite Z.mul_mod_idemp_l by done. rewrite <- Z.mul_assoc, <- Z.mul_mod_idemp_r by done.
    rewrite Hc, Z.mul_1_r. by apply Z.mod_small. }
  by rewrite <- (Hinv x Hx), <- (Hinv y Hy), Heq.
Qed.

Lemma add_inj c x y : word32 x -> word32 y -> u32 (x + c) = u32 (y + c) -> x = y.
Proof.
  unfold u32, word32. intros Hx Hy Heq.
  rewrite <- (Z.mod_small x (2 ^ 32)), <- (Z.mod_small y (2 ^ 32)) by done.
  replace x with (x + c - c) by lia. replace y with (y + c - c) by lia.
  rewrite (Zminus_mod (x + c)), (Zminus_mod (y + c)). by rewrite Heq.
Qed.

Lemma rotl32_arith x r : word32 x -> 0 < r < 32 ->
  rotl32 x r = (x mod 2 ^ (32 - r)) * 2 ^ r + x / 2 ^ (32 - r).
Proof.
  intros Hx Hr. unfold rotl32, u32. rewrite Z.shiftl_mul_pow2, Z.shiftr_div_pow2 by lia.
  assert (0 < 2 ^ r) by (apply Z.pow_pos_nonneg; lia). assert (0 < 2 ^ (32 - r)) by (apply Z.pow_pos_nonneg; lia).
  assert (2 ^ 32 = 2 ^ r * 2 ^ (32 - r)) as Hp by (rewrite <- Z.pow_add_r by lia; f_equal; lia).
  rewrite Hp, (Z.mul_comm x), Z.mul_mod_distr_l, (Z.mul_comm (2 ^ r) (x mod _)) by lia.
  assert (0 <= x / 2 ^ (32 - r) < 2 ^ r) as Hlow.
  { unfold word32 in Hx. split; [apply Z.div_pos; lia|]. apply Z.div_lt_upper_bound; nia. }
  assert (Z.land (x mod 2 ^ (32 - r) * 2 ^ r) (x / 2 ^ (32 - r)) = 0) as Hland.
  { apply Z.bits_inj'. intros n Hn. rewrite Z.land_spec, Z.bits_0.
    destruct (decide (n < r)).
    - rewrite Z.mul_pow2_bits_low by lia. done.
    - rewrite (Z.bits_above_log2 (x / _)); [apply andb_false_r|lia|].
      destruct (decide (x / 2 ^ (32 - r) = 0)) as [->|]; [simpl; lia|]. apply Z.log2_lt_pow2; [lia|].
      apply Z.lt_le_trans with (2 ^ r); [lia|]. apply Z.pow_le_mono_r; lia. }
  pose proof (Z.add_lor_land (x mod 2 ^ (32 - r) * 2 ^ r) (x / 2 ^ (32 - r))). lia.
Qed.

Lemma rotl32_word x r : word32 x -> 0 < r < 32 -> word32 (rotl32 x r).
Proof.
  intros Hx Hr. rewrite rotl32_arith by done. unfold word32 in *.
  assert (0 < 2 ^ r) by (apply Z.pow_pos_nonneg; lia). assert (0 < 2 ^ (32 - r)) by (apply Z.pow_pos_nonneg; lia).
  assert (2 ^ 32 = 2 ^ r * 2 ^ (32 - r)) as Hp by (rewrite <- Z.pow_add_r by lia; f_equal; lia).
  assert (0 <= x / 2 ^ (32 - r) < 2 ^ r).
  { split; [apply Z.div_pos; lia|]. apply Z.div_lt_upper_bound; nia. }
  pose proof (Z.mod_pos_bound x (2 ^ (32 - r)) ltac:(lia)). nia.
Qed.

Lemma rotl32_inj r x y : 0 < r < 32 -> word32 x -> word32 y -> rotl32 x r = rotl32 y r -> x = y.
Proof.
  intros Hr Hx Hy. rewrite !rotl32_arith by done. intros Heq. unfold word32 in *.
  assert (0 < 2 ^ r) by (apply Z.pow_pos_nonneg; lia). assert (0 < 2 ^ (32 - r)) by (apply Z.pow_pos_nonneg; lia).
  assert (2 ^ 32 = 2 ^ r * 2 ^ (32 - r)) as Hp by (rewrite <- Z.pow_add_r by lia; f_equal; lia).
  assert (forall z, 0 <= z < 2 ^ 32 -> 0 <= z / 2 ^ (32 - r) < 2 ^ r) as Hq.
  { intros z Hz. split; [apply Z.div_pos; lia|]. apply Z.div_lt_upper_bound; nia. }
  pose proof (Hq _ Hx). pose proof (Hq _ Hy).
  destruct (Z.div_mod_unique (2 ^ r) (x mod 2 ^ (32 - r)) (y mod 2 ^ (32 - r)) (x / 2 ^ (32 - r)) (y / 2 ^ (32 - r)))
    as [Hm Hd]; [lia..|].
  rewrite (Z.div_mod x (2 ^ (32 - r))), (Z.div_mod y (2 ^ (32 - r))) by lia. by rewrite Hm, Hd.
Qed.

Create HintDb word32.
#[export] Hint Resolve u32_word word32_lxor : word32.
#[export] Hint Extern 1 (word32 (Z.shiftr _ _)) => apply word32_shiftr; [|lia] : word32.
#[export] Hint Extern 1 (word32 (rotl32 _ _)) => apply rotl32_word; [|lia] : word32.
Ltac word := auto 6 with word32.

Lemma fmix_inj x y : word32 x -> word32 y -> fmix x = fmix y -> x = y.
Proof.
  intros Hx Hy Heq. unfold fmix in Heq.
  apply xorshift_inj in Heq; [|lia|apply u32_word..].
  apply (mul_inj 0xc2b2ae35 2127672349) in Heq; [|done|word..].
  apply xorshift_inj in Heq; [|lia|apply u32_word..].
  apply (mul_inj 0x85ebca6b 2781581891) in Heq; [|done|word..].
  by apply xorshift_inj in Heq; [| |apply Hx|apply Hy].
Qed.

Lemma mix_k1_inj x y : word32 x -> word32 y -> mix_k1 x = mix_k1 y -> x = y.
Proof.
  intros Hx Hy Heq. unfold mix_k1 in Heq.
  apply (mul_inj c2 1458385051) in Heq; [|done|word..].
  apply rotl32_inj in Heq; [|lia|word..].
  by apply (mul_inj c1 3739302833) in Heq.
Qed.

Lemma mix_k1_word x : word32 (mix_k1 x).
Proof. apply u32_word. Qed.

Lemma body_step_word h k : word32 (body_step h k).
Proof. apply u32_word. Qed.
#[export] Hint Resolve mix_k1_word body_step_word : word32.

Lemma body_step_mixed h h' k k' :
  word32 h -> word32 h' -> body_step h k = body_step h' k' -> Z.lxor h (mix_k1 k) = Z.lxor h' (mix_k1 k').
Proof.
  intros Hh Hh' Heq. unfold body_step in Heq.
  assert (forall x, u32 (x * 5 + 0xe6546b64) = u32 (u32 (x * 5) + 0xe6546b64)) as Hsplit
    by (intros x; unfold u32; by rewrite Z.add_mod_idemp_l).
  rewrite !Hsplit in Heq. apply add_inj in Heq; [|word..].
  apply (mul_inj 5 3435973837) in Heq; [|done|word..].
  apply rotl32_inj in Heq; [done|lia|word..].
Qed.

Lemma body_step_inj_h k h h' : word32 h -> word32 h' -> body_step h k = body_step h' k -> h = h'.
Proof. intros Hh Hh' Heq. apply body_step_mixed in Heq; [|done..]. by apply lxor_inj_r in Heq. Qed.

Lemma body_step_inj_k h k k' : word32 h -> word32 k -> word32 k' -> body_step h k = body_step h k' -> k = k'.
Proof.
  intros Hh Hk Hk' Heq. apply body_step_mixed in Heq; [|done..]. rewrite !(Z.lxor_comm h) in Heq.
  apply lxor_inj_r in Heq. by apply mix_k1_inj in Heq.
Qed.

Lemma body_word ks h : word32 h -> word32 (fold_left body_step ks h).
Proof. revert h; induction ks as [|k ks IH]; intros h Hh; [done|]. apply IH. word. Qed.

Lemma body_inj ks h h' : word32 h -> word32 h' -> fold_left body_step ks h = fold_left body_step ks h' -> h = h'.
Proof.
  revert h h'; induction ks as [|k ks IH]; intros h h' Hh Hh' Heq; [done|].
  apply IH in Heq; [|word..]. by apply body_step_inj_h in Heq.
Qed.

(** ** The blocks of the data *)

Definition word_of (b : list byte) : Z := le_combine b.

Lemma word_of_inj b b' : length b = length b' -> word_of b = word_of b' -> b = b'.
Proof.
  intros Hlen Heq. rewrite <- (split_le_combine b), <- (split_le_combine b'). unfold word_of in Heq. by rewrite Hlen, Heq.
Qed.

Lemma word_of_word b : length b = 4%nat -> word32 (word_of b).
Proof. intros Hb. unfold word_of, word32. pose proof (le_combine_bound b) as H. rewrite Hb in H. exact H. Qed.

(** The words of the blocks. *)
Definition blocks (data : list byte) : list Z := (fun i => get_block data i) <$> seq 0 (length data / 4).

Lemma body_blocks data seed :
  fold_left (fun h1 i => body_step h1 (get_block data i)) (seq 0 (length data / 4)) seed =
  fold_left body_step (blocks data) seed.
Proof.
  unfold blocks. generalize (seq 0 (length data / 4)) as l. intros l. revert seed.
  induction l as [|i l IH]; intros seed; [done|]. apply IH.
Qed.

(** The same by recursion on the data: a word for each four bytes, and what is left. *)
Fixpoint words (data : list byte) : list Z :=
  match data with
  | b0 :: b1 :: b2 :: b3 :: rest => word_of [b0; b1; b2; b3] :: words rest
  | _ => []
  end.
Fixpoint left_over (data : list byte) : list byte :=
  match data with
  | _ :: _ :: _ :: _ :: rest => left_over rest
  | _ => data
  end.

Lemma bytes4_ind (P : list byte -> Prop) :
  (forall b, (length b < 4)%nat -> P b) ->
  (forall b0 b1 b2 b3 rest, P rest -> P (b0 :: b1 :: b2 :: b3 :: rest)) -> forall data, P data.
Proof.
  intros Hshort Hstep data. induction data as [data IH] using (well_founded_ind (well_founded_ltof _ length)).
  destruct data as [|b0 [|b1 [|b2 [|b3 rest]]]]; try (apply Hshort; simpl; lia).
  apply Hstep, IH. unfold ltof. simpl. lia.
Qed.

Lemma get_block_head b0 b1 b2 b3 rest : get_block (b0 :: b1 :: b2 :: b3 :: rest) 0 = word_of [b0; b1; b2; b3].
Proof.
  unfold get_block, byte_at, word_of, le_combine. cbn [Nat.mul Nat.add nth].
  rewrite Z.shiftl_0_l, Z.lor_0_r, !Z.shiftl_lor, !Z.shiftl_shiftl by lia. cbn [Z.add Pos.add Pos.succ].
  by rewrite !Z.lor_assoc.
Qed.

Lemma div4_step n : (S (S (S (S n))) / 4 = S (n / 4))%nat.
Proof. replace (S (S (S (S n)))) with (n + 1 * 4)%nat by lia. rewrite Nat.div_add by lia. lia. Qed.

Lemma blocks_words data : blocks data = words data.
Proof.
  induction data as [data Hd|b0 b1 b2 b3 rest IH] using bytes4_ind.
  - unfold blocks. rewrite Nat.div_small by done. by destruct data as [|? [|? [|? [|? ?]]]]; simpl in Hd; try lia.
  - unfold blocks. cbn [length]. rewrite div4_step. cbn [seq]. rewrite fmap_cons, get_block_head. cbn [words]. f_equal.
    rewrite <- IH. unfold blocks. rewrite <- fmap_S_seq, <- list_fmap_compose. apply list_fmap_ext. intros i x _.
    unfold compose, get_block, byte_at.
    by replace (S x * 4)%nat with (S (S (S (S (x * 4))))) by lia.
Qed.

Lemma left_over_drop data : drop (length data / 4 * 4) data = left_over data.
Proof.
  induction data as [data Hd|b0 b1 b2 b3 rest IH] using bytes4_ind.
  - rewrite Nat.div_small by done. by destruct data as [|? [|? [|? [|? ?]]]]; simpl in Hd; try lia.
  - cbn [length]. rewrite div4_step. cbn [Nat.mul Nat.add drop left_over]. done.
Qed.

Lemma left_over_length data : length (left_over data) = (length data mod 4)%nat.
Proof.
  induction data as [data Hd|b0 b1 b2 b3 rest IH] using bytes4_ind.
  - rewrite Nat.mod_small by done. by destruct data as [|? [|? [|? [|? ?]]]]; simpl in Hd; try lia.
  - cbn [length left_over]. rewrite IH. replace (S (S (S (S (length rest))))) with (length rest + 1 * 4)%nat by lia.
    by rewrite Nat.Div0.mod_add.
Qed.

Lemma words_app pre rest : (length pre mod 4 = 0)%nat -> words (pre ++ rest) = words pre ++ words rest /\
  left_over (pre ++ rest) = left_over rest.
Proof.
  induction pre as [pre Hd|b0 b1 b2 b3 pre IH] using bytes4_ind; intros Hm.
  - rewrite Nat.mod_small in Hm by done. by apply nil_length_inv in Hm as ->.
  - cbn [length] in Hm. replace (S (S (S (S (length pre))))) with (length pre + 1 * 4)%nat in Hm by lia.
    rewrite Nat.Div0.mod_add in Hm. cbn [app words left_over]. by destruct (IH Hm) as [-> ->].
Qed.

Lemma words_word data : Forall word32 (words data).
Proof.
  induction data as [data Hd|b0 b1 b2 b3 rest IH] using bytes4_ind.
  - by destruct data as [|? [|? [|? [|? ?]]]]; simpl in Hd; try lia; constructor.
  - cbn [words]. constructor; [by apply word_of_word|done].
Qed.

(** The tail as a number. *)
Lemma lxor_shift_add a b : 0 <= a -> 0 <= b < 2 ^ 8 -> Z.lxor (Z.shiftl a 8) b = b + 2 ^ 8 * a.
Proof.
  intros Ha Hb. rewrite Z.shiftl_mul_pow2 by lia. rewrite Z.add_comm, (Z.mul_comm (2 ^ 8)), Z.add_nocarry_lxor; [done|].
  apply Z.bits_inj'. intros n Hn. rewrite Z.land_spec, Z.bits_0. destruct (decide (n < 8)).
  - by rewrite Z.mul_pow2_bits_low by lia.
  - rewrite (Z.bits_above_log2 b); [apply andb_false_r|lia|]. destruct (decide (b = 0)) as [->|]; [cbn; lia|].
    apply Z.log2_lt_pow2; [lia|]. apply Z.lt_le_trans with (2 ^ 8); [lia|]. apply Z.pow_le_mono_r; lia.
Qed.

Lemma tail_k1_inj t t' :
  length t = length t' -> (0 < length t < 4)%nat -> tail_k1 t (length t) = tail_k1 t' (length t') -> t = t'.
Proof.
  pose proof byte.unsigned_range as Hr.
  assert (Hinj : forall x y, byte_val x = byte_val y -> x = y).
  { intros x y Hxy. rewrite <- (byte.of_Z_unsigned x), <- (byte.of_Z_unsigned y). by rewrite Hxy. }
  assert (Hstep : forall a b x y, 0 <= a -> 0 <= b ->
    Z.lxor (Z.shiftl a 8) (byte_val x) = Z.lxor (Z.shiftl b 8) (byte_val y) -> a = b /\ x = y).
  { intros a b x y Ha Hb Heq. pose proof (Hr x). pose proof (Hr y). rewrite !lxor_shift_add in Heq by lia.
    split; [lia|]. apply Hinj. lia. }
  destruct t as [|a0 [|a1 [|a2 [|? ?]]]], t' as [|b0 [|b1 [|b2 [|? ?]]]]; cbn [length]; intros Hlen Hpos; try lia;
    unfold tail_k1, byte_at; cbn [nth].
  - intros Heq. f_equal. by apply Hinj.
  - pose proof (Hr a1). pose proof (Hr b1). intros Heq. apply Hstep in Heq as [? ->]; [|lia..]. do 2 f_equal. by apply Hinj.
  - assert (forall x y, Z.lxor (Z.shiftl (byte_val x) 16) (Z.shiftl (byte_val y) 8) = Z.shiftl (Z.lxor (Z.shiftl (byte_val x) 8) (byte_val y)) 8) as Hsh.
    { intros x y. by rewrite Z.shiftl_lxor, Z.shiftl_shiftl by lia. }
    rewrite !Hsh. pose proof (Hr a1). pose proof (Hr b1). pose proof (Hr a2). pose proof (Hr b2).
    intros Heq. apply Hstep in Heq as [Heq ->]; [|apply Z.lxor_nonneg; rewrite Z.shiftl_nonneg; lia..].
    apply Hstep in Heq as [Heq ->]; [|lia..]. do 3 f_equal. by apply Hinj.
Qed.

(** ** The hash as a composition of injections *)

Definition mix_tail (t : list byte) (h1 : Z) : Z :=
  if (length t =? 0)%nat then h1 else Z.lxor h1 (mix_k1 (tail_k1 t (length t))).

Lemma murmur_unfold data seed :
  murmurhash_x86_32 data seed =
  fmix (Z.lxor (mix_tail (left_over data) (fold_left body_step (words data) seed)) (u32 (Z.of_nat (length data)))).
Proof.
  unfold murmurhash_x86_32, mix_tail. cbv zeta.
  by rewrite body_blocks, blocks_words, left_over_drop, left_over_length.
Qed.

Lemma byte_word b : word32 (byte_val b).
Proof. pose proof (byte.unsigned_range b). unfold word32. lia. Qed.

Lemma byte_shift_word b k : 0 <= k <= 16 -> word32 (Z.shiftl (byte_val b) k).
Proof.
  intros Hk. pose proof (byte.unsigned_range b). rewrite Z.shiftl_mul_pow2 by lia. unfold word32.
  assert (1 <= 2 ^ k <= 2 ^ 16) by (split; [apply Z.lt_pred_le, Z.pow_pos_nonneg; lia|apply Z.pow_le_mono_r; lia]). nia.
Qed.

Lemma tail_k1_word t n : word32 (tail_k1 t n).
Proof.
  unfold tail_k1, byte_at. destruct n as [|[|[|[|n]]]];
    repeat apply word32_lxor; try apply byte_word; apply byte_shift_word; lia.
Qed.
#[export] Hint Resolve tail_k1_word byte_word body_word word_of_word : word32.

Lemma mix_tail_word t h : word32 h -> word32 (mix_tail t h).
Proof. intros Hh. unfold mix_tail. case_if; word. Qed.
#[export] Hint Resolve mix_tail_word : word32.

Lemma mix_tail_inj t h h' : mix_tail t h = mix_tail t h' -> h = h'.
Proof. unfold mix_tail. case_if; [done|]. apply lxor_inj_r. Qed.

Lemma fold_body_app ks ks' h : fold_left body_step (ks ++ ks') h = fold_left body_step ks' (fold_left body_step ks h).
Proof. apply fold_left_app. Qed.

Lemma murmur_seed_inj data h h' :
  word32 h -> word32 h' -> murmurhash_x86_32 data h = murmurhash_x86_32 data h' -> h = h'.
Proof.
  intros Hh Hh' Heq. rewrite !murmur_unfold in Heq. apply fmix_inj in Heq; [|word..].
  apply lxor_inj_r, mix_tail_inj, body_inj in Heq; done.
Qed.

(** A change confined to one block, or to the tail, changes the hash. *)
Lemma murmur_block_inj pre b b' post seed :
  word32 seed -> (length pre mod 4 = 0)%nat -> length b = length b' ->
  (length b = 4 \/ (length b < 4 /\ post = []))%nat ->
  murmurhash_x86_32 (pre ++ b ++ post) seed = murmurhash_x86_32 (pre ++ b' ++ post) seed -> b = b'.
Proof.
  intros Hseed Hpre Hlen Hb Heq. rewrite !murmur_unfold in Heq. apply fmix_inj in Heq; [|word..].
  rewrite !length_app, Hlen in Heq. apply lxor_inj_r in Heq.
  destruct (words_app pre (b ++ post) Hpre) as [Hw Hl], (words_app pre (b' ++ post) Hpre) as [Hw' Hl'].
  rewrite Hw, Hw', Hl, Hl', !fold_body_app in Heq.
  set (h := fold_left body_step (words pre) seed) in Heq. assert (word32 h) as Hh by (apply body_word; done).
  destruct Hb as [Hb|[Hb ->]].
  - destruct b as [|b0 [|b1 [|b2 [|b3 [|? ?]]]]]; simpl in Hb; try lia.
    destruct b' as [|b0' [|b1' [|b2' [|b3' [|? ?]]]]]; simpl in Hlen; try lia.
    cbn [app words left_over fold_left] in Heq. apply mix_tail_inj, body_inj, body_step_inj_k in Heq; [|word..].
    by apply word_of_inj.
  - rewrite !app_nil_r in Heq.
    destruct (decide (length b = 0)%nat) as [Hz|Hz].
    { rewrite Hz in Hlen. symmetry in Hlen. apply nil_length_inv in Hz, Hlen. congruence. }
    assert (forall t, (length t < 4)%nat -> words t = [] /\ left_over t = t) as Hsmall.
    { intros [|? [|? [|? [|? ?]]]] Ht; simpl in Ht; try lia; done. }
    destruct (Hsmall b Hb) as [E1 E2], (Hsmall b') as [E1' E2']; [lia|].
    rewrite E1, E2, E1', E2' in Heq. cbn [fold_left] in Heq. unfold mix_tail in Heq.
    rewrite (proj2 (Nat.eqb_neq (length b) 0)), (proj2 (Nat.eqb_neq (length b') 0)) in Heq by lia.
    rewrite !(Z.lxor_comm h) in Heq. apply lxor_inj_r, mix_k1_inj in Heq; [|word..].
    apply tail_k1_inj in Heq; [done|done|lia].
Qed.

(** ** The [strings] hasher *)

Definition decimal (ds : list byte) : Z := fold_left (fun acc b => 10 * acc + (byte_val b - 48)) ds 0.

Lemma parse_digits_decimal ds : Forall (fun b => is_digit b = true) ds -> forall ret,
  parse_digits ds (u64 ret) = Some (u64 (fold_left (fun acc b => 10 * acc + (byte_val b - 48)) ds ret)).
Proof.
  induction 1 as [|b ds Hb _ IH]; intros ret; [done|]. cbn [parse_digits fold_left]. rewrite Hb, <- IH. f_equal.
  unfold u64. rewrite <- (Z.add_mod_idemp_l (10 * ret)) by done. rewrite <- (Z.mul_mod_idemp_r 10 ret) by done.
  rewrite Z.add_mod_idemp_l by done. f_equal. lia.
Qed.

Lemma trim_front_blanks pre s : Forall (fun b => is_blank b = true) pre -> trim_front (pre ++ s) = trim_front s.
Proof. induction 1 as [|b pre Hb _ IH]; [done|]. cbn. by rewrite Hb. Qed.

Lemma trim_front_none s : Forall (fun b => is_blank b = false) (take 1 s) -> trim_front s = s.
Proof. destruct s as [|b s]; [done|]. cbn. intros H%Forall_cons. destruct H as [H _]. by rewrite H. Qed.

Lemma digit_not_blank b : is_digit b = true -> is_blank b = false.
Proof. unfold is_digit, is_blank. intros H. bprop. apply Z.leb_gt. lia. Qed.

Lemma trim_digits pre ds post :
  Forall (fun b => is_blank b = true) pre -> Forall (fun b => is_digit b = true) ds ->
  Forall (fun b => is_blank b = true) post -> trim (pre ++ ds ++ post) = ds.
Proof.
  intros Hpre Hds Hpost. unfold trim. rewrite trim_front_blanks by done.
  assert (Hdd : Forall (fun b => is_blank b = false) ds) by (eapply Forall_impl; [exact Hds|]; apply digit_not_blank).
  destruct ds as [|d ds].
  - cbn [app]. rewrite <- (app_nil_r post) at 1. by rewrite (trim_front_blanks post).
  - rewrite (trim_front_none ((d :: ds) ++ post)) by (cbn; apply Forall_cons in Hdd as [? _]; by repeat constructor).
    rewrite rev_app_distr, trim_front_blanks by (by apply Forall_rev).
    rewrite trim_front_none, rev_involutive; [done|]. apply Forall_take. by apply Forall_rev.
Qed.

Lemma u32_u64 x : u32 (u64 x) = u32 x.
Proof.
  unfold u32, u64. apply Z.mod_mod_divide. by exists (2 ^ 32).
Qed.

(** ** The properties *)

(** A name that is a decimal number, with blanks around it or not, hashes to its number plus the
    namespace hash, modulo 2^32: numeric feature names are their own indices. *)
Theorem hashstring_number (pre ds post : list byte) (h : Z) :
  Forall (fun b => is_blank b = true) pre -> Forall (fun b => is_digit b = true) ds ->
  Forall (fun b => is_blank b = true) post ->
  hashstring (pre ++ ds ++ post) h = u32 (decimal ds + h).
Proof.
  intros Hpre Hds Hpost. unfold hashstring. rewrite trim_digits by done.
  pose proof (parse_digits_decimal ds Hds 0) as Hp. change (u64 0) with 0 in Hp. rewrite Hp.
  rewrite u32_u64. unfold u32, decimal. by rewrite Z.add_mod_idemp_l.
Qed.

Lemma hashstring_number_witness : hashstring (str " " ++ str "4294967300" ++ str "") 7 = u32 (decimal (str "4294967300") + 7).
Proof. apply hashstring_number; repeat constructor. Defined.

(** Both hashers are injective in the seed: one feature name in two namespaces whose hashes differ
    never gets the same hash. *)
Theorem hasher_seed_injective (f : hash_func_t) (s : list byte) (h h' : Z) :
  word32 h -> word32 h' -> run_hasher f s h = run_hasher f s h' -> h = h'.
Proof.
  intros Hh Hh'. destruct f; cbn [run_hasher].
  - unfold hashstring. destruct (parse_digits (trim s) 0) as [ret|].
    + rewrite !(Z.add_comm (u32 ret)). apply add_inj; done.
    + by apply murmur_seed_inj.
  - by apply murmur_seed_inj.
Qed.

Lemma hasher_seed_injective_witness : 3 <> 4 /\ run_hasher Hashstring (str "price") 3 <> run_hasher Hashstring (str "price") 4.
Proof.
  split; [discriminate|]. intros H. apply (hasher_seed_injective Hashstring (str "price") 3 4) in H; [discriminate H| |]; split; lia.
Defined.

(** Two strings of one length that differ only inside one aligned block of four bytes, or only
    inside the last incomplete block, have different hashes. *)
Theorem uniform_hash_block_injective (pre b b' post : list byte) (seed : Z) :
  word32 seed -> (length pre mod 4 = 0)%nat -> length b = length b' ->
  (length b = 4 \/ (length b < 4 /\ post = []))%nat ->
  uniform_hash (pre ++ b ++ post) seed = uniform_hash (pre ++ b' ++ post) seed -> b = b'.
Proof. apply murmur_block_inj. Qed.

Lemma uniform_hash_block_injective_witness :
  uniform_hash (str "name" ++ str "abcd" ++ str "xyz") 9 <> uniform_hash (str "name" ++ str "abce" ++ str "xyz") 9.
Proof.
  intros H. apply (uniform_hash_block_injective (str "name") (str "abcd") (str "abce") (str "xyz") 9) in H;
    [discriminate H|split; lia|reflexivity|reflexivity|left; reflexivity].
Defined.
