(* ===== verification/Features.v ===== *)
(** * Feature groups ([core/include/vw/core/feature_group.h], [core/src/feature_group.cc])

    The structure-of-arrays container of features and its namespace extents:
    construction, truncation, concatenation, sorting, and the sparse dot product. *)

From S2P Require Import Prelude.

(** ** Data *)

Record audit_strings := AuditStrings { as_ns : list byte; as_name : list byte; as_str_value : list byte }.

Record namespace_extent := Extent { begin_index : nat; end_index : nat; ext_hash : Z }.

#[export] Instance namespace_extent_eq_dec : EqDecision namespace_extent.
Proof. solve_decision. Defined.

Record features {F : Type} := Features {
  values : list F;
  indices : list Z;
  space_names : list audit_strings;
  namespace_extents : list namespace_extent;
  sum_feat_sq : F
}.
Arguments features : clear implicits.

(** [std::vector::resize] to a smaller size. *)
Definition shrink {A} (i : nat) (l : list A) : list A := take i l.

(** [v.back()] replaced by [f(v.back())]. *)
Definition update_back {A} (f : A -> A) (l : list A) : list A := alter f (length l - 1)%nat l.

Section Operations.
Context {F : Type} `{Num F}.
Implicit Types fs : features F.

Definition fs_empty : features F := Features F [] [] [] [] (n_of_Z 0).

Definition size fs : nat := length (values fs).

Definition clear (fs : features F) : features F := fs_empty.

(** Drop the trailing extents that begin at or after [i]. *)
Fixpoint pop_extents (i : nat) (rev_es : list namespace_extent) : list namespace_extent :=
  match rev_es with
  | e :: es => if (i <=? begin_index e)%nat then pop_extents i es else rev_es
  | [] => []
  end.

Definition truncate_extents (i : nat) (es : list namespace_extent) : list namespace_extent :=
  let es := reverse (pop_extents i (reverse es)) in
  update_back (fun e => if (i <? end_index e)%nat then Extent (begin_index e) i (ext_hash e) else e) es.

(** [truncate_to(size_t i, float sum_feat_sq_of_removed_section)] *)
Definition truncate_to_sum (i : nat) (removed : F) fs : features F :=
  if (i =? size fs)%nat then fs
  else Features F
         (shrink i (values fs))
         (match indices fs with [] => [] | _ => shrink i (indices fs) end)
         (if (i <? length (space_names fs))%nat then take i (space_names fs) else space_names fs)
         (truncate_extents i (namespace_extents fs))
         (sum_feat_sq fs - removed)%num.

(** [truncate_to(size_t i)]: the loop accumulates [values[idx] * values[i]]
    for [idx] from [i] to the end. *)
Definition removed_chunk (i : nat) (vs : list F) : F :=
  match vs !! i with
  | Some vi => fold_left (fun acc v => (acc + v * vi)%num) (drop i vs) (n_of_Z 0)
  | None => n_of_Z 0
  end.
Definition truncate_to (i : nat) fs : features F :=
  truncate_to_sum i (removed_chunk i (values fs)) fs.

Definition shift_extent (off : nat) (e : namespace_extent) : namespace_extent :=
  Extent (begin_index e + off) (end_index e + off) (ext_hash e).

(** The extents after [concat]: the loop runs from [offset] to
    [other.namespace_extents.size() - offset]. *)
Definition concat_extents (extent_offset : nat) (es os : list namespace_extent) : list namespace_extent :=
  let '(es, offset) :=
    match last es, head os with
    | Some b, Some f =>
        if ext_hash b =? ext_hash f
        then (update_back (fun b => Extent (begin_index b) (end_index b + (end_index f - begin_index f)) (ext_hash b)) es, 1%nat)
        else (es, 0%nat)
    | _, _ => (es, 0%nat)
    end in
  es ++ (shift_extent extent_offset <$> drop offset (take (length os - offset) os)).

Definition concat (fs other : features F) : features F :=
  Features F
    (values fs ++ values other)
    (indices fs ++ indices other)
    (space_names fs ++ space_names other)
    (concat_extents (length (indices fs)) (namespace_extents fs) (namespace_extents other))
    (sum_feat_sq fs + sum_feat_sq other)%num.

Definition push_back (v : F) (i : Z) fs : features F :=
  Features F (values fs ++ [v]) (indices fs ++ [i]) (space_names fs) (namespace_extents fs)
    (sum_feat_sq fs + v * v)%num.

Definition set_extents (es : list namespace_extent) fs : features F :=
  Features F (values fs) (indices fs) (space_names fs) es (sum_feat_sq fs).

Definition start_ns_extent (hash : Z) fs : features F :=
  set_extents (namespace_extents fs ++ [Extent (length (indices fs)) 0 hash]) fs.

(** [end_ns_extent]: close the open extent, drop it when empty, merge it with
    the previous one when the hashes agree. *)
Definition close_extents (n : nat) (es : list namespace_extent) : list namespace_extent :=
  let es := update_back (fun e => Extent (begin_index e) n (ext_hash e)) es in
  let es := match last es with
            | Some e => if (begin_index e =? end_index e)%nat then removelast es else es
            | None => es
            end in
  match reverse es with
  | e :: prev :: rest =>
      if ext_hash prev =? ext_hash e
      then reverse (Extent (begin_index prev) n (ext_hash prev) :: rest)
      else es
  | _ => es
  end.
Definition end_ns_extent fs : features F :=
  set_extents (close_extents (length (indices fs)) (namespace_extents fs)) fs.

(** [push_back(v, i, hash)] *)
Definition push_back_ns (v : F) (i hash : Z) fs : features F :=
  let fs :=
    match last (namespace_extents fs) with
    | Some b => if negb (ext_hash b =? hash) && (end_index b =? 0)%nat then end_ns_extent fs else fs
    | None => fs
    end in
  let es := namespace_extents fs in
  let n := length (indices fs) in
  let es' :=
    match last es with
    | Some b =>
        if (ext_hash b =? hash) && negb (end_index b =? 0)%nat
        then update_back (fun b => Extent (begin_index b) (S (end_index b)) (ext_hash b)) es
        else if negb (ext_hash b =? hash) then es ++ [Extent n (n + 1) hash]
        else es
    | None => es ++ [Extent n (n + 1) hash]
    end in
  push_back v i (set_extents es' fs).

Definition validate_extents fs : bool :=
  forallb (fun e => (begin_index e <? end_index e)%nat) (namespace_extents fs).

(** The ranges [hash_extents_begin(hash) .. hash_extents_end(hash)] visits, as positions. *)
Definition hash_extents (hash : Z) fs : list (nat * nat) :=
  (fun e => (begin_index e, end_index e)) <$> filter (fun e => ext_hash e = hash) (namespace_extents fs).

(** The values [foreach_feature_for_hash] visits, in order. *)
Definition foreach_values_for_hash (hash : Z) fs : list F :=
  r ← hash_extents hash fs; take (r.2 - r.1) (drop r.1 (values fs)).

(** [features_dot_product]: one pass over the first list, the position in the
    second list only moves forward. *)
Fixpoint skip_below (i : Z) (l : list (Z * F)) : list (Z * F) :=
  match l with
  | (j, v) :: l' => if i >? j then skip_below i l' else l
  | [] => []
  end.
Fixpoint dot_loop (l1 l2 : list (Z * F)) (dotprod : F) : F :=
  match l1 with
  | [] => dotprod
  | (i, v) :: l1' =>
      match l2 with
      | [] => dotprod
      | (j, _) :: _ =>
          if i <? j then dot_loop l1' l2 dotprod
          else match skip_below i l2 with
               | (j, w) :: l2' =>
                   if i =? j then dot_loop l1' l2' (dotprod + v * w)%num
                   else dot_loop l1' ((j, w) :: l2') dotprod
               | [] => dot_loop l1' [] dotprod
               end
      end
  end.
Definition features_dot_product (fs1 fs2 : features F) : F :=
  match indices fs2 with
  | [] => n_of_Z 0
  | _ => dot_loop (zip (indices fs1) (values fs1)) (zip (indices fs2) (values fs2)) (n_of_Z 0)
  end.
End Operations.

(** ** Sorting two or more vectors by one criterion *)

(** [std::swap(vec[i], vec[j])] *)
Definition swap_at {A} (i j : nat) (l : list A) : list A :=
  match l !! i, l !! j with
  | Some a, Some b => <[i := b]> (<[j := a]> l)
  | _, _ => l
  end.

Section ApplyPermutation.
Context {V : Type} (do_swap_for_all : nat -> nat -> V -> V) (dest_index_vec : list nat).

(** The [while (i != j)] loop that follows one cycle; [None] is a read out of range
    or no fuel left. *)
Fixpoint follow_cycle (fuel i prev_j j : nat) (done : list bool) (vecs : V) : option (list bool * V) :=
  if (i =? j)%nat then Some (done, vecs)
  else match fuel with
       | O => None
       | S fuel =>
           j' ← dest_index_vec !! j;
           follow_cycle fuel i j j' (<[j := true]> done) (do_swap_for_all prev_j j vecs)
       end.

Definition visit (fuel i : nat) (st : option (list bool * V)) : option (list bool * V) :=
  '(done, vecs) ← st;
  match done !! i with
  | Some true => Some (done, vecs)
  | _ => j ← dest_index_vec !! i; follow_cycle fuel i i j (<[i := true]> done) vecs
  end.

Definition apply_permutation_in_place (size : nat) (vecs : V) : option V :=
  snd <$> fold_left (fun st i => visit size i st) (seq 0 size) (Some (replicate size false, vecs)).
End ApplyPermutation.

(** ** Extents as one element per feature *)

Definition push_many (vec : list (bool * Z)) (num : nat) (is_valid : bool) (hash : Z) : list (bool * Z) :=
  vec ++ replicate num (is_valid, hash).

Definition flatten_step (st : list (bool * Z) * nat) (e : namespace_extent) : list (bool * Z) * nat :=
  let '(flattened, last_end) := st in
  let flattened := if (last_end <? begin_index e)%nat
                   then push_many flattened (begin_index e - last_end) false 0 else flattened in
  (push_many flattened (end_index e - begin_index e) true (ext_hash e), end_index e).

Definition flatten_namespace_extents (extents : list namespace_extent) (overall_feature_space_size : nat)
  : list (bool * Z) :=
  let '(flattened, last_end) := fold_left flatten_step extents ([], 0%nat) in
  if (last_end <? overall_feature_space_size)%nat
  then push_many flattened (overall_feature_space_size - last_end) false 0 else flattened.

(** The loop of [unflatten_namespace_extents] over the elements from index [i]. *)
Fixpoint unflatten_loop (rest : list (bool * Z)) (i last_start : nat) (current : bool * Z)
    (results : list namespace_extent) : list namespace_extent :=
  match rest with
  | [] => if current.1 then results ++ [Extent last_start i current.2] else results
  | x :: rest' =>
      if decide (current = x) then unflatten_loop rest' (S i) last_start current results
      else unflatten_loop rest' (S i) i x
             (if current.1 then results ++ [Extent last_start i current.2] else results)
  end.

Definition unflatten_namespace_extents (extents : list (bool * Z)) : list namespace_extent :=
  match extents with
  | [] => []
  | c :: rest => unflatten_loop rest 1 0 c []
  end.

Section Sort.
Context {F : Type} `{Num F} `{StdSort}.

(** [sort_permutation]: the positions [0 .. n-1] sorted by what they point at. *)
Definition sort_permutation (index_vec : list Z) (value_vec : list F)
    (compare : Z -> Z -> F -> F -> bool) : list nat :=
  std_sort (fun i j => compare (nth i index_vec 0) (nth j index_vec 0)
                         (nth i value_vec (n_of_Z 0)) (nth j value_vec (n_of_Z 0)))
    (seq 0 (length index_vec)).

Definition sort_comparator (parse_mask : Z) (index_first index_second : Z) (value_first value_second : F) : bool :=
  let masked_index_first := Z.land index_first parse_mask in
  let masked_index_second := Z.land index_second parse_mask in
  (masked_index_first <? masked_index_second) ||
  ((masked_index_first =? masked_index_second) && (value_first <? value_second)%num).

Definition columns : Type := list F * list Z * list (bool * Z) * list audit_strings.
Definition swap_columns (with_names : bool) (i j : nat) (c : columns) : columns :=
  let '(vs, ixs, es, ns) := c in
  (swap_at i j vs, swap_at i j ixs, swap_at i j es, if with_names then swap_at i j ns else ns).

(** [bool features::sort(uint64_t parse_mask)]; [None] when a swap runs out of range. *)
Definition sort (parse_mask : Z) (fs : features F) : option (bool * features F) :=
  match indices fs with
  | [] => Some (false, fs)
  | _ =>
      let flat_extents := flatten_namespace_extents (namespace_extents fs) (length (indices fs)) in
      let dest_index_vec := sort_permutation (indices fs) (values fs) (sort_comparator parse_mask) in
      let with_names := match space_names fs with [] => false | _ => true end in
      '(vs, ixs, es, ns) ← apply_permutation_in_place (swap_columns with_names) dest_index_vec
                            (length (values fs)) (values fs, indices fs, flat_extents, space_names fs);
      Some (true, Features F vs ixs ns (unflatten_namespace_extents es) (sum_feat_sq fs))
  end.
End Sort.

(** * Theorems *)

(** ** The in-place permutation *)

Lemma swap_at_length {A} i j (l : list A) : length (swap_at i j l) = length l.
Proof. unfold swap_at. repeat case_match; rewrite ?length_insert; done. Qed.

Lemma swap_at_lookup {A} i j (l : list A) k :
  (i < length l)%nat -> (j < length l)%nat ->
  swap_at i j l !! k = if decide (k = i) then l !! j else if decide (k = j) then l !! i else l !! k.
Proof.
  intros Hi Hj. unfold swap_at.
  destruct (lookup_lt_is_Some_2 l i Hi) as [a Ha], (lookup_lt_is_Some_2 l j Hj) as [b Hb].
  rewrite Ha, Hb.
  destruct (decide (k = i)) as [->|Hki].
  - rewrite list_lookup_insert_eq; [done|by rewrite length_insert].
  - rewrite list_lookup_insert_ne by done.
    destruct (decide (k = j)) as [->|Hkj]; [by rewrite list_lookup_insert_eq|].
    by rewrite list_lookup_insert_ne.
Qed.

Section PermutationCorrect.
Context {A : Type} (v0 : list A) (dest : list nat).
#[local] Abbreviation n := (length v0).
Hypothesis Hperm : dest ≡ₚ seq 0 n.

Lemma dest_length : length dest = n.
Proof. by rewrite Hperm, length_seq. Qed.

Lemma dest_lookup k : (k < n)%nat -> exists d, dest !! k = Some d /\ (d < n)%nat.
Proof.
  intros Hk. destruct (lookup_lt_is_Some_2 dest k) as [d Hd]; [by rewrite dest_length|].
  exists d. split; [done|]. apply list_elem_of_lookup_2 in Hd.
  rewrite Hperm, elem_of_seq in Hd. lia.
Qed.

Lemma dest_inj k k' d : dest !! k = Some d -> dest !! k' = Some d -> k = k'.
Proof.
  intros. eapply NoDup_lookup; [|done..]. rewrite Hperm. apply NoDup_seq.
Qed.

(** Positions marked done hold their final element and their successor and
    predecessor on the cycle are done; the others are untouched. *)
Definition settled (done : list bool) (v : list A) (k : nat) : Prop :=
  forall d, dest !! k = Some d -> v !! k = v0 !! d /\ done !! d = Some true.

Record outer_inv (done : list bool) (v : list A) : Prop := {
  oi_done : length done = n;
  oi_v : length v = n;
  oi_true k : done !! k = Some true -> settled done v k;
  oi_pred k : done !! k = Some true -> exists k', done !! k' = Some true /\ dest !! k' = Some k;
  oi_false k : done !! k = Some false -> v !! k = v0 !! k
}.

Record inner_inv (i prev : nat) (done : list bool) (v : list A) : Prop := {
  ii_done : length done = n;
  ii_v : length v = n;
  ii_i : done !! i = Some true;
  ii_prev : done !! prev = Some true;
  ii_hole : v !! prev = v0 !! i;
  ii_true k : done !! k = Some true -> k <> prev -> settled done v k;
  ii_pred k : done !! k = Some true -> k <> i ->
    exists k', done !! k' = Some true /\ k' <> prev /\ dest !! k' = Some k;
  ii_false k : done !! k = Some false -> v !! k = v0 !! k
}.

Lemma inner_start i done v :
  outer_inv done v -> done !! i = Some false -> inner_inv i i (<[i := true]> done) v.
Proof.
  intros [Hd Hv Ht Hp Hf] Hi. assert (i < length done)%nat by by eapply lookup_lt_Some.
  assert (forall k, <[i:=true]> done !! k = Some true -> k <> i -> done !! k = Some true) as Hk.
  { intros k Hk Hne. by rewrite list_lookup_insert_ne in Hk. }
  split; rewrite ?length_insert; try done.
  - by rewrite list_lookup_insert_eq.
  - by rewrite list_lookup_insert_eq.
  - by apply Hf.
  - intros k Hk1 Hne d Hdk. destruct (Ht k (Hk k Hk1 Hne) d Hdk) as [? Hdd]. split; [done|].
    destruct (decide (d = i)) as [->|]; [congruence|]. by rewrite list_lookup_insert_ne.
  - intros k Hk1 Hne. destruct (Hp k (Hk k Hk1 Hne)) as (k' & Hk' & ?).
    assert (k' <> i) by congruence. exists k'. by rewrite list_lookup_insert_ne.
  - intros k Hk1. destruct (decide (k = i)) as [->|].
    + rewrite list_lookup_insert_eq in Hk1; congruence.
    + rewrite list_lookup_insert_ne in Hk1 by done. by apply Hf.
Qed.

Lemma inner_end i prev done v :
  inner_inv i prev done v -> dest !! prev = Some i -> outer_inv done v.
Proof.
  intros [] Hprev. split; try done.
  - intros k Hk. destruct (decide (k = prev)) as [->|]; [|by apply ii_true0].
    intros d Hd. rewrite Hprev in Hd. injection Hd as <-. done.
  - intros k Hk. destruct (decide (k = i)) as [->|Hne]; [by exists prev|].
    destruct (ii_pred0 k Hk Hne) as (k' & ? & ? & ?). by exists k'.
Qed.

(** The successor of the moving position is the start of the cycle or not yet done. *)
Lemma inner_fresh i prev done v j :
  inner_inv i prev done v -> dest !! prev = Some j -> i <> j -> done !! j = Some false.
Proof.
  intros [] Hj Hne. destruct (done !! j) as [[]|] eqn:E.
  - destruct (ii_pred0 j E) as (k' & ? & Hk' & ?); [done|]. destruct Hk'. by eapply dest_inj.
  - done.
  - apply lookup_ge_None in E. assert (prev < n)%nat as Hp.
    { rewrite <- ii_done0. by eapply lookup_lt_Some. }
    destruct (dest_lookup prev Hp) as (d & Hd & ?). rewrite Hj in Hd. injection Hd as ->. lia.
Qed.

Lemma inner_step i prev done v j :
  inner_inv i prev done v -> dest !! prev = Some j -> i <> j ->
  inner_inv i j (<[j := true]> done) (swap_at prev j v).
Proof.
  intros HI Hj Hne. pose proof (inner_fresh _ _ _ _ _ HI Hj Hne) as Hfresh. destruct HI.
  assert (j < length done)%nat as Hjl by by eapply lookup_lt_Some.
  assert (prev < length done)%nat as Hpl by by eapply lookup_lt_Some.
  assert (prev <> j) as Hpj by congruence.
  assert (forall k, <[j:=true]> done !! k = Some true -> k <> j -> done !! k = Some true) as Hk.
  { intros k Hk Hkj. by rewrite list_lookup_insert_ne in Hk. }
  assert (forall k, done !! k = Some true -> <[j:=true]> done !! k = Some true) as Hk'.
  { intros k Hk1. destruct (decide (k = j)) as [->|]; [by rewrite list_lookup_insert_eq|].
    by rewrite list_lookup_insert_ne. }
  split; rewrite ?length_insert, ?swap_at_length; try done; auto.
  - by rewrite list_lookup_insert_eq.
  - rewrite swap_at_lookup by lia. rewrite decide_False, decide_True by done. done.
  - intros k Hk1 Hkj d Hd. pose proof (Hk k Hk1 Hkj) as Hkd.
    rewrite swap_at_lookup by lia. destruct (decide (k = prev)) as [->|Hkp].
    + rewrite Hj in Hd. injection Hd as <-. split; [by apply ii_false0|].
      by rewrite list_lookup_insert_eq.
    + rewrite decide_False by done. destruct (ii_true0 k Hkd Hkp d Hd). auto.
  - intros k Hk1 Hki. destruct (decide (k = j)) as [->|Hkj].
    + exists prev. auto.
    + destruct (ii_pred0 k (Hk k Hk1 Hkj) Hki) as (k' & Hd' & ? & ?).
      exists k'. split_and!; [by apply Hk'|congruence|done].
  - intros k Hk1. destruct (decide (k = j)) as [->|Hkj].
    + rewrite list_lookup_insert_eq in Hk1; congruence.
    + rewrite list_lookup_insert_ne in Hk1 by done. rewrite swap_at_lookup by lia.
      rewrite decide_False by congruence. rewrite decide_False by done. auto.
Qed.

Definition pending (done : list bool) : nat := length (filter (fun b => b = false) done).

Lemma pending_insert j done :
  done !! j = Some false -> S (pending (<[j := true]> done)) = pending done.
Proof.
  intros Hj. unfold pending.
  rewrite <- (take_drop_middle done j false Hj) at 2.
  rewrite insert_take_drop by by eapply lookup_lt_Some.
  rewrite !filter_app, !length_app, !filter_cons. simpl. lia.
Qed.

Lemma follow_cycle_ok fuel i prev j done v :
  (pending done <= fuel)%nat -> inner_inv i prev done v -> dest !! prev = Some j ->
  exists done' v', follow_cycle swap_at dest fuel i prev j done v = Some (done', v') /\
    outer_inv done' v' /\ (forall k, done !! k = Some true -> done' !! k = Some true).
Proof.
  revert prev j done v; induction fuel as [|fuel IH]; intros prev j done v Hfuel HI Hj; simpl;
    destruct (Nat.eqb_spec i j) as [->|Hne].
  1,3: exists done, v; split; [done|]; split; [by eapply inner_end|done].
  all: pose proof (inner_fresh _ _ _ _ _ HI Hj Hne) as Hfresh;
    pose proof (pending_insert j done Hfresh) as Hpend.
  1: lia.
  assert (j < n)%nat as Hjn by (rewrite <- (ii_done _ _ _ _ HI); by eapply lookup_lt_Some).
  destruct (dest_lookup j Hjn) as (j' & Hj' & _). rewrite Hj'. simpl.
  destruct (IH j j' (<[j:=true]> done) (swap_at prev j v)) as (done' & v' & Hrun & Ho & Hmono);
    [lia|by apply inner_step|done|].
  exists done', v'. split_and!; [done..|]. intros k Hk. apply Hmono.
  destruct (decide (k = j)) as [->|]; [congruence|]. by rewrite list_lookup_insert_ne.
Qed.

Lemma pending_bound done : (pending done <= length done)%nat.
Proof. unfold pending. apply length_filter. Qed.

Lemma visit_ok i done v :
  outer_inv done v -> (i < n)%nat ->
  exists done' v', visit swap_at dest n i (Some (done, v)) = Some (done', v') /\
    outer_inv done' v' /\ done' !! i = Some true /\
    (forall k, done !! k = Some true -> done' !! k = Some true).
Proof.
  intros HO Hi. pose proof (oi_done _ _ HO) as Hlen.
  destruct (lookup_lt_is_Some_2 done i) as [[] Hb]; [by rewrite Hlen| |].
  - exists done, v. simpl. by rewrite Hb.
  - simpl. rewrite Hb. destruct (dest_lookup i Hi) as (j & Hj & _). rewrite Hj. simpl.
    pose proof (inner_start i done v HO Hb) as HI.
    destruct (follow_cycle_ok n i i j (<[i:=true]> done) v) as (done' & v' & Hrun & Ho & Hmono);
      [|done..|].
    { etransitivity; [apply pending_bound|]. rewrite length_insert. lia. }
    exists done', v'. split_and!; [done..| |].
    + apply Hmono. rewrite list_lookup_insert_eq; [done|lia].
    + intros k Hk. apply Hmono. destruct (decide (k = i)) as [->|]; [congruence|].
      by rewrite list_lookup_insert_ne.
Qed.

Lemma visit_all ks done v :
  outer_inv done v -> Forall (fun i => i < n)%nat ks ->
  exists done' v', fold_left (fun st i => visit swap_at dest n i st) ks (Some (done, v)) = Some (done', v') /\
    outer_inv done' v' /\ (forall k, k ∈ ks \/ done !! k = Some true -> done' !! k = Some true).
Proof.
  intros HO His; revert done v HO; induction His as [|i ks Hi _ IH]; intros done v HO; cbn [fold_left].
  - exists done, v. split_and!; [done..|]. intros k [Hk|Hk]; [by apply elem_of_nil in Hk|done].
  - destruct (visit_ok i done v HO Hi) as (d1 & v1 & -> & Ho1 & Hi1 & Hm1).
    destruct (IH d1 v1 Ho1) as (d2 & v2 & -> & Ho2 & Hm2).
    exists d2, v2. split_and!; [done..|]. intros k [Hk|Hk]; apply Hm2; [|by auto].
    apply elem_of_cons in Hk as [->|]; auto.
Qed.

(** The in-place cycle walk gathers: position [k] receives the element that
    was at [dest_index_vec[k]]. *)
Lemma apply_permutation_gather :
  exists v, apply_permutation_in_place swap_at dest n v0 = Some v /\ length v = n /\
    (forall k d, dest !! k = Some d -> v !! k = v0 !! d).
Proof.
  destruct (visit_all (seq 0 n) (replicate n false) v0) as (done & v & Hrun & HO & Hall).
  - split; rewrite ?length_replicate; try done.
    all: intros k Hk; apply lookup_replicate in Hk as [? _]; congruence.
  - apply Forall_forall. intros k Hk. apply elem_of_seq in Hk. lia.
  - exists v. unfold apply_permutation_in_place. rewrite Hrun. split; [done|].
    split; [apply HO|]. intros k d Hd. apply (oi_true _ _ HO k); [|done].
    apply Hall. left. apply elem_of_seq. apply lookup_lt_Some in Hd. rewrite dest_length in Hd. lia.
Qed.
End PermutationCorrect.

(** The columns of a sort move together: each one sees the same swaps. *)
Section Projection.
Context {V A : Type} (do_swap : nat -> nat -> V -> V) (dest : list nat) (proj : V -> list A).
Hypothesis Hproj : forall i j v, proj (do_swap i j v) = swap_at i j (proj v).

Lemma follow_cycle_proj fuel i prev j done v :
  prod_map id proj <$> follow_cycle do_swap dest fuel i prev j done v =
  follow_cycle swap_at dest fuel i prev j done (proj v).
Proof.
  revert prev j done v; induction fuel as [|fuel IH]; intros prev j done v; simpl;
    destruct (i =? j)%nat; try done.
  destruct (dest !! j) as [j'|]; simpl; [|done]. by rewrite IH, Hproj.
Qed.

Lemma visit_proj fuel i st :
  prod_map id proj <$> visit do_swap dest fuel i st = visit swap_at dest fuel i (prod_map id proj <$> st).
Proof.
  destruct st as [[dn v]|]; simpl; [|done].
  destruct (dn !! i) as [[]|]; simpl; [done| |];
    (destruct (dest !! i) as [j|]; simpl; [apply follow_cycle_proj|done]).
Qed.

Lemma apply_permutation_proj n v :
  proj <$> apply_permutation_in_place do_swap dest n v = apply_permutation_in_place swap_at dest n (proj v).
Proof.
  unfold apply_permutation_in_place.
  assert (forall ks st, prod_map id proj <$> fold_left (fun st i => visit do_swap dest n i st) ks st =
    fold_left (fun st i => visit swap_at dest n i st) ks (prod_map id proj <$> st)) as Hfold.
  { induction ks as [|k ks IH]; intros st; cbn [fold_left]; [done|]. by rewrite IH, visit_proj. }
  specialize (Hfold (seq 0 n) (Some (replicate n false, v))). cbn in Hfold. rewrite <- Hfold.
  destruct (fold_left _ _ _) as [[? ?]|]; done.
Qed.
End Projection.

(** What no swap changes, the permutation does not change. *)
Section Invariance.
Context {V A : Type} (do_swap : nat -> nat -> V -> V) (dest : list nat) (proj : V -> A).
Hypothesis Hproj : forall i j v, proj (do_swap i j v) = proj v.

Lemma follow_cycle_invariant fuel i prev j dn v r :
  follow_cycle do_swap dest fuel i prev j dn v = Some r -> proj r.2 = proj v.
Proof.
  revert prev j dn v; induction fuel as [|fuel IH]; intros prev j dn v; simpl;
    destruct (i =? j)%nat; try (by intros [= <-]).
  destruct (dest !! j); simpl; [|done]. intros Hr. by rewrite (IH _ _ _ _ Hr).
Qed.

Lemma visit_all_invariant n ks dn v r :
  fold_left (fun st i => visit do_swap dest n i st) ks (Some (dn, v)) = Some r -> proj r.2 = proj v.
Proof.
  revert dn v; induction ks as [|k ks IH]; intros dn v; cbn [fold_left]; [by intros [= <-]|].
  destruct (visit do_swap dest n k (Some (dn, v))) as [[dn1 v1]|] eqn:E.
  - intros Hr. rewrite (IH _ _ Hr). simpl in E. destruct (dn !! k) as [[]|].
    { by injection E as <- <-. }
    all: destruct (dest !! k); simpl in E; [by apply follow_cycle_invariant in E|done].
  - intros Hr. exfalso. clear -Hr. induction ks as [|j ks IH]; cbn [fold_left] in Hr; [done|by apply IH].
Qed.

Lemma apply_permutation_invariant v v' n :
  apply_permutation_in_place do_swap dest n v = Some v' -> proj v' = proj v.
Proof.
  unfold apply_permutation_in_place. destruct (fold_left _ _ _) as [r|] eqn:E; [|done].
  intros [= <-]. by apply visit_all_invariant in E.
Qed.
End Invariance.

(** [gathered p l l']: position [k] of [l'] holds the element of [l] at [p[k]]. *)
Definition gathered {A} (p : list nat) (l l' : list A) : Prop :=
  length l' = length l /\ forall k d, p !! k = Some d -> l' !! k = l !! d.

Lemma gathered_fmap {A} (p : list nat) (l l' : list A) d :
  p ≡ₚ seq 0 (length l) -> gathered p l l' -> l' = (fun i => nth i l d) <$> p.
Proof.
  intros Hp [Hlen Hk]. assert (length p = length l) as Hlp by by rewrite Hp, length_seq.
  apply list_eq. intros k. rewrite list_lookup_fmap.
  destruct (p !! k) as [i|] eqn:E; simpl.
  - rewrite (Hk k i E). assert (i < length l)%nat.
    { apply list_elem_of_lookup_2 in E. rewrite Hp, elem_of_seq in E. lia. }
    destruct (lookup_lt_is_Some_2 l i) as [x Hx]; [done|]. rewrite Hx.
    by rewrite (nth_lookup_Some _ _ _ _ Hx).
  - apply lookup_ge_None in E. apply lookup_ge_None. lia.
Qed.

Lemma fmap_nth_seq {A} (l : list A) d : (fun i => nth i l d) <$> seq 0 (length l) = l.
Proof.
  apply list_eq. intros k. rewrite list_lookup_fmap.
  destruct (decide (k < length l)%nat) as [Hk|Hk].
  - rewrite lookup_seq_lt by done. destruct (lookup_lt_is_Some_2 l k Hk) as [x Hx].
    simpl. by rewrite Hx, (nth_lookup_Some _ _ _ _ Hx).
  - rewrite lookup_seq_ge, lookup_ge_None_2 by lia. done.
Qed.

Lemma gathered_perm {A} (p : list nat) (l l' : list A) :
  p ≡ₚ seq 0 (length l) -> gathered p l l' -> l' ≡ₚ l.
Proof.
  intros Hp Hg. destruct l as [|d l0].
  { destruct Hg as [Hlen _]. by destruct l'. }
  rewrite (gathered_fmap p (d :: l0) l' d Hp Hg).
  transitivity ((fun i => nth i (d :: l0) d) <$> seq 0 (length (d :: l0))).
  - by apply fmap_Permutation.
  - by rewrite fmap_nth_seq.
Qed.

(** ** Extents *)

(** Extents in increasing order, nonempty, inside [[lo, n)]; touching neighbours
    belong to different namespaces. *)
Fixpoint extents_ok (lo n : nat) (es : list namespace_extent) : Prop :=
  match es with
  | [] => (lo <= n)%nat
  | e :: es' =>
      (lo <= begin_index e < end_index e)%nat /\
      (forall e', head es' = Some e' -> end_index e = begin_index e' -> ext_hash e <> ext_hash e') /\
      extents_ok (end_index e) n es'
  end.

(** What the flattened list is, by recursion on the extents. *)
Fixpoint flat_from (lo n : nat) (es : list namespace_extent) : list (bool * Z) :=
  match es with
  | [] => replicate (n - lo) (false, 0)
  | e :: es' =>
      replicate (begin_index e - lo) (false, 0) ++
      replicate (end_index e - begin_index e) (true, ext_hash e) ++ flat_from (end_index e) n es'
  end.

Lemma flatten_spec es n : flatten_namespace_extents es n = flat_from 0 n es.
Proof.
  unfold flatten_namespace_extents.
  assert (forall acc lo,
    (let '(f, le) := fold_left flatten_step es (acc, lo) in
     if (le <? n)%nat then push_many f (n - le) false 0 else f) = acc ++ flat_from lo n es) as Hgen.
  { induction es as [|e es IH]; intros acc lo; cbn [fold_left flat_from].
    - unfold push_many. destruct (Nat.ltb_spec lo n); [done|].
      replace (n - lo)%nat with 0%nat by lia. simpl. by rewrite app_nil_r.
    - unfold flatten_step at 2. rewrite IH. unfold push_many.
      destruct (Nat.ltb_spec lo (begin_index e)).
      + by rewrite <- !app_assoc.
      + replace (begin_index e - lo)%nat with 0%nat by lia. simpl. by rewrite <- app_assoc. }
  apply (Hgen []).
Qed.

Lemma extents_ok_le lo n es : extents_ok lo n es -> (lo <= n)%nat.
Proof.
  revert lo; induction es as [|e es IH]; intros lo; simpl; [done|].
  intros (? & _ & H). specialize (IH _ H). lia.
Qed.

Lemma flat_from_length lo n es : extents_ok lo n es -> length (flat_from lo n es) = (n - lo)%nat.
Proof.
  revert lo; induction es as [|e es IH]; intros lo; simpl; [intros; apply length_replicate|].
  intros (? & _ & Hok). rewrite !length_app, !length_replicate, IH by done.
  pose proof (extents_ok_le _ _ _ Hok). lia.
Qed.

Lemma unflatten_run k x rest i ls res :
  unflatten_loop (replicate k x ++ rest) i ls x res = unflatten_loop rest (i + k) ls x res.
Proof.
  revert i; induction k as [|k IH]; intros i; simpl; [by rewrite Nat.add_0_r|].
  rewrite decide_True by done. rewrite IH. f_equal. lia.
Qed.

(** Entering a run of a different element closes the current one. *)
Lemma unflatten_switch k x cur rest i ls res :
  (0 < k)%nat -> cur <> x ->
  unflatten_loop (replicate k x ++ rest) i ls cur res =
  unflatten_loop rest (i + k) i x (if cur.1 then res ++ [Extent ls i cur.2] else res).
Proof.
  intros Hk Hne. destruct k as [|k]; [lia|]. simpl. rewrite decide_False by done.
  rewrite unflatten_run. f_equal. lia.
Qed.

Lemma unflatten_gap k cur rest i ls res :
  cur = (false, 0) \/ cur.1 = true ->
  exists ls', unflatten_loop (replicate k (false, 0) ++ rest) i ls cur res =
    (if decide (k = 0)%nat then unflatten_loop rest i ls cur res
     else unflatten_loop rest (i + k) ls' (false, 0) (if cur.1 then res ++ [Extent ls i cur.2] else res)).
Proof.
  intros Hcur. destruct (decide (k = 0)%nat) as [->|]; [by exists ls|].
  destruct (decide (cur = (false, 0))) as [->|Hne].
  - exists ls. by rewrite unflatten_run.
  - exists i. rewrite unflatten_switch by (lia || done). done.
Qed.

Lemma unflatten_flat es lo n ls cur res :
  extents_ok lo n es ->
  cur = (false, 0) \/ (cur.1 = true /\
    forall e, head es = Some e -> begin_index e = lo -> cur.2 <> ext_hash e) ->
  unflatten_loop (flat_from lo n es) lo ls cur res =
  (if cur.1 then res ++ [Extent ls lo cur.2] else res) ++ es.
Proof.
  revert lo ls cur res; induction es as [|e es IH]; intros lo ls cur res Hok Hcur; simpl.
  - rewrite <- (app_nil_r (replicate (n - lo) (false, 0))).
    destruct (unflatten_gap (n - lo) cur [] lo ls res) as [ls' ->]; [by destruct Hcur as [?|[? _]]; auto|].
    rewrite app_nil_r. by case_decide.
  - simpl in Hok. destruct Hok as (Hb & Hsep & Hok).
    assert (forall i ls cur res, (i = begin_index e) -> cur <> (true, ext_hash e) ->
      unflatten_loop (replicate (end_index e - begin_index e) (true, ext_hash e) ++
        flat_from (end_index e) n es) i ls cur res =
      (if cur.1 then res ++ [Extent ls i cur.2] else res) ++ e :: es) as Hrun.
    { intros i ls0 cur0 res0 -> Hne. rewrite unflatten_switch by (lia || done).
      replace (begin_index e + (end_index e - begin_index e))%nat with (end_index e) by lia.
      rewrite IH; [|done|right; split; [done|intros; by eapply not_eq_sym, not_eq_sym, Hsep]].
      destruct e as [b en h]. cbn [fst snd begin_index ext_hash]. by rewrite <- app_assoc. }
    destruct (unflatten_gap (begin_index e - lo) cur
      (replicate (end_index e - begin_index e) (true, ext_hash e) ++ flat_from (end_index e) n es) lo ls res)
      as [ls' ->]; [by destruct Hcur as [?|[? _]]; auto|].
    case_decide as Hd.
    + apply Hrun; [lia|]. destruct Hcur as [->|[? Hc]]; [done|].
      intros ->. eapply Hc; [done|lia|done].
    + rewrite Hrun by (lia || done). done.
Qed.

(** The extents survive flattening and unflattening. *)
Lemma unflatten_flatten es n :
  extents_ok 0 n es -> unflatten_namespace_extents (flatten_namespace_extents es n) = es.
Proof.
  intros Hok. rewrite flatten_spec.
  assert (forall c rest, unflatten_loop rest 1 0 c [] = unflatten_loop (c :: rest) 0 0 c []) as Hhead.
  { intros. simpl. by rewrite decide_True. }
  unfold unflatten_namespace_extents. destruct (flat_from 0 n es) as [|c rest] eqn:E.
  { destruct es as [|e es]; [done|]. apply (f_equal length) in E. rewrite flat_from_length in E by done.
    pose proof (extents_ok_le _ _ _ Hok). simpl in Hok, E. destruct Hok as (? & _ & Hok).
    pose proof (extents_ok_le _ _ _ Hok). lia. }
  rewrite Hhead, <- E.
  destruct es as [|e es].
  { rewrite unflatten_flat; [|done|]; cbn in E; destruct (n - 0)%nat eqn:En; try done;
      cbn in E; injection E as <- _; [done|by left]. }
  destruct (decide (begin_index e = 0)%nat) as [Hb|Hb].
  - cbn [flat_from] in *. rewrite Hb in *. destruct Hok as (Hlt & Hsep & Hok).
    destruct (end_index e - 0)%nat as [|k] eqn:Ek; [lia|]. cbn [replicate app Nat.sub] in E.
    injection E as <- _. change (replicate 0 (false, 0)) with (@nil (bool * Z)). rewrite app_nil_l.
    rewrite unflatten_run. replace (0 + S k)%nat with (end_index e) by lia.
    rewrite unflatten_flat; [|done|right; split; [done|intros e' He' ?; by eapply Hsep; eauto]].
    simpl. destruct e as [b en h]. simpl in *. by subst.
  - rewrite unflatten_flat; [|done|]; cbn [flat_from] in E;
      destruct (begin_index e - 0)%nat as [|k] eqn:Ek; try lia;
      cbn [replicate app] in E; injection E as <- _; [done|by left].
Qed.

(** ... and elements survive unflattening and flattening, when a gap carries hash 0. *)
Definition gap_ok (x : bool * Z) : Prop := x.1 = false -> x.2 = 0.

Lemma flatten_unflatten_loop rest : forall i ls cur res fl le,
  fold_left flatten_step res ([], 0%nat) = (fl, le) -> (le <= ls < i)%nat -> gap_ok cur -> Forall gap_ok rest ->
  flatten_namespace_extents (unflatten_loop rest i ls cur res) (i + length rest) =
  fl ++ replicate (ls - le) (false, 0) ++ replicate (i - ls) cur ++ rest.
Proof.
  assert (forall res fl le ls i h, fold_left flatten_step res ([], 0%nat) = (fl, le) -> (le <= ls < i)%nat ->
    fold_left flatten_step (res ++ [Extent ls i h]) ([], 0%nat) =
    (fl ++ replicate (ls - le) (false, 0) ++ replicate (i - ls) (true, h), i)) as Hsnoc.
  { intros res fl le ls i h Hf Hle. rewrite fold_left_app, Hf. cbn [fold_left].
    unfold flatten_step, push_many. cbn [begin_index end_index ext_hash].
    destruct (Nat.ltb_spec le ls); [by rewrite <- app_assoc|].
    replace (ls - le)%nat with 0%nat by lia. done. }
  induction rest as [|x rest IH]; intros i ls cur res fl le Hf Hle Hcur Hrest; cbn [unflatten_loop length].
  - unfold flatten_namespace_extents. destruct cur as [[] h]; cbn [fst snd].
    + rewrite (Hsnoc _ _ _ _ _ _ Hf Hle). rewrite Nat.add_0_r, (proj2 (Nat.ltb_ge i i)), app_nil_r by lia.
      done.
    + rewrite Hf. pose proof (Hcur eq_refl) as Hh. cbn in Hh. subst h.
      rewrite (proj2 (Nat.ltb_lt le (i + 0))), app_nil_r by lia. unfold push_many.
      rewrite <- replicate_add. do 2 f_equal. lia.
  - apply Forall_cons in Hrest as [Hx Hrest]. replace (i + S (length rest))%nat with (S i + length rest)%nat by lia.
    case_decide as Hd.
    + subst x. rewrite (IH _ _ _ _ fl le) by (done || lia).
      replace (S i - ls)%nat with ((i - ls) + 1)%nat by lia. rewrite replicate_add, <- !app_assoc. done.
    + destruct cur as [[] h]; cbn [fst snd].
      * rewrite (IH _ _ _ _ _ _ (Hsnoc _ _ _ _ _ h Hf Hle)) by (done || lia).
        rewrite Nat.sub_diag. replace (S i - i)%nat with 1%nat by lia. by rewrite <- !app_assoc.
      * rewrite (IH _ _ _ _ fl le) by (done || lia). replace (S i - i)%nat with 1%nat by lia.
        pose proof (Hcur eq_refl) as Hh. cbn in Hh. subst h.
        replace (i - le)%nat with ((ls - le) + (i - ls))%nat by lia.
        by rewrite replicate_add, <- !app_assoc.
Qed.

Lemma flatten_unflatten x :
  Forall gap_ok x -> flatten_namespace_extents (unflatten_namespace_extents x) (length x) = x.
Proof.
  destruct x as [|c rest]; [done|]. intros [Hc Hr]%Forall_cons. cbn [unflatten_namespace_extents length].
  replace (S (length rest)) with (1 + length rest)%nat by done.
  by rewrite (flatten_unflatten_loop rest 1 0 c [] [] 0) by (done || lia).
Qed.

Lemma flat_from_gap_ok lo n es : Forall gap_ok (flat_from lo n es).
Proof.
  revert lo; induction es as [|e es IH]; intros lo; simpl; rewrite ?Forall_app; split_and?;
    try apply IH; apply Forall_replicate; by unfold gap_ok.
Qed.

(** The last extent of a list, and the rest. *)
Lemma extents_ok_snoc lo n es e :
  extents_ok lo n (es ++ [e]) <->
  extents_ok lo (begin_index e) es /\ (begin_index e < end_index e <= n)%nat /\
  (forall e', last es = Some e' -> end_index e' = begin_index e -> ext_hash e' <> ext_hash e).
Proof.
  revert lo; induction es as [|a es IH]; intros lo.
  - simpl. split.
    + intros (? & _ & ?). split_and!; [lia..|done].
    + intros (? & ? & _). split_and!; [lia..|done|lia].
  - change ((a :: es) ++ [e]) with (a :: (es ++ [e])). cbn [extents_ok]. rewrite IH.
    assert (head (es ++ [e]) = Some (default e (head es))) as -> by by destruct es.
    rewrite last_cons. destruct es as [|b es]; simpl.
    + split.
      * intros (? & Hs & ? & ? & _). split_and!; try lia; intros e' [=]; subst; by apply Hs.
      * intros ((? & _ & ?) & ? & Hs). split_and!; try lia; intros e' [=]; subst; by apply Hs.
    + destruct (last (b :: es)) eqn:El; [|by apply last_None in El]. split.
      * intros (? & ? & ? & ? & ?). destruct_and!. split_and!; try lia; done.
      * intros ((? & ? & ?) & ? & ?). destruct_and!. split_and!; try lia; done.
Qed.

Lemma extents_ok_weaken lo n m es : (n <= m)%nat -> extents_ok lo n es -> extents_ok lo m es.
Proof. revert lo; induction es; simpl; [lia|]. intros lo Hle (? & ? & ?). eauto. Qed.

Lemma update_back_snoc {A} (f : A -> A) l x : update_back f (l ++ [x]) = l ++ [f x].
Proof.
  unfold update_back. rewrite length_app. simpl.
  replace (length l + 1 - 1)%nat with (length l + 0)%nat by lia. by rewrite alter_app_r.
Qed.

Lemma unflatten_loop_ok rest : forall i ls cur res,
  extents_ok 0 ls res -> (ls < i)%nat ->
  (forall e, last res = Some e -> end_index e = ls -> cur.1 = true -> ext_hash e <> cur.2) ->
  extents_ok 0 (i + length rest) (unflatten_loop rest i ls cur res).
Proof.
  induction rest as [|x rest IH]; intros i ls cur res Hok Hls Hsep; cbn [unflatten_loop length].
  - destruct cur as [[] h]; cbn [fst snd] in *.
    + apply extents_ok_snoc. simpl. split_and!; [done|lia..|eauto].
    + eapply extents_ok_weaken; [|done]. lia.
  - replace (i + S (length rest))%nat with (S i + length rest)%nat by lia.
    case_decide as Hd; [subst; apply IH; auto|].
    destruct cur as [[] h]; cbn [fst snd] in *; apply IH; try lia.
    + apply extents_ok_snoc. simpl. split_and!; [done|lia..|eauto].
    + intros e He _ Hx. rewrite last_snoc in He. injection He as <-. simpl.
      intros ->. apply Hd. destruct x; simpl in *. by subst.
    + eapply extents_ok_weaken; [|done]. lia.
    + intros e He Hend _. exfalso. destruct res as [|e0 res _] using rev_ind; [done|].
      rewrite last_snoc in He. injection He as ->. apply extents_ok_snoc in Hok as (_ & ? & _). lia.
Qed.

Lemma unflatten_ok x : extents_ok 0 (length x) (unflatten_namespace_extents x).
Proof.
  destruct x as [|c rest]; simpl; [lia|]. apply (unflatten_loop_ok rest 1 0 c []); simpl; [lia..|done].
Qed.

(** ** Sorting *)

Lemma strict_weak_map {A B} (lt : B -> B -> bool) (f : A -> B) :
  strict_weak lt -> strict_weak (fun a b => lt (f a) (f b)).
Proof. intros []. split; eauto. Qed.

Lemma sort_comparator_strict_weak mask :
  strict_weak (fun a b : Z * Q => sort_comparator mask a.1 b.1 a.2 b.2).
Proof.
  unfold sort_comparator; split; qnum.
  - intros [i v]. simpl. rewrite Z.ltb_irrefl, Z.eqb_refl. simpl.
    apply negb_false_iff, Qle_bool_iff. lra.
  - intros [i v] [j w] [k u]; simpl; intros H1 H2. bprop.
    destruct H1 as [H1|H1], H2 as [H2|H2]; bprop; apply orb_true_iff; try (left; apply Z.ltb_lt; lia).
    right. apply andb_true_iff; split; [apply Z.eqb_eq; lia|]. apply negb_true_iff.
    apply not_true_iff_false. rewrite Qle_bool_iff. lra.
  - intros [i v] [j w] [k u]; simpl; intros [A1 B1]%orb_false_iff [A2 B2]%orb_false_iff.
    apply andb_false_iff in B1, B2. bprop.
    apply orb_false_iff; split; [apply Z.ltb_ge; lia|]. apply andb_false_iff.
    destruct B1 as [B1|B1], B2 as [B2|B2]; bprop; try (left; apply Z.eqb_neq; lia).
    right. apply negb_false_iff, Qle_bool_iff. lra.
Qed.

(** Equal numbers of values, indices and (if any) names; proper extents. *)
Record columns_ok {F} (fs : features F) : Prop := {
  co_indices : length (indices fs) = length (values fs);
  co_names : space_names fs = [] \/ length (space_names fs) = length (values fs);
  co_extents : extents_ok 0 (length (values fs)) (namespace_extents fs)
}.

(** Equal columns and proper extents, whatever the numbers; with auditing, a name for each feature. *)
Record columns_wf {F} (audit : bool) (fs : features F) : Prop := {
  go_indices : length (indices fs) = length (values fs);
  go_extents : extents_ok 0 (length (values fs)) (namespace_extents fs);
  go_names : length (space_names fs) = if audit then length (values fs) else 0%nat
}.

Lemma columns_wf_ok {F} audit (fs : features F) : columns_wf audit fs -> columns_ok fs.
Proof. intros [Hi He Hn]. split; [done| |done]. destruct audit; [by right|]. left. by apply length_zero_iff_nil. Qed.

Lemma columns_wf_empty {F} `{Num F} audit : columns_wf audit (fs_empty (F := F)).
Proof. split; [done|cbn; lia|by destruct audit]. Qed.

Section SortCorrect.
Context `{StdSort}.

Lemma sort_permutation_perm {F} `{Num F} (ixs : list Z) (vs : list F) cmp :
  sort_permutation ixs vs cmp ≡ₚ seq 0 (length ixs).
Proof. apply std_sort_perm. Qed.

Lemma sort_permutation_sorted (fs : features Q) mask :
  StronglySorted (fun i j => Z.land (nth i (indices fs) 0) mask <= Z.land (nth j (indices fs) 0) mask)
    (sort_permutation (indices fs) (values fs) (sort_comparator mask)).
Proof.
  pose proof (std_sort_sorted _ (seq 0 (length (indices fs)))
    (strict_weak_map _ (fun i => (nth i (indices fs) 0, nth i (values fs) 0%Q))
      (sort_comparator_strict_weak mask))) as Hs.
  unfold sorted_by in Hs. cbn in Hs. unfold sort_permutation. cbn.
  eapply strongly_sorted_impl; [|exact Hs]. cbn. intros i j Hij. unfold sort_comparator in Hij. bprop. lia.
Qed.

Lemma gather_column {V} (do_swap : nat -> nat -> V -> V) {A} (proj : V -> list A) (v : V) (n : nat) p v' :
  (forall i j v, proj (do_swap i j v) = swap_at i j (proj v)) ->
  length (proj v) = n -> p ≡ₚ seq 0 n ->
  apply_permutation_in_place do_swap p n v = Some v' -> gathered p (proj v) (proj v').
Proof.
  intros Hpr Hn Hp Hv. destruct (apply_permutation_gather (proj v) p) as (w & Hw & ? & ?).
  { by rewrite Hn. }
  rewrite Hn, <- (apply_permutation_proj do_swap p proj Hpr), Hv in Hw. injection Hw as <-. split; auto.
Qed.

Lemma apply_columns_total {F} b (c : columns (F:=F)) p n :
  length c.1.1.1 = n -> p ≡ₚ seq 0 n ->
  is_Some (apply_permutation_in_place (swap_columns b) p n c).
Proof.
  intros Hn Hp. destruct (apply_permutation_gather c.1.1.1 p) as (w & Hw & _).
  { by rewrite Hn. }
  rewrite Hn, <- (apply_permutation_proj (swap_columns b) p (fun c => c.1.1.1)) in Hw
    by (by intros ?? [[[??]?]?]).
  destruct (apply_permutation_in_place _ _ _ _); [by eexists|done].
Qed.

Lemma gathered_sorted {A} (R : A -> A -> Prop) p (l l' : list A) d :
  p ≡ₚ seq 0 (length l) -> gathered p l l' ->
  StronglySorted (fun i j => R (nth i l d) (nth j l d)) p -> StronglySorted R l'.
Proof.
  intros Hp Hg Hs. rewrite (gathered_fmap p l l' d Hp Hg). clear Hp Hg.
  induction Hs as [|i p _ IH Hi]; csimpl; constructor; [done|]. by apply Forall_fmap.
Qed.

Lemma columns_gather {F} b p (c c' : columns (F:=F)) n :
  p ≡ₚ seq 0 n -> length c.1.1.1 = n -> length c.1.1.2 = n -> length c.1.2 = n ->
  (b = true -> length c.2 = n) ->
  apply_permutation_in_place (swap_columns b) p n c = Some c' ->
  gathered p c.1.1.1 c'.1.1.1 /\ gathered p c.1.1.2 c'.1.1.2 /\ gathered p c.1.2 c'.1.2 /\
  (if b then gathered p c.2 c'.2 else c'.2 = c.2).
Proof.
  intros Hp H1 H2 H3 H4 Hc. split_and!.
  - eapply (gather_column (swap_columns b) (fun c => c.1.1.1)); [by intros ?? [[[??]?]?]|done..].
  - eapply (gather_column (swap_columns b) (fun c => c.1.1.2)); [by intros ?? [[[??]?]?]|done..].
  - eapply (gather_column (swap_columns b) (fun c => c.1.2)); [by intros ?? [[[??]?]?]|done..].
  - destruct b.
    + eapply (gather_column (swap_columns true) (fun c => c.2)); [by intros ?? [[[??]?]?]|by apply H4|done..].
    + eapply (apply_permutation_invariant (swap_columns false) p (fun c => c.2)); [by intros ?? [[[??]?]?]|done].
Qed.

Lemma flat_length {F} (fs : features F) :
  columns_ok fs -> length (flatten_namespace_extents (namespace_extents fs) (length (values fs))) = length (values fs).
Proof. intros []. rewrite flatten_spec, flat_from_length by done. lia. Qed.

(** Sorting gathers every column by the permutation found, whatever the format of the values. *)
Lemma sort_columns {F} `{Num F} (fs : features F) mask :
  columns_ok fs -> indices fs <> [] ->
  let flat f := flatten_namespace_extents (namespace_extents f) (length (values f)) in
  let p := sort_permutation (indices fs) (values fs) (sort_comparator mask) in
  exists fs',
    sort mask fs = Some (true, fs') /\ p ≡ₚ seq 0 (length (values fs)) /\
    gathered p (values fs) (values fs') /\ gathered p (indices fs) (indices fs') /\
    gathered p (flat fs) (flat fs') /\
    (space_names fs = [] /\ space_names fs' = [] \/ gathered p (space_names fs) (space_names fs')) /\
    extents_ok 0 (length (values fs')) (namespace_extents fs') /\
    sum_feat_sq fs' = sum_feat_sq fs.
Proof.
  intros Hok Hne flat p. pose proof (flat_length fs Hok) as Hflat. destruct Hok as [Hi Hn He]. unfold sort.
  assert (forall X (a b : X), match indices fs with [] => a | _ => b end = b) as -> by by destruct (indices fs).
  rewrite Hi. fold p. set (b := match space_names fs with [] => false | _ => true end).
  assert (p ≡ₚ seq 0 (length (values fs))) as Hp by (rewrite <- Hi; apply sort_permutation_perm).
  set (c := (values fs, indices fs, _, space_names fs)).
  destruct (apply_columns_total b c p (length (values fs)) eq_refl Hp) as [c' Hc']. rewrite Hc'.
  destruct (columns_gather b p c c' _ Hp eq_refl Hi Hflat) as (Gv & Gi & Ge & Gn); [|done|].
  { subst b. destruct Hn as [Hn|Hn]; [by rewrite Hn|done]. }
  destruct c' as [[[vs ixs] es] ns]. cbn in *.
  assert (length es = length vs) as Lev by (destruct Gv, Ge; lia).
  assert (Forall gap_ok es) as Hgap.
  { rewrite (gathered_perm p (flatten_namespace_extents (namespace_extents fs) (length (values fs))) es);
      [|by rewrite Hflat|exact Ge].
    rewrite flatten_spec. apply flat_from_gap_ok. }
  eexists. split; [done|]. cbn. split_and!; try done.
  - subst flat. cbn. by rewrite <- Lev, flatten_unflatten.
  - subst b. destruct (space_names fs); [by left|by right].
  - rewrite <- Lev. apply unflatten_ok.
Qed.

Lemma sort_spec (fs : features Q) mask :
  columns_ok fs -> indices fs <> [] ->
  let flat f := flatten_namespace_extents (namespace_extents f) (length (values f)) in
  exists p fs',
    sort mask fs = Some (true, fs') /\ p ≡ₚ seq 0 (length (values fs)) /\
    gathered p (values fs) (values fs') /\ gathered p (indices fs) (indices fs') /\
    gathered p (flat fs) (flat fs') /\
    (space_names fs = [] /\ space_names fs' = [] \/ gathered p (space_names fs) (space_names fs')) /\
    extents_ok 0 (length (values fs')) (namespace_extents fs') /\
    StronglySorted (fun i j => Z.land i mask <= Z.land j mask) (indices fs') /\
    sum_feat_sq fs' = sum_feat_sq fs.
Proof.
  intros Hok Hne flat. destruct (sort_columns fs mask Hok Hne) as (fs' & E & Hp & Gv & Gi & Ge & Gn & He & Hs).
  eexists _, fs'. split; [done|]. split_and!; try done.
  eapply gathered_sorted; [by rewrite (co_indices _ Hok)|exact Gi|]. cbn. apply sort_permutation_sorted.
Qed.

(** Sorting keeps a group well formed and permutes its features. *)
Lemma sort_columns_wf {F} `{Num F} audit (fs : features F) mask : columns_wf audit fs ->
  exists b fs', sort mask fs = Some (b, fs') /\ columns_wf audit fs' /\ values fs' ≡ₚ values fs /\ indices fs' ≡ₚ indices fs /\
    b = negb (bool_decide (indices fs = [])).
Proof.
  intros Hg. pose proof (columns_wf_ok _ _ Hg) as Hc. destruct (decide (indices fs = [])) as [E|Hne].
  { exists false, fs. rewrite bool_decide_true by done. split; [|done]. unfold sort. by rewrite E. }
  destruct (sort_columns fs mask Hc Hne) as (fs' & E & Hp & Gv & Gi & _ & Gn & He & _). exists true, fs'. rewrite bool_decide_false by done.
  destruct Hg as [Hi _ Hn]. pose proof (gathered_perm _ _ _ Hp Gv) as Pv.
  assert (indices fs' ≡ₚ indices fs) as Pi by (by eapply gathered_perm; [rewrite Hi|]).
  split; [done|]. split; [|done]. split; [by rewrite Pv, Pi|done|]. rewrite Pv, <- Hn. destruct Gn as [[-> ->]|[Gl _]]; [done|]. lia.
Qed.
End SortCorrect.

(** ** Construction keeps the container well formed *)

Definition square (v : Q) : Q := (v * v)%Q.

Record features_wf (fs : features Q) : Prop := {
  wf_indices : length (indices fs) = length (values fs);
  wf_extents : extents_ok 0 (length (values fs)) (namespace_extents fs);
  wf_sum : (sum_feat_sq fs == qsum (square <$> values fs))%Q
}.

Definition push_all (items : list (Q * Z)) (fs : features Q) : features Q :=
  fold_left (fun fs x => push_back x.1 x.2 fs) items fs.

(** The states the operations build. The side conditions are the callers'
    obligations: an extent is extended only when it ends at the last feature, a
    truncation is told the weight it removes, and a concatenation does not meet
    an equal namespace at the seam. *)
Inductive built `{StdSort} : features Q -> Prop :=
| built_empty : built fs_empty
| built_clear fs : built fs -> built (clear fs)
| built_push fs v i : built fs -> built (push_back v i fs)
| built_push_ns fs v i hash : built fs ->
    (forall b, last (namespace_extents fs) = Some b -> ext_hash b = hash -> end_index b = size fs) ->
    built (push_back_ns v i hash fs)
| built_session fs hash items : built fs ->
    (size fs + length items <> 0)%nat ->
    built (end_ns_extent (push_all items (start_ns_extent hash fs)))
| built_truncate fs i removed : built fs -> (i <= size fs)%nat ->
    (removed == qsum (square <$> drop i (values fs)))%Q ->
    built (truncate_to_sum i removed fs)
| built_concat fs other : built fs -> built other ->
    (forall b f, last (namespace_extents fs) = Some b -> head (namespace_extents other) = Some f ->
      ext_hash b <> ext_hash f) ->
    built (concat fs other)
| built_sort fs fs' mask b : built fs -> (length (space_names fs) = 0 \/ length (space_names fs) = size fs)%nat ->
    sort mask fs = Some (b, fs') -> built fs'.

Lemma extents_last_le lo n es b : extents_ok lo n es -> last es = Some b -> (begin_index b < end_index b <= n)%nat.
Proof.
  destruct es as [|e es _] using rev_ind; [done|]. rewrite extents_ok_snoc, last_snoc.
  intros (_ & ? & _) [= <-]. done.
Qed.

Lemma qsum_squares_snoc l v : (qsum (square <$> (l ++ [v])) == qsum (square <$> l) + v * v)%Q.
Proof. rewrite fmap_app, qsum_app. simpl. unfold square. lra. Qed.

Lemma push_back_wf v i fs : features_wf fs -> features_wf (push_back v i fs).
Proof.
  intros [Hi He Hs]. split; cbn [indices values namespace_extents sum_feat_sq push_back].
  - rewrite !length_app, Hi. done.
  - eapply extents_ok_weaken; [|done]. rewrite length_app. lia.
  - rewrite qsum_squares_snoc, <- Hs. qnum. lra.
Qed.

Lemma set_extents_wf es fs :
  features_wf fs -> extents_ok 0 (length (values fs)) es -> features_wf (set_extents es fs).
Proof. intros [] ?. by split. Qed.

(** The extents after [push_back(v, i, hash)]. *)
Lemma push_back_ns_fields {F} `{Num F} (v : F) i hash fs :
  length (indices fs) = length (values fs) -> extents_ok 0 (length (values fs)) (namespace_extents fs) ->
  (forall b, last (namespace_extents fs) = Some b -> ext_hash b = hash -> end_index b = size fs) ->
  exists es, push_back_ns v i hash fs = push_back v i (set_extents es fs) /\ extents_ok 0 (S (length (values fs))) es /\
    exists b, last es = Some b /\ ext_hash b = hash /\ end_index b = S (length (values fs)).
Proof.
  intros Hi He Hlast. unfold push_back_ns.
  set (fs0 := match last (namespace_extents fs) with Some b => _ | None => fs end).
  assert (fs0 = fs) as ->.
  { subst fs0. destruct (last (namespace_extents fs)) as [b|] eqn:E; [|done].
    pose proof (extents_last_le _ _ _ _ He E). rewrite (proj2 (Nat.eqb_neq (end_index b) 0)), andb_false_r by lia.
    done. }
  eexists. split; [reflexivity|]. unfold size in Hlast. rewrite Hi.
  destruct (namespace_extents fs) as [|b es _] using rev_ind.
  { split; [cbn; split_and!; [lia..|done|lia]|]. eexists. split; [reflexivity|]. split; [done|cbn; lia]. }
  rewrite last_snoc in *. specialize (Hlast b eq_refl). pose proof He as He'. apply extents_ok_snoc in He as (He & Hb & Hsep).
  rewrite (proj2 (Nat.eqb_neq (end_index b) 0)) by lia. simpl.
  destruct (Z.eqb_spec (ext_hash b) hash) as [Hh|Hh]; simpl.
  - rewrite update_back_snoc, last_snoc. split; [apply extents_ok_snoc; simpl; split_and!; [done|lia..|done]|].
    eexists. split; [reflexivity|]. split; [done|]. cbn. by rewrite Hlast.
  - rewrite last_snoc. split; [|eexists; split; [reflexivity|]; cbn; split; [done|lia]].
    apply extents_ok_snoc. simpl. split_and!; [done|lia..|]. intros e'. rewrite last_snoc. by intros [= <-].
Qed.

Lemma push_back_ns_wf v i hash fs :
  features_wf fs ->
  (forall b, last (namespace_extents fs) = Some b -> ext_hash b = hash -> end_index b = size fs) ->
  features_wf (push_back_ns v i hash fs).
Proof.
  intros [Hi He Hs] Hlast. destruct (push_back_ns_fields v i hash fs Hi He Hlast) as (es & -> & Hes & _).
  split; cbn [indices values namespace_extents sum_feat_sq push_back set_extents].
  - rewrite !length_app, Hi. done.
  - rewrite length_app. by replace (length (values fs) + length [v])%nat with (S (length (values fs))) by (simpl; lia).
  - rewrite qsum_squares_snoc, <- Hs. qnum. lra.
Qed.

Lemma push_all_fields items fs :
  values (push_all items fs) = values fs ++ items.*1 /\
  indices (push_all items fs) = indices fs ++ items.*2 /\
  namespace_extents (push_all items fs) = namespace_extents fs /\
  (sum_feat_sq (push_all items fs) == sum_feat_sq fs + qsum (square <$> items.*1))%Q.
Proof.
  revert fs; induction items as [|[v i] items IH]; intros fs; csimpl.
  - rewrite !app_nil_r. split_and!; try done. lra.
  - unfold push_all in *. cbn [fold_left]. destruct (IH (push_back v i fs)) as (-> & -> & -> & Hs).
    cbn [values indices namespace_extents sum_feat_sq push_back fst snd] in *. rewrite <- !app_assoc.
    split_and!; [done..|]. rewrite Hs. qnum. unfold square. lra.
Qed.

(** Closing an extent opened at [m] after [n - m] features. *)
Lemma close_extents_ok es m n hash :
  extents_ok 0 m es -> (m <= n)%nat ->
  extents_ok 0 n (close_extents n (es ++ [Extent m 0 hash])).
Proof.
  intros Hok Hmn. unfold close_extents. rewrite update_back_snoc, last_snoc. cbn [begin_index end_index ext_hash].
  destruct (Nat.eqb_spec m n) as [->|Hne].
  - rewrite removelast_last. destruct es as [|e es _] using rev_ind; [simpl; lia|].
    rewrite reverse_snoc. destruct es as [|p es _] using rev_ind; [done|].
    rewrite reverse_snoc. destruct (Z.eqb_spec (ext_hash p) (ext_hash e)) as [Hh|]; [|done].
    apply extents_ok_snoc in Hok as (Hok & He & Hsep). rewrite last_snoc in Hsep.
    apply extents_ok_snoc in Hok as (Hok & Hp & Hsep').
    rewrite reverse_cons, reverse_involutive. apply extents_ok_snoc. simpl. split_and!; [done|lia..|done].
  - rewrite reverse_snoc. destruct es as [|p es _] using rev_ind.
    { simpl. split_and!; [lia..|done|lia]. }
    rewrite reverse_snoc. cbn [ext_hash]. destruct (Z.eqb_spec (ext_hash p) hash) as [Hh|Hh].
    + apply extents_ok_snoc in Hok as (Hok & Hp & Hsep).
      rewrite reverse_cons, reverse_involutive. apply extents_ok_snoc. simpl. split_and!; [done|lia..|done].
    + apply extents_ok_snoc. simpl. split_and!; [done|lia..|]. intros e'. rewrite last_snoc. by intros [= <-].
Qed.

Lemma session_wf hash items fs :
  features_wf fs -> features_wf (end_ns_extent (push_all items (start_ns_extent hash fs))).
Proof.
  intros [Hi He Hs]. destruct (push_all_fields items (start_ns_extent hash fs)) as (Hv & Hx & Hn & Hq).
  cbn [values indices namespace_extents sum_feat_sq start_ns_extent set_extents] in *.
  split; cbn [indices values namespace_extents sum_feat_sq end_ns_extent set_extents].
  - rewrite Hv, Hx, !length_app, !length_fmap, Hi. done.
  - rewrite Hv, Hx, Hn, Hi, !length_app, !length_fmap, Hi. apply close_extents_ok; [done|lia].
  - rewrite Hv, Hq, Hs, fmap_app, qsum_app. done.
Qed.

Lemma pop_extents_ok i lo n es :
  extents_ok lo n es ->
  exists es', reverse (pop_extents i (reverse es)) = es' /\ extents_ok lo n es' /\
    (forall e, last es' = Some e -> (begin_index e < i)%nat).
Proof.
  intros Hok. induction es as [|e es IH] using rev_ind; [by exists []|].
  rewrite reverse_snoc. cbn [pop_extents]. destruct (Nat.leb_spec i (begin_index e)).
  - apply IH. apply extents_ok_snoc in Hok as (Hok & ? & _). eapply extents_ok_weaken; [|done]. lia.
  - eexists. split; [done|]. rewrite reverse_cons, reverse_involutive. split; [done|].
    intros e'. rewrite last_snoc. by intros [= <-].
Qed.

Lemma truncate_extents_ok i n es :
  extents_ok 0 n es -> extents_ok 0 i (truncate_extents i es).
Proof.
  intros Hok. unfold truncate_extents. destruct (pop_extents_ok i 0 n es Hok) as (es' & -> & Hok' & Hlast).
  clear Hok. destruct es' as [|e es' _] using rev_ind; [simpl; lia|]. rewrite update_back_snoc.
  rewrite last_snoc in Hlast. specialize (Hlast e eq_refl). apply extents_ok_snoc in Hok' as (Hok & He & Hsep).
  destruct (Nat.ltb_spec i (end_index e)); apply extents_ok_snoc; simpl; split_and!; (done || lia).
Qed.

Lemma truncate_wf i removed fs :
  features_wf fs -> (i <= size fs)%nat -> (removed == qsum (square <$> drop i (values fs)))%Q ->
  features_wf (truncate_to_sum i removed fs).
Proof.
  intros [Hi He Hs] Hle Hr. unfold truncate_to_sum. case_if; [by split|]. bprop. unfold size in *.
  split; cbn [indices values namespace_extents sum_feat_sq]; unfold shrink.
  - rewrite length_take. destruct (indices fs); simpl in *; [lia|]. rewrite length_take. simpl. lia.
  - rewrite length_take, Nat.min_l by lia. by eapply truncate_extents_ok.
  - qnum. rewrite Hs, Hr. rewrite <- (take_drop i (values fs)) at 1. rewrite fmap_app, qsum_app. lra.
Qed.

Lemma truncate_columns_wf {F} `{Num F} audit i removed (fs : features F) : columns_wf audit fs -> (i <= size fs)%nat ->
  columns_wf audit (truncate_to_sum i removed fs) /\ values (truncate_to_sum i removed fs) = take i (values fs) /\
  indices (truncate_to_sum i removed fs) = take i (indices fs).
Proof.
  intros Hg Hi. pose proof Hg as [Hx He Hn]. unfold truncate_to_sum. destruct (i =? size fs)%nat eqn:E; bprop.
  { subst i. unfold size. split; [done|]. by rewrite !take_ge by lia. }
  unfold size in *. cbn [values indices]. unfold shrink. assert (match indices fs with [] => [] | _ => take i (indices fs) end = take i (indices fs)) as -> by by destruct (indices fs); rewrite ?take_nil.
  split; [|done]. split; cbn [indices values namespace_extents space_names].
  - rewrite !length_take. lia.
  - rewrite length_take, Nat.min_l by lia. by eapply truncate_extents_ok.
  - rewrite Hn. destruct audit; [rewrite (proj2 (Nat.ltb_lt _ _)), !length_take by lia; lia|].
    rewrite (proj2 (Nat.ltb_ge _ _)) by lia. done.
Qed.

Lemma extents_ok_app lo m n es os :
  extents_ok lo m es -> extents_ok m n os ->
  (forall b f, last es = Some b -> head os = Some f -> ext_hash b <> ext_hash f) ->
  extents_ok lo n (es ++ os).
Proof.
  intros Hes Hos Hsep. revert lo Hes Hsep. induction es as [|e es IH]; intros lo Hes Hsep.
  - simpl in *. destruct os; simpl in *; [lia|]. destruct Hos as (? & ? & ?). split_and!; (done || lia).
  - simpl in Hes. destruct Hes as (? & Hd & Hok). rewrite <- app_comm_cons. cbn [extents_ok]. split; [done|]. split.
    + destruct es as [|e' es]; [|done]. intros e' He' _. by eapply Hsep.
    + apply IH; [done|]. intros b f Hb Hf. eapply Hsep; [|done]. rewrite last_cons. by rewrite Hb.
Qed.

Lemma extents_ok_shift off lo n es :
  extents_ok lo n es -> extents_ok (off + lo) (off + n) (shift_extent off <$> es).
Proof.
  revert lo; induction es as [|e es IH]; intros lo; csimpl; [lia|].
  intros (? & Hsep & Hok). split_and!; [lia..| |].
  - destruct es as [|e' es]; csimpl; [done|]. intros ? [= <-] ?. simpl in *. eapply Hsep; [done|lia].
  - replace (end_index e + off)%nat with (off + end_index e)%nat by lia. by apply IH.
Qed.

Lemma concat_extents_apart off es os :
  (forall b f, last es = Some b -> head os = Some f -> ext_hash b <> ext_hash f) ->
  concat_extents off es os = es ++ (shift_extent off <$> os).
Proof.
  intros Hsep. unfold concat_extents. destruct (last es) as [b|]; destruct (head os) as [f|];
    rewrite ?(proj2 (Z.eqb_neq _ _) (Hsep _ _ eq_refl eq_refl)), drop_0, Nat.sub_0_r, firstn_all; done.
Qed.

Lemma concat_wf fs other :
  features_wf fs -> features_wf other ->
  (forall b f, last (namespace_extents fs) = Some b -> head (namespace_extents other) = Some f ->
    ext_hash b <> ext_hash f) ->
  features_wf (concat fs other).
Proof.
  intros [Hi He Hs] [Hi' He' Hs'] Hsep. split; cbn [indices values namespace_extents sum_feat_sq concat].
  - rewrite !length_app. lia.
  - rewrite concat_extents_apart, length_app by done. eapply extents_ok_app; [done| |].
    + rewrite Hi. apply (extents_ok_shift (length (values fs))) in He'. by rewrite Nat.add_0_r in He'.
    + intros b f Hb Hf. destruct (namespace_extents other) as [|o os]; csimpl in *; [done|].
      injection Hf as <-. simpl. by eapply Hsep.
  - rewrite fmap_app, qsum_app, <- Hs, <- Hs'. qnum. lra.
Qed.

Lemma sort_wf `{StdSort} fs fs' mask b :
  features_wf fs -> (length (space_names fs) = 0 \/ length (space_names fs) = size fs)%nat ->
  sort mask fs = Some (b, fs') -> features_wf fs'.
Proof.
  intros Hwf Hn Hsort. pose proof Hwf as [Hi He Hs]. destruct (decide (indices fs = [])) as [Hnil|Hne].
  { unfold sort in Hsort. rewrite Hnil in Hsort. by injection Hsort as _ <-. }
  destruct (sort_spec fs mask) as (p & fs1 & Hs1 & Hp & Gv & Gi & _ & _ & Hext & _ & Hsum); [|done|].
  { split; [done| |done]. destruct Hn as [Hn|Hn]; [left; by apply nil_length_inv|by right]. }
  rewrite Hsort in Hs1. injection Hs1 as -> <-.
  split; [destruct Gv, Gi; lia|done|]. rewrite Hsum, Hs.
  by rewrite (gathered_perm p _ _ Hp Gv).
Qed.

Lemma built_wf_aux `{StdSort} fs : built fs -> features_wf fs.
Proof.
  induction 1; eauto using push_back_wf, push_back_ns_wf, session_wf, truncate_wf, concat_wf, sort_wf.
  all: split; simpl; (done || lia || lra).
Qed.

(** ** The sparse dot product *)

Section Dot.
#[local] Abbreviation row := (Z * Q)%type.

(** The value stored under an index, 0 when there is none. *)
Fixpoint value_at (i : Z) (l : list row) : Q :=
  match l with [] => 0%Q | (j, w) :: l' => if i =? j then w else value_at i l' end.

Lemma value_at_head i w l : value_at i ((i, w) :: l) = w.
Proof. simpl. by rewrite Z.eqb_refl. Qed.

Definition ascending (l : list row) : Prop := StronglySorted (fun a b => a.1 < b.1) l.

Lemma value_at_above i l : Forall (fun x => i < x.1) l -> value_at i l = 0%Q.
Proof.
  induction 1 as [|[j w] l Hj _ IH]; simpl in *; [done|]. rewrite (proj2 (Z.eqb_neq i j)) by lia. done.
Qed.

Lemma ascending_from i j w l : ascending ((j, w) :: l) -> i < j -> Forall (fun x : row => i < x.1) ((j, w) :: l).
Proof.
  intros Hl%StronglySorted_inv Hij. constructor; [done|]. eapply Forall_impl; [apply Hl|]. simpl. lia.
Qed.

Lemma skip_below_spec i l :
  ascending l -> ascending (skip_below i l) /\ Forall (fun x => i <= x.1) (skip_below i l) /\
    forall i', i <= i' -> value_at i' (skip_below i l) = value_at i' l.
Proof.
  induction 1 as [|[j w] l Hl IH Hj]; simpl; [split_and!; (constructor || done)|].
  rewrite Z.gtb_ltb. destruct (Z.ltb_spec j i) as [Hlt|Hge].
  - destruct IH as (? & ? & IH). split_and!; [done..|]. intros i' Hi'.
    rewrite IH by done. by rewrite (proj2 (Z.eqb_neq i' j)) by lia.
  - split_and!; [by constructor| |done]. constructor; [done|]. eapply Forall_impl; [exact Hj|]. simpl. lia.
Qed.

Lemma dot_loop_spec l1 : forall l2 acc,
  ascending l1 -> ascending l2 ->
  (dot_loop l1 l2 acc == acc + qsum ((fun x : row => x.2 * value_at x.1 l2) <$> l1))%Q.
Proof.
  induction l1 as [|[i v] l1 IH]; intros l2 acc H1 H2; [simpl; lra|].
  pose proof (StronglySorted_inv H1) as [Hs1 Hi].
  assert (forall l l', (forall i', i < i' -> value_at i' l = value_at i' l') ->
    (qsum ((fun x : row => x.2 * value_at x.1 l) <$> l1) ==
     qsum ((fun x : row => x.2 * value_at x.1 l') <$> l1))%Q) as Hext.
  { intros l l' Hll. apply qsum_map_ext. intros x Hx.
    rewrite Forall_forall in Hi. specialize (Hi x Hx). rewrite Hll by done. done. }
  cbn [dot_loop]. rewrite fmap_cons. cbn [qsum fst snd]. destruct l2 as [|[j w] l2].
  { rewrite (qsum_map_ext _ (fun _ => 0%Q)) by (intros; simpl; lra). rewrite qsum_const. simpl. lra. }
  destruct (Z.ltb_spec i j) as [Hlt|Hge].
  { rewrite IH, (value_at_above i) by (done || by apply ascending_from). lra. }
  destruct (skip_below_spec i _ H2) as (Ha & Hle & Hval).
  pose proof (Hval i (Z.le_refl i)) as Hvi. destruct (skip_below i ((j, w) :: l2)) as [|[k u] l2'].
  { rewrite IH, <- Hvi by (done || constructor). rewrite (Hext [] ((j, w) :: l2)); [simpl; lra|].
    intros. apply Hval. lia. }
  apply Forall_cons in Hle as [Hk _]. simpl in Hk. destruct (Z.eqb_spec i k) as [->|Hne].
  - apply StronglySorted_inv in Ha as [Ha _]. rewrite IH by done. rewrite <- Hvi, value_at_head.
    rewrite (Hext l2' ((j, w) :: l2)); [qnum; lra|].
    intros i' Hi'. rewrite <- Hval by lia. simpl. by rewrite (proj2 (Z.eqb_neq i' k)) by lia.
  - rewrite IH by done. rewrite <- Hvi. rewrite (value_at_above i) by (apply ascending_from; [done|lia]).
    rewrite (Hext ((k, u) :: l2') ((j, w) :: l2)); [lra|]. intros. apply Hval. lia.
Qed.
End Dot.

Definition rows (fs : features Q) : list (Z * Q) := zip (indices fs) (values fs).

(** * Properties *)

(** Every container the operations build, under the obligations [built] records, has as
    many indices as values, extents that are increasing, nonempty, in range and separated, and
    [sum_feat_sq] equal to the sum of the squared values. *)
Theorem built_wf `{StdSort} fs : built fs -> features_wf fs.
Proof. apply built_wf_aux. Qed.

Lemma built_wf_witness :
  features_wf (end_ns_extent (push_all [(1 # 2, 4); (2%Q, 3)] (start_ns_extent 8 (push_back_ns 3%Q 5 7 fs_empty)))).
Proof.
  apply (built_wf (H := std_sort_stable)). apply built_session; [|simpl; lia].
  apply built_push_ns; [apply built_empty|]. intros b Hb. discriminate Hb.
Defined.

(** [features::sort] on consistent columns succeeds, applies one permutation to the values, the
    indices, the per-feature extents and the names alike, leaves the masked indices in
    increasing order, rebuilds proper extents and keeps [sum_feat_sq]; whatever [std::sort] does
    with equivalent elements. *)
Theorem sort_sorts `{StdSort} (fs : features Q) mask :
  columns_ok fs -> indices fs <> [] ->
  let flat f := flatten_namespace_extents (namespace_extents f) (length (values f)) in
  exists p fs',
    sort mask fs = Some (true, fs') /\ p ≡ₚ seq 0 (length (values fs)) /\
    gathered p (values fs) (values fs') /\ gathered p (indices fs) (indices fs') /\
    gathered p (flat fs) (flat fs') /\
    (space_names fs = [] /\ space_names fs' = [] \/ gathered p (space_names fs) (space_names fs')) /\
    extents_ok 0 (length (values fs')) (namespace_extents fs') /\
    StronglySorted (fun i j => Z.land i mask <= Z.land j mask) (indices fs') /\
    sum_feat_sq fs' = sum_feat_sq fs.
Proof. apply sort_spec. Qed.

Definition unsorted_group : features Q :=
  Features Q [1; 2; 3]%Q [9; 4; 6] [] [Extent 0 2 7; Extent 2 3 8] 14%Q.

Lemma sort_sorts_witness :
  columns_ok unsorted_group /\
  exists p fs', sort (H0 := std_sort_stable) 255 unsorted_group = Some (true, fs') /\ p ≡ₚ seq 0 3 /\
    gathered p [9; 4; 6] (indices fs').
Proof.
  assert (columns_ok unsorted_group) as Hok.
  { split; [done|by left|]. simpl. split_and!; try lia; intros ? [=]; subst; done. }
  split; [exact Hok|].
  destruct (sort_sorts (H := std_sort_stable) unsorted_group 255 Hok ltac:(discriminate))
    as (p & fs' & H1 & H2 & _ & H3 & _).
  exists p, fs'. exact (conj H1 (conj H2 H3)).
Defined.

(** Extents survive the per-feature representation: unflattening the flattened
    extents of a well-formed group gives the extents back, and flattening the unflattened
    elements gives the elements back. *)
Theorem flatten_roundtrip es n x :
  extents_ok 0 n es -> Forall gap_ok x ->
  unflatten_namespace_extents (flatten_namespace_extents es n) = es /\
  flatten_namespace_extents (unflatten_namespace_extents x) (length x) = x.
Proof. intros. split; [by apply unflatten_flatten|by apply flatten_unflatten]. Qed.

Lemma flatten_roundtrip_witness :
  unflatten_namespace_extents (flatten_namespace_extents [Extent 1 3 7; Extent 3 4 8] 6) = [Extent 1 3 7; Extent 3 4 8] /\
  flatten_namespace_extents (unflatten_namespace_extents [(false, 0); (true, 5); (true, 5)]) 3 = [(false, 0); (true, 5); (true, 5)].
Proof.
  apply (flatten_roundtrip [Extent 1 3 7; Extent 3 4 8] 6 [(false, 0); (true, 5); (true, 5)]).
  - simpl. split_and!; try lia; intros ? [=]; subst; done.
  - repeat constructor; unfold gap_ok; done.
Defined.

(** [features_dot_product] of two groups with increasing indices is the sum, over the
    features of the first, of the value times the second group's value at the same index. *)
Theorem features_dot_product_spec (fs1 fs2 : features Q) :
  ascending (rows fs1) -> ascending (rows fs2) -> length (indices fs2) = length (values fs2) ->
  (features_dot_product fs1 fs2 == qsum ((fun x => x.2 * value_at x.1 (rows fs2)) <$> rows fs1))%Q.
Proof.
  intros H1 H2 Hlen. unfold features_dot_product, rows in *. destruct (indices fs2) as [|i l] eqn:E.
  - cbn [zip zip_with value_at]. rewrite (qsum_map_ext _ (fun _ => 0%Q)) by (intros; ring).
    rewrite qsum_const. qnum. ring.
  - rewrite dot_loop_spec by done. qnum. ring.
Qed.

Lemma features_dot_product_spec_witness :
  let a := Features Q [1; 2; 3]%Q [2; 5; 9] [] [] 14%Q in
  let b := Features Q [4; 7]%Q [5; 8] [] [] 65%Q in
  (features_dot_product a b == 8)%Q.
Proof.
  intros a b. rewrite (features_dot_product_spec a b); [vm_compute; done|..|done];
    subst a b; repeat constructor.
Defined.

(** The one-argument [truncate_to] keeps the prefix, but its running total subtracts
    [values[idx] * values[i]] for each removed feature: [sum_feat_sq] afterwards is the kept weight
    plus the sum of [v * (v - values[i])] over the removed values. It is right
    exactly when that excess is zero. *)
Theorem truncate_to_excess (fs : features Q) i vi :
  features_wf fs -> values fs !! i = Some vi ->
  values (truncate_to i fs) = take i (values fs) /\
  (sum_feat_sq (truncate_to i fs) ==
   qsum (square <$> take i (values fs)) + qsum ((fun v => v * (v - vi)) <$> drop i (values fs)))%Q.
Proof.
  intros [_ _ Hs] Hi. pose proof (lookup_lt_Some _ _ _ Hi). unfold truncate_to, truncate_to_sum, size.
  rewrite (proj2 (Nat.eqb_neq i (length (values fs)))) by lia. cbn [values sum_feat_sq]. split; [done|].
  unfold removed_chunk. rewrite Hi. qnum. rewrite Hs.
  assert (forall l a, fold_left (fun acc v : Q => acc + v * vi)%Q l a == a + qsum ((fun v => v * vi)%Q <$> l))%Q as Hfold.
  { induction l as [|v l IH]; intros a; cbn [fold_left]; rewrite ?fmap_cons; cbn [qsum]; [simpl; lra|].
    rewrite IH. lra. }
  rewrite Hfold. rewrite <- (take_drop i (values fs)) at 1. rewrite fmap_app, qsum_app.
  assert (qsum (square <$> drop i (values fs)) ==
    qsum ((fun v => v * (v - vi)) <$> drop i (values fs)) + qsum ((fun v => v * vi) <$> drop i (values fs)))%Q as ->.
  { rewrite <- qsum_map_plus. apply qsum_map_ext. intros v _. unfold square. lra. }
  change (inject_Z 0) with 0%Q. lra.
Qed.

Definition three_features : features Q := Features Q [1; 2; 3]%Q [2; 5; 9] [] [] 14%Q.

(** Truncating [1, 2, 3] to one feature leaves [sum_feat_sq] = 4, not 1. *)
Lemma truncate_to_excess_witness :
  (sum_feat_sq (truncate_to 1 three_features) == 4)%Q /\ values (truncate_to 1 three_features) = [1%Q].
Proof.
  destruct (truncate_to_excess three_features 1 2%Q) as [Hv Hs]; [split; simpl; [done|lia|vm_compute; done]|done|].
  split; [rewrite Hs; vm_compute; done|exact Hv].
Defined.

(** Concatenating two groups whose extents meet in the same namespace merges the
    first extent of the second group and drops its last one: with [n >= 2] extents on
    the right only [n - 2] more follow the merged one. *)
Theorem concat_drops_extent (es : list namespace_extent) b f os l off :
  ext_hash b = ext_hash f ->
  concat_extents off (es ++ [b]) (f :: os ++ [l]) =
  es ++ [Extent (begin_index b) (end_index b + (end_index f - begin_index f)) (ext_hash b)] ++
  (shift_extent off <$> os).
Proof.
  intros Hh. unfold concat_extents. rewrite last_snoc. cbn [head]. rewrite (proj2 (Z.eqb_eq _ _) Hh).
  rewrite update_back_snoc, <- app_assoc. do 2 f_equal. simpl length. rewrite length_app.
  replace (S (length os + length [l]) - 1)%nat with (S (length os)) by (simpl; lia).
  cbn [take]. rewrite take_app_length. done.
Qed.

Lemma concat_drops_extent_witness :
  concat_extents 1 [Extent 0 1 7] [Extent 0 1 7; Extent 1 2 8] = [Extent 0 2 7].
Proof. exact (concat_drops_extent [] (Extent 0 1 7) (Extent 0 1 7) [] (Extent 1 2 8) 1 eq_refl). Defined.
