(* ===== verification/InteractionPredict.v ===== *)
(** * Interaction features ([core/include/vw/core/interactions_predict.h],
      [core/src/interactions.cc])

    The generation of the cross features of an example: the nested loops for pairs and
    triples, the non-recursive state machine for any length, the expansion of extent terms, and
    the closed formula for the number and the squared weight of what is generated. *)

From S2P Require Import Prelude.
From S2P Require Import Features.

Definition FNV_PRIME : Z := 16777619.
Definition WILDCARD_NAMESPACE : Z := 58.

(** [extent_term]: a feature group and the hash of an extent. *)
Definition extent_term : Type := Z * Z.

(** A [features_range_t]: two audit iterators into the group [r_group]. An
    iterator is the group whose arrays it points into and a position. *)
Record features_range := Range { r_group : Z; r_begin : nat; r_end : nat }.

#[export] Instance features_range_eq_dec : EqDecision features_range.
Proof. solve_decision. Defined.

Section Generation.
Context {F : Type} `{Num F} (feature_space : Z -> features F).

(** Dereferencing the iterator at position [p] of group [g]. *)
Definition it_value (g : Z) (p : nat) : F := nth p (values (feature_space g)) (n_of_Z 0).
Definition it_index (g : Z) (p : nat) : Z := nth p (indices (feature_space g)) 0.
Definition it_audit (g : Z) (p : nat) : option audit_strings :=
  match space_names (feature_space g) with [] => None | ns => ns !! p end.

(** [EMPTY_AUDIT_STRINGS] *)
Definition EMPTY_AUDIT_STRINGS : audit_strings := AuditStrings [] [] [].

Definition interaction_value (value1 value2 : F) : F := (value1 * value2)%num.

(** What the generators do, in order: [audit_func(s)] ([None] is
    [audit_func(nullptr)]) and calls of [kernel_func(begin, end, ft_value, halfhash)]. *)
Inductive event :=
| Audit (s : option audit_strings)
| Kernel (group : Z) (begin_it end_it : nat) (ft_value : F) (halfhash : Z).

Definition audit_or_empty (audit : bool) (g : Z) (p : nat) : list event :=
  if audit then [Audit (Some (default EMPTY_AUDIT_STRINGS (it_audit g p)))] else [].
Definition audit_raw (audit : bool) (g : Z) (p : nat) : list event :=
  if audit then [Audit (it_audit g p)] else [].
Definition audit_pop (audit : bool) : list event := if audit then [Audit None] else [].

(** One generated feature: what [FuncT] is given. *)
Definition generated_feature : Type := F * Z.

(** The calls that reach the caller: [audit_func(dat, s)] and [FuncT(dat, ft_value, ft_idx)]. *)
Inductive call :=
| CallAudit (s : option audit_strings)
| CallFunc (f : generated_feature).

Definition feature_at (offset : Z) (g : Z) (ft_value : F) (halfhash : Z) (p : nat) : generated_feature :=
  (interaction_value ft_value (it_value g p), u64 (Z.lxor (it_index g p) halfhash + offset)).

Definition inner_kernel (audit : bool) (offset : Z) (g : Z) (begin_it end_it : nat) (ft_value : F) (halfhash : Z) : list call :=
  p ← seq begin_it (end_it - begin_it);
  if audit then
    [CallAudit (Some (default EMPTY_AUDIT_STRINGS (it_audit g p)));
     CallFunc (feature_at offset g ft_value halfhash p); CallAudit None]
  else [CallFunc (feature_at offset g ft_value halfhash p)].

Definition calls (audit : bool) (offset : Z) (e : event) : list call :=
  match e with
  | Audit s => [CallAudit s]
  | Kernel g b en ft_value halfhash => inner_kernel audit offset g b en ft_value halfhash
  end.

(** The features among the calls; [generated_by] reads them off an event. *)
Definition generated (cs : list call) : list generated_feature :=
  omap (fun c => match c with CallFunc f => Some f | CallAudit _ => None end) cs.
Definition generated_by (offset : Z) (e : event) : list generated_feature :=
  match e with
  | Audit _ => []
  | Kernel g b en ft_value halfhash => feature_at offset g ft_value halfhash <$> seq b (en - b)
  end.

(** *** Pairs *)

(** [&first_begin == &second_begin] *)
Definition same_begin (r1 r2 : features_range) : bool :=
  (r_group r1 =? r_group r2) && (r_begin r1 =? r_begin r2)%nat.

(** The loop over the first range: [n] iterations left, at position [p], [i] done. *)
Fixpoint quadratic_loop (audit same_namespace : bool) (r1 r2 : features_range) (n p i : nat)
  : nat * list event :=
  match n with
  | O => (0%nat, [])
  | S n =>
      let halfhash := u64 (FNV_PRIME * it_index (r_group r1) p) in
      let begin := if same_namespace then (r_begin r2 + i)%nat else r_begin r2 in
      let '(num_features, evs) := quadratic_loop audit same_namespace r1 r2 n (S p) (S i) in
      ((r_end r2 - begin + num_features)%nat,
       audit_or_empty audit (r_group r1) p ++
       [Kernel (r_group r2) begin (r_end r2) (it_value (r_group r1) p) halfhash] ++
       audit_pop audit ++ evs)
  end.

Definition process_quadratic_interaction (audit permutations : bool) (r1 r2 : features_range)
  : nat * list event :=
  let same_namespace := negb permutations && same_begin r1 r2 in
  quadratic_loop audit same_namespace r1 r2 (r_end r1 - r_begin r1) (r_begin r1) 0.

(** *** Triples *)

Fixpoint cubic_inner (audit same_namespace2 : bool) (r2 r3 : features_range) (halfhash1 : Z)
    (first_ft_value : F) (n p2 j : nat) : nat * list event :=
  match n with
  | O => (0%nat, [])
  | S n =>
      let halfhash := u64 (FNV_PRIME * Z.lxor halfhash1 (it_index (r_group r2) p2)) in
      let ft_value := interaction_value first_ft_value (it_value (r_group r2) p2) in
      let begin := if same_namespace2 then (r_begin r3 + j)%nat else r_begin r3 in
      let '(num_features, evs) := cubic_inner audit same_namespace2 r2 r3 halfhash1 first_ft_value n (S p2) (S j) in
      ((r_end r3 - begin + num_features)%nat,
       audit_or_empty audit (r_group r2) p2 ++
       [Kernel (r_group r3) begin (r_end r3) ft_value halfhash] ++ audit_pop audit ++ evs)
  end.

Fixpoint cubic_outer (audit same_namespace1 same_namespace2 : bool) (r1 r2 r3 : features_range)
    (n p i : nat) : nat * list event :=
  match n with
  | O => (0%nat, [])
  | S n =>
      let halfhash1 := u64 (FNV_PRIME * it_index (r_group r1) p) in
      let j := if same_namespace1 then i else 0%nat in
      let '(num1, evs1) := cubic_inner audit same_namespace2 r2 r3 halfhash1 (it_value (r_group r1) p)
                             (r_end r2 - (r_begin r2 + j)) (r_begin r2 + j) j in
      let '(num2, evs2) := cubic_outer audit same_namespace1 same_namespace2 r1 r2 r3 n (S p) (S i) in
      ((num1 + num2)%nat, audit_or_empty audit (r_group r1) p ++ evs1 ++ audit_pop audit ++ evs2)
  end.

Definition process_cubic_interaction (audit permutations : bool) (r1 r2 r3 : features_range)
  : nat * list event :=
  let same_namespace1 := negb permutations && same_begin r1 r2 in
  let same_namespace2 := negb permutations && same_begin r2 r3 in
  cubic_outer audit same_namespace1 same_namespace2 r1 r2 r3 (r_end r1 - r_begin r1) (r_begin r1) 0.

(** *** Any length: the state machine of [process_generic_interaction] *)

Record feature_gen_data := GenData {
  gd_hash : Z;
  gd_x : F;
  gd_self_interaction : bool;
  gd_group : Z;
  gd_begin_it : nat;
  gd_current_it : nat;
  gd_end_it : nat
}.

Definition gen_data_init (r : features_range) : feature_gen_data :=
  GenData 0 (n_of_Z 1) false (r_group r) (r_begin r) (r_begin r) (r_end r).

(** The pass from the last record to the second that marks self interactions. *)
Definition mark_self (prev fgd : feature_gen_data) : feature_gen_data :=
  GenData (gd_hash fgd) (gd_x fgd)
    ((gd_group fgd =? gd_group prev) && (gd_current_it fgd =? gd_current_it prev)%nat)
    (gd_group fgd) (gd_begin_it fgd) (gd_current_it fgd) (gd_end_it fgd).
Fixpoint mark_self_interactions (prev : feature_gen_data) (sd : list feature_gen_data) : list feature_gen_data :=
  match sd with
  | [] => []
  | d :: sd' => mark_self prev d :: mark_self_interactions d sd'
  end.

Definition prepare_state_data (permutations : bool) (range : list features_range) : list feature_gen_data :=
  let state_data := gen_data_init <$> range in
  if permutations then state_data
  else match state_data with
       | d :: sd' => d :: mark_self_interactions d sd'
       | [] => []
       end.

Definition set_current (p : nat) (d : feature_gen_data) : feature_gen_data :=
  GenData (gd_hash d) (gd_x d) (gd_self_interaction d) (gd_group d) (gd_begin_it d) p (gd_end_it d).

(** Going one namespace further: position, hash and value of [next_data]. *)
Definition enter_next (is_head : bool) (cur next : feature_gen_data) : feature_gen_data :=
  let current := if gd_self_interaction next
                 then (gd_begin_it next + (gd_current_it cur - gd_begin_it cur))%nat
                 else gd_begin_it next in
  let idx := it_index (gd_group cur) (gd_current_it cur) in
  let v := it_value (gd_group cur) (gd_current_it cur) in
  let hash := if is_head then u64 (FNV_PRIME * idx) else u64 (FNV_PRIME * Z.lxor (gd_hash cur) idx) in
  let x := if is_head then v else interaction_value v (gd_x cur) in
  GenData hash x (gd_self_interaction next) (gd_group next) (gd_begin_it next) current (gd_end_it next).

(** The [do .. while] that goes back, one [audit_func(nullptr)] per level; returns the
    new position and whether it is at its end. [None]: stepping before the first record. *)
Fixpoint go_back (audit : bool) (cur : nat) (sd : list feature_gen_data)
  : option (nat * bool * list feature_gen_data * list event) :=
  match cur with
  | O => None
  | S cur =>
      d ← sd !! cur;
      let d' := set_current (S (gd_current_it d)) d in
      let go_further := (gd_current_it d' =? gd_end_it d')%nat in
      let sd' := <[cur := d']> sd in
      if go_further && negb (cur =? 0)%nat
      then '(c, g, sd'', evs) ← go_back audit cur sd'; Some (c, g, sd'', audit_pop audit ++ evs)
      else Some (cur, go_further, sd', audit_pop audit)
  end.

(** The [while (do_it)] loop; [None] when the fuel runs out. *)
Fixpoint generic_loop (fuel : nat) (audit permutations : bool) (cur : nat) (sd : list feature_gen_data)
  : option (nat * list event) :=
  match fuel with
  | O => None
  | S fuel =>
      cur_data ← sd !! cur;
      if (cur <? length sd - 1)%nat then
        next_data ← sd !! S cur;
        '(num, evs) ← generic_loop fuel audit permutations (S cur)
                        (<[S cur := enter_next (cur =? 0)%nat cur_data next_data]> sd);
        Some (num, audit_raw audit (gd_group cur_data) (gd_current_it cur_data) ++ evs)
      else
        let start_i := if permutations then 0%nat else (gd_current_it cur_data - gd_begin_it cur_data)%nat in
        let begin := (gd_begin_it cur_data + start_i)%nat in
        let count := (gd_end_it cur_data - begin)%nat in
        let call := Kernel (gd_group cur_data) begin (gd_end_it cur_data) (gd_x cur_data) (gd_hash cur_data) in
        '(cur', go_further, sd', pops) ← go_back audit cur sd;
        if (cur' =? 0)%nat && go_further then Some (count, call :: pops)
        else '(num, evs) ← generic_loop fuel audit permutations cur' sd';
             Some ((count + num)%nat, call :: pops ++ evs)
  end.

(** A bound on the iterations: one to reach a record, and one descent per position. *)
Fixpoint generic_fuel (range : list features_range) : nat :=
  match range with
  | [] => 1
  | r :: rs => S (r_end r - r_begin r) * S (generic_fuel rs)
  end.

Definition process_generic_interaction (audit permutations : bool) (range : list features_range)
  : option (nat * list event) :=
  generic_loop (generic_fuel range) audit permutations 0 (prepare_state_data permutations range).

(** *** Reference: all combinations, by recursion on the terms *)

(** [expand r rest hx start]: the choices of the positions [start .. end) of [r], then of the
    ranges [rest]; [hx] is the hash and value of the features chosen so far. A range that starts
    where the previous one does is entered at the previous position (combinations with
    repetition), unless permutations are asked for. *)
Definition combine_hash (hx : option (Z * F)) (idx : Z) : Z :=
  match hx with None => u64 (FNV_PRIME * idx) | Some (h, _) => u64 (FNV_PRIME * Z.lxor h idx) end.
Definition combine_value (hx : option (Z * F)) (v : F) : F :=
  match hx with None => v | Some (_, x) => interaction_value v x end.

Definition next_start (permutations : bool) (r r' : features_range) (p : nat) : nat :=
  if negb permutations && same_begin r' r then (r_begin r' + (p - r_begin r))%nat else r_begin r'.

Fixpoint expand (audit permutations : bool) (rest : list features_range) (r : features_range)
    (hx : option (Z * F)) (start : nat) : list event :=
  match rest with
  | [] => match hx with Some (h, x) => [Kernel (r_group r) start (r_end r) x h] | None => [] end
  | r' :: rest' =>
      p ← seq start (r_end r - start);
      audit_raw audit (r_group r) p ++
      expand audit permutations rest' r'
        (Some (combine_hash hx (it_index (r_group r) p), combine_value hx (it_value (r_group r) p)))
        (next_start permutations r r' p) ++
      audit_pop audit
  end.

Definition event_count (e : event) : nat :=
  match e with Audit _ => 0 | Kernel _ b en _ _ => en - b end.
Definition count_features (evs : list event) : nat := sum_list (event_count <$> evs).
End Generation.

Arguments event : clear implicits.
Arguments call : clear implicits.
Arguments feature_gen_data : clear implicits.

(** ** The interactions of an example *)

Section GenerateInteractions.
Context {F : Type} `{Num F} (feature_space : Z -> features F).

Definition namespace_range (term : Z) : features_range :=
  Range term 0 (size (feature_space term)).

Definition term_is_empty (term : Z) : bool := (size (feature_space term) =? 0)%nat.

Definition has_empty_interaction (terms : list Z) : bool := existsb term_is_empty terms.

Definition has_empty_extent_interaction (terms : list extent_term) : bool :=
  existsb (fun t => negb (existsb (fun e => (t.2 =? ext_hash e) && (0 <? end_index e - begin_index e)%nat)
                            (namespace_extents (feature_space t.1)))) terms.

(** The dispatch on the length that both loops of [generate_interactions] make. *)
Definition process_interaction (audit permutations : bool) (range : list features_range)
  : option (nat * list (event F)) :=
  match range with
  | [r1; r2] => Some (process_quadratic_interaction feature_space audit permutations r1 r2)
  | [r1; r2; r3] => Some (process_cubic_interaction feature_space audit permutations r1 r2 r3)
  | _ => process_generic_interaction feature_space audit permutations range
  end.

(** *** Extent terms: choosing an extent for each term, with an explicit stack *)

Record stack_item := StackItem {
  si_current_term : nat; si_prev_term : nat; si_offset : nat; si_so_far : list features_range
}.

Definition term_extents (t : extent_term) : list features_range :=
  (fun be => Range t.1 be.1 be.2) <$> hash_extents t.2 (feature_space t.1).

(** [frame_pool.acquire_object]: the [so_far] vector of a reclaimed frame, or a fresh one. *)
Definition acquire (pool : list (list features_range)) : list features_range * list (list features_range) :=
  match pool with [] => ([], []) | v :: pool => (v, pool) end.

(** Pushing one frame per extent, the first extent pushed first. *)
Fixpoint push_frames (current_term prev_term : nat) (so_far : list features_range) (offset : nat)
    (exts : list features_range) (st : list stack_item * list (list features_range))
  : list stack_item * list (list features_range) :=
  match exts with
  | [] => st
  | e :: exts' =>
      let '(frames, pool) := st in
      let '(v, pool) := acquire pool in
      push_frames current_term prev_term so_far (S offset) exts'
        (StackItem current_term prev_term offset (v ++ so_far ++ [e]) :: frames, pool)
  end.

Fixpoint extent_loop (fuel : nat) (terms : list extent_term) (frames : list stack_item)
    (pool : list (list features_range)) : option (list (list features_range) * list (list features_range)) :=
  match frames with
  | [] => Some ([], pool)
  | top :: frames =>
      match fuel with
      | O => None
      | S fuel =>
          current_term ← terms !! si_current_term top;
          prev_term ← terms !! si_prev_term top;
          let offset := if decide (prev_term = current_term) then si_offset top else 0%nat in
          let exts := drop offset (term_extents current_term) in
          if (si_current_term top =? length terms - 1)%nat then
            '(combos, pool) ← extent_loop fuel terms frames ([] :: pool);
            Some (((fun e => si_so_far top ++ [e]) <$> exts) ++ combos, pool)
          else
            let '(frames, pool) := push_frames (S (si_current_term top)) (si_current_term top)
                                     (si_so_far top) offset exts (frames, pool) in
            extent_loop fuel terms frames ([] :: pool)
      end
  end.

(** One iteration per partial choice. *)
Fixpoint extent_fuel (terms : list extent_term) : nat :=
  match terms with [] => 1 | t :: ts => S (length (term_extents t)) * S (extent_fuel ts) end.

Definition generate_generic_extent_combination_iterative (terms : list extent_term)
    (pool : list (list features_range)) : option (list (list features_range) * list (list features_range)) :=
  t0 ← head terms;
  let '(frames, pool) := push_frames 1 0 [] 0 (term_extents t0) ([], pool) in
  extent_loop (extent_fuel terms) terms frames pool.

Definition run_interactions (audit permutations : bool) (ranges : list (list features_range))
  : option (nat * list (event F)) :=
  foldr (fun r acc =>
    '(n1, e1) ← process_interaction audit permutations r;
    '(n2, e2) ← acc;
    Some ((n1 + n2)%nat, e1 ++ e2)) (Some (0%nat, [])) ranges.

Fixpoint run_extent_interactions (audit permutations : bool) (terms : list (list extent_term))
    (pool : list (list features_range)) : option (nat * list (event F)) :=
  match terms with
  | [] => Some (0%nat, [])
  | ns :: terms =>
      if has_empty_extent_interaction ns || existsb (fun t => t.1 =? WILDCARD_NAMESPACE) ns
      then run_extent_interactions audit permutations terms pool
      else
        '(combos, pool) ← generate_generic_extent_combination_iterative ns pool;
        '(n1, e1) ← run_interactions audit permutations combos;
        '(n2, e2) ← run_extent_interactions audit permutations terms pool;
        Some ((n1 + n2)%nat, e1 ++ e2)
  end.

(** [generate_interactions]: the number of features and the calls made. [pool] is the
    frame pool of the object cache, which earlier calls may have filled. *)
Definition generate_interactions (audit permutations : bool) (interactions : list (list Z))
    (extent_interactions : list (list extent_term)) (pool : list (list features_range))
  : option (nat * list (event F)) :=
  '(n1, e1) ← run_interactions audit permutations
    (map (fun ns : list Z => namespace_range <$> ns)
       (filter (fun ns => has_empty_interaction ns = false) interactions));
  '(n2, e2) ← run_extent_interactions audit permutations extent_interactions pool;
  Some ((n1 + n2)%nat, e1 ++ e2).

(** ** The closed formula ([interactions.cc]) *)

Definition calc_sum_ft_squared_for_term (term : Z) : F := sum_feat_sq (feature_space term).
Definition calc_sum_ft_squared_for_extent_term (term : extent_term) : F :=
  fold_left (fun acc v => (acc + v * v)%num) (foreach_values_for_hash term.2 (feature_space term.1)) (n_of_Z 0).
Definition values_of_term (term : Z) : list F := values (feature_space term).
Definition values_of_extent_term (term : extent_term) : list F :=
  foreach_values_for_hash term.2 (feature_space term.1).

Section Formula.
Context {T : Type} `{EqDecision T} (calc : T -> F) (vals : T -> list F).

Definition calculate_count_and_sum_ft_sq_for_permutations (interactions : list (list T)) : F :=
  fold_left (fun acc inter => (acc + fold_left (fun s t => (s * calc t)%num) inter (n_of_Z 1))%num)
    interactions (n_of_Z 0).

(** One value [x] through [results]: [results[0] += x], then
    [results[j] += results[j-1] * x] with the updated [results[j-1]]. *)
Fixpoint update_results (x : F) (below : F) (results : list F) : list F :=
  match results with
  | [] => []
  | r :: rs => let r' := (r + below * x)%num in r' :: update_results x r' rs
  end.
Definition update_all_results (results : list F) (value : F) : list F :=
  let x := (value * value)%num in
  match results with
  | [] => []
  | r0 :: rs => let r0' := (r0 + x)%num in r0' :: update_results x r0' rs
  end.

(** [order_of_inter]: the length of the leading run of [t] in [t :: ts]. *)
Fixpoint run_length (t : T) (ts : list T) : nat :=
  match ts with
  | t' :: ts' => if decide (t = t') then S (run_length t ts') else 0
  | [] => 0
  end.

Fixpoint combination_loop (fuel : nat) (inter : list T) (sum : F) : F :=
  match fuel, inter with
  | S fuel, t :: ts =>
      let k := run_length t ts in
      let '(sum', rest) :=
        match k with
        | O => ((sum * calc t)%num, ts)
        | S _ => let results := fold_left update_all_results (vals t) (replicate (S k) (n_of_Z 0)) in
                 ((sum * nth k results (n_of_Z 0))%num, drop k ts)
        end in
      if (sum' =? n_of_Z 0)%num then sum' else combination_loop fuel rest sum'
  | _, _ => sum
  end.

Definition calculate_count_and_sum_ft_sq_for_combinations (interactions : list (list T)) : F :=
  fold_left (fun acc inter => (acc + combination_loop (length inter) inter (n_of_Z 1))%num)
    interactions (n_of_Z 0).
End Formula.

Definition eval_sum_ft_squared_of_generated_ft (permutations : bool) (interactions : list (list Z))
    (extent_interactions : list (list extent_term)) : F :=
  if permutations
  then (n_of_Z 0 +
        calculate_count_and_sum_ft_sq_for_permutations calc_sum_ft_squared_for_term interactions +
        calculate_count_and_sum_ft_sq_for_permutations calc_sum_ft_squared_for_extent_term extent_interactions)%num
  else (n_of_Z 0 +
        calculate_count_and_sum_ft_sq_for_combinations calc_sum_ft_squared_for_term values_of_term interactions +
        calculate_count_and_sum_ft_sq_for_combinations calc_sum_ft_squared_for_extent_term
          values_of_extent_term extent_interactions)%num.
End GenerateInteractions.

(** * Theorems *)

(** ** The state machine implements the recursive enumeration *)

Section GenericCorrect.
Context {F : Type} `{Num F} (feature_space : Z -> features F) (audit permutations : bool).
#[local] Abbreviation loop := (generic_loop feature_space).
#[local] Abbreviation expand := (expand feature_space audit permutations).

(** The fields of a record that the machine never changes. *)
Definition static (d : feature_gen_data F) (r : features_range) (self : bool) : Prop :=
  gd_group d = r_group r /\ gd_begin_it d = r_begin r /\ gd_end_it d = r_end r /\
  gd_self_interaction d = self.

Fixpoint statics (r : features_range) (post : list (feature_gen_data F)) (rest : list features_range) : Prop :=
  match post, rest with
  | [], [] => True
  | d :: post', r' :: rest' => static d r' (negb permutations && same_begin r' r) /\ statics r' post' rest'
  | _, _ => False
  end.

(** Ranges are nonempty; neighbours that begin together end together. *)
Fixpoint ranges_ok (r : features_range) (rest : list features_range) : Prop :=
  (r_begin r < r_end r)%nat /\
  match rest with
  | [] => True
  | r' :: rest' => (same_begin r' r = true -> r_end r' = r_end r) /\ ranges_ok r' rest'
  end.

Lemma count_features_app (E1 E2 : list (event F)) :
  count_features (E1 ++ E2) = (count_features E1 + count_features E2)%nat.
Proof. unfold count_features. rewrite fmap_app. apply sum_list_with_app || (induction E1; simpl; lia). Qed.

Lemma count_features_raw g p : count_features (audit_raw feature_space audit g p) = 0%nat.
Proof. by destruct audit. Qed.

Lemma count_features_pop : count_features (F:=F) (audit_pop audit) = 0%nat.
Proof. by destruct audit. Qed.

(** What happens when the machine goes back from record [cur]. *)
Definition resume (fuel cur : nat) (sd : list (feature_gen_data F)) : option (nat * list (event F)) :=
  '(cur', go_further, sd', pops) ← go_back audit cur sd;
  if (cur' =? 0)%nat && go_further then Some (0%nat, pops)
  else '(num, evs) ← loop fuel audit permutations cur' sd'; Some (num, pops ++ evs).

Lemma expand_step r rest hx start r' :
  (start < r_end r)%nat ->
  expand (r' :: rest) r hx start =
  audit_raw feature_space audit (r_group r) start ++
  expand rest r' (Some (combine_hash hx (it_index feature_space (r_group r) start),
                        combine_value hx (it_value feature_space (r_group r) start)))
    (next_start permutations r r' start) ++
  audit_pop audit ++ expand (r' :: rest) r hx (S start).
Proof.
  intros Hlt. cbn [InteractionPredict.expand].
  replace (r_end r - start)%nat with (S (r_end r - S start)) by lia.
  cbn [seq]. rewrite bind_cons, <- !app_assoc. done.
Qed.

Lemma expand_done r rest hx start r' : (r_end r <= start)%nat -> expand (r' :: rest) r hx start = [].
Proof. intros. cbn. by replace (r_end r - start)%nat with 0%nat by lia. Qed.

Lemma next_start_ok r r' rest p :
  ranges_ok r (r' :: rest) -> (r_begin r <= p < r_end r)%nat ->
  (r_begin r' <= next_start permutations r r' p < r_end r')%nat.
Proof.
  intros (Hr & Heq & Hr') Hp. unfold next_start. destruct permutations; simpl.
  - destruct rest; simpl in Hr'; lia.
  - destruct (same_begin r' r) eqn:E; [|destruct rest; simpl in Hr'; lia].
    specialize (Heq eq_refl). unfold same_begin in E. bprop. lia.
Qed.

Lemma enter_next_static is_head d d' r r' self :
  static d' r' (negb permutations && same_begin r' r) -> static d r self ->
  static (enter_next feature_space is_head d d') r' (negb permutations && same_begin r' r) /\
  gd_current_it (enter_next feature_space is_head d d') = next_start permutations r r' (gd_current_it d).
Proof.
  intros (Hg & Hb & He & Hs) (Hg' & Hb' & He' & _). split; [done|].
  cbn. unfold next_start. rewrite Hs, Hb, Hb'. done.
Qed.

(** The rest of the run once [d] has moved to its next position. *)
Definition after (fuel : nat) (pre : list (feature_gen_data F)) (d : feature_gen_data F)
    (post : list (feature_gen_data F)) : option (nat * list (event F)) :=
  let d' := set_current (S (gd_current_it d)) d in
  if (S (gd_current_it d) =? gd_end_it d)%nat
  then match pre with [] => Some (0%nat, []) | _ => resume fuel (length pre) (pre ++ d' :: post) end
  else loop fuel audit permutations (length pre) (pre ++ d' :: post).

Lemma resume_step fuel pre d post :
  resume fuel (S (length pre)) (pre ++ d :: post) =
  '(num, evs) ← after fuel pre d post; Some (num, audit_pop audit ++ evs).
Proof.
  unfold resume at 1, after. cbn [go_back].
  rewrite (list_lookup_middle pre post d (length pre)) by done. cbn [mbind option_bind].
  rewrite insert_app_r_alt, Nat.sub_diag by lia. cbn [list_insert insert].
  cbn [gd_current_it gd_end_it set_current]. destruct (S (gd_current_it d) =? gd_end_it d)%nat; cbn [andb].
  - destruct pre as [|d0 pre]; [cbn; by rewrite app_nil_r|]. cbn [length Nat.eqb negb].
    unfold resume. destruct (go_back _ _ _) as [[[[c g] sd'] evs]|]; [|done].
    cbn [mbind option_bind]. case_if; [done|]. destruct (loop _ _ _ _ _) as [[n e]|]; [|done].
    cbn. by rewrite app_assoc.
  - cbn [mbind option_bind]. rewrite andb_false_r. done.
Qed.

(** One step forward: the machine enters the record after [d]. *)
Lemma descend fuel pre d e post :
  loop (S fuel) audit permutations (length pre) (pre ++ d :: e :: post) =
  '(num, evs) ← loop fuel audit permutations (S (length pre))
                  ((pre ++ [d]) ++ enter_next feature_space (length pre =? 0)%nat d e :: post);
  Some (num, audit_raw feature_space audit (gd_group d) (gd_current_it d) ++ evs).
Proof.
  cbn [generic_loop]. rewrite (list_lookup_middle pre (e :: post) d (length pre)) by done. cbn [mbind option_bind].
  rewrite length_app. cbn [length]. rewrite (proj2 (Nat.ltb_lt _ _)) by lia.
  rewrite lookup_app_r by lia. replace (S (length pre) - length pre)%nat with 1%nat by lia.
  cbn [lookup list_lookup mbind option_bind].
  rewrite insert_app_r_alt by lia. replace (S (length pre) - length pre)%nat with 1%nat by lia.
  cbn [list_insert insert]. by rewrite <- app_assoc.
Qed.

(** The last record: one call, then back. *)
Lemma generic_last fuel pre d r self start :
  static d r self -> gd_current_it d = start -> (r_begin r <= start)%nat ->
  (permutations = true -> start = r_begin r) ->
  loop (S fuel) audit permutations (length pre) (pre ++ [d]) =
  let E := expand [] r (Some (gd_hash d, gd_x d)) start in
  '(num, evs) ← resume fuel (length pre) (pre ++ [d]);
  Some ((count_features E + num)%nat, E ++ evs).
Proof.
  intros (Hg & Hb & He & _) Hcur Hstart Hperm. cbn [generic_loop].
  rewrite (list_lookup_middle pre [] d (length pre)) by done. cbn [mbind option_bind].
  rewrite length_app. cbn [length]. rewrite (proj2 (Nat.ltb_ge _ _)) by lia.
  set (st := if permutations then _ else _).
  assert (gd_begin_it d + st = start)%nat as ->.
  { subst st. rewrite Hb, Hcur. destruct permutations; [rewrite Hperm by done|]; lia. }
  unfold resume. destruct (go_back _ _ _) as [[[[c g] sd'] evs]|]; [|done].
  cbn [mbind option_bind InteractionPredict.expand]. rewrite Hg, He.
  case_if; [|destruct (loop _ _ _ _ _) as [[num e]|]; [|done]];
    cbn; unfold count_features; cbn; repeat f_equal; lia.
Qed.

(** What running from the record of [r] at [start] amounts to. *)
Definition runs_as (pre : list (feature_gen_data F)) (d : feature_gen_data F) (post : list (feature_gen_data F))
    (r : features_range) (self : bool) (rest : list features_range) (start : nat) : Prop :=
  exists n d' post', (n <= (r_end r - start) * S (generic_fuel rest))%nat /\
    static d' r self /\ statics r post' rest /\
    forall fuel, loop (n + fuel) audit permutations (length pre) (pre ++ d :: post) =
      let E := expand rest r (Some (gd_hash d, gd_x d)) start in
      '(num, evs) ← resume fuel (length pre) (pre ++ d' :: post');
      Some ((count_features E + num)%nat, E ++ evs).

(** The hash and value the record [d] passes on: none at the head. *)
Definition carried (pre : list (feature_gen_data F)) (d : feature_gen_data F) : option (Z * F) :=
  match pre with [] => None | _ => Some (gd_hash d, gd_x d) end.

(** The events of one position of [r], then what follows. *)
Definition position_events (pre : list (feature_gen_data F)) (d : feature_gen_data F) r r' rest start :=
  audit_raw feature_space audit (r_group r) start ++
  expand rest r' (Some (combine_hash (carried pre d) (it_index feature_space (r_group r) start),
                        combine_value (carried pre d) (it_value feature_space (r_group r) start)))
    (next_start permutations r r' start) ++ audit_pop audit.

Lemma generic_position pre d e post r r' rest self start :
  static d r self -> static e r' (negb permutations && same_begin r' r) -> statics r' post rest ->
  gd_current_it d = start ->
  runs_as (pre ++ [d]) (enter_next feature_space (length pre =? 0)%nat d e) post r'
    (negb permutations && same_begin r' r) rest (next_start permutations r r' start) ->
  exists n e1 post1, (n <= generic_fuel (r' :: rest))%nat /\
    static e1 r' (negb permutations && same_begin r' r) /\ statics r' post1 rest /\
    forall fuel, loop (S n + fuel) audit permutations (length pre) (pre ++ d :: e :: post) =
      let E := position_events pre d r r' rest start in
      '(num, evs) ← after fuel pre d (e1 :: post1);
      Some ((count_features E + num)%nat, E ++ evs).
Proof.
  intros Hd He Hpost Hcur (n & e1 & post1 & Hn & He1 & Hpost1 & Hrun).
  exists n, e1, post1. split.
  { etransitivity; [exact Hn|]. cbn [generic_fuel]. apply Nat.mul_le_mono_r. unfold next_start. case_if; lia. }
  split; [done|]. split; [done|]. intros fuel. cbn [Nat.add]. rewrite descend. specialize (Hrun fuel).
  rewrite length_app, Nat.add_1_r in Hrun. rewrite Hrun, <- app_assoc. cbn zeta.
  change ([d] ++ e1 :: post1) with (d :: e1 :: post1). rewrite resume_step.
  destruct (after fuel pre d (e1 :: post1)) as [[num evs]|]; [|done]. cbn [mbind option_bind].
  unfold position_events. rewrite !count_features_app, count_features_raw, count_features_pop, <- !app_assoc.
  rewrite Hcur, (proj1 Hd). unfold carried, enter_next. rewrite (proj1 Hd), Hcur.
  destruct pre; cbn [length Nat.eqb combine_hash combine_value gd_hash gd_x]; do 2 f_equal; lia.
Qed.

Lemma expand_position pre d r r' rest start :
  (start < r_end r)%nat ->
  expand (r' :: rest) r (carried pre d) start =
  position_events pre d r r' rest start ++ expand (r' :: rest) r (carried pre d) (S start).
Proof. intros. unfold position_events. by rewrite expand_step, <- !app_assoc. Qed.

(** All positions of a record that is not the last, from [start] on. *)
Lemma generic_positions pre r r' rest self :
  ranges_ok r (r' :: rest) ->
  (forall d e post start, static d r self -> static e r' (negb permutations && same_begin r' r) ->
    statics r' post rest -> gd_current_it d = start -> (r_begin r <= start < r_end r)%nat ->
    runs_as (pre ++ [d]) (enter_next feature_space (length pre =? 0)%nat d e) post r'
      (negb permutations && same_begin r' r) rest (next_start permutations r r' start)) ->
  forall m d e post start, m = (r_end r - start)%nat -> static d r self ->
  static e r' (negb permutations && same_begin r' r) -> statics r' post rest ->
  gd_current_it d = start -> (r_begin r <= start < r_end r)%nat ->
  exists n d' post', (n <= m * S (generic_fuel (r' :: rest)))%nat /\
    static d' r self /\ statics r post' (r' :: rest) /\
    forall fuel, loop (n + fuel) audit permutations (length pre) (pre ++ d :: e :: post) =
      let E := expand (r' :: rest) r (carried pre d) start in
      '(num, evs) ← match pre with [] => Some (0%nat, []) | _ => resume fuel (length pre) (pre ++ d' :: post') end;
      Some ((count_features E + num)%nat, E ++ evs).
Proof.
  intros Hok Hinner. induction m as [|m IHm]; intros d e post start Hm Hd He Hpost Hcur Hstart; [lia|].
  destruct (generic_position pre d e post r r' rest self start Hd He Hpost Hcur)
    as (n1 & e1 & post1 & Hn1 & He1 & Hpost1 & Hrun1); [by apply Hinner|].
  pose proof Hd as (_ & _ & Hen & _). unfold after in Hrun1. rewrite Hcur, Hen in Hrun1.
  set (d1 := set_current (S start) d) in *. assert (Hd1 : static d1 r self) by exact Hd.
  destruct (Nat.eqb_spec (S start) (r_end r)) as [Hend|Hend].
  - exists (S n1), d1, (e1 :: post1). split; [nia|]. split; [done|]. split; [done|].
    intros fuel. rewrite Hrun1, expand_position, expand_done, app_nil_r by lia. done.
  - destruct (IHm d1 e1 post1 (S start)) as (n2 & d2 & post2 & Hn2 & Hd2 & Hpost2 & Hrun2); try (done || lia).
    exists (S n1 + n2)%nat, d2, post2. split; [nia|]. split; [done|]. split; [done|].
    intros fuel. rewrite <- Nat.add_assoc, Hrun1, Hrun2.
    rewrite (expand_position pre d r r' rest start) by lia. cbn zeta.
    change (carried pre d1) with (carried pre d).
    destruct (match pre with [] => _ | _ => _ end) as [[num evs]|]; [|done]. cbn [mbind option_bind].
    rewrite count_features_app, <- app_assoc. do 2 f_equal. lia.
Qed.

Lemma generic_run rest : forall pre d post r self start,
  pre <> [] -> static d r self -> statics r post rest -> ranges_ok r rest ->
  gd_current_it d = start -> (r_begin r <= start < r_end r)%nat ->
  (permutations = true -> rest = [] -> start = r_begin r) ->
  runs_as pre d post r self rest start.
Proof.
  induction rest as [|r' rest IH]; intros pre d post r self start Hpre Hd Hpost Hok Hcur Hstart Hperm.
  { destruct post; [|done]. exists 1%nat, d, []. split; [simpl; lia|]. split; [done|]. split; [done|].
    intros fuel. eapply generic_last; eauto. lia. }
  destruct post as [|e post]; [done|]. destruct Hpost as [He Hpost].
  destruct (generic_positions pre r r' rest self Hok) with (m := (r_end r - start)%nat) (d := d) (e := e)
    (post := post) (start := start) as (n & d' & post' & Hn & Hd' & Hpost' & Hrun); try done.
  - intros d0 e0 post0 start0 Hd0 He0 Hpost0 Hcur0 Hstart0.
    destruct (enter_next_static (length pre =? 0)%nat d0 e0 r r' self He0 Hd0) as [He0' Hcur0'].
    rewrite Hcur0 in Hcur0'. apply IH; try done.
    + intros [_ Hn]%app_eq_nil. discriminate Hn.
    + apply Hok.
    + by eapply next_start_ok.
    + intros Hp _. unfold next_start. by rewrite Hp.
  - exists n, d', post'. split; [done|]. split; [done|]. split; [done|]. intros fuel. rewrite Hrun.
    unfold carried. by destruct pre.
Qed.

Lemma prepare_statics r rest :
  exists post, prepare_state_data permutations (r :: rest) = gen_data_init r :: post /\ statics r post rest.
Proof.
  unfold prepare_state_data. rewrite fmap_cons. destruct permutations eqn:Hp.
  - exists (gen_data_init <$> rest). split; [done|]. revert r.
    induction rest as [|r' rest IH]; intros r; [done|]. rewrite fmap_cons. split; [|apply IH].
    unfold static. rewrite Hp. done.
  - eexists. split; [done|]. revert r. induction rest as [|r' rest IH]; intros r; [done|].
    rewrite fmap_cons. cbn [mark_self_interactions]. split; [unfold static; by rewrite Hp|].
    assert (forall d l, mark_self_interactions (mark_self d (gen_data_init r')) l =
      mark_self_interactions (gen_data_init r') l) as Hm by (by intros d []).
    apply IH.
Qed.

Lemma process_generic_expand r r' rest :
  ranges_ok r (r' :: rest) ->
  let E := expand (r' :: rest) r None (r_begin r) in
  process_generic_interaction feature_space audit permutations (r :: r' :: rest) =
  Some (count_features E, E).
Proof.
  intros Hok. unfold process_generic_interaction.
  destruct (prepare_statics r (r' :: rest)) as ([|e post] & -> & Hst); [done|]. destruct Hst as [He Hpost].
  destruct (generic_positions [] r r' rest false Hok) with (m := (r_end r - r_begin r)%nat)
    (d := gen_data_init (F:=F) r) (e := e) (post := post) (start := r_begin r) as (n & d' & post' & Hn & _ & _ & Hrun);
    try done.
  - intros d0 e0 post0 start0 Hd0 He0 Hpost0 Hcur0 Hstart0.
    destruct (enter_next_static true d0 e0 r r' false He0 Hd0) as [He0' Hcur0'].
    rewrite Hcur0 in Hcur0'. apply generic_run; try done.
    + apply Hok.
    + by eapply next_start_ok.
    + intros Hp _. unfold next_start. by rewrite Hp.
  - destruct Hok. lia.
  - replace (generic_fuel (r :: r' :: rest)) with (n + (generic_fuel (r :: r' :: rest) - n))%nat
      by (cbn [generic_fuel] in *; nia).
    specialize (Hrun (generic_fuel (r :: r' :: rest) - n)%nat). cbn [length app] in Hrun. rewrite Hrun.
    cbn. by rewrite Nat.add_0_r, app_nil_r.
Qed.
End GenericCorrect.

(** ** The nested loops implement it too *)

Lemma same_begin_sym r1 r2 : same_begin r1 r2 = same_begin r2 r1.
Proof. unfold same_begin. by rewrite Z.eqb_sym, Nat.eqb_sym. Qed.

Section LoopsCorrect.
Context {F : Type} `{NumComm F} (feature_space : Z -> features F) (audit permutations : bool).
#[local] Abbreviation expand := (expand feature_space audit permutations).

(** In audit mode every feature of the range has a name. *)
Definition audit_ok (r : features_range) : Prop :=
  audit = true -> forall p, (r_begin r <= p < r_end r)%nat -> it_audit feature_space (r_group r) p <> None.

Lemma audit_or_empty_raw r p :
  audit_ok r -> (r_begin r <= p < r_end r)%nat ->
  audit_or_empty feature_space audit (r_group r) p = audit_raw feature_space audit (r_group r) p.
Proof.
  unfold audit_ok, audit_or_empty, audit_raw. destruct audit; [|done]. intros Ha Hp.
  specialize (Ha eq_refl p Hp). by destruct (it_audit _ _ _).
Qed.

Lemma count_kernel g b en (x : F) h E :
  count_features (Kernel g b en x h :: E) = (en - b + count_features E)%nat.
Proof. done. Qed.

Lemma quadratic_loop_expand r r' : audit_ok r -> forall n p,
  (r_begin r <= p)%nat -> n = (r_end r - p)%nat ->
  let E := expand [r'] r None p in
  quadratic_loop feature_space audit (negb permutations && same_begin r r') r r' n p (p - r_begin r) =
  (count_features E, E).
Proof.
  intros Ha. induction n as [|n IH]; intros p Hp Hn; cbn zeta.
  - by rewrite expand_done by lia.
  - rewrite expand_step by lia. cbn [quadratic_loop]. replace (S (p - r_begin r)) with (S p - r_begin r)%nat by lia.
    rewrite IH by lia. rewrite audit_or_empty_raw by (done || lia).
    cbn [InteractionPredict.expand]. rewrite !count_features_app, count_features_raw, count_features_pop.
    unfold next_start. rewrite (same_begin_sym r' r), count_kernel. f_equal. cbn. lia.
Qed.

Lemma cubic_inner_expand r2 r3 h1 (v1 : F) : audit_ok r2 -> forall n p,
  (r_begin r2 <= p)%nat -> n = (r_end r2 - p)%nat ->
  let E := expand [r3] r2 (Some (h1, v1)) p in
  cubic_inner feature_space audit (negb permutations && same_begin r2 r3) r2 r3 h1 v1 n p (p - r_begin r2) =
  (count_features E, E).
Proof.
  intros Ha. induction n as [|n IH]; intros p Hp Hn; cbn zeta.
  - by rewrite expand_done by lia.
  - rewrite expand_step by lia. cbn [cubic_inner]. replace (S (p - r_begin r2)) with (S p - r_begin r2)%nat by lia.
    rewrite IH by lia. rewrite audit_or_empty_raw by (done || lia).
    cbn [InteractionPredict.expand combine_hash combine_value]. unfold interaction_value.
    rewrite !count_features_app, count_features_raw, count_features_pop, (nmul_comm v1).
    unfold next_start. rewrite (same_begin_sym r3 r2), count_kernel. f_equal. cbn. lia.
Qed.

Lemma cubic_outer_expand r1 r2 r3 :
  audit_ok r1 -> audit_ok r2 -> (same_begin r2 r1 = true -> r_end r2 = r_end r1) -> forall n p,
  (r_begin r1 <= p)%nat -> n = (r_end r1 - p)%nat ->
  let E := expand [r2; r3] r1 None p in
  cubic_outer feature_space audit (negb permutations && same_begin r1 r2) (negb permutations && same_begin r2 r3)
    r1 r2 r3 n p (p - r_begin r1) = (count_features E, E).
Proof.
  intros Ha1 Ha2 Hend. induction n as [|n IH]; intros p Hp Hn; cbn zeta.
  - by rewrite expand_done by lia.
  - rewrite expand_step by lia. cbn [cubic_outer]. replace (S (p - r_begin r1)) with (S p - r_begin r1)%nat by lia.
    rewrite IH by lia. rewrite audit_or_empty_raw by (done || lia).
    set (j := if negb permutations && same_begin r1 r2 then (p - r_begin r1)%nat else 0%nat).
    pose proof (cubic_inner_expand r2 r3 (u64 (FNV_PRIME * it_index feature_space (r_group r1) p))
      (it_value feature_space (r_group r1) p) Ha2 _ (r_begin r2 + j) ltac:(lia) eq_refl) as Hin.
    cbn zeta in Hin. replace (r_begin r2 + j - r_begin r2)%nat with j in Hin by lia. rewrite Hin.
    replace (next_start permutations r1 r2 p) with (r_begin r2 + j)%nat.
    + cbn [combine_hash combine_value].
      by rewrite !count_features_app, count_features_raw, count_features_pop.
    + subst j. unfold next_start. rewrite (same_begin_sym r2 r1). case_if; lia.
Qed.

Lemma process_interaction_expand r r' rest :
  ranges_ok r (r' :: rest) -> Forall audit_ok (r :: r' :: rest) ->
  let E := expand (r' :: rest) r None (r_begin r) in
  process_interaction feature_space audit permutations (r :: r' :: rest) = Some (count_features E, E).
Proof.
  intros Hok Ha. apply Forall_cons in Ha as [Ha1 [Ha2 _]%Forall_cons].
  destruct rest as [|r3 [|r4 rest]]; [| |by apply process_generic_expand].
  - cbn [process_interaction]. unfold process_quadratic_interaction. f_equal.
    rewrite <- (Nat.sub_diag (r_begin r)). by apply quadratic_loop_expand.
  - cbn [process_interaction]. unfold process_cubic_interaction. f_equal.
    rewrite <- (Nat.sub_diag (r_begin r)). apply cubic_outer_expand; try done. apply Hok.
Qed.
End LoopsCorrect.

(** ** Extent choices *)

Section ExtentChoices.
Context {F : Type} `{Num F} (feature_space : Z -> features F).
#[local] Abbreviation term_extents := (term_extents feature_space).

(** The choices the stack makes, by recursion: the last pushed frame comes first, and
    equal neighbouring terms choose extents in order, repetition allowed. *)
Fixpoint choices (t : extent_term) (rest : list extent_term) (offset : nat) (so_far : list features_range)
  : list (list features_range) :=
  match rest with
  | [] => (fun e => so_far ++ [e]) <$> drop offset (term_extents t)
  | t' :: rest' =>
      mjoin (reverse (imap (fun i e =>
        choices t' rest' (if decide (t = t') then offset + i else 0)%nat (so_far ++ [e]))
        (drop offset (term_extents t))))
  end.
End ExtentChoices.

Section ExtentChoicesCorrect.
Context {F : Type} `{Num F} (feature_space : Z -> features F) (terms : list extent_term).
#[local] Abbreviation term_extents := (term_extents feature_space).
#[local] Abbreviation choices := (choices feature_space).
#[local] Abbreviation eloop := (extent_loop feature_space).

(** Reclaimed frames carry an empty [so_far]. *)
(** Every vector in the frame pool is empty. *)
Definition clean (pool : list (list features_range)) : Prop := Forall (eq []) pool.

Lemma clean_cons pool : clean pool -> clean ([] :: pool).
Proof. by constructor. Qed.

Definition frames_of (c p : nat) (sf : list features_range) (off : nat) (exts : list features_range)
  : list stack_item :=
  imap (fun i e => StackItem c p (off + i) (sf ++ [e])) exts.

Lemma push_frames_spec c p sf exts : forall off frames pool, clean pool ->
  exists pool', clean pool' /\
    push_frames c p sf off exts (frames, pool) = (reverse (frames_of c p sf off exts) ++ frames, pool').
Proof.
  induction exts as [|e exts IH]; intros off frames pool Hpool; [by exists pool|].
  cbn [push_frames]. assert (exists pool1, clean pool1 /\ acquire pool = ([], pool1)) as (pool1 & Hp1 & ->).
  { destruct Hpool as [|v pool <- Hpool]; [exists []; split; [constructor|done]|by exists pool]. }
  destruct (IH (S off) (StackItem c p off ([] ++ sf ++ [e]) :: frames) pool1 Hp1) as (pool' & Hp' & ->).
  exists pool'. split; [done|]. f_equal. unfold frames_of. cbn [imap]. rewrite reverse_cons, <- app_assoc.
  rewrite Nat.add_0_r. cbn [app]. f_equal. f_equal. apply imap_ext. intros i x _. cbn. f_equal. lia.
Qed.

(** Iterations spent below a frame whose current term heads the list. *)
Fixpoint frame_cost (ts : list extent_term) : nat :=
  match ts with
  | [] | [_] => 1
  | t :: ts => S (length (term_extents t) * frame_cost ts)
  end.

(** A frame amounts to its choices. *)
Definition frame_runs (f : stack_item) (cost : nat) (result : list (list features_range)) : Prop :=
  forall frames pool, clean pool -> exists n pool', (n <= cost)%nat /\ clean pool' /\
    forall fuel, eloop (n + fuel) terms (f :: frames) pool =
      '(combos, p) ← eloop fuel terms frames pool'; Some (result ++ combos, p).

Lemma frames_run fs cost result : (forall f, f ∈ fs -> frame_runs f cost (result f)) ->
  forall frames pool, clean pool -> exists n pool', (n <= length fs * cost)%nat /\ clean pool' /\
    forall fuel, eloop (n + fuel) terms (fs ++ frames) pool =
      '(combos, p) ← eloop fuel terms frames pool'; Some (mjoin (result <$> fs) ++ combos, p).
Proof.
  intros Hfs. induction fs as [|f fs IH]; intros frames pool Hpool.
  - exists 0%nat, pool. split; [lia|]. split; [done|]. intros fuel. cbn.
    by destruct (eloop _ _ _ _) as [[? ?]|].
  - destruct (Hfs f ltac:(by left) (fs ++ frames) pool Hpool) as (n1 & p1 & Hn1 & Hp1 & H1).
    destruct (IH ltac:(intros; apply Hfs; by right) frames p1 Hp1) as (n2 & p2 & Hn2 & Hp2 & H2).
    exists (n1 + n2)%nat, p2. split; [simpl; lia|]. split; [done|]. intros fuel.
    cbn [app]. rewrite <- Nat.add_assoc, H1, H2, fmap_cons.
    destruct (eloop fuel terms frames p2) as [[combos p]|]; [|done]. cbn. by rewrite <- app_assoc.
Qed.

Lemma frame_runs_choices rest : forall k tp t off sf,
  drop k terms = tp :: t :: rest ->
  frame_runs (StackItem (S k) k off sf) (frame_cost (t :: rest))
    (choices t rest (if decide (tp = t) then off else 0%nat) sf).
Proof.
  induction rest as [|t' rest IH]; intros k tp t off sf Hdrop frames pool Hpool.
  all: assert (Hk : terms !! k = Some tp) by (rewrite <- (Nat.add_0_r k), <- lookup_drop, Hdrop; done).
  all: assert (Hk1 : terms !! S k = Some t) by (rewrite <- (Nat.add_1_r k), <- lookup_drop, Hdrop; done).
  all: assert (Hlen : (length terms - k)%nat = length (tp :: t :: _)) by (rewrite <- length_drop; f_equal; exact Hdrop).
  all: cbn [length] in Hlen.
  - exists 1%nat, ([] :: pool). split; [simpl; lia|]. split; [by apply clean_cons|]. intros fuel.
    cbn [Nat.add extent_loop si_current_term si_prev_term si_offset si_so_far].
    rewrite Hk, Hk1. cbn [mbind option_bind]. by rewrite (proj2 (Nat.eqb_eq _ _)) by lia.
  - set (off' := if decide (tp = t) then off else 0%nat).
    set (exts := drop off' (term_extents t)).
    destruct (push_frames_spec (S (S k)) (S k) sf exts off' frames pool Hpool) as (pool1 & Hp1 & Hpush).
    set (res := fun f => choices t' rest (if decide (t = t') then si_offset f else 0%nat) (si_so_far f)).
    destruct (frames_run (reverse (frames_of (S (S k)) (S k) sf off' exts)) (frame_cost (t' :: rest)) res)
      with (frames := frames) (pool := [] :: pool1) as (n & pool' & Hn & Hp' & Hrun).
    + intros f Hf. rewrite elem_of_reverse in Hf. unfold frames_of in Hf.
      apply elem_of_lookup_imap in Hf as (i & e & -> & _). apply (IH (S k) t t').
      change (S k) with (1 + k)%nat. rewrite Nat.add_comm, <- drop_drop, Hdrop. done.
    + by apply clean_cons.
    + exists (S n), pool'. split.
      { rewrite length_reverse in Hn. unfold frames_of in Hn. rewrite length_imap in Hn.
        cbn [frame_cost]. subst exts. rewrite length_drop in Hn. cbn [frame_cost] in Hn. nia. }
      split; [done|]. intros fuel.
      cbn [Nat.add extent_loop si_current_term si_prev_term si_offset si_so_far].
      rewrite Hk, Hk1. cbn [mbind option_bind]. fold off'. fold exts.
      rewrite (proj2 (Nat.eqb_neq _ _)) by lia. rewrite Hpush, Hrun.
      destruct (eloop fuel terms frames pool') as [[combos p]|]; [|done]. cbn [mbind option_bind].
      do 2 f_equal. f_equal. cbn [InteractionPredict.choices]. fold exts.
      rewrite fmap_reverse. unfold frames_of. by rewrite fmap_imap.
Qed.
End ExtentChoicesCorrect.

Section ExtentCombinations.
Context {F : Type} `{Num F} (feature_space : Z -> features F).

Lemma frame_cost_fuel ts : (frame_cost feature_space ts <= extent_fuel feature_space ts)%nat.
Proof.
  induction ts as [|t [|t' ts] IH]; [simpl; lia..|]. cbn [frame_cost].
  change (extent_fuel feature_space (t :: t' :: ts)) with
    (S (length (term_extents feature_space t)) * S (extent_fuel feature_space (t' :: ts)))%nat.
  cbn [frame_cost] in *. nia.
Qed.

Lemma extent_combinations_choices t0 t1 ts pool :
  clean pool -> exists pool', clean pool' /\
  generate_generic_extent_combination_iterative feature_space (t0 :: t1 :: ts) pool =
  Some (choices feature_space t0 (t1 :: ts) 0 [], pool').
Proof.
  intros Hpool. unfold generate_generic_extent_combination_iterative. cbn [head mbind option_bind].
  destruct (push_frames_spec 1 0 [] (term_extents feature_space t0) 0 [] pool Hpool) as (p1 & Hp1 & ->).
  set (terms := t0 :: t1 :: ts).
  set (res := fun f => choices feature_space t1 ts (if decide (t0 = t1) then si_offset f else 0%nat) (si_so_far f)).
  destruct (frames_run feature_space terms (reverse (frames_of 1 0 [] 0 (term_extents feature_space t0)))
    (frame_cost feature_space (t1 :: ts)) res) with (frames := @nil stack_item) (pool := p1)
    as (n & pool' & Hn & Hp' & Hrun); [|done|].
  - intros f Hf. rewrite elem_of_reverse in Hf. unfold frames_of in Hf.
    apply elem_of_lookup_imap in Hf as (i & e & -> & _). by apply (frame_runs_choices feature_space terms ts 0 t0 t1).
  - exists pool'. split; [done|].
    rewrite length_reverse in Hn. unfold frames_of in Hn. rewrite length_imap in Hn.
    pose proof (frame_cost_fuel (t1 :: ts)).
    replace (extent_fuel feature_space terms) with (n + (extent_fuel feature_space terms - n))%nat.
    + rewrite Hrun. destruct (extent_fuel feature_space terms - n)%nat; cbn [extent_loop mbind option_bind].
      all: rewrite app_nil_r; do 3 f_equal; cbn [choices]; rewrite drop_0, fmap_reverse;
        unfold frames_of; by rewrite fmap_imap.
    + subst terms. cbn [extent_fuel] in *. nia.
Qed.
End ExtentCombinations.

(** ** All interactions of an example *)

Definition expand_all {F} `{Num F} (fsp : Z -> features F) (audit permutations : bool)
    (ranges : list features_range) : list (event F) :=
  match ranges with r :: rest => expand fsp audit permutations rest r None (r_begin r) | [] => [] end.

(** Every group is consistent; in audit mode every feature is named. *)
Definition space_ok {F} (audit : bool) (fsp : Z -> features F) : Prop :=
  forall g, length (indices (fsp g)) = size (fsp g) /\ extents_ok 0 (size (fsp g)) (namespace_extents (fsp g)) /\
    (audit = true -> length (space_names (fsp g)) = size (fsp g)).

Section AllInteractions.
Context {F : Type} `{NumComm F} (feature_space : Z -> features F) (audit permutations : bool).
Hypothesis Hspace : space_ok audit feature_space.

Definition in_space (r : features_range) : Prop :=
  (r_begin r < r_end r <= size (feature_space (r_group r)))%nat.

Lemma in_space_audit_ok r : in_space r -> audit_ok feature_space audit r.
Proof.
  intros Hr Ha p Hp. destruct (Hspace (r_group r)) as (_ & _ & Hn). specialize (Hn Ha).
  unfold it_audit, in_space in *. destruct (space_names (feature_space (r_group r))) as [|a ns] eqn:E.
  { simpl in Hn. lia. }
  rewrite <- E in *. intros Hnone%lookup_ge_None. lia.
Qed.

(** Ranges of a well-formed space that begin together end together. *)
Definition coherent (rs : list features_range) : Prop :=
  forall r r', r ∈ rs -> r' ∈ rs -> same_begin r' r = true -> r_end r' = r_end r.

Lemma coherent_ranges_ok r rest : coherent (r :: rest) -> Forall in_space (r :: rest) -> ranges_ok r rest.
Proof.
  revert r; induction rest as [|r' rest IH]; intros r Hc Hs; apply Forall_cons in Hs as [Hr Hs].
  - split; [apply Hr|done].
  - split; [apply Hr|]. split; [apply Hc; [by left|by right; left]|].
    apply IH; [|done]. intros a b Ha Hb. apply Hc; by right.
Qed.

Lemma process_ranges rs :
  (2 <= length rs)%nat -> coherent rs -> Forall in_space rs ->
  process_interaction feature_space audit permutations rs =
  Some (count_features (expand_all feature_space audit permutations rs),
        expand_all feature_space audit permutations rs).
Proof.
  intros Hlen Hc Hs. destruct rs as [|r [|r' rest]]; simpl in Hlen; try lia.
  apply process_interaction_expand; [by apply coherent_ranges_ok|].
  eapply Forall_impl; [exact Hs|]. apply in_space_audit_ok.
Qed.

Lemma run_interactions_spec rss :
  Forall (fun rs => 2 <= length rs /\ coherent rs /\ Forall in_space rs)%nat rss ->
  let E := rss ≫= expand_all feature_space audit permutations in
  run_interactions feature_space audit permutations rss = Some (count_features E, E).
Proof.
  induction 1 as [|rs rss (Hlen & Hc & Hs) _ IH]; [done|]. cbn [run_interactions foldr].
  rewrite process_ranges by done. cbn [mbind option_bind]. unfold run_interactions in IH. rewrite IH.
  cbn [mbind option_bind]. rewrite bind_cons, count_features_app. done.
Qed.

Lemma namespace_ranges_ok ns :
  has_empty_interaction feature_space ns = false ->
  coherent (namespace_range feature_space <$> ns) /\ Forall in_space (namespace_range feature_space <$> ns).
Proof.
  intros Hne. split.
  - intros r r' Hr Hr' Hb. apply list_elem_of_fmap in Hr as (t & -> & _), Hr' as (t' & -> & _).
    unfold same_begin in Hb. cbn in *. bprop. by subst.
  - apply Forall_fmap, Forall_forall. intros t Ht. unfold in_space. cbn.
    pose proof (proj1 (existsb_none _ _) Hne t Ht) as Hterm. unfold term_is_empty in Hterm. bprop. lia.
Qed.

Lemma term_extents_in_space t r :
  r ∈ term_extents feature_space t -> in_space r /\ r_group r = t.1 /\
    exists e, e ∈ namespace_extents (feature_space t.1) /\ begin_index e = r_begin r /\ end_index e = r_end r.
Proof.
  intros Hr. apply list_elem_of_fmap in Hr as (be & -> & Hbe).
  apply list_elem_of_fmap in Hbe as (e & -> & He). apply list_elem_of_filter in He as [_ He].
  destruct (Hspace t.1) as (_ & Hok & _). split; [|split; [done|by exists e]].
  unfold in_space. cbn. clear -Hok He. revert Hok. generalize 0%nat as lo.
  induction (namespace_extents (feature_space t.1)) as [|a l IH]; intros lo Hok; [by apply elem_of_nil in He|].
  destruct Hok as (Ha & _ & Hok). apply elem_of_cons in He as [->|He].
  - pose proof (extents_ok_le _ _ _ Hok). lia.
  - by eapply IH.
Qed.

(** Extents of one group that begin together are one extent. *)
Lemma extents_ok_inj lo n es e e' :
  extents_ok lo n es -> e ∈ es -> e' ∈ es -> begin_index e = begin_index e' -> end_index e = end_index e'.
Proof.
  assert (forall es lo e, extents_ok lo n es -> e ∈ es -> (lo <= begin_index e)%nat) as Hlo.
  { clear. induction es as [|a es IH]; intros lo e Hok He; [by apply elem_of_nil in He|].
    destruct Hok as (? & _ & Hok). apply elem_of_cons in He as [->|He]; [lia|].
    specialize (IH _ _ Hok He). lia. }
  revert lo. induction es as [|a es IH]; intros lo Hok He He' Hb; [by apply elem_of_nil in He|].
  destruct Hok as (Ha & _ & Hok).
  apply elem_of_cons in He as [->|He], He' as [->|He']; try done.
  - specialize (Hlo _ _ _ Hok He'). lia.
  - specialize (Hlo _ _ _ Hok He). lia.
  - by eapply IH.
Qed.

Lemma term_extents_coherent rs :
  Forall (fun r => exists t, r ∈ term_extents feature_space t) rs -> coherent rs /\ Forall in_space rs.
Proof.
  intros Hrs. split.
  - intros r r' Hr Hr' Hb. rewrite Forall_forall in Hrs.
    destruct (Hrs _ Hr) as (t & Ht), (Hrs _ Hr') as (t' & Ht').
    apply term_extents_in_space in Ht as (_ & Hg & e & He & Hbe & Hee), Ht' as (_ & Hg' & e' & He' & Hbe' & Hee').
    unfold same_begin in Hb. bprop. assert (t'.1 = t.1) as Htt by congruence. rewrite Htt in *.
    destruct (Hspace t.1) as (_ & Hok & _).
    rewrite <- Hee, <- Hee'. eapply extents_ok_inj; try done. congruence.
  - eapply Forall_impl; [exact Hrs|]. intros r (t & Ht). exact (proj1 (term_extents_in_space _ _ Ht)).
Qed.

Lemma elem_of_drop_elem {A} n (l : list A) x : x ∈ drop n l -> x ∈ l.
Proof. intros Hx. rewrite <- (take_drop n l). apply elem_of_app. by right. Qed.

Lemma choices_extents rest : forall t off sf rs,
  rs ∈ choices feature_space t rest off sf ->
  Forall (fun r => exists t, r ∈ term_extents feature_space t) sf ->
  length rs = (length sf + S (length rest))%nat /\
  Forall (fun r => exists t, r ∈ term_extents feature_space t) rs.
Proof.
  induction rest as [|t' rest IH]; intros t off sf rs Hrs Hsf; cbn [choices] in Hrs.
  - apply list_elem_of_fmap in Hrs as (e & -> & He). apply elem_of_drop_elem in He.
    rewrite length_app. split; [done|]. apply Forall_app. split; [done|]. constructor; [|done].
    by exists t.
  - apply list_elem_of_join in Hrs as (l & Hl & Hin). rewrite elem_of_reverse in Hin.
    apply elem_of_lookup_imap in Hin as (i & e & -> & He). apply IH in Hl.
    + destruct Hl as [-> ?]. rewrite length_app. split; [simpl; lia|done].
    + apply Forall_app. split; [done|]. constructor; [|done]. exists t.
      apply list_elem_of_lookup_2 in He. by apply elem_of_drop_elem in He.
Qed.

(** The combinations of extents an extent interaction stands for; none when a term has
    no feature or is an unexpanded wildcard. *)
Definition extent_ranges (ns : list extent_term) : list (list features_range) :=
  if has_empty_extent_interaction feature_space ns || existsb (fun t => t.1 =? WILDCARD_NAMESPACE) ns then []
  else match ns with t :: rest => choices feature_space t rest 0 [] | [] => [] end.

Lemma run_extent_interactions_spec exts : forall pool, clean pool ->
  Forall (fun ns => 2 <= length ns)%nat exts ->
  let E := (exts ≫= extent_ranges) ≫= expand_all feature_space audit permutations in
  run_extent_interactions feature_space audit permutations exts pool = Some (count_features E, E).
Proof.
  induction exts as [|ns exts IH]; intros pool Hpool Hlen; [done|].
  apply Forall_cons in Hlen as [Hns Hlen]. cbn zeta in *. cbn [run_extent_interactions].
  rewrite bind_cons. unfold extent_ranges at 1 3. case_if; [by apply IH|].
  destruct ns as [|t0 [|t1 ts]]; simpl in Hns; try lia.
  destruct (extent_combinations_choices feature_space t0 t1 ts pool Hpool) as (pool' & Hpool' & ->).
  cbn [mbind option_bind]. rewrite run_interactions_spec.
  - cbn [mbind option_bind]. rewrite (IH pool' Hpool' Hlen). cbn [mbind option_bind].
    rewrite bind_app, count_features_app. done.
  - apply Forall_forall. intros rs Hrs.
    destruct (choices_extents _ _ _ _ _ Hrs) as [-> Hall]; [constructor|].
    destruct (term_extents_coherent rs Hall). split; [simpl; lia|done].
Qed.

(** What [generate_interactions] should make: the nonempty namespace interactions, then
    the extent choices, each expanded by recursion. *)
Definition interaction_ranges (interactions : list (list Z)) (exts : list (list extent_term)) : list (list features_range) :=
  map (fun ns : list Z => namespace_range feature_space <$> ns)
    (filter (fun ns => has_empty_interaction feature_space ns = false) interactions) ++
  (exts ≫= extent_ranges).

Lemma generate_interactions_expand interactions exts pool :
  clean pool -> Forall (fun ns => 2 <= length ns)%nat interactions -> Forall (fun ns => 2 <= length ns)%nat exts ->
  let E := interaction_ranges interactions exts ≫= expand_all feature_space audit permutations in
  generate_interactions feature_space audit permutations interactions exts pool = Some (count_features E, E).
Proof.
  intros Hpool Hi He. cbn zeta. unfold generate_interactions, interaction_ranges.
  rewrite run_interactions_spec.
  - cbn [mbind option_bind]. rewrite run_extent_interactions_spec by done. cbn [mbind option_bind].
    rewrite bind_app, count_features_app. done.
  - apply Forall_forall. intros rs Hrs. apply list_elem_of_In, in_map_iff in Hrs as (ns & <- & Hns).
    apply list_elem_of_In, list_elem_of_filter in Hns as [Hne Hns]. rewrite Forall_forall in Hi.
    split; [rewrite length_fmap; by apply Hi|]. by apply namespace_ranges_ok.
Qed.
End AllInteractions.

Lemma count_generated {F} `{Num F} (fsp : Z -> features F) offset (E : list (event F)) :
  count_features E = length (E ≫= generated_by fsp offset).
Proof.
  induction E as [|e E IH]; [done|]. rewrite bind_cons, length_app, <- IH.
  destruct e as [s|g b en x h]; [done|]. cbn [generated_by]. rewrite length_fmap, length_seq. done.
Qed.

Lemma generated_calls {F} `{Num F} (fsp : Z -> features F) audit offset (E : list (event F)) :
  generated (E ≫= calls fsp audit offset) = E ≫= generated_by fsp offset.
Proof.
  assert (Happ : forall cs cs' : list (call F), generated (cs ++ cs') = generated cs ++ generated cs').
  { intros cs cs'. apply omap_app. }
  induction E as [|e E IH]; [done|]. rewrite !bind_cons, Happ, IH. f_equal.
  destruct e as [s|g b en x h]; [done|]. cbn [calls generated_by]. unfold inner_kernel.
  induction (seq b (en - b)) as [|p l IHl]; [done|]. rewrite bind_cons, Happ, IHl. by destruct audit.
Qed.

(** ** The closed formula counts what is generated

    In exact arithmetic, the weight of the generated features is a sum of squared products; the
    formula computes it as a product of one factor per run of equal terms, and the factor of a
    run of length [k] is the complete homogeneous symmetric polynomial of degree [k]. *)

Fixpoint hom_sum (k : nat) (l : list Q) : Q :=
  match k with
  | O => 1
  | S k' => (fix go l := match l with [] => 0 | x :: l' => x * hom_sum k' (x :: l') + go l' end)%Q l
  end.

Lemma hom_sum_nil k : hom_sum (S k) [] = 0%Q.
Proof. done. Qed.

Lemma hom_sum_cons k x l : hom_sum (S k) (x :: l) = (x * hom_sum k (x :: l) + hom_sum (S k) l)%Q.
Proof. done. Qed.

Lemma hom_sum_snoc k l x : (hom_sum (S k) (l ++ [x]) == hom_sum (S k) l + x * hom_sum k (l ++ [x]))%Q.
Proof.
  revert l. induction k as [|k IH]; intros l; induction l as [|y l IHl].
  - cbn. lra.
  - rewrite <- app_comm_cons, !hom_sum_cons, IHl. cbn [hom_sum]. lra.
  - cbn [app]. rewrite hom_sum_nil, (hom_sum_cons (S k)), !hom_sum_nil. lra.
  - rewrite <- app_comm_cons, !(hom_sum_cons (S k)), IHl.
    pose proof (IH (y :: l)) as H1. rewrite <- app_comm_cons in H1.
    pose proof (hom_sum_cons k y (l ++ [x])) as H2.
    setoid_replace (y * hom_sum (S k) (y :: l ++ [x]))%Q
      with (y * (hom_sum (S k) (y :: l) + x * hom_sum k (y :: l ++ [x])))%Q using relation Qeq by (by rewrite H1).
    rewrite H2. ring.
Qed.

Lemma hom_sum_one l : (hom_sum 1 l == qsum l)%Q.
Proof. induction l as [|x l IH]; [done|]. rewrite hom_sum_cons, IH. cbn. lra. Qed.

(** The dynamic programming array holds the homogeneous sums of the values seen so far. *)
Definition hom_array (n : nat) (l : list Q) (results : list Q) : Prop :=
  length results = n /\ forall j, (j < n)%nat -> (nth j results 0 == hom_sum (S j) l)%Q.

Section Weight.
#[local] Abbreviation square := (fun v : Q => v * v)%Q.

Lemma update_results_spec x l rs : forall below j,
  (below == hom_sum (S j) (l ++ [x]))%Q ->
  (forall i, (i < length rs)%nat -> nth i rs 0 == hom_sum (S (S (j + i))) l)%Q ->
  length (update_results x below rs) = length rs /\
  forall i, (i < length rs)%nat -> (nth i (update_results x below rs) 0 == hom_sum (S (S (j + i))) (l ++ [x]))%Q.
Proof.
  induction rs as [|r rs IH]; intros below j Hb Hrs; [split; [done|simpl; lia]|].
  cbn [update_results length]. qnum.
  assert (r + below * x == hom_sum (S (S j)) (l ++ [x]))%Q as Hr.
  { rewrite hom_sum_snoc, <- Hb. specialize (Hrs 0%nat). rewrite Nat.add_0_r in Hrs. cbn [nth length] in Hrs.
    rewrite Hrs by lia. ring. }
  destruct (IH (r + below * x)%Q (S j) Hr) as [Hlen Hnth].
  - intros i Hi. specialize (Hrs (S i)). cbn [nth length] in Hrs. rewrite Hrs by lia.
    by rewrite Nat.add_succ_r.
  - split; [by rewrite Hlen|]. intros [|i] Hi; [by rewrite Nat.add_0_r|].
    cbn [nth]. rewrite Hnth by lia. by rewrite Nat.add_succ_r.
Qed.

Lemma update_all_results_spec v l n rs :
  hom_array n l rs -> hom_array n (l ++ [square v]) (update_all_results rs v).
Proof.
  intros [Hlen Hrs]. destruct rs as [|r0 rs]; [split; [done|]; simpl in Hlen; intros; lia|].
  cbn [update_all_results]. qnum. subst n. cbn [length] in *.
  assert (r0 + v * v == hom_sum 1 (l ++ [square v]))%Q as Hr0.
  { rewrite hom_sum_snoc. specialize (Hrs 0%nat). cbn [nth] in Hrs. rewrite Hrs by lia. cbn [hom_sum]. ring. }
  destruct (update_results_spec (v * v)%Q l rs _ 0 Hr0) as [Hl Hn].
  - intros i Hi. apply (Hrs (S i)). lia.
  - split; [by cbn [length]; rewrite Hl|]. intros [|j] Hj; [done|]. cbn [nth]. apply Hn. lia.
Qed.

Lemma update_all_spec vs l n rs :
  hom_array n l rs -> hom_array n (l ++ (square <$> vs)) (fold_left update_all_results vs rs).
Proof.
  revert l rs; induction vs as [|v vs IH]; intros l rs Hrs; csimpl; [by rewrite app_nil_r|].
  rewrite cons_middle, app_assoc. by apply IH, update_all_results_spec.
Qed.

Lemma results_spec vs k :
  (nth k (fold_left update_all_results vs (replicate (S k) 0%Q)) 0 == hom_sum (S k) (square <$> vs))%Q.
Proof.
  destruct (update_all_spec vs [] (S k) (replicate (S k) 0%Q)) as [_ H]; [|apply H; lia].
  split; [by rewrite length_replicate|]. intros j Hj. rewrite nth_lookup.
  rewrite lookup_replicate_2 by done. done.
Qed.

(** [f] summed over the nonempty suffixes, weighted by their heads. *)
Fixpoint suffix_sum (f : list Q -> Q) (l : list Q) : Q :=
  match l with [] => 0%Q | x :: l' => (x * f l + suffix_sum f l')%Q end.

Lemma suffix_sum_ext f g l : (forall l, f l == g l)%Q -> (suffix_sum f l == suffix_sum g l)%Q.
Proof. intros Hfg. induction l as [|x l IH]; [done|]. cbn. by rewrite IH, Hfg. Qed.

Lemma suffix_sum_const c l : (suffix_sum (fun _ => c) l == qsum l * c)%Q.
Proof. induction l as [|x l IH]; cbn; [lra|]. rewrite IH. lra. Qed.

Lemma suffix_sum_hom k c l : (suffix_sum (fun l => hom_sum k l * c) l == hom_sum (S k) l * c)%Q.
Proof. induction l as [|x l IH]; [cbn; lra|]. rewrite hom_sum_cons. cbn [suffix_sum]. rewrite IH. lra. Qed.

Context {T : Type} `{EqDecision T} (permutations : bool) (sq : T -> list Q).

(** The weight of the combinations of [t :: rest] whose first value lies in [l]. *)
Fixpoint weight (t : T) (rest : list T) (l : list Q) : Q :=
  match rest with
  | [] => qsum l
  | t' :: rest' =>
      suffix_sum (fun l' => weight t' rest' (if negb permutations && bool_decide (t' = t) then l' else sq t')) l
  end.
Definition weight_of (ts : list T) : Q := match ts with [] => 1%Q | t :: rest => weight t rest (sq t) end.

Lemma weight_empty t rest l :
  (l = [] \/ Exists (fun t => sq t = []) rest) -> (sq t = [] -> l = []) -> (weight t rest l == 0)%Q.
Proof.
  revert t l; induction rest as [|t' rest IH]; intros t l He Ht.
  - destruct He as [->|He]; [done|by apply Exists_nil in He].
  - cbn [weight]. destruct He as [->|He]; [done|].
    assert (Hsub : forall l, (sq t = [] -> l = []) ->
      (suffix_sum (fun l' => weight t' rest (if negb permutations && bool_decide (t' = t) then l' else sq t')) l == 0)%Q);
      [|by apply Hsub].
    clear l Ht. induction l as [|x l IHl]; intros Ht; [done|]. cbn [suffix_sum]. rewrite IHl.
    + rewrite IH; [lra| |].
      * apply Exists_cons in He as [He|He]; [left|by right]. case_if; [|done]. bprop.
        case_bool_decide; [subst|done]. by apply Ht in He.
      * intros He'. case_if; [|done]. bprop. case_bool_decide; [subst|done]. by apply Ht.
    + intros Ht'. by apply Ht in Ht'.
Qed.

Lemma weight_of_permutations ts :
  permutations = true -> ts <> [] -> (weight_of ts == fold_right (fun t acc => qsum (sq t) * acc) 1 ts)%Q.
Proof.
  intros Hp. destruct ts as [|t rest]; intros Hne; [done|]. cbn [weight_of fold_right]. clear Hne.
  generalize (sq t) as l. revert t. induction rest as [|t' rest IH]; intros t l; cbn [weight fold_right]; [lra|].
  rewrite Hp. cbn [negb andb]. by rewrite suffix_sum_const, IH.
Qed.

(** One factor per run of equal terms. *)
Lemma weight_run t rest l :
  permutations = false ->
  (weight t rest l == hom_sum (S (run_length t rest)) l * weight_of (drop (run_length t rest) rest))%Q.
Proof.
  intros Hp. revert t l; induction rest as [|t' rest IH]; intros t l; cbn [weight run_length].
  - rewrite hom_sum_one. cbn. lra.
  - rewrite Hp. cbn [negb andb]. case_bool_decide as E.
    + subst t'. rewrite decide_True by done. cbn [drop]. rewrite <- suffix_sum_hom.
      apply suffix_sum_ext. intros l'. apply IH.
    + rewrite decide_False by congruence. rewrite suffix_sum_const, <- hom_sum_one. done.
Qed.

Context (calc : T -> Q) (vals : T -> list Q).
Hypothesis Hsq : forall t, sq t = square <$> vals t.
Hypothesis Hcalc : forall t, (calc t == qsum (sq t))%Q.

Lemma combination_loop_spec fuel ts sum :
  permutations = false -> (length ts <= fuel)%nat -> (combination_loop calc vals fuel ts sum == sum * weight_of ts)%Q.
Proof.
  intros Hp. revert ts sum. induction fuel as [|fuel IH]; intros [|t ts] sum Hfuel; simpl in Hfuel; try lia;
    try (cbn; lra).
  cbn [combination_loop weight_of]. rewrite weight_run by done.
  set (k := run_length t ts). assert (Hfin : forall f, (f == hom_sum (S k) (sq t))%Q ->
    ((if Qeq_bool (sum * f) 0 then sum * f else combination_loop calc vals fuel (drop k ts) (sum * f)) ==
     sum * (hom_sum (S k) (sq t) * weight_of (drop k ts)))%Q).
  { intros f Hf. case_if; bprop.
    - assert (sum * hom_sum (S k) (sq t) == 0)%Q as Hz by (rewrite <- Hf; exact E).
      rewrite E, Qmult_assoc, Hz. lra.
    - rewrite IH by (rewrite length_drop; lia). rewrite Hf. lra. }
  clearbody k. destruct k as [|k]; apply Hfin.
  - by rewrite Hcalc, hom_sum_one.
  - rewrite Hsq. apply results_spec.
Qed.

Lemma combinations_weight inters :
  permutations = false ->
  (calculate_count_and_sum_ft_sq_for_combinations calc vals inters == qsum (weight_of <$> inters))%Q.
Proof.
  intros Hp. unfold calculate_count_and_sum_ft_sq_for_combinations. qnum.
  transitivity (0 + qsum (weight_of <$> inters))%Q; [|lra]. change (inject_Z 0) with 0%Q. generalize 0%Q as acc.
  induction inters as [|i inters IH]; intros acc; csimpl; [cbn; lra|].
  rewrite IH, combination_loop_spec by (try done; lia). change (inject_Z 1) with 1%Q. cbn [qsum]. lra.
Qed.

Lemma permutations_weight inters :
  permutations = true -> Forall (fun i => i <> []) inters ->
  (calculate_count_and_sum_ft_sq_for_permutations calc inters == qsum (weight_of <$> inters))%Q.
Proof.
  intros Hp Hne. unfold calculate_count_and_sum_ft_sq_for_permutations. qnum.
  assert (Hprod : forall ts s, (fold_left (fun s t => s * calc t) ts s ==
    s * fold_right (fun t acc => qsum (sq t) * acc) 1 ts)%Q).
  { induction ts as [|t ts IH]; intros s; cbn [fold_left fold_right]; [lra|]. rewrite IH, Hcalc. lra. }
  transitivity (0 + qsum (weight_of <$> inters))%Q; [|lra]. change (inject_Z 0) with 0%Q. generalize 0%Q as acc.
  induction Hne as [|i inters Hi _ IH]; intros acc; csimpl; [cbn; lra|].
  rewrite IH, Hprod, weight_of_permutations by done. change (inject_Z 1) with 1%Q. cbn [qsum]. lra.
Qed.
End Weight.

Section GeneratedWeight.
Context (feature_space : Z -> features Q) (permutations : bool) (offset : Z).
#[local] Abbreviation square := (fun v : Q => v * v)%Q.

Definition squares_of (t : Z) : list Q := square <$> values (feature_space t).
Definition feature_square (g : @generated_feature Q) : Q := (g.1 * g.1)%Q.
Definition generated_weight (evs : list (event Q)) : Q :=
  qsum (feature_square <$> (evs ≫= generated_by feature_space offset)).

Lemma generated_weight_app E1 E2 :
  (generated_weight (E1 ++ E2) == generated_weight E1 + generated_weight E2)%Q.
Proof. unfold generated_weight. by rewrite bind_app, fmap_app, qsum_app. Qed.

Lemma generated_weight_audit g p : generated_weight (audit_raw feature_space false g p) = 0%Q.
Proof. done. Qed.

Lemma squares_of_drop t p :
  (p < size (feature_space t))%nat ->
  drop p (squares_of t) = square (it_value feature_space t p) :: drop (S p) (squares_of t).
Proof.
  intros Hp. unfold size in Hp. destruct (lookup_lt_is_Some_2 _ _ Hp) as [v Hv].
  unfold it_value. rewrite (nth_lookup_Some _ _ _ _ Hv).
  apply (drop_S _ (square v)). unfold squares_of. by rewrite list_lookup_fmap, Hv.
Qed.

Lemma kernel_weight t x h n : forall start,
  (start + n = size (feature_space t))%nat ->
  (generated_weight [Kernel t start (size (feature_space t)) x h] == x * x * qsum (drop start (squares_of t)))%Q.
Proof.
  assert (Hw : forall start, generated_weight [Kernel t start (size (feature_space t)) x h] =
    qsum (feature_square <$> generated_by feature_space offset (Kernel t start (size (feature_space t)) x h))).
  { intros start. unfold generated_weight. by rewrite bind_singleton. }
  setoid_rewrite Hw. cbn [generated_by]. clear Hw. induction n as [|n IH]; intros start Hs.
  - rewrite drop_ge by (unfold squares_of; rewrite length_fmap; unfold size in Hs; lia).
    replace (size (feature_space t) - start)%nat with 0%nat by lia. cbn. lra.
  - replace (size (feature_space t) - start)%nat with (S (size (feature_space t) - S start)) by lia.
    cbn [seq]. rewrite !fmap_cons. cbn [qsum]. rewrite IH by lia.
    rewrite (squares_of_drop t start) by lia. cbn [qsum]. unfold feature_square, feature_at, interaction_value. cbn. lra.
Qed.

Definition chosen_weight (hx : option (Z * Q)) : Q :=
  match hx with None => 1%Q | Some (_, x) => (x * x)%Q end.

Lemma expand_weight rest : forall t hx start,
  (hx = None -> rest <> []) ->
  (generated_weight (expand feature_space false permutations (namespace_range feature_space <$> rest)
     (namespace_range feature_space t) hx start) ==
   chosen_weight hx * weight permutations squares_of t rest (drop start (squares_of t)))%Q.
Proof.
  induction rest as [|t' rest IH]; intros t hx start Hne.
  - destruct hx as [[h x]|]; [|by destruct (Hne eq_refl)]. cbn [fmap list_fmap expand namespace_range r_group r_end weight].
    destruct (decide (start <= size (feature_space t))%nat) as [Hle|Hgt].
    + by apply (kernel_weight t x h (size (feature_space t) - start)); lia.
    + rewrite drop_ge by (unfold squares_of; rewrite length_fmap; unfold size in Hgt; lia).
      unfold generated_weight. cbn [mbind list_bind generated_by].
      replace (size (feature_space t) - start)%nat with 0%nat by lia. cbn. lra.
  - clear Hne. rewrite fmap_cons.
    remember (size (feature_space t) - start)%nat as n eqn:Hn. revert start Hn.
    induction n as [|n IHn]; intros start Hn.
    + rewrite expand_done by (cbn; lia).
      rewrite drop_ge by (unfold squares_of; rewrite length_fmap; unfold size in Hn; lia). cbn. lra.
    + rewrite expand_step by (cbn; lia). rewrite !generated_weight_app, IHn by lia.
      rewrite IH by done. rewrite (squares_of_drop t start) by lia.
      cbn [weight suffix_sum]. rewrite generated_weight_audit.
      change (generated_weight (audit_pop false)) with 0%Q.
      set (A := weight permutations squares_of t' rest _).
      set (B := weight permutations squares_of t' rest _).
      assert (A = B) as ->.
      { subst A B. f_equal. unfold next_start, same_begin. cbn.
        rewrite andb_true_r, <- (squares_of_drop t start) by lia.
        destruct permutations; [done|]. cbn. rewrite Nat.sub_0_r.
        case_bool_decide as E; [subst|]; [by rewrite Z.eqb_refl|].
        by rewrite (proj2 (Z.eqb_neq _ _)) by done. }
      destruct hx as [[h x]|]; cbn [chosen_weight combine_value]; unfold interaction_value; qnum;
        cbn [namespace_range r_group]; ring.
Qed.
End GeneratedWeight.

(** The maintained sum of squares of each group is the sum of squares of its values. *)
Definition sums_ok (fsp : Z -> features Q) : Prop :=
  forall g, (sum_feat_sq (fsp g) == qsum (squares_of fsp g))%Q.

Section FormulaCorrect.
Context (feature_space : Z -> features Q) (permutations : bool) (offset : Z).
#[local] Abbreviation W := (weight_of permutations (squares_of feature_space)).
#[local] Abbreviation gw := (generated_weight feature_space offset).

Lemma nonempty_interactions_weight inters :
  Forall (fun ns => 2 <= length ns)%nat inters ->
  (gw (interaction_ranges feature_space inters [] ≫= expand_all feature_space false permutations) ==
   qsum (W <$> inters))%Q.
Proof.
  unfold interaction_ranges. intros Hlen. cbn [mbind list_bind]. rewrite app_nil_r.
  induction Hlen as [|ns inters Hns _ IH]; [done|]. rewrite fmap_cons. cbn [qsum]. rewrite <- IH.
  rewrite filter_cons. destruct (decide _) as [Hne|Hne].
  - cbn [map]. rewrite bind_cons, generated_weight_app.
    destruct ns as [|t [|t' rest]]; simpl in Hns; try lia. rewrite fmap_cons. cbn [expand_all namespace_range r_begin].
    rewrite (expand_weight feature_space permutations offset (t' :: rest) t None 0) by done.
    rewrite drop_0. cbn [chosen_weight weight_of]. lra.
  - apply not_false_iff_true in Hne. apply existsb_exists in Hne as (e & He & Hempty).
    apply list_elem_of_In in He. unfold term_is_empty, size in Hempty. bprop.
    apply nil_length_inv in Hempty.
    assert (W ns == 0)%Q as ->; [|lra].
    destruct ns as [|t rest]; simpl in Hns; [lia|]. cbn [weight_of]. apply weight_empty; [|done].
    apply elem_of_cons in He as [->|He]; [left|right].
    + unfold squares_of. by rewrite Hempty.
    + apply Exists_exists. exists e. split; [done|]. unfold squares_of. by rewrite Hempty.
Qed.
End FormulaCorrect.

(** The closed formula is the weight of what the recursive reference makes. *)
Lemma formula_generated (feature_space : Z -> features Q) (permutations : bool) (offset : Z) (interactions : list (list Z)) :
  sums_ok feature_space -> Forall (fun ns => 2 <= length ns)%nat interactions ->
  (eval_sum_ft_squared_of_generated_ft feature_space permutations interactions [] ==
   qsum (feature_square <$> ((interaction_ranges feature_space interactions [] ≫= expand_all feature_space false permutations)
                               ≫= generated_by feature_space offset)))%Q.
Proof.
  intros Hsums Hlen. pose proof (nonempty_interactions_weight feature_space permutations offset interactions Hlen) as Hw.
  unfold generated_weight in Hw. rewrite Hw. unfold eval_sum_ft_squared_of_generated_ft. qnum.
  assert (Hne : Forall (fun i : list Z => i <> []) interactions)
    by (eapply Forall_impl; [exact Hlen|]; intros [|? ?]; simpl; [lia|done]).
  case_if.
  - rewrite (permutations_weight true (squares_of feature_space)) by done.
    change (calculate_count_and_sum_ft_sq_for_permutations _ []) with 0%Q. unfold inject_Z. lra.
  - rewrite (combinations_weight false (squares_of feature_space)) by done.
    change (calculate_count_and_sum_ft_sq_for_combinations _ _ []) with 0%Q. unfold inject_Z. lra.
Qed.

(** ** The properties *)

(** C3: [generate_interactions] terminates within its fuel and makes exactly the features of the
    recursive reference, in its order: the combinations (with repetition) of every nonempty
    namespace interaction, then those of every choice of extents. The count it returns is the
    number of features made. *)
Theorem generate_interactions_correct {F : Type} `{NumComm F} (feature_space : Z -> features F)
    (audit permutations : bool) (offset : Z) (interactions : list (list Z)) (exts : list (list extent_term)) :
  space_ok audit feature_space ->
  Forall (fun ns => 2 <= length ns)%nat interactions -> Forall (fun ns => 2 <= length ns)%nat exts ->
  exists n evs,
    generate_interactions feature_space audit permutations interactions exts [] = Some (n, evs) /\
    evs = interaction_ranges feature_space interactions exts ≫= expand_all feature_space audit permutations /\
    n = length (generated (evs ≫= calls feature_space audit offset)).
Proof.
  intros Hspace Hi He. do 2 eexists. split; [|split; [reflexivity|rewrite generated_calls; apply count_generated]].
  by apply generate_interactions_expand; [|constructor| |].
Qed.

(** C7: the nested loops for pairs and triples and the state machine for any length agree on
    what they generate, feature by feature, whatever the self interactions. *)
Theorem quadratic_cubic_generic {F : Type} `{NumComm F} (feature_space : Z -> features F)
    (audit permutations : bool) (r1 r2 r3 : features_range) :
  space_ok audit feature_space ->
  Forall (in_space feature_space) [r1; r2; r3] -> coherent [r1; r2; r3] ->
  process_generic_interaction feature_space audit permutations [r1; r2] =
    Some (process_quadratic_interaction feature_space audit permutations r1 r2) /\
  process_generic_interaction feature_space audit permutations [r1; r2; r3] =
    Some (process_cubic_interaction feature_space audit permutations r1 r2 r3).
Proof.
  intros Hspace Hin Hc.
  assert (Hr : ranges_ok r1 [r2; r3]) by by apply (coherent_ranges_ok feature_space).
  assert (Hr' : ranges_ok r1 [r2]) by by destruct Hr as (? & ? & ? & _).
  assert (Ha : Forall (audit_ok feature_space audit) [r1; r2; r3])
    by (eapply Forall_impl; [exact Hin|]; by apply in_space_audit_ok).
  assert (Ha' : Forall (audit_ok feature_space audit) [r1; r2])
    by (apply Forall_cons in Ha as [? [? ?]%Forall_cons]; by repeat constructor).
  pose proof (process_interaction_expand feature_space audit permutations r1 r2 [] Hr' Ha') as E2.
  pose proof (process_interaction_expand feature_space audit permutations r1 r2 [r3] Hr Ha) as E3.
  rewrite !process_generic_expand by done. split; [by rewrite <- E2|by rewrite <- E3].
Qed.

(** C9: with a sum of squares kept right in each group, [eval_sum_ft_squared_of_generated_ft] is the
    sum of the squares of the values that [generate_interactions] makes for the namespace
    interactions, for permutations and for combinations with repetition. *)
Theorem eval_sum_ft_squared_correct (feature_space : Z -> features Q) (permutations : bool) (offset : Z)
    (interactions : list (list Z)) :
  space_ok false feature_space -> sums_ok feature_space ->
  Forall (fun ns => 2 <= length ns)%nat interactions ->
  exists n evs,
    generate_interactions feature_space false permutations interactions [] [] = Some (n, evs) /\
    (eval_sum_ft_squared_of_generated_ft feature_space permutations interactions [] ==
     qsum (feature_square <$> generated (evs ≫= calls feature_space false offset)))%Q.
Proof.
  intros Hspace Hsums Hlen. do 2 eexists. split.
  - apply (generate_interactions_expand feature_space false permutations Hspace); [constructor|done|constructor].
  - rewrite generated_calls. by apply formula_generated.
Qed.

(** The choice of one extent per term, by its position among the extents of the term. *)
Fixpoint picks {F} `{Num F} (feature_space : Z -> features F) (prev : option (extent_term * nat))
    (terms : list extent_term) (rs : list features_range) : Prop :=
  match terms, rs with
  | [], [] => True
  | t :: terms', r :: rs' =>
      exists k, term_extents feature_space t !! k = Some r /\
        match prev with Some (t', k') => t' = t -> (k' <= k)%nat | None => True end /\
        picks feature_space (Some (t, k)) terms' rs'
  | _, _ => False
  end.

Lemma choices_picks {F} `{Num F} (feature_space : Z -> features F) rest : forall t off sf rs,
  rs ∈ choices feature_space t rest off sf <->
  exists k r rs', rs = sf ++ r :: rs' /\ term_extents feature_space t !! k = Some r /\ (off <= k)%nat /\
    picks feature_space (Some (t, k)) rest rs'.
Proof.
  induction rest as [|t' rest IH]; intros t off sf rs; cbn [choices].
  - rewrite list_elem_of_fmap. split.
    + intros (r & -> & [k Hk]%list_elem_of_lookup_1). rewrite lookup_drop in Hk.
      exists (off + k)%nat, r, []. split_and!; [done|done|lia|done].
    + intros (k & r & [|? ?] & -> & Hk & Hoff & Hp); [|done]. exists r. split; [done|].
      apply (list_elem_of_lookup_2 _ (k - off)%nat). rewrite lookup_drop.
      by replace (off + (k - off))%nat with k by lia.
  - rewrite list_elem_of_join. setoid_rewrite elem_of_reverse. setoid_rewrite elem_of_lookup_imap. split.
    + intros (l & Hl & i & e & -> & He). rewrite lookup_drop in He.
      apply IH in Hl as (k & r & rs' & -> & Hk & Hoff & Hp).
      exists (off + i)%nat, e, (r :: rs'). rewrite <- app_assoc. split_and!; [done|done|lia|].
      exists k. split_and!; [done| |done]. intros ->. rewrite decide_True in Hoff by done. done.
    + intros (k & r & [|r' rs'] & -> & Hk & Hoff & Hp); [by destruct Hp|].
      destruct Hp as (k' & Hk' & Hord & Hp).
      exists (choices feature_space t' rest (if decide (t = t') then k else 0%nat) (sf ++ [r])). split.
      * apply IH. exists k', r', rs'. rewrite <- app_assoc. split_and!; [done|done| |done].
        destruct (decide _); [auto|lia].
      * exists (k - off)%nat, r. rewrite lookup_drop. replace (off + (k - off))%nat with k by lia. done.
Qed.

(** The stack of [generate_generic_extent_combination_iterative] terminates and produces exactly the
    choices of one extent per term in which neighbouring equal terms take extents in
    nondecreasing position; every vector it returns to the frame pool is empty again. *)
Theorem extent_combinations_exact {F} `{Num F} (feature_space : Z -> features F) (t0 t1 : extent_term)
    (ts : list extent_term) (pool : list (list features_range)) :
  clean pool ->
  exists combos pool',
    generate_generic_extent_combination_iterative feature_space (t0 :: t1 :: ts) pool = Some (combos, pool') /\
    clean pool' /\
    forall rs, rs ∈ combos <-> picks feature_space None (t0 :: t1 :: ts) rs.
Proof.
  intros Hpool. destruct (extent_combinations_choices feature_space t0 t1 ts pool) as (pool' & Hp & ->); [exact Hpool|].
  do 2 eexists. split; [done|]. split; [exact Hp|]. intros rs. rewrite choices_picks. split.
  - intros (k & r & rs' & -> & Hk & _ & Hp'). exists k. done.
  - destruct rs as [|r rs']; [done|]. intros (k & Hk & _ & Hp'). exists k, r, rs'. split_and!; [done|done|lia|done].
Qed.

(** *** Witnesses: an example with three namespaces, one of them empty *)

Definition sample_space (g : Z) : features Q :=
  if g =? 97 then Features Q [1; 2; 3]%Q [10; 20; 30] [] [Extent 0 1 7; Extent 2 3 7] 14%Q
  else if g =? 98 then Features Q [4; 5]%Q [40; 50] [] [Extent 0 1 8] 41%Q
  else Features Q [] [] [] [] 0%Q.

Lemma sample_space_cases (P : features Q -> Prop) :
  P (sample_space 97) -> P (sample_space 98) -> P (sample_space 0) -> forall g, P (sample_space g).
Proof.
  intros Ha Hb Hc g. unfold sample_space in *. destruct (g =? 97); [done|]. by destruct (g =? 98).
Qed.

Lemma sample_space_ok : space_ok false sample_space.
Proof.
  intros g. apply (sample_space_cases (fun f => length (indices f) = size f /\
    extents_ok 0 (size f) (namespace_extents f) /\ (false = true -> length (space_names f) = size f)));
    cbn; split_and!; try lia; try done; intros ? [=]; subst; cbn in *; lia || done.
Qed.

Lemma sample_sums_ok : sums_ok sample_space.
Proof.
  intros g. apply (sample_space_cases (fun f => sum_feat_sq f == qsum ((fun v => v * v) <$> values f))%Q); done.
Qed.

Lemma generate_interactions_correct_witness :
  exists n evs,
    generate_interactions sample_space false false [[97; 97]; [97; 99]; [97; 97; 98]] [[(97, 7); (98, 8)]] [] = Some (n, evs) /\
    evs = interaction_ranges sample_space [[97; 97]; [97; 99]; [97; 97; 98]] [[(97, 7); (98, 8)]] ≫= expand_all sample_space false false /\
    n = length (generated (evs ≫= calls sample_space false 0)) /\ n = 20%nat.
Proof.
  destruct (generate_interactions_correct sample_space false false 0 [[97; 97]; [97; 99]; [97; 97; 98]] [[(97, 7); (98, 8)]]
    sample_space_ok) as (n & evs & H1 & H2 & H3).
  - repeat constructor.
  - repeat constructor.
  - exists n, evs. split; [exact H1|]. split; [exact H2|]. split; [exact H3|].
    rewrite H3, H2. vm_compute. reflexivity.
Defined.

Lemma quadratic_cubic_generic_witness :
  let r1 := Range 97 0 3 in let r2 := Range 97 0 3 in let r3 := Range 98 0 2 in
  process_generic_interaction sample_space false false [r1; r2] =
    Some (process_quadratic_interaction sample_space false false r1 r2) /\
  process_generic_interaction sample_space false false [r1; r2; r3] =
    Some (process_cubic_interaction sample_space false false r1 r2 r3).
Proof.
  apply (quadratic_cubic_generic sample_space false false); [exact sample_space_ok| |].
  - repeat constructor; cbn; lia.
  - intros r r' Hr Hr'. repeat (apply elem_of_cons in Hr as [->|Hr]); repeat (apply elem_of_cons in Hr' as [->|Hr']);
      try (by apply elem_of_nil in Hr); try (by apply elem_of_nil in Hr'); done.
Defined.

Lemma eval_sum_ft_squared_correct_witness :
  exists n evs,
    generate_interactions sample_space false false [[97; 97]; [97; 97; 98]; [98; 99]]%Z [] [] = Some (n, evs) /\
    (eval_sum_ft_squared_of_generated_ft sample_space false [[97; 97]; [97; 97; 98]; [98; 99]]%Z [] ==
     qsum (feature_square <$> generated (evs ≫= calls sample_space false 5)))%Q.
Proof.
  apply (eval_sum_ft_squared_correct sample_space false 5); [exact sample_space_ok|exact sample_sums_ok|].
  repeat constructor.
Defined.

Lemma extent_combinations_exact_witness :
  exists combos pool',
    generate_generic_extent_combination_iterative sample_space [(97, 7); (97, 7); (98, 8)] [[]] = Some (combos, pool') /\
    clean pool' /\
    forall rs, rs ∈ combos <-> picks sample_space None [(97, 7); (97, 7); (98, 8)] rs.
Proof. apply (extent_combinations_exact sample_space). repeat constructor. Defined.
