(* ===== verification/InteractionGen.v ===== *)
(** * Wildcard interactions ([core/include/vw/core/interactions.h], [core/src/interactions.cc],
      [core/include/vw/core/vw_math.h], [core/src/reductions/generate_interactions.cc])

    Expanding the wildcard [:] of an interaction over the namespaces (or extents) seen so far,
    removing interactions that are the same up to order, and the reduction that keeps the
    expansion up to date and installs it in an example while the base learner runs.
    The generators are templates over the key type: a namespace index or an extent term. *)

From Stdlib Require Import Arith Factorial.
From S2P Require Import Prelude.
From S2P Require Import Ordered.
From S2P Require Import Features.
From S2P Require Import InteractionPredict.

Definition INTERACTION_NS_START : Z := 32.
Definition INTERACTION_NS_END : Z := 126.
Definition CCB_SLOT_NAMESPACE : Z := 139.

Definition is_interaction_ns (ns : Z) : bool :=
  ((INTERACTION_NS_START <=? ns) && (ns <=? INTERACTION_NS_END)) || (ns =? CCB_SLOT_NAMESPACE).

(** ** Counting ([vw_math.h]): [int64_t] arithmetic *)

Fixpoint factorial_loop (n : nat) (i result : Z) : Z :=
  match n with O => result | S n => factorial_loop n (i + 1) (i64 (result * i)) end.
Definition factorial (n : Z) : Z := factorial_loop (Z.to_nat (n - 1)) 2 1.

(** [None]: the exception for a magnitude over 21. *)
Definition number_of_combinations_with_repetition (n k : Z) : option Z :=
  if 21 <? n + k then None
  else Some (Z.quot (factorial (n + k - 1)) (i64 (factorial (n - 1) * factorial k))).

(** ** Enumeration of the vectors that replace the wildcards *)

Section Generators.
Context {T : Type} `{TotalLt T}.

(** [std::advance(values.begin(), idx)] and dereferencing; [None] past the end. *)
Definition indices_to_values_one_based (indices : list nat) (values : list T) : option (list T) :=
  mapM (fun idx => values !! (idx - 1)%nat) indices.
Definition indices_to_values_ignore_last_index (indices : list nat) (values : list T) : option (list T) :=
  mapM (fun idx => values !! idx) (take (length indices - 1) indices).

(** The [for] loop that carries: [n] iterations from position [i]. [last_index] is a [size_t]. *)
Fixpoint carry_indices (last_index : Z) (n i : nat) (indices : list nat) : list nat :=
  match n with
  | O => indices
  | S n =>
      carry_indices last_index n (S i)
        (if last_index <? Z.of_nat (nth i indices 0%nat)
         then let v := S (nth (S i) indices 0%nat) in replicate (S i) v ++ drop (S i) (<[S i := v]> indices)
         else indices)
  end.

Fixpoint combinations_loop (fuel : nat) (last_index : Z) (num_to_pick : nat) (namespaces : list T)
    (indices : list nat) : option (list (list T)) :=
  match fuel with
  | O => None
  | S fuel =>
      let indices := carry_indices last_index num_to_pick 0 indices in
      if (0 <? nth num_to_pick indices 0%nat)%nat then Some []
      else
        r ← indices_to_values_ignore_last_index indices namespaces;
        rs ← combinations_loop fuel last_index num_to_pick namespaces
               (<[0%nat := S (nth 0 indices 0%nat)]> indices);
        Some (r :: rs)
  end.

(** The number of vectors, which bounds the iterations. *)
Fixpoint combinations_count (n k : nat) : nat :=
  match k with
  | O => 1
  | S k' => (fix go n := match n with O => 0%nat | S n' => (combinations_count (S n') k' + go n')%nat end) n
  end.

Definition generate_namespace_combinations_with_repetition (namespaces : list T) (num_to_pick : nat)
  : option (list (list T)) :=
  combinations_loop (S (combinations_count (length namespaces) num_to_pick))
    (u64 (Z.of_nat (length namespaces) - 1)) num_to_pick namespaces (replicate (S num_to_pick) 0%nat).

Fixpoint permutations_loop (fuel : nat) (number_of_namespaces num_to_pick : nat) (namespaces : list T)
    (indices : list nat) (next_index : nat) : option (list (list T)) :=
  match fuel with
  | O => None
  | S fuel =>
      if (nth (next_index - 1) indices 0 =? number_of_namespaces)%nat then
        if (next_index - 1 =? 0)%nat then Some []
        else permutations_loop fuel number_of_namespaces num_to_pick namespaces indices (next_index - 1)
      else
        let indices := <[(next_index - 1)%nat := S (nth (next_index - 1) indices 0%nat)]> indices in
        let indices := take next_index indices ++ replicate (num_to_pick - next_index) 1%nat in
        r ← indices_to_values_one_based indices namespaces;
        rs ← permutations_loop fuel number_of_namespaces num_to_pick namespaces indices num_to_pick;
        Some (r :: rs)
  end.

(** Iterations to exhaust the last [j] positions. *)
Fixpoint permutations_steps (n j : nat) : nat :=
  match j with O => 0 | S j => n * S (permutations_steps n j) end.

Definition generate_namespace_permutations_with_repetition (namespaces : list T) (num_to_pick : nat)
  : option (list (list T)) :=
  permutations_loop (S (permutations_steps (length namespaces) num_to_pick)) (length namespaces) num_to_pick
    namespaces (replicate (num_to_pick - 1) 1%nat ++ [0%nat]) num_to_pick.

(** ** Interactions that are the same up to order *)

Definition key_eqb (a b : T) : bool := negb (key_ltb a b) && negb (key_ltb b a).

(** The scan for a pair next to a difference. *)
Fixpoint scan_pairs (diff_ns_found pair_found : bool) (a : T) (oi : list T) : bool :=
  match oi with
  | [] => false
  | b :: oi' =>
      if key_eqb a b then if diff_ns_found then true else scan_pairs diff_ns_found true b oi'
      else if pair_found then true else scan_pairs true pair_found b oi'
  end.
Definition must_be_left_sorted (oi : list T) : bool :=
  if (length oi <=? 1)%nat then true
  else match oi with [] => true | a :: oi' => scan_pairs false false a oi' end.

Definition sorted_interaction (v : list T) : list T := stable_sort key_ltb v.
Definition list_eqb (a b : list T) : bool := negb (list_ltb a b) && negb (list_ltb b a).

Record filtered := Filtered { f_vec : list (list T); f_removed_cnt : nat; f_sorted_cnt : nat }.

Definition sort_and_filter_duplicate_interactions (vec : list (list T)) (filter_duplicates : bool) : filtered :=
  let vec_sorted := imap (fun i v => (sorted_interaction v, i)) vec in
  let kept :=
    if filter_duplicates then
      stable_sort (fun a b => (a.2 <? b.2)%nat)
        (std_unique (fun a b => list_eqb a.1 b.1)
           (stable_sort (fun a b => list_ltb a.1 b.1) vec_sorted))
    else vec_sorted in
  Filtered
    ((fun i => if must_be_left_sorted i.1 then i.1 else nth i.2 vec []) <$> kept)
    (if filter_duplicates then length vec - length kept else 0)
    (length (filter (fun i => must_be_left_sorted i.1 = true) kept)).

(** ** Replacing the wildcards of one interaction *)

(** [res.insert(res.begin() + at, x)] *)
Definition insert_at (at_ : nat) (x : T) (res : list T) : list T := take at_ res ++ x :: drop at_ res.

(** The fixed terms with their positions, in order. *)
Fixpoint fixed_terms (is_wildcard : T -> bool) (i : nat) (interaction : list T) : list (nat * T) :=
  match interaction with
  | [] => []
  | t :: ts => if is_wildcard t then fixed_terms is_wildcard (S i) ts
               else (i, t) :: fixed_terms is_wildcard (S i) ts
  end.

Definition insert_fixed (fixed : list (nat * T)) (result : list (list T)) : list (list T) :=
  foldl (fun result it => insert_at it.1 it.2 <$> result) result fixed.

Definition num_wildcards (is_wildcard : T -> bool) (interaction : list T) : nat :=
  length (filter (fun t => is_wildcard t = true) interaction).
End Generators.

Arguments filtered : clear implicits.

(** ** Namespaces *)

Definition is_wildcard (ns : Z) : bool := ns =? WILDCARD_NAMESPACE.
Definition contains_wildcard (interaction : list Z) : bool := existsb is_wildcard interaction.

(** The wildcard of extent terms is looked for as a pair, and replaced by its first component. *)
Definition contains_extent_wildcard (interaction : list extent_term) : bool :=
  existsb (fun t => (t.1 =? WILDCARD_NAMESPACE) && (t.2 =? WILDCARD_NAMESPACE)) interaction.
Definition is_extent_wildcard (t : extent_term) : bool := t.1 =? WILDCARD_NAMESPACE.

(** [sort_interactions_comparator] *)
Definition sort_interactions_comparator (a b : list Z) : bool :=
  if (length a =? length b)%nat then list_ltb a b else (length a <? length b)%nat.

(** The inner loop inserts for [idx1] and each [idx2] from [it] on. *)
Definition quadratics_from (leave_duplicate_interactions : bool) (idx1 : Z) (rest : list Z)
    (interactions : list (list Z)) : list (list Z) :=
  foldl (fun s idx2 =>
    let s := set_insert [idx2; idx2] (set_insert [idx1; idx2] s) in
    if leave_duplicate_interactions then set_insert [idx2; idx1] s else s)
    (set_insert [idx1; idx1] interactions) rest.

Fixpoint quadratics_loop (leave_duplicate_interactions : bool) (it : list Z) (interactions : list (list Z))
  : list (list Z) :=
  match it with
  | [] => interactions
  | idx1 :: it' => quadratics_loop leave_duplicate_interactions it'
                     (quadratics_from leave_duplicate_interactions idx1 it interactions)
  end.

Definition expand_quadratics_wildcard_interactions (leave_duplicate_interactions : bool) (new_example_indices : list Z)
  : list (list Z) := quadratics_loop leave_duplicate_interactions new_example_indices [].

(** The template argument [generate_func]: combinations or permutations. *)
Definition generate_func (leave_duplicate_interactions : bool) {T} (namespaces : list T) (num_to_pick : nat)
  : option (list (list T)) :=
  if leave_duplicate_interactions
  then generate_namespace_permutations_with_repetition namespaces num_to_pick
  else generate_namespace_combinations_with_repetition namespaces num_to_pick.

Section Compile.
Context `{StdSort} (leave_duplicate_interactions : bool).

Definition compile_interaction (interaction : list Z) (indices : list Z) : option (list (list Z)) :=
  let n := num_wildcards is_wildcard interaction in
  result ← (if (n =? 2)%nat
            then Some (expand_quadratics_wildcard_interactions leave_duplicate_interactions indices)
            else generate_func leave_duplicate_interactions indices n);
  Some (insert_fixed (fixed_terms is_wildcard 0 interaction) result).

Definition compile_extent_interaction (interaction : list extent_term) (seen : list extent_term)
  : option (list (list extent_term)) :=
  let n := num_wildcards is_extent_wildcard interaction in
  result ← generate_func leave_duplicate_interactions seen n;
  Some (insert_fixed (fixed_terms is_extent_wildcard 0 interaction) result).

Definition compile_interactions (interactions : list (list Z)) (indices : list Z) : option (list (list Z)) :=
  compiled ← mapM (fun inter => if contains_wildcard inter then compile_interaction inter indices
                                else Some [inter]) interactions;
  Some (f_vec (sort_and_filter_duplicate_interactions
                 (std_sort sort_interactions_comparator (mjoin compiled)) (negb leave_duplicate_interactions))).

Definition compile_extent_interactions (interactions : list (list extent_term)) (seen : list extent_term)
  : option (list (list extent_term)) :=
  compiled ← mapM (fun inter => if contains_extent_wildcard inter then compile_extent_interaction inter seen
                                else Some [inter]) interactions;
  Some (f_vec (sort_and_filter_duplicate_interactions (mjoin compiled) (negb leave_duplicate_interactions))).

(** ** [interactions_generator] *)

Record interactions_generator := Generator {
  generated_interactions : list (list Z);
  generated_extent_interactions : list (list extent_term);
  store_in_reduction_features : bool;
  all_seen_namespaces : list Z;
  all_seen_extents : list extent_term
}.

Definition update_interactions_if_new_namespace_seen (g : interactions_generator)
    (interactions : list (list Z)) (new_example_indices : list Z) : option interactions_generator :=
  let seen := set_insert_all new_example_indices (all_seen_namespaces g) in
  let set gi := Generator gi (generated_extent_interactions g) (store_in_reduction_features g) seen (all_seen_extents g) in
  if (length (all_seen_namespaces g) =? length seen)%nat then Some (set (generated_interactions g))
  else
    let indices_to_interact := filter (fun ns => is_interaction_ns ns = true) seen in
    if (0 <? length indices_to_interact)%nat
    then gi ← compile_interactions interactions indices_to_interact; Some (set gi)
    else Some (set []).

(** The extents of the example that may interact. *)
Definition interacting_extent (h : Z) : bool :=
  (h =? 0) || (255 <=? h) || ((h <? 255) && is_interaction_ns (h mod 256)).
Definition new_extents {F} (indices : list Z) (feature_space : Z -> features F) : list extent_term :=
  ns_index ← indices;
  (fun e => (ns_index, ext_hash e)) <$>
    filter (fun e => interacting_extent (ext_hash e) = true) (namespace_extents (feature_space ns_index)).

Definition update_extent_interactions_if_new_namespace_seen {F} (g : interactions_generator)
    (interactions : list (list extent_term)) (indices : list Z) (feature_space : Z -> features F)
  : option interactions_generator :=
  let seen := set_insert_all (new_extents indices feature_space) (all_seen_extents g) in
  let set gi ge := Generator gi ge (store_in_reduction_features g) (all_seen_namespaces g) seen in
  if (length (all_seen_extents g) =? length seen)%nat
  then Some (set (generated_interactions g) (generated_extent_interactions g))
  else
    if (length seen =? 0)%nat then Some (set [] (generated_extent_interactions g))
    else ge ← compile_extent_interactions interactions seen; Some (set [] ge).
End Compile.

(** ** The reduction ([generate_interactions.cc]) *)

(** The pointer [ec.interactions]: the example's own vector, or the generator's. *)
Inductive pointer (A : Type) := Own (a : A) | Generated.
Arguments Own {A} _.
Arguments Generated {A}.

Record example (F : Type) := Example {
  interactions : pointer (list (list Z));
  extent_interactions : pointer (list (list extent_term));
  ex_indices : list Z;
  feature_space : Z -> features F;
  (** The pointers of the reduction features; [None] is null. *)
  las_interactions : option (pointer (list (list Z)));
  las_extent_interactions : option (pointer (list (list extent_term)))
}.
Arguments Example {F}.
Arguments interactions {F}.
Arguments extent_interactions {F}.
Arguments ex_indices {F}.
Arguments feature_space {F}.
Arguments las_interactions {F}.
Arguments las_extent_interactions {F}.

Definition deref_interactions (g : interactions_generator) (p : pointer (list (list Z))) : list (list Z) :=
  match p with Own l => l | Generated => generated_interactions g end.
Definition deref_extent_interactions (g : interactions_generator) (p : pointer (list (list extent_term))) : list (list extent_term) :=
  match p with Own l => l | Generated => generated_extent_interactions g end.

Section Reduction.
Context `{StdSort} {F B : Type}.
(** An operation of the base learner: it sees the generator behind the pointers. *)
Implicit Type base : interactions_generator -> example F -> B -> example F * B.
Implicit Type ec : example F.

Definition set_interactions p ec : example F :=
  Example p (extent_interactions ec) (ex_indices ec) (feature_space ec) (las_interactions ec) (las_extent_interactions ec).
Definition set_extent_interactions p ec : example F :=
  Example (interactions ec) p (ex_indices ec) (feature_space ec) (las_interactions ec) (las_extent_interactions ec).
Definition set_las (store with_extents : bool) ec : example F :=
  if store then
    Example (interactions ec) (extent_interactions ec) (ex_indices ec) (feature_space ec) (Some Generated)
      (if with_extents then Some Generated else las_extent_interactions ec)
  else ec.

(** The overload of [transform_single_ex] without extents; [update] and [multipredict] have the
    same body around another operation of the base. *)
Definition transform_single_ex (leave_duplicate_interactions : bool) base (data : interactions_generator) ec (b : B)
  : option (interactions_generator * example F * B) :=
  data ← update_interactions_if_new_namespace_seen leave_duplicate_interactions data
           (deref_interactions data (interactions ec)) (ex_indices ec);
  let saved_interactions := interactions ec in
  let ec := set_interactions Generated ec in
  let ec := set_las (store_in_reduction_features data) false ec in
  let '(ec, b) := base data ec b in
  Some (data, set_interactions saved_interactions ec, b).

Definition transform_single_ex_extents (leave_duplicate_interactions : bool) base (data : interactions_generator) ec (b : B)
  : option (interactions_generator * example F * B) :=
  data ← update_interactions_if_new_namespace_seen leave_duplicate_interactions data
           (deref_interactions data (interactions ec)) (ex_indices ec);
  let saved_interactions := interactions ec in
  let ec := set_interactions Generated ec in
  data ← update_extent_interactions_if_new_namespace_seen leave_duplicate_interactions data
           (deref_extent_interactions data (extent_interactions ec)) (ex_indices ec) (feature_space ec);
  let saved_extent_interactions := extent_interactions ec in
  let ec := set_extent_interactions Generated ec in
  let ec := set_las (store_in_reduction_features data) true ec in
  let '(ec, b) := base data ec b in
  Some (data, set_extent_interactions saved_extent_interactions (set_interactions saved_interactions ec), b).

(** What the setup chooses: [None] when the reduction is not put on the stack. *)
Record reduction_config := Config {
  cfg_leave_duplicates : bool; cfg_extents : bool; cfg_store_in_reduction_features : bool
}.

Definition generate_interactions_setup (leave_duplicate_interactions automl ccb_explore_adf large_action_space : bool)
    (interactions_spec : list (list Z)) (extent_spec : list (list extent_term)) : option reduction_config :=
  let interactions_spec_contains_wildcards := existsb contains_wildcard interactions_spec in
  let interactions_spec_contains_extent_wildcards := existsb contains_extent_wildcard extent_spec in
  if automl then None
  else if negb (interactions_spec_contains_wildcards || interactions_spec_contains_extent_wildcards || ccb_explore_adf)
  then None
  else Some (Config leave_duplicate_interactions interactions_spec_contains_extent_wildcards large_action_space).

Definition learn_func (cfg : reduction_config) :=
  if cfg_extents cfg then transform_single_ex_extents (cfg_leave_duplicates cfg)
  else transform_single_ex (cfg_leave_duplicates cfg).

Definition initial_generator (cfg : reduction_config) : interactions_generator :=
  Generator [] [] (cfg_store_in_reduction_features cfg) [] [].
End Reduction.

(** * Theorems *)

(** ** Combinations *)

Section CombinationsCorrect.
Context {T : Type} `{TotalLt T} (namespaces : list T) (last k : nat).
#[local] Abbreviation last_index := (Z.of_nat last).
#[local] Abbreviation itv := (fun c => indices_to_values_ignore_last_index c namespaces).

(** The first [k] positions: nonincreasing, between [lo] and [last]. *)
Fixpoint combos (j lo : nat) : list (list nat) :=
  match j with
  | O => [[]]
  | S j => v ← seq lo (S last - lo); (fun c => c ++ [v]) <$> combos j v
  end.

Definition loop_at (fuel i : nat) (indices : list nat) : option (list (list T)) :=
  match fuel with
  | O => None
  | S fuel =>
      let indices := carry_indices last_index (k - i) i indices in
      if (0 <? nth k indices 0%nat)%nat then Some []
      else r ← itv indices;
           rs ← combinations_loop fuel last_index k namespaces (<[0%nat := S (nth 0 indices 0%nat)]> indices);
           Some (r :: rs)
  end.

Lemma loop_at_0 fuel indices : combinations_loop fuel last_index k namespaces indices = loop_at fuel 0 indices.
Proof. destruct fuel; [done|]. cbn [combinations_loop loop_at]. by rewrite Nat.sub_0_r. Qed.

Lemma carry_small n i indices :
  Forall (fun d => d <= last)%nat indices -> carry_indices last_index n i indices = indices.
Proof.
  intros Hsmall. revert i; induction n as [|n IH]; intros i; [done|]. cbn [carry_indices].
  rewrite (proj2 (Z.ltb_ge _ _)); [apply IH|].
  destruct (nth_in_or_default i indices 0%nat) as [Hin| ->]; [|lia].
  apply list_elem_of_In in Hin. eapply Forall_forall in Hin; [|exact Hsmall]. cbn in Hin. lia.
Qed.

Lemma mapM_app_Some {A C} (f : A -> option C) l l' :
  mapM f (l ++ l') = (r ← mapM f l; r' ← mapM f l'; Some (r ++ r')).
Proof.
  induction l as [|a l IH]; cbn [mapM app mbind option_bind].
  - by destruct (mapM f l').
  - destruct (f a); cbn [mbind option_bind]; [|done]. rewrite IH.
    destruct (mapM f l); cbn [mbind option_bind]; [|done]. by destruct (mapM f l').
Qed.

(** Exhausting the first [j] positions, all at [lo]. *)
Lemma exhaust j : forall lo d ds i fuel,
  (lo <= last)%nat -> (j + S (length ds))%nat = S k -> Forall (fun d => d <= last)%nat (d :: ds) ->
  nth (k - j) (d :: ds) 0%nat = 0%nat ->
  loop_at (length (combos j lo) + fuel) i (replicate j lo ++ d :: ds) =
  (rs1 ← mapM itv ((fun c => c ++ d :: ds) <$> combos j lo);
   rs2 ← loop_at fuel j (replicate j (S d) ++ S d :: ds);
   Some (rs1 ++ rs2)).
Proof.
  induction j as [|j IH]; intros lo d ds i fuel Hlo Hlen Hsmall Hzero.
  - cbn [combos replicate app length Nat.add fmap list_fmap]. unfold loop_at at 1. cbv zeta.
    rewrite carry_small by done. rewrite Nat.sub_0_r in Hzero.
    rewrite Hzero. cbn [Nat.ltb Nat.leb mapM].
    destruct (itv (d :: ds)) as [r|]; [|done]. cbn [mbind option_bind list_insert insert nth].
    by rewrite loop_at_0.
  - cbn [combos]. remember (last - lo)%nat as m eqn:Hm. revert lo Hlo Hm i.
    induction m as [|m IHm]; intros lo Hlo Hm i.
    + assert (lo = last) as -> by lia. replace (S last - last)%nat with 1%nat by lia. cbn [seq].
      rewrite bind_singleton, length_fmap, replicate_S_end, <- app_assoc.
      cbn [app]. rewrite (IH last last (d :: ds) i fuel); [|lia|simpl; lia|by constructor|].
      * rewrite <- list_fmap_compose. unfold compose. setoid_rewrite <- (fun c => app_assoc c [last] (d :: ds)).
        destruct (mapM _ _); [|done]. cbn [mbind option_bind].
        destruct fuel as [|fuel]; [done|]. unfold loop_at at 1 2. cbv zeta.
        replace (k - j)%nat with (S (k - S j)) by (simpl in Hlen; lia). cbn [carry_indices].
        rewrite app_nth2 by (rewrite length_replicate; lia). rewrite length_replicate, Nat.sub_diag. cbn [nth].
        rewrite (proj2 (Z.ltb_lt _ _)) by lia.
        rewrite app_nth2 by (rewrite length_replicate; lia). rewrite length_replicate.
        replace (S j - j)%nat with 1%nat by lia. cbn [nth].
        rewrite (insert_app_r_alt (replicate j (S last)) (S last :: d :: ds)) by (rewrite length_replicate; lia).
        rewrite length_replicate. replace (S j - j)%nat with 1%nat by lia. cbn [list_insert insert].
        rewrite (drop_app_ge (replicate j (S last))) by (rewrite length_replicate; lia).
        rewrite length_replicate. replace (S j - j)%nat with 1%nat by lia. done.
      * replace (k - j)%nat with (S (k - S j)) by (simpl in Hlen; lia). done.
    + replace (S last - lo)%nat with (S (S last - S lo)) by lia. cbn [seq]. rewrite bind_cons, length_app, length_fmap.
      rewrite replicate_S_end, <- app_assoc. cbn [app]. rewrite <- Nat.add_assoc.
      rewrite (IH lo lo (d :: ds) i); [|lia|simpl; lia|constructor; [lia|done]|].
      2: { replace (k - j)%nat with (S (k - S j)) by (simpl in Hlen; lia). done. }
      replace (replicate j (S lo) ++ S lo :: d :: ds) with (replicate (S j) (S lo) ++ d :: ds)
        by (by rewrite replicate_S_end, <- app_assoc).
      rewrite (IHm (S lo)) by lia. rewrite fmap_app, mapM_app_Some, <- list_fmap_compose. unfold compose.
      setoid_rewrite <- (fun c => app_assoc c [lo] (d :: ds)).
      cbn [app]. destruct (mapM _ (_ <$> combos j lo)); [|done]. cbn [mbind option_bind].
      destruct (mapM _ (_ <$> _)); [|done]. cbn [mbind option_bind].
      destruct (loop_at fuel (S j) _); [|done]. cbn [mbind option_bind]. by rewrite app_assoc.
Qed.
End CombinationsCorrect.

Lemma elem_of_combos last j : forall lo c,
  c ∈ combos last j lo <->
  length c = j /\ Forall (fun d => lo <= d <= last)%nat c /\ StronglySorted (fun a b => b <= a)%nat c.
Proof.
  induction j as [|j IH]; intros lo c; cbn [combos].
  - rewrite list_elem_of_singleton. split; [by intros ->; repeat constructor|].
    intros (Hlen & _). by apply nil_length_inv.
  - rewrite list_elem_of_bind. setoid_rewrite list_elem_of_fmap. split.
    + intros (v & (c' & -> & Hc') & Hv). apply IH in Hc' as (Hlen & Hall & Hs).
      apply elem_of_seq in Hv. rewrite length_app, Forall_app, StronglySorted_app. cbn.
      rewrite Forall_forall in Hall. split_and!; [lia| |repeat constructor; lia| |done|repeat constructor].
      * apply Forall_forall. intros d Hd. specialize (Hall _ Hd). lia.
      * intros x y Hx [->|Hy]%elem_of_cons; [apply (Hall _ Hx)|by apply elem_of_nil in Hy].
    + destruct c as [|v c' _] using rev_ind; [by intros [? _]|].
      rewrite length_app, Forall_app, StronglySorted_app. cbn [length].
      intros (Hlen & [Hall Hv] & Hle & Hs & _). apply Forall_cons in Hv as [Hv _]. rewrite Forall_forall in Hall.
      exists v. rewrite elem_of_seq. split; [|lia]. exists c'. split; [done|]. apply IH. split_and!; [lia| |done].
      apply Forall_forall. intros d Hd. specialize (Hall _ Hd). specialize (Hle d v Hd (list_elem_of_here _ _)). lia.
Qed.

Lemma combos_NoDup last j lo : NoDup (combos last j lo).
Proof.
  revert lo; induction j as [|j IH]; intros lo; cbn [combos]; [apply NoDup_singleton|].
  apply NoDup_bind.
  - intros v v' c _ _ (c1 & -> & _)%list_elem_of_fmap (c2 & Heq & _)%list_elem_of_fmap.
    by apply app_inj_tail in Heq as [_ ?].
  - intros v _. apply NoDup_fmap_2; [|done]. intros c c'. apply app_inv_tail.
  - apply NoDup_seq.
Qed.

Lemma combinations_count_S n k :
  combinations_count (S n) (S k) = (combinations_count (S n) k + combinations_count n (S k))%nat.
Proof. done. Qed.

Lemma length_combos last j lo : (lo <= S last)%nat -> length (combos last j lo) = combinations_count (S last - lo) j.
Proof.
  revert lo; induction j as [|j IH]; intros lo Hlo; [done|]. cbn [combos].
  remember (S last - lo)%nat as m eqn:Hm. revert lo Hlo Hm. induction m as [|m IHm]; intros lo Hlo Hm; [done|].
  cbn [seq]. rewrite bind_cons, length_app, length_fmap, combinations_count_S, (IHm (S lo)) by lia.
  rewrite IH by lia. by rewrite <- Hm.
Qed.

Lemma fact_simpl n : fact (S n) = (S n * fact n)%nat.
Proof. done. Qed.

Lemma combinations_count_fact n k :
  (combinations_count (S n) k * (fact n * fact k) = fact (n + k))%nat.
Proof.
  revert n; induction k as [|k IHk]; intros n.
  - rewrite Nat.add_0_r. cbn. lia.
  - induction n as [|n IHn].
    + rewrite combinations_count_S. specialize (IHk 0%nat). cbn [fact Nat.add] in IHk |- *.
      replace (combinations_count 0 (S k)) with 0%nat by done. pose proof (lt_O_fact k).
      assert (combinations_count 1 k = 1)%nat as -> by nia. lia.
    + rewrite combinations_count_S. specialize (IHk (S n)).
      replace (S n + S k)%nat with (S (S n + k)) by lia. replace (n + S k)%nat with (S n + k)%nat in IHn by lia.
      rewrite (fact_simpl (S n + k)).
      transitivity (S k * (combinations_count (S (S n)) k * (fact (S n) * fact k)) +
                    S n * (combinations_count (S n) (S k) * (fact n * fact (S k))))%nat.
      * rewrite !(fact_simpl n), !(fact_simpl k). ring.
      * rewrite IHk, IHn. ring.
Qed.

Lemma i64_small z : 0 <= z < 2 ^ 63 -> i64 z = z.
Proof. intros Hz. unfold i64, u64. rewrite Z.mod_small by lia. by rewrite (proj2 (Z.ltb_lt _ _)) by lia. Qed.

Lemma fact_20 n : (n <= 20)%nat -> Z.of_nat (fact n) < 2 ^ 63.
Proof.
  intros Hn. apply Z.le_lt_trans with (Z.of_nat (fact 20)).
  - apply Nat2Z.inj_le. by apply fact_le.
  - replace (fact 20) with (Z.to_nat 2432902008176640000); [lia|].
    apply Nat2Z.inj. rewrite Z2Nat.id by lia. rewrite <- (Nat.mul_1_r (fact 20)).
    do 20 rewrite fact_simpl. cbn [fact]. lia.
Qed.

Lemma factorial_loop_spec m : forall i, (1 <= i)%nat -> (i + m <= 20)%nat ->
  factorial_loop m (Z.of_nat (S i)) (Z.of_nat (fact i)) = Z.of_nat (fact (i + m)).
Proof.
  induction m as [|m IH]; intros i Hi Him; cbn [factorial_loop]; [by rewrite Nat.add_0_r|].
  rewrite <- Nat2Z.inj_mul. replace (fact i * S i)%nat with (fact (S i)) by (rewrite fact_simpl; lia).
  rewrite i64_small by (split; [lia|apply fact_20; lia]).
  replace (Z.of_nat (S i) + 1) with (Z.of_nat (S (S i))) by lia.
  rewrite IH by lia. do 2 f_equal. lia.
Qed.

Lemma factorial_spec n : (n <= 20)%nat -> factorial (Z.of_nat n) = Z.of_nat (fact n).
Proof.
  intros Hn. unfold factorial. destruct n as [|n]; [done|].
  replace (Z.to_nat (Z.of_nat (S n) - 1)) with n by lia. by apply (factorial_loop_spec n 1); lia.
Qed.

Lemma number_of_combinations_spec n k :
  (1 <= n)%nat -> (n + k <= 21)%nat ->
  number_of_combinations_with_repetition (Z.of_nat n) (Z.of_nat k) = Some (Z.of_nat (combinations_count n k)).
Proof.
  intros Hn Hnk. unfold number_of_combinations_with_repetition.
  rewrite (proj2 (Z.ltb_ge _ _)) by lia. destruct n as [|n]; [lia|].
  replace (Z.of_nat (S n) + Z.of_nat k - 1) with (Z.of_nat (n + k)) by lia.
  replace (Z.of_nat (S n) - 1) with (Z.of_nat n) by lia.
  rewrite !factorial_spec by lia. pose proof (combinations_count_fact n k) as Hf.
  pose proof (fact_20 (n + k) ltac:(lia)). pose proof (lt_O_fact n). pose proof (lt_O_fact k).
  pose proof (lt_O_fact (n + k)). assert (0 < combinations_count (S n) k)%nat by nia.
  rewrite i64_small by nia. f_equal. rewrite <- Hf, !Nat2Z.inj_mul, Z.quot_mul by nia. done.
Qed.

(** Reading rows of positions as rows of keys, when positions determine keys. *)
Lemma mapM_rows {T} (g : nat -> option T) (ok : nat -> Prop) (cs : list (list nat)) :
  (forall i j x, ok i -> ok j -> g i = Some x -> g j = Some x -> i = j) ->
  (forall i, ok i -> is_Some (g i)) -> NoDup cs -> (forall c, c ∈ cs -> Forall ok c) ->
  exists rs, mapM (mapM g) cs = Some rs /\ NoDup rs /\ length rs = length cs /\
    forall r, r ∈ rs <-> exists c, c ∈ cs /\ Forall2 (fun i x => g i = Some x) c r.
Proof.
  intros Hinj Hdef Hnd Hok.
  assert (exists rs, mapM (mapM g) cs = Some rs) as [rs Hrs].
  { setoid_rewrite mapM_Some. apply Forall_exists_Forall2_l, Forall_forall. intros c Hc.
    setoid_rewrite mapM_Some. apply Forall_exists_Forall2_l. eapply Forall_impl; [by apply Hok|]. exact Hdef. }
  exists rs. split; [done|]. apply mapM_Some in Hrs.
  assert (Hrow : forall r, r ∈ rs <-> exists c, c ∈ cs /\ Forall2 (fun i x => g i = Some x) c r).
  { intros r. split.
    - intros [i Hi]%list_elem_of_lookup_1. destruct (Forall2_lookup_r _ _ _ _ _ Hrs Hi) as (c & Hc & Heq).
      apply list_elem_of_lookup_2 in Hc. apply mapM_Some in Heq. by exists c.
    - intros (c & [i Hi]%list_elem_of_lookup_1 & Hc). destruct (Forall2_lookup_l _ _ _ _ _ Hrs Hi) as (r' & Hr' & Heq).
      apply list_elem_of_lookup_2 in Hr'. apply mapM_Some in Hc. congruence. }
  split_and!; [|by rewrite (Forall2_length _ _ _ Hrs)|done].
  clear Hrow. induction Hrs as [|c r cs rs Hc Hcs IH]; [constructor|].
  apply NoDup_cons in Hnd as [Hin Hnd]. constructor; [|apply IH; [done|]; intros; apply Hok; by right].
  intros Hr. apply Hin. apply list_elem_of_lookup_1 in Hr as [i Hi].
  destruct (Forall2_lookup_r _ _ _ _ _ Hcs Hi) as (c' & Hc' & Heq). apply list_elem_of_lookup_2 in Hc'.
  replace c with c'; [done|]. apply mapM_Some in Hc, Heq.
  assert (Forall ok c) as Hokc by (apply Hok; by left). assert (Forall ok c') as Hokc' by (apply Hok; by right).
  clear -Hc Heq Hinj Hokc Hokc'. revert c' Heq Hokc'.
  induction Hc as [|a x c r Ha Hc IH]; intros c' Heq Hokc'; inv Heq; [done|].
  apply Forall_cons in Hokc as [? ?], Hokc' as [? ?]. f_equal; [by eapply Hinj|by apply IH].
Qed.

Section CombinationsKeys.
Context {T : Type} `{TotalLt T} (namespaces : list T).
Hypothesis Hinc : increasing namespaces.

Lemma increasing_lookup_lt i j a b :
  namespaces !! i = Some a -> namespaces !! j = Some b -> key_ltb a b = true <-> (i < j)%nat.
Proof.
  assert (Hlt : forall i j a b, namespaces !! i = Some a -> namespaces !! j = Some b -> (i < j)%nat -> key_ltb a b = true).
  { clear i j a b. revert Hinc. generalize namespaces as s. unfold increasing. induction 1 as [|x s Hs IH Hx]; intros i j a b Hi Hj Hij.
    { by rewrite lookup_nil in Hi. }
    destruct i as [|i], j as [|j]; simpl in *; try lia.
    - injection Hi as ->. apply list_elem_of_lookup_2 in Hj. rewrite Forall_forall in Hx. by apply Hx.
    - eapply IH; eauto; lia. }
  intros Hi Hj. split; [|by eapply Hlt]. intros Hab. destruct (decide (i < j)%nat) as [|Hn]; [done|].
  destruct (decide (i = j)) as [->|]; [replace b with a in * by congruence; by rewrite key_irrefl in Hab|].
  rewrite (key_asym b a) in Hab; [done|]. eapply Hlt; eauto; lia.
Qed.

(** Nonincreasing positions are nonincreasing keys. *)
Lemma nonincreasing_keys c r :
  Forall2 (fun i x => namespaces !! i = Some x) c r ->
  StronglySorted (fun a b => b <= a)%nat c <-> StronglySorted (fun a b => key_ltb a b = false) r.
Proof.
  induction 1 as [|i x c r Hi Hcr IH]; [split; constructor|].
  rewrite !StronglySorted_cons, IH. apply and_iff_compat_r. clear IH.
  induction Hcr as [|j y c r Hj _ IH]; [split; constructor|]. rewrite !Forall_cons, IH. apply and_iff_compat_r.
  pose proof (increasing_lookup_lt i j x y Hi Hj) as Hlt. rewrite <- not_true_iff_false, Hlt. lia.
Qed.

Lemma generate_combinations_mapM k :
  namespaces <> [] -> Z.of_nat (length namespaces) < 2 ^ 64 ->
  generate_namespace_combinations_with_repetition namespaces k =
  mapM (mapM (fun i => namespaces !! i)) (combos (length namespaces - 1) k 0).
Proof.
  intros Hne Hlen. set (last := (length namespaces - 1)%nat).
  assert (Hl : length namespaces = S last) by (subst last; destruct namespaces; [done|simpl; lia]).
  unfold generate_namespace_combinations_with_repetition. rewrite Hl.
  replace (u64 (Z.of_nat (S last) - 1)) with (Z.of_nat last) by (unfold u64; rewrite Z.mod_small; lia).
  rewrite loop_at_0. replace (combinations_count (S last) k) with (length (combos last k 0)) by (by rewrite length_combos by lia).
  rewrite <- Nat.add_1_r, replicate_S_end. rewrite exhaust; [|lia|simpl; lia|by repeat constructor; lia|by rewrite Nat.sub_diag].
  replace (loop_at namespaces last k 1 k (replicate k 1%nat ++ [1%nat])) with (Some (@nil (list T))).
  - assert (mapM (fun c => indices_to_values_ignore_last_index c namespaces) ((fun c => c ++ [0%nat]) <$> combos last k 0) =
      mapM (mapM (fun i => namespaces !! i)) (combos last k 0)) as ->.
    + induction (combos last k 0) as [|c cs IH]; [done|]. rewrite fmap_cons. cbn [mapM]. rewrite IH.
      unfold indices_to_values_ignore_last_index. rewrite length_app. cbn [length].
      replace (length c + 1 - 1)%nat with (length c) by lia. by rewrite take_app_length.
    + destruct (mapM _ _); cbn [mbind option_bind]; [|done]. by rewrite app_nil_r.
  - unfold loop_at. rewrite Nat.sub_diag. cbn [carry_indices].
    rewrite app_nth2 by (rewrite length_replicate; lia). by rewrite length_replicate, Nat.sub_diag.
Qed.

Lemma generate_combinations_spec k :
  namespaces <> [] -> Z.of_nat (length namespaces) < 2 ^ 64 ->
  exists rs, generate_namespace_combinations_with_repetition namespaces k = Some rs /\
    NoDup rs /\ length rs = combinations_count (length namespaces) k /\
    forall r, r ∈ rs <-> length r = k /\ Forall (fun x => x ∈ namespaces) r /\ StronglySorted (fun a b => key_ltb a b = false) r.
Proof.
  intros Hne Hlen. rewrite generate_combinations_mapM by done. set (last := (length namespaces - 1)%nat).
  assert (Hl : length namespaces = S last) by (subst last; destruct namespaces; [done|simpl; lia]).
  destruct (mapM_rows (fun i => namespaces !! i) (fun i => i <= last)%nat (combos last k 0)) as (rs & Hrs & Hnd & Hrl & Hin).
  - intros i j x _ _ Hi Hj. eapply NoDup_lookup; eauto using increasing_NoDup.
  - intros i Hi. apply lookup_lt_is_Some_2. lia.
  - apply combos_NoDup.
  - intros c (_ & Hall & _)%elem_of_combos. eapply Forall_impl; [exact Hall|]. simpl. lia.
  - exists rs. split; [done|]. split; [done|].
    split; [rewrite Hrl, length_combos by lia; by rewrite Hl, Nat.sub_0_r|].
    intros r. rewrite Hin. setoid_rewrite elem_of_combos. split.
    + intros (c & (Hcl & _ & Hs) & Heq). split_and!.
      * by rewrite <- (Forall2_length _ _ _ Heq).
      * clear -Heq. induction Heq; constructor; [by eapply list_elem_of_lookup_2|done].
      * by apply (nonincreasing_keys c r Heq).
    + intros (Hr & Hall & Hs).
      assert (exists c, Forall2 (fun i x => namespaces !! i = Some x) c r) as [c Hc].
      { apply Forall_exists_Forall2_r. eapply Forall_impl; [exact Hall|]. intros x Hx. by apply list_elem_of_lookup_1. }
      exists c. split; [|done]. split_and!.
      * by rewrite (Forall2_length _ _ _ Hc).
      * clear -Hc Hl. induction Hc as [|i x c r Hi _ IH]; constructor; [|done]. apply lookup_lt_Some in Hi. lia.
      * by apply (nonincreasing_keys c r Hc).
Qed.
End CombinationsKeys.

(** ** Permutations *)

Fixpoint perms (n j : nat) : list (list nat) :=
  match j with O => [[]] | S j => v ← seq 1 n; cons v <$> perms n j end.

Section PermutationsCorrect.
Context {T : Type} (namespaces : list T) (n k : nat).
Hypothesis Hn : (1 <= n)%nat.
#[local] Abbreviation itv := (fun c => indices_to_values_one_based c namespaces).
#[local] Abbreviation loop := (fun fuel => permutations_loop fuel n k namespaces).

Lemma perms_head j : perms n j = replicate j 1%nat :: tail (perms n j).
Proof.
  induction j as [|j IH]; [done|]. cbn [perms]. destruct n as [|m]; [lia|]. cbn [seq].
  rewrite bind_cons, IH. done.
Qed.

(** Where the machine goes when the positions after the prefix [P] are exhausted. *)
Definition back (fuel : nat) (P : list nat) (j : nat) : option (list (list T)) :=
  if (length P =? 0)%nat then Some [] else loop fuel (P ++ replicate j n) (length P).

(** One iteration at the last position of [P ++ [v]]: the next value is tried. *)
Lemma loop_next P v j fuel :
  (v < n)%nat -> k = (S (length P) + j)%nat ->
  loop (S fuel) (P ++ v :: replicate j n) (S (length P)) =
  (r ← itv (P ++ S v :: replicate j 1%nat);
   rs ← loop fuel (P ++ S v :: replicate j 1%nat) k; Some (r :: rs)).
Proof.
  intros Hv Hk. cbn [permutations_loop Nat.sub]. rewrite Nat.sub_0_r, nth_middle.
  rewrite (proj2 (Nat.eqb_neq _ _)) by lia. rewrite insert_app_r_alt by lia. rewrite Nat.sub_diag. cbn [list_insert insert].
  rewrite take_app_ge by lia. replace (S (length P) - length P)%nat with 1%nat by lia. cbn [take].
  rewrite take_0. replace (k - S (length P))%nat with j by lia. rewrite <- app_assoc. done.
Qed.

Lemma loop_back P j fuel :
  k = (S (length P) + j)%nat ->
  loop (S fuel) (P ++ n :: replicate j n) (S (length P)) = back fuel P (S j).
Proof.
  intros Hk. cbn [permutations_loop Nat.sub]. rewrite Nat.sub_0_r, nth_middle, Nat.eqb_refl. done.
Qed.

Lemma exhaust_tail j : forall (P : list nat) (fuel : nat),
  (1 <= k)%nat -> k = (length P + j)%nat ->
  loop (permutations_steps n j + fuel)%nat (P ++ replicate j 1%nat) k =
  (rs1 ← mapM itv ((fun c => P ++ c) <$> tail (perms n j));
   rs2 ← back fuel P j; Some (rs1 ++ rs2)).
Proof.
  induction j as [|j IH]; intros P fuel Hk1 Hk.
  - cbn [permutations_steps perms tail fmap list_fmap mapM mbind option_bind replicate Nat.add]. unfold back.
    rewrite (proj2 (Nat.eqb_neq _ _)) by lia. rewrite Hk, Nat.add_0_r. cbn [replicate].
    by destruct (permutations_loop _ _ _ _ _ _).
  - (* the machine sits at value [v] of the position after [P], with [m] values to go *)
    assert (Hrow : forall m v fuel, (v + m)%nat = n -> (1 <= v)%nat ->
      loop (S m * S (permutations_steps n j) + fuel)%nat (P ++ v :: replicate j 1%nat) k =
      (rs1 ← mapM itv ((fun c => P ++ v :: c) <$> tail (perms n j));
       rs2 ← mapM itv (w ← seq (S v) m; (fun c => P ++ w :: c) <$> perms n j);
       rs3 ← back fuel P (S j); Some (rs1 ++ rs2 ++ rs3))).
    { clear fuel. induction m as [|m IHm]; intros v fuel Hv Hv1.
      - replace (1 * S (permutations_steps n j) + fuel)%nat with (permutations_steps n j + S fuel)%nat by lia.
        rewrite cons_middle, app_assoc, (IH (P ++ [v])) by (try rewrite length_app; simpl; lia).
        setoid_rewrite <- app_assoc. cbn [app]. destruct (mapM _ _); [|done]. cbn [mbind option_bind seq list_bind mapM].
        unfold back at 1. rewrite length_app, Nat.add_comm. cbn [length Nat.add Nat.eqb]. rewrite <- app_assoc. cbn [app].
        replace v with n by lia. rewrite loop_back by lia. done.
      - replace (S (S m) * S (permutations_steps n j) + fuel)%nat
          with (permutations_steps n j + S (S m * S (permutations_steps n j) + fuel))%nat by lia.
        rewrite cons_middle, app_assoc, (IH (P ++ [v])) by (try rewrite length_app; simpl; lia).
        setoid_rewrite <- app_assoc. cbn [app]. destruct (mapM _ _); [|done]. cbn [mbind option_bind seq].
        unfold back at 1. rewrite length_app, Nat.add_comm. cbn [length Nat.add Nat.eqb]. rewrite <- app_assoc. cbn [app].
        rewrite loop_next by lia. rewrite bind_cons, (perms_head j) at 1. rewrite fmap_cons, mapM_app_Some. cbn [mapM].
        destruct (itv (P ++ S v :: replicate j 1%nat)); [|done]. cbn [mbind option_bind].
        rewrite (IHm (S v) fuel) by lia. destruct (mapM _ (_ <$> tail _)); [|done]. cbn [mbind option_bind].
        destruct (mapM _ (_ ≫= _)); [|done]. cbn [mbind option_bind].
        destruct (back fuel P (S j)); [|done]. cbn [mbind option_bind].
        cbn [mret option_ret mbind option_bind app].
        by rewrite <- (app_assoc l1). }
    cbn [permutations_steps]. replace n with (S (n - 1)) at 1 by lia. cbn [replicate].
    rewrite (Hrow (n - 1)%nat 1%nat fuel) by lia. cbn [perms].
    replace (seq 1 n) with (1%nat :: seq 2 (n - 1)) by (replace n with (S (n - 1)) at 2 by lia; done).
    rewrite bind_cons.
    replace (cons 1%nat <$> perms n j) with (cons 1%nat <$> replicate j 1%nat :: tail (perms n j)) by (by rewrite <- perms_head).
    rewrite fmap_cons. cbn [app tail]. rewrite fmap_app, mapM_app_Some.
    rewrite <- list_fmap_compose. unfold compose. destruct (mapM _ (_ <$> tail _)); [|done]. cbn [mbind option_bind].
    assert (forall l : list nat, (fun c => P ++ c) <$> (v ← l; cons v <$> perms n j) = (w ← l; (fun c => P ++ w :: c) <$> perms n j)) as ->.
    { intros ws. induction ws as [|w ws IHl]; [done|]. rewrite !bind_cons, fmap_app, IHl, <- list_fmap_compose. done. }
    destruct (mapM _ (_ ≫= _)); [|done]. cbn [mbind option_bind].
    destruct (back fuel P (S j)); [|done]. cbn [mbind option_bind]. by rewrite app_assoc.
Qed.
End PermutationsCorrect.

Lemma elem_of_perms n j c : c ∈ perms n j <-> length c = j /\ Forall (fun d => 1 <= d <= n)%nat c.
Proof.
  revert c; induction j as [|j IH]; intros c; cbn [perms].
  - rewrite list_elem_of_singleton. split; [by intros ->|]. intros [Hl _]. by apply nil_length_inv.
  - rewrite list_elem_of_bind. setoid_rewrite list_elem_of_fmap. setoid_rewrite IH. setoid_rewrite elem_of_seq. split.
    + intros (v & (c' & -> & Hl & Hall) & Hv). split; [simpl; lia|]. constructor; [lia|done].
    + destruct c as [|v c]; intros [Hl Hall]; [done|]. apply Forall_cons in Hall as [Hv Hall]. cbn in Hl.
      exists v. split; [|lia]. exists c. split_and!; [done|lia|done].
Qed.

Lemma perms_NoDup n j : NoDup (perms n j).
Proof.
  induction j as [|j IH]; cbn [perms]; [apply NoDup_singleton|]. apply NoDup_bind.
  - intros v v' c _ _ (c1 & -> & _)%list_elem_of_fmap (c2 & Heq & _)%list_elem_of_fmap. congruence.
  - intros v _. apply NoDup_fmap_2; [|done]. intros c c' [=]. done.
  - apply NoDup_seq.
Qed.

Lemma length_perms n j : length (perms n j) = (n ^ j)%nat.
Proof.
  induction j as [|j IH]; [done|]. cbn [perms Nat.pow]. rewrite <- IH.
  rewrite <- (length_seq n 1) at 2. generalize (seq 1 n) as l.
  induction l as [|v l IHl]; [done|]. rewrite bind_cons, length_app, length_fmap, IHl. simpl. lia.
Qed.

Lemma generate_permutations_spec {T} (namespaces : list T) k :
  NoDup namespaces -> namespaces <> [] -> (1 <= k)%nat ->
  exists rs, generate_namespace_permutations_with_repetition namespaces k = Some rs /\
    NoDup rs /\ length rs = (length namespaces ^ k)%nat /\
    forall r, r ∈ rs <-> length r = k /\ Forall (fun x => x ∈ namespaces) r.
Proof.
  intros Hnd Hne Hk. set (n := length namespaces).
  assert (Hn : (1 <= n)%nat) by (subst n; destruct namespaces; [done|simpl; lia]).
  assert (Hgen : generate_namespace_permutations_with_repetition namespaces k =
                 mapM (mapM (fun i => namespaces !! (i - 1)%nat)) (perms n k)).
  { unfold generate_namespace_permutations_with_repetition. fold n. cbn [permutations_loop].
    rewrite app_nth2 by (rewrite length_replicate; lia). rewrite length_replicate, Nat.sub_diag. cbn [nth].
    rewrite (proj2 (Nat.eqb_neq _ _)) by lia.
    rewrite insert_app_r_alt by (rewrite length_replicate; lia). rewrite length_replicate, Nat.sub_diag.
    cbn [list_insert insert]. rewrite Nat.sub_diag. cbn [replicate]. rewrite app_nil_r, <- replicate_S_end.
    replace (S (k - 1)) with k by lia. rewrite take_ge by (rewrite length_replicate; lia).
    pose proof (exhaust_tail namespaces n k Hn k [] 0 Hk eq_refl) as He. cbn [app] in He. rewrite Nat.add_0_r in He.
    rewrite He. rewrite (perms_head n Hn k). cbn [tail mapM]. unfold back. cbn [length Nat.eqb].
    unfold indices_to_values_one_based. rewrite list_fmap_id.
    destruct (mapM _ (replicate k 1%nat)); [|done]. cbn [mbind option_bind].
    destruct (mapM _ (tail _)); [|done]. cbn [mbind option_bind]. by rewrite app_nil_r. }
  rewrite Hgen.
  destruct (mapM_rows (fun i => namespaces !! (i - 1)%nat) (fun i => 1 <= i <= n)%nat (perms n k)) as (rs & Hrs & Hrnd & Hrl & Hin).
  - intros i j x Hi Hj Hx Hy. pose proof (NoDup_lookup _ _ _ _ Hnd Hx Hy). lia.
  - intros i Hi. apply lookup_lt_is_Some_2. fold n. lia.
  - apply perms_NoDup.
  - intros c (_ & Hall)%elem_of_perms. done.
  - exists rs. split; [done|]. split; [done|]. split; [by rewrite Hrl, length_perms|].
    intros r. rewrite Hin. setoid_rewrite elem_of_perms. split.
    + intros (c & (Hcl & _) & Heq). split; [by rewrite <- (Forall2_length _ _ _ Heq)|].
      clear -Heq. induction Heq; constructor; [by eapply list_elem_of_lookup_2|done].
    + intros (Hr & Hall).
      assert (exists c, Forall2 (fun i x => (1 <= i <= n)%nat /\ namespaces !! (i - 1)%nat = Some x) c r) as [c Hc].
      { apply Forall_exists_Forall2_r. eapply Forall_impl; [exact Hall|]. intros x [i Hi]%list_elem_of_lookup_1.
        exists (S i). cbn. rewrite Nat.sub_0_r. split; [|done]. apply lookup_lt_Some in Hi. fold n in Hi. lia. }
      exists c. split_and!; [by rewrite (Forall2_length _ _ _ Hc)| |].
      * clear -Hc. induction Hc as [|????[? ?] _ IH]; by constructor.
      * eapply Forall2_impl; [exact Hc|]. by intros ?? [_ ?].
Qed.

(** ** Duplicate interactions *)

Section FilterCorrect.
Context {T : Type} `{TotalLt T}.
#[local] Abbreviation key := sorted_interaction.

Lemma list_ltb_irrefl (l : list T) : list_ltb l l = false.
Proof. apply (key_irrefl (TotalLt := total_list)). Qed.

Lemma list_eqb_eq (a b : list T) : list_eqb a b = true <-> a = b.
Proof.
  unfold list_eqb. rewrite andb_true_iff, !negb_true_iff. split.
  - intros [Hab Hba]. by apply (key_total (TotalLt := total_list)).
  - intros ->. split; apply (key_irrefl (TotalLt := total_list)).
Qed.

Lemma sorted_perm_eq (l k : list T) : sorted_by key_ltb l -> sorted_by key_ltb k -> l ≡ₚ k -> l = k.
Proof.
  apply (StronglySorted_unique_strong (fun a b => key_ltb b a = false)).
  intros x1 x2 _ _ H1 H2. by apply key_total.
Qed.

Lemma strict_weak_key_ltb : strict_weak (key_ltb (T := T)).
Proof. apply (strict_weak_key id). Qed.

(** The sorted vectors are equal when the interactions are the same up to order. *)
Lemma key_perm (v w : list T) : key v = key w <-> v ≡ₚ w.
Proof.
  unfold sorted_interaction. split.
  - intros Heq. by rewrite <- (stable_sort_perm key_ltb v), Heq, stable_sort_perm.
  - intros Hp. apply sorted_perm_eq; [by apply stable_sort_sorted, strict_weak_key_ltb..|].
    by rewrite !stable_sort_perm.
Qed.

#[local] Abbreviation lt1 := (fun a b : list T * nat => list_ltb a.1 b.1).
#[local] Abbreviation lt2 := (fun a b : list T * nat => (a.2 <? b.2)%nat).

(** By vector, then by original position. *)
Definition lex (a b : list T * nat) : Prop := list_ltb a.1 b.1 = true \/ (a.1 = b.1 /\ (a.2 < b.2)%nat).

Lemma lex_trans a b c : lex a b -> lex b c -> lex a c.
Proof.
  unfold lex. intros [Hab|[Hab Hi]] [Hbc|[Hbc Hj]].
  - left. by apply (key_trans (TotalLt := total_list)) with b.1.
  - left. by rewrite <- Hbc.
  - left. by rewrite Hab.
  - right. split; [congruence|lia].
Qed.

Lemma stable_insert_lex a l :
  StronglySorted lex l -> Forall (fun b => a.2 < b.2)%nat l -> StronglySorted lex (stable_insert lt1 a l).
Proof.
  induction 1 as [|b l Hl IH Hb]; intros Ha; cbn [stable_insert]; [repeat constructor|].
  apply Forall_cons in Ha as [Hab Ha]. case_if.
  - constructor; [by apply IH|]. rewrite stable_insert_perm. constructor; [by left|done].
  - constructor; [by constructor|].
    assert (lex a b) as Hlex.
    { destruct (key_cases (H := total_list) a.1 b.1) as [Hlt|[Heq|Hlt]]; [by left|by right|].
      cbn in Hlt. congruence. }
    constructor; [done|]. eapply Forall_impl; [exact Hb|]. intros c. by apply lex_trans.
Qed.

Lemma stable_sort_lex l :
  StronglySorted (fun a b => a.2 < b.2)%nat l -> StronglySorted lex (stable_sort lt1 l).
Proof.
  induction 1 as [|a l _ IH Ha]; cbn [stable_sort]; [constructor|].
  apply stable_insert_lex; [done|]. by rewrite stable_sort_perm.
Qed.

Lemma elem_of_unique_from last l p :
  StronglySorted lex (last :: l) ->
  p ∈ unique_from (fun a b => list_eqb a.1 b.1) last l <->
  p ∈ l /\ p.1 <> last.1 /\ forall q, q ∈ l -> q.1 = p.1 -> (p.2 <= q.2)%nat.
Proof.
  revert last; induction l as [|a l IH]; intros last Hs; cbn [unique_from].
  { rewrite elem_of_nil. naive_solver. }
  apply StronglySorted_cons in Hs as [Hlast Hs]. pose proof Hs as [Ha Hl]%StronglySorted_cons.
  apply Forall_cons in Hlast as [Hla Hlast]. rewrite Forall_forall in Ha, Hlast. case_if.
  - apply list_eqb_eq in E. rewrite IH by (by apply StronglySorted_cons; rewrite Forall_forall).
    rewrite elem_of_cons. split.
    + intros (Hp & Hne & Hmin). split_and!; [by right|done|]. intros q [->|Hq]%elem_of_cons Heq; [congruence|auto].
    + intros ([->|Hp] & Hne & Hmin); [congruence|]. split_and!; [done|done|]. intros q Hq. apply Hmin. by right.
  - assert (last.1 <> a.1) as Hne' by (rewrite <- list_eqb_eq, E; done).
    rewrite elem_of_cons, IH by done. split.
    + intros [->|(Hp & Hne & Hmin)].
      * split_and!; [by left|congruence|]. intros q [->|Hq]%elem_of_cons Heq; [lia|].
        destruct (Ha _ Hq) as [Hlt|[_ ?]]; [|lia]. rewrite Heq in Hlt.
        by rewrite list_ltb_irrefl in Hlt.
      * split_and!; [by right| |].
        { intros Heq. destruct Hla as [Hlt|[? _]]; [|done]. destruct (Ha _ Hp) as [Hlt'|[Heq' _]]; [|congruence].
          rewrite Heq in Hlt'. pose proof (key_asym (H := total_list) _ _ Hlt). cbn in *. congruence. }
        intros q [->|Hq]%elem_of_cons Heq; [congruence|auto].
    + intros ([->|Hp]%elem_of_cons & Hne & Hmin); [by left|]. right. destruct (list_eqb p.1 a.1) eqn:Epa.
      * apply list_eqb_eq in Epa. specialize (Hmin a (list_elem_of_here _ _) (eq_sym Epa)).
        destruct (Ha _ Hp) as [Hlt|[_ ?]]; [|lia]. rewrite Epa in Hlt.
        by rewrite list_ltb_irrefl in Hlt.
      * split_and!; [done|by rewrite <- list_eqb_eq, Epa|]. intros q Hq. apply Hmin. by right.
Qed.

(** [std::unique] keeps the first occurrence of each vector. *)
Lemma elem_of_std_unique l p :
  StronglySorted lex l ->
  p ∈ std_unique (fun a b => list_eqb a.1 b.1) l <->
  p ∈ l /\ forall q, q ∈ l -> q.1 = p.1 -> (p.2 <= q.2)%nat.
Proof.
  destruct l as [|a l]; intros Hs; cbn [std_unique]; [rewrite elem_of_nil; naive_solver|].
  rewrite elem_of_cons, elem_of_unique_from by done. apply StronglySorted_cons in Hs as [Ha Hl].
  rewrite Forall_forall in Ha. split.
  - intros [->|(Hp & Hne & Hmin)].
    + split; [by left|]. intros q [->|Hq]%elem_of_cons Heq; [lia|].
      destruct (Ha _ Hq) as [Hlt|[_ ?]]; [|lia]. rewrite Heq in Hlt.
      by rewrite list_ltb_irrefl in Hlt.
    + split; [by right|]. intros q [->|Hq]%elem_of_cons Heq; [congruence|auto].
  - intros ([->|Hp]%elem_of_cons & Hmin); [by left|]. destruct (list_eqb p.1 a.1) eqn:Epa.
    + apply list_eqb_eq in Epa. specialize (Hmin a (list_elem_of_here _ _) (eq_sym Epa)).
      destruct (Ha _ Hp) as [Hlt|[_ ?]]; [|lia]. rewrite Epa in Hlt.
      by rewrite list_ltb_irrefl in Hlt.
    + right. split_and!; [done|by rewrite <- list_eqb_eq, Epa|]. intros q Hq. apply Hmin. by right.
Qed.

Lemma unique_from_sublist last l : unique_from (fun a b : list T * nat => list_eqb a.1 b.1) last l `sublist_of` l.
Proof.
  revert last; induction l as [|a l IH]; intros last; cbn [unique_from]; [done|].
  case_if; [by apply sublist_cons|by apply sublist_skip].
Qed.
Lemma std_unique_sublist l : std_unique (fun a b : list T * nat => list_eqb a.1 b.1) l `sublist_of` l.
Proof. destruct l as [|a l]; [done|]. apply sublist_skip, unique_from_sublist. Qed.

Section Kept.
Context (vec : list (list T)).
#[local] Abbreviation L := (imap (fun i v => (key v, i)) vec).
#[local] Abbreviation M := (stable_sort lt1 L).
#[local] Abbreviation U := (std_unique (fun a b => list_eqb a.1 b.1) M).

Lemma elem_of_L p : p ∈ L <-> exists v, vec !! p.2 = Some v /\ p.1 = key v.
Proof.
  rewrite elem_of_lookup_imap. destruct p as [s i]. cbn. split.
  - intros (j & v & [= -> ->] & Hv). by exists v.
  - intros (v & Hv & ->). by exists i, v.
Qed.

Lemma L_sorted : StronglySorted (fun a b => a.2 < b.2)%nat L.
Proof.
  assert (forall o, StronglySorted (fun a b => a.2 < b.2)%nat (imap (fun i v => (key v, o + i)%nat) vec)) as Hs.
  { induction vec as [|v l IH]; intros o; cbn; [constructor|]. constructor.
    - specialize (IH (S o)). erewrite imap_ext; [exact IH|]. intros i x _. cbn. f_equal. lia.
    - apply Forall_forall. intros p (i & x & -> & _)%elem_of_lookup_imap. cbn. lia. }
  specialize (Hs 0%nat). by erewrite imap_ext; [exact Hs|].
Qed.

Lemma elem_of_M p : p ∈ M <-> p ∈ L.
Proof. by rewrite (stable_sort_perm lt1 L). Qed.

Lemma U_NoDup : NoDup U.*2.
Proof.
  apply NoDup_fmap_2_strong.
  - intros p q Hp Hq Heq.
    assert (p ∈ L /\ q ∈ L) as [(v & Hv & Hpv)%elem_of_L (w & Hw & Hqw)%elem_of_L].
    { rewrite <- !elem_of_M. split; eapply elem_of_submseteq; eauto; apply sublist_submseteq, std_unique_sublist. }
    destruct p as [s i], q as [s' i']. cbn in *. congruence.
  - apply (sublist_NoDup _ M); [|apply std_unique_sublist]. rewrite (stable_sort_perm lt1 L).
    pose proof L_sorted as Hs. induction Hs as [|a l _ IH Ha]; constructor; [|done].
    intros Hin. rewrite Forall_forall in Ha. specialize (Ha _ Hin). lia.
Qed.

Lemma kept_spec :
  let kept := stable_sort lt2 U in
  StronglySorted Nat.lt kept.*2 /\
  forall p, p ∈ kept <-> (exists v, vec !! p.2 = Some v /\ p.1 = key v) /\
    forall j w, vec !! j = Some w -> key w = p.1 -> (p.2 <= j)%nat.
Proof.
  cbn zeta. split.
  -
    assert (strict_weak lt2) as Hsw.
    { split; intros *; rewrite ?Nat.ltb_ge, ?Nat.ltb_lt, ?Nat.ltb_irrefl; lia || done. }
    pose proof (stable_sort_sorted lt2 Hsw U) as Hsort. unfold sorted_by in Hsort.
    assert (NoDup (stable_sort lt2 U).*2) as Hnd by (rewrite (stable_sort_perm lt2 U); apply U_NoDup).
    induction Hsort as [|a l _ IH Ha]; [constructor|]. rewrite fmap_cons in *. apply NoDup_cons in Hnd as [Hni Hnd].
    constructor; [by apply IH|]. apply Forall_forall. intros i Hi.
    rewrite Forall_forall in Ha. pose proof Hi as (q & -> & Hq)%list_elem_of_fmap. specialize (Ha _ Hq).
    apply Nat.ltb_ge in Ha. assert (a.2 <> q.2) by congruence. unfold Nat.lt. lia.
  - intros p. rewrite (stable_sort_perm lt2 U), elem_of_std_unique by apply stable_sort_lex, L_sorted.
    setoid_rewrite elem_of_M. rewrite elem_of_L. apply and_iff_compat_l. split.
    + intros Hmin j w Hj Hw. apply (Hmin (key w, j)); [|done]. apply elem_of_L. by exists w.
    + intros Hmin q (w & Hw & Hqw)%elem_of_L Heq. eapply Hmin; [exact Hw|]. congruence.
Qed.
End Kept.
End FilterCorrect.

(** ** Grouping equal namespaces *)

Section Grouping.
Context {T : Type} `{TotalLt T}.

(** The interaction as the filter leaves it. *)
Definition grouped (v : list T) : list T :=
  if must_be_left_sorted (sorted_interaction v) then sorted_interaction v else v.

Lemma grouped_perm v : grouped v ≡ₚ v.
Proof. unfold grouped. case_if; [apply stable_sort_perm|done]. Qed.

(** Equal namespaces stand next to each other. *)
Definition contiguous (v : list T) : Prop :=
  forall i j k a, (i <= j <= k)%nat -> v !! i = Some a -> v !! k = Some a -> v !! j = Some a.

Lemma sorted_contiguous v : sorted_by key_ltb v -> contiguous v.
Proof.
  intros Hs i j k a Hijk Hi Hk. destruct (lookup_lt_is_Some_2 v j) as [b Hb].
  { apply lookup_lt_Some in Hk. lia. }
  rewrite Hb. f_equal. destruct (decide (i = j)) as [->|]; [congruence|]. destruct (decide (j = k)) as [->|]; [congruence|].
  assert (forall p q x y, (p < q)%nat -> v !! p = Some x -> v !! q = Some y -> key_ltb y x = false) as Hle.
  { clear -Hs. unfold sorted_by in Hs. induction Hs as [|z l _ IH Hz]; intros p q x y Hpq Hp Hq; [done|].
    destruct p, q; simpl in *; try lia.
    - injection Hp as ->. apply list_elem_of_lookup_2 in Hq. rewrite Forall_forall in Hz. by apply Hz.
    - eapply IH; [|done..]. lia. }
  apply key_total; [by apply (Hle i j a b); [lia|..]|by apply (Hle j k b a); [lia|..]].
Qed.

Lemma key_eqb_eq (a b : T) : key_eqb a b = true <-> a = b.
Proof.
  unfold key_eqb. rewrite andb_true_iff, !negb_true_iff. split.
  - intros [Hab Hba]. by apply key_total.
  - intros ->. split; apply key_irrefl.
Qed.

(** Neighbours are all equal ([eq = true]) or all different. *)
Fixpoint neighbours (eq : bool) (a : T) (l : list T) : Prop :=
  match l with [] => True | b :: l' => (if eq then a = b else a <> b) /\ neighbours eq b l' end.

Lemma scan_pairs_false d p a l :
  scan_pairs d p a l = false -> negb (d && p) ->
  (p = false /\ neighbours false a l) \/ (d = false /\ neighbours true a l).
Proof.
  revert d p a; induction l as [|b l IH]; intros d p a Hscan Hdp; cbn [scan_pairs neighbours] in *.
  { destruct d, p; naive_solver. }
  destruct (key_eqb a b) eqn:E.
  - destruct d; [done|]. apply key_eqb_eq in E. destruct (IH _ _ _ Hscan) as [[? _]|[_ Hn]]; try done. right. done.
  - destruct p; [done|]. assert (a <> b) by (rewrite <- key_eqb_eq, E; done).
    destruct (IH true false b Hscan) as [[_ Hn]|[? _]]; try done. left. done.
Qed.

Lemma neighbours_equal a l : neighbours true a l -> Forall (eq a) l.
Proof.
  revert a; induction l as [|b l IH]; intros a; [constructor|]. intros [-> Hn]. constructor; [done|by apply IH].
Qed.

Lemma neighbours_distinct a l : sorted_by key_ltb (a :: l) -> neighbours false a l -> NoDup (a :: l).
Proof.
  unfold sorted_by. revert a; induction l as [|b l IH]; intros a; [intros; apply NoDup_singleton|].
  intros [Ha Hs]%StronglySorted_cons [Hab Hn]. constructor; [|by apply IH].
  apply Forall_cons in Ha as [Hba Ha]. apply StronglySorted_cons in Hs as [Hb _]. rewrite Forall_forall in Ha, Hb.
  intros [->|Hin]%elem_of_cons; [done|]. apply Hab, key_total; [|done]. by apply Hb.
Qed.

Lemma equal_contiguous (a : T) v : Forall (eq a) v -> contiguous v.
Proof.
  intros Hall i j k b Hijk Hi Hk. destruct (lookup_lt_is_Some_2 v j) as [c Hc].
  { apply lookup_lt_Some in Hk. lia. }
  rewrite Forall_lookup in Hall. rewrite Hc. rewrite <- (Hall _ _ Hc), (Hall _ _ Hi). done.
Qed.

Lemma grouped_contiguous v : contiguous (grouped v).
Proof.
  pose proof (stable_sort_sorted key_ltb strict_weak_key_ltb v) as Hs. pose proof (stable_sort_perm key_ltb v) as Hp.
  fold (sorted_interaction v) in Hs, Hp. unfold grouped. destruct (must_be_left_sorted _) eqn:E; [by apply sorted_contiguous|].
  unfold must_be_left_sorted in E. destruct (length _ <=? 1)%nat; [done|]. destruct (sorted_interaction v) as [|a l]; [done|].
  destruct (scan_pairs_false _ _ _ _ E) as [[_ Hn]|[_ Hn]]; [done|..].
  - pose proof (neighbours_distinct _ _ Hs Hn) as Hnd. rewrite Hp in Hnd.
    intros i j k b Hijk Hi Hk. pose proof (NoDup_lookup _ _ _ _ Hnd Hi Hk). by replace j with i by lia.
  - apply (equal_contiguous a). rewrite <- Hp. constructor; [done|]. by apply neighbours_equal.
Qed.

Lemma filter_off vec : f_vec (sort_and_filter_duplicate_interactions vec false) = grouped <$> vec.
Proof.
  unfold sort_and_filter_duplicate_interactions. cbn [f_vec].
  apply list_eq. intros i. rewrite !list_lookup_fmap, list_lookup_imap.
  destruct (vec !! i) as [v|] eqn:Hv; [|done]. cbn. unfold grouped. by rewrite (nth_lookup_Some _ _ _ _ Hv).
Qed.

(** The positions kept. *)
Definition first_positions (vec : list (list T)) (is_ : list nat) : Prop :=
  StronglySorted Nat.lt is_ /\
  forall i, i ∈ is_ <-> exists v, vec !! i = Some v /\ forall j w, vec !! j = Some w -> w ≡ₚ v -> (i <= j)%nat.

Lemma filter_on vec :
  let r := sort_and_filter_duplicate_interactions vec true in
  exists is_, first_positions vec is_ /\ f_vec r = (fun i => grouped (nth i vec [])) <$> is_ /\
    f_removed_cnt r = (length vec - length is_)%nat.
Proof.
  cbn zeta. unfold sort_and_filter_duplicate_interactions. cbn [f_vec f_removed_cnt].
  destruct (kept_spec vec) as [Hsort Hin]. set (kept := stable_sort _ (std_unique _ _)) in *.
  exists kept.*2. split_and!; [split; [done|]| |by rewrite length_fmap].
  - intros i. rewrite list_elem_of_fmap. split.
    + intros (p & -> & ((v & Hv & Hp) & Hmin)%Hin). exists v. split; [done|]. intros j w Hw Hwv.
      eapply Hmin; [exact Hw|]. rewrite Hp. by apply key_perm.
    + intros (v & Hv & Hmin). exists (sorted_interaction v, i). split; [done|]. apply Hin. cbn. split; [by exists v|].
      intros j w Hw Hwv%key_perm. by eapply Hmin.
  - rewrite <- list_fmap_compose. apply list_fmap_ext. intros k p Hk. apply list_elem_of_lookup_2, Hin in Hk as ((v & Hv & Hp) & _).
    unfold compose, grouped. by rewrite (nth_lookup_Some _ _ _ _ Hv), Hp.
Qed.

Lemma filter_no_duplicates vec i j v w :
  let res := f_vec (sort_and_filter_duplicate_interactions vec true) in
  res !! i = Some v -> res !! j = Some w -> v ≡ₚ w -> i = j.
Proof.
  cbn zeta. destruct (filter_on vec) as (is_ & [Hs Hin] & -> & _). rewrite !list_lookup_fmap.
  destruct (is_ !! i) as [a|] eqn:Ha; [|done]. destruct (is_ !! j) as [b|] eqn:Hb; [|done].
  cbn. intros [= <-] [= <-]. rewrite !grouped_perm. intros Hp.
  pose proof Ha as (v & Hv & Hmin)%list_elem_of_lookup_2%Hin. pose proof Hb as (w & Hw & Hmin')%list_elem_of_lookup_2%Hin.
  rewrite (nth_lookup_Some _ _ _ _ Hv), (nth_lookup_Some _ _ _ _ Hw) in Hp.
  assert (a = b) as -> by (apply Nat.le_antisymm; [by eapply Hmin|by eapply Hmin']).
  assert (NoDup is_) as Hnd.
  { clear -Hs. induction Hs as [|x l _ IH Hx]; constructor; [|done]. intros Hin. rewrite Forall_forall in Hx.
    specialize (Hx _ Hin). unfold Nat.lt in Hx. lia. }
  by eapply NoDup_lookup.
Qed.

(** Either way the interactions kept are those of the input, up to order. *)
Lemma filter_members vec b r :
  r ∈ f_vec (sort_and_filter_duplicate_interactions vec b) -> contiguous r /\ exists v, v ∈ vec /\ r ≡ₚ v.
Proof.
  destruct b.
  - destruct (filter_on vec) as (is_ & [_ Hin] & -> & _). intros (i & -> & (v & Hv & _)%Hin)%list_elem_of_fmap.
    rewrite (nth_lookup_Some _ _ _ _ Hv). split; [apply grouped_contiguous|]. exists v.
    split; [by eapply list_elem_of_lookup_2|apply grouped_perm].
  - rewrite filter_off. intros (v & -> & Hv)%list_elem_of_fmap. split; [apply grouped_contiguous|]. exists v.
    split; [done|apply grouped_perm].
Qed.

Lemma filter_complete vec b v :
  v ∈ vec -> exists r, r ∈ f_vec (sort_and_filter_duplicate_interactions vec b) /\ r ≡ₚ v.
Proof.
  intros Hv. destruct b.
  - destruct (filter_on vec) as (is_ & [_ Hin] & -> & _).
    destruct (list_find_elem_of (fun u => list_eqb (sorted_interaction u) (sorted_interaction v) = true) vec v)
      as [[m w] Hfind]; [done|by apply list_eqb_eq|].
    apply list_find_Some in Hfind as (Hm & Hwv & Hmin). apply list_eqb_eq, key_perm in Hwv.
    exists (grouped w). split; [|by rewrite grouped_perm]. apply list_elem_of_fmap. exists m.
    rewrite (nth_lookup_Some _ _ _ _ Hm). split; [done|]. apply Hin. exists w. split; [done|].
    intros j u Hu Huw. destruct (decide (m <= j)%nat) as [|Hj]; [done|]. exfalso.
    apply (Hmin j u Hu); [lia|]. apply list_eqb_eq, key_perm. by rewrite Huw.
  - rewrite filter_off. exists (grouped v). split; [apply list_elem_of_fmap; by exists v|apply grouped_perm].
Qed.
End Grouping.

(** ** The quadratic fast path *)

Section Quadratics.
Context (leave : bool).

Lemma elem_of_quadratics_from a rest s v :
  v ∈ quadratics_from leave a rest s <->
  v ∈ s \/ v = [a; a] \/ exists b, b ∈ rest /\ (v = [a; b] \/ v = [b; b] \/ (leave = true /\ v = [b; a])).
Proof.
  unfold quadratics_from.
  assert (Hfold : forall s, v ∈ foldl (fun s idx2 =>
      let s := set_insert [idx2; idx2] (set_insert [a; idx2] s) in
      if leave then set_insert [idx2; a] s else s) s rest <->
    v ∈ s \/ exists b, b ∈ rest /\ (v = [a; b] \/ v = [b; b] \/ (leave = true /\ v = [b; a]))).
  { induction rest as [|b rest IH]; intros s'; cbn [foldl].
    - setoid_rewrite elem_of_nil. naive_solver.
    - rewrite IH. setoid_rewrite elem_of_cons. destruct leave; rewrite !elem_of_set_insert; naive_solver. }
  rewrite Hfold, elem_of_set_insert. naive_solver.
Qed.

Lemma elem_of_quadratics_loop it v : increasing it -> forall s,
  v ∈ quadratics_loop leave it s <->
  v ∈ s \/ exists a b, a ∈ it /\ b ∈ it /\ v = [a; b] /\ (leave = true \/ (a <= b)%Z).
Proof.
  induction 1 as [|x it Hit IH Hx]; intros s; cbn [quadratics_loop].
  - setoid_rewrite elem_of_nil. naive_solver.
  - rewrite IH, elem_of_quadratics_from. rewrite Forall_forall in Hx. cbn in Hx.
    setoid_rewrite elem_of_cons. split.
    + intros [[Hv|[->|(b & [->|Hb] & Hv)]]|(a & b & Ha & Hb & -> & Hab)]; [by left|right..].
      * exists x, x. split_and!; auto. right. lia.
      * exists x, x. split_and!; auto; [naive_solver|right; lia].
      * specialize (Hx _ Hb). bprop. destruct Hv as [->|[->|[-> ->]]].
        { exists x, b. split_and!; auto. right. lia. }
        { exists b, b. split_and!; auto. right. lia. }
        exists b, x. split_and!; auto.
      * exists a, b. split_and!; auto.
    + intros [Hv|(a & b & [->|Ha] & [->|Hb] & -> & Hab)]; [by left; left|..].
      * left; right; left. done.
      * left; right; right. exists b. split; [by right|]. by left.
      * left; right; right. exists a. split; [by right|]. specialize (Hx _ Ha). bprop.
        destruct Hab as [->|?]; [by right; right|lia].
      * right. by exists a, b.
Qed.

Lemma quadratics_increasing it : forall s, increasing s -> increasing (quadratics_loop leave it s).
Proof.
  induction it as [|x it IH]; intros s Hs; [done|]. cbn [quadratics_loop]. apply IH. unfold quadratics_from.
  generalize (x :: it) as rest. intros rest. assert (increasing (set_insert [x; x] s)) as Hs' by by apply set_insert_increasing.
  revert Hs'. generalize (set_insert [x; x] s) as s'. induction rest as [|b rest IHr]; intros s' Hs'; [done|].
  cbn [foldl]. apply IHr. destruct leave; by repeat apply set_insert_increasing.
Qed.

Lemma expand_quadratics_spec ns v :
  increasing ns ->
  v ∈ expand_quadratics_wildcard_interactions leave ns <->
  exists a b, a ∈ ns /\ b ∈ ns /\ v = [a; b] /\ (leave = true \/ (a <= b)%Z).
Proof.
  intros Hns. unfold expand_quadratics_wildcard_interactions. rewrite elem_of_quadratics_loop by done.
  split; [intros [Hv|Hv]; [by apply elem_of_nil in Hv|exact Hv]|by right].
Qed.
End Quadratics.

(** ** Putting the fixed terms back *)

Section Fill.
Context {T : Type} (isw : T -> bool).

(** [interaction] with its wildcards replaced by [ws], in order. *)
Fixpoint fill (interaction ws : list T) : list T :=
  match interaction with
  | [] => []
  | t :: ts =>
      if isw t then match ws with w :: ws' => w :: fill ts ws' | [] => [] end
      else t :: fill ts ws
  end.

Lemma insert_fixed_fill interaction : forall pre ws,
  length ws = num_wildcards isw interaction ->
  foldl (fun r it => insert_at it.1 it.2 r) (pre ++ ws) (fixed_terms isw (length pre) interaction) =
  pre ++ fill interaction ws.
Proof.
  induction interaction as [|t ts IH]; intros pre ws Hlen; unfold num_wildcards in *; cbn [fixed_terms fill].
  - apply nil_length_inv in Hlen as ->. done.
  - rewrite filter_cons in Hlen. destruct (isw t) eqn:Ht.
    + rewrite decide_True in Hlen by done. destruct ws as [|w ws]; [done|]. cbn [length] in Hlen.
      rewrite !(cons_middle w pre). rewrite !(app_assoc pre [w]).
      rewrite <- (IH (pre ++ [w]) ws) by lia. by rewrite length_app, Nat.add_1_r.
    + rewrite decide_False in Hlen by done. cbn [foldl fst snd]. unfold insert_at at 2.
      rewrite take_app_length, drop_app_length, !(cons_middle t pre), !(app_assoc pre [t]).
      rewrite <- (IH (pre ++ [t]) ws) by done. by rewrite length_app, Nat.add_1_r.
Qed.

Lemma insert_fixed_map interaction result :
  Forall (fun ws => length ws = num_wildcards isw interaction) result ->
  insert_fixed (fixed_terms isw 0 interaction) result = fill interaction <$> result.
Proof.
  intros Hall. unfold insert_fixed.
  assert (forall fixed result, foldl (fun result (it : nat * T) => insert_at it.1 it.2 <$> result) result fixed =
    (fun ws => foldl (fun r it => insert_at it.1 it.2 r) ws fixed) <$> result) as ->.
  { clear. induction fixed as [|it fixed IH]; intros result; cbn [foldl]; [by rewrite list_fmap_id|].
    by rewrite IH, <- list_fmap_compose. }
  apply list_fmap_ext. intros i ws Hws. rewrite Forall_lookup in Hall.
  by apply (insert_fixed_fill interaction [] ws), (Hall i).
Qed.

(** A vector that the interaction stands for: fixed terms as they are, a seen namespace for a wildcard. *)
Definition matches (seen : list T) (interaction r : list T) : Prop :=
  Forall2 (fun t x => if isw t then x ∈ seen else x = t) interaction r.

Lemma matches_fill seen interaction r :
  matches seen interaction r <->
  exists ws, length ws = num_wildcards isw interaction /\ Forall (fun x => x ∈ seen) ws /\ r = fill interaction ws.
Proof.
  unfold matches, num_wildcards. split.
  - induction 1 as [|t x interaction r Ht _ (ws & Hlen & Hall & ->)]; [by exists []|].
    rewrite filter_cons. cbn [fill]. destruct (isw t).
    + rewrite decide_True by done. exists (x :: ws). split_and!; [simpl; lia|by constructor|done].
    + rewrite decide_False by done. exists ws. subst x. done.
  - intros (ws & Hlen & Hall & ->). revert ws Hlen Hall.
    induction interaction as [|t ts IH]; intros ws Hlen Hall; cbn [fill]; [constructor|].
    rewrite filter_cons in Hlen. destruct (isw t) eqn:Ht.
    + rewrite decide_True in Hlen by done. destruct ws as [|w ws]; [done|]. apply Forall_cons in Hall as [? ?].
      constructor; [by rewrite Ht|]. apply IH; [simpl in Hlen; lia|done].
    + rewrite decide_False in Hlen by done. constructor; [by rewrite Ht|]. by apply IH.
Qed.

Lemma fill_perm interaction ws ws' : ws ≡ₚ ws' -> length ws = num_wildcards isw interaction ->
  fill interaction ws ≡ₚ fill interaction ws'.
Proof.
  intros Hp Hlen.
  assert (forall ws, length ws = num_wildcards isw interaction ->
    fill interaction ws ≡ₚ ws ++ filter (fun t => isw t <> true) interaction) as Hfill.
  { clear. unfold num_wildcards. induction interaction as [|t ts IH]; intros ws Hlen; cbn [fill].
    - by apply nil_length_inv in Hlen as ->.
    - rewrite !filter_cons in *. destruct (isw t) eqn:Ht.
      + rewrite decide_True in Hlen by done. rewrite decide_False by naive_solver.
        destruct ws as [|w ws]; [done|]. rewrite IH by (simpl in Hlen; lia). done.
      + rewrite decide_False in Hlen by done. rewrite decide_True by done. rewrite IH by done.
        by rewrite Permutation_middle. }
  rewrite !Hfill; [by rewrite Hp| |done]. by rewrite <- Hp.
Qed.
End Fill.

(** ** Compiling interactions *)

Section CompileCorrect.
Context `{StdSort} (leave : bool).

(** What a generator must provide: rows over the seen terms, all of them up to order. *)
Definition covers {T} (seen : list T) (n : nat) (rows : list (list T)) : Prop :=
  (forall r, r ∈ rows -> length r = n /\ Forall (fun x => x ∈ seen) r) /\
  (forall r, length r = n -> Forall (fun x => x ∈ seen) r ->
    exists r', r' ∈ rows /\ r' ≡ₚ r /\ (leave = true -> r' = r)).

(** Every vector is a permutation of a nonincreasing one. *)
Lemma nonincreasing_arrangement {T} `{TotalLt T} (r : list T) :
  exists r', r' ≡ₚ r /\ StronglySorted (fun a b => key_ltb a b = false) r'.
Proof.
  exists (stable_sort (fun a b => key_ltb b a) r). split; [apply stable_sort_perm|].
  apply (stable_sort_sorted (fun a b => key_ltb b a)). split.
  - intros a. apply key_irrefl.
  - intros a b c Hab Hbc. by eapply key_trans.
  - intros a b c Hab Hbc. by apply (sw_incomp _ strict_weak_key_ltb c b a).
Qed.

Lemma generate_func_covers {T} `{TotalLt T} (seen : list T) n :
  increasing seen -> seen <> [] -> Z.of_nat (length seen) < 2 ^ 64 -> (1 <= n)%nat ->
  exists rows, generate_func leave seen n = Some rows /\ covers seen n rows.
Proof.
  intros Hinc Hne Hlen Hn. unfold generate_func, covers. destruct leave.
  - destruct (generate_permutations_spec seen n) as (rs & -> & _ & _ & Hin); [by apply increasing_NoDup|done|done|].
    exists rs. split; [done|]. split; [by intros r ?%Hin|]. intros r Hr Hall. exists r. split; [by apply Hin|done].
  - destruct (generate_combinations_spec seen Hinc n Hne Hlen) as (rs & -> & _ & _ & Hin).
    exists rs. split; [done|]. split; [by intros r (? & ? & _)%Hin|]. intros r Hr Hall.
    destruct (nonincreasing_arrangement r) as (r' & Hp & Hs). exists r'. split_and!; [|done|done].
    apply Hin. split_and!; [by rewrite Hp|by rewrite Hp|done].
Qed.

Lemma quadratics_cover ns :
  increasing ns -> covers ns 2 (expand_quadratics_wildcard_interactions leave ns).
Proof.
  intros Hns. split.
  - intros r (a & b & Ha & Hb & -> & _)%expand_quadratics_spec; [|done]. by repeat constructor.
  - intros [|a [|b [|? ?]]] Hlen Hall; try done. apply Forall_cons in Hall as [Ha Hall]. apply Forall_cons in Hall as [Hb _].
    destruct (decide (leave = true \/ a <= b)) as [Hab|Hab].
    + exists [a; b]. split_and!; [|done|done]. apply expand_quadratics_spec; [done|]. by exists a, b.
    + exists [b; a]. split_and!; [|constructor|intros ->; naive_solver]. apply expand_quadratics_spec; [done|].
      exists b, a. split_and!; try done. right. lia.
Qed.

(** The compiled rows are the vectors an interaction stands for. *)
Definition compiles {T} (isw : T -> bool) (seen interaction : list T) (rs : list (list T)) : Prop :=
  (forall r, r ∈ rs -> matches isw seen interaction r) /\
  (forall r, matches isw seen interaction r -> exists r', r' ∈ rs /\ r' ≡ₚ r /\ (leave = true -> r' = r)).

Lemma covers_compiles {T} (isw : T -> bool) (seen interaction : list T) rows :
  covers seen (num_wildcards isw interaction) rows ->
  compiles isw seen interaction (insert_fixed (fixed_terms isw 0 interaction) rows).
Proof.
  intros [Hsound Hcomplete]. rewrite insert_fixed_map by (apply Forall_forall; intros r Hr; by apply Hsound). split.
  - intros r (ws & -> & Hws)%list_elem_of_fmap. apply matches_fill. exists ws. split_and!; [by apply Hsound..|done].
  - intros r (ws & Hlen & Hall & ->)%matches_fill. destruct (Hcomplete ws Hlen Hall) as (ws' & Hin & Hp & Heq).
    exists (fill isw interaction ws'). split; [apply list_elem_of_fmap; by exists ws'|].
    split; [apply fill_perm; [done|]; by rewrite Hp|]. intros Hl. by rewrite (Heq Hl).
Qed.
End CompileCorrect.

Section CompileAll.
Context `{StdSort} (leave : bool).

Lemma no_wildcard_matches {T} (isw : T -> bool) seen inter r :
  existsb isw inter = false -> matches isw seen inter r <-> r = inter.
Proof.
  unfold matches. intros Hw. rewrite existsb_none in Hw. split.
  - induction 1 as [|t x inter r Ht _ IH]; [done|]. rewrite Hw in Ht by by left. subst. f_equal.
    apply IH. intros; apply Hw; by right.
  - intros ->. induction inter as [|t inter IH]; constructor; [by rewrite Hw by by left|].
    apply IH. intros; apply Hw; by right.
Qed.

Lemma wildcards_positive {T} (isw : T -> bool) inter : existsb isw inter = true -> (1 <= num_wildcards isw inter)%nat.
Proof.
  unfold num_wildcards. intros (t & Ht%list_elem_of_In & Hw)%existsb_exists.
  assert (t ∈ filter (fun t => isw t = true) inter) as Hin by (by apply list_elem_of_filter).
  destruct (filter _ inter); [by apply elem_of_nil in Hin|simpl; lia].
Qed.

Lemma compile_interaction_compiles inter ns :
  increasing ns -> ns <> [] -> Z.of_nat (length ns) < 2 ^ 64 -> contains_wildcard inter = true ->
  exists rs, compile_interaction leave inter ns = Some rs /\ compiles leave is_wildcard ns inter rs.
Proof.
  intros Hinc Hne Hlen Hw. unfold compile_interaction. case_if; bprop; cbn [mbind option_bind].
  - eexists. split; [done|]. apply covers_compiles. rewrite E. by apply quadratics_cover.
  - destruct (generate_func_covers leave ns (num_wildcards is_wildcard inter)) as (rows & -> & Hc);
      [done..|by apply wildcards_positive|]. eexists. split; [done|]. by apply covers_compiles.
Qed.

Lemma compile_extent_interaction_compiles inter seen :
  increasing seen -> seen <> [] -> Z.of_nat (length seen) < 2 ^ 64 -> existsb is_extent_wildcard inter = true ->
  exists rs, compile_extent_interaction leave inter seen = Some rs /\ compiles leave is_extent_wildcard seen inter rs.
Proof.
  intros Hinc Hne Hlen Hw. unfold compile_extent_interaction.
  destruct (generate_func_covers leave seen (num_wildcards is_extent_wildcard inter)) as (rows & -> & Hc);
    [done..|by apply wildcards_positive|]. eexists. split; [done|]. by apply covers_compiles.
Qed.

(** The interactions compiled from a list of interactions: the vectors they stand for, up to
    order, each with its equal terms side by side. *)
Definition compiled_from {T} (isw : T -> bool) (seen : list T) (inters rs : list (list T)) : Prop :=
  (forall r, r ∈ rs -> contiguous r /\ exists inter r', inter ∈ inters /\ matches isw seen inter r' /\ r ≡ₚ r') /\
  (forall inter r', inter ∈ inters -> matches isw seen inter r' -> exists r, r ∈ rs /\ r ≡ₚ r') /\
  (leave = false -> forall i j v w, rs !! i = Some v -> rs !! j = Some w -> v ≡ₚ w -> i = j).

Lemma compile_all {T} `{TotalLt T} (isw cw : T -> bool) (seen : list T) (compile : list T -> option (list (list T)))
    (arrange : list (list T) -> list (list T)) (inters : list (list T)) :
  (forall l, arrange l ≡ₚ l) ->
  (forall inter, inter ∈ inters -> existsb cw inter = true ->
     exists rs, compile inter = Some rs /\ compiles leave isw seen inter rs) ->
  (forall inter, inter ∈ inters -> existsb cw inter = false -> existsb isw inter = false) ->
  exists compiled,
    mapM (fun inter => if existsb cw inter then compile inter else Some [inter]) inters = Some compiled /\
    compiled_from isw seen inters
      (f_vec (sort_and_filter_duplicate_interactions (arrange (mjoin compiled)) (negb leave))).
Proof.
  intros Harr Hcomp Hplain.
  assert (Hone : forall inter, inter ∈ inters ->
    exists rs, (if existsb cw inter then compile inter else Some [inter]) = Some rs /\ compiles leave isw seen inter rs).
  { intros inter Hin. destruct (existsb cw inter) eqn:E; [by apply Hcomp|]. exists [inter]. split; [done|].
    specialize (Hplain _ Hin E). split.
    - intros r ->%list_elem_of_singleton. by apply no_wildcard_matches.
    - intros r ->%no_wildcard_matches; [|done]. exists inter. split_and!; [by left|done|done]. }
  assert (exists compiled, mapM (fun inter => if existsb cw inter then compile inter else Some [inter]) inters = Some compiled /\
    Forall2 (compiles leave isw seen) inters compiled) as (compiled & Hm & Hc).
  { clear Harr Hcomp Hplain. induction inters as [|inter l IH]; [by exists []|].
    destruct (Hone inter) as (rs & Hrs & Hc); [by left|]. destruct IH as (compiled & Hm & Hcs); [intros; apply Hone; by right|].
    exists (rs :: compiled). split; [|by constructor]. cbn [mapM mbind option_bind]. rewrite Hrs. cbn [mbind option_bind].
    by rewrite Hm. }
  exists compiled. split; [done|].
  assert (Hmem : forall v, v ∈ arrange (mjoin compiled) <-> exists inter rs, inter ∈ inters /\ v ∈ rs /\ compiles leave isw seen inter rs /\ rs ∈ compiled).
  { intros v. rewrite (Harr _), list_elem_of_join. split.
    - intros (rs & Hv & [i Hi]%list_elem_of_lookup_1). destruct (Forall2_lookup_r _ _ _ _ _ Hc Hi) as (inter & Hinter & Hcc).
      exists inter, rs. split_and!; eauto using list_elem_of_lookup_2.
    - intros (inter & rs & _ & Hv & _ & Hin). by exists rs. }
  split_and!.
  - intros r (Hcont & v & Hv & Hrv)%filter_members. split; [done|].
    apply Hmem in Hv as (inter & rs & Hin & Hv & [Hs _] & _). exists inter, v. split_and!; auto.
  - intros inter r' [i Hi]%list_elem_of_lookup_1 Hr'. destruct (Forall2_lookup_l _ _ _ _ _ Hc Hi) as (rs & Hrs & [Hs Hcmp]).
    destruct (Hcmp _ Hr') as (r'' & Hr'' & Hp & _).
    destruct (filter_complete (arrange (mjoin compiled)) (negb leave) r'') as (r & Hr & Hrp).
    + apply Hmem. exists inter, rs. split_and!; eauto using list_elem_of_lookup_2. by split.
    + exists r. split; [done|]. by rewrite Hrp.
  - intros Hl i j v w. rewrite Hl. apply filter_no_duplicates.
Qed.

Lemma compile_interactions_compiled inters ns :
  increasing ns -> ns <> [] -> Z.of_nat (length ns) < 2 ^ 64 ->
  exists rs, compile_interactions leave inters ns = Some rs /\ compiled_from is_wildcard ns inters rs.
Proof.
  intros Hinc Hne Hlen.
  destruct (compile_all is_wildcard is_wildcard ns (fun i => compile_interaction leave i ns)
    (std_sort sort_interactions_comparator) inters) as (compiled & Hm & Hc).
  - intros l. apply std_sort_perm.
  - intros inter _. by apply compile_interaction_compiles.
  - done.
  - eexists. split; [|exact Hc]. unfold compile_interactions, contains_wildcard. by rewrite Hm.
Qed.

(** The wildcard of an extent interaction is written as a pair of wildcards. *)
Definition extent_spec_ok (inters : list (list extent_term)) : Prop :=
  Forall (Forall (fun t => t.1 = WILDCARD_NAMESPACE -> t.2 = WILDCARD_NAMESPACE)) inters.

Lemma compile_extent_interactions_compiled inters seen :
  increasing seen -> seen <> [] -> Z.of_nat (length seen) < 2 ^ 64 -> extent_spec_ok inters ->
  exists rs, compile_extent_interactions leave inters seen = Some rs /\ compiled_from is_extent_wildcard seen inters rs.
Proof.
  intros Hinc Hne Hlen Hok.
  destruct (compile_all is_extent_wildcard
    (fun t => (t.1 =? WILDCARD_NAMESPACE) && (t.2 =? WILDCARD_NAMESPACE)) seen (fun i => compile_extent_interaction leave i seen)
    id inters) as (compiled & Hm & Hc).
  - done.
  - intros inter _ Hw. apply compile_extent_interaction_compiles; [done..|].
    apply existsb_exists in Hw as (t & Ht & Hw). apply existsb_exists. exists t. split; [done|]. by bprop; apply Z.eqb_eq.
  - intros inter Hin Hw. rewrite existsb_none in *. intros t Ht. specialize (Hw t Ht). unfold is_extent_wildcard.
    unfold extent_spec_ok in Hok. rewrite Forall_forall in Hok. specialize (Hok _ Hin). rewrite Forall_forall in Hok.
    specialize (Hok _ Ht). cbn in Hw. destruct (t.1 =? WILDCARD_NAMESPACE) eqn:E; [|done].
    apply Z.eqb_eq in E. rewrite (Hok E) in Hw. done.
  - eexists. split; [|exact Hc]. unfold compile_extent_interactions.
    change (mapM (fun inter => if contains_extent_wildcard inter then compile_extent_interaction leave inter seen else Some [inter]) inters = Some compiled) in Hm.
    by rewrite Hm.
Qed.
End CompileAll.

(** ** The generator *)

Section GeneratorCorrect.
Context `{StdSort} (leave : bool) (inters : list (list Z)).

(** The expansion is the one of all namespaces seen. *)
Definition up_to_date (g : interactions_generator) : Prop :=
  increasing (all_seen_namespaces g) /\ Forall (fun n => 0 <= n < 256) (all_seen_namespaces g) /\
  let ns := filter (fun n => is_interaction_ns n = true) (all_seen_namespaces g) in
  if (0 <? length ns)%nat then compile_interactions leave inters ns = Some (generated_interactions g)
  else generated_interactions g = [].

Lemma bytes_length s : increasing s -> Forall (fun n => 0 <= n < 256) s -> (length s <= 256)%nat.
Proof.
  intros Hs%increasing_NoDup Hb. replace 256%nat with (length (seqZ 0 256)) by done.
  apply submseteq_length, NoDup_submseteq; [done|]. intros x Hx. rewrite Forall_forall in Hb.
  apply elem_of_seqZ. specialize (Hb _ Hx). lia.
Qed.

Lemma update_up_to_date g new :
  up_to_date g -> Forall (fun n => 0 <= n < 256) new ->
  exists g', update_interactions_if_new_namespace_seen leave g inters new = Some g' /\ up_to_date g' /\
    all_seen_namespaces g' = set_insert_all new (all_seen_namespaces g) /\
    store_in_reduction_features g' = store_in_reduction_features g /\
    generated_extent_interactions g' = generated_extent_interactions g /\ all_seen_extents g' = all_seen_extents g.
Proof.
  intros (Hinc & Hb & Hup) Hnew. unfold update_interactions_if_new_namespace_seen. cbv zeta.
  set (seen := set_insert_all new (all_seen_namespaces g)).
  assert (Hseen : increasing seen) by by apply set_insert_all_increasing.
  assert (Hsb : Forall (fun n => 0 <= n < 256) seen).
  { apply Forall_forall. intros n [Hn|Hn]%elem_of_set_insert_all; rewrite Forall_forall in *; auto. }
  case_if.
  - apply Nat.eqb_eq, eq_sym, (proj2 (set_insert_all_length new _ Hinc)) in E. eexists. split; [done|].
    split; [|done]. unfold up_to_date. cbn [all_seen_namespaces generated_interactions].
    split; [done|]. split; [done|]. subst seen. rewrite E. done.
  - set (ns := filter (fun n => is_interaction_ns n = true) seen). case_if.
    + destruct (compile_interactions_compiled leave inters ns) as (rs & Hrs & _).
      * by apply increasing_filter.
      * intros Heq. rewrite Heq in E0. done.
      * apply Z.le_lt_trans with 256; [|done]. assert (length ns <= 256)%nat; [|lia].
        etrans; [apply length_filter|]. by apply bytes_length.
      * rewrite Hrs. cbn [mbind option_bind]. eexists. split; [done|]. split; [|done].
        unfold up_to_date. cbn [all_seen_namespaces generated_interactions]. fold ns. rewrite E0. done.
    + eexists. split; [done|]. split; [|done]. unfold up_to_date. cbn [all_seen_namespaces generated_interactions].
      fold ns. rewrite E0. done.
Qed.

Lemma update_extents_drops {F} g exts indices (fsp : Z -> features F) g' :
  update_extent_interactions_if_new_namespace_seen leave g exts indices fsp = Some g' ->
  increasing (all_seen_extents g) ->
  (exists e, e ∈ new_extents indices fsp /\ e ∉ all_seen_extents g) ->
  generated_interactions g' = [].
Proof.
  unfold update_extent_interactions_if_new_namespace_seen. cbv zeta. intros Hup Hinc (e & He & Hne).
  set (seen := set_insert_all _ _) in *. destruct (length _ =? length seen)%nat eqn:E.
  - apply Nat.eqb_eq, eq_sym, (proj2 (set_insert_all_length _ _ Hinc)) in E. exfalso. apply Hne. rewrite <- E.
    apply elem_of_set_insert_all. by left.
  - destruct (length seen =? 0)%nat; [by injection Hup as <-|].
    destruct (compile_extent_interactions leave exts seen); [|done]. by injection Hup as <-.
Qed.
End GeneratorCorrect.

(** ** The properties *)

(** C33: combinations with repetition: the counting loop terminates and makes every multiset of
    [k] namespaces exactly once, in nonincreasing order; their number is the one
    [number_of_combinations_with_repetition] computes in 64 bits to reserve the vector. *)
Theorem combinations_exact {T : Type} `{TotalLt T} (namespaces : list T) (k : nat) :
  increasing namespaces -> namespaces <> [] -> Z.of_nat (length namespaces) < 2 ^ 64 ->
  exists rs, generate_namespace_combinations_with_repetition namespaces k = Some rs /\ NoDup rs /\
    (forall r, r ∈ rs <-> length r = k /\ Forall (fun x => x ∈ namespaces) r /\
                          StronglySorted (fun a b => key_ltb a b = false) r) /\
    ((length namespaces + k <= 21)%nat ->
     number_of_combinations_with_repetition (Z.of_nat (length namespaces)) (Z.of_nat k) = Some (Z.of_nat (length rs))).
Proof.
  intros Hinc Hne Hlen. destruct (generate_combinations_spec namespaces Hinc k Hne Hlen) as (rs & Hrs & Hnd & Hl & Hin).
  exists rs. split_and!; [done|done|done|]. intros Hk. rewrite Hl. apply number_of_combinations_spec; [|done].
  destruct namespaces; [done|simpl; lia].
Qed.

Lemma combinations_exact_witness :
  exists rs, generate_namespace_combinations_with_repetition [97; 98; 100] 2 = Some rs /\ NoDup rs /\
    (forall r, r ∈ rs <-> length r = 2%nat /\ Forall (fun x => x ∈ [97; 98; 100]) r /\
                          StronglySorted (fun a b => key_ltb a b = false) r) /\
    ((3 + 2 <= 21)%nat -> number_of_combinations_with_repetition 3 2 = Some (Z.of_nat (length rs))).
Proof.
  apply (combinations_exact [97; 98; 100] 2); [repeat constructor|done|done].
Defined.

(** Permutations with repetition: the odometer terminates and makes every vector of [k]
    namespaces exactly once, [n ^ k] in all. *)
Theorem permutations_exact {T : Type} (namespaces : list T) (k : nat) :
  NoDup namespaces -> namespaces <> [] -> (1 <= k)%nat ->
  exists rs, generate_namespace_permutations_with_repetition namespaces k = Some rs /\ NoDup rs /\
    length rs = (length namespaces ^ k)%nat /\
    forall r, r ∈ rs <-> length r = k /\ Forall (fun x => x ∈ namespaces) r.
Proof. apply generate_permutations_spec. Qed.

Lemma permutations_exact_witness :
  exists rs, generate_namespace_permutations_with_repetition [97; 98; 100] 2 = Some rs /\ NoDup rs /\
    length rs = (3 ^ 2)%nat /\ forall r, r ∈ rs <-> length r = 2%nat /\ Forall (fun x => x ∈ [97; 98; 100]) r.
Proof. apply (permutations_exact [97; 98; 100] 2); [by apply (bool_decide_unpack _)|done|lia]. Defined.

(** Filtering duplicates keeps, in the original order, the first interaction of each multiset
    of namespaces and counts the rest; what it keeps is the same interaction up to order,
    with equal namespaces next to each other, as the generation of combinations needs. *)
Theorem filter_duplicates_correct {T : Type} `{TotalLt T} (vec : list (list T)) :
  let r := sort_and_filter_duplicate_interactions vec true in
  exists kept, StronglySorted Nat.lt kept /\
    (forall i, i ∈ kept <-> exists v, vec !! i = Some v /\ forall j w, vec !! j = Some w -> w ≡ₚ v -> (i <= j)%nat) /\
    Forall2 (fun i v' => exists v, vec !! i = Some v /\ v' ≡ₚ v /\ contiguous v') kept (f_vec r) /\
    f_removed_cnt r = (length vec - length kept)%nat.
Proof.
  cbn zeta. destruct (filter_on vec) as (kept & [Hs Hin] & -> & ->). exists kept. split_and!; [done|done| |done].
  apply Forall2_fmap_r, Forall_Forall2_diag, Forall_forall. intros i Hi.
  pose proof (proj1 (Hin i) Hi) as (v & Hv & _). exists v. rewrite (nth_lookup_Some _ _ _ _ Hv).
  split_and!; [done|apply grouped_perm|apply grouped_contiguous].
Qed.

(** C27: compiling the interactions over the namespaces seen yields, up to order, exactly the
    vectors the interactions stand for (a seen namespace for each wildcard, every other
    term as written, at its place); without [--leave_duplicate_interactions] no two results are
    the same up to order; equal namespaces stand together. *)
Theorem compile_interactions_correct `{StdSort} (leave : bool) (inters : list (list Z)) (ns : list Z) :
  increasing ns -> ns <> [] -> Z.of_nat (length ns) < 2 ^ 64 ->
  exists rs, compile_interactions leave inters ns = Some rs /\
    (forall r, r ∈ rs -> contiguous r /\ exists inter r', inter ∈ inters /\ matches is_wildcard ns inter r' /\ r ≡ₚ r') /\
    (forall inter r', inter ∈ inters -> matches is_wildcard ns inter r' -> exists r, r ∈ rs /\ r ≡ₚ r') /\
    (leave = false -> forall i j v w, rs !! i = Some v -> rs !! j = Some w -> v ≡ₚ w -> i = j).
Proof. apply compile_interactions_compiled. Qed.

Lemma compile_interactions_correct_witness :
  exists rs, compile_interactions (H := std_sort_stable) false [[58; 58]; [97; 58; 58; 58]; [98; 97]] [97; 98] = Some rs /\
    (forall r, r ∈ rs -> contiguous r /\ exists inter r', inter ∈ [[58; 58]; [97; 58; 58; 58]; [98; 97]] /\
       matches is_wildcard [97; 98] inter r' /\ r ≡ₚ r') /\
    (forall inter r', inter ∈ [[58; 58]; [97; 58; 58; 58]; [98; 97]] -> matches is_wildcard [97; 98] inter r' ->
       exists r, r ∈ rs /\ r ≡ₚ r') /\
    (false = false -> forall i j v w, rs !! i = Some v -> rs !! j = Some w -> v ≡ₚ w -> i = j).
Proof.
  apply (compile_interactions_correct (H := std_sort_stable) false); [repeat constructor|done|done].
Defined.

(** The reduction keeps the expansion up to date with every namespace seen so far, runs the base
    on the example with that expansion installed, and gives the example its own interactions
    back, whatever the base does to it. *)
Theorem transform_single_ex_correct `{StdSort} {F B : Type} (leave : bool) (inters : list (list Z))
    (base : interactions_generator -> example F -> B -> example F * B) (g : interactions_generator) (ec : example F) (b : B) :
  up_to_date leave inters g -> interactions ec = Own inters -> Forall (fun n => 0 <= n < 256) (ex_indices ec) ->
  exists g', up_to_date leave inters g' /\
    (forall n, n ∈ all_seen_namespaces g' <-> n ∈ ex_indices ec \/ n ∈ all_seen_namespaces g) /\
    let ec0 := set_las (store_in_reduction_features g) false (set_interactions Generated ec) in
    deref_interactions g' (interactions ec0) = generated_interactions g' /\
    transform_single_ex leave base g ec b =
      Some (g', set_interactions (Own inters) (base g' ec0 b).1, (base g' ec0 b).2).
Proof.
  intros Hup Hec Hb. destruct (update_up_to_date leave inters g (ex_indices ec) Hup Hb) as (g' & Hg' & Hup' & Hseen & Hstore & _).
  exists g'. split; [done|]. split; [intros n; rewrite Hseen; apply elem_of_set_insert_all|]. cbv zeta. split.
  - unfold set_las. by destruct (store_in_reduction_features g).
  - unfold transform_single_ex. rewrite Hec. cbn [deref_interactions]. rewrite Hg'. cbn [mbind option_bind].
    rewrite Hstore. by destruct (base _ _ b).
Qed.

(** The base of the witnesses records the interactions it sees and overwrites the pointer. *)
Definition recording_base (g : interactions_generator) (ec : example Q) (b : list (list (list Z)))
  : example Q * list (list (list Z)) :=
  (set_interactions (Own []) ec, deref_interactions g (interactions ec) :: b).
Definition hashed_space (g : Z) : features Q :=
  if g =? 97 then Features Q [1]%Q [10] [] [Extent 0 1 4242] 1%Q else Features Q [2]%Q [20] [] [Extent 0 1 4343] 4%Q.
Definition sample_example : example Q :=
  Example (Own [[58; 58]; [97; 98]]) (Own [[(97, 4242); (98, 4343)]]) [97; 98] hashed_space None None.
Definition empty_generator : interactions_generator := Generator [] [] true [] [].

Lemma transform_single_ex_correct_witness :
  exists g', up_to_date (H := std_sort_stable) false [[58; 58]; [97; 98]] g' /\
    (forall n, n ∈ all_seen_namespaces g' <-> n ∈ [97; 98] \/ n ∈ []) /\
    let ec0 := set_las true false (set_interactions Generated sample_example) in
    deref_interactions g' (interactions ec0) = generated_interactions g' /\
    transform_single_ex (H := std_sort_stable) false recording_base empty_generator sample_example [] =
      Some (g', set_interactions (Own [[58; 58]; [97; 98]]) (recording_base g' ec0 []).1, (recording_base g' ec0 []).2).
Proof.
  apply (transform_single_ex_correct (H := std_sort_stable) false [[58; 58]; [97; 98]] recording_base empty_generator sample_example []).
  - split; [constructor|]. split; [constructor|done].
  - done.
  - repeat constructor; done.
Defined.

(** [update_extent_interactions_if_new_namespace_seen] clears the namespace interactions and not
    the extent interactions: whenever an example brings a new extent, the base runs
    on it with no namespace interaction at all, whatever the specification asks for. *)
Theorem new_extent_drops_interactions `{StdSort} {F B : Type} (leave : bool)
    (base : interactions_generator -> example F -> B -> example F * B) (g : interactions_generator) (ec : example F) (b : B)
    (g' : interactions_generator) (ec' : example F) (b' : B) :
  transform_single_ex_extents leave base g ec b = Some (g', ec', b') ->
  increasing (all_seen_extents g) ->
  (exists e, e ∈ new_extents (ex_indices ec) (feature_space ec) /\ e ∉ all_seen_extents g) ->
  exists ec0, deref_interactions g' (interactions ec0) = [] /\ b' = (base g' ec0 b).2.
Proof.
  unfold transform_single_ex_extents. intros Ht Hinc Hnew.
  destruct (update_interactions_if_new_namespace_seen _ _ _ _) as [g1|] eqn:E1; [|done]. cbn [mbind option_bind] in Ht.
  assert (all_seen_extents g1 = all_seen_extents g) as Hse.
  { unfold update_interactions_if_new_namespace_seen in E1. cbv zeta in E1. destruct (length _ =? _)%nat; [by injection E1 as <-|].
    destruct (0 <? _)%nat; [|by injection E1 as <-]. destruct (compile_interactions _ _ _); [|done]. by injection E1 as <-. }
  destruct (update_extent_interactions_if_new_namespace_seen _ _ _ _ _) as [g2|] eqn:E2; [|done]. cbn [mbind option_bind] in Ht.
  apply update_extents_drops in E2; [|by rewrite Hse|by rewrite Hse].
  set (ec0 := set_las _ true _) in Ht. destruct (base g2 ec0 b) as [ec1 b1] eqn:Hb. injection Ht as <- _ <-.
  exists ec0. split; [|by rewrite Hb]. subst ec0. unfold set_las. by case_if.
Qed.

Lemma new_extent_drops_interactions_witness :
  exists g' ec' ec0,
    transform_single_ex_extents (H := std_sort_stable) false recording_base empty_generator sample_example [] = Some (g', ec', [[]]) /\
    deref_interactions g' (interactions ec0) = [] /\ [[]] = (recording_base g' ec0 []).2.
Proof.
  destruct (transform_single_ex_extents (H := std_sort_stable) false recording_base empty_generator sample_example [])
    as [[[g' ec'] b']|] eqn:E; [|vm_compute in E; discriminate E].
  assert (b' = [[]]) as -> by (vm_compute in E; injection E as _ _ <-; reflexivity).
  destruct (new_extent_drops_interactions (H := std_sort_stable) false recording_base empty_generator sample_example []
    g' ec' [[]] E) as (ec0 & H1 & H2).
  - constructor.
  - exists (97, 4242). split; [|apply not_elem_of_nil]. apply (bool_decide_unpack _). vm_compute. exact I.
  - exists g', ec', ec0. split; [reflexivity|]. split; [exact H1|exact H2].
Defined.
