(* ===== verification/IoBuf.v ===== *)
(** * Buffered input and output ([core/include/vw/core/io_buf.h], [core/src/io_buf.cc],
      the in-memory adapters of [io/src/io_adapter.cc])

    [io_buf] reads a list of files as one stream through a growing buffer, and writes to one file
    through the same buffer. Pointers into the buffer are offsets from its beginning; the addresses
    that matter for alignment come from the allocator, a parameter. *)

From S2P Require Import Prelude.
From S2P Require Import Hash.

(** ** Readers and writers: the interface of [io_adapter.h]

    [r_left] is what the reader will still deliver, [r_full] what it delivers from the start;
    a read error ([None]) ends the delivery. [w_done] is what has reached the device. *)

Class Reader (R : Type) := {
  r_read : R -> nat -> R * option (list byte);
  r_reset : R -> R;
  r_resettable : R -> bool;
  r_left : R -> list byte;
  r_full : R -> list byte;
  r_read_some r n r' bs : r_read r n = (r', Some bs) -> (length bs <= n)%nat /\ r_left r = bs ++ r_left r';
  r_read_end r n r' : (0 < n)%nat -> r_read r n = (r', Some []) -> r_left r = [];
  r_read_error r n r' : r_read r n = (r', None) -> r_left r = [] /\ r_left r' = [];
  r_read_full r n : r_full (r_read r n).1 = r_full r;
  r_reset_left r : r_resettable r = true -> r_left (r_reset r) = r_full r
}.

Class Writer (W : Type) := {
  w_write : W -> list byte -> W * Z;
  w_flush : W -> W;
  w_done : W -> list byte;
  w_write_done w bs w' n : w_write w bs = (w', n) -> n = Z.of_nat (length bs) -> w_done w' = w_done w ++ bs;
  w_flush_done w : w_done (w_flush w) = w_done w
}.

(** [buffer_view]: the data and the position of the read head. *)
Record buffer_view := BufferView { bv_data : list byte; bv_read_head : nat }.

Definition buffer_view_read (r : buffer_view) (num_bytes : nat) : buffer_view * option (list byte) :=
  let num_bytes := Nat.min (length (bv_data r) - bv_read_head r) num_bytes in
  if (num_bytes =? 0)%nat then (r, Some [])
  else (BufferView (bv_data r) (bv_read_head r + num_bytes), Some (take num_bytes (drop (bv_read_head r) (bv_data r)))).
Definition buffer_view_reset (r : buffer_view) : buffer_view := BufferView (bv_data r) 0.

(** [vector_writer] appends to its vector. *)
Definition vector_writer : Type := list byte.
Definition vector_writer_write (w : vector_writer) (bs : list byte) : vector_writer * Z :=
  (w ++ bs, Z.of_nat (length bs)).

#[export] Instance buffer_view_reader : Reader buffer_view.
Proof.
  refine {| r_read := buffer_view_read; r_reset := buffer_view_reset; r_resettable _ := true;
            r_left r := drop (bv_read_head r) (bv_data r); r_full r := bv_data r |}; unfold buffer_view_read.
  - intros r n r' bs. cbn zeta. case_if; intros [= <- <-]; cbn; [split; [lia|done]|].
    split; [rewrite length_take; lia|]. by rewrite <- drop_drop, take_drop.
  - intros r n r' Hn. cbn zeta. case_if; [|intros [= <- Hnil]].
    + intros _. bprop. apply nil_length_inv. rewrite length_drop. lia.
    + apply (f_equal length) in Hnil. rewrite length_take, length_drop in Hnil. cbn in Hnil. bprop. lia.
  - intros r n r'. cbn zeta. by case_if.
  - intros r n. cbn zeta. by case_if.
  - intros r _. done.
Defined.

#[export] Instance vector_writer_writer : Writer vector_writer.
Proof.
  refine {| w_write := vector_writer_write; w_flush w := w; w_done w := w |}.
  - intros w bs w' n [= <- _] _. done.
  - done.
Defined.

(** ** Results: a value, an exception, behaviour C++ leaves undefined, or an exhausted iteration bound *)

Inductive io_result (A : Type) := Done (a : A) | Throw | Undefined | NoFuel.
Arguments Done {A} _.
Arguments Throw {A}.
Arguments Undefined {A}.
Arguments NoFuel {A}.

Definition io_bind {A B} (r : io_result A) (f : A -> io_result B) : io_result B :=
  match r with Done a => f a | Throw => Throw | Undefined => Undefined | NoFuel => NoFuel end.
Notation "'do' x <- r ; k" := (io_bind r (fun x => k)) (at level 10, x pattern, r at level 100, k at level 200).

Record desired_align := DesiredAlign { da_align : Z; da_offset : Z }.
Definition TEXT : desired_align := DesiredAlign 1 0.

Record io_buf (R W : Type) := IoBuf {
  (** The allocated bytes, from [_buffer.begin] to [_buffer.end_array]. *)
  mem : list byte;
  b_end : nat;
  head : nat;
  begin_addr : Z;
  verify_hash : bool;
  hash : Z;
  current : nat;
  input_files : list R;
  output_files : list W
}.
Arguments IoBuf {R W}.
Arguments mem {R W}.
Arguments b_end {R W}.
Arguments head {R W}.
Arguments begin_addr {R W}.
Arguments verify_hash {R W}.
Arguments hash {R W}.
Arguments current {R W}.
Arguments input_files {R W}.
Arguments output_files {R W}.

Section IoBufOps.
Context {R W : Type} `{Reader R, Writer W}.
(** The address [std::realloc] returns for a capacity. *)
Context (alloc : nat -> Z).
Implicit Type b : io_buf R W.

Definition capacity b : nat := length (mem b).
Definition unflushed_bytes_count b : nat := head b.

Definition set_head (h : nat) b : io_buf R W :=
  IoBuf (mem b) (b_end b) h (begin_addr b) (verify_hash b) (hash b) (current b) (input_files b) (output_files b).
Definition set_buffer (m : list byte) (e h : nat) (a : Z) b : io_buf R W :=
  IoBuf m e h a (verify_hash b) (hash b) (current b) (input_files b) (output_files b).
Definition set_hash (h : Z) b : io_buf R W :=
  IoBuf (mem b) (b_end b) (head b) (begin_addr b) (verify_hash b) h (current b) (input_files b) (output_files b).
Definition set_inputs (c : nat) (files : list R) b : io_buf R W :=
  IoBuf (mem b) (b_end b) (head b) (begin_addr b) (verify_hash b) (hash b) c files (output_files b).
Definition set_outputs (files : list W) b : io_buf R W :=
  IoBuf (mem b) (b_end b) (head b) (begin_addr b) (verify_hash b) (hash b) (current b) (input_files b) files.

(** Bytes written through a pointer, and the bytes at a pointer. *)
Definition store (p : nat) (bs : list byte) (m : list byte) : list byte := take p m ++ bs ++ drop (p + length bs) m.
Definition slice (p n : nat) (m : list byte) : list byte := take n (drop p m).

(** [internal_buffer::realloc]: what follows the loaded values is zeroed. *)
Definition buffer_realloc (new_capacity : nat) b : io_buf R W :=
  set_buffer (take (b_end b) (mem b) ++ replicate (new_capacity - b_end b) Byte.x00) (b_end b) (head b) (alloc new_capacity) b.

(** [internal_buffer::shift_to_front] *)
Definition required_padding (al : desired_align) (addr : Z) : nat :=
  if da_align al =? 1 then 0
  else if addr mod da_align al =? da_offset al then 0
  else Z.to_nat ((da_align al - addr mod da_align al + da_offset al) mod da_align al).

Definition shift_to_front (al : desired_align) b : io_buf R W :=
  let pad := required_padding al (begin_addr b) in
  let space_left := (b_end b - head b)%nat in
  let m := if (pad <=? head b)%nat && (head b <? b_end b)%nat
           then store pad (slice (head b) space_left (mem b)) (mem b) else mem b in
  set_buffer m (pad + space_left) pad (begin_addr b) b.

Definition is_aligned (al : desired_align) b : bool :=
  (begin_addr b + Z.of_nat (head b)) mod da_align al =? da_offset al.

(** [fill]: the bytes read from file [_current], 0 at its end or on an error. *)
Definition fill b : option (nat * io_buf R W) :=
  f ← input_files b !! current b;
  let b := if (capacity b - b_end b =? 0)%nat then buffer_realloc (2 * capacity b) b else b in
  let '(f, res) := r_read f (capacity b - b_end b) in
  let b := set_inputs (current b) (<[current b := f]> (input_files b)) b in
  Some match res with
       | Some bs => (length bs, set_buffer (store (b_end b) bs (mem b)) (b_end b + length bs) (head b) (begin_addr b) b)
       | None => (0%nat, b)
       end.

(** The pointer, the number of bytes at it, and the buffer. *)
Fixpoint buf_read (fuel : nat) (n : nat) (al : desired_align) b : io_result (nat * nat * io_buf R W) :=
  match fuel with
  | O => NoFuel
  | S fuel =>
      if (head b + n <=? b_end b)%nat then
        if is_aligned al b then Done (head b, n, set_head (head b + n) b)
        else if da_offset al <? Z.of_nat (head b)
        then let b := shift_to_front al b in Done (head b, n, set_head (head b + n) b)
        else Throw
      else
        let b := if (head b =? 0)%nat then b else shift_to_front al b in
        let '(filled, b) := if (current b <? length (input_files b))%nat then default (0%nat, b) (fill b) else (0%nat, b) in
        if (0 <? filled)%nat then buf_read fuel n al b
        else
          let b := set_inputs (S (current b)) (input_files b) b in
          if (current b <? length (input_files b))%nat then buf_read fuel n al b
          else if is_aligned al b then Done (head b, b_end b - head b, set_head (b_end b) b)%nat
          else Throw
  end.

(** The first position of [terminal] in a list. *)
Fixpoint find_byte (terminal : byte) (l : list byte) : option nat :=
  match l with
  | [] => None
  | c :: l' => if decide (c = terminal) then Some 0%nat else S <$> find_byte terminal l'
  end.

(** [readto]: the pointer, the value returned (one more than the bytes before the terminal when
    there is one), and the buffer. *)
Fixpoint readto (fuel : nat) (terminal : byte) b : io_result (nat * nat * io_buf R W) :=
  match fuel with
  | O => NoFuel
  | S fuel =>
      match find_byte terminal (slice (head b) (b_end b - head b) (mem b)) with
      | Some n => Done (head b, S n, set_head (S (head b + n)) b)
      | None =>
          let b := if (head b =? 0)%nat then b else set_head 0 (shift_to_front TEXT b) in
          let '(filled, b) := if (current b <? length (input_files b))%nat then default (0%nat, b) (fill b) else (0%nat, b) in
          if (0 <? filled)%nat then readto fuel terminal b
          else
            let b := set_inputs (S (current b)) (input_files b) b in
            if (current b <? length (input_files b))%nat then readto fuel terminal b
            else Done (head b, b_end b - head b, set_head (b_end b) b)%nat
      end
  end.

(** [isbinary]; [None]: there is no file [_current]. *)
Definition isbinary b : option (bool * io_buf R W) :=
  '(ok, b) ← (if (b_end b =? head b)%nat then '(filled, b) ← fill b; Some ((0 <? filled)%nat, b) else Some (true, b));
  if negb ok then Some (false, b)
  else c ← mem b !! head b;
       if decide (c = Byte.x00) then Some (true, set_head (S (head b)) b) else Some (false, b).

(** [flush] *)
Definition flush b : io_result (io_buf R W) :=
  match output_files b with
  | [] => Done b
  | w :: ws =>
      let '(w, bytes_written) := w_write w (take (head b) (mem b)) in
      if bytes_written =? Z.of_nat (unflushed_bytes_count b)
      then Done (set_head 0 (set_outputs (w_flush w :: ws) b))
      else Throw
  end.

(** [buf_write]: the pointer to [n] bytes to write into. *)
Fixpoint buf_write (fuel : nat) (n : nat) b : io_result (nat * io_buf R W) :=
  match fuel with
  | O => NoFuel
  | S fuel =>
      if (head b + n <=? capacity b)%nat then Done (head b, set_head (head b + n) b)
      else
        do b <- (if (head b =? 0)%nat then Done (set_head 0 (buffer_realloc (2 * capacity b) b)) else flush b);
        buf_write fuel n b
  end.

(** The iteration bounds used: see [buf_read_text] and [buf_write_ok]. *)
Definition read_fuel b : nat :=
  S (length (mjoin (r_left <$> drop (current b) (input_files b))) + length (drop (current b) (input_files b))).
Definition write_fuel (n : nat) : nat := S (S n).

Definition memcpy (p : nat) (bs : list byte) b : io_buf R W :=
  set_buffer (store p bs (mem b)) (b_end b) (head b) (begin_addr b) b.

(** [write_value] of the bytes of a value. *)
Definition write_value (bs : list byte) b : io_result (io_buf R W) :=
  do (p, b) <- buf_write (write_fuel (length bs)) (length bs) b;
  Done (set_head (p + length bs) (memcpy p bs b)).

(** [read_value] of [n] bytes. *)
Definition read_value (n : nat) b : io_result (list byte * io_buf R W) :=
  do (p, k, b) <- buf_read (read_fuel b) n TEXT b;
  if (k <? n)%nat then Throw else Done (slice p n (mem b), b).

Definition update_hash (bs : list byte) b : io_buf R W :=
  if verify_hash b then set_hash (uniform_hash bs (hash b)) b else b.

Definition bin_read_fixed (len : nat) b : io_result (list byte * io_buf R W) :=
  if (0 <? len)%nat then
    do (p, len, b) <- buf_read (read_fuel b) len TEXT b;
    let bs := slice p len (mem b) in
    Done (bs, update_hash bs b)
  else Done ([], b).

Definition bin_write_fixed (data : list byte) b : io_result (io_buf R W) :=
  if (0 <? length data)%nat then
    do (p, b) <- buf_write (write_fuel (length data)) (length data) b;
    Done (update_hash data (memcpy p data b))
  else Done b.

(** [bin_read] and [bin_write]: a 32-bit length, then the data. *)
Definition bin_read (len : Z) b : io_result (list byte * io_buf R W) :=
  do (l, b) <- bin_read_fixed 4 b;
  if (length l <? 4)%nat || (len <? le_combine l) then Throw
  else bin_read_fixed (Z.to_nat (le_combine l)) b.

Definition bin_write (data : list byte) b : io_result (io_buf R W) :=
  do b <- bin_write_fixed (le_split 4 (u32 (Z.of_nat (length data)))) b;
  bin_write_fixed data b.

Definition copy_to (max_size : nat) b : list byte := take (Nat.min (unflushed_bytes_count b) max_size) (mem b).

Definition replace_buffer (buff : list byte) (addr : Z) b : io_buf R W := set_buffer buff (length buff) 0 addr b.

Definition reset b : io_buf R W :=
  set_buffer (mem b) 0 0 (begin_addr b) (set_inputs 0 (r_reset <$> input_files b) b).
Definition is_resettable b : bool := forallb r_resettable (input_files b).

Definition set_verify_hash (verify : bool) b : io_buf R W :=
  IoBuf (mem b) (b_end b) (head b) (begin_addr b) verify (if verify then hash b else 0) (current b) (input_files b) (output_files b).
Definition get_hash b : io_result Z := if verify_hash b then Done (hash b) else Throw.

Definition add_input (f : R) b : io_buf R W := set_inputs (current b) (input_files b ++ [f]) b.
Definition add_output (f : W) b : io_buf R W := set_outputs (output_files b ++ [f]) b.

(** [close_file]: the last input file, or else the last output file. *)
Definition close_file b : bool * io_buf R W :=
  match input_files b, output_files b with
  | _ :: _, _ => (true, set_inputs (current b) (removelast (input_files b)) b)
  | [], _ :: _ => (true, set_outputs (removelast (output_files b)) b)
  | [], [] => (false, b)
  end.
Fixpoint close_files (fuel : nat) b : option (io_buf R W) :=
  match fuel with
  | O => None
  | S fuel => let '(more, b) := close_file b in if more then close_files fuel b else Some b
  end.

Definition INITIAL_BUFF_SIZE : nat := Z.to_nat (2 ^ 16).
Definition new_io_buf : io_buf R W :=
  IoBuf (replicate INITIAL_BUFF_SIZE Byte.x00) 0 0 (alloc INITIAL_BUFF_SIZE) false 0 0 [] [].
End IoBufOps.

(** * Theorems *)

Section IoBufCorrect.
Context {R W : Type} `{Reader R, Writer W} (alloc : nat -> Z).
Implicit Type b : io_buf R W.

(** Reduces the field accesses of an updated buffer. *)
Ltac io_fields :=
  cbn [set_buffer set_inputs set_outputs set_head set_hash mem b_end head begin_addr current input_files verify_hash hash output_files] in *.

(** What the input still holds: the loaded bytes after the head, then the files. *)
Definition left_stream b : list byte := mjoin (r_left <$> drop (current b) (input_files b)).
Definition stream b : list byte := slice (head b) (b_end b - head b) (mem b) ++ left_stream b.

Definition wf b : Prop := (head b <= b_end b <= length (mem b))%nat /\ (0 < length (mem b))%nat.

(** What reading leaves alone. *)
Definition same_output b b' : Prop :=
  verify_hash b' = verify_hash b /\ hash b' = hash b /\ output_files b' = output_files b.

Lemma length_slice p n m : (p + n <= length m)%nat -> length (slice p n m) = n.
Proof. intros. unfold slice. rewrite length_take, length_drop. lia. Qed.

Lemma length_store p bs m : (p + length bs <= length m)%nat -> length (store p bs m) = length m.
Proof. intros. unfold store. rewrite !length_app, length_take, length_drop. lia. Qed.

Lemma slice_store_prefix p bs m h : (h <= p)%nat -> (p + length bs <= length m)%nat ->
  slice h (p + length bs - h) (store p bs m) = slice h (p - h) m ++ bs.
Proof.
  intros Hh Hlen. unfold slice, store. rewrite drop_app_le by (rewrite length_take; lia).
  rewrite app_assoc, take_app_le by (rewrite length_app, length_drop, length_take; lia).
  rewrite take_ge by (rewrite length_app, length_drop, length_take; lia).
  f_equal. rewrite take_drop_commute. do 2 f_equal. lia.
Qed.

Lemma take_store_prefix p bs m : (p + length bs <= length m)%nat -> take (p + length bs) (store p bs m) = take p m ++ bs.
Proof.
  intros Hlen. pose proof (slice_store_prefix p bs m 0) as Hs. unfold slice in Hs.
  rewrite !drop_0, !Nat.sub_0_r in Hs. by apply Hs; lia.
Qed.

Lemma shift_text b : wf b ->
  let b' := shift_to_front TEXT b in
  wf b' /\ head b' = 0%nat /\ stream b' = stream b /\ current b' = current b /\ input_files b' = input_files b /\
  same_output b b' /\ b_end b' = (b_end b - head b)%nat.
Proof.
  intros [Hwf Hcap]. unfold shift_to_front. change (required_padding TEXT _) with 0%nat. cbn zeta.
  rewrite Nat.add_0_l. cbn [Nat.leb andb].
  set (bs := slice (head b) (b_end b - head b) (mem b)).
  assert (length bs = (b_end b - head b)%nat) as Hbs by (apply length_slice; lia).
  destruct (head b <? b_end b)%nat eqn:E; unfold stream, left_stream, wf; io_fields.
  - split_and!; try done; try lia.
    + rewrite length_store by lia. lia.
    + rewrite length_store by lia. lia.
    + f_equal. fold bs. rewrite Nat.sub_0_r, <- Hbs. clearbody bs. unfold slice. rewrite drop_0.
      pose proof (take_store_prefix 0 bs (mem b)) as Hp. rewrite Nat.add_0_l in Hp. by rewrite Hp by lia.
  - bprop. split_and!; try done; try lia. f_equal. subst bs.
    replace (b_end b - head b)%nat with 0%nat by lia. unfold slice. by rewrite !take_0.
Qed.

Lemma realloc_ok b c : wf b -> (length (mem b) <= c)%nat ->
  let b' := buffer_realloc alloc c b in
  wf b' /\ stream b' = stream b /\ head b' = head b /\ b_end b' = b_end b /\ capacity b' = c /\
  current b' = current b /\ input_files b' = input_files b /\ same_output b b'.
Proof.
  intros [Hwf Hcap] Hc. cbn. unfold wf, stream, left_stream, capacity, same_output. cbn.
  assert (length (take (b_end b) (mem b) ++ replicate (c - b_end b) Byte.x00) = c) as Hlen
    by (rewrite length_app, length_take, length_replicate; lia).
  rewrite Hlen. split_and!; try done; try lia. f_equal. unfold slice.
  rewrite drop_app_le by (rewrite length_take; lia). rewrite take_app_le by (rewrite length_drop, length_take; lia).
  rewrite !take_drop_commute, take_take. do 2 f_equal. lia.
Qed.

Lemma left_stream_current b f : input_files b !! current b = Some f ->
  left_stream b = r_left f ++ mjoin (r_left <$> drop (S (current b)) (input_files b)).
Proof. intros Hf. unfold left_stream. by rewrite (drop_S _ f) by done. Qed.

Lemma fill_ok b f : wf b -> input_files b !! current b = Some f ->
  exists k b', fill alloc b = Some (k, b') /\ wf b' /\ stream b' = stream b /\ head b' = head b /\
    current b' = current b /\ length (input_files b') = length (input_files b) /\ same_output b b' /\
    b_end b' = (b_end b + k)%nat /\ (length (left_stream b') + k)%nat = length (left_stream b) /\
    drop (S (current b)) (input_files b') = drop (S (current b)) (input_files b) /\
    (k = 0%nat -> left_stream b' = left_stream b /\
                  left_stream b = mjoin (r_left <$> drop (S (current b)) (input_files b))).
Proof.
  intros Hwf Hf. unfold fill. rewrite Hf. cbn [mbind option_bind].
  assert (exists b1, (if (capacity b - b_end b =? 0)%nat then buffer_realloc alloc (2 * capacity b) b else b) = b1 /\
    wf b1 /\ stream b1 = stream b /\ head b1 = head b /\ b_end b1 = b_end b /\ (b_end b1 < length (mem b1))%nat /\
    current b1 = current b /\ input_files b1 = input_files b /\ same_output b b1)
    as (b1 & -> & Hwf1 & Hs1 & Hh1 & He1 & Hroom & Hc1 & Hi1 & Ho1).
  { destruct Hwf as [Hle Hcap]. unfold capacity. case_if; bprop; eexists; (split; [reflexivity|]).
    - destruct (realloc_ok b (2 * length (mem b)) ltac:(split; lia) ltac:(lia)) as (A & B & C & D & E' & F & G & I).
      unfold capacity in E'. split_and!; try done; [|apply I..]. rewrite D. lia.
    - split_and!; try done; try lia. }
  destruct (r_read f (capacity b1 - b_end b1)) as [f' res] eqn:Er. cbn zeta.
  assert (current b < length (input_files b))%nat as Hfile by by apply lookup_lt_Some in Hf.
  assert (Hdrop : forall i, (current b < i)%nat -> drop i (<[current b := f']> (input_files b)) = drop i (input_files b)).
  { intros i Hi. by rewrite drop_insert_lt by lia. }
  assert (mjoin (r_left <$> drop (current b) (<[current b := f']> (input_files b))) =
    r_left f' ++ mjoin (r_left <$> drop (S (current b)) (input_files b))) as Hleft'.
  { rewrite (drop_S _ f') by (by apply list_lookup_insert_eq). rewrite fmap_cons. cbn [mjoin list_join].
    rewrite Hdrop by lia. done. }
  pose proof (left_stream_current b f Hf) as Hleft.
  destruct res as [bs|].
  - apply r_read_some in Er as Hr. destruct Hr as [Hlen Hr]. unfold capacity in Hlen.
    eexists (length bs), _. split; [reflexivity|]. destruct Hwf1 as [Hle1 Hcap1].
    unfold wf, stream, left_stream, same_output in *. io_fields. rewrite Hc1, Hi1 in *.
    rewrite length_store by lia. rewrite length_insert, Hleft', !(Hdrop (S (current b))) by lia.
    split_and!; try apply Ho1; try lia; try done.
    + rewrite slice_store_prefix by lia. rewrite <- Hs1, Hleft, Hr, Hh1. by rewrite !app_assoc.
    + rewrite Hleft, Hr, !length_app. lia.
    + intros Hk. apply nil_length_inv in Hk as ->. rewrite Hleft, Hr. cbn. split; [done|].
      apply r_read_end in Er; [|unfold capacity; lia]. rewrite Er in Hr. cbn in Hr. by rewrite <- Hr.
  - apply r_read_error in Er as [Hr Hr']. eexists 0%nat, _. split; [reflexivity|]. destruct Hwf1 as [Hle1 Hcap1].
    unfold wf, stream, left_stream, same_output in *. io_fields. rewrite Hc1, Hi1 in *.
    rewrite length_insert, Hleft', !(Hdrop (S (current b))), Hr' by lia. rewrite Hleft, Hr in *. cbn [app] in *. rewrite ?Nat.add_0_r.
    split_and!; try apply Ho1; try lia; try done.
Qed.

Definition read_measure b : nat := length (left_stream b) + length (drop (current b) (input_files b)).

Lemma read_fuel_measure b : (read_measure b < read_fuel b)%nat.
Proof. unfold read_fuel, read_measure, left_stream. lia. Qed.

Lemma same_output_trans b1 b2 b3 : same_output b1 b2 -> same_output b2 b3 -> same_output b1 b3.
Proof. unfold same_output. intros (? & ? & ?) (? & ? & ?). split_and!; congruence. Qed.

(** What an attempt to refill does: it leaves the stream alone, and either loads bytes or finds
    the current file exhausted. *)
Lemma refill b :
  wf b ->
  exists k b', (if (current b <? length (input_files b))%nat then default (0%nat, b) (fill alloc b) else (0%nat, b)) = (k, b') /\
    wf b' /\ stream b' = stream b /\ same_output b b' /\ head b' = head b /\ current b' = current b /\
    length (input_files b') = length (input_files b) /\ b_end b' = (b_end b + k)%nat /\
    (k <> 0%nat -> (read_measure b' < read_measure b)%nat) /\
    (k = 0%nat -> let b'' := set_inputs (S (current b')) (input_files b') b' in
      wf b'' /\ stream b'' = stream b' /\
      ((current b < length (input_files b))%nat -> read_measure b'' < read_measure b)%nat /\
      ((length (input_files b) <= S (current b))%nat -> left_stream b'' = [])).
Proof.
  intros Hwf. destruct (current b <? length (input_files b))%nat eqn:E; bprop.
  - destruct (lookup_lt_is_Some_2 _ _ E) as [f Hf].
    destruct (fill_ok b f Hwf Hf) as (k & b' & -> & Hwf' & Hs & Hh & Hc & Hl & Ho & He & Hleft & Hdrop & Hk).
    exists k, b'. cbn [default from_option id]. split_and!; try done.
    + intros Hk0. unfold read_measure. rewrite !length_drop, Hl, Hc. lia.
    + intros Hk0. destruct (Hk Hk0) as [Hle Hlb]. cbn zeta. unfold read_measure, stream, left_stream in *.
      io_fields. rewrite Hc, Hdrop in *. rewrite <- Hlb, Hle. split_and!; [exact Hwf'|done| |].
      * intros _. rewrite !length_drop. lia.
      * intros Hlast. rewrite Hlb, drop_ge by lia. done.
  - exists 0%nat, b. split_and!; try done; try lia. intros _. cbn zeta. unfold read_measure, stream, left_stream. io_fields.
    rewrite !(drop_ge (input_files b)) by lia. split_and!; try done; try apply Hwf. lia.
Qed.

Lemma aligned_text b : is_aligned TEXT b = true.
Proof. unfold is_aligned. cbn. by rewrite Z.mod_1_r. Qed.

(** Reading [n] bytes. *)
Definition reads (n : nat) b (bs : list byte) b' : Prop :=
  bs = take n (stream b) /\ stream b' = drop n (stream b) /\ wf b' /\ same_output b b'.

Lemma loaded_stream b k : wf b -> (head b + k <= b_end b)%nat ->
  slice (head b) k (mem b) = take k (stream b) /\ stream (set_head (head b + k) b) = drop k (stream b) /\
  wf (set_head (head b + k) b).
Proof.
  intros [Hwf Hcap] Hk. unfold stream, left_stream, wf. io_fields.
  assert (slice (head b) k (mem b) = take k (slice (head b) (b_end b - head b) (mem b))) as Hslice
    by (unfold slice; rewrite take_take; f_equal; lia).
  assert (length (slice (head b) (b_end b - head b) (mem b)) = (b_end b - head b)%nat) as Hl by (apply length_slice; lia).
  split_and!; try lia.
  - rewrite take_app_le by lia. done.
  - rewrite drop_app_le by lia. f_equal. unfold slice. rewrite skipn_firstn_comm, drop_drop.
    by replace (b_end b - (head b + k))%nat with (b_end b - head b - k)%nat by lia.
Qed.

Lemma buf_read_text fuel : forall b n, wf b -> (read_measure b < fuel)%nat ->
  exists p k b', buf_read alloc fuel n TEXT b = Done (p, k, b') /\
    k = length (take n (stream b)) /\ reads n b (slice p k (mem b')) b' /\ head b' = (p + k)%nat /\ (head b' <= b_end b')%nat.
Proof.
  induction fuel as [|fuel IH]; intros b n Hwf Hfuel; [lia|]. cbn [buf_read]. rewrite aligned_text.
  destruct (head b + n <=? b_end b)%nat eqn:E; bprop.
  - destruct (loaded_stream b n Hwf E) as (Hs & Hd & Hwf'). do 3 eexists. split; [reflexivity|].
    assert (n = length (take n (stream b))) as Hn.
    { rewrite <- Hs, length_slice; [done|]. destruct Hwf. lia. }
    split; [done|]. split; [split_and!; done|]. io_fields. done.
  - assert (exists b1, (if (head b =? 0)%nat then b else shift_to_front TEXT b) = b1 /\ wf b1 /\ stream b1 = stream b /\
      same_output b b1 /\ read_measure b1 = read_measure b /\ (b_end b1 - head b1 < n)%nat) as (b1 & -> & Hwf1 & Hs1 & Ho1 & Hm1 & Hn1).
    { destruct (head b =? 0)%nat; [exists b; split_and!; try done; destruct Hwf; lia|].
      destruct (shift_text b Hwf) as (? & Hh & ? & Hc & Hi & ? & He).
      eexists. split; [reflexivity|]. split_and!; try done;
        first [destruct Hwf; lia|unfold read_measure, left_stream; by rewrite Hc, Hi]. }
    destruct (refill b1 Hwf1) as (k & b2 & -> & Hwf2 & Hs2 & Ho2 & Hh2 & Hc2 & Hl2 & He2 & Hmore & Hnone).
    pose proof (same_output_trans _ _ _ Ho1 Ho2) as Ho. destruct (0 <? k)%nat eqn:Ek; bprop.
    + destruct (IH b2 n Hwf2 ltac:(specialize (Hmore ltac:(lia)); lia)) as (p & k' & b' & -> & Hk' & (Hr1 & Hr2 & Hr3 & Hr4) & Hrest).
      exists p, k', b'. split; [done|]. rewrite Hs2, Hs1 in *. split; [done|]. split; [|done].
      split_and!; try done; by apply (same_output_trans b b2 b').
    + destruct (Hnone ltac:(lia)) as (Hwf3 & Hs3 & Hm3 & Hlast).
      set (b3 := set_inputs (S (current b2)) (input_files b2) b2) in *.
      assert (same_output b b3 /\ current b3 = S (current b2) /\ length (input_files b3) = length (input_files b2)) as (Ho3 & Hcur & Hin) by done.
      case_if; bprop.
      * destruct (IH b3 n Hwf3) as (p & k' & b' & -> & Hk' & (Hr1 & Hr2 & Hr3 & Hr4) & Hrest).
        { specialize (Hm3 ltac:(lia)). lia. }
        exists p, k', b'. split; [done|]. rewrite Hs3, Hs2, Hs1 in *. split; [done|]. split; [|done].
        split_and!; try done; by apply (same_output_trans b b3 b').
      * rewrite aligned_text. specialize (Hlast ltac:(lia)).
        assert (stream b3 = slice (head b3) (b_end b3 - head b3) (mem b3)) as Hall
          by (unfold stream; by rewrite Hlast, app_nil_r).
        destruct Hwf3 as [Hwf3 Hcap3].
        assert (length (stream b3) = (b_end b3 - head b3)%nat) as Hlen by (rewrite Hall; apply length_slice; lia).
        assert (b_end b3 - head b3 <= n)%nat as Hshort by (subst b3; io_fields; lia). clearbody b3.
        do 3 eexists. split; [reflexivity|]. rewrite <- Hs1, <- Hs2, <- Hs3.
        rewrite take_ge by lia. split; [lia|]. split; [|io_fields; lia].
        unfold reads. rewrite <- Hs1, <- Hs2, <- Hs3. rewrite take_ge, drop_ge by lia. io_fields. split_and!; try done.
        -- unfold stream, left_stream in *. io_fields. rewrite Nat.sub_diag. unfold slice at 1. by rewrite take_0, Hlast.
        -- unfold wf. io_fields. lia.
Qed.

(** ** Reading up to a terminal *)

Lemma find_byte_app t l l' :
  find_byte t (l ++ l') =
  match find_byte t l with Some n => Some n | None => Nat.add (length l) <$> find_byte t l' end.
Proof.
  induction l as [|c l IH]; cbn [find_byte app length]; [by destruct (find_byte t l')|].
  case_decide; [done|]. rewrite IH. destruct (find_byte t l); [done|]. by destruct (find_byte t l').
Qed.

Lemma find_byte_lt t l n : find_byte t l = Some n -> (n < length l)%nat.
Proof.
  revert n; induction l as [|c l IH]; intros n; cbn [find_byte length]; [done|].
  case_decide; [intros [= <-]; lia|]. destruct (find_byte t l) as [m|]; [|done]. intros [= <-].
  specialize (IH m eq_refl). lia.
Qed.

Lemma find_byte_spec t l :
  match find_byte t l with Some n => l !! n = Some t /\ t ∉ take n l | None => t ∉ l end.
Proof.
  induction l as [|c l IH]; cbn [find_byte]; [by apply not_elem_of_nil|]. case_decide as Hc; [subst; split; [done|apply not_elem_of_nil]|].
  destruct (find_byte t l) as [n|]; cbn [fmap option_fmap option_map].
  - destruct IH as [? ?]. split; [done|]. cbn [take]. by rewrite not_elem_of_cons.
  - by rewrite not_elem_of_cons.
Qed.

(** The line up to the terminal, the value returned, and what follows. *)
Definition reads_to (t : byte) b (line : list byte) (ret : nat) b' : Prop :=
  wf b' /\ same_output b b' /\
  match find_byte t (stream b) with
  | Some n => ret = S n /\ line = take n (stream b) /\ stream b' = drop (S n) (stream b)
  | None => ret = length (stream b) /\ line = stream b /\ stream b' = []
  end.

Lemma readto_text fuel : forall b t, wf b -> (read_measure b < fuel)%nat ->
  exists p k b', readto alloc fuel t b = Done (p, k, b') /\
    let n := match find_byte t (stream b) with Some n => n | None => k end in
    reads_to t b (slice p n (mem b')) k b' /\ slice p k (mem b') = take k (stream b).
Proof.
  induction fuel as [|fuel IH]; intros b t Hwf Hfuel; [lia|]. cbn [readto].
  assert (length (slice (head b) (b_end b - head b) (mem b)) = (b_end b - head b)%nat) as Hll
    by (apply length_slice; destruct Hwf; lia).
  destruct (find_byte t (slice (head b) (b_end b - head b) (mem b))) as [n|] eqn:Ef.
  - assert (find_byte t (stream b) = Some n) as Hfs by (unfold stream; by rewrite find_byte_app, Ef).
    apply find_byte_lt in Ef as Hn. rewrite Hll in Hn.
    destruct (loaded_stream b n Hwf ltac:(lia)) as (Hs & _ & _).
    destruct (loaded_stream b (S n) Hwf ltac:(lia)) as (Hs' & Hd & Hwf'). rewrite Nat.add_succ_r in *.
    do 3 eexists. split; [reflexivity|]. unfold reads_to. rewrite Hfs. cbn zeta. split_and!; try done.
  - change (set_head 0 (shift_to_front TEXT b)) with (shift_to_front TEXT b).
    assert (exists b1, (if (head b =? 0)%nat then b else shift_to_front TEXT b) = b1 /\ wf b1 /\ stream b1 = stream b /\
      same_output b b1 /\ read_measure b1 = read_measure b /\ (b_end b1 - head b1 = b_end b - head b)%nat) as (b1 & -> & Hwf1 & Hs1 & Ho1 & Hm1 & Hn1).
    { destruct (head b =? 0)%nat; [by exists b|].
      destruct (shift_text b Hwf) as (? & Hh & ? & Hc & Hi & ? & He).
      eexists. split; [reflexivity|]. split_and!; try done;
        first [by rewrite Hh, He, Nat.sub_0_r|unfold read_measure, left_stream; by rewrite Hc, Hi]. }
    destruct (refill b1 Hwf1) as (k & b2 & -> & Hwf2 & Hs2 & Ho2 & Hh2 & Hc2 & Hl2 & He2 & Hmore & Hnone).
    pose proof (same_output_trans _ _ _ Ho1 Ho2) as Ho. destruct (0 <? k)%nat eqn:Ek; bprop.
    + destruct (IH b2 t Hwf2 ltac:(specialize (Hmore ltac:(lia)); lia)) as (p & k' & b' & -> & (Hw & Hso & Hm) & Hsl).
      exists p, k', b'. split; [done|]. unfold reads_to. rewrite Hs2, Hs1 in *. cbn zeta.
      split_and!; [done|by apply (same_output_trans b b2 b')|done|done].
    + destruct (Hnone ltac:(lia)) as (Hwf3 & Hs3 & Hm3 & Hlast).
      set (b3 := set_inputs (S (current b2)) (input_files b2) b2) in *.
      assert (same_output b b3 /\ current b3 = S (current b2) /\ length (input_files b3) = length (input_files b2) /\
        b_end b3 = b_end b2 /\ head b3 = head b2) as (Ho3 & Hcur & Hin & He3 & Hh3) by done.
      clearbody b3. case_if; bprop.
      * destruct (IH b3 t Hwf3) as (p & k' & b' & -> & (Hw & Hso & Hm) & Hsl).
        { specialize (Hm3 ltac:(lia)). lia. }
        exists p, k', b'. split; [done|]. unfold reads_to. rewrite Hs3, Hs2, Hs1 in *. cbn zeta.
        split_and!; [done|by apply (same_output_trans b b3 b')|done|done].
      * specialize (Hlast ltac:(lia)).
        assert (stream b3 = slice (head b3) (b_end b3 - head b3) (mem b3)) as Hall
          by (unfold stream; by rewrite Hlast, app_nil_r).
        destruct Hwf3 as [Hwf3 Hcap3].
        do 3 eexists. split; [reflexivity|].
        assert (find_byte t (stream b) = None) as Hfs.
        { assert (length (stream b3) = (b_end b - head b)%nat) as Hlen by (rewrite Hall, length_slice; lia).
          rewrite Hs3, Hs2, Hs1 in Hlen. unfold stream in Hlen |- *. rewrite length_app, Hll in Hlen.
          assert (left_stream b = []) as -> by (apply nil_length_inv; lia). by rewrite app_nil_r. }
        unfold reads_to. rewrite Hfs. cbn zeta. rewrite <- Hs1, <- Hs2, <- Hs3. io_fields. split_and!; try done.
        -- unfold wf. io_fields. lia.
        -- rewrite Hall, length_slice; lia.
        -- unfold stream, left_stream in *. io_fields. rewrite Nat.sub_diag. unfold slice at 1. by rewrite take_0, Hlast.
        -- rewrite Hall. symmetry. apply take_ge. rewrite length_slice; lia.
Qed.

(** ** Values and blocks *)

Lemma read_value_ok n b : wf b -> (n <= length (stream b))%nat ->
  exists b', read_value alloc n b = Done (take n (stream b), b') /\ stream b' = drop n (stream b) /\ wf b' /\ same_output b b'.
Proof.
  intros Hwf Hn. unfold read_value.
  destruct (buf_read_text (read_fuel b) b n Hwf) as (p & k & b' & -> & Hk & (Hs & Hd & Hwf' & Ho) & _);
    [apply read_fuel_measure|].
  cbn [io_bind]. rewrite length_take_le in Hk by lia. subst k. rewrite Nat.ltb_irrefl. exists b'. by rewrite Hs.
Qed.

Lemma read_value_short n b : wf b -> (length (stream b) < n)%nat -> read_value alloc n b = Throw.
Proof.
  intros Hwf Hn. unfold read_value.
  destruct (buf_read_text (read_fuel b) b n Hwf) as (p & k & b' & -> & Hk & _); [apply read_fuel_measure|].
  cbn [io_bind]. rewrite take_ge in Hk by lia. by rewrite (proj2 (Nat.ltb_lt _ _)) by lia.
Qed.

Definition hash_after (bs : list byte) b : Z :=
  if verify_hash b && (0 <? length bs)%nat then uniform_hash bs (hash b) else hash b.

Lemma bin_read_fixed_ok len b : wf b ->
  exists b', bin_read_fixed alloc len b = Done (take len (stream b), b') /\ stream b' = drop len (stream b) /\ wf b' /\
    verify_hash b' = verify_hash b /\ output_files b' = output_files b /\
    ((len <= length (stream b))%nat -> hash b' = hash_after (take len (stream b)) b).
Proof.
  intros Hwf. unfold bin_read_fixed. case_if; bprop.
  - destruct (buf_read_text (read_fuel b) b len Hwf) as (p & k & b' & -> & Hk & (Hs & Hd & Hwf' & Hv & Hh & Ho) & _);
      [apply read_fuel_measure|].
    cbn [io_bind]. rewrite Hs. eexists. split; [reflexivity|]. unfold update_hash, hash_after. rewrite Hv, Hh.
    split_and!; try (destruct (verify_hash b'); done); try by destruct (verify_hash b).
    intros Hl. destruct (verify_hash b); [|done]. rewrite length_take_le by lia. by rewrite (proj2 (Nat.ltb_lt 0 len)) by lia.
  - assert (len = 0%nat) as -> by lia. exists b. rewrite take_0, drop_0. unfold hash_after. cbn.
    rewrite andb_false_r. done.
Qed.

(** ** Writing *)

(** Writers that deliver everything they are given. *)
Definition reliable : Prop := forall (w : W) bs, (w_write w bs).2 = Z.of_nat (length bs).

(** What has been written so far, delivered or still in the buffer. *)
Definition written b : list byte := default [] (w_done <$> list.head (output_files b)) ++ take (head b) (mem b).

Definition wf_write b : Prop :=
  output_files b <> [] /\ (head b <= length (mem b))%nat /\ (b_end b <= length (mem b))%nat /\ (0 < length (mem b))%nat.

(** Nothing but the buffer and what the device holds changes. *)
Definition same_input b b' : Prop :=
  verify_hash b' = verify_hash b /\ hash b' = hash b /\ current b' = current b /\ input_files b' = input_files b.

Lemma flush_ok b : reliable -> wf_write b ->
  exists b', flush b = Done b' /\ head b' = 0%nat /\ written b' = written b /\ wf_write b' /\ same_input b b' /\ mem b' = mem b.
Proof.
  intros Hr (Ho & Hh & He & Hc). unfold flush. destruct (output_files b) as [|w ws] eqn:Ew; [done|].
  destruct (w_write w (take (head b) (mem b))) as [w' n] eqn:E.
  pose proof (Hr w (take (head b) (mem b))) as Hn. rewrite E in Hn. cbn [snd] in Hn. subst n.
  apply w_write_done in E as Hd; [|done]. rewrite length_take_le by lia. unfold unflushed_bytes_count. rewrite Z.eqb_refl.
  eexists. split; [done|]. unfold written, wf_write, same_input. io_fields. rewrite Ew. cbn [list.head fmap option_fmap option_map default].
  rewrite w_flush_done, Hd, take_0, app_nil_r. split_and!; try done; lia.
Qed.

Lemma length_realloc cap b : (b_end b <= length (mem b))%nat -> (b_end b <= cap)%nat -> length (mem (buffer_realloc alloc cap b)) = cap.
Proof. intros H1 H2. unfold buffer_realloc. io_fields. rewrite length_app, length_take_le, length_replicate by lia. lia. Qed.

(** From an empty buffer the capacity doubles until the request fits. *)
Lemma buf_write_empty fuel : forall b n, wf_write b -> head b = 0%nat -> (n < fuel + length (mem b))%nat -> (0 < fuel)%nat ->
  exists b', buf_write alloc fuel n b = Done (0%nat, b') /\ head b' = n /\ (n <= length (mem b'))%nat /\
    output_files b' = output_files b /\ wf_write b' /\ same_input b b'.
Proof.
  induction fuel as [|fuel IH]; intros b n Hwf Hh Hn Hf; [lia|]. cbn [buf_write]. rewrite Hh. unfold capacity.
  destruct Hwf as (Ho & Hh' & He & Hc). case_if; bprop.
  - eexists. split; [done|]. unfold wf_write, same_input. io_fields. split_and!; try done; lia.
  - cbn [Nat.eqb io_bind]. set (b1 := set_head 0 (buffer_realloc alloc (2 * length (mem b)) b)).
    assert (length (mem b1) = 2 * length (mem b))%nat as Hl by (apply length_realloc; lia).
    destruct (IH b1 n) as (b' & Hb & ? & ? & Ho' & Hwf' & Hs); [|done|lia|lia|].
    { unfold wf_write. split_and!; [done|unfold b1 at 1; io_fields; lia| |lia]. rewrite Hl. unfold b1, buffer_realloc. io_fields. lia. }
    exists b'. split_and!; try done; apply Hs.
Qed.

Lemma buf_write_ok b n : reliable -> wf_write b ->
  exists p b', buf_write alloc (write_fuel n) n b = Done (p, b') /\ head b' = (p + n)%nat /\ (p + n <= length (mem b'))%nat /\
    written b = default [] (w_done <$> list.head (output_files b')) ++ take p (mem b') /\ wf_write b' /\ same_input b b'.
Proof.
  intros Hr Hwf. pose proof Hwf as (Ho & Hh & He & Hc). unfold write_fuel.
  destruct (decide (head b = 0%nat)) as [Hz|Hz].
  - destruct (buf_write_empty (S (S n)) b n Hwf Hz ltac:(lia) ltac:(lia)) as (b' & -> & ? & ? & Ho' & ? & ?).
    exists 0%nat, b'. split_and!; try done. unfold written. by rewrite Ho', Hz, !take_0.
  - cbn [buf_write]. unfold capacity at 1. case_if; bprop.
    + do 2 eexists. split; [done|]. unfold written, wf_write, same_input. io_fields. split_and!; try done; lia.
    + rewrite (proj2 (Nat.eqb_neq _ _) Hz). destruct (flush_ok b Hr Hwf) as (b1 & -> & Hh1 & Hw1 & Hwf1 & Hs1 & Hm1).
      cbn [io_bind]. destruct (buf_write_empty (S n) b1 n Hwf1 Hh1 ltac:(lia) ltac:(lia)) as (b' & Hb & ? & ? & Ho' & ? & Hs2).
      exists 0%nat, b'. split; [exact Hb|]. split_and!; try done; [|unfold same_input in *; intuition congruence ..].
      rewrite <- Hw1. unfold written. by rewrite Ho', Hh1, !take_0.
Qed.

Lemma take_store p bs m : (p + length bs <= length m)%nat -> take (p + length bs) (store p bs m) = take p m ++ bs.
Proof.
  intros H'. unfold store. rewrite app_assoc, take_app_length'; [done|]. rewrite length_app, length_take_le; lia.
Qed.

(** The pointer of [buf_write] filled with the bytes asked for. *)
Lemma memcpy_written p bs b0 b : (p + length bs <= length (mem b))%nat -> head b = (p + length bs)%nat ->
  written b0 = default [] (w_done <$> list.head (output_files b)) ++ take p (mem b) -> wf_write b ->
  written (memcpy p bs b) = written b0 ++ bs /\ wf_write (memcpy p bs b).
Proof.
  intros Hp Hh Hw (? & ? & ? & ?). unfold written at 1, wf_write, memcpy. io_fields. rewrite Hh, take_store, Hw by done.
  rewrite length_store by lia. split_and!; try done; try lia. by rewrite app_assoc.
Qed.

Lemma write_value_ok bs b : reliable -> wf_write b ->
  exists b', write_value alloc bs b = Done b' /\ written b' = written b ++ bs /\ wf_write b' /\ same_input b b'.
Proof.
  intros Hr Hwf. unfold write_value.
  destruct (buf_write_ok b (length bs) Hr Hwf) as (p & b1 & -> & Hh & Hp & Hw & Hwf1 & Hs). cbn [io_bind].
  destruct (memcpy_written p bs b b1 Hp Hh Hw Hwf1) as [Hw2 Hwf2].
  assert (set_head (p + length bs) (memcpy p bs b1) = memcpy p bs b1) as -> by (unfold memcpy; destruct b1; io_fields; by subst).
  eexists. split; [done|]. split_and!; done.
Qed.

Lemma bin_write_fixed_ok bs b : reliable -> wf_write b ->
  exists b', bin_write_fixed alloc bs b = Done b' /\ written b' = written b ++ bs /\ wf_write b' /\
    verify_hash b' = verify_hash b /\ hash b' = hash_after bs b /\ input_files b' = input_files b.
Proof.
  intros Hr Hwf. unfold bin_write_fixed, hash_after. case_if; bprop.
  - destruct (buf_write_ok b (length bs) Hr Hwf) as (p & b1 & -> & Hh & Hp & Hw & Hwf1 & Hv & Hha & Hc & Hi). cbn [io_bind].
    destruct (memcpy_written p bs b b1 Hp Hh Hw Hwf1) as [Hw2 Hwf2].
    eexists. split; [done|]. rewrite <- Hv, andb_true_r, <- Hha. unfold update_hash. change (verify_hash (memcpy p bs b1)) with (verify_hash b1).
    destruct (verify_hash b1) eqn:Ev; split_and!; done.
  - apply Nat.le_0_r, nil_length_inv in E as ->. exists b. rewrite app_nil_r, andb_false_r. done.
Qed.
(** Output operations that return nothing. *)
Definition emits (w : io_buf R W -> io_result (io_buf R W)) (bs : list byte) : Prop :=
  forall b, reliable -> wf_write b -> exists b', w b = Done b' /\ written b' = written b ++ bs /\ wf_write b'.

Lemma emits_ret : emits (fun b => Done b) [].
Proof. intros b _ Hwf. exists b. by rewrite app_nil_r. Qed.

Lemma emits_bind w k bs1 bs2 : emits w bs1 -> emits k bs2 -> emits (fun b => do b <- w b; k b) (bs1 ++ bs2).
Proof.
  intros H1 H2 b Hr Hwf. destruct (H1 b Hr Hwf) as (b1 & -> & Hw1 & Hwf1). cbn [io_bind].
  destruct (H2 b1 Hr Hwf1) as (b2 & -> & Hw2 & Hwf2). exists b2. by rewrite Hw2, Hw1, app_assoc.
Qed.

Lemma write_value_emits bs : emits (write_value alloc bs) bs.
Proof. intros b Hr Hwf. destruct (write_value_ok bs b Hr Hwf) as (b' & -> & ? & ? & _). by exists b'. Qed.

Lemma bin_write_fixed_emits bs : emits (bin_write_fixed alloc bs) bs.
Proof. intros b Hr Hwf. destruct (bin_write_fixed_ok bs b Hr Hwf) as (b' & -> & ? & ? & _). by exists b'. Qed.

End IoBufCorrect.

(** ** Properties *)

Section IoBufProperties.
Context {R W : Type} `{Reader R, Writer W} (alloc : nat -> Z).
Implicit Type b : io_buf R W.

Lemma fill_full b k b' : fill alloc b = Some (k, b') -> r_full <$> input_files b' = r_full <$> input_files b.
Proof.
  unfold fill. destruct (input_files b !! current b) as [f|] eqn:Hf; cbn [mbind option_bind]; [|done].
  set (b1 := if (capacity b - b_end b =? 0)%nat then _ else b).
  assert (input_files b1 = input_files b /\ current b1 = current b) as [Hi Hc] by (subst b1; by case_if).
  destruct (r_read f (capacity b1 - b_end b1)) as [f' res] eqn:Er. intros [= Hres].
  assert (r_full f' = r_full f) as Hff by (pose proof (r_read_full f (capacity b1 - b_end b1)) as Hx; by rewrite Er in Hx).
  assert (r_full <$> <[current b := f']> (input_files b) = r_full <$> input_files b) as Hins.
  { rewrite list_fmap_insert, Hff. apply list_insert_id. by rewrite list_lookup_fmap, Hf. }
  destruct res; injection Hres as <- <-; cbn [set_buffer set_inputs input_files]; by rewrite Hi, Hc.
Qed.

Lemma buf_read_full fuel : forall b n al p k b', buf_read alloc fuel n al b = Done (p, k, b') ->
  r_full <$> input_files b' = r_full <$> input_files b.
Proof.
  induction fuel as [|fuel IH]; intros b n al p k b'; cbn [buf_read]; [done|].
  case_if; [repeat case_if; [by intros [= <- <- <-]..|done]|].
  set (b1 := if (head b =? 0)%nat then b else _).
  assert (input_files b1 = input_files b) as <- by (subst b1; by case_if). clearbody b1.
  destruct (if (current b1 <? length (input_files b1))%nat then _ else _) as [q b2] eqn:Ef.
  assert (r_full <$> input_files b2 = r_full <$> input_files b1) as <-.
  { destruct (current b1 <? length (input_files b1))%nat; [|by injection Ef as <- <-].
    destruct (fill alloc b1) as [[]|] eqn:Efl; cbn in Ef; injection Ef as <- <-; [by apply fill_full in Efl|done]. }
  repeat case_if; try done; try (by intros [= <- <- <-]); by intros ->%IH.
Qed.

(** C13: Reading [n] bytes terminates and returns the next [n] bytes of the loaded bytes followed by
    the remaining input files (all that is left when there are fewer), wherever the buffer is
    refilled, moved or grown; the next read goes on after them, and a reset gives the whole input
    again when every input can be rewound. *)
Theorem buf_read_stream b n : wf b ->
  exists p k b', buf_read alloc (read_fuel b) n TEXT b = Done (p, k, b') /\
    slice p k (mem b') = take n (stream b) /\ k = length (take n (stream b)) /\ stream b' = drop n (stream b) /\
    wf b' /\ verify_hash b' = verify_hash b /\ hash b' = hash b /\ output_files b' = output_files b /\
    (is_resettable b' = true -> wf (reset b') /\ stream (reset b') = mjoin (r_full <$> input_files b)).
Proof.
  intros Hwf. destruct (buf_read_text alloc (read_fuel b) b n Hwf (read_fuel_measure b))
    as (p & k & b' & Hb & Hk & (Hs & Hd & Hwf' & Ho1 & Ho2 & Ho3) & _).
  exists p, k, b'. rewrite Hb. apply buf_read_full in Hb as Hf. split_and!; try done. intros Hres. destruct Hwf' as [Hle Hc]. split.
  - unfold wf, reset. cbn [set_buffer set_inputs mem b_end head]. lia.
  - unfold stream, left_stream, reset. cbn [set_buffer set_inputs mem b_end head input_files current].
    rewrite drop_0, <- Hf. unfold slice. rewrite Nat.sub_diag, take_0. cbn [app]. f_equal. unfold is_resettable in Hres. clear -Hres.
    induction (input_files b') as [|f fs IH]; [done|]. cbn [forallb] in Hres. bprop. csimpl. rewrite r_reset_left by done. by rewrite IH.
Qed.

(** C20: [readto] terminates and cuts the input at the first terminal, however long the line is
    and however many refills it takes: it returns the bytes before the terminal with one more as
    length, and goes on after it; with no terminal left it returns all the rest. *)
Theorem readto_line b t : wf b ->
  exists p k b', readto alloc (read_fuel b) t b = Done (p, k, b') /\ wf b' /\
    match find_byte t (stream b) with
    | Some n => k = S n /\ slice p n (mem b') = take n (stream b) /\ (t ∉ take n (stream b)) /\
        stream b = (take n (stream b) ++ t :: stream b')
    | None => k = length (stream b) /\ slice p k (mem b') = stream b /\ (t ∉ stream b) /\ stream b' = []
    end.
Proof.
  intros Hwf. destruct (readto_text alloc (read_fuel b) b t Hwf (read_fuel_measure b))
    as (p & k & b' & Hb & (Hwf' & _ & Hm) & _).
  exists p, k, b'. rewrite Hb. split; [done|]. split; [done|].
  pose proof (find_byte_spec t (stream b)) as Hspec. destruct (find_byte t (stream b)) as [n|].
  - destruct Hm as (Hk & Hsl & ->), Hspec as [Hn Hnot]. split_and!; try done.
    rewrite <- (take_drop n (stream b)) at 1. by rewrite (drop_S _ _ _ Hn).
  - destruct Hm as (-> & Hs & He). split_and!; done.
Qed.

(** Items written with [bin_write], and read back with limit [len]. *)
Fixpoint write_items (items : list (list byte)) b : io_result (io_buf R W) :=
  match items with [] => Done b | data :: items => do b <- bin_write alloc data b; write_items items b end.
Fixpoint read_items (count : nat) (len : Z) b : io_result (list (list byte) * io_buf R W) :=
  match count with
  | O => Done ([], b)
  | S count => do (data, b) <- bin_read alloc len b; do (items, b) <- read_items count len b; Done (data :: items, b)
  end.

Definition item_bytes (data : list byte) : list byte := le_split 4 (Z.of_nat (length data)) ++ data.
Definition item_hash (data : list byte) (v : bool) (h : Z) : Z :=
  if v then let h := uniform_hash (le_split 4 (Z.of_nat (length data))) h in
            if (0 <? length data)%nat then uniform_hash data h else h
  else h.

Lemma bin_write_ok data b : reliable (W := W) -> wf_write b -> Z.of_nat (length data) < 2 ^ 32 ->
  exists b', bin_write alloc data b = Done b' /\ written b' = written b ++ item_bytes data /\ wf_write b' /\
    verify_hash b' = verify_hash b /\ hash b' = item_hash data (verify_hash b) (hash b).
Proof.
  intros Hr Hwf Hl. unfold bin_write, u32. rewrite Z.mod_small by lia.
  destruct (bin_write_fixed_ok alloc (le_split 4 (Z.of_nat (length data))) b Hr Hwf) as (b1 & -> & Hw1 & Hwf1 & Hv1 & Hh1 & _).
  cbn [io_bind]. destruct (bin_write_fixed_ok alloc data b1 Hr Hwf1) as (b2 & -> & Hw2 & Hwf2 & Hv2 & Hh2 & _).
  exists b2. split; [done|]. rewrite Hw2, Hw1, <- app_assoc. split_and!; try done; [congruence|].
  rewrite Hh2. unfold hash_after, item_hash. rewrite Hv1, Hh1. unfold hash_after. rewrite length_le_split.
  destruct (verify_hash b); [|done]. cbn [andb]. by destruct (0 <? length data)%nat.
Qed.

Lemma bin_read_ok data rest len b : wf b -> stream b = item_bytes data ++ rest ->
  Z.of_nat (length data) <= len -> Z.of_nat (length data) < 2 ^ 32 ->
  exists b', bin_read alloc len b = Done (data, b') /\ stream b' = rest /\ wf b' /\
    verify_hash b' = verify_hash b /\ hash b' = item_hash data (verify_hash b) (hash b).
Proof.
  intros Hwf Hs Hlen Hl. unfold bin_read, item_bytes in *. rewrite <- app_assoc in Hs.
  destruct (bin_read_fixed_ok alloc 4 b Hwf) as (b1 & -> & Hs1 & Hwf1 & Hv1 & _ & Hh1). cbn [io_bind].
  rewrite Hs in *. rewrite length_app, length_le_split in Hh1. specialize (Hh1 ltac:(lia)).
  assert (take 4 (le_split 4 (Z.of_nat (length data)) ++ data ++ rest) = le_split 4 (Z.of_nat (length data))) as Htake by done.
  rewrite Htake in *. assert (stream b1 = data ++ rest) as Hs1' by (rewrite Hs1; done). clear Hs1 Htake.
  rewrite length_le_split, le_combine_split. cbn [Nat.ltb Nat.leb orb]. change (2 ^ (Z.of_nat 4 * 8)) with (2 ^ 32).
  rewrite Z.mod_small by lia. rewrite (proj2 (Z.ltb_ge _ _)) by lia. rewrite Nat2Z.id.
  destruct (bin_read_fixed_ok alloc (length data) b1 Hwf1) as (b2 & -> & Hs2 & Hwf2 & Hv2 & _ & Hh2).
  rewrite Hs1' in *. rewrite length_app in Hh2. specialize (Hh2 ltac:(lia)). rewrite take_app_length in *. rewrite drop_app_length in Hs2.
  exists b2. split_and!; try done; [congruence|]. rewrite Hh2. unfold hash_after, item_hash. rewrite Hv1, Hh1. unfold hash_after.
  rewrite length_le_split. destruct (verify_hash b); [|done]. cbn [andb]. by destruct (0 <? length data)%nat.
Qed.

Lemma write_items_ok items : forall b, reliable (W := W) -> wf_write b ->
  Forall (fun data => Z.of_nat (length data) < 2 ^ 32) items ->
  exists b', write_items items b = Done b' /\ written b' = written b ++ mjoin (item_bytes <$> items) /\ wf_write b' /\
    hash b' = fold_left (fun h data => item_hash data (verify_hash b) h) items (hash b).
Proof.
  induction items as [|data items IH]; intros b Hr Hwf Hl.
  - exists b. csimpl. by rewrite app_nil_r.
  - apply Forall_cons in Hl as [Hd Hl]. cbn [write_items].
    destruct (bin_write_ok data b Hr Hwf Hd) as (b1 & -> & Hw & Hwf1 & Hv & Hh). cbn [io_bind].
    destruct (IH b1 Hr Hwf1 Hl) as (b2 & -> & Hw2 & Hwf2 & Hh2). exists b2. split; [done|].
    rewrite Hw2, Hw, Hh2, Hv, Hh. csimpl. by rewrite <- app_assoc.
Qed.

Lemma read_items_ok items len rest : forall b, wf b -> stream b = mjoin (item_bytes <$> items) ++ rest ->
  Forall (fun data => Z.of_nat (length data) <= len /\ Z.of_nat (length data) < 2 ^ 32) items ->
  exists b', read_items (length items) len b = Done (items, b') /\ stream b' = rest /\
    hash b' = fold_left (fun h data => item_hash data (verify_hash b) h) items (hash b).
Proof.
  induction items as [|data items IH]; intros b Hwf Hs Hl.
  - exists b. done.
  - apply Forall_cons in Hl as [[Hd1 Hd2] Hl]. cbn [read_items length]. rewrite fmap_cons in Hs. cbn [mjoin list_join] in Hs. rewrite <- app_assoc in Hs.
    destruct (bin_read_ok data _ len b Hwf Hs Hd1 Hd2) as (b1 & -> & Hs1 & Hwf1 & Hv & Hh). cbn [io_bind].
    destruct (IH b1 Hwf1 Hs1 Hl) as (b2 & -> & Hs2 & Hh2). exists b2. cbn [io_bind]. split; [done|].
    rewrite Hs2, Hh2, Hv, Hh. done.
Qed.

(** Items saved with [bin_write] and flushed come back from [bin_read], in order, from any
    input that holds what the device received, however the items fall across the buffers of both
    sides; with [verify_hash] set on both sides the reader ends with the writer's hash. *)
Theorem bin_roundtrip items len (bw br : io_buf R W) :
  reliable (W := W) -> wf_write bw -> wf br -> written bw = [] ->
  verify_hash br = verify_hash bw -> hash br = hash bw ->
  Forall (fun data => Z.of_nat (length data) <= len /\ Z.of_nat (length data) < 2 ^ 32) items ->
  exists bw', (do b <- write_items items bw; flush b) = Done bw' /\ unflushed_bytes_count bw' = 0%nat /\
    (stream br = default [] (w_done <$> list.head (output_files bw')) ->
     exists br', read_items (length items) len br = Done (items, br') /\ stream br' = [] /\ hash br' = hash bw').
Proof.
  intros Hr Hww Hwr Hempty Hv Hh Hitems.
  destruct (write_items_ok items bw Hr Hww) as (b1 & -> & Hw1 & Hwf1 & Hh1).
  { eapply Forall_impl; [exact Hitems|]. intros data [_ ?]. done. }
  cbn [io_bind]. destruct (flush_ok b1 Hr Hwf1) as (bw' & -> & Hhead & Hw2 & _ & (_ & Hh2 & _) & _).
  exists bw'. split; [done|]. split; [exact Hhead|]. intros Hs.
  assert (stream br = mjoin (item_bytes <$> items) ++ []) as Hs'.
  { rewrite Hs, app_nil_r. rewrite Hw1, Hempty in Hw2. unfold written in Hw2. rewrite Hhead, take_0, app_nil_r in Hw2. done. }
  destruct (read_items_ok items len [] br Hwr Hs' Hitems) as (br' & -> & He & Hbr). exists br'.
  split; [done|]. split; [done|]. by rewrite Hbr, Hh2, Hh1, Hv, Hh.
Qed.

(** An item whose stored length exceeds the limit, or an input that ends inside the length,
    makes [bin_read] throw. *)
Theorem bin_read_rejects len b : wf b ->
  (length (stream b) < 4)%nat \/ len < le_combine (take 4 (stream b)) -> bin_read alloc len b = Throw.
Proof.
  intros Hwf Hbad. unfold bin_read. destruct (bin_read_fixed_ok alloc 4 b Hwf) as (b1 & -> & _). cbn [io_bind].
  destruct Hbad as [Hs|Hb]; [|by rewrite (proj2 (Z.ltb_lt _ _) Hb), orb_true_r].
  rewrite take_ge by lia. by rewrite (proj2 (Nat.ltb_lt _ _) Hs).
Qed.
End IoBufProperties.

(** ** Witnesses: buffers of four bytes over memory readers and writers *)

Definition ex_reader : io_buf buffer_view vector_writer :=
  IoBuf (replicate 4 Byte.x00) 0 0 0 false 0 0 [BufferView (str "one|tw") 0; BufferView (str "o|three") 0] [].
Definition ex_writer : io_buf buffer_view vector_writer := IoBuf (replicate 4 Byte.x00) 0 0 0 true 0 0 [] [[]].
Definition ex_items : list (list byte) := [str "weights"; []; str "x"].
Definition ex_saved : list byte := mjoin (item_bytes <$> ex_items).
Definition ex_loader : io_buf buffer_view vector_writer :=
  IoBuf (replicate 4 Byte.x00) 0 0 0 true 0 0 [BufferView ex_saved 0] [].

Lemma ex_wf : wf ex_reader /\ wf ex_loader /\ wf_write ex_writer /\ reliable (W := vector_writer).
Proof. unfold wf, wf_write, reliable. cbn. split_and!; try lia; done. Qed.

Lemma buf_read_stream_witness :
  exists p k b', buf_read (fun _ => 0) (read_fuel ex_reader) 7 TEXT ex_reader = Done (p, k, b') /\
    slice p k (mem b') = str "one|two" /\ stream b' = str "|three".
Proof.
  destruct (buf_read_stream (fun _ => 0) ex_reader 7 (proj1 ex_wf)) as (p & k & b' & H1 & H2 & _ & H3 & _).
  exists p, k, b'. split; [exact H1|]. rewrite H2, H3. split; vm_compute; reflexivity.
Defined.

Lemma readto_line_witness :
  exists p k b', readto (fun _ => 0) (read_fuel ex_reader) Byte.x7c ex_reader = Done (p, k, b') /\
    k = 4%nat /\ slice p 3 (mem b') = str "one".
Proof.
  destruct (readto_line (fun _ => 0) ex_reader Byte.x7c (proj1 ex_wf)) as (p & k & b' & H1 & _ & H2).
  exists p, k, b'. split; [exact H1|].
  change (find_byte Byte.x7c (stream ex_reader)) with (Some 3%nat) in H2. destruct H2 as (-> & H2 & _). by rewrite H2.
Defined.

Lemma bin_roundtrip_witness :
  exists bw', (do b <- write_items (fun _ => 0) ex_items ex_writer; flush b) = Done bw' /\
    exists br', read_items (fun _ => 0) 3 100 ex_loader = Done (ex_items, br') /\ hash br' = hash bw'.
Proof.
  destruct ex_wf as (_ & Hr & Hw & Hrel).
  destruct (bin_roundtrip (fun _ => 0) ex_items 100 ex_writer ex_loader Hrel Hw Hr eq_refl eq_refl eq_refl) as (bw' & H1 & _ & H2).
  - repeat constructor; cbn; lia.
  - exists bw'. split; [exact H1|]. destruct H2 as (br' & H2 & _ & H3); [|exists br'; exact (conj H2 H3)].
    assert (stream ex_loader = ex_saved) as -> by (vm_compute; reflexivity).
    apply (f_equal (fun r => match r with Done b => output_files b | _ => [] end)) in H1. cbv beta iota in H1.
    assert (output_files bw' = [ex_saved]) as -> by (rewrite <- H1; vm_compute; reflexivity). reflexivity.
Defined.

Lemma bin_read_rejects_witness : bin_read (fun _ => 0) 5 ex_loader = Throw.
Proof.
  apply bin_read_rejects; [apply ex_wf|]. right.
  assert (le_combine (take 4 (stream ex_loader)) = 7) as -> by (vm_compute; reflexivity). reflexivity.
Defined.
