(* ===== verification/ModelUtils.v ===== *)
(** * Model fields ([core/include/vw/core/model_utils.h])

    The binary serialisation of values through an [io_buf]: one overload of [read_model_field] and
    [write_model_field] per type. An overload is a record of operations; the class [FieldLaws] is
    what every overload promises to those built on it. The text mode, which only writes a
    human-readable dump through a formatting library, is not modelled. *)

From Stdlib Require Import Floats.SpecFloat.
From S2P Require Import Prelude.
From S2P Require Import Ordered.
From S2P Require Import FloatBytes.
From S2P Require Import Hash.
From S2P Require Import IoBuf.

(** What [io_buf::write_value]-style calls return and take: a byte count, a value, the buffer. *)
Record model_field (R W T : Type) := ModelField {
  (** The reader gets the variable it reads into, whose content it may extend. *)
  mf_read : T -> io_buf R W -> io_result (nat * T * io_buf R W);
  mf_write : T -> io_buf R W -> io_result (nat * io_buf R W);
  (** A default-constructed variable. *)
  mf_fresh : T
}.
Arguments ModelField {R W T}.
Arguments mf_read {R W T}.
Arguments mf_write {R W T}.
Arguments mf_fresh {R W T}.

Section Operations.
Context {R W : Type} `{Reader R, Writer W} (alloc : nat -> Z).
Implicit Type b : io_buf R W.

Definition check_length_matches (actual_len expected_len : nat) : io_result nat :=
  if (0 <? expected_len)%nat && negb (actual_len =? expected_len)%nat then Throw else Done actual_len.

(** Trivial types: their bytes. *)
Definition pod_field {T} (len : nat) (encode : T -> list byte) (decode : list byte -> T) (fresh : T) : model_field R W T := {|
  mf_read _ b :=
    do (data, b) <- bin_read_fixed alloc len b;
    do n <- check_length_matches (length data) len;
    Done (n, decode data, b);
  mf_write var b :=
    do b <- bin_write_fixed alloc (encode var) b;
    do n <- check_length_matches (length (encode var)) len;
    Done (n, b);
  mf_fresh := fresh
|}.
Definition uint_field (len : nat) : model_field R W Z := pod_field len (le_split len) le_combine 0.
Definition u8_field : model_field R W Z := uint_field 1.
Definition u16_field : model_field R W Z := uint_field 2.
Definition u32_field : model_field R W Z := uint_field 4.
Definition u64_field : model_field R W Z := uint_field 8.
Definition float_field : model_field R W f32 := pod_field 4 float_bytes float_of_bytes (S754_zero false).
Definition bool_field : model_field R W bool :=
  pod_field 1 (fun x : bool => [if x then Byte.x01 else Byte.x00]) (fun bs => negb (le_combine bs =? 0)) false.

(** [std::pair] *)
Definition pair_field {A B} (fa : model_field R W A) (fb : model_field R W B) : model_field R W (A * B) := {|
  mf_read var b :=
    do (n, x, b) <- mf_read fa var.1 b;
    do (m, y, b) <- mf_read fb var.2 b;
    Done (n + m, (x, y), b)%nat;
  mf_write var b :=
    do (n, b) <- mf_write fa var.1 b;
    do (m, b) <- mf_write fb var.2 b;
    Done (n + m, b)%nat;
  mf_fresh := (mf_fresh fa, mf_fresh fb)
|}.

(** Containers: a 32-bit count, then the elements; reading adds to what the container holds. *)
Section Container.
Context {T C : Type} (f : model_field R W T) (add : T -> C -> C) (elements : C -> list T) (empty : C).

Fixpoint read_elements (count : nat) (c : C) b : io_result (nat * C * io_buf R W) :=
  match count with
  | O => Done (0%nat, c, b)
  | S count =>
      do (n, v, b) <- mf_read f (mf_fresh f) b;
      do (m, c, b) <- read_elements count (add v c) b;
      Done (n + m, c, b)%nat
  end.

Fixpoint write_elements (l : list T) b : io_result (nat * io_buf R W) :=
  match l with
  | [] => Done (0%nat, b)
  | v :: l =>
      do (n, b) <- mf_write f v b;
      do (m, b) <- write_elements l b;
      Done (n + m, b)%nat
  end.

Definition container_field : model_field R W C := {|
  mf_read c b :=
    do (n, count, b) <- mf_read u32_field 0 b;
    do (m, c, b) <- read_elements (Z.to_nat count) c b;
    Done (n + m, c, b)%nat;
  mf_write c b :=
    let size := u32 (Z.of_nat (length (elements c))) in
    do (n, b) <- mf_write u32_field size b;
    do (m, b) <- write_elements (take (Z.to_nat size) (elements c)) b;
    Done (n + m, b)%nat;
  mf_fresh := empty
|}.
End Container.

(** [std::vector] and [v_array] *)
Definition vector_field {T} (f : model_field R W T) : model_field R W (list T) :=
  container_field f (fun v vec => vec ++ [v]) id [].

(** [std::set]: its elements in increasing order. *)
Definition set_field {T} `{TotalLt T} (f : model_field R W T) : model_field R W (list T) :=
  container_field f set_insert id [].

(** [std::map]: its entries by increasing key; [map[k] = v]. *)
Fixpoint map_assign {K V} `{TotalLt K} (e : K * V) (l : list (K * V)) : list (K * V) :=
  match l with
  | [] => [e]
  | e' :: l' => if key_ltb e.1 e'.1 then e :: l else if key_ltb e'.1 e.1 then e' :: map_assign e l' else e :: l'
  end.
Definition map_field {K V} `{TotalLt K} (fk : model_field R W K) (fv : model_field R W V) : model_field R W (list (K * V)) :=
  container_field (pair_field fk fv) map_assign id [].

(** [std::unique_ptr]: a flag, then the value unless the flag says null. *)
Definition unique_ptr_field {T} (f : model_field R W T) : model_field R W (option T) := {|
  mf_read _ b :=
    do (n, is_null, b) <- mf_read bool_field false b;
    if is_null : bool then Done (n, None, b)
    else do (m, v, b) <- mf_read f (mf_fresh f) b; Done (n + m, Some v, b)%nat;
  mf_write ptr b :=
    match ptr with
    | None => mf_write bool_field true b
    | Some v =>
        do (n, b) <- mf_write bool_field false b;
        do (m, b) <- mf_write f v b;
        Done (n + m, b)%nat
    end;
  mf_fresh := None
|}.

(** [std::string]: the bytes at the pointer [buf_read] gives, as many as the stored size says; past
    the allocated buffer this is undefined. *)
Definition string_field : model_field R W (list byte) := {|
  mf_read _ b :=
    do (n, size, b) <- mf_read u32_field 0 b;
    do (p, k, b) <- buf_read alloc (read_fuel b) (Z.to_nat size) TEXT b;
    if (length (mem b) <? p + Z.to_nat size)%nat then Undefined
    else Done (n + k, slice p (Z.to_nat size) (mem b), b)%nat;
  mf_write str b :=
    do (n, b) <- mf_write u32_field (u32 (Z.of_nat (length str))) b;
    do b <- bin_write_fixed alloc str b;
    Done (n + length str, b)%nat;
  mf_fresh := []
|}.
End Operations.

(** ** The types the overloads combine to

    [read_model_field (io, var)] picks its overload by the type of the variable, member by member.
    [field_type] lists the types built from the overloads above ([std::string] apart); [denote] is
    the type of their values and [overload] the operations the compiler selects. The keys of sets
    and maps are integers. *)
Inductive int_width := W8 | W16 | W32 | W64.
Definition int_bytes (w : int_width) : nat := match w with W8 => 1 | W16 => 2 | W32 => 4 | W64 => 8 end.

Inductive field_type :=
  | T_uint (w : int_width)
  | T_float
  | T_bool
  | T_pair (first second : field_type)
  | T_vector (element : field_type)
  | T_set (key : int_width)
  | T_map (key : int_width) (value : field_type)
  | T_unique_ptr (value : field_type).

Fixpoint denote (ty : field_type) : Type :=
  match ty with
  | T_uint _ => Z
  | T_float => f32
  | T_bool => bool
  | T_pair a b => denote a * denote b
  | T_vector a => list (denote a)
  | T_set _ => list Z
  | T_map _ v => list (Z * denote v)
  | T_unique_ptr a => option (denote a)
  end%type.

Fixpoint overload {R W : Type} `{Reader R, Writer W} (alloc : nat -> Z) (ty : field_type) : model_field R W (denote ty) :=
  match ty with
  | T_uint w => uint_field alloc (int_bytes w)
  | T_float => float_field alloc
  | T_bool => bool_field alloc
  | T_pair a b => pair_field (overload alloc a) (overload alloc b)
  | T_vector a => vector_field alloc (overload alloc a)
  | T_set w => set_field alloc (uint_field alloc (int_bytes w))
  | T_map w v => map_field alloc (uint_field alloc (int_bytes w)) (overload alloc v)
  | T_unique_ptr a => unique_ptr_field alloc (overload alloc a)
  end.

(** The values a variable of the type can hold: integers in their width, valid floats, sets and maps
    in the order of their keys, and containers whose size fits its 32-bit count. *)
Definition fits_width (w : int_width) (z : Z) : Prop := 0 <= z < 2 ^ (8 * Z.of_nat (int_bytes w)).
Definition fits_count {T} (l : list T) : Prop := Z.of_nat (length l) < 2 ^ 32.

Fixpoint value_ok (ty : field_type) : denote ty -> Prop :=
  match ty with
  | T_uint w => fits_width w
  | T_float => valid_f32
  | T_bool => fun _ => True
  | T_pair a b => fun t => value_ok a t.1 /\ value_ok b t.2
  | T_vector a => fun l => Forall (value_ok a) l /\ fits_count l
  | T_set w => fun l => increasing l /\ Forall (fits_width w) l /\ fits_count l
  | T_map w v => fun l => increasing l.*1 /\ Forall (fun e => fits_width w e.1 /\ value_ok v e.2) l /\ fits_count l
  | T_unique_ptr a => fun o => match o with None => True | Some t => value_ok a t end
  end.

(** The format: integers and floats little-endian, a container as its 32-bit count and its elements
    one after the other, an optional value behind a byte that is 1 when there is none. *)
Definition count_bytes {T} (l : list T) : list byte := le_split 4 (Z.of_nat (length l)).

Fixpoint value_bytes (ty : field_type) : denote ty -> list byte :=
  match ty with
  | T_uint w => le_split (int_bytes w)
  | T_float => float_bytes
  | T_bool => fun x : bool => [if x then Byte.x01 else Byte.x00]
  | T_pair a b => fun t => value_bytes a t.1 ++ value_bytes b t.2
  | T_vector a => fun l => count_bytes l ++ mjoin (value_bytes a <$> l)
  | T_set w => fun l => count_bytes l ++ mjoin (le_split (int_bytes w) <$> l)
  | T_map w v => fun l => count_bytes l ++ mjoin ((fun e => le_split (int_bytes w) e.1 ++ value_bytes v e.2) <$> l)
  | T_unique_ptr a => fun o => match o with None => [Byte.x01] | Some t => Byte.x00 :: value_bytes a t end
  end.

(** * Theorems *)

(** ** The contract of an overload *)

Section Contract.
Context {R W : Type} `{Reader R, Writer W}.
Implicit Type b : io_buf R W.

(** Writing appends exactly [bs]; reading consumes exactly [bs], delivers [t] and reports [n] bytes;
    an input that ends inside [bs] is an error. *)
Definition writes (n : nat) (w : io_buf R W -> io_result (nat * io_buf R W)) (bs : list byte) : Prop :=
  forall b, reliable (W := W) -> wf_write b ->
  exists b', w b = Done (n, b') /\ written b' = written b ++ bs /\ wf_write b'.

Definition reads_back {T} (n : nat) (r : io_buf R W -> io_result (nat * T * io_buf R W)) (bs : list byte) (t : T) : Prop :=
  (forall rest b, wf b -> stream b = bs ++ rest ->
    exists b', r b = Done (n, t, b') /\ stream b' = rest /\ wf b') /\
  (forall k b, wf b -> (k < length bs)%nat -> stream b = take k bs -> r b = Throw).

Class FieldLaws {T} (f : model_field R W T) := {
  fl_bytes : T -> list byte;
  fl_ok : T -> Prop;
  fl_write t : fl_ok t -> writes (length (fl_bytes t)) (mf_write f t) (fl_bytes t);
  (** The variables a value may be read into: those with nothing in their containers. *)
  fl_start : T -> Prop;
  fl_fresh : fl_start (mf_fresh f);
  fl_read t var : fl_ok t -> fl_start var -> reads_back (length (fl_bytes t)) (mf_read f var) (fl_bytes t) t
}.

Lemma writes_ret n : writes n (fun b => Done (n, b)) [].
Proof. intros b _ Hwf. exists b. by rewrite app_nil_r. Qed.

Lemma writes_bind n1 n2 w1 k bs1 bs2 : writes n1 w1 bs1 -> writes n2 (k n1) bs2 ->
  writes n2 (fun b => do (n, b) <- w1 b; k n b) (bs1 ++ bs2).
Proof.
  intros H1 H2 b Hr Hwf. destruct (H1 b Hr Hwf) as (b1 & -> & Hw1 & Hwf1). cbn [io_bind].
  destruct (H2 b1 Hr Hwf1) as (b2 & -> & Hw2 & Hwf2). exists b2. by rewrite Hw2, Hw1, app_assoc.
Qed.

Lemma reads_ret {T} n (t : T) : reads_back n (fun b => Done (n, t, b)) [] t.
Proof. split; [|cbn; lia]. intros rest b Hwf Hs. by exists b. Qed.

Lemma reads_bind {T U} n1 n2 r1 (k : nat -> T -> io_buf R W -> io_result (nat * U * io_buf R W)) bs1 bs2 t u :
  reads_back n1 r1 bs1 t -> reads_back n2 (k n1 t) bs2 u ->
  reads_back n2 (fun b => do (n, x, b) <- r1 b; k n x b) (bs1 ++ bs2) u.
Proof.
  intros [H1 H1'] [H2 H2']. split.
  - intros rest b Hwf Hs. rewrite <- app_assoc in Hs. destruct (H1 _ b Hwf Hs) as (b1 & -> & Hs1 & Hwf1). cbn [io_bind].
    destruct (H2 rest b1 Hwf1 Hs1) as (b2 & -> & Hs2 & Hwf2). by exists b2.
  - intros c b Hwf Hc Hs. rewrite length_app in Hc. destruct (decide (c < length bs1)%nat).
    + rewrite take_app_le in Hs by lia. by rewrite (H1' c b).
    + rewrite take_app_ge in Hs by lia. destruct (H1 _ b Hwf Hs) as (b1 & -> & Hs1 & Hwf1). cbn [io_bind].
      apply (H2' (c - length bs1)%nat); [done|lia|done].
Qed.

Lemma writes_count n m w bs : writes n w bs -> n = m -> writes m w bs.
Proof. by intros ? <-. Qed.
Lemma reads_count {T} n m r bs (t : T) : reads_back n r bs t -> n = m -> reads_back m r bs t.
Proof. by intros ? <-. Qed.

Lemma reads_map {T U} n r bs (t : T) (g : T -> U) : reads_back n r bs t ->
  reads_back n (fun b => do (k, x, b) <- r b; Done (k, g x, b)) bs (g t).
Proof.
  intros Hr. rewrite <- (app_nil_r bs). eapply reads_bind; [exact Hr|]. apply (reads_ret n).
Qed.

(** The last step of a sequence. *)
Lemma writes_last n m w bs : writes n w bs -> writes (m + n) (fun b => do (k, b) <- w b; Done (m + k, b)%nat) bs.
Proof.
  intros Hw. rewrite <- (app_nil_r bs). eapply writes_bind; [exact Hw|]. apply writes_ret.
Qed.
Lemma reads_last {T U} n m r bs (t : T) (g : T -> U) : reads_back n r bs t ->
  reads_back (m + n) (fun b => do (k, x, b) <- r b; Done (m + k, g x, b)%nat) bs (g t).
Proof.
  intros Hr. rewrite <- (app_nil_r bs). eapply reads_bind; [exact Hr|]. apply (reads_ret (m + n)).
Qed.
End Contract.

(** Runs a sequence of field operations through the contract. *)
Ltac field_step :=
  first [ eapply writes_bind; [apply fl_write|] | eapply reads_bind; [apply fl_read; try apply fl_fresh|] | apply writes_ret | apply reads_ret ].

Section Laws.
Context {R W : Type} `{Reader R, Writer W} (alloc : nat -> Z).
Implicit Type b : io_buf R W.

Lemma pod_laws {T} len encode decode (fresh : T) (ok : T -> Prop) : (0 < len)%nat ->
  (forall t, ok t -> length (encode t) = len /\ decode (encode t) = t) ->
  FieldLaws (R := R) (W := W) (pod_field alloc len encode decode fresh).
Proof.
  intros Hlen Hok. refine {| fl_bytes := encode; fl_ok := ok; fl_start _ := True |}; [|done|].
  - intros t Ht b Hr Hwf. destruct (Hok t Ht) as [Hl _]. cbn [mf_write pod_field].
    destruct (bin_write_fixed_ok alloc (encode t) b Hr Hwf) as (b' & -> & Hw & Hwf' & _). cbn [io_bind].
    unfold check_length_matches. rewrite Hl, Nat.eqb_refl, andb_false_r. exists b'. done.
  - intros t var Ht _. destruct (Hok t Ht) as [Hl Hd]. split; cbn [mf_read pod_field].
    + intros rest b Hwf Hs. destruct (bin_read_fixed_ok alloc len b Hwf) as (b' & -> & Hs' & Hwf' & _). cbn [io_bind].
      rewrite Hs, take_app_length', drop_app_length' in * by done. rewrite Hl. unfold check_length_matches.
      rewrite Nat.eqb_refl, andb_false_r, Hd. by exists b'.
    + intros k b Hwf Hk Hs. destruct (bin_read_fixed_ok alloc len b Hwf) as (b' & -> & _). cbn [io_bind].
      rewrite Hs, length_take, length_take. unfold check_length_matches.
      rewrite (proj2 (Nat.ltb_lt 0 len)), (proj2 (Nat.eqb_neq _ _)) by lia. done.
Defined.

Lemma uint_laws len : (0 < len)%nat -> FieldLaws (R := R) (W := W) (uint_field alloc len).
Proof.
  intros Hlen. apply (pod_laws _ _ _ _ (fun z => 0 <= z < 2 ^ (Z.of_nat len * 8))); [done|].
  intros z Hz. rewrite length_le_split, le_combine_split. by rewrite Z.mod_small.
Defined.
#[export] Instance u8_laws : FieldLaws (R := R) (W := W) (u8_field alloc) := uint_laws 1 ltac:(lia).
#[export] Instance u16_laws : FieldLaws (R := R) (W := W) (u16_field alloc) := uint_laws 2 ltac:(lia).
#[export] Instance u32_laws : FieldLaws (R := R) (W := W) (u32_field alloc) := uint_laws 4 ltac:(lia).
#[export] Instance u64_laws : FieldLaws (R := R) (W := W) (u64_field alloc) := uint_laws 8 ltac:(lia).
#[export] Instance float_laws : FieldLaws (R := R) (W := W) (float_field alloc).
Proof.
  apply (pod_laws _ _ _ _ valid_f32); [lia|]. intros x Hx. rewrite length_float_bytes. by rewrite float_bytes_roundtrip.
Defined.
#[export] Instance bool_laws : FieldLaws (R := R) (W := W) (bool_field alloc).
Proof. apply (pod_laws _ _ _ _ (fun _ => True)); [lia|]. by intros [] _. Defined.

#[export] Instance pair_laws {A B} (fa : model_field R W A) (fb : model_field R W B) :
  FieldLaws fa -> FieldLaws fb -> FieldLaws (pair_field fa fb).
Proof.
  intros La Lb. refine {| fl_bytes t := fl_bytes t.1 ++ fl_bytes t.2; fl_ok t := fl_ok t.1 /\ fl_ok t.2;
                      fl_start t := fl_start t.1 /\ fl_start t.2 |}; [|split; apply fl_fresh|];
    intros [x y]; [intros [Hx Hy] | intros [x0 y0] [Hx Hy] [Hx0 Hy0]]; cbn [fst snd] in *; rewrite length_app;
    cbn [pair_field mf_write mf_read mf_fresh fst snd]; (field_step; [done..|]).
  - by apply writes_last, fl_write.
  - by apply (reads_last _ _ _ _ _ (pair x)), fl_read.
Defined.

Section ContainerLaws.
Context {T C : Type} (f : model_field R W T) (L : FieldLaws f).
Context (add : T -> C -> C) (elements : C -> list T) (empty : C).

Definition elements_bytes (l : list T) : list byte := mjoin (fl_bytes <$> l).

Lemma write_elements_ok l : Forall fl_ok l -> writes (length (elements_bytes l)) (write_elements f l) (elements_bytes l).
Proof.
  unfold elements_bytes. induction 1 as [|v l Hv _ IH]; [apply writes_ret|]. rewrite fmap_cons. cbn [mjoin list_join write_elements].
  rewrite length_app. field_step; [done|]. by apply writes_last.
Qed.

Lemma read_elements_ok l : Forall fl_ok l -> forall c,
  reads_back (length (elements_bytes l)) (read_elements f add (length l) c) (elements_bytes l) (foldl (fun c v => add v c) c l).
Proof.
  unfold elements_bytes. induction 1 as [|v l Hv _ IH]; intros c; [apply reads_ret|].
  rewrite fmap_cons. cbn [mjoin list_join length read_elements foldl].
  rewrite length_app. field_step; [done|]. apply (reads_last _ _ _ _ _ id), IH.
Qed.

(** A container whose elements rebuild it. *)
Lemma container_laws (ok : C -> Prop) :
  (forall c, ok c -> foldl (fun c v => add v c) empty (elements c) = c) ->
  FieldLaws (container_field alloc f add elements empty).
Proof.
  intros Hadd.
  refine {| fl_bytes c := le_split 4 (Z.of_nat (length (elements c))) ++ elements_bytes (elements c);
            fl_ok c := ok c /\ Forall fl_ok (elements c) /\ Z.of_nat (length (elements c)) < 2 ^ 32;
            fl_start c := c = empty |}; [|done|];
    intros c; [intros (Hc & Hl & Hn) | intros var (Hc & Hl & Hn) ->]; rewrite length_app;
    assert (fl_ok (FieldLaws := u32_laws) (Z.of_nat (length (elements c)))) as Hok by (cbn; lia).
  - cbn [mf_write container_field]. unfold u32. rewrite Z.mod_small, Nat2Z.id, take_ge by lia.
    eapply (writes_bind _ _ (mf_write (u32_field alloc) _)); [by apply (fl_write (FieldLaws := u32_laws))|].
    by apply writes_last, write_elements_ok.
  - cbn [mf_read mf_fresh container_field].
    eapply (reads_bind _ _ (mf_read (u32_field alloc) 0)); [by apply (fl_read (FieldLaws := u32_laws) _ 0)|].
    rewrite Nat2Z.id. apply (reads_last _ _ _ _ _ id). pose proof (read_elements_ok (elements c) Hl empty) as Hread. by rewrite Hadd in Hread.
Defined.
End ContainerLaws.

#[export] Instance vector_laws {T} (f : model_field R W T) : FieldLaws f -> FieldLaws (vector_field alloc f).
Proof.
  intros L. apply (container_laws f L _ _ _ (fun _ => True)). intros l _. unfold id.
  assert (forall l acc, foldl (fun c v => c ++ [v]) acc l = acc ++ l) as ->; [|done].
  clear l. induction l as [|v l IH]; intros acc; cbn [foldl]; [by rewrite app_nil_r|]. by rewrite IH, <- app_assoc.
Defined.

#[export] Instance set_laws {T} `{TotalLt T} (f : model_field R W T) : FieldLaws f -> FieldLaws (set_field alloc f).
Proof.
  intros L. apply (container_laws f L _ _ _ increasing). intros l Hl. change (set_insert_all l [] = l).
  apply increasing_eq; [apply set_insert_all_increasing; constructor|done|].
  intros x. rewrite elem_of_set_insert_all, elem_of_nil. tauto.
Defined.

Lemma map_assign_last {K V} `{TotalLt K} (e : K * V) l :
  Forall (fun e' => key_ltb e'.1 e.1 = true) l -> map_assign e l = l ++ [e].
Proof.
  induction 1 as [|e' l He _ IH]; [done|]. cbn [map_assign app]. rewrite (key_asym _ _ He), He. by rewrite IH.
Qed.

#[export] Instance map_laws {K V} `{TotalLt K} (fk : model_field R W K) (fv : model_field R W V) :
  FieldLaws fk -> FieldLaws fv -> FieldLaws (map_field alloc fk fv).
Proof.
  intros Lk Lv. apply (container_laws _ (pair_laws _ _ Lk Lv) _ _ _ (fun l => increasing l.*1)). intros l Hl. unfold id.
  assert (forall l acc : list (K * V), increasing (acc ++ l).*1 -> foldl (fun c v => map_assign v c) acc l = acc ++ l) as Hfold; [|by apply Hfold].
  clear l Hl. induction l as [|e l IH]; intros acc Hi; cbn [foldl]; [by rewrite app_nil_r|].
  rewrite map_assign_last; [rewrite IH; by rewrite <- app_assoc|].
  unfold increasing in Hi. rewrite fmap_app in Hi. apply Forall_forall. intros e' He'.
  apply StronglySorted_app in Hi as (Hlt & _ & _). apply Hlt; [by apply list_elem_of_fmap_2|]. by left.
Defined.

#[export] Instance unique_ptr_laws {T} (f : model_field R W T) : FieldLaws f -> FieldLaws (unique_ptr_field alloc f).
Proof.
  intros L. refine {| fl_bytes ptr := match ptr with None => [Byte.x01] | Some v => Byte.x00 :: fl_bytes v end;
                      fl_ok ptr := match ptr with None => True | Some v => fl_ok v end;
                      fl_start _ := True |}; [|done|]; intros [v|]; [intros Hv|intros Hv|intros var Hv _|intros var Hv _].
  - cbn [mf_write unique_ptr_field]. apply (writes_bind 1 _ _ _ [Byte.x00] (fl_bytes v)).
    + by apply (fl_write (FieldLaws := bool_laws) false).
    + by apply (writes_last _ 1), fl_write.
  - by apply (fl_write (FieldLaws := bool_laws) true).
  - cbn [mf_read mf_fresh unique_ptr_field]. apply (reads_bind 1 _ _ _ [Byte.x00] (fl_bytes v) false).
    + by apply (fl_read (FieldLaws := bool_laws) false false).
    + by apply (reads_last _ 1 _ _ _ Some), fl_read, fl_fresh.
  - cbn [mf_read mf_fresh unique_ptr_field]. apply (reads_bind 1 _ _ _ [Byte.x01] [] true).
    + by apply (fl_read (FieldLaws := bool_laws) true false).
    + apply reads_ret.
Defined.
End Laws.

(** ** Properties *)

Section Properties.
Context {R W : Type} `{Reader R, Writer W} (alloc : nat -> Z).
Implicit Type b : io_buf R W.

Lemma int_bytes_pos w : (0 < int_bytes w)%nat.
Proof. destruct w; cbn; lia. Qed.

Fixpoint overload_laws (ty : field_type) : FieldLaws (R := R) (W := W) (overload alloc ty) :=
  match ty with
  | T_uint w => uint_laws alloc (int_bytes w) (int_bytes_pos w)
  | T_float => float_laws alloc
  | T_bool => bool_laws alloc
  | T_pair a b => pair_laws _ _ (overload_laws a) (overload_laws b)
  | T_vector a => vector_laws alloc _ (overload_laws a)
  | T_set w => set_laws alloc _ (uint_laws alloc (int_bytes w) (int_bytes_pos w))
  | T_map w v => map_laws alloc _ _ (uint_laws alloc (int_bytes w) (int_bytes_pos w)) (overload_laws v)
  | T_unique_ptr a => unique_ptr_laws alloc _ (overload_laws a)
  end.

Lemma overload_ok ty t : value_ok ty t -> fl_ok (FieldLaws := overload_laws ty) t.
Proof.
  revert t. induction ty as [w| | |a IHa b IHb|a IH|w|w v IH|a IH]; intros t; cbn; unfold fits_width, fits_count; try done.
  - by rewrite Z.mul_comm.
  - intros [Ha Hb]. split; [by apply IHa|by apply IHb].
  - intros [Hl Hn]. split_and!; [done| |exact Hn]. unfold id. eapply Forall_impl; [exact Hl|]. exact IH.
  - intros (Hi & Hl & Hn). split_and!; [done| |exact Hn]. unfold id. eapply Forall_impl; [exact Hl|].
    intros z Hz. cbn. by rewrite Z.mul_comm.
  - intros (Hi & Hl & Hn). split_and!; [done| |exact Hn]. unfold id. eapply Forall_impl; [exact Hl|].
    intros e [Hk Hv]. cbn. rewrite Z.mul_comm. split; [exact Hk|by apply IH].
  - destruct t as [t|]; [|done]. apply IH.
Qed.

Lemma overload_bytes ty t : fl_bytes (FieldLaws := overload_laws ty) t = value_bytes ty t.
Proof.
  revert t. induction ty as [w| | |a IHa b IHb|a IH|w|w v IH|a IH]; intros t; cbn; try done.
  - by rewrite IHa, IHb.
  - unfold count_bytes, elements_bytes, id. f_equal. f_equal. by apply list_fmap_ext.
  - unfold count_bytes, elements_bytes, id. f_equal. f_equal. apply list_fmap_ext. intros i e _. cbn. by rewrite IH.
  - destruct t as [t|]; [|done]. by rewrite IH.
Qed.

(** C34: A value of any type built from integers, floats, booleans, pairs, vectors, sets, maps and
    optional values (whose integers fit their widths, whose floats are valid and whose containers
    hold less than 2^32 elements), written to an empty buffer by the overload of its type and
    flushed, leaves on the device exactly the bytes of the format, whose number is the count the call
    reports. Reading an input that begins with these bytes into a fresh variable gives the value back
    with the same count, wherever the reader's buffer ends, and leaves what follows them; an input
    cut anywhere inside the value makes the read throw. Strings are not among the types: their
    overload does not notice the cut. *)
Theorem model_field_roundtrip (ty : field_type) (t : denote ty) (bw br : io_buf R W) :
  value_ok ty t -> reliable (W := W) -> wf_write bw -> wf br -> written bw = [] ->
  let bytes := value_bytes ty t in
  exists bw',
    (do (n, b) <- mf_write (overload alloc ty) t bw; do b <- flush b; Done (n, b)) = Done (length bytes, bw') /\
    default [] (w_done <$> list.head (output_files bw')) = bytes /\
    (forall rest, stream br = bytes ++ rest ->
      exists br', mf_read (overload alloc ty) (mf_fresh (overload alloc ty)) br = Done (length bytes, t, br') /\ stream br' = rest) /\
    (forall k, (k < length bytes)%nat -> stream br = take k bytes ->
      mf_read (overload alloc ty) (mf_fresh (overload alloc ty)) br = Throw).
Proof.
  intros Hok Hr Hww Hwr Hempty bytes. apply overload_ok in Hok. pose proof (overload_bytes ty t) as Hbytes. fold bytes in Hbytes.
  destruct (fl_write (FieldLaws := overload_laws ty) t Hok bw Hr Hww) as (b1 & -> & Hw1 & Hwf1). cbn [io_bind].
  destruct (flush_ok b1 Hr Hwf1) as (bw' & -> & Hhead & Hw2 & _). cbn [io_bind].
  destruct (fl_read (FieldLaws := overload_laws ty) t (mf_fresh (overload alloc ty)) Hok fl_fresh) as [Hread Hshort].
  rewrite Hbytes in *. exists bw'. split; [done|]. rewrite Hw1, Hempty in Hw2. unfold written in Hw2.
  rewrite Hhead, take_0, app_nil_r in Hw2. split; [exact Hw2|]. split.
  - intros rest Hs. destruct (Hread rest br Hwr Hs) as (br' & -> & Hs' & _). by exists br'.
  - intros k Hk Hs. by apply (Hshort k).
Qed.

Lemma string_read_parts size bs b : wf b -> stream b = le_split 4 size ++ bs -> 0 <= size < 2 ^ 32 ->
  exists p b', mf_read (string_field alloc) [] b =
      (if (length (mem b') <? p + Z.to_nat size)%nat then Undefined
       else Done (4 + length (take (Z.to_nat size) bs), slice p (Z.to_nat size) (mem b'), b')%nat) /\
    ((Z.to_nat size <= length bs)%nat -> (p + Z.to_nat size <= length (mem b'))%nat) /\
    slice p (length (take (Z.to_nat size) bs)) (mem b') = take (Z.to_nat size) bs /\ stream b' = drop (Z.to_nat size) bs /\ wf b'.
Proof.
  intros Hwf Hs Hsize. cbn [mf_read string_field].
  destruct (fl_read (FieldLaws := u32_laws alloc) size 0) as [Hread _]; [cbn; lia|done|].
  destruct (Hread bs b Hwf Hs) as (b1 & Hb1 & Hs1 & Hwf1). rewrite Hb1. cbn [io_bind].
  destruct (buf_read_text alloc (read_fuel b1) b1 (Z.to_nat size) Hwf1 (read_fuel_measure b1))
    as (p & k & b' & -> & Hk & (Hsl & Hd & Hwf' & _) & Hh & He). cbn [io_bind]. rewrite Hs1 in *.
  exists p, b'. cbn [fl_bytes]. rewrite Hk in *. split_and!; try done.
  destruct Hwf' as [Hwf' _]. rewrite length_take in Hh. lia.
Qed.

(** A [std::string] shorter than 2^32 bytes comes back unchanged; but the string overload does
    not check the number of bytes it got: an input that ends inside the string is accepted, and
    the string is made of whatever lies at the read pointer, or the read runs off the buffer. *)
Theorem string_field_read str b : wf b -> Z.of_nat (length str) < 2 ^ 32 ->
  (forall rest, stream b = le_split 4 (Z.of_nat (length str)) ++ str ++ rest ->
    exists b', mf_read (string_field alloc) [] b = Done (4 + length str, str, b')%nat /\ stream b' = rest) /\
  (forall k, (k < length str)%nat -> stream b = le_split 4 (Z.of_nat (length str)) ++ take k str ->
    mf_read (string_field alloc) [] b = Undefined \/
    exists str' b', mf_read (string_field alloc) [] b = Done (4 + k, str', b')%nat).
Proof.
  intros Hwf Hl. split.
  - intros rest Hs. destruct (string_read_parts _ _ b Hwf Hs) as (p & b' & -> & Hin & Hsl & Hs' & _); [lia|].
    rewrite Nat2Z.id, take_app_length, drop_app_length in *. rewrite length_app in Hin.
    rewrite (proj2 (Nat.ltb_ge _ _)) by lia. exists b'. by rewrite Hsl.
  - intros k Hk Hs. destruct (string_read_parts _ _ b Hwf Hs) as (p & b' & -> & _); [lia|].
    rewrite Nat2Z.id, take_ge, length_take_le by (rewrite ?length_take; lia).
    case_if; [by left|right]. by do 2 eexists.
Qed.
End Properties.

(** ** Witnesses *)

Definition ex_type : field_type := T_map W32 (T_vector T_float).
Definition ex_map : list (Z * list f32) := [(3, [f32_one; f32_minus_one]); (70000, [])].
Definition ex_map_writer : io_buf buffer_view vector_writer := IoBuf (replicate 4 Byte.x00) 0 0 0 false 0 0 [] [[]].
Definition ex_map_bytes : list byte :=
  le_split 4 2 ++ le_split 4 3 ++ le_split 4 2 ++ float_bytes f32_one ++ float_bytes f32_minus_one ++ le_split 4 70000 ++ le_split 4 0.
Definition ex_map_reader : io_buf buffer_view vector_writer :=
  IoBuf (replicate 4 Byte.x00) 0 0 0 false 0 0 [BufferView ex_map_bytes 0] [].

Lemma ex_map_ok : value_ok ex_type ex_map.
Proof.
  unfold fits_count, fits_width. cbn. split_and!; [repeat constructor| |unfold fits_count; cbn; lia].
  repeat constructor; unfold fits_width, fits_count; cbn; try lia; try done.
Qed.

Lemma model_field_roundtrip_witness :
  exists bw', (do (n, b) <- mf_write (overload (fun _ => 0) ex_type) ex_map ex_map_writer; do b <- flush b; Done (n, b)) =
      Done (length ex_map_bytes, bw') /\
    default [] (w_done <$> list.head (output_files bw')) = ex_map_bytes /\
    exists br', mf_read (overload (fun _ => 0) ex_type) [] ex_map_reader = Done (length ex_map_bytes, ex_map, br') /\ stream br' = [].
Proof.
  destruct (model_field_roundtrip (fun _ => 0) ex_type ex_map ex_map_writer ex_map_reader ex_map_ok) as (bw' & H1 & H2 & H3 & _).
  - intros w bs. reflexivity.
  - unfold wf_write. cbn. split_and!; [done|lia..].
  - unfold wf. cbn. lia.
  - reflexivity.
  - exists bw'. split; [exact H1|]. split; [exact H2|].
    destruct (H3 []) as (br' & H4 & H5); [vm_compute; reflexivity|]. exists br'. exact (conj H4 H5).
Defined.

Definition ex_string_reader (bs : list byte) : io_buf buffer_view vector_writer :=
  IoBuf (replicate 4 Byte.x00) 0 0 0 false 0 0 [BufferView bs 0] [].

Lemma string_field_read_witness :
  (exists b', mf_read (string_field (fun _ => 0)) [] (ex_string_reader (le_split 4 3 ++ str "abc")) = Done (7%nat, str "abc", b')) /\
  (mf_read (string_field (fun _ => 0)) [] (ex_string_reader (le_split 4 3 ++ str "ab")) = Undefined \/
   exists s b', mf_read (string_field (fun _ => 0)) [] (ex_string_reader (le_split 4 3 ++ str "ab")) = Done (6%nat, s, b')).
Proof.
  split.
  - destruct (string_field_read (fun _ => 0) (str "abc") (ex_string_reader (le_split 4 3 ++ str "abc"))) as [H1 _];
      [unfold wf; cbn; lia|cbn; lia|].
    destruct (H1 []) as (b' & H2 & _); [vm_compute; reflexivity|]. exists b'. exact H2.
  - destruct (string_field_read (fun _ => 0) (str "abc") (ex_string_reader (le_split 4 3 ++ str "ab"))) as [_ H1];
      [unfold wf; cbn; lia|cbn; lia|].
    apply (H1 2%nat); [cbn; lia|vm_compute; reflexivity].
Defined.
