(* ===== verification/Labels.v ===== *)
(** * Labels ([core/src/*_label.cc], [cb.cc], [cost_sensitive.cc], [multiclass.cc], [simple_label*.cc],
      [label_parser.cc] and their headers)

    The eleven label types of an example with their defaults, test and weight functions, and the
    [label_parser] table entry that saves each to a cache and reads it back. *)

From Stdlib Require Import Floats.SpecFloat.
From S2P Require Import Prelude.
From S2P Require Import FloatBytes.
From S2P Require Import Hash.
From S2P Require Import IoBuf.
From S2P Require Import ModelUtils.

(** ** Data *)

#[local] Existing Instance num_f32.

Definition f32_zero : f32 := S754_zero false.
Definition FLT_MAX : f32 := S754_finite false 16777215 104.
Definition QUIET_NAN : f32 := S754_nan.
Definition UINT32_MAX : Z := 2 ^ 32 - 1.

Record simple_label := SimpleLabel { sl_label : f32 }.
Record simple_label_reduction_features := SimpleRF { slrf_weight : f32; slrf_initial : f32 }.

Record multiclass_label := MulticlassLabel { mc_label : Z; mc_weight : f32 }.

Record cs_class := CsClass { cs_x : f32; cs_class_index : Z; cs_partial_prediction : f32; cs_wap_value : f32 }.
Record cs_label := CsLabel { cs_costs : list cs_class }.

Record cb_class := CbClass { cb_cost : f32; cb_action : Z; cb_probability : f32; cb_partial_prediction : f32 }.
Record cb_label := CbLabel { cb_costs : list cb_class; cb_weight : f32 }.
Record cb_eval_label := CbEvalLabel { cbe_action : Z; cbe_event : cb_label }.
Record cb_with_observations_label := CbWithObservations {
  cbo_event : cb_label; is_observation : bool; is_definitely_bad : bool
}.

Record multilabel_label := MultilabelLabel { label_v : list Z }.

Record action_score := ActionScore { as_action : Z; as_score : f32 }.

(** [enum class ccb_example_type : uint8_t], and the same for slates. *)
Definition UNSET : Z := 0.
Definition SHARED : Z := 1.
Definition ACTION : Z := 2.
Definition SLOT : Z := 3.

Record ccb_outcome := CcbOutcome { cco_cost : f32; cco_probabilities : list action_score }.
Record ccb_label := CcbLabel {
  ccb_type : Z;
  ccb_outcome_ptr : option ccb_outcome;
  explicit_included_actions : list Z;
  ccb_weight : f32
}.

Record slates_label := SlatesLabel {
  sla_type : Z; sla_weight : f32; sla_labeled : bool; sla_cost : f32; sla_slot_id : Z; sla_probabilities : list action_score
}.

Record continuous_label_elm := ContinuousElm { cle_action : f32; cle_cost : f32; cle_pdf_value : f32 }.
Record continuous_label := ContinuousLabel { cl_costs : list continuous_label_elm }.
Record pdf_segment := PdfSegment { seg_left : f32; seg_right : f32; seg_pdf_value : f32 }.
Record continuous_reduction_features := ContinuousRF { crf_pdf : list pdf_segment; chosen_action : f32 }.

Record triplet := Triplet { tr_row : Z; tr_col : Z; tr_val : f32 }.

(** [polylabel] has one member per label type; [reduction_features] those the labels use. *)
Record polylabel := PolyLabel {
  simple : simple_label; multi : multiclass_label; cs : cs_label; cb : cb_label; cb_cont : continuous_label;
  conditional_contextual_bandit : ccb_label; slates : slates_label; cb_eval : cb_eval_label;
  multilabels : multilabel_label; cb_with_observations : cb_with_observations_label
}.
Record reduction_features := ReductionFeatures {
  simple_rf : simple_label_reduction_features;
  continuous_rf : continuous_reduction_features;
  graph_feedback_rf : list triplet
}.

Inductive label_type_t :=
  SIMPLE | CB | CB_EVAL | CB_WITH_OBSERVATIONS | CS | MULTILABEL | MULTICLASS | CCB | SLATES | NOLABEL | CONTINUOUS.

(** ** Defaults, test labels, weights *)

(** [FLT_MAX != x], [x > .0] *)
Definition is_flt_max (x : f32) : bool := (FLT_MAX =? x)%num.
Definition positive_f32 (x : f32) : bool := (x >? f32_zero)%num.

Definition simple_reset : simple_label := SimpleLabel FLT_MAX.
Definition simple_rf_reset : simple_label_reduction_features := SimpleRF f32_one f32_zero.
Definition simple_test_label (ld : simple_label) : bool := is_flt_max (sl_label ld).

Definition multiclass_reset : multiclass_label := MulticlassLabel UINT32_MAX f32_one.
Definition multiclass_is_labeled (ld : multiclass_label) : bool := negb (mc_label ld =? UINT32_MAX).
Definition test_multiclass_label (ld : multiclass_label) : bool := negb (multiclass_is_labeled ld).
Definition multiclass_label_weight (ld : multiclass_label) : f32 :=
  if positive_f32 (mc_weight ld) then mc_weight ld else f32_zero.

Definition cs_reset : cs_label := CsLabel [].
Definition cs_is_test_label (ld : cs_label) : bool :=
  match cs_costs ld with
  | [] => true
  | costs => forallb (fun cost => is_flt_max (cs_x cost)) costs
  end.
Definition is_cs_example_header (ld : cs_label) : bool :=
  match cs_costs ld with
  | [c] => (cs_class_index c =? 0) && (cs_x c =? SFopp FLT_MAX)%num
  | _ => false
  end.

Definition cb_class_default : cb_class := CbClass FLT_MAX 0 f32_minus_one f32_zero.
Definition has_observed_cost (c : cb_class) : bool := negb (is_flt_max (cb_cost c)) && positive_f32 (cb_probability c).
Definition cb_reset : cb_label := CbLabel [] f32_one.
Definition cb_is_test_label (ld : cb_label) : bool :=
  match cb_costs ld with
  | [] => true
  | costs => forallb (fun c => negb (negb (is_flt_max (cb_cost c)) && positive_f32 (cb_probability c))) costs
  end.
Fixpoint first_observed_cost (costs : list cb_class) : bool * cb_class :=
  match costs with
  | [] => (false, cb_class_default)
  | cl :: costs => if has_observed_cost cl then (true, cl) else first_observed_cost costs
  end.
Definition get_observed_cost_cb (ld : cb_label) : bool * cb_class := first_observed_cost (cb_costs ld).
Definition ec_is_example_header_cb (ld : cb_label) : bool :=
  match cb_costs ld with
  | [c] => (cb_probability c =? f32_minus_one)%num
  | _ => false
  end.

Definition cb_eval_reset : cb_eval_label := CbEvalLabel 0 cb_reset.
Definition cb_with_observations_reset : cb_with_observations_label := CbWithObservations cb_reset false false.

Definition multilabel_reset : multilabel_label := MultilabelLabel [].
Definition multilabel_is_test (ld : multilabel_label) : bool := match label_v ld with [] => true | _ => false end.

Definition ccb_reset : ccb_label := CcbLabel UNSET None [] f32_one.
Definition ccb_is_test_label (ld : ccb_label) : bool := match ccb_outcome_ptr ld with None => true | Some _ => false end.

Definition slates_reset : slates_label := SlatesLabel UNSET f32_one false f32_zero 0 [].
Definition slates_test_label (ld : slates_label) : bool := negb (sla_labeled ld).

Definition continuous_reset : continuous_label := ContinuousLabel [].
Definition continuous_is_test_label (ld : continuous_label) : bool :=
  match cl_costs ld with
  | [] => true
  | costs => forallb (fun c => negb (negb (is_flt_max (cle_cost c)) && positive_f32 (cle_pdf_value c))) costs
  end.
Definition continuous_rf_clear : continuous_reduction_features := ContinuousRF [] QUIET_NAN.

(** The loss of a multilabel prediction ([update_stats_multilabel]): both lists are walked in step. *)
Section MultilabelLoss.
Context {F : Type} `{Num F}.

Fixpoint multilabel_walk (fuel : nat) (preds given : list Z) (loss : F) : F :=
  match fuel with
  | O => loss
  | S fuel =>
      match preds, given with
      | p :: preds', g :: given' =>
          if (p <? g)%Z then multilabel_walk fuel preds' given (loss + n_of_Z 1)%num
          else if (g <? p)%Z then multilabel_walk fuel preds given' (loss + n_of_Z 1)%num
          else multilabel_walk fuel preds' given' loss
      | _, _ => ((loss + n_of_Z (Z.of_nat (length given))) + n_of_Z (Z.of_nat (length preds)))%num
      end
  end.

Definition multilabel_loss (preds given : multilabel_label) : F :=
  if multilabel_is_test given then n_of_Z 0
  else multilabel_walk (S (length (label_v preds) + length (label_v given))) (label_v preds) (label_v given) (n_of_Z 0).
End MultilabelLoss.

(** ** The fields saved, in their order *)

Section Fields.
Context {R W : Type} `{Reader R, Writer W} (alloc : nat -> Z).
Implicit Type b : io_buf R W.

Definition simple_label_field : model_field R W simple_label := {|
  mf_read var b :=
    do (n1, x1, b) <- mf_read (float_field alloc) (sl_label var) b;
    Done (n1, SimpleLabel x1, b)%nat;
  mf_write var b :=
    do (n1, b) <- mf_write (float_field alloc) (sl_label var) b;
    Done (n1, b)%nat;
  mf_fresh := SimpleLabel FLT_MAX
|}.

Definition simple_rf_field : model_field R W simple_label_reduction_features := {|
  mf_read var b :=
    do (n1, x1, b) <- mf_read (float_field alloc) (slrf_weight var) b;
    do (n2, x2, b) <- mf_read (float_field alloc) (slrf_initial var) b;
    Done (n1 + n2, SimpleRF x1 x2, b)%nat;
  mf_write var b :=
    do (n1, b) <- mf_write (float_field alloc) (slrf_weight var) b;
    do (n2, b) <- mf_write (float_field alloc) (slrf_initial var) b;
    Done (n1 + n2, b)%nat;
  mf_fresh := SimpleRF f32_one f32_zero
|}.

Definition multiclass_field : model_field R W multiclass_label := {|
  mf_read var b :=
    do (n1, x1, b) <- mf_read (u32_field alloc) (mc_label var) b;
    do (n2, x2, b) <- mf_read (float_field alloc) (mc_weight var) b;
    Done (n1 + n2, MulticlassLabel x1 x2, b)%nat;
  mf_write var b :=
    do (n1, b) <- mf_write (u32_field alloc) (mc_label var) b;
    do (n2, b) <- mf_write (float_field alloc) (mc_weight var) b;
    Done (n1 + n2, b)%nat;
  mf_fresh := multiclass_reset
|}.

Definition cs_class_field : model_field R W cs_class := {|
  mf_read var b :=
    do (n1, x1, b) <- mf_read (float_field alloc) (cs_x var) b;
    do (n2, x2, b) <- mf_read (u32_field alloc) (cs_class_index var) b;
    do (n3, x3, b) <- mf_read (float_field alloc) (cs_partial_prediction var) b;
    do (n4, x4, b) <- mf_read (float_field alloc) (cs_wap_value var) b;
    Done (n1 + n2 + n3 + n4, CsClass x1 x2 x3 x4, b)%nat;
  mf_write var b :=
    do (n1, b) <- mf_write (float_field alloc) (cs_x var) b;
    do (n2, b) <- mf_write (u32_field alloc) (cs_class_index var) b;
    do (n3, b) <- mf_write (float_field alloc) (cs_partial_prediction var) b;
    do (n4, b) <- mf_write (float_field alloc) (cs_wap_value var) b;
    Done (n1 + n2 + n3 + n4, b)%nat;
  mf_fresh := CsClass f32_zero 0 f32_zero f32_zero
|}.

Definition cs_label_field : model_field R W cs_label := {|
  mf_read var b :=
    do (n1, x1, b) <- mf_read (vector_field alloc cs_class_field) (cs_costs var) b;
    Done (n1, CsLabel x1, b)%nat;
  mf_write var b :=
    do (n1, b) <- mf_write (vector_field alloc cs_class_field) (cs_costs var) b;
    Done (n1, b)%nat;
  mf_fresh := cs_reset
|}.

Definition cb_class_field : model_field R W cb_class := {|
  mf_read var b :=
    do (n1, x1, b) <- mf_read (float_field alloc) (cb_cost var) b;
    do (n2, x2, b) <- mf_read (u32_field alloc) (cb_action var) b;
    do (n3, x3, b) <- mf_read (float_field alloc) (cb_probability var) b;
    do (n4, x4, b) <- mf_read (float_field alloc) (cb_partial_prediction var) b;
    Done (n1 + n2 + n3 + n4, CbClass x1 x2 x3 x4, b)%nat;
  mf_write var b :=
    do (n1, b) <- mf_write (float_field alloc) (cb_cost var) b;
    do (n2, b) <- mf_write (u32_field alloc) (cb_action var) b;
    do (n3, b) <- mf_write (float_field alloc) (cb_probability var) b;
    do (n4, b) <- mf_write (float_field alloc) (cb_partial_prediction var) b;
    Done (n1 + n2 + n3 + n4, b)%nat;
  mf_fresh := cb_class_default
|}.

Definition cb_label_field : model_field R W cb_label := {|
  mf_read var b :=
    do (n1, x1, b) <- mf_read (vector_field alloc cb_class_field) (cb_costs var) b;
    do (n2, x2, b) <- mf_read (float_field alloc) (cb_weight var) b;
    Done (n1 + n2, CbLabel x1 x2, b)%nat;
  mf_write var b :=
    do (n1, b) <- mf_write (vector_field alloc cb_class_field) (cb_costs var) b;
    do (n2, b) <- mf_write (float_field alloc) (cb_weight var) b;
    Done (n1 + n2, b)%nat;
  mf_fresh := cb_reset
|}.

Definition cb_eval_field : model_field R W cb_eval_label := {|
  mf_read var b :=
    do (n1, x1, b) <- mf_read (u32_field alloc) (cbe_action var) b;
    do (n2, x2, b) <- mf_read cb_label_field (cbe_event var) b;
    Done (n1 + n2, CbEvalLabel x1 x2, b)%nat;
  mf_write var b :=
    do (n1, b) <- mf_write (u32_field alloc) (cbe_action var) b;
    do (n2, b) <- mf_write cb_label_field (cbe_event var) b;
    Done (n1 + n2, b)%nat;
  mf_fresh := cb_eval_reset
|}.

Definition cb_with_observations_field : model_field R W cb_with_observations_label := {|
  mf_read var b :=
    do (n1, x1, b) <- mf_read cb_label_field (cbo_event var) b;
    do (n2, x2, b) <- mf_read (bool_field alloc) (is_observation var) b;
    do (n3, x3, b) <- mf_read (bool_field alloc) (is_definitely_bad var) b;
    Done (n1 + n2 + n3, CbWithObservations x1 x2 x3, b)%nat;
  mf_write var b :=
    do (n1, b) <- mf_write cb_label_field (cbo_event var) b;
    do (n2, b) <- mf_write (bool_field alloc) (is_observation var) b;
    do (n3, b) <- mf_write (bool_field alloc) (is_definitely_bad var) b;
    Done (n1 + n2 + n3, b)%nat;
  mf_fresh := cb_with_observations_reset
|}.

Definition multilabel_field : model_field R W multilabel_label := {|
  mf_read var b :=
    do (n1, x1, b) <- mf_read (vector_field alloc (u32_field alloc)) (label_v var) b;
    Done (n1, MultilabelLabel x1, b)%nat;
  mf_write var b :=
    do (n1, b) <- mf_write (vector_field alloc (u32_field alloc)) (label_v var) b;
    Done (n1, b)%nat;
  mf_fresh := multilabel_reset
|}.

Definition action_score_field : model_field R W action_score := {|
  mf_read var b :=
    do (n1, x1, b) <- mf_read (u32_field alloc) (as_action var) b;
    do (n2, x2, b) <- mf_read (float_field alloc) (as_score var) b;
    Done (n1 + n2, ActionScore x1 x2, b)%nat;
  mf_write var b :=
    do (n1, b) <- mf_write (u32_field alloc) (as_action var) b;
    do (n2, b) <- mf_write (float_field alloc) (as_score var) b;
    Done (n1 + n2, b)%nat;
  mf_fresh := ActionScore 0 f32_zero
|}.

Definition ccb_outcome_field : model_field R W ccb_outcome := {|
  mf_read var b :=
    do (n1, x1, b) <- mf_read (float_field alloc) (cco_cost var) b;
    do (n2, x2, b) <- mf_read (vector_field alloc action_score_field) (cco_probabilities var) b;
    Done (n1 + n2, CcbOutcome x1 x2, b)%nat;
  mf_write var b :=
    do (n1, b) <- mf_write (float_field alloc) (cco_cost var) b;
    do (n2, b) <- mf_write (vector_field alloc action_score_field) (cco_probabilities var) b;
    Done (n1 + n2, b)%nat;
  mf_fresh := CcbOutcome f32_zero []
|}.

(** An outcome already there is kept, emptied, when the cache holds none. *)
Definition ccb_field : model_field R W ccb_label := {|
  mf_read var b :=
    let outcome := (fun o => CcbOutcome (cco_cost o) []) <$> ccb_outcome_ptr var in
    do (n1, type, b) <- mf_read (u8_field alloc) (ccb_type var) b;
    do (n2, outcome_is_present, b) <- mf_read (bool_field alloc) false b;
    do (n3, outcome, b) <-
      (if outcome_is_present : bool then
         do (n, o, b) <- mf_read ccb_outcome_field (CcbOutcome f32_zero []) b;
         Done (n, Some o, b)
       else Done (0%nat, outcome, b));
    do (n4, actions, b) <- mf_read (vector_field alloc (u32_field alloc)) [] b;
    do (n5, weight, b) <- mf_read (float_field alloc) (ccb_weight var) b;
    Done (n1 + n2 + n3 + n4 + n5, CcbLabel type outcome actions weight, b)%nat;
  mf_write var b :=
    do (n1, b) <- mf_write (u8_field alloc) (ccb_type var) b;
    do (n2, b) <- mf_write (bool_field alloc) (match ccb_outcome_ptr var with Some _ => true | None => false end) b;
    do (n3, b) <- (match ccb_outcome_ptr var with Some o => mf_write ccb_outcome_field o b | None => Done (0%nat, b) end);
    do (n4, b) <- mf_write (vector_field alloc (u32_field alloc)) (explicit_included_actions var) b;
    do (n5, b) <- mf_write (float_field alloc) (ccb_weight var) b;
    Done (n1 + n2 + n3 + n4 + n5, b)%nat;
  mf_fresh := CcbLabel UNSET None [] f32_zero
|}.

Definition slates_field : model_field R W slates_label := {|
  mf_read var b :=
    do (n1, x1, b) <- mf_read (u8_field alloc) (sla_type var) b;
    do (n2, x2, b) <- mf_read (float_field alloc) (sla_weight var) b;
    do (n3, x3, b) <- mf_read (bool_field alloc) (sla_labeled var) b;
    do (n4, x4, b) <- mf_read (float_field alloc) (sla_cost var) b;
    do (n5, x5, b) <- mf_read (u32_field alloc) (sla_slot_id var) b;
    do (n6, x6, b) <- mf_read (vector_field alloc action_score_field) (sla_probabilities var) b;
    Done (n1 + n2 + n3 + n4 + n5 + n6, SlatesLabel x1 x2 x3 x4 x5 x6, b)%nat;
  mf_write var b :=
    do (n1, b) <- mf_write (u8_field alloc) (sla_type var) b;
    do (n2, b) <- mf_write (float_field alloc) (sla_weight var) b;
    do (n3, b) <- mf_write (bool_field alloc) (sla_labeled var) b;
    do (n4, b) <- mf_write (float_field alloc) (sla_cost var) b;
    do (n5, b) <- mf_write (u32_field alloc) (sla_slot_id var) b;
    do (n6, b) <- mf_write (vector_field alloc action_score_field) (sla_probabilities var) b;
    Done (n1 + n2 + n3 + n4 + n5 + n6, b)%nat;
  mf_fresh := slates_reset
|}.

Definition continuous_elm_field : model_field R W continuous_label_elm := {|
  mf_read var b :=
    do (n1, x1, b) <- mf_read (float_field alloc) (cle_action var) b;
    do (n2, x2, b) <- mf_read (float_field alloc) (cle_cost var) b;
    do (n3, x3, b) <- mf_read (float_field alloc) (cle_pdf_value var) b;
    Done (n1 + n2 + n3, ContinuousElm x1 x2 x3, b)%nat;
  mf_write var b :=
    do (n1, b) <- mf_write (float_field alloc) (cle_action var) b;
    do (n2, b) <- mf_write (float_field alloc) (cle_cost var) b;
    do (n3, b) <- mf_write (float_field alloc) (cle_pdf_value var) b;
    Done (n1 + n2 + n3, b)%nat;
  mf_fresh := ContinuousElm f32_zero f32_zero f32_zero
|}.

Definition continuous_field : model_field R W continuous_label := {|
  mf_read var b :=
    do (n1, x1, b) <- mf_read (vector_field alloc continuous_elm_field) (cl_costs var) b;
    Done (n1, ContinuousLabel x1, b)%nat;
  mf_write var b :=
    do (n1, b) <- mf_write (vector_field alloc continuous_elm_field) (cl_costs var) b;
    Done (n1, b)%nat;
  mf_fresh := continuous_reset
|}.

Definition pdf_segment_field : model_field R W pdf_segment := {|
  mf_read var b :=
    do (n1, x1, b) <- mf_read (float_field alloc) (seg_left var) b;
    do (n2, x2, b) <- mf_read (float_field alloc) (seg_right var) b;
    do (n3, x3, b) <- mf_read (float_field alloc) (seg_pdf_value var) b;
    Done (n1 + n2 + n3, PdfSegment x1 x2 x3, b)%nat;
  mf_write var b :=
    do (n1, b) <- mf_write (float_field alloc) (seg_left var) b;
    do (n2, b) <- mf_write (float_field alloc) (seg_right var) b;
    do (n3, b) <- mf_write (float_field alloc) (seg_pdf_value var) b;
    Done (n1 + n2 + n3, b)%nat;
  mf_fresh := PdfSegment f32_zero f32_zero f32_zero
|}.

Definition continuous_rf_field : model_field R W continuous_reduction_features := {|
  mf_read var b :=
    do (n1, x1, b) <- mf_read (vector_field alloc pdf_segment_field) (crf_pdf var) b;
    do (n2, x2, b) <- mf_read (float_field alloc) (chosen_action var) b;
    Done (n1 + n2, ContinuousRF x1 x2, b)%nat;
  mf_write var b :=
    do (n1, b) <- mf_write (vector_field alloc pdf_segment_field) (crf_pdf var) b;
    do (n2, b) <- mf_write (float_field alloc) (chosen_action var) b;
    Done (n1 + n2, b)%nat;
  mf_fresh := continuous_rf_clear
|}.

(** ** The label parsers: the cache side of [VW::label_parser]

    Every function gets the whole label and touches its own member. *)

Record label_parser := LabelParser {
  lp_default_label : polylabel -> polylabel;
  lp_cache_label : polylabel -> reduction_features -> io_buf R W -> io_result (nat * io_buf R W);
  lp_read_cached_label : polylabel -> reduction_features -> io_buf R W ->
    io_result (nat * (polylabel * reduction_features) * io_buf R W);
  lp_get_weight : polylabel -> reduction_features -> f32;
  lp_test_label : polylabel -> bool;
  lp_label_type : label_type_t
}.

(** A label kept in the member [get]/[set], read and written by one overload. *)
Definition read_member {T} (f : model_field R W T) (get : polylabel -> T) (set : T -> polylabel -> polylabel)
    (l : polylabel) (rf : reduction_features) b : io_result (nat * (polylabel * reduction_features) * io_buf R W) :=
  do (n, x, b) <- mf_read f (get l) b;
  Done (n, (set x l, rf), b).
Definition write_member {T} (f : model_field R W T) (get : polylabel -> T)
    (l : polylabel) (_ : reduction_features) b : io_result (nat * io_buf R W) := mf_write f (get l) b.
Definition set_simple x (l : polylabel) : polylabel := PolyLabel x (multi l) (cs l) (cb l) (cb_cont l) (conditional_contextual_bandit l) (slates l) (cb_eval l) (multilabels l) (cb_with_observations l).
Definition set_multi x (l : polylabel) : polylabel := PolyLabel (simple l) x (cs l) (cb l) (cb_cont l) (conditional_contextual_bandit l) (slates l) (cb_eval l) (multilabels l) (cb_with_observations l).
Definition set_cs x (l : polylabel) : polylabel := PolyLabel (simple l) (multi l) x (cb l) (cb_cont l) (conditional_contextual_bandit l) (slates l) (cb_eval l) (multilabels l) (cb_with_observations l).
Definition set_cb x (l : polylabel) : polylabel := PolyLabel (simple l) (multi l) (cs l) x (cb_cont l) (conditional_contextual_bandit l) (slates l) (cb_eval l) (multilabels l) (cb_with_observations l).
Definition set_cb_cont x (l : polylabel) : polylabel := PolyLabel (simple l) (multi l) (cs l) (cb l) x (conditional_contextual_bandit l) (slates l) (cb_eval l) (multilabels l) (cb_with_observations l).
Definition set_conditional_contextual_bandit x (l : polylabel) : polylabel := PolyLabel (simple l) (multi l) (cs l) (cb l) (cb_cont l) x (slates l) (cb_eval l) (multilabels l) (cb_with_observations l).
Definition set_slates x (l : polylabel) : polylabel := PolyLabel (simple l) (multi l) (cs l) (cb l) (cb_cont l) (conditional_contextual_bandit l) x (cb_eval l) (multilabels l) (cb_with_observations l).
Definition set_cb_eval x (l : polylabel) : polylabel := PolyLabel (simple l) (multi l) (cs l) (cb l) (cb_cont l) (conditional_contextual_bandit l) (slates l) x (multilabels l) (cb_with_observations l).
Definition set_multilabels x (l : polylabel) : polylabel := PolyLabel (simple l) (multi l) (cs l) (cb l) (cb_cont l) (conditional_contextual_bandit l) (slates l) (cb_eval l) x (cb_with_observations l).
Definition set_cb_with_observations x (l : polylabel) : polylabel := PolyLabel (simple l) (multi l) (cs l) (cb l) (cb_cont l) (conditional_contextual_bandit l) (slates l) (cb_eval l) (multilabels l) x.

Definition simple_label_parser_global : label_parser := {|
  lp_default_label l := set_simple simple_reset l;
  lp_cache_label l rf b :=
    do (n1, b) <- mf_write simple_label_field (simple l) b;
    do (n2, b) <- mf_write simple_rf_field (simple_rf rf) b;
    Done (n1 + n2, b)%nat;
  lp_read_cached_label l rf b :=
    do (n1, x, b) <- mf_read simple_label_field (simple l) b;
    do (n2, r, b) <- mf_read simple_rf_field (simple_rf rf) b;
    Done (n1 + n2, (set_simple x l, ReductionFeatures r (continuous_rf rf) (graph_feedback_rf rf)), b)%nat;
  lp_get_weight l rf := slrf_weight (simple_rf rf);
  lp_test_label l := simple_test_label (simple l);
  lp_label_type := SIMPLE
|}.

Definition multiclass_label_parser_global : label_parser := {|
  lp_default_label l := set_multi multiclass_reset l;
  lp_cache_label := write_member multiclass_field multi;
  lp_read_cached_label := read_member multiclass_field multi set_multi;
  lp_get_weight l rf := multiclass_label_weight (multi l);
  lp_test_label l := test_multiclass_label (multi l);
  lp_label_type := MULTICLASS
|}.

Definition cs_label_parser_global : label_parser := {|
  lp_default_label l := set_cs cs_reset l;
  lp_cache_label := write_member cs_label_field cs;
  lp_read_cached_label := read_member cs_label_field cs set_cs;
  lp_get_weight l rf := f32_one;
  lp_test_label l := cs_is_test_label (cs l);
  lp_label_type := CS
|}.

Definition cb_label_parser_global : label_parser := {|
  lp_default_label l := set_cb cb_reset l;
  lp_cache_label := write_member cb_label_field cb;
  lp_read_cached_label := read_member cb_label_field cb set_cb;
  lp_get_weight l rf := cb_weight (cb l);
  lp_test_label l := cb_is_test_label (cb l);
  lp_label_type := CB
|}.

Definition cb_eval_label_parser_global : label_parser := {|
  lp_default_label l := set_cb_eval (CbEvalLabel 0 cb_reset) l;
  lp_cache_label := write_member cb_eval_field cb_eval;
  lp_read_cached_label := read_member cb_eval_field cb_eval set_cb_eval;
  lp_get_weight l rf := cb_weight (cbe_event (cb_eval l));
  lp_test_label l := cb_is_test_label (cbe_event (cb_eval l));
  lp_label_type := CB_EVAL
|}.

Definition cb_with_observations_global : label_parser := {|
  lp_default_label l := set_cb_with_observations cb_with_observations_reset l;
  lp_cache_label := write_member cb_with_observations_field cb_with_observations;
  lp_read_cached_label := read_member cb_with_observations_field cb_with_observations set_cb_with_observations;
  lp_get_weight l rf := cb_weight (cbo_event (cb_with_observations l));
  lp_test_label l := cb_is_test_label (cbo_event (cb_with_observations l));
  lp_label_type := CB_WITH_OBSERVATIONS
|}.

Definition multilabel_label_parser_global : label_parser := {|
  lp_default_label l := set_multilabels multilabel_reset l;
  lp_cache_label := write_member multilabel_field multilabels;
  lp_read_cached_label := read_member multilabel_field multilabels set_multilabels;
  lp_get_weight l rf := f32_one;
  lp_test_label l := multilabel_is_test (multilabels l);
  lp_label_type := MULTILABEL
|}.

Definition ccb_label_parser_global : label_parser := {|
  lp_default_label l := set_conditional_contextual_bandit ccb_reset l;
  lp_cache_label := write_member ccb_field conditional_contextual_bandit;
  lp_read_cached_label := read_member ccb_field conditional_contextual_bandit set_conditional_contextual_bandit;
  lp_get_weight l rf := ccb_weight (conditional_contextual_bandit l);
  lp_test_label l := ccb_is_test_label (conditional_contextual_bandit l);
  lp_label_type := CCB
|}.

Definition slates_label_parser : label_parser := {|
  lp_default_label l := set_slates slates_reset l;
  lp_cache_label := write_member slates_field slates;
  lp_read_cached_label := read_member slates_field slates set_slates;
  lp_get_weight l rf := sla_weight (slates l);
  lp_test_label l := slates_test_label (slates l);
  lp_label_type := SLATES
|}.

Definition no_label_parser_global : label_parser := {|
  lp_default_label l := l;
  lp_cache_label l rf b := Done (1%nat, b);
  lp_read_cached_label l rf b := Done (1%nat, (l, rf), b);
  lp_get_weight l rf := f32_one;
  lp_test_label l := false;
  lp_label_type := NOLABEL
|}.

Definition continuous_label_parser : label_parser := {|
  lp_default_label l := set_cb_cont continuous_reset l;
  lp_cache_label l rf b :=
    do (n1, b) <- mf_write continuous_field (cb_cont l) b;
    do (n2, b) <- mf_write continuous_rf_field (continuous_rf rf) b;
    Done (n1 + n2, b)%nat;
  lp_read_cached_label l rf b :=
    do (n1, x, b) <- mf_read continuous_field (cb_cont l) b;
    do (n2, r, b) <- mf_read continuous_rf_field (continuous_rf rf) b;
    Done (n1 + n2, (set_cb_cont x l, ReductionFeatures (simple_rf rf) r (graph_feedback_rf rf)), b)%nat;
  lp_get_weight l rf := f32_one;
  lp_test_label l := continuous_is_test_label (cb_cont l);
  lp_label_type := CONTINUOUS
|}.

Definition get_label_parser (label_type : label_type_t) : label_parser :=
  match label_type with
  | SIMPLE => simple_label_parser_global
  | CB => cb_label_parser_global
  | CB_EVAL => cb_eval_label_parser_global
  | CB_WITH_OBSERVATIONS => cb_with_observations_global
  | CS => cs_label_parser_global
  | MULTILABEL => multilabel_label_parser_global
  | MULTICLASS => multiclass_label_parser_global
  | CCB => ccb_label_parser_global
  | SLATES => slates_label_parser
  | NOLABEL => no_label_parser_global
  | CONTINUOUS => continuous_label_parser
  end.
End Fields.

(** * Theorems *)

Section FieldLaws.
Context {R W : Type} `{Reader R, Writer W} (alloc : nat -> Z).

(** The fields of a record one after the other, and the byte count they add up to. *)
Ltac record_step :=
  cbn [mjoin list_join fl_bytes mf_write mf_read mf_fresh] in *;
  first [ eapply writes_count | eapply reads_count ];
  [ repeat (first [ field_step | eapply writes_bind; [apply writes_ret|]
                  | eapply reads_bind; [apply reads_map; apply fl_read; try apply fl_fresh|]
                  | eapply reads_bind; [apply reads_ret|] ]; [try done..|]); field_step | rewrite ?length_app, ?Nat.add_assoc, ?Nat.add_0_r; reflexivity ].
Ltac record_laws :=
  [> intros [] Hok; cbv beta in Hok; destruct_and? Hok; record_step
   | cbv beta; split_and?; apply fl_fresh || done
   | intros [] [] Hok Hst; cbv beta in Hok, Hst; destruct_and? Hok; destruct_and? Hst; record_step ].

#[export] Instance simple_label_laws : FieldLaws (simple_label_field alloc).
Proof.
  refine {| fl_bytes t := mjoin [fl_bytes (f := float_field alloc) (sl_label t)];
            fl_ok t := fl_ok (f := float_field alloc) (sl_label t);
            fl_start t := fl_start (f := float_field alloc) (sl_label t) |}; record_laws.
Defined.

#[export] Instance simple_rf_laws : FieldLaws (simple_rf_field alloc).
Proof.
  refine {| fl_bytes t := mjoin [fl_bytes (f := float_field alloc) (slrf_weight t); fl_bytes (f := float_field alloc) (slrf_initial t)];
            fl_ok t := fl_ok (f := float_field alloc) (slrf_weight t) /\ fl_ok (f := float_field alloc) (slrf_initial t);
            fl_start t := fl_start (f := float_field alloc) (slrf_weight t) /\ fl_start (f := float_field alloc) (slrf_initial t) |}; record_laws.
Defined.

#[export] Instance multiclass_laws : FieldLaws (multiclass_field alloc).
Proof.
  refine {| fl_bytes t := mjoin [fl_bytes (f := u32_field alloc) (mc_label t); fl_bytes (f := float_field alloc) (mc_weight t)];
            fl_ok t := fl_ok (f := u32_field alloc) (mc_label t) /\ fl_ok (f := float_field alloc) (mc_weight t);
            fl_start t := fl_start (f := u32_field alloc) (mc_label t) /\ fl_start (f := float_field alloc) (mc_weight t) |}; record_laws.
Defined.

#[export] Instance cs_class_laws : FieldLaws (cs_class_field alloc).
Proof.
  refine {| fl_bytes t := mjoin [fl_bytes (f := float_field alloc) (cs_x t); fl_bytes (f := u32_field alloc) (cs_class_index t); fl_bytes (f := float_field alloc) (cs_partial_prediction t); fl_bytes (f := float_field alloc) (cs_wap_value t)];
            fl_ok t := fl_ok (f := float_field alloc) (cs_x t) /\ fl_ok (f := u32_field alloc) (cs_class_index t) /\ fl_ok (f := float_field alloc) (cs_partial_prediction t) /\ fl_ok (f := float_field alloc) (cs_wap_value t);
            fl_start t := fl_start (f := float_field alloc) (cs_x t) /\ fl_start (f := u32_field alloc) (cs_class_index t) /\ fl_start (f := float_field alloc) (cs_partial_prediction t) /\ fl_start (f := float_field alloc) (cs_wap_value t) |}; record_laws.
Defined.

#[export] Instance cs_label_laws : FieldLaws (cs_label_field alloc).
Proof.
  refine {| fl_bytes t := mjoin [fl_bytes (f := (vector_field alloc (cs_class_field alloc))) (cs_costs t)];
            fl_ok t := fl_ok (f := (vector_field alloc (cs_class_field alloc))) (cs_costs t);
            fl_start t := fl_start (f := (vector_field alloc (cs_class_field alloc))) (cs_costs t) |}; record_laws.
Defined.

#[export] Instance cb_class_laws : FieldLaws (cb_class_field alloc).
Proof.
  refine {| fl_bytes t := mjoin [fl_bytes (f := float_field alloc) (cb_cost t); fl_bytes (f := u32_field alloc) (cb_action t); fl_bytes (f := float_field alloc) (cb_probability t); fl_bytes (f := float_field alloc) (cb_partial_prediction t)];
            fl_ok t := fl_ok (f := float_field alloc) (cb_cost t) /\ fl_ok (f := u32_field alloc) (cb_action t) /\ fl_ok (f := float_field alloc) (cb_probability t) /\ fl_ok (f := float_field alloc) (cb_partial_prediction t);
            fl_start t := fl_start (f := float_field alloc) (cb_cost t) /\ fl_start (f := u32_field alloc) (cb_action t) /\ fl_start (f := float_field alloc) (cb_probability t) /\ fl_start (f := float_field alloc) (cb_partial_prediction t) |}; record_laws.
Defined.

#[export] Instance cb_label_laws : FieldLaws (cb_label_field alloc).
Proof.
  refine {| fl_bytes t := mjoin [fl_bytes (f := (vector_field alloc (cb_class_field alloc))) (cb_costs t); fl_bytes (f := float_field alloc) (cb_weight t)];
            fl_ok t := fl_ok (f := (vector_field alloc (cb_class_field alloc))) (cb_costs t) /\ fl_ok (f := float_field alloc) (cb_weight t);
            fl_start t := fl_start (f := (vector_field alloc (cb_class_field alloc))) (cb_costs t) /\ fl_start (f := float_field alloc) (cb_weight t) |}; record_laws.
Defined.

#[export] Instance cb_eval_laws : FieldLaws (cb_eval_field alloc).
Proof.
  refine {| fl_bytes t := mjoin [fl_bytes (f := u32_field alloc) (cbe_action t); fl_bytes (f := cb_label_field alloc) (cbe_event t)];
            fl_ok t := fl_ok (f := u32_field alloc) (cbe_action t) /\ fl_ok (f := cb_label_field alloc) (cbe_event t);
            fl_start t := fl_start (f := u32_field alloc) (cbe_action t) /\ fl_start (f := cb_label_field alloc) (cbe_event t) |}; record_laws.
Defined.

#[export] Instance cb_with_observations_laws : FieldLaws (cb_with_observations_field alloc).
Proof.
  refine {| fl_bytes t := mjoin [fl_bytes (f := cb_label_field alloc) (cbo_event t); fl_bytes (f := bool_field alloc) (is_observation t); fl_bytes (f := bool_field alloc) (is_definitely_bad t)];
            fl_ok t := fl_ok (f := cb_label_field alloc) (cbo_event t) /\ fl_ok (f := bool_field alloc) (is_observation t) /\ fl_ok (f := bool_field alloc) (is_definitely_bad t);
            fl_start t := fl_start (f := cb_label_field alloc) (cbo_event t) /\ fl_start (f := bool_field alloc) (is_observation t) /\ fl_start (f := bool_field alloc) (is_definitely_bad t) |}; record_laws.
Defined.

#[export] Instance multilabel_laws : FieldLaws (multilabel_field alloc).
Proof.
  refine {| fl_bytes t := mjoin [fl_bytes (f := (vector_field alloc (u32_field alloc))) (label_v t)];
            fl_ok t := fl_ok (f := (vector_field alloc (u32_field alloc))) (label_v t);
            fl_start t := fl_start (f := (vector_field alloc (u32_field alloc))) (label_v t) |}; record_laws.
Defined.

#[export] Instance action_score_laws : FieldLaws (action_score_field alloc).
Proof.
  refine {| fl_bytes t := mjoin [fl_bytes (f := u32_field alloc) (as_action t); fl_bytes (f := float_field alloc) (as_score t)];
            fl_ok t := fl_ok (f := u32_field alloc) (as_action t) /\ fl_ok (f := float_field alloc) (as_score t);
            fl_start t := fl_start (f := u32_field alloc) (as_action t) /\ fl_start (f := float_field alloc) (as_score t) |}; record_laws.
Defined.

#[export] Instance ccb_outcome_laws : FieldLaws (ccb_outcome_field alloc).
Proof.
  refine {| fl_bytes t := mjoin [fl_bytes (f := float_field alloc) (cco_cost t); fl_bytes (f := (vector_field alloc (action_score_field alloc))) (cco_probabilities t)];
            fl_ok t := fl_ok (f := float_field alloc) (cco_cost t) /\ fl_ok (f := (vector_field alloc (action_score_field alloc))) (cco_probabilities t);
            fl_start t := fl_start (f := float_field alloc) (cco_cost t) /\ fl_start (f := (vector_field alloc (action_score_field alloc))) (cco_probabilities t) |}; record_laws.
Defined.

#[export] Instance ccb_laws : FieldLaws (ccb_field alloc).
Proof.
  refine {| fl_bytes t := mjoin [fl_bytes (f := u8_field alloc) (ccb_type t);
                                 fl_bytes (f := bool_field alloc) (match ccb_outcome_ptr t with Some _ => true | None => false end);
                                 match ccb_outcome_ptr t with Some o => fl_bytes (f := ccb_outcome_field alloc) o | None => [] end;
                                 fl_bytes (f := vector_field alloc (u32_field alloc)) (explicit_included_actions t);
                                 fl_bytes (f := float_field alloc) (ccb_weight t)];
            fl_ok t := fl_ok (f := u8_field alloc) (ccb_type t) /\
              match ccb_outcome_ptr t with Some o => fl_ok (f := ccb_outcome_field alloc) o | None => True end /\
              fl_ok (f := vector_field alloc (u32_field alloc)) (explicit_included_actions t) /\
              fl_ok (f := float_field alloc) (ccb_weight t);
            fl_start t := ccb_outcome_ptr t = None |}; [|done|].
  - intros [type [o|] actions weight] (H1 & H2 & H3 & H4); record_step.
  - intros [type [o|] actions weight] [type0 ? actions0 weight0] (H1 & H2 & H3 & H4) [= ->]; record_step.
Defined.

#[export] Instance slates_laws : FieldLaws (slates_field alloc).
Proof.
  refine {| fl_bytes t := mjoin [fl_bytes (f := u8_field alloc) (sla_type t); fl_bytes (f := float_field alloc) (sla_weight t); fl_bytes (f := bool_field alloc) (sla_labeled t); fl_bytes (f := float_field alloc) (sla_cost t); fl_bytes (f := u32_field alloc) (sla_slot_id t); fl_bytes (f := (vector_field alloc (action_score_field alloc))) (sla_probabilities t)];
            fl_ok t := fl_ok (f := u8_field alloc) (sla_type t) /\ fl_ok (f := float_field alloc) (sla_weight t) /\ fl_ok (f := bool_field alloc) (sla_labeled t) /\ fl_ok (f := float_field alloc) (sla_cost t) /\ fl_ok (f := u32_field alloc) (sla_slot_id t) /\ fl_ok (f := (vector_field alloc (action_score_field alloc))) (sla_probabilities t);
            fl_start t := fl_start (f := u8_field alloc) (sla_type t) /\ fl_start (f := float_field alloc) (sla_weight t) /\ fl_start (f := bool_field alloc) (sla_labeled t) /\ fl_start (f := float_field alloc) (sla_cost t) /\ fl_start (f := u32_field alloc) (sla_slot_id t) /\ fl_start (f := (vector_field alloc (action_score_field alloc))) (sla_probabilities t) |}; record_laws.
Defined.

#[export] Instance continuous_elm_laws : FieldLaws (continuous_elm_field alloc).
Proof.
  refine {| fl_bytes t := mjoin [fl_bytes (f := float_field alloc) (cle_action t); fl_bytes (f := float_field alloc) (cle_cost t); fl_bytes (f := float_field alloc) (cle_pdf_value t)];
            fl_ok t := fl_ok (f := float_field alloc) (cle_action t) /\ fl_ok (f := float_field alloc) (cle_cost t) /\ fl_ok (f := float_field alloc) (cle_pdf_value t);
            fl_start t := fl_start (f := float_field alloc) (cle_action t) /\ fl_start (f := float_field alloc) (cle_cost t) /\ fl_start (f := float_field alloc) (cle_pdf_value t) |}; record_laws.
Defined.

#[export] Instance continuous_laws : FieldLaws (continuous_field alloc).
Proof.
  refine {| fl_bytes t := mjoin [fl_bytes (f := (vector_field alloc (continuous_elm_field alloc))) (cl_costs t)];
            fl_ok t := fl_ok (f := (vector_field alloc (continuous_elm_field alloc))) (cl_costs t);
            fl_start t := fl_start (f := (vector_field alloc (continuous_elm_field alloc))) (cl_costs t) |}; record_laws.
Defined.

#[export] Instance pdf_segment_laws : FieldLaws (pdf_segment_field alloc).
Proof.
  refine {| fl_bytes t := mjoin [fl_bytes (f := float_field alloc) (seg_left t); fl_bytes (f := float_field alloc) (seg_right t); fl_bytes (f := float_field alloc) (seg_pdf_value t)];
            fl_ok t := fl_ok (f := float_field alloc) (seg_left t) /\ fl_ok (f := float_field alloc) (seg_right t) /\ fl_ok (f := float_field alloc) (seg_pdf_value t);
            fl_start t := fl_start (f := float_field alloc) (seg_left t) /\ fl_start (f := float_field alloc) (seg_right t) /\ fl_start (f := float_field alloc) (seg_pdf_value t) |}; record_laws.
Defined.

#[export] Instance continuous_rf_laws : FieldLaws (continuous_rf_field alloc).
Proof.
  refine {| fl_bytes t := mjoin [fl_bytes (f := (vector_field alloc (pdf_segment_field alloc))) (crf_pdf t); fl_bytes (f := float_field alloc) (chosen_action t)];
            fl_ok t := fl_ok (f := (vector_field alloc (pdf_segment_field alloc))) (crf_pdf t) /\ fl_ok (f := float_field alloc) (chosen_action t);
            fl_start t := fl_start (f := (vector_field alloc (pdf_segment_field alloc))) (crf_pdf t) /\ fl_start (f := float_field alloc) (chosen_action t) |}; record_laws.
Defined.
End FieldLaws.

(** ** Every label type comes back from the cache *)

Section LabelCache.
Context {R W : Type} `{Reader R, Writer W} (alloc : nat -> Z).
Implicit Type b : io_buf R W.

(** The label and reduction features a parser saves: numbers in the range of their C++ types. *)
Definition label_ok (t : label_type_t) (l : polylabel) (rf : reduction_features) : Prop :=
  match t with
  | SIMPLE => fl_ok (f := simple_label_field alloc) (simple l) /\ fl_ok (f := simple_rf_field alloc) (simple_rf rf)
  | CB => fl_ok (f := cb_label_field alloc) (cb l)
  | CB_EVAL => fl_ok (f := cb_eval_field alloc) (cb_eval l)
  | CB_WITH_OBSERVATIONS => fl_ok (f := cb_with_observations_field alloc) (cb_with_observations l)
  | CS => fl_ok (f := cs_label_field alloc) (cs l)
  | MULTILABEL => fl_ok (f := multilabel_field alloc) (multilabels l)
  | MULTICLASS => fl_ok (f := multiclass_field alloc) (multi l)
  | CCB => fl_ok (f := ccb_field alloc) (conditional_contextual_bandit l)
  | SLATES => fl_ok (f := slates_field alloc) (slates l)
  | NOLABEL => True
  | CONTINUOUS => fl_ok (f := continuous_field alloc) (cb_cont l) /\ fl_ok (f := continuous_rf_field alloc) (continuous_rf rf)
  end.

(** [l0] with the member of type [t] taken from [l], and the same for reduction features. *)
Definition copy_label (t : label_type_t) (l l0 : polylabel) : polylabel :=
  match t with
  | SIMPLE => set_simple (simple l) l0
  | CB => set_cb (cb l) l0
  | CB_EVAL => set_cb_eval (cb_eval l) l0
  | CB_WITH_OBSERVATIONS => set_cb_with_observations (cb_with_observations l) l0
  | CS => set_cs (cs l) l0
  | MULTILABEL => set_multilabels (multilabels l) l0
  | MULTICLASS => set_multi (multi l) l0
  | CCB => set_conditional_contextual_bandit (conditional_contextual_bandit l) l0
  | SLATES => set_slates (slates l) l0
  | NOLABEL => l0
  | CONTINUOUS => set_cb_cont (cb_cont l) l0
  end.
Definition copy_rf (t : label_type_t) (rf rf0 : reduction_features) : reduction_features :=
  match t with
  | SIMPLE => ReductionFeatures (simple_rf rf) (continuous_rf rf0) (graph_feedback_rf rf0)
  | CONTINUOUS => ReductionFeatures (simple_rf rf0) (continuous_rf rf) (graph_feedback_rf rf0)
  | _ => rf0
  end.

(** The bytes saved, and the size the parser reports for them. *)
Definition label_bytes (t : label_type_t) (l : polylabel) (rf : reduction_features) : list byte :=
  match t with
  | SIMPLE => fl_bytes (f := simple_label_field alloc) (simple l) ++ fl_bytes (f := simple_rf_field alloc) (simple_rf rf)
  | CB => fl_bytes (f := cb_label_field alloc) (cb l)
  | CB_EVAL => fl_bytes (f := cb_eval_field alloc) (cb_eval l)
  | CB_WITH_OBSERVATIONS => fl_bytes (f := cb_with_observations_field alloc) (cb_with_observations l)
  | CS => fl_bytes (f := cs_label_field alloc) (cs l)
  | MULTILABEL => fl_bytes (f := multilabel_field alloc) (multilabels l)
  | MULTICLASS => fl_bytes (f := multiclass_field alloc) (multi l)
  | CCB => fl_bytes (f := ccb_field alloc) (conditional_contextual_bandit l)
  | SLATES => fl_bytes (f := slates_field alloc) (slates l)
  | NOLABEL => []
  | CONTINUOUS => fl_bytes (f := continuous_field alloc) (cb_cont l) ++ fl_bytes (f := continuous_rf_field alloc) (continuous_rf rf)
  end.
Definition label_count (t : label_type_t) (l : polylabel) (rf : reduction_features) : nat :=
  match t with NOLABEL => 1%nat | _ => length (label_bytes t l rf) end.

Lemma label_count_pos t l rf : (0 < label_count t l rf)%nat.
Proof.
  destruct t; unfold label_count; cbn [label_bytes]; [..|lia|]; cbn; rewrite ?length_app, ?length_le_split, ?length_float_bytes; cbn; lia.
Qed.

Lemma write_member_ok {T} (f : model_field R W T) `{!FieldLaws f} get l rf : fl_ok (get l) ->
  writes (length (fl_bytes (f := f) (get l))) (write_member f get l rf) (fl_bytes (f := f) (get l)).
Proof. apply fl_write. Qed.

Lemma read_member_ok {T} (f : model_field R W T) `{!FieldLaws f} get set l l0 l' rf0 : fl_ok (get l) -> set (get l) l0 = l' ->
  fl_start (get l0) ->
  reads_back (length (fl_bytes (f := f) (get l))) (read_member f get set l0 rf0) (fl_bytes (f := f) (get l)) (l', rf0).
Proof.
  intros Hok <- Hst. apply (reads_map _ _ _ _ (fun x => (set x l0, rf0))). by apply fl_read.
Qed.

Lemma label_cache_write t l rf : label_ok t l rf ->
  writes (label_count t l rf) (lp_cache_label (get_label_parser alloc t) l rf) (label_bytes t l rf).
Proof.
  intros Hok. destruct t; cbn [label_ok] in Hok; unfold label_count; cbn [label_bytes].
  all: try exact (write_member_ok _ _ _ rf Hok).
  - destruct Hok as [H1 H2]. rewrite length_app. eapply writes_bind; [by apply fl_write|]. by apply writes_last, fl_write.
  - apply (writes_ret 1).
  - destruct Hok as [H1 H2]. rewrite length_app. eapply writes_bind; [by apply fl_write|]. by apply writes_last, fl_write.
Qed.

Lemma label_cache_read t l rf l0 rf0 : label_ok t l rf -> crf_pdf (continuous_rf rf0) = [] ->
  let p := get_label_parser alloc t in
  reads_back (label_count t l rf) (lp_read_cached_label p (lp_default_label p l0) rf0) (label_bytes t l rf)
    (copy_label t l l0, copy_rf t rf rf0).
Proof.
  intros Hok Hrf. destruct t; cbn zeta; cbn [label_ok] in Hok; unfold label_count; cbn [label_bytes copy_label copy_rf].
  all: cbn [get_label_parser lp_read_cached_label lp_default_label simple_label_parser_global cb_label_parser_global
         cb_eval_label_parser_global cb_with_observations_global cs_label_parser_global multilabel_label_parser_global
         multiclass_label_parser_global ccb_label_parser_global slates_label_parser no_label_parser_global continuous_label_parser].
  all: try (eapply read_member_ok; [exact Hok|reflexivity|cbn; split_and?; done]).
  - destruct Hok as [H1 H2]. rewrite length_app. eapply reads_bind; [by apply fl_read|].
    by apply (reads_last _ _ _ _ _ (fun r => (set_simple (simple l) (set_simple simple_reset l0), ReductionFeatures r _ _))), fl_read.
  - apply (reads_ret 1).
  - destruct Hok as [H1 H2]. rewrite length_app. eapply reads_bind; [by apply fl_read|].
    by apply (reads_last _ _ _ _ _ (fun r => (set_cb_cont (cb_cont l) (set_cb_cont continuous_reset l0), ReductionFeatures _ r _))), fl_read.
Qed.
End LabelCache.

(** None of this depends on the devices. *)
Lemma label_bytes_device {R1 W1 R2 W2} `{Reader R1, Writer W1, Reader R2, Writer W2} alloc t l rf :
  label_bytes (R := R1) (W := W1) alloc t l rf = label_bytes (R := R2) (W := W2) alloc t l rf.
Proof. by destruct t. Qed.
Lemma label_count_device {R1 W1 R2 W2} `{Reader R1, Writer W1, Reader R2, Writer W2} alloc t l rf :
  label_count (R := R1) (W := W1) alloc t l rf = label_count (R := R2) (W := W2) alloc t l rf.
Proof. by destruct t. Qed.
Lemma label_ok_device {R1 W1 R2 W2} `{Reader R1, Writer W1, Reader R2, Writer W2} alloc t l rf :
  label_ok (R := R1) (W := W1) alloc t l rf -> label_ok (R := R2) (W := W2) alloc t l rf.
Proof. by destruct t. Qed.

(** ** Properties *)

Section Properties.
Context {R W : Type} `{Reader R, Writer W} (alloc : nat -> Z).

(** For each of the eleven label types, a label saved by its parser's [cache_label] and flushed
    is what [read_cached_label] gives back into any example whose label was reset and whose
    reduction features were cleared: the same label, the same reduction features, nothing else
    touched, a nonzero byte count; a cache cut inside the label throws. *)
Theorem label_cache_roundtrip t l rf l0 rf0 (bw br : io_buf R W) :
  label_ok alloc t l rf -> crf_pdf (continuous_rf rf0) = [] ->
  reliable (W := W) -> wf_write bw -> wf br -> written bw = [] ->
  let p := get_label_parser alloc t in
  exists n bw', (do (n, b) <- lp_cache_label p l rf bw; do b <- flush b; Done (n, b)) = Done (n, bw') /\ (0 < n)%nat /\
    let device := default [] (w_done <$> list.head (output_files bw')) in
    (forall rest, stream br = device ++ rest ->
      exists br', lp_read_cached_label p (lp_default_label p l0) rf0 br = Done (n, (copy_label t l l0, copy_rf t rf rf0), br') /\
        stream br' = rest) /\
    (forall k, (k < length device)%nat -> stream br = take k device ->
      lp_read_cached_label p (lp_default_label p l0) rf0 br = Throw).
Proof.
  intros Hok Hrf Hr Hww Hwr Hempty. cbn zeta.
  pose proof (label_cache_write alloc t l rf Hok) as Hw.
  destruct (label_cache_read alloc t l rf l0 rf0 Hok Hrf) as [Hread Hshort].
  destruct (Hw bw Hr Hww) as (b1 & -> & Hw1 & Hwf1). cbn [io_bind].
  destruct (flush_ok b1 Hr Hwf1) as (bw' & -> & Hhead & Hw2 & _). cbn [io_bind].
  exists (label_count alloc t l rf), bw'. split; [done|]. split; [apply label_count_pos|].
  rewrite Hw1, Hempty in Hw2. unfold written in Hw2. rewrite Hhead, take_0, app_nil_r in Hw2. rewrite Hw2. cbn [app]. split.
  - intros rest Hs. destruct (Hread rest br Hwr Hs) as (br' & -> & Hs' & _). by exists br'.
  - intros k Hk Hs. by apply (Hshort k).
Qed.
End Properties.

Lemma first_observed_cost_spec costs :
  match first_observed_cost costs with
  | (true, c) => exists pre post, costs = pre ++ c :: post /\ has_observed_cost c = true /\
                   Forall (fun c' => has_observed_cost c' = false) pre
  | (false, c) => c = cb_class_default /\ Forall (fun c' => has_observed_cost c' = false) costs
  end.
Proof.
  induction costs as [|c costs IH]; [done|]. cbn [first_observed_cost]. destruct (has_observed_cost c) eqn:E.
  - exists [], costs. done.
  - destruct (first_observed_cost costs) as [[] c'].
    + destruct IH as (pre & post & -> & Hc & Hpre). exists (c :: pre), post. split_and!; try done. by constructor.
    + destruct IH as [-> Hall]. split; [done|]. by constructor.
Qed.

(** [get_observed_cost_cb] returns the first class with a cost other than [FLT_MAX] and a
    positive probability; it finds none exactly for the labels [is_test_label] calls tests. *)
Theorem observed_cost_is_first ld :
  fst (get_observed_cost_cb ld) = negb (cb_is_test_label ld) /\
  match get_observed_cost_cb ld with
  | (true, c) => exists pre post, cb_costs ld = pre ++ c :: post /\ has_observed_cost c = true /\
                   Forall (fun c' => has_observed_cost c' = false) pre
  | (false, c) => has_observed_cost c = false /\ Forall (fun c' => has_observed_cost c' = false) (cb_costs ld)
  end.
Proof.
  pose proof (first_observed_cost_spec (cb_costs ld)) as Hspec. unfold get_observed_cost_cb.
  assert (cb_is_test_label ld = forallb (fun c => negb (has_observed_cost c)) (cb_costs ld)) as ->
    by (unfold cb_is_test_label; by destruct (cb_costs ld)).
  destruct (first_observed_cost (cb_costs ld)) as [[] c].
  - split; [|done]. destruct Hspec as (pre & post & -> & Hc & _). rewrite forallb_app. cbn [forallb fst].
    by rewrite Hc, andb_false_r.
  - destruct Hspec as [-> Hall]. split; [|done]. cbn [fst]. clear -Hall. symmetry. apply negb_false_iff.
    induction Hall as [|c cs Hc _ IH]; [done|]. cbn [forallb]. by rewrite Hc, IH.
Qed.

(** ** Multilabel loss *)

Definition zcount (P : Z -> bool) (l : list Z) : Q := inject_Z (Z.of_nat (length (filter (fun x => P x = true) l))).
Definition zmem (l : list Z) (x : Z) : bool := bool_decide (x ∈ l).

Lemma zcount_cons P x l : (zcount P (x :: l) == (if P x then 1 else 0) + zcount P l)%Q.
Proof.
  unfold zcount. rewrite filter_cons. destruct (P x) eqn:E.
  - rewrite decide_True by done. cbn [length]. rewrite Nat2Z.inj_succ, <- Z.add_1_l, inject_Z_plus. done.
  - rewrite decide_False by (by intros ?). ring.
Qed.

Lemma zcount_ext P P' l : (forall x, x ∈ l -> P x = P' x) -> (zcount P l == zcount P' l)%Q.
Proof.
  intros Hx. induction l as [|a l IH]; [done|]. rewrite !zcount_cons, (Hx a (list_elem_of_here _ _)).
  rewrite IH by (intros x ?; apply Hx; by right). done.
Qed.

Lemma zcount_all P l : (forall x, x ∈ l -> P x = true) -> (zcount P l == inject_Z (Z.of_nat (length l)))%Q.
Proof.
  intros Hx. induction l as [|a l IH]; [done|]. rewrite zcount_cons, (Hx a (list_elem_of_here _ _)), IH by (intros x ?; apply Hx; by right).
  cbn [length]. rewrite Nat2Z.inj_succ, <- Z.add_1_l, inject_Z_plus. done.
Qed.

Lemma zmem_cons x a l : zmem (a :: l) x = (x =? a) || zmem l x.
Proof.
  unfold zmem. destruct (Z.eqb_spec x a) as [->|Hne]; cbn [orb].
  - apply bool_decide_eq_true. by left.
  - apply bool_decide_ext. rewrite elem_of_cons. tauto.
Qed.

(** An element below all of a list is not in it; dropping it changes no count. *)
Lemma zmem_below a l : Forall (Z.lt a) l -> zmem l a = false.
Proof.
  intros Hl. unfold zmem. apply bool_decide_eq_false. intros Hin. rewrite Forall_forall in Hl. specialize (Hl a Hin). lia.
Qed.

Lemma zcount_absent a l k : Forall (Z.lt a) k ->
  (zcount (fun x => negb (zmem (a :: l) x)) k == zcount (fun x => negb (zmem l x)) k)%Q.
Proof.
  intros Hk. apply zcount_ext. intros x Hx. rewrite zmem_cons. rewrite Forall_forall in Hk. specialize (Hk x Hx).
  destruct (Z.eqb_spec x a); [lia|done].
Qed.

Lemma multilabel_walk_spec fuel : forall preds given loss,
  StronglySorted Z.lt preds -> StronglySorted Z.lt given -> (length preds + length given < fuel)%nat ->
  (multilabel_walk (H := num_Q) fuel preds given loss ==
   loss + zcount (fun x => negb (zmem given x)) preds + zcount (fun x => negb (zmem preds x)) given)%Q.
Proof.
  induction fuel as [|fuel IH]; intros preds given loss Hp Hg Hf; [lia|]. cbn [multilabel_walk].
  destruct preds as [|p preds].
  - qnum. rewrite (zcount_all _ given) by done. unfold zcount. cbn. ring.
  - destruct given as [|g given].
    + qnum. rewrite (zcount_all _ (p :: preds)) by done. unfold zcount. cbn. ring.
    + apply StronglySorted_inv in Hp as Hp'. destruct Hp' as [Hp1 Hp2].
      apply StronglySorted_inv in Hg as Hg'. destruct Hg' as [Hg1 Hg2]. cbn [length] in Hf.
      destruct (p <? g) eqn:E; [|destruct (g <? p) eqn:E']; bprop.
      * assert (Forall (Z.lt p) (g :: given)) as Hall by (constructor; [done|]; eapply Forall_impl; [exact Hg2|]; cbn; lia).
        rewrite IH by (try done; cbn [length]; lia).
        rewrite (zcount_cons _ p preds), (zcount_absent p preds (g :: given)) by done. cbv beta.
        rewrite (zmem_below p (g :: given)) by done. qnum. cbn [negb]. ring.
      * assert (Forall (Z.lt g) (p :: preds)) as Hall by (constructor; [done|]; eapply Forall_impl; [exact Hp2|]; cbn; lia).
        rewrite IH by (try done; cbn [length]; lia).
        rewrite (zcount_cons _ g given), (zcount_absent g given (p :: preds)) by done. cbv beta.
        rewrite (zmem_below g (p :: preds)) by done. qnum. cbn [negb]. ring.
      * assert (g = p) as -> by lia. rewrite IH by (try done; lia). rewrite !zcount_cons. cbv beta. rewrite !zmem_cons, Z.eqb_refl. cbn [orb negb].
        rewrite (zcount_absent p given), (zcount_absent p preds) by done. ring.
Qed.

(** On sorted label lists the multilabel loss is the number of labels predicted but not given
    plus the number given but not predicted, whichever list runs out first; an unlabelled example
    has loss zero. *)
Theorem multilabel_loss_symmetric_difference preds given :
  StronglySorted Z.lt (label_v preds) -> StronglySorted Z.lt (label_v given) ->
  (multilabel_loss (H := num_Q) preds given ==
   if multilabel_is_test given then 0
   else zcount (fun x => negb (zmem (label_v given) x)) (label_v preds) +
        zcount (fun x => negb (zmem (label_v preds) x)) (label_v given))%Q.
Proof.
  intros Hp Hg. unfold multilabel_loss. destruct (multilabel_is_test given); [done|].
  rewrite multilabel_walk_spec by (try done; lia). qnum. ring.
Qed.

Lemma multilabel_loss_symmetric_difference_witness :
  (multilabel_loss (H := num_Q) (MultilabelLabel [1; 4; 7]%Z) (MultilabelLabel [2; 4]%Z) == 3)%Q.
Proof.
  rewrite multilabel_loss_symmetric_difference; [reflexivity|..]; repeat constructor.
Defined.

(** A cost-sensitive label, its writer and its reader. *)
Definition ex_poly : polylabel :=
  PolyLabel (SimpleLabel f32_one) multiclass_reset (CsLabel [CsClass f32_one 3 f32_zero f32_zero]) cb_reset continuous_reset
    ccb_reset slates_reset cb_eval_reset multilabel_reset cb_with_observations_reset.
Definition ex_default : polylabel :=
  PolyLabel simple_reset multiclass_reset cs_reset cb_reset continuous_reset
    ccb_reset slates_reset cb_eval_reset multilabel_reset cb_with_observations_reset.
Definition ex_rf : reduction_features := ReductionFeatures simple_rf_reset continuous_rf_clear [].
Definition ex_label_writer : io_buf buffer_view vector_writer := IoBuf (replicate 4 Byte.x00) 0 0 0 false 0 0 [] [[]].
Definition ex_label_bytes : list byte := le_split 4 1 ++ float_bytes f32_one ++ le_split 4 3 ++ float_bytes f32_zero ++ float_bytes f32_zero.
Definition ex_label_reader : io_buf buffer_view vector_writer :=
  IoBuf (replicate 4 Byte.x00) 0 0 0 false 0 0 [BufferView ex_label_bytes 0] [].

Lemma label_cache_roundtrip_witness :
  let p := get_label_parser (fun _ => 0) CS in
  exists n bw', (do (n, b) <- lp_cache_label p ex_poly ex_rf ex_label_writer; do b <- flush b; Done (n, b)) = Done (n, bw') /\
    exists br', lp_read_cached_label p (lp_default_label p ex_default) ex_rf ex_label_reader =
      Done (n, (set_cs (cs ex_poly) ex_default, ex_rf), br').
Proof.
  destruct (label_cache_roundtrip (fun _ => 0) CS ex_poly ex_rf ex_default ex_rf ex_label_writer ex_label_reader)
    as (n & bw' & H1 & _ & H2 & _).
  - cbn. split_and!; [done| |lia]. repeat constructor; cbn; lia.
  - reflexivity.
  - intros w bs. reflexivity.
  - unfold wf_write. cbn. split_and!; [done|lia..].
  - unfold wf. cbn. lia.
  - reflexivity.
  - exists n, bw'. split; [exact H1|].
    assert (stream ex_label_reader = ex_label_bytes) as Hs by (vm_compute; reflexivity).
    apply (f_equal (fun r => match r with Done (_, b) => output_files b | _ => [] end)) in H1. cbv beta iota in H1.
    assert (output_files bw' = [ex_label_bytes]) as Ho by (rewrite <- H1; vm_compute; reflexivity).
    rewrite Ho, Hs in H2. destruct (H2 [] (eq_sym (app_nil_r _))) as (br' & H3 & H4). exists br'. exact H3.
Defined.
