(* ===== verification/CacheParser.v ===== *)
(** * The example cache ([cache_parser/src/parse_example_cache.cc])

    Saving an example (label, tag, features) to a cache file and reading it back: variable-length
    integers, zig-zag differences of the feature indices, one or five bytes less per unit value. *)

From S2P Require Import Prelude.
From S2P Require Import FloatBytes.
From S2P Require Import Hash.
From S2P Require Import IoBuf.
From S2P Require Import ModelUtils.
From S2P Require Import Features.
From S2P Require Import Labels.

#[local] Existing Instance num_f32.

Definition INTS_SIZE : nat := 11.
Definition NEG_ONE : Z := 1.
Definition GENERAL : Z := 2.
Definition NEWLINE_EXAMPLE_INDICATOR : byte := Byte.x31.
Definition NON_NEWLINE_EXAMPLE_INDICATOR : byte := Byte.x30.

(** ** Integers *)

(** The bytes at the pointer, the value, and the bytes consumed; [None]: the read leaves the
    memory or shifts by the width of the type or more. *)
Fixpoint decode_loop (p : list byte) (count : nat) (num : Z) : option (Z * nat) :=
  match p with
  | [] => None
  | c :: p =>
      if 64 <=? 7 * Z.of_nat count then None
      else if negb (Z.land (byte_val c) 128 =? 0)
      then decode_loop p (S count) (Z.lor num (u64 (Z.shiftl (Z.land (byte_val c) 127) (7 * Z.of_nat count))))
      else Some (Z.lor num (u64 (Z.shiftl (byte_val c) (7 * Z.of_nat count))), S count)
  end.
Definition variable_length_int_decode (p : list byte) : option (Z * nat) := decode_loop p 0 0.

Fixpoint encode_loop (fuel : nat) (num : Z) : list byte :=
  match fuel with
  | O => []
  | S fuel =>
      if 128 <=? num then byte.of_Z (Z.lor (Z.land num 127) 128) :: encode_loop fuel (Z.shiftr num 7)
      else [byte.of_Z (Z.land num 127)]
  end.
(** A 64-bit value takes at most ten rounds: see [varint_roundtrip]. *)
Definition variable_length_int_encode (num : Z) : list byte := encode_loop 10 num.

Definition zig_zag_decode (n : Z) : Z := i64 (Z.lxor (Z.shiftr n 1) (u64 (- Z.land n 1))).
Definition zig_zag_encode (n : Z) : Z := u64 (Z.lxor (u64 (Z.shiftl (u64 n) 1)) (u64 (Z.shiftr n 63))).

(** The part of an example a cache holds. *)
Record example := Example_ {
  ex_l : polylabel;
  ex_reduction_features : reduction_features;
  ex_tag : list byte;
  ex_is_newline : bool;
  ex_indices : list byte;
  ex_feature_space : byte -> features f32;
  ex_sorted : bool
}.

Section Cache.
Context {R W : Type} `{Reader R, Writer W} (alloc : nat -> Z).
Implicit Type b : io_buf R W.

(** ** Reading the parts *)

(** The size reported is 0 when the input ends inside the tag, which is then left as it was. *)
Definition read_cached_tag (tag : list byte) b : io_result (nat * list byte * io_buf R W) :=
  do (size, b) <- read_value alloc 8 b;
  let tag_size := Z.to_nat (le_combine size) in
  do (p, k, b) <- buf_read alloc (read_fuel b) tag_size TEXT b;
  if (k <? tag_size)%nat then Done (0%nat, tag, b)
  else Done ((tag_size + 8)%nat, slice p tag_size (mem b), b).

Definition read_cached_index b : io_result (nat * byte * io_buf R W) :=
  do (index, b) <- read_value alloc 1 b;
  Done (1%nat, default Byte.x00 (list.head index), b).

(** The loop of [read_cached_features], from [read_head] to [e]. *)
Fixpoint read_features_loop (fuel : nat) (m : list byte) (read_head e : nat) (last : Z) (sorted : bool) (feats : features f32) :
    io_result (nat * features f32 * bool) :=
  match fuel with
  | O => NoFuel
  | S fuel =>
      if (read_head <? e)%nat then
        match variable_length_int_decode (drop read_head m) with
        | None => Undefined
        | Some (feat_idx, n) =>
            let read_head := (read_head + n)%nat in
            let general := (Z.land feat_idx NEG_ONE =? 0) && negb (Z.land feat_idx GENERAL =? 0) in
            if general && (length m <? read_head + 4)%nat then Undefined
            else
              let feat_value := if negb (Z.land feat_idx NEG_ONE =? 0) then f32_minus_one
                                else if general then float_of_bytes (slice read_head 4 m) else f32_one in
              let read_head := if general then (read_head + 4)%nat else read_head in
              let s_diff := zig_zag_decode (Z.shiftr feat_idx 2) in
              let sorted := if s_diff <? 0 then false else sorted in
              let feat_idx := u64 (last + s_diff) in
              read_features_loop fuel m read_head e feat_idx sorted (push_back feat_value feat_idx feats)
        end
      else Done (read_head, feats, sorted)
  end.

(** [sorted] is set to true at the start. *)
Definition read_cached_features (feats : features f32) b : io_result (nat * (features f32 * bool) * io_buf R W) :=
  do (size, b) <- read_value alloc 8 b;
  let storage := Z.to_nat (le_combine size) in
  do (p, k, b) <- buf_read alloc (read_fuel b) storage TEXT b;
  if (k <? storage)%nat then Throw
  else
    do (read_head, feats, sorted) <- read_features_loop (S storage) (mem b) p (p + storage) 0 true feats;
    Done ((8 + storage)%nat, (feats, sorted), set_head read_head b).

(** ** Writing the parts *)

(** Bytes put at the write pointer, which moves on. *)
Definition put (bs : list byte) (st : nat * io_buf R W) : nat * io_buf R W :=
  ((st.1 + length bs)%nat, memcpy st.1 bs st.2).

Definition cache_tag (tag : list byte) b : io_result (io_buf R W) :=
  let n := (8 + length tag)%nat in
  do (p, b) <- buf_write alloc (write_fuel n) n b;
  let st := put (le_split 8 (Z.of_nat (length tag))) (p, b) in
  let st := if (0 <? length tag)%nat then put tag st else st in
  Done (set_head st.1 st.2).

Definition cache_index (index : byte) b : io_result (io_buf R W) := write_value alloc [index] b.

Fixpoint put_features (l : list (f32 * Z)) (mask last : Z) (st : nat * io_buf R W) : nat * io_buf R W :=
  match l with
  | [] => st
  | (value, index) :: l =>
      let feat_index := Z.land index mask in
      let s_diff := i64 (feat_index - last) in
      let diff := u64 (Z.shiftl (zig_zag_encode s_diff) 2) in
      let st :=
        if (value =? f32_one)%num then put (variable_length_int_encode diff) st
        else if (value =? f32_minus_one)%num then put (variable_length_int_encode (Z.lor diff NEG_ONE)) st
        else put (float_bytes value) (put (variable_length_int_encode (Z.lor diff GENERAL)) st) in
      put_features l mask feat_index st
  end.

(** The room [cache_features] asks for. *)
Definition features_storage (feats : features f32) : nat :=
  size feats * INTS_SIZE +
  4 * length (filter (fun v => negb (v =? f32_one)%num && negb (v =? f32_minus_one)%num = true) (values feats)).

Definition cache_features (feats : features f32) (mask : Z) b : io_result (io_buf R W) :=
  let n := (features_storage feats + 8)%nat in
  do (p, b) <- buf_write alloc (write_fuel n) n b;
  let '(write_head, b) := put_features (zip (values feats) (indices feats)) mask 0 ((p + 8)%nat, b) in
  Done (memcpy p (le_split 8 (Z.of_nat (write_head - p - 8))) (set_head write_head b)).
End Cache.

Section Examples.
Context {R W : Type} `{Reader R, Writer W} (alloc : nat -> Z).
Implicit Type b : io_buf R W.

Fixpoint cache_namespaces (indices : list byte) (space : byte -> features f32) (parse_mask : Z)
    (temp : io_buf R vector_writer) : io_result (io_buf R vector_writer) :=
  match indices with
  | [] => Done temp
  | ns_idx :: indices =>
      do temp <- cache_index alloc ns_idx temp;
      do temp <- cache_features alloc (space ns_idx) parse_mask temp;
      cache_namespaces indices space parse_mask temp
  end.

(** [write_example_to_cache]: the example goes to the temporary buffer, whose backing vector is
    then written with its size. *)
Definition write_example_to_cache (ex : example) (lbl_parser : label_parser (R := R) (W := vector_writer)) (parse_mask : Z)
    (temp : io_buf R vector_writer) b : io_result (io_buf R vector_writer * io_buf R W) :=
  let temp := set_outputs (match output_files temp with [] => [] | _ :: files => [] :: files end) temp in
  do (_, temp) <- lp_cache_label lbl_parser (ex_l ex) (ex_reduction_features ex) temp;
  do temp <- cache_tag alloc (ex_tag ex) temp;
  do temp <- write_value alloc [if ex_is_newline ex then NEWLINE_EXAMPLE_INDICATOR else NON_NEWLINE_EXAMPLE_INDICATOR] temp;
  do temp <- write_value alloc [byte.of_Z (Z.of_nat (length (ex_indices ex)))] temp;
  do temp <- cache_namespaces (ex_indices ex) (ex_feature_space ex) parse_mask temp;
  do temp <- flush temp;
  let backing := default [] (list.head (output_files temp)) in
  do b <- write_value alloc (le_split 8 (Z.of_nat (length backing))) b;
  do b <- bin_write_fixed alloc backing b;
  Done (temp, b).

Definition set_space (i : byte) (fs : features f32) (space : byte -> features f32) : byte -> features f32 :=
  fun j => if decide (j = i) then fs else space j.

(** The namespaces of an example: its indices, feature space and sorted flag. *)
Fixpoint read_namespaces (num_indices : nat) (st : list byte * (byte -> features f32) * bool) b :
    io_result (nat * (list byte * (byte -> features f32) * bool) * io_buf R W) :=
  match num_indices with
  | O => Done (0%nat, st, b)
  | S num_indices =>
      let space := st.1.2 in
      do (n, index, b) <- read_cached_index alloc b;
      do (m, r, b) <- read_cached_features alloc (space index) b;
      do (k, st, b) <- read_namespaces num_indices (st.1.1 ++ [index], set_space index r.1 space, r.2) b;
      Done (n + m + k, st, b)%nat
  end.

(** The value returned is 0 at the end of the cache, before anything of the example is touched. *)
Definition read_example_from_cache (lbl_parser : label_parser (R := R) (W := W)) (ex : example) b :
    io_result (nat * example * io_buf R W) :=
  do (_, k, b) <- buf_read alloc (read_fuel b) 8 TEXT b;
  if (k <? 8)%nat then Done (0%nat, ex, b)
  else
    do (total, l_rf, b) <- lp_read_cached_label lbl_parser (lp_default_label lbl_parser (ex_l ex)) (ex_reduction_features ex) b;
    if (total =? 0)%nat then Throw
    else
      do (tag_size, tag, b) <- read_cached_tag alloc (ex_tag ex) b;
      if (tag_size =? 0)%nat then Throw
      else
        do (newline, b) <- read_value alloc 1 b;
        do (num_indices, b) <- read_value alloc 1 b;
        do (n, st, b) <-
          read_namespaces (Z.to_nat (le_combine num_indices)) (ex_indices ex, ex_feature_space ex, ex_sorted ex) b;
        Done ((total + tag_size + 1 + 1 + n)%nat,
              Example_ l_rf.1 l_rf.2 tag (bool_decide (list.head newline = Some NEWLINE_EXAMPLE_INDICATOR)) st.1.1 st.1.2 st.2, b).
End Examples.

(** * Theorems *)

(** ** Variable-length integers *)

Lemma byte_of_Z_val z : 0 <= z < 256 -> byte_val (byte.of_Z z) = z.
Proof. intros Hz. rewrite byte.unsigned_of_Z. unfold byte.wrap. by rewrite Z.mod_small. Qed.

Lemma land_127 x : Z.land x 127 = x mod 128.
Proof. change 127 with (Z.ones 7). by rewrite Z.land_ones. Qed.

Lemma land_low_128 x : 0 <= x < 128 -> Z.land x 128 = 0.
Proof.
  intros Hx. apply Z.bits_inj'. intros i Hi. rewrite Z.land_spec, Z.bits_0. change 128 with (2 ^ 7).
  rewrite Z.pow2_bits_eqb by lia. destruct (Z.eqb_spec 7 i) as [<-|]; [|apply andb_false_r].
  rewrite <- (Z.mod_small x (2 ^ 7)) by lia. by rewrite Z.mod_pow2_bits_high by lia.
Qed.

Lemma continuation_byte x : let c := Z.lor (Z.land x 127) 128 in
  c = x mod 128 + 128 /\ Z.land c 128 <> 0 /\ Z.land c 127 = x mod 128.
Proof.
  cbn zeta. rewrite land_127. pose proof (Z.mod_pos_bound x 128 ltac:(lia)) as Hm.
  assert (Z.land (x mod 128) 128 = 0) as Hland by (by apply land_low_128).
  assert (Z.lor (x mod 128) 128 = x mod 128 + 128) as Hlor.
  { rewrite Z.add_nocarry_lxor by done. symmetry. by apply Z.lxor_lor. }
  rewrite Hlor. split_and!; [done| |].
  - rewrite <- Hlor, Z.land_lor_distr_l, Hland. done.
  - rewrite land_127. replace (x mod 128 + 128) with (x mod 128 + 1 * 128) by lia. rewrite Z.mod_add by lia. by rewrite Z.mod_mod by lia.
Qed.

Lemma lor_shift_add acc x k : 0 <= acc < 2 ^ k -> 0 <= k -> 0 <= x -> Z.lor acc (Z.shiftl x k) = acc + x * 2 ^ k.
Proof.
  intros Ha Hk Hx. rewrite Z.shiftl_mul_pow2 by lia. 
  assert (Z.land acc (x * 2 ^ k) = 0) as Hland; [|by rewrite Z.add_nocarry_lxor, Z.lxor_lor].
  apply Z.bits_inj'; intros i Hi; rewrite Z.land_spec, Z.bits_0, Z.mul_pow2_bits by lia.
  destruct (Z.ltb_spec i k); [rewrite (Z.testbit_neg_r x (i - k)) by lia; apply andb_false_r|].
  rewrite <- (Z.mod_small acc (2 ^ k)) by lia; by rewrite Z.mod_pow2_bits_high by lia.
Qed.

Lemma decode_encode fuel : forall num count acc rest,
  0 <= num < 2 ^ (7 * Z.of_nat fuel) -> 0 <= num -> num < 2 ^ (64 - 7 * Z.of_nat count) -> 7 * Z.of_nat count < 64 ->
  0 <= acc < 2 ^ (7 * Z.of_nat count) -> (0 < fuel)%nat ->
  decode_loop (encode_loop fuel num ++ rest) count acc =
  Some (acc + num * 2 ^ (7 * Z.of_nat count), (count + length (encode_loop fuel num))%nat).
Proof.
  induction fuel as [|fuel IH]; intros num count acc rest Hf Hnum Hmax Hc Hacc Hpos; [lia|].
  cbn [encode_loop]. destruct (128 <=? num) eqn:E; bprop; cbn [app decode_loop].
  - destruct (continuation_byte num) as (Hbyte & Hcont & Hlow). cbn zeta in *.
    pose proof (Z.mod_pos_bound num 128 ltac:(lia)) as Hm.
    rewrite byte_of_Z_val by lia. rewrite (proj2 (Z.leb_gt 64 _)) by lia.
    rewrite (proj2 (Z.eqb_neq _ _) Hcont). cbn [negb]. rewrite Hlow.
    assert (7 * Z.of_nat count + 7 < 64) as Hc7.
    { destruct (Z.le_gt_cases 64 (7 * Z.of_nat count + 7)); [|done].
      assert (2 ^ (64 - 7 * Z.of_nat count) <= 2 ^ 7) by (apply Z.pow_le_mono_r; lia). lia. }
    assert (0 <= num / 128) by (apply Z.div_pos; lia).
    assert (num / 128 * 128 + num mod 128 = num) as Hsplit by (pose proof (Z.div_mod num 128); lia).
    assert (2 ^ (64 - 7 * Z.of_nat count) * 2 ^ (7 * Z.of_nat count) = 2 ^ 64) as Hp by (rewrite <- Z.pow_add_r by lia; f_equal; lia).
    assert (0 < 2 ^ (7 * Z.of_nat count)) by (apply Z.pow_pos_nonneg; lia).
    unfold u64. rewrite Z.mod_small by (rewrite Z.shiftl_mul_pow2 by lia; nia).
    rewrite lor_shift_add by lia. rewrite Z.shiftr_div_pow2 by lia. change (2 ^ 7) with 128.
    replace (7 * Z.of_nat (S count)) with (7 * Z.of_nat count + 7) in * by lia.
    rewrite IH; replace (7 * Z.of_nat (S count)) with (7 * Z.of_nat count + 7) by lia.
    + rewrite Z.pow_add_r by lia. cbn [length]. change (2 ^ 7) with 128. do 2 f_equal; [|lia]. nia.
    + split; [done|]. apply Z.div_lt_upper_bound; [lia|]. replace (7 * Z.of_nat (S fuel)) with (7 + 7 * Z.of_nat fuel) in Hf by lia.
      rewrite Z.pow_add_r in Hf by lia. lia.
    + done.
    + apply Z.div_lt_upper_bound; [lia|]. rewrite <- (Z.pow_add_r 2 7) by lia. by replace (7 + (64 - (7 * Z.of_nat count + 7))) with (64 - 7 * Z.of_nat count) by lia.
    + lia.
    + rewrite Z.pow_add_r by lia. change (2 ^ 7) with 128. nia.
    + destruct fuel; [|lia]. change (2 ^ (7 * Z.of_nat 1)) with 128 in Hf. lia.
  - rewrite land_127, (Z.mod_small num) by lia. rewrite byte_of_Z_val by lia.
    rewrite (proj2 (Z.leb_gt 64 _)) by lia.
    rewrite land_low_128 by lia.
    cbn [Z.eqb negb length].
    assert (2 ^ (64 - 7 * Z.of_nat count) * 2 ^ (7 * Z.of_nat count) = 2 ^ 64) as Hp by (rewrite <- Z.pow_add_r by lia; f_equal; lia).
    assert (0 < 2 ^ (7 * Z.of_nat count)) by (apply Z.pow_pos_nonneg; lia).
    unfold u64. rewrite Z.mod_small by (rewrite Z.shiftl_mul_pow2 by lia; nia).
    rewrite lor_shift_add by lia. do 2 f_equal. lia.
Qed.

Lemma encode_loop_length fuel : forall num, (length (encode_loop fuel num) <= fuel)%nat.
Proof. induction fuel as [|fuel IH]; intros num; [done|]. cbn [encode_loop]. case_if; cbn [length]; [|lia]. pose proof (IH (Z.shiftr num 7)). lia. Qed.

Lemma varint_decode num rest : 0 <= num < 2 ^ 64 ->
  variable_length_int_decode (variable_length_int_encode num ++ rest) = Some (num, length (variable_length_int_encode num)).
Proof.
  intros Hn. unfold variable_length_int_decode, variable_length_int_encode. rewrite decode_encode; [|lia..].
  do 2 f_equal. change (2 ^ (7 * Z.of_nat 0)) with 1. lia.
Qed.

Lemma varint_length num : (0 < length (variable_length_int_encode num) <= 10)%nat.
Proof. split; [unfold variable_length_int_encode; cbn [encode_loop]; case_if; cbn [length]; lia|apply encode_loop_length]. Qed.

(** ** Zig-zag *)

Lemma lxor_ones_64 a : 0 <= a < 2 ^ 64 -> Z.lxor a (Z.ones 64) = 2 ^ 64 - 1 - a.
Proof.
  intros Ha. destruct (decide (a = 0)) as [-> | Hne]; [done|].
  assert (Z.log2 a < 64) as Hlog by (apply Z.log2_lt_pow2; lia).
  rewrite <- Z.ldiff_ones_l_low, <- Z.sub_nocarry_ldiff by (try apply Z.ldiff_ones_r_low; lia). done.
Qed.

Lemma zig_zag_encode_spec n : - 2 ^ 63 <= n < 2 ^ 63 ->
  zig_zag_encode n = if 0 <=? n then 2 * n else - 2 * n - 1.
Proof.
  intros Hn. unfold zig_zag_encode, u64. rewrite Z.shiftl_mul_pow2, Z.shiftr_div_pow2 by lia. change (2 ^ 1) with 2.
  destruct (0 <=? n) eqn:E; bprop.
  - rewrite (Z.div_small n) by lia. rewrite Z.mod_0_l, Z.lxor_0_r by lia. rewrite Z.mod_mod by lia.
    rewrite (Z.mod_small n) by lia. rewrite Z.mod_small by lia. lia.
  - assert (n / 2 ^ 63 = -1) as -> by (symmetry; apply (Z.div_unique n (2 ^ 63) (-1) (n + 2 ^ 63)); lia).
    assert ((n mod 2 ^ 64 * 2) mod 2 ^ 64 = 2 ^ 64 + 2 * n) as ->.
    { rewrite Z.mul_mod_idemp_l by lia. symmetry. apply (Z.mod_unique _ _ (-1)); lia. }
    change (-1 mod 2 ^ 64) with (Z.ones 64).
    rewrite lxor_ones_64 by lia. rewrite Z.mod_small; lia.
Qed.

Lemma zig_zag_roundtrip n : - 2 ^ 63 <= n < 2 ^ 63 -> zig_zag_decode (zig_zag_encode n) = n.
Proof.
  intros Hn. rewrite zig_zag_encode_spec by done. unfold zig_zag_decode.
  change (Z.land ?x 1) with (Z.land x (Z.ones 1)). rewrite Z.land_ones, Z.shiftr_div_pow2 by lia. change (2 ^ 1) with 2.
  destruct (0 <=? n) eqn:E; bprop.
  - rewrite (Z.mul_comm 2 n), Z.mod_mul, Z.div_mul by lia. cbn [Z.opp]. unfold u64 at 1. rewrite Z.mod_0_l, Z.lxor_0_r by lia.
    unfold i64, u64. rewrite Z.mod_small by lia. by rewrite (proj2 (Z.ltb_lt _ _)) by lia.
  - assert ((- 2 * n - 1) mod 2 = 1) as -> by (symmetry; apply (Z.mod_unique _ _ (- n - 1)); lia).
    assert ((- 2 * n - 1) / 2 = - n - 1) as -> by (symmetry; apply (Z.div_unique _ _ (- n - 1) 1); lia).
    change (u64 (- (1))) with (Z.ones 64).
    rewrite lxor_ones_64 by lia. unfold i64, u64. rewrite Z.mod_small by lia. rewrite (proj2 (Z.ltb_ge _ _)) by lia. lia.
Qed.

(** The index differences a cache can hold: [mask] keeps fewer than 61 bits. *)
Lemma index_diff_roundtrip last index : 0 <= last < 2 ^ 61 -> 0 <= index < 2 ^ 61 ->
  let s := i64 (index - last) in
  s = index - last /\ zig_zag_decode (zig_zag_encode s) = s /\ u64 (Z.shiftl (zig_zag_encode s) 2) = 4 * zig_zag_encode s /\
  0 <= zig_zag_encode s < 2 ^ 62 /\ u64 (last + s) = index.
Proof.
  intros Hl Hi. cbn zeta.
  assert (i64 (index - last) = index - last) as ->.
  { unfold i64, u64. destruct (Z.le_gt_cases last index).
    - rewrite Z.mod_small by lia. by rewrite (proj2 (Z.ltb_lt _ _)) by lia.
    - rewrite <- (Z.mod_add _ 1) by lia. rewrite Z.mod_small by lia. rewrite (proj2 (Z.ltb_ge _ _)) by lia. lia. }
  assert (0 <= zig_zag_encode (index - last) < 2 ^ 62) as Hz.
  { rewrite zig_zag_encode_spec by lia. case_if; bprop; lia. }
  split_and!; try done; try lia.
  - apply zig_zag_roundtrip. lia.
  - unfold u64. rewrite Z.shiftl_mul_pow2 by lia. change (2 ^ 2) with 4. rewrite Z.mod_small; lia.
  - replace (last + (index - last)) with index by lia. unfold u64. apply Z.mod_small. lia.
Qed.

(** ** The bytes of the features *)

Definition feature_bytes (value : f32) (diff : Z) : list byte :=
  if (value =? f32_one)%num then variable_length_int_encode diff
  else if (value =? f32_minus_one)%num then variable_length_int_encode (Z.lor diff NEG_ONE)
  else variable_length_int_encode (Z.lor diff GENERAL) ++ float_bytes value.

Fixpoint features_bytes (l : list (f32 * Z)) (mask last : Z) : list byte :=
  match l with
  | [] => []
  | (value, index) :: l =>
      let feat_index := Z.land index mask in
      feature_bytes value (u64 (Z.shiftl (zig_zag_encode (i64 (feat_index - last))) 2)) ++ features_bytes l mask feat_index
  end.

(** What reading them does: the features pushed, and whether the indices never went down. *)
Definition push_all (l : list (f32 * Z)) (mask : Z) (feats : features f32) : features f32 :=
  fold_left (fun feats e => push_back e.1 (Z.land e.2 mask) feats) l feats.
Fixpoint never_down (l : list (f32 * Z)) (mask last : Z) : bool :=
  match l with [] => true | e :: l => (last <=? Z.land e.2 mask) && never_down l mask (Z.land e.2 mask) end.

Lemma store_app p a c m : (p + length a <= length m)%nat -> store (p + length a) c (store p a m) = store p (a ++ c) m.
Proof.
  intros Hp. unfold store. assert (length (take p m) = p) as Hl by (apply length_take_le; lia).
  rewrite (app_assoc (take p m) a). rewrite take_app_length' by (rewrite length_app; lia).
  rewrite <- !app_assoc. do 3 f_equal. rewrite (app_assoc (take p m) a), length_app.
  rewrite drop_app_ge by (rewrite length_app; lia). rewrite drop_drop. f_equal. rewrite length_app. lia.
Qed.

Lemma store_before p a c m : (p + length a + length c <= length m)%nat -> store p a (store (p + length a) c m) = store p (a ++ c) m.
Proof.
  intros Hp. unfold store. assert (length (take (p + length a) m) = (p + length a)%nat) as Hl by (apply length_take_le; lia).
  rewrite take_app_le by lia. rewrite take_take, Nat.min_l by lia. rewrite <- app_assoc. do 2 f_equal.
  rewrite drop_app_length' by done. rewrite length_app, Nat.add_assoc. done.
Qed.

Section CacheFeatures.
Context {R W : Type} `{Reader R, Writer W} (alloc : nat -> Z).
Implicit Type b : io_buf R W.

Lemma memcpy_app p a c b : (p + length a <= length (mem b))%nat -> memcpy (p + length a) c (memcpy p a b) = memcpy p (a ++ c) b.
Proof. intros Hp. unfold memcpy, set_buffer. cbn [mem b_end head begin_addr verify_hash hash current input_files output_files]. by rewrite store_app. Qed.

Lemma put_feature value diff wh b : (wh + length (feature_bytes value diff) <= length (mem b))%nat ->
  (if (value =? f32_one)%num then put (variable_length_int_encode diff) (wh, b)
   else if (value =? f32_minus_one)%num then put (variable_length_int_encode (Z.lor diff NEG_ONE)) (wh, b)
   else put (float_bytes value) (put (variable_length_int_encode (Z.lor diff GENERAL)) (wh, b))) =
  put (feature_bytes value diff) (wh, b).
Proof.
  unfold feature_bytes. case_if; [done|]. case_if; [done|]. intros Hl. unfold put. cbn [fst snd].
  rewrite length_app in *. rewrite memcpy_app by lia. by rewrite Nat.add_assoc.
Qed.

Lemma put_features_ok l mask : forall last wh b, (wh + length (features_bytes l mask last) <= length (mem b))%nat ->
  put_features l mask last (wh, b) = put (features_bytes l mask last) (wh, b).
Proof.
  induction l as [|[v i] l IH]; intros last wh b Hl; cbn [put_features features_bytes] in *.
  - unfold put. cbn [fst snd length]. rewrite Nat.add_0_r. f_equal. unfold memcpy, store. cbn [length app].
    rewrite Nat.add_0_r, take_drop. by destruct b.
  - cbn zeta in *. rewrite length_app in Hl. rewrite put_feature by lia.
    set (fb := feature_bytes v _) in *. change (put fb (wh, b)) with ((wh + length fb)%nat, memcpy wh fb b). rewrite IH.
    + unfold put. cbn [fst snd]. rewrite memcpy_app by lia. rewrite length_app. f_equal. lia.
    + unfold memcpy. cbn [set_buffer mem]. rewrite length_store by lia. lia.
Qed.

Lemma feature_bytes_length v diff :
  (length (feature_bytes v diff) <= INTS_SIZE + if negb (v =? f32_one)%num && negb (v =? f32_minus_one)%num then 4 else 0)%nat.
Proof.
  unfold feature_bytes, INTS_SIZE. destruct (v =? f32_one)%num; cbn [negb andb].
  - pose proof (varint_length diff). lia.
  - destruct (v =? f32_minus_one)%num; cbn [negb].
    + pose proof (varint_length (Z.lor diff NEG_ONE)). lia.
    + rewrite length_app, length_float_bytes. pose proof (varint_length (Z.lor diff GENERAL)). lia.
Qed.

(** The room asked for is enough. *)
Lemma features_bytes_length feats mask : length (indices feats) = length (values feats) ->
  (length (features_bytes (zip (values feats) (indices feats)) mask 0) <= features_storage feats)%nat.
Proof.
  unfold features_storage, size. generalize 0. generalize (indices feats). generalize (values feats).
  induction l as [|v vs IH]; intros [|i js] last Hlen; try done. cbn [zip zip_with features_bytes length]. cbn zeta.
  rewrite length_app. injection Hlen as Hlen. pose proof (IH js (Z.land i mask) Hlen) as IH'.
  pose proof (feature_bytes_length v (u64 (Z.shiftl (zig_zag_encode (i64 (Z.land i mask - last))) 2))) as Hf.
  rewrite filter_cons. destruct (negb (v =? f32_one)%num && negb (v =? f32_minus_one)%num).
  - rewrite decide_True by done. cbn [length]. unfold INTS_SIZE in *. lia.
  - rewrite decide_False by done. unfold INTS_SIZE in *. lia.
Qed.

#[local] Abbreviation emits := (emits (R := R) (W := W)).

(** A reservation of [n] bytes of which [bs] are used. *)
Lemma reserve_emits n bs (k : nat -> io_buf R W -> io_result (io_buf R W)) : (length bs <= n)%nat ->
  (forall p b, (p + n <= length (mem b))%nat -> k p b = Done (memcpy p bs (set_head (p + length bs) b))) ->
  emits (fun b => do (p, b) <- buf_write alloc (write_fuel n) n b; k p b) bs.
Proof.
  intros Hn Hk b Hr Hwf. destruct (buf_write_ok alloc b n Hr Hwf) as (p & b1 & -> & Hh & Hp & Hw & Hwf1 & _). cbn [io_bind].
  rewrite Hk by done. eexists. split; [done|].
  apply memcpy_written; [cbn [set_head mem]; lia|done|exact Hw|]. destruct Hwf1 as (? & ? & ? & ?). unfold wf_write. cbn [set_head output_files head mem b_end]. split_and!; try done; lia.
Qed.

Definition tag_bytes (tag : list byte) : list byte := le_split 8 (Z.of_nat (length tag)) ++ tag.

Lemma cache_tag_emits tag : emits (cache_tag alloc tag) (tag_bytes tag).
Proof.
  unfold cache_tag, tag_bytes. apply (reserve_emits (8 + length tag) _ (fun p b => Done (set_head _ _))).
  - rewrite length_app, length_le_split. lia.
  - intros p b Hp. f_equal. rewrite length_app, length_le_split. unfold put at 2 3. cbn [fst snd]. rewrite length_le_split.
    destruct tag as [|c tag]; [cbn [length]; rewrite app_nil_r, Nat.add_0_r; done|].
    case_if; bprop; [|cbn [length] in *; lia]. unfold put. cbn [fst snd].
    replace (p + 8)%nat with (p + length (le_split 8 (Z.of_nat (length (c :: tag)))))%nat by (by rewrite length_le_split).
    rewrite memcpy_app by (rewrite length_le_split; lia). rewrite length_le_split, Nat.add_assoc. done.
Qed.

Definition group_bytes (feats : features f32) (mask : Z) : list byte :=
  let fb := features_bytes (zip (values feats) (indices feats)) mask 0 in
  le_split 8 (Z.of_nat (length fb)) ++ fb.

Lemma cache_features_emits feats mask : length (indices feats) = length (values feats) ->
  emits (cache_features alloc feats mask) (group_bytes feats mask).
Proof.
  intros Hlen. pose proof (features_bytes_length feats mask Hlen) as Hroom. unfold cache_features, group_bytes.
  set (fb := features_bytes _ mask 0) in *. cbn zeta.
  apply (reserve_emits (features_storage feats + 8) _ (fun p b => let '(wh, b) := put_features _ _ _ _ in Done _)).
  - rewrite length_app, length_le_split. lia.
  - intros p b Hp. rewrite put_features_ok by (fold fb; lia). fold fb. unfold put. cbn [fst snd].
    replace (p + 8 + length fb - p - 8)%nat with (length fb) by lia. f_equal. rewrite length_app, length_le_split.
    rewrite Nat.add_assoc. unfold memcpy, set_head, set_buffer. cbn [mem b_end head begin_addr verify_hash hash current input_files output_files].
    f_equal. replace (p + 8)%nat with (p + length (le_split 8 (Z.of_nat (length fb))))%nat by (by rewrite length_le_split).
    apply store_before. rewrite length_le_split. lia.
Qed.
End CacheFeatures.

(** ** Reading the features back *)

(** The two low bits tell the kind of value. *)
Lemma flag_bits z k : 0 <= k < 4 ->
  Z.land (4 * z + k) 1 = k mod 2 /\ Z.land (4 * z + k) 2 = (if 2 <=? k then 2 else 0) /\ Z.shiftr (4 * z + k) 2 = z.
Proof.
  intros Hk. split_and!.
  - change 1 with (Z.ones 1) at 1. rewrite Z.land_ones by lia. change (2 ^ 1) with 2.
    replace (4 * z + k) with (k + 2 * z * 2) by lia. by rewrite Z.mod_add by lia.
  - assert (Z.land (4 * z + k) 2 = Z.land ((4 * z + k) mod 4) 2) as ->.
    { change 4 with (2 ^ 2) at 2. rewrite <- (Z.land_ones _ 2) by lia. by rewrite <- Z.land_assoc. }
    replace (4 * z + k) with (k + z * 4) by lia. rewrite Z.mod_add, Z.mod_small by lia.
    assert (k = 0 \/ k = 1 \/ k = 2 \/ k = 3) as [-> | [-> | [-> | ->]]] by lia; done.
  - rewrite Z.shiftr_div_pow2 by lia. change (2 ^ 2) with 4. symmetry. apply (Z.div_unique _ _ _ k); lia.
Qed.

Lemma lor_flag z k : 0 <= z -> 0 <= k < 4 -> Z.lor (4 * z) k = 4 * z + k.
Proof.
  intros Hz Hk. replace (4 * z) with (Z.shiftl z 2) by (rewrite Z.shiftl_mul_pow2 by lia; lia).
  rewrite Z.lor_comm, lor_shift_add by lia. rewrite Z.shiftl_mul_pow2 by lia. lia.
Qed.

Definition value_flag (v : f32) : Z := if (v =? f32_one)%num then 0 else if (v =? f32_minus_one)%num then NEG_ONE else GENERAL.

Lemma feature_bytes_shape v z : 0 <= z < 2 ^ 62 ->
  feature_bytes v (4 * z) = variable_length_int_encode (4 * z + value_flag v) ++
    (if value_flag v =? GENERAL then float_bytes v else []).
Proof.
  intros Hz. unfold feature_bytes, value_flag, NEG_ONE, GENERAL. case_if.
  - cbn [Z.eqb]. by rewrite Z.add_0_r, app_nil_r.
  - case_if; cbn [Z.eqb]; rewrite lor_flag by lia; [by rewrite app_nil_r|done].
Qed.

Lemma read_feature_step fuel m rh e last sorted feats v index rest :
  valid_f32 v -> 0 <= last < 2 ^ 61 -> 0 <= index < 2 ^ 61 ->
  let fb := feature_bytes v (u64 (Z.shiftl (zig_zag_encode (i64 (index - last))) 2)) in
  drop rh m = fb ++ rest -> (rh + length fb <= e)%nat ->
  read_features_loop (S fuel) m rh e last sorted feats =
  read_features_loop fuel m (rh + length fb) e index (sorted && (last <=? index)) (push_back v index feats).
Proof.
  intros Hv Hlast Hindex fb Hm He.
  destruct (index_diff_roundtrip last index Hlast Hindex) as (Hs & Hzz & Hshift & Hz & Hsum). cbn zeta in *.
  subst fb. rewrite Hshift in *. set (z := zig_zag_encode (i64 (index - last))) in *.
  rewrite feature_bytes_shape in * by done.
  assert (0 <= value_flag v < 4) as Hflag by (unfold value_flag, NEG_ONE, GENERAL; repeat case_if; lia).
  destruct (flag_bits z (value_flag v) Hflag) as (Hb1 & Hb2 & Hb3).
  pose proof (varint_length (4 * z + value_flag v)) as Hvl.
  rewrite length_app in He. cbn [read_features_loop]. rewrite (proj2 (Nat.ltb_lt rh e)) by lia.
  rewrite Hm, <- app_assoc, varint_decode by lia. set (n := length (variable_length_int_encode _)) in *.
  change NEG_ONE with 1. change GENERAL with 2. rewrite Hs in Hsum, Hzz.
  rewrite !Hb1, !Hb2, Hb3, Hzz, Hsum.
  replace (if index - last <? 0 then false else sorted) with (sorted && (last <=? index)) by
    (destruct (Z.ltb_spec (index - last) 0); [rewrite (proj2 (Z.leb_gt _ _)) by lia; by rewrite andb_false_r|
       rewrite (proj2 (Z.leb_le _ _)) by lia; by rewrite andb_true_r]).
  rewrite !length_app. fold n. unfold value_flag, NEG_ONE, GENERAL in *.
  destruct (v =? f32_one)%num eqn:E1; [apply f32_eqb_finite in E1 as ->|destruct (v =? f32_minus_one)%num eqn:E2; [apply f32_eqb_finite in E2 as ->|]].
  - change (0 mod 2) with 0. change (2 <=? 0) with false. cbn [Z.eqb negb andb length]. rewrite !Nat.add_0_r. done.
  - change (1 mod 2) with 1. cbn [Z.eqb Pos.eqb negb andb length]. rewrite !Nat.add_0_r. done.
  - change (2 mod 2) with 0. change (2 <=? 2) with true. cbn [Z.eqb Pos.eqb negb andb].
    change (2 =? 2) with true in *. cbn iota in *.
    assert (drop (rh + n) m = float_bytes v ++ rest) as Hm'.
    { rewrite <- drop_drop, Hm, <- app_assoc. subst n. by apply drop_app_length. }
    assert (rh + n + 4 <= length m)%nat as Hlen.
    { apply (f_equal length) in Hm'. rewrite length_drop, length_app, length_float_bytes in Hm'. lia. }
    rewrite (proj2 (Nat.ltb_ge _ _)) by lia. unfold slice. rewrite Hm', take_app_length' by (by rewrite length_float_bytes).
    rewrite float_bytes_roundtrip by done. rewrite length_float_bytes, Nat.add_assoc. done.
Qed.

Lemma masked_range i mask : 0 <= mask < 2 ^ 61 -> 0 <= Z.land i mask < 2 ^ 61.
Proof.
  intros Hm. assert (0 <= Z.land i mask) as Hnn by (apply Z.land_nonneg; lia).
  split; [done|]. destruct (decide (Z.land i mask = 0)) as [-> | Hne]; [lia|].
  apply Z.log2_lt_pow2; [lia|].
  assert (Z.land i mask = Z.land (Z.land i mask) (Z.ones 61)) as Hones.
  { rewrite <- Z.land_assoc. f_equal. rewrite Z.land_ones by lia. by rewrite Z.mod_small. }
  rewrite Z.land_ones in Hones by lia. pose proof (Z.mod_pos_bound (Z.land i mask) (2 ^ 61)). apply Z.log2_lt_pow2; lia.
Qed.

Lemma read_features_loop_ok l mask m e : 0 <= mask < 2 ^ 61 -> Forall (fun x => valid_f32 x.1) l ->
  forall fuel rh last sorted feats rest, 0 <= last < 2 ^ 61 ->
  drop rh m = features_bytes l mask last ++ rest -> (rh + length (features_bytes l mask last))%nat = e -> (length l < fuel)%nat ->
  read_features_loop fuel m rh e last sorted feats = Done (e, push_all l mask feats, sorted && never_down l mask last).
Proof.
  intros Hmask. induction 1 as [|[v i] l Hv _ IH]; intros fuel rh last sorted feats rest Hlast Hm He Hfuel; (destruct fuel as [|fuel]; [cbn [length] in Hfuel; lia|]).
  - cbn [features_bytes length] in He. rewrite Nat.add_0_r in He. subst rh. cbn [read_features_loop].
    rewrite Nat.ltb_irrefl, andb_true_r. done.
  - cbn [features_bytes] in Hm, He. cbn zeta in Hm, He. rewrite length_app in He. rewrite <- app_assoc in Hm.
    pose proof (masked_range i mask Hmask) as Hi.
    rewrite (read_feature_step _ _ _ _ _ _ _ v (Z.land i mask) (features_bytes l mask (Z.land i mask) ++ rest)); [|done..|lia].
    set (fb := feature_bytes v _) in *. rewrite (IH fuel _ _ _ _ rest); [|done| | |].
    + cbn [push_all fold_left never_down fst snd]. by rewrite andb_assoc.
    + by rewrite <- drop_drop, Hm, drop_app_length.
    + lia.
    + cbn [length] in Hfuel. lia.
Qed.

Lemma features_bytes_count l mask last : (length l <= length (features_bytes l mask last))%nat.
Proof.
  revert last; induction l as [|[v i] l IH]; intros last; cbn [features_bytes length]; [lia|]. cbn zeta.
  rewrite length_app. pose proof (IH (Z.land i mask)).
  assert (0 < length (feature_bytes v (u64 (Z.shiftl (zig_zag_encode (i64 (Z.land i mask - last))) 2))))%nat; [|lia].
  unfold feature_bytes. repeat case_if; rewrite ?length_app; match goal with |- context [variable_length_int_encode ?d] => pose proof (varint_length d) end; lia.
Qed.

Section CacheReading.
Context {R W : Type} `{Reader R, Writer W} (alloc : nat -> Z).
Implicit Type b : io_buf R W.

Lemma read_value_bind {U} n m bs1 bs2 (k : list byte -> io_buf R W -> io_result (nat * U * io_buf R W)) u :
  length bs1 = n -> reads_back m (k bs1) bs2 u ->
  reads_back m (fun b => do (x, b) <- read_value alloc n b; k x b) (bs1 ++ bs2) u.
Proof.
  intros Hn [H2 H2']. split.
  - intros rest b Hwf Hs. rewrite <- app_assoc in Hs.
    destruct (read_value_ok alloc n b Hwf) as (b1 & -> & Hs1 & Hwf1 & _); [rewrite Hs, length_app; lia|]. cbn [io_bind].
    rewrite Hs, take_app_length', drop_app_length' in * by done. by apply H2.
  - intros c b Hwf Hc Hs. rewrite length_app in Hc. destruct (decide (c < n)%nat).
    + rewrite (read_value_short alloc n b Hwf); [done|]. rewrite Hs, length_take, length_app. lia.
    + rewrite take_app_ge in Hs by lia. destruct (read_value_ok alloc n b Hwf) as (b1 & -> & Hs1 & Hwf1 & _); [rewrite Hs, length_app; lia|].
      cbn [io_bind]. rewrite Hs, take_app_length', drop_app_length' in * by done.
      apply (H2' (c - length bs1)%nat); [done|lia|done].
Qed.

(** A block of known size, in memory at the pointer returned. *)
Lemma buf_read_block n b bs rest : wf b -> stream b = bs ++ rest -> length bs = n ->
  exists p b', buf_read alloc (read_fuel b) n TEXT b = Done (p, n, b') /\ slice p n (mem b') = bs /\
    stream b' = rest /\ wf b' /\ head b' = (p + n)%nat /\ drop p (mem b') = bs ++ drop (p + n) (mem b').
Proof.
  intros Hwf Hs Hn. destruct (buf_read_text alloc (read_fuel b) b n Hwf (read_fuel_measure b))
    as (p & k & b' & -> & Hk & (Hsl & Hd & Hwf' & _) & Hh & _).
  rewrite Hs, take_app_length', drop_app_length' in * by done. subst k. rewrite Hn in *.
  exists p, b'. split_and!; try done. rewrite <- Hsl. unfold slice. by rewrite <- drop_drop, take_drop.
Qed.

Lemma buf_read_short n b : wf b -> (length (stream b) < n)%nat ->
  exists p b', buf_read alloc (read_fuel b) n TEXT b = Done (p, length (stream b), b').
Proof.
  intros Hwf Hn. destruct (buf_read_text alloc (read_fuel b) b n Hwf (read_fuel_measure b)) as (p & k & b' & -> & Hk & _).
  rewrite take_ge in Hk by lia. subst k. by exists p, b'.
Qed.

Lemma size_field k : (Z.of_nat k < 2 ^ 64) -> Z.to_nat (le_combine (le_split 8 (Z.of_nat k))) = k.
Proof.
  intros Hk. rewrite le_combine_split. change (2 ^ (Z.of_nat 8 * 8)) with (2 ^ 64). rewrite Z.mod_small by lia. lia.
Qed.

Lemma read_tag_bind {U} m tag tag0 bs2 (k : nat -> list byte -> io_buf R W -> io_result (nat * U * io_buf R W)) u :
  Z.of_nat (length tag) < 2 ^ 64 -> reads_back m (k (length tag + 8)%nat tag) bs2 u ->
  reads_back m (fun b => do (n, t, b) <- read_cached_tag alloc tag0 b; if (n =? 0)%nat then Throw else k n t b) (tag_bytes tag ++ bs2) u.
Proof.
  intros Hlen [H2 H2']. unfold tag_bytes, read_cached_tag. rewrite <- app_assoc. split.
  - intros rest b Hwf Hs. rewrite <- !app_assoc in Hs.
    destruct (read_value_ok alloc 8 b Hwf) as (b1 & -> & Hs1 & Hwf1 & _); [rewrite Hs, length_app, length_le_split; lia|]. cbn [io_bind].
    rewrite Hs, take_app_length', drop_app_length' in * by (by rewrite length_le_split). rewrite size_field by done.
    destruct (buf_read_block _ b1 tag (bs2 ++ rest) Hwf1 Hs1 eq_refl) as (p & b2 & -> & Hsl & Hs2 & Hwf2 & _). cbn [io_bind].
    rewrite Nat.ltb_irrefl. cbn [io_bind]. rewrite (proj2 (Nat.eqb_neq _ _)) by lia. rewrite Hsl. by apply H2.
  - intros c b Hwf Hc Hs. rewrite !length_app, length_le_split in Hc. destruct (decide (c < 8)%nat).
    { rewrite (read_value_short alloc 8 b Hwf); [done|]. rewrite Hs, length_take, !length_app, length_le_split. lia. }
    rewrite take_app_ge in Hs by (rewrite length_le_split; lia). rewrite length_le_split in Hs.
    destruct (read_value_ok alloc 8 b Hwf) as (b1 & -> & Hs1 & Hwf1 & _); [rewrite Hs, length_app, length_le_split; lia|]. cbn [io_bind].
    rewrite Hs, take_app_length', drop_app_length' in * by (by rewrite length_le_split). rewrite size_field by done.
    destruct (decide (c - 8 < length tag)%nat).
    + rewrite take_app_le in Hs1 by lia.
      destruct (buf_read_short (length tag) b1 Hwf1) as (p & b2 & ->); [rewrite Hs1, length_take; lia|]. cbn [io_bind].
      rewrite Hs1, length_take. rewrite (proj2 (Nat.ltb_lt _ _)) by lia. done.
    + rewrite take_app_ge in Hs1 by lia.
      destruct (buf_read_block _ b1 tag _ Hwf1 Hs1 eq_refl) as (p & b2 & -> & Hsl & Hs2 & Hwf2 & _). cbn [io_bind].
      rewrite Nat.ltb_irrefl. cbn [io_bind]. rewrite (proj2 (Nat.eqb_neq _ _)) by lia. rewrite Hsl.
      apply (H2' (c - 8 - length tag)%nat); [done|lia|done].
Qed.

Definition zipped (fs : features f32) : list (f32 * Z) := zip (values fs) (indices fs).
Definition group_ok (fs : features f32) : Prop :=
  length (indices fs) = length (values fs) /\ Forall valid_f32 (values fs) /\ Z.of_nat (features_storage fs) < 2 ^ 64.

Lemma read_cached_features_back fs feats mask : 0 <= mask < 2 ^ 61 -> group_ok fs ->
  reads_back (R := R) (W := W) (length (group_bytes fs mask)) (read_cached_features alloc feats) (group_bytes fs mask)
    (push_all (zipped fs) mask feats, never_down (zipped fs) mask 0).
Proof.
  intros Hmask (Hlen & Hvalid & Hroom). pose proof (features_bytes_length fs mask Hlen) as Hle.
  unfold group_bytes, read_cached_features. fold (zipped fs) in *. cbn zeta. set (fb := features_bytes (zipped fs) mask 0) in *.
  rewrite length_app, length_le_split.
  eapply (read_value_bind 8); [apply length_le_split|]. cbv beta.
  rewrite size_field by lia. cbn zeta. split.
  - intros rest b Hwf Hs. destruct (buf_read_block _ b fb rest Hwf Hs eq_refl) as (p & b1 & -> & _ & Hs1 & Hwf1 & Hh & Hd). cbn [io_bind].
    rewrite Nat.ltb_irrefl.
    rewrite (read_features_loop_ok (zipped fs) mask (mem b1) (p + length fb) Hmask) with (rest := drop (p + length fb) (mem b1)).
    + cbn [io_bind andb]. exists b1. split; [|done]. do 2 f_equal. rewrite <- Hh. by destruct b1.
    + clear -Hvalid. unfold zipped. revert Hvalid. generalize (indices fs). generalize (values fs).
      induction l as [|v l IH]; intros [|i js] Hv; try (by constructor). apply Forall_cons in Hv as [? ?].
      constructor; [done|]. by apply IH.
    + lia.
    + done.
    + done.
    + pose proof (features_bytes_count (zipped fs) mask 0). fold fb in H1. lia.
  - intros c b Hwf Hc Hs. destruct (buf_read_short (length fb) b Hwf) as (p & b1 & ->); [rewrite Hs, length_take; lia|]. cbn [io_bind].
    rewrite Hs, length_take. by rewrite (proj2 (Nat.ltb_lt _ _)) by lia.
Qed.
End CacheReading.

(** ** Whole examples *)

Section CacheExamples.
Context {R W : Type} `{Reader R, Writer W} (alloc : nat -> Z).
Implicit Type b : io_buf R W.

Definition namespaces_bytes (indices : list byte) (space : byte -> features f32) (mask : Z) : list byte :=
  mjoin ((fun i => i :: group_bytes (space i) mask) <$> indices).

Lemma cache_namespaces_emits js space mask : Forall (fun i => length (indices (space i)) = length (values (space i))) js ->
  emits (R := R) (W := vector_writer) (cache_namespaces alloc js space mask) (namespaces_bytes js space mask).
Proof.
  unfold namespaces_bytes. induction 1 as [|i js Hi _ IH]; [apply emits_ret|]. rewrite fmap_cons. cbn [cache_namespaces mjoin list_join].
  apply (emits_bind (W := vector_writer) (cache_index alloc i) _ [i]); [apply write_value_emits|].
  apply (emits_bind (W := vector_writer)); [by apply cache_features_emits|exact IH].
Qed.

(** The namespaces after reading [js] saved from [space]. *)
Definition read_state (js : list byte) (space : byte -> features f32) (mask : Z)
    (st : list byte * (byte -> features f32) * bool) : list byte * (byte -> features f32) * bool :=
  fold_left (fun st i => (st.1.1 ++ [i], set_space i (push_all (zipped (space i)) mask (st.1.2 i)) st.1.2,
                          never_down (zipped (space i)) mask 0)) js st.

Lemma read_namespaces_back js space mask : 0 <= mask < 2 ^ 61 -> Forall (fun i => group_ok (space i)) js -> forall st,
  reads_back (R := R) (W := W) (length (namespaces_bytes js space mask)) (read_namespaces alloc (length js) st)
    (namespaces_bytes js space mask) (read_state js space mask st).
Proof.
  intros Hmask. unfold namespaces_bytes. induction 1 as [|i js Hi _ IH]; intros st; [apply reads_ret|].
  rewrite fmap_cons. cbn [mjoin list_join length read_namespaces read_state fold_left]. cbn zeta.
  rewrite length_app. cbn [length].
  apply (reads_bind 1 _ (read_cached_index alloc) _ [i] (group_bytes (space i) mask ++ _) i).
  { apply (read_value_bind alloc 1 1 [i] [] (fun index b => Done (1%nat, default Byte.x00 (list.head index), b))); [done|]. apply reads_ret. }
  eapply reads_bind; [by apply read_cached_features_back|]. cbv beta. cbn [fst snd].
  apply (reads_last _ _ _ _ _ id). apply IH.
Qed.

Definition example_bytes (t_bytes : list byte) (ex : example) (mask : Z) : list byte :=
  t_bytes ++ tag_bytes (ex_tag ex) ++ [if ex_is_newline ex then NEWLINE_EXAMPLE_INDICATOR else NON_NEWLINE_EXAMPLE_INDICATOR] ++
  [byte.of_Z (Z.of_nat (length (ex_indices ex)))] ++ namespaces_bytes (ex_indices ex) (ex_feature_space ex) mask.

Lemma write_example_ok t ex mask temp b n lb :
  writes n (lp_cache_label (get_label_parser (R := R) (W := vector_writer) alloc t) (ex_l ex) (ex_reduction_features ex)) lb ->
  Forall (fun i => length (indices (ex_feature_space ex i)) = length (values (ex_feature_space ex i))) (ex_indices ex) ->
  reliable (W := W) -> wf_write temp -> head temp = 0%nat -> wf_write b ->
  exists temp' b', write_example_to_cache alloc ex (get_label_parser alloc t) mask temp b = Done (temp', b') /\
    wf_write temp' /\ head temp' = 0%nat /\ wf_write b' /\
    written b' = written b ++ le_split 8 (Z.of_nat (length (example_bytes lb ex mask))) ++ example_bytes lb ex mask.
Proof.
  intros Hlabel Hgroups Hr Hwt Hht Hwb. unfold write_example_to_cache.
  set (temp0 := set_outputs (match output_files temp with [] => [] | _ :: files => [] :: files end) temp).
  assert (wf_write (W := vector_writer) temp0 /\ written (W := vector_writer) temp0 = []) as [Hwt0 Hempty].
  { destruct Hwt as (Ho & ? & ? & ?). unfold wf_write, written. subst temp0. destruct temp as [m e h a v ha c ins outs].
    cbn [set_outputs output_files mem head b_end] in *. subst h. destruct outs as [|f files]; [done|].
    split; [split_and!; [done|lia..]|reflexivity]. }
  assert (reliable (W := vector_writer)) as Hrv by (intros w bs; reflexivity).
  destruct (Hlabel temp0 Hrv Hwt0) as (t1 & -> & Hw1 & Hwf1). cbn [io_bind].
  destruct (cache_tag_emits alloc (ex_tag ex) t1 Hrv Hwf1) as (t2 & -> & Hw2 & Hwf2). cbn [io_bind].
  destruct (write_value_emits alloc [if ex_is_newline ex then NEWLINE_EXAMPLE_INDICATOR else NON_NEWLINE_EXAMPLE_INDICATOR] t2 Hrv Hwf2)
    as (t3 & -> & Hw3 & Hwf3). cbn [io_bind].
  destruct (write_value_emits alloc [byte.of_Z (Z.of_nat (length (ex_indices ex)))] t3 Hrv Hwf3) as (t4 & -> & Hw4 & Hwf4). cbn [io_bind].
  destruct (cache_namespaces_emits _ _ mask Hgroups t4 Hrv Hwf4) as (t5 & -> & Hw5 & Hwf5). cbn [io_bind].
  destruct (flush_ok t5 Hrv Hwf5) as (t6 & -> & Hh6 & Hw6 & Hwf6 & _). cbn [io_bind].
  rewrite Hw5, Hw4, Hw3, Hw2, Hw1, Hempty, <- !app_assoc in Hw6. change ([] ++ lb ++ ?x) with (lb ++ x) in Hw6.
  fold (example_bytes lb ex mask) in Hw6. unfold written in Hw6. rewrite Hh6, take_0, app_nil_r in Hw6.
  assert (default [] (list.head (output_files t6)) = example_bytes lb ex mask) as ->
    by (rewrite <- Hw6; destruct (output_files t6); reflexivity).
  destruct (write_value_emits alloc (le_split 8 (Z.of_nat (length (example_bytes lb ex mask)))) b Hr Hwb) as (b1 & -> & Hb1 & Hwb1). cbn [io_bind].
  destruct (bin_write_fixed_ok alloc (example_bytes lb ex mask) b1 Hr Hwb1) as (b2 & -> & Hb2 & Hwb2 & _). cbn [io_bind].
  exists t6, b2. split_and!; try done. by rewrite Hb2, Hb1, <- app_assoc.
Qed.

(** The example read: [ex] as saved, into [ex0]. *)
Definition example_read (t : label_type_t) (ex ex0 : example) (mask : Z) : example :=
  let st := read_state (ex_indices ex) (ex_feature_space ex) mask (ex_indices ex0, ex_feature_space ex0, ex_sorted ex0) in
  Example_ (copy_label t (ex_l ex) (ex_l ex0)) (copy_rf t (ex_reduction_features ex) (ex_reduction_features ex0))
    (ex_tag ex) (ex_is_newline ex) st.1.1 st.1.2 st.2.

Definition example_ok (t : label_type_t) (ex : example) : Prop :=
  label_ok (R := R) (W := W) alloc t (ex_l ex) (ex_reduction_features ex) /\ Z.of_nat (length (ex_tag ex)) < 2 ^ 64 /\
  (length (ex_indices ex) < 256)%nat /\ Forall (fun i => group_ok (ex_feature_space ex i)) (ex_indices ex).

(** What follows the size field, read back. *)
Definition read_body (p : label_parser (R := R) (W := W)) (ex : example) b : io_result (nat * example * io_buf R W) :=
  do (total, l_rf, b) <- lp_read_cached_label p (lp_default_label p (ex_l ex)) (ex_reduction_features ex) b;
  if (total =? 0)%nat then Throw
  else
    do (tag_size, tag, b) <- read_cached_tag alloc (ex_tag ex) b;
    if (tag_size =? 0)%nat then Throw
    else
      do (newline, b) <- read_value alloc 1 b;
      do (num_indices, b) <- read_value alloc 1 b;
      do (n, st, b) <- read_namespaces alloc (Z.to_nat (le_combine num_indices)) (ex_indices ex, ex_feature_space ex, ex_sorted ex) b;
      Done ((total + tag_size + 1 + 1 + n)%nat,
            Example_ l_rf.1 l_rf.2 tag (bool_decide (list.head newline = Some NEWLINE_EXAMPLE_INDICATOR)) st.1.1 st.1.2 st.2, b).

Lemma read_body_back t ex ex0 mask n lb : 0 <= mask < 2 ^ 61 -> example_ok t ex -> (0 < n)%nat ->
  let p := get_label_parser (R := R) (W := W) alloc t in
  reads_back n (lp_read_cached_label p (lp_default_label p (ex_l ex0)) (ex_reduction_features ex0)) lb
    (copy_label t (ex_l ex) (ex_l ex0), copy_rf t (ex_reduction_features ex) (ex_reduction_features ex0)) ->
  exists m, (0 < m)%nat /\ reads_back m (read_body p ex0) (example_bytes lb ex mask) (example_read t ex ex0 mask).
Proof.
  intros Hmask (_ & Htag & Hcount & Hgroups) Hn p Hlabel. unfold read_body, example_bytes.
  exists (n + (length (ex_tag ex) + 8) + 1 + 1 + length (namespaces_bytes (ex_indices ex) (ex_feature_space ex) mask))%nat. split; [lia|].
  eapply reads_bind; [exact Hlabel|]. cbv beta. rewrite (proj2 (Nat.eqb_neq n 0)) by lia.
  eapply read_tag_bind; [done|]. cbv beta.
  eapply (read_value_bind alloc 1); [done|]. cbv beta.
  eapply (read_value_bind alloc 1); [done|]. cbv beta.
  assert (Z.to_nat (le_combine [byte.of_Z (Z.of_nat (length (ex_indices ex)))]) = length (ex_indices ex)) as ->.
  { assert (le_combine [byte.of_Z (Z.of_nat (length (ex_indices ex)))] = byte_val (byte.of_Z (Z.of_nat (length (ex_indices ex))))) as ->.
    { cbn [le_combine]. apply Z.lor_0_r. }
    rewrite byte_of_Z_val by lia. lia. }
  assert (bool_decide (list.head [if ex_is_newline ex then NEWLINE_EXAMPLE_INDICATOR else NON_NEWLINE_EXAMPLE_INDICATOR] =
            Some NEWLINE_EXAMPLE_INDICATOR) = ex_is_newline ex) as -> by (by destruct (ex_is_newline ex)).
  eapply (reads_last _ _ _ _ _ (fun st => Example_ _ _ _ _ st.1.1 st.1.2 st.2)). by apply read_namespaces_back.
Qed.

Lemma read_example_body p ex b :
  read_example_from_cache alloc p ex b =
  do (_, k, b) <- buf_read alloc (read_fuel b) 8 TEXT b; if (k <? 8)%nat then Done (0%nat, ex, b) else read_body p ex b.
Proof. reflexivity. Qed.
End CacheExamples.

(** ** Properties *)

(** The variable-length code of a 64-bit value takes one to ten bytes, whatever follows it
    decodes to that value and leaves what follows; zig-zag coding is inverse on every [int64_t]. *)
Theorem varint_roundtrip num rest : 0 <= num < 2 ^ 64 ->
  variable_length_int_decode (variable_length_int_encode num ++ rest) = Some (num, length (variable_length_int_encode num)) /\
  (1 <= length (variable_length_int_encode num) <= 10)%nat /\
  (forall n, - 2 ^ 63 <= n < 2 ^ 63 -> zig_zag_decode (zig_zag_encode n) = n /\ 0 <= zig_zag_encode n < 2 ^ 64).
Proof.
  intros Hn. split; [by apply varint_decode|]. split; [pose proof (varint_length num); lia|].
  intros n Hr. split; [by apply zig_zag_roundtrip|]. rewrite zig_zag_encode_spec by done. case_if; bprop; lia.
Qed.

Lemma varint_roundtrip_witness :
  variable_length_int_decode (variable_length_int_encode 300 ++ str "x") = Some (300, 2%nat).
Proof. apply (varint_roundtrip 300 (str "x")). lia. Defined.

Lemma push_all_columns l mask feats :
  values (push_all l mask feats) = values feats ++ l.*1 /\
  indices (push_all l mask feats) = indices feats ++ ((fun e => Z.land e.2 mask) <$> l).
Proof.
  revert feats; induction l as [|[v i] l IH]; intros feats.
  - cbn. by rewrite !app_nil_r.
  - change (push_all ((v, i) :: l) mask feats) with (push_all l mask (push_back v (Z.land i mask) feats)). destruct (IH (push_back v (Z.land i mask) feats)) as [-> ->].
    cbn [push_back values indices]. by rewrite <- !app_assoc.
Qed.

Lemma zipped_columns fs : length (indices fs) = length (values fs) ->
  (zipped fs).*1 = values fs /\ (fun e => Z.land e.2 0) <$> zipped fs = (fun e => Z.land e.2 0) <$> zipped fs /\ (zipped fs).*2 = indices fs.
Proof. intros Hl. unfold zipped. split_and!; [apply fst_zip; lia|done|apply snd_zip; lia]. Qed.

Lemma read_state_cons i js space mask st : read_state (i :: js) space mask st =
  read_state js space mask (st.1.1 ++ [i], set_space i (push_all (zipped (space i)) mask (st.1.2 i)) st.1.2, never_down (zipped (space i)) mask 0).
Proof. done. Qed.

Lemma read_state_indices js space mask st : (read_state js space mask st).1.1 = st.1.1 ++ js.
Proof.
  revert st; induction js as [|i js IH]; intros st; [cbn; by rewrite app_nil_r|].
  rewrite read_state_cons, IH. cbn [fst snd]. by rewrite <- app_assoc.
Qed.

Lemma read_state_space js space mask : NoDup js -> forall st i,
  (read_state js space mask st).1.2 i = if decide (i ∈ js) then push_all (zipped (space i)) mask (st.1.2 i) else st.1.2 i.
Proof.
  induction 1 as [|j js Hj _ IH]; intros st i; [done|].
  rewrite read_state_cons, IH. cbn [fst snd]. unfold set_space. destruct (decide (i = j)) as [-> | Hne].
  - rewrite decide_False by done. by rewrite decide_True by (by left).
  - destruct (decide (i ∈ js)); [rewrite decide_True by (by right); done|].
    rewrite decide_False; [done|]. rewrite elem_of_cons. tauto.
Qed.

Lemma read_state_sorted js space mask st :
  (read_state js space mask st).2 = match last js with Some i => never_down (zipped (space i)) mask 0 | None => st.2 end.
Proof.
  revert st; induction js as [|i js IH]; intros st; [done|].
  rewrite read_state_cons, IH. cbn [snd]. rewrite last_cons. destruct (last js); done.
Qed.

Section CacheProperties.
Context {R W : Type} `{Reader R, Writer W} (alloc : nat -> Z).

(** An example as the reader finds it: emptied. *)
Definition empty_example (ex : example) : Prop :=
  ex_indices ex = [] /\ (forall i, ex_feature_space ex i = fs_empty) /\ crf_pdf (continuous_rf (ex_reduction_features ex)) = [].

Definition save_example (t : label_type_t) (ex : example) (mask : Z) (temp : io_buf R vector_writer) (b : io_buf R W) :=
  do (temp, b) <- write_example_to_cache alloc ex (get_label_parser alloc t) mask temp b;
  do b <- flush b;
  Done (temp, b).

Lemma save_example_ok t ex mask temp bw : example_ok (R := R) (W := W) alloc t ex ->
  reliable (W := W) -> wf_write temp -> head temp = 0%nat -> wf_write bw -> written bw = [] ->
  let body := example_bytes (label_bytes (R := R) (W := W) alloc t (ex_l ex) (ex_reduction_features ex)) ex mask in
  exists temp' bw', save_example t ex mask temp bw = Done (temp', bw') /\
    default [] (w_done <$> list.head (output_files bw')) = le_split 8 (Z.of_nat (length body)) ++ body.
Proof.
  intros (Hlabel & _ & _ & Hgroups) Hr Hwt Hht Hwb Hempty body. unfold save_example.
  destruct (write_example_ok alloc t ex mask temp bw _ _
    (label_cache_write (W := vector_writer) alloc t _ _ (label_ok_device alloc t _ _ Hlabel))) as (temp' & b1 & -> & _ & _ & Hwf1 & Hw1).
  - eapply Forall_impl; [exact Hgroups|]. intros i [Hi _]. exact Hi.
  - done.
  - done.
  - done.
  - done.
  - cbn [io_bind]. destruct (flush_ok b1 Hr Hwf1) as (b2 & -> & Hh2 & Hw2 & _). cbn [io_bind]. exists temp', b2. split; [done|].
    rewrite Hw1, Hempty, (label_bytes_device (W2 := W)) in Hw2. unfold written in Hw2. rewrite Hh2, take_0, app_nil_r in Hw2. exact Hw2.
Qed.

(** C28: An example written to the cache and flushed is read back, from an input holding the cache
    followed by anything, as the same label, tag, newline flag and namespaces, each with the same
    values and the masked indices (the parse mask has fewer than 61 bits); the size reported is
    positive and what follows the example is left. *)
Theorem cache_example_roundtrip t ex ex0 mask temp (bw br : io_buf R W) :
  example_ok (R := R) (W := W) alloc t ex -> NoDup (ex_indices ex) -> 0 <= mask < 2 ^ 61 -> empty_example ex0 ->
  reliable (W := W) -> wf_write temp -> head temp = 0%nat -> wf_write bw -> written bw = [] -> wf br ->
  exists temp' bw', save_example t ex mask temp bw = Done (temp', bw') /\
    forall rest, stream br = default [] (w_done <$> list.head (output_files bw')) ++ rest ->
    exists n ex' br', read_example_from_cache alloc (get_label_parser alloc t) ex0 br = Done (n, ex', br') /\ (0 < n)%nat /\
      stream br' = rest /\ wf br' /\
      ex_l ex' = copy_label t (ex_l ex) (ex_l ex0) /\
      ex_reduction_features ex' = copy_rf t (ex_reduction_features ex) (ex_reduction_features ex0) /\
      ex_tag ex' = ex_tag ex /\ ex_is_newline ex' = ex_is_newline ex /\ ex_indices ex' = ex_indices ex /\
      (forall i, i ∈ ex_indices ex ->
        values (ex_feature_space ex' i) = values (ex_feature_space ex i) /\
        indices (ex_feature_space ex' i) = (fun x => Z.land x mask) <$> indices (ex_feature_space ex i)) /\
      (forall i, i ∉ ex_indices ex -> ex_feature_space ex' i = fs_empty).
Proof.
  intros Hok Hnd Hmask (Hi0 & Hs0 & Hrf0) Hr Hwt Hht Hww Hempty Hwr.
  destruct (save_example_ok t ex mask temp bw Hok Hr Hwt Hht Hww Hempty) as (temp' & bw' & -> & Hdev).
  exists temp', bw'. split; [done|]. rewrite Hdev. intros rest Hs. rewrite <- app_assoc in Hs.
  destruct (read_body_back alloc t ex ex0 mask _ _ Hmask Hok (label_count_pos alloc t _ _)
    (label_cache_read alloc t _ _ (ex_l ex0) _ (proj1 Hok) Hrf0)) as (m & Hm & Hread & _).
  destruct (buf_read_block alloc 8 br _ _ Hwr Hs (length_le_split _ _)) as (p & b1 & Hb1 & _ & Hs1 & Hwf1 & _).
  destruct (Hread rest b1 Hwf1 Hs1) as (br' & Hb2 & Hs2 & Hwf2).
  exists m, (example_read t ex ex0 mask), br'. rewrite read_example_body, Hb1. cbn [io_bind Nat.ltb Nat.leb].
  split; [exact Hb2|]. split_and!; try done.
  - cbn [example_read ex_indices]. rewrite read_state_indices. cbn [fst]. by rewrite Hi0.
  - intros i Hi. cbn [example_read ex_feature_space]. rewrite read_state_space by done. rewrite decide_True by done. cbn [fst snd].
    rewrite Hs0. destruct (push_all_columns (zipped (ex_feature_space ex i)) mask fs_empty) as [-> ->].
    destruct Hok as (_ & _ & _ & Hgroups). rewrite Forall_forall in Hgroups. destruct (Hgroups i Hi) as [Hl _].
    destruct (zipped_columns _ Hl) as (-> & _ & Hidx). split; [done|]. cbn [fs_empty indices app].
    by rewrite <- Hidx, <- list_fmap_compose.
  - intros i Hi. cbn [example_read ex_feature_space]. rewrite read_state_space by done. rewrite decide_False by done. apply Hs0.
Qed.

(** A cache that ends inside an example is an error, unless it ends inside the size field, which
    is taken for the end of the cache: 0 is returned and the example is untouched. *)
Theorem cache_truncated t ex ex0 mask temp (bw br : io_buf R W) k :
  example_ok (R := R) (W := W) alloc t ex -> 0 <= mask < 2 ^ 61 -> empty_example ex0 ->
  reliable (W := W) -> wf_write temp -> head temp = 0%nat -> wf_write bw -> written bw = [] -> wf br ->
  exists temp' bw', save_example t ex mask temp bw = Done (temp', bw') /\
    let device := default [] (w_done <$> list.head (output_files bw')) in
    ((k < length device)%nat -> stream br = take k device ->
     if (k <? 8)%nat then exists br', read_example_from_cache alloc (get_label_parser alloc t) ex0 br = Done (0%nat, ex0, br')
     else read_example_from_cache alloc (get_label_parser alloc t) ex0 br = Throw).
Proof.
  intros Hok Hmask (Hi0 & Hs0 & Hrf0) Hr Hwt Hht Hww Hempty Hwr.
  destruct (save_example_ok t ex mask temp bw Hok Hr Hwt Hht Hww Hempty) as (temp' & bw' & -> & Hdev).
  exists temp', bw'. split; [done|]. cbn zeta. rewrite Hdev, length_app, length_le_split. intros Hk Hs.
  rewrite read_example_body. case_if; bprop.
  - rewrite take_app_le in Hs by (rewrite length_le_split; lia).
    destruct (buf_read_short alloc 8 br Hwr) as (p & b1 & ->); [rewrite Hs, length_take, length_le_split; lia|]. cbn [io_bind].
    rewrite Hs, length_take, length_le_split. rewrite (proj2 (Nat.ltb_lt _ _)) by lia. by exists b1.
  - rewrite take_app_ge in Hs by (rewrite length_le_split; lia). rewrite length_le_split in Hs.
    destruct (buf_read_block alloc 8 br _ _ Hwr Hs (length_le_split _ _)) as (p & b1 & -> & _ & Hs1 & Hwf1 & _). cbn [io_bind Nat.ltb Nat.leb].
    destruct (read_body_back alloc t ex ex0 mask _ _ Hmask Hok (label_count_pos alloc t _ _)
      (label_cache_read alloc t _ _ (ex_l ex0) _ (proj1 Hok) Hrf0)) as (m & _ & _ & Hshort).
    apply (Hshort (k - 8)%nat); [done|lia|done].
Qed.

(** After a cache read the [sorted] flag of an example speaks only of its last namespace, since
    every call of [read_cached_features] sets it to true first: an example whose earlier
    namespaces are not in index order is marked sorted when its last one is. *)
Theorem cache_sorted_flag_last_namespace t ex ex0 mask (br : io_buf R W) rest i :
  example_ok (R := R) (W := W) alloc t ex -> 0 <= mask < 2 ^ 61 -> empty_example ex0 -> wf br ->
  last (ex_indices ex) = Some i ->
  let body := example_bytes (label_bytes (R := R) (W := W) alloc t (ex_l ex) (ex_reduction_features ex)) ex mask in
  stream br = le_split 8 (Z.of_nat (length body)) ++ body ++ rest ->
  exists n ex' br', read_example_from_cache alloc (get_label_parser alloc t) ex0 br = Done (n, ex', br') /\
    ex_sorted ex' = never_down (zipped (ex_feature_space ex i)) mask 0.
Proof.
  intros Hok Hmask (Hi0 & Hs0 & Hrf0) Hwr Hlast body Hs.
  destruct (read_body_back alloc t ex ex0 mask _ _ Hmask Hok (label_count_pos alloc t _ _)
    (label_cache_read alloc t _ _ (ex_l ex0) _ (proj1 Hok) Hrf0)) as (m & Hm & Hread & _).
  destruct (buf_read_block alloc 8 br _ _ Hwr Hs (length_le_split _ _)) as (p & b1 & Hb1 & _ & Hs1 & Hwf1 & _).
  destruct (Hread rest b1 Hwf1 Hs1) as (br' & Hb2 & Hs2 & Hwf2).
  exists m, (example_read t ex ex0 mask), br'. rewrite read_example_body, Hb1. cbn [io_bind Nat.ltb Nat.leb].
  split; [exact Hb2|]. cbn [example_read ex_sorted]. by rewrite read_state_sorted, Hlast.
Qed.
End CacheProperties.

(** ** Witnesses: two namespaces, the first out of order *)

Definition ex_half : f32 := SpecFloat.S754_finite false 8388608 (-24).
Definition ex_space (i : byte) : features f32 :=
  if decide (i = Byte.x61) then Features f32 [f32_one; ex_half] [5; 3] [] [] f32_one
  else if decide (i = Byte.x62) then Features f32 [f32_minus_one] [7] [] [] f32_one
  else fs_empty.
Definition ex_saved : example := Example_ ex_poly ex_rf (str "t") false [Byte.x61; Byte.x62] ex_space false.
Definition ex_fresh : example := Example_ ex_default ex_rf [] false [] (fun _ => fs_empty) false.
Definition ex_mask : Z := 2 ^ 18 - 1.
Definition ex_temp : io_buf buffer_view vector_writer := IoBuf (replicate 4 Byte.x00) 0 0 0 false 0 0 [] [[]].
Definition ex_body : list byte :=
  Eval vm_compute in example_bytes (label_bytes (R := buffer_view) (W := vector_writer) (fun _ => 0) SIMPLE ex_poly ex_rf) ex_saved ex_mask.
Definition ex_cache : list byte := le_split 8 (Z.of_nat (length ex_body)) ++ ex_body.
Definition ex_input (bs : list byte) : io_buf buffer_view vector_writer :=
  IoBuf (replicate 4 Byte.x00) 0 0 0 false 0 0 [BufferView bs 0] [].

Lemma ex_body_eq :
  example_bytes (label_bytes (R := buffer_view) (W := vector_writer) (fun _ => 0) SIMPLE ex_poly ex_rf) ex_saved ex_mask = ex_body.
Proof. vm_compute. reflexivity. Qed.

Lemma ex_saved_ok : example_ok (R := buffer_view) (W := vector_writer) (fun _ => 0) SIMPLE ex_saved.
Proof.
  unfold example_ok. cbn [ex_l ex_tag ex_indices ex_saved ex_reduction_features ex_feature_space]. split_and!.
  - cbn. done.
  - cbn. lia.
  - cbn. lia.
  - repeat constructor; cbn; lia.
Qed.

Lemma ex_temp_ok : wf_write ex_temp /\ reliable (W := vector_writer) /\ empty_example ex_fresh.
Proof.
  split; [unfold wf_write; cbn; split_and!; [done|lia..]|]. split; [intros w bs; reflexivity|]. split; [done|by split].
Qed.

Lemma ex_input_ok bs : wf (ex_input bs) /\ stream (ex_input bs) = bs.
Proof. unfold wf, stream, left_stream, slice. cbn. split; [lia|]. by rewrite app_nil_r. Qed.

Lemma cache_example_roundtrip_witness :
  exists temp' bw', save_example (fun _ => 0) SIMPLE ex_saved ex_mask ex_temp ex_temp = Done (temp', bw') /\
    exists n ex' br', read_example_from_cache (fun _ => 0) (get_label_parser (fun _ => 0) SIMPLE) ex_fresh (ex_input ex_cache) =
        Done (n, ex', br') /\ ex_indices ex' = [Byte.x61; Byte.x62] /\
      values (ex_feature_space ex' Byte.x61) = [f32_one; ex_half] /\ indices (ex_feature_space ex' Byte.x61) = [5; 3].
Proof.
  destruct ex_temp_ok as (Hw & Hr & Hf). destruct (ex_input_ok ex_cache) as [Hwf Hs].
  assert (NoDup (ex_indices ex_saved)) as Hnd by (apply (bool_decide_unpack _); vm_compute; exact I).
  destruct (cache_example_roundtrip (fun _ => 0) SIMPLE ex_saved ex_fresh ex_mask ex_temp ex_temp (ex_input ex_cache)
    ex_saved_ok Hnd ltac:(unfold ex_mask; lia) Hf Hr Hw eq_refl Hw eq_refl Hwf) as (temp' & bw' & H1 & H2).
  exists temp', bw'. split; [exact H1|].
  apply (f_equal (fun r => match r with Done (_, b) => output_files b | _ => [] end)) in H1. cbv beta iota in H1.
  assert (output_files bw' = [ex_cache]) as Ho by (rewrite <- H1; vm_compute; reflexivity).
  rewrite Ho, Hs in H2. destruct (H2 [] (eq_sym (app_nil_r _))) as (n & ex' & br' & H3 & _ & _ & _ & _ & _ & _ & _ & H4 & H5 & _).
  exists n, ex', br'. split; [exact H3|]. split; [exact H4|].
  assert (Byte.x61 ∈ ex_indices ex_saved) as Hin by (by left). destruct (H5 _ Hin) as [-> ->]. split; reflexivity.
Defined.

Lemma cache_truncated_witness :
  exists temp' bw', save_example (fun _ => 0) SIMPLE ex_saved ex_mask ex_temp ex_temp = Done (temp', bw') /\
    read_example_from_cache (fun _ => 0) (get_label_parser (fun _ => 0) SIMPLE) ex_fresh (ex_input (take 40 ex_cache)) = Throw.
Proof.
  destruct ex_temp_ok as (Hw & Hr & Hf). destruct (ex_input_ok (take 40 ex_cache)) as [Hwf Hs].
  destruct (cache_truncated (fun _ => 0) SIMPLE ex_saved ex_fresh ex_mask ex_temp ex_temp (ex_input (take 40 ex_cache)) 40
    ex_saved_ok ltac:(unfold ex_mask; lia) Hf Hr Hw eq_refl Hw eq_refl Hwf) as (temp' & bw' & H1 & H2).
  exists temp', bw'. split; [exact H1|].
  apply (f_equal (fun r => match r with Done (_, b) => output_files b | _ => [] end)) in H1. cbv beta iota in H1.
  assert (output_files bw' = [ex_cache]) as Ho by (rewrite <- H1; vm_compute; reflexivity).
  rewrite Ho, Hs in H2. apply H2; [vm_compute; lia|reflexivity].
Defined.

Lemma cache_sorted_flag_last_namespace_witness :
  never_down (zipped (ex_feature_space ex_saved Byte.x61)) ex_mask 0 = false /\
  exists n ex' br', read_example_from_cache (fun _ => 0) (get_label_parser (fun _ => 0) SIMPLE) ex_fresh (ex_input ex_cache) =
    Done (n, ex', br') /\ ex_sorted ex' = true.
Proof.
  split; [vm_compute; reflexivity|]. destruct ex_temp_ok as (_ & _ & Hf). destruct (ex_input_ok ex_cache) as [Hwf Hs].
  apply (cache_sorted_flag_last_namespace (fun _ => 0) SIMPLE ex_saved ex_fresh ex_mask (ex_input ex_cache) [] Byte.x62
    ex_saved_ok ltac:(unfold ex_mask; lia) Hf Hwf eq_refl).
  rewrite Hs, app_nil_r. cbn [ex_l ex_reduction_features ex_saved]. rewrite ex_body_eq. reflexivity.
Defined.
