(* ===== verification/Ngrams.v ===== *)
(** * n-grams with skips ([core/src/kskip_ngram_transformer.cc])

    [generate_grams] appends to every namespace of an example the grams of two and more of its
    features, in order, with at most the namespace's number of skipped features between the first
    and the last. The recursion of [add_grams] is translated with its shared [gram_mask] passed by
    value (every push of the code is popped before the function returns). *)

From S2P Require Import Prelude.
From S2P Require Import FloatBytes.
From S2P Require Import Features.
From S2P Require Import CacheParser.

Definition QUADRATIC_CONSTANT : Z := 27942141.

(** [v.back()] of the mask, which is never empty. *)
Definition back (mask : list nat) : nat := default 0%nat (last mask).

Section Grams.
Context {F : Type} `{Num F}.
Implicit Type fs : features F.

(** The hash of the features at [i] and at the mask's offsets from [i]; [None]: out of range. *)
Definition gram_index (mask : list nat) (indices : list Z) (i : nat) : option Z :=
  fold_left (fun acc m =>
    new_index ← acc;
    x ← indices !! (i + m)%nat;
    Some (u64 (new_index * QUADRATIC_CONSTANT + x))) (tail mask) (indices !! i).

Definition gram_name (mask : list nat) (space_names : list audit_strings) (i : nat) : option (list byte) :=
  fold_left (fun acc m =>
    feature_name ← acc;
    a ← space_names !! (i + m)%nat;
    Some (feature_name ++ str "^" ++ as_name a)) (tail mask) (as_name <$> space_names !! i).

Definition set_space_names (names : list audit_strings) fs : features F :=
  Features F (values fs) (indices fs) names (namespace_extents fs) (sum_feat_sq fs).

(** The body of the loop over the start of the gram. *)
Definition add_gram (mask : list nat) (i : nat) fs : option (features F) :=
  new_index ← gram_index mask (indices fs) i;
  let fs := push_back (n_of_Z 1) new_index fs in
  match space_names fs with
  | [] => Some fs
  | names =>
      first ← names !! i;
      feature_name ← gram_name mask names i;
      Some (set_space_names (names ++ [AuditStrings (as_ns first) feature_name []]) fs)
  end.

(** [for (size_t i = ...; ...; i++)], [count] rounds from [i] on. *)
Fixpoint gram_loop (mask : list nat) (count i : nat) fs : option (features F) :=
  match count with
  | O => Some fs
  | S count => fs ← add_gram mask i fs; gram_loop mask count (S i) fs
  end.

(** The outer recursion is on [ngram]; the inner one, the last call of the function, on
    [skip_gram]. *)
Fixpoint add_grams (ngram skip_gram initial_length : nat) (mask : list nat) (skips : nat) fs : option (features F) :=
  match ngram with
  | O => if (back mask <? initial_length)%nat then gram_loop mask (initial_length - back mask) 0 fs else Some fs
  | S ngram' =>
      (fix by_skips (skip_gram skips : nat) fs : option (features F) :=
         fs ← add_grams ngram' skip_gram initial_length (mask ++ [back mask + 1 + skips]%nat) 0 fs;
         match skip_gram with
         | O => Some fs
         | S skip_gram => by_skips skip_gram (S skips) fs
         end) skip_gram skips fs
  end.

(** [for (size_t n = 1; n < ngram_definition[index]; n++)] *)
Fixpoint grams_loop (count n skip_gram length : nat) fs : option (features F) :=
  match count with
  | O => Some fs
  | S count => fs ← add_grams n skip_gram length [0%nat] 0 fs; grams_loop count (S n) skip_gram length fs
  end.

Definition namespace_grams (ngram_definition skip_definition : Z) fs : option (features F) :=
  grams_loop (Z.to_nat (ngram_definition - 1)) 1 (Z.to_nat skip_definition) (size fs) fs.
End Grams.

(** ** The transformer *)

Record kskip_ngram_transformer := Transformer {
  ngram_definition : byte -> Z;
  skip_definition : byte -> Z;
  initial_ngram_definitions : list (list byte);
  initial_skip_definitions : list (list byte)
}.

#[local] Existing Instance num_f32.

Definition set_feature_space (space : byte -> features f32) (ex : example) : example :=
  Example_ (ex_l ex) (ex_reduction_features ex) (ex_tag ex) (ex_is_newline ex) (ex_indices ex) space (ex_sorted ex).

Fixpoint generate_loop (t : kskip_ngram_transformer) (indices : list byte) (space : byte -> features f32) :
    option (byte -> features f32) :=
  match indices with
  | [] => Some space
  | index :: indices =>
      fs ← namespace_grams (ngram_definition t index) (skip_definition t index) (space index);
      generate_loop t indices (set_space index fs space)
  end.
Definition generate_grams (t : kskip_ngram_transformer) (ex : example) : option example :=
  space ← generate_loop t (ex_indices ex) (ex_feature_space ex);
  Some (set_feature_space space ex).

(** ** The options *)

Definition isdigit (c : byte) : bool := (48 <=? byte_val c) && (byte_val c <=? 57).
Definition isspace (c : byte) : bool := (byte_val c =? 32) || (9 <=? byte_val c) && (byte_val c <=? 13).

Fixpoint skip_spaces (s : list byte) : list byte :=
  match s with
  | c :: s' => if isspace c then skip_spaces s' else s
  | [] => []
  end.
Fixpoint digits (s : list byte) (acc : Z) : Z :=
  match s with
  | c :: s => if isdigit c then digits s (10 * acc + (byte_val c - 48)) else acc
  | [] => acc
  end.

(** [atoi]: undefined when the value does not fit an [int]. *)
Definition atoi (s : list byte) : option Z :=
  let '(sign, s) :=
    match skip_spaces s with
    | Byte.x2d :: s => (-1, s)
    | Byte.x2b :: s => (1, s)
    | s => (1, s)
    end in
  let n := sign * digits s 0 in
  if (- 2 ^ 31 <=? n) && (n <? 2 ^ 31) then Some n else None.

Definition set_dest (c : byte) (n : Z) (dest : byte -> Z) : byte -> Z := fun j => if decide (j = c) then n else dest j.

(** One descriptor: a number for every namespace, or a namespace followed by its number. [None]:
    the read leaves the string ([gram.c_str() + 1] of the empty string) or [atoi] is undefined. *)
Definition compile_one (dest : byte -> Z) (gram : list byte) : option (byte -> Z) :=
  match gram with
  | [] => None
  | c :: rest =>
      if isdigit c then n ← atoi gram; Some (fun _ => u32 n)
      else match rest with
           | [] => Some dest
           | _ => n ← atoi rest; Some (set_dest c (u32 n) dest)
           end
  end.

Fixpoint compile_gram (grams : list (list byte)) (dest : byte -> Z) : option (byte -> Z) :=
  match grams with
  | [] => Some dest
  | gram :: grams => dest ← compile_one dest gram; compile_gram grams dest
  end.

Definition build (grams skips : list (list byte)) : option kskip_ngram_transformer :=
  n ← compile_gram grams (fun _ => 0);
  s ← compile_gram skips (fun _ => 0);
  Some (Transformer n s grams skips).

(** * Theorems *)

(** ** The masks the recursion visits *)

(** The offsets after [b] of the masks of [n] more features with at most [k] skips in all. *)
Fixpoint masks (n k b : nat) : list (list nat) :=
  match n with
  | O => [[]]
  | S n => flat_map (fun j => cons (b + 1 + j)%nat <$> masks n (k - j) (b + 1 + j)) (seq 0 (S k))
  end.

Lemma sorted_back b m : Sorted lt (b :: m) -> (b + length m <= back (b :: m))%nat.
Proof.
  revert b; induction m as [|c m IH]; intros b Hs; [unfold back; cbn; lia|].
  apply Sorted_inv in Hs as [Hs Hhd]. apply IH in Hs. inversion Hhd; subst.
  change (back (b :: c :: m)) with (back (c :: m)). cbn. lia.
Qed.

Lemma elem_of_masks n k b m :
  m ∈ masks n k b <-> length m = n /\ Sorted lt (b :: m) /\ (back (b :: m) <= b + n + k)%nat.
Proof.
  revert k b m; induction n as [|n IH]; intros k b m; cbn [masks].
  - rewrite list_elem_of_singleton. split.
    + intros ->. split; [done|]. split; [by repeat constructor|unfold back; cbn; lia].
    + intros [Hl _]. by apply nil_length_inv.
  - rewrite list_elem_of_In, in_flat_map. setoid_rewrite <- list_elem_of_In.
    setoid_rewrite list_elem_of_fmap. setoid_rewrite IH. setoid_rewrite elem_of_seq. split.
    + intros (j & Hj & m' & -> & Hlen & Hs & Hb). split; [cbn; lia|].
      split; [constructor; [done|constructor; lia]|].
      change (back (b :: _ :: m')) with (back ((b + 1 + j)%nat :: m')). lia.
    + intros (Hlen & Hs & Hb). destruct m as [|c m]; [done|].
      apply Sorted_inv in Hs as [Hs Hhd]. inversion Hhd; subst.
      change (back (b :: c :: m)) with (back (c :: m)) in Hb. cbn in Hlen.
      pose proof (sorted_back _ _ Hs). exists (c - b - 1)%nat. split; [lia|].
      replace (b + 1 + (c - b - 1))%nat with c by lia. exists m. split_and!; try done; lia.
Qed.

Lemma NoDup_flat_map {A B} (f : A -> list B) l :
  NoDup l -> (forall a, a ∈ l -> NoDup (f a)) ->
  (forall a b x, a ∈ l -> b ∈ l -> x ∈ f a -> x ∈ f b -> a = b) -> NoDup (flat_map f l).
Proof.
  induction 1 as [|a l Ha Hl IH]; intros Hf Hd; cbn; [constructor|].
  apply NoDup_app. split_and!.
  - apply Hf. by left.
  - intros x Hx Hin. apply list_elem_of_In, in_flat_map in Hin as (b & Hb & Hxb).
    apply list_elem_of_In in Hb, Hxb. apply Ha. rewrite (Hd a b x); auto; by constructor.
  - apply IH; [intros; apply Hf; by right|]. intros b c x ? ?. apply Hd; by right.
Qed.

Lemma masks_nodup n k b : NoDup (masks n k b).
Proof.
  revert k b; induction n as [|n IH]; intros k b; cbn [masks]; [apply NoDup_singleton|].
  apply NoDup_flat_map; [apply NoDup_seq| |].
  - intros j _. apply NoDup_fmap; [by intros ? ? [=]|apply IH].
  - intros i j x _ _ (m & -> & _)%list_elem_of_fmap (m' & Heq & _)%list_elem_of_fmap.
    injection Heq. lia.
Qed.

Section Recursion.
Context {F : Type} `{Num F} (L : nat).

(** Run the loop of one mask after the other. *)
Fixpoint run_masks (l : list (list nat)) (fs : features F) : option (features F) :=
  match l with
  | [] => Some fs
  | mask :: l => fs ← gram_loop mask (L - back mask) 0 fs; run_masks l fs
  end.

Lemma run_masks_app l l' fs : run_masks (l ++ l') fs = (fs ← run_masks l fs; run_masks l' fs).
Proof.
  revert fs; induction l as [|mask l IH]; intros fs; [done|]. cbn.
  destruct (gram_loop _ _ _ _); cbn; [apply IH|done].
Qed.

Lemma back_snoc l x : back (l ++ [x]) = x.
Proof. unfold back. by rewrite last_snoc. Qed.

(** [add_grams] runs the loop on the masks in order. *)
Lemma add_grams_masks n k mask s fs :
  add_grams n k L mask s fs =
  run_masks (app mask <$> match n with
                          | O => [[]]
                          | S n => flat_map (fun j => cons (back mask + 1 + s + j)%nat <$> masks n (k - j) (back mask + 1 + s + j)) (seq 0 (S k))
                          end) fs.
Proof.
  revert k mask s fs; induction n as [|n IHn]; intros k mask s fs.
  - cbn [add_grams]. rewrite list_fmap_singleton. cbn [run_masks]. rewrite app_nil_r. case_if; bprop.
    + by destruct (gram_loop _ _ _ _).
    + by replace (L - back mask)%nat with 0%nat by lia.
  - assert (forall k m fs, add_grams n k L m 0 fs = run_masks (app m <$> masks n k (back m)) fs) as IH'.
    { intros k' m fs'. rewrite IHn. destruct n; [done|]. cbn [masks]. do 2 f_equal.
      apply flat_map_ext. intros j. by rewrite Nat.add_0_r. }
    revert s fs. induction k as [|k IHk]; intros s fs.
    + cbn [add_grams]. rewrite IH'. cbn [seq flat_map]. rewrite app_nil_r, back_snoc, Nat.add_0_r, Nat.sub_0_r.
      rewrite <- list_fmap_compose.
      rewrite (list_fmap_ext _ (app mask ∘ cons (back mask + 1 + s)%nat))
        by (intros; unfold compose; by rewrite <- app_assoc).
      by destruct (run_masks _ _).
    + cbn [add_grams] in IHk |- *. rewrite IH', back_snoc.
      change (seq 0 (S (S k))) with (0%nat :: seq 1 (S k)). cbn [flat_map].
      rewrite fmap_app, run_masks_app, Nat.add_0_r, Nat.sub_0_r. rewrite <- list_fmap_compose.
      rewrite (list_fmap_ext _ (app mask ∘ cons (back mask + 1 + s)%nat))
        by (intros; unfold compose; by rewrite <- app_assoc).
      destruct (run_masks _ fs) as [fs'|]; cbn [mbind option_bind]; [|done]. rewrite IHk.
      rewrite <- (seq_shift (S k) 0), !flat_map_concat_map, map_map.
      do 3 f_equal. apply map_ext. intros j.
      by replace (back mask + 1 + S s + j)%nat with (back mask + 1 + s + S j)%nat by lia.
Qed.

Corollary add_grams_run n k fs : add_grams n k L [0%nat] 0 fs = run_masks (cons 0%nat <$> masks n k 0) fs.
Proof.
  rewrite add_grams_masks. destruct n; [done|]. cbn [masks]. by rewrite Nat.add_0_r.
Qed.
End Recursion.

(** ** What is appended *)

Fixpoint join_with {A} (f : A -> A -> A) (a : A) (l : list A) : A :=
  match l with [] => a | x :: l => join_with f (f a x) l end.

Definition gram_hash (l : list Z) : Z :=
  match l with [] => 0 | x :: l => join_with (fun h y => u64 (h * QUADRATIC_CONSTANT + y)) x l end.
Definition gram_text (l : list (list byte)) : list byte :=
  match l with [] => [] | x :: l => join_with (fun n y => n ++ str "^" ++ y) x l end.

#[export] Instance audit_strings_inhabited : Inhabited audit_strings := populate (AuditStrings [] [] []).

(** The group [fs] is [fs0] with the grams at the positions [ts] appended, each of value 1. *)
Record appended {F} `{Num F} (fs0 : features F) (ts : list (list nat)) (fs : features F) : Prop := {
  app_values : values fs = values fs0 ++ replicate (length ts) (n_of_Z 1);
  app_indices : indices fs = indices fs0 ++ ((fun t => gram_hash ((fun p => indices fs0 !!! p) <$> t)) <$> ts);
  app_names : space_names fs =
    match space_names fs0 with
    | [] => []
    | names => names ++ ((fun t => AuditStrings (as_ns (names !!! default 0%nat (head t)))
                                     (gram_text ((fun p => as_name (names !!! p)) <$> t)) []) <$> ts)
    end;
  app_extents : namespace_extents fs = namespace_extents fs0;
  app_sum : sum_feat_sq fs = Nat.iter (length ts) (fun s => s + n_of_Z 1 * n_of_Z 1)%num (sum_feat_sq fs0)
}.

(** The group has an index, and with auditing a name, for each of its first [L] features. *)
Definition covers {F} (L : nat) (fs : features F) : Prop :=
  (L <= length (indices fs))%nat /\ (space_names fs = [] \/ (L <= length (space_names fs))%nat).

Lemma fold_lookup {A B} `{Inhabited A} (g : A -> B) (f : B -> B -> B) (l : list A) i m (b : B) :
  Forall (fun p => (i + p < length l)%nat) m ->
  fold_left (fun acc p => c ← acc; x ← l !! (i + p)%nat; Some (f c (g x))) m (Some b) =
  Some (join_with f b ((fun p => g (l !!! p)) <$> (Nat.add i <$> m))).
Proof.
  intros Hm. revert b; induction Hm as [|p m Hp Hm IH]; intros b; [done|].
  cbn [fold_left mbind option_bind]. rewrite list_lookup_lookup_total_lt by done. apply IH.
Qed.

Section Appending.
Context {F : Type} `{Num F} (L : nat) (fs0 : features F).
Hypothesis Hcover : covers L fs0.

Lemma gram_index_ok more m i : Forall (fun p => (i + p < L)%nat) (0%nat :: m) ->
  gram_index (0%nat :: m) (indices fs0 ++ more) i =
  Some (gram_hash ((fun p => indices fs0 !!! p) <$> (Nat.add i <$> 0%nat :: m))).
Proof.
  intros Hm. destruct Hcover as [Hidx _]. unfold gram_index. cbn [tail].
  inversion_clear Hm as [|? ? Hi Hm']. rewrite Nat.add_0_r in Hi.
  rewrite list_lookup_lookup_total_lt by (rewrite length_app; lia).
  rewrite (fold_lookup (fun z => z) (fun h y => u64 (h * QUADRATIC_CONSTANT + y)))
    by (eapply Forall_impl; [exact Hm'|]; cbn; intros p ?; rewrite length_app; lia).
  cbn. rewrite Nat.add_0_r, lookup_total_app_l by lia. do 2 f_equal.
  apply list_fmap_ext. intros ? p Hp. apply lookup_total_app_l.
  apply list_elem_of_lookup_2, list_elem_of_fmap in Hp as (q & -> & Hq).
  rewrite Forall_forall in Hm'. specialize (Hm' _ Hq). lia.
Qed.

Lemma gram_name_ok names more m i : (L <= length names)%nat -> Forall (fun p => (i + p < L)%nat) (0%nat :: m) ->
  gram_name (0%nat :: m) (names ++ more) i =
  Some (gram_text ((fun p => as_name (names !!! p)) <$> (Nat.add i <$> 0%nat :: m))).
Proof.
  intros HL Hm. unfold gram_name. cbn [tail].
  inversion_clear Hm as [|? ? Hi Hm']. rewrite Nat.add_0_r in Hi.
  rewrite list_lookup_lookup_total_lt by (rewrite length_app; lia). cbn [fmap option_fmap option_map].
  rewrite (fold_lookup as_name (fun n y => n ++ str "^" ++ y))
    by (eapply Forall_impl; [exact Hm'|]; cbn; intros p ?; rewrite length_app; lia).
  cbn -[str]. rewrite Nat.add_0_r, lookup_total_app_l by lia. do 2 f_equal.
  apply list_fmap_ext. intros ? p Hp. f_equal. apply lookup_total_app_l.
  apply list_elem_of_lookup_2, list_elem_of_fmap in Hp as (q & -> & Hq).
  rewrite Forall_forall in Hm'. specialize (Hm' _ Hq). lia.
Qed.

Lemma add_gram_ok ts fs m i : Forall (fun p => (i + p < L)%nat) (0%nat :: m) -> appended fs0 ts fs ->
  exists fs', add_gram (0%nat :: m) i fs = Some fs' /\ appended fs0 (ts ++ [Nat.add i <$> 0%nat :: m]) fs'.
Proof.
  intros Hm [Hv Hi Hn He Hs]. destruct Hcover as [_ Hnames]. unfold add_gram.
  rewrite Hi, gram_index_ok by done. cbn [mbind option_bind]. unfold push_back at 1; cbn [space_names].
  assert (i < L)%nat as HiL by (inversion Hm; lia).
  assert (Nat.iter (length (ts ++ [Nat.add i <$> 0%nat :: m])) (fun s => s + n_of_Z 1 * n_of_Z 1)%num (sum_feat_sq fs0)
          = (sum_feat_sq fs + n_of_Z 1 * n_of_Z 1)%num) as Hsum by (by rewrite length_app, Nat.add_comm, Hs).
  rewrite Hn. destruct (space_names fs0) as [|a names] eqn:Ea.
  - eexists. split; [done|]. split; cbn [values indices space_names namespace_extents sum_feat_sq push_back]; try done.
    + by rewrite Hv, length_app, replicate_add, app_assoc.
    + by rewrite Hi, fmap_app, app_assoc.
    + by rewrite Hn, Ea.
  - destruct Hnames as [?|HL]; [done|]. cbn [app]. rewrite app_comm_cons.
    rewrite list_lookup_lookup_total_lt by (rewrite length_app; lia). cbn [mbind option_bind].
    rewrite gram_name_ok by done. cbn [mbind option_bind].
    eexists. split; [done|]. split; cbn [values indices space_names namespace_extents sum_feat_sq push_back set_space_names]; try done.
    + by rewrite Hv, length_app, replicate_add, app_assoc.
    + by rewrite Hi, fmap_app, app_assoc.
    + rewrite Ea, fmap_app, app_assoc. do 2 f_equal. cbn [head fmap list_fmap default].
      by rewrite Nat.add_0_r, lookup_total_app_l by lia.
Qed.

Definition starts (mask : list nat) (i count : nat) : list (list nat) := (fun j => Nat.add j <$> mask) <$> seq i count.

Lemma gram_loop_ok m count ts fs i : Forall (fun p => (i + count + p <= L)%nat) (0%nat :: m) -> appended fs0 ts fs ->
  exists fs', gram_loop (0%nat :: m) count i fs = Some fs' /\ appended fs0 (ts ++ starts (0%nat :: m) i count) fs'.
Proof.
  revert ts fs i; induction count as [|count IH]; intros ts fs i Hm Hfs.
  - exists fs. split; [done|]. unfold starts. cbn. by rewrite app_nil_r.
  - cbn [gram_loop]. destruct (add_gram_ok ts fs m i) as (fs1 & Heq & Hfs1); [|done|].
    { eapply Forall_impl; [exact Hm|]. cbn. lia. }
    rewrite Heq. cbn [mbind option_bind]. destruct (IH _ _ (S i) ltac:(eapply Forall_impl; [exact Hm|]; cbn; lia) Hfs1) as (fs' & Heq' & Hfs').
    exists fs'. split; [done|]. by rewrite <- app_assoc in Hfs'.
Qed.

(** The positions of the grams of one number [n] of further features. *)
Definition positions (n k : nat) : list (list nat) :=
  flat_map (fun m => starts (0%nat :: m) 0 (L - back (0%nat :: m))) (masks n k 0).

Lemma sorted_le_back b m : Sorted lt (b :: m) -> Forall (fun p => (p <= back (b :: m))%nat) (b :: m).
Proof.
  revert b; induction m as [|c m IH]; intros b Hs; [repeat constructor|].
  apply Sorted_inv in Hs as [Hs Hhd]. apply IH in Hs. inversion Hhd; subst.
  change (back (b :: c :: m)) with (back (c :: m)). constructor; [|done].
  inversion Hs; subst. lia.
Qed.

Lemma run_masks_ok ms ts fs : Forall (fun m => Sorted lt (0%nat :: m)) ms -> appended fs0 ts fs ->
  exists fs', run_masks L (cons 0%nat <$> ms) fs = Some fs' /\
    appended fs0 (ts ++ flat_map (fun m => starts (0%nat :: m) 0 (L - back (0%nat :: m))) ms) fs'.
Proof.
  intros Hms. revert ts fs; induction Hms as [|m ms Hm Hms IH]; intros ts fs Hfs.
  - exists fs. split; [done|]. cbn. by rewrite app_nil_r.
  - rewrite fmap_cons. cbn [run_masks flat_map].
    assert (exists fs1, gram_loop (0%nat :: m) (L - back (0%nat :: m)) 0 fs = Some fs1 /\
      appended fs0 (ts ++ starts (0%nat :: m) 0 (L - back (0%nat :: m))) fs1) as (fs1 & Heq & Hfs1).
    { destruct (decide (back (0%nat :: m) <= L)%nat).
      - apply gram_loop_ok; [|done]. eapply Forall_impl; [by apply sorted_le_back|]. cbn. lia.
      - replace (L - back (0%nat :: m))%nat with 0%nat by lia. exists fs. split; [done|].
        unfold starts. cbn. by rewrite app_nil_r. }
    rewrite Heq. cbn [mbind option_bind]. destruct (IH _ _ Hfs1) as (fs' & Heq' & Hfs').
    exists fs'. split; [done|]. by rewrite <- app_assoc in Hfs'.
Qed.

Lemma add_grams_ok n k ts fs : appended fs0 ts fs ->
  exists fs', add_grams n k L [0%nat] 0 fs = Some fs' /\ appended fs0 (ts ++ positions n k) fs'.
Proof.
  intros Hfs. rewrite add_grams_run. apply run_masks_ok; [|done].
  apply Forall_forall. intros m Hm%elem_of_masks. tauto.
Qed.

Lemma grams_loop_ok count n k ts fs : appended fs0 ts fs ->
  exists fs', grams_loop count n k L fs = Some fs' /\
    appended fs0 (ts ++ flat_map (fun n => positions n k) (seq n count)) fs'.
Proof.
  revert n ts fs; induction count as [|count IH]; intros n ts fs Hfs.
  - exists fs. split; [done|]. cbn. by rewrite app_nil_r.
  - cbn [grams_loop seq flat_map]. destruct (add_grams_ok n k ts fs Hfs) as (fs1 & Heq & Hfs1).
    rewrite Heq. cbn [mbind option_bind]. destruct (IH (S n) _ _ Hfs1) as (fs' & Heq' & Hfs').
    exists fs'. split; [done|]. by rewrite <- app_assoc in Hfs'.
Qed.
End Appending.

(** ** The grams: increasing positions, few skips *)

(** The features between the first and the last of a gram that are not in it. *)
Definition skipped (t : list nat) : nat := (back t - default 0 (head t) - (length t - 1))%nat.

Lemma sorted_shift i l : Sorted lt (Nat.add i <$> l) <-> Sorted lt l.
Proof.
  induction l as [|a l IH]; [done|]. cbn [fmap list_fmap]. split; intros Hs.
  - apply Sorted_inv in Hs as [Hs Hhd]. constructor; [by apply IH|].
    destruct l; [done|]. inversion Hhd; subst. constructor. lia.
  - apply Sorted_inv in Hs as [Hs Hhd]. constructor; [by apply IH|].
    destruct l; [done|]. inversion Hhd; subst. constructor. cbn. lia.
Qed.

Lemma back_shift i a l : back (Nat.add i <$> a :: l) = (i + back (a :: l))%nat.
Proof.
  revert a; induction l as [|b l IH]; intros a; [done|]. exact (IH b).
Qed.

Lemma elem_of_starts t mask i count : t ∈ starts mask i count <-> exists j, (i <= j < i + count)%nat /\ t = Nat.add j <$> mask.
Proof.
  unfold starts. rewrite list_elem_of_fmap. setoid_rewrite elem_of_seq. naive_solver.
Qed.

Lemma elem_of_positions L n k t : t ∈ positions L n k <->
  length t = S n /\ Sorted lt t /\ Forall (fun p => (p < L)%nat) t /\ (skipped t <= k)%nat.
Proof.
  unfold positions. rewrite list_elem_of_In, in_flat_map. setoid_rewrite <- list_elem_of_In.
  setoid_rewrite elem_of_starts. setoid_rewrite elem_of_masks. split.
  - intros (m & (Hlen & Hs & Hb) & i & Hi & ->). pose proof (sorted_le_back _ _ Hs) as Hle.
    pose proof (sorted_back _ _ Hs). unfold skipped. rewrite sorted_shift, back_shift, length_fmap, Forall_fmap.
    cbn [length fmap list_fmap head default]. split_and!; [lia|done| |cbn; lia].
    eapply Forall_impl; [exact Hle|]. cbn [compose]. intros p ?. unfold compose. lia.
  - intros (Hlen & Hs & HL & Hk). destruct t as [|h r]; [done|].
    assert (h :: r = Nat.add h <$> 0%nat :: ((fun p => p - h)%nat <$> r)) as Heq.
    { cbn [fmap list_fmap]. rewrite Nat.add_0_r. f_equal. symmetry.
      transitivity (list_fmap _ _ id r); [|apply list_fmap_id].
      change (Nat.add h <$> ((fun p => p - h)%nat <$> r) = id <$> r). rewrite <- list_fmap_compose.
      apply list_fmap_ext. intros ? p Hp%list_elem_of_lookup_2.
      apply Sorted_StronglySorted in Hs; [|intros ???; lia]. apply StronglySorted_inv in Hs as [_ Hf].
      rewrite Forall_forall in Hf. specialize (Hf _ Hp). cbn. lia. }
    exists ((fun p => p - h)%nat <$> r). set (m := (fun p => p - h)%nat <$> r) in *.
    assert (length r = length m) as Hr by (unfold m; by rewrite length_fmap).
    rewrite Heq in Hs, HL, Hk. apply sorted_shift in Hs. pose proof (sorted_back _ _ Hs).
    pose proof HL as HL'. rewrite Forall_fmap in HL'.
    assert (h + back (0%nat :: m) < L)%nat as Hback.
    { rewrite Forall_forall in HL'. apply (HL' (back (0%nat :: m))). unfold back.
      destruct (last (0%nat :: m)) as [x|] eqn:Ex; [|by apply last_None in Ex].
      apply last_Some in Ex as [l' ->]. apply elem_of_app. right. by apply list_elem_of_here. }
    unfold skipped in Hk. rewrite back_shift, length_fmap in Hk. cbn [fmap list_fmap head default length] in Hk.
    cbn in Hlen, Hk. split; [split_and!; [lia|done|lia]|]. exists h. split; [lia|done].
Qed.

Lemma positions_nodup L n k : NoDup (positions L n k).
Proof.
  unfold positions. apply NoDup_flat_map; [apply masks_nodup| |].
  - intros m _. unfold starts. apply NoDup_fmap; [|apply NoDup_seq].
    intros i j [= Heq _]. lia.
  - intros m m' t _ _ (i & _ & ->)%elem_of_starts (j & _ & Heq)%elem_of_starts.
    injection Heq as Hij Heq. assert (i = j) as <- by lia.
    assert (Inj (=) (=) (Nat.add i)) by (intros ???; lia). by apply (inj (fmap (Nat.add i))) in Heq.
Qed.

(** All the grams of a namespace, shortest first. *)
Definition grams_of (L : nat) (ngram skip : Z) : list (list nat) :=
  flat_map (fun n => positions L n (Z.to_nat skip)) (seq 1 (Z.to_nat (ngram - 1))).

Lemma elem_of_grams L ngram skip t : t ∈ grams_of L ngram skip <->
  (2 <= length t)%nat /\ Z.of_nat (length t) <= ngram /\ Sorted lt t /\ Forall (fun p => (p < L)%nat) t /\
  (skipped t <= Z.to_nat skip)%nat.
Proof.
  unfold grams_of. rewrite list_elem_of_In, in_flat_map. setoid_rewrite <- list_elem_of_In.
  setoid_rewrite elem_of_positions. setoid_rewrite elem_of_seq. split.
  - intros (n & Hn & Hlen & ?). split_and!; try tauto; lia.
  - intros (? & ? & ?). exists (length t - 1)%nat. split; [lia|]. split; [lia|done].
Qed.

Lemma grams_nodup L ngram skip : NoDup (grams_of L ngram skip).
Proof.
  apply NoDup_flat_map; [apply NoDup_seq|intros; apply positions_nodup|].
  intros n n' t _ _ (? & _)%elem_of_positions (? & _)%elem_of_positions. lia.
Qed.

Lemma appended_none {F} `{Num F} (fs : features F) : appended fs [] fs.
Proof. split; cbn; rewrite ?app_nil_r; try done.
  destruct (space_names fs); [done|]. by rewrite app_nil_r. Qed.

Lemma namespace_grams_ok {F} `{Num F} ngram skip (fs : features F) : covers (size fs) fs ->
  exists fs', namespace_grams ngram skip fs = Some fs' /\ appended fs (grams_of (size fs) ngram skip) fs'.
Proof. intros Hc. apply (grams_loop_ok _ _ Hc _ _ _ []), appended_none. Qed.

Lemma generate_loop_ok t indices space :
  NoDup indices -> (forall i, i ∈ indices -> covers (size (space i)) (space i)) ->
  exists space', generate_loop t indices space = Some space' /\
    (forall i, i ∈ indices -> appended (space i) (grams_of (size (space i)) (ngram_definition t i) (skip_definition t i)) (space' i)) /\
    (forall i, ~ i ∈ indices -> space' i = space i).
Proof.
  intros Hnd. revert space; induction Hnd as [|i indices Hi Hnd IH]; intros space Hc.
  - exists space. split; [done|]. split; [intros i Hi; by apply elem_of_nil in Hi|done].
  - cbn [generate_loop].
    destruct (namespace_grams_ok (ngram_definition t i) (skip_definition t i) (space i)) as (fs & -> & Hfs);
      [by apply Hc, list_elem_of_here|]. cbn [mbind option_bind].
    assert (forall j, j ≠ i -> set_space i fs space j = space j) as Hother.
    { intros j Hj. unfold set_space. by rewrite decide_False. }
    destruct (IH (set_space i fs space)) as (space' & -> & Hin & Hout).
    { intros j Hj. rewrite Hother by (by intros ->). apply Hc. by right. }
    exists space'. split; [done|]. split.
    + intros j [->|Hj]%elem_of_cons.
      * rewrite Hout by done. unfold set_space. by rewrite decide_True.
      * specialize (Hin _ Hj). by rewrite Hother in Hin by (by intros ->).
    + intros j [Hj1 Hj2]%not_elem_of_cons. rewrite Hout by done. by apply Hother.
Qed.

(** C30: The grams the code makes, in every namespace of the example: one feature of value 1 is
    appended for each strictly increasing choice of two to [ngram_definition] of the namespace's
    original features that skips at most [skip_definition] features in all, over every gap between
    its first and its last, once each; its index is the hash chain of the chosen indices and, when
    auditing, its name the chosen names joined by [^]. The original features, the other namespaces and
    the rest of the example are untouched, and no read leaves the vectors. The skips are counted the
    way [add_grams] counts them: the comment of [kskip_ngram_transformer::generate_grams] also lists
    [ace] and [bdf] among the 1-skip-3-grams of [a] to [f], with one skip in each gap, and by this
    theorem they are not made ([header_comment_trigrams]). *)
Theorem generate_grams_exact t ex :
  NoDup (ex_indices ex) -> (forall i, i ∈ ex_indices ex -> covers (size (ex_feature_space ex i)) (ex_feature_space ex i)) ->
  exists space grams, generate_grams t ex = Some (set_feature_space space ex) /\
    (forall i, ~ i ∈ ex_indices ex -> space i = ex_feature_space ex i) /\
    forall i, i ∈ ex_indices ex ->
      appended (ex_feature_space ex i) (grams i) (space i) /\ NoDup (grams i) /\
      forall g, g ∈ grams i <->
        (2 <= length g)%nat /\ Z.of_nat (length g) <= ngram_definition t i /\ Sorted lt g /\
        Forall (fun p => (p < size (ex_feature_space ex i))%nat) g /\ (skipped g <= Z.to_nat (skip_definition t i))%nat.
Proof.
  intros Hnd Hc. destruct (generate_loop_ok t _ _ Hnd Hc) as (space & Heq & Hin & Hout).
  exists space, (fun i => grams_of (size (ex_feature_space ex i)) (ngram_definition t i) (skip_definition t i)).
  split; [unfold generate_grams; by rewrite Heq|]. split; [done|]. intros i Hi.
  split; [by apply Hin|]. split; [apply grams_nodup|]. intros g. apply elem_of_grams.
Qed.

(** Four words [a b c d] in namespace [w], 3-grams with one skip. *)
Definition word (s : list byte) : audit_strings := AuditStrings (str "w") s [].
Definition words : features f32 :=
  Features f32 (replicate 4 (n_of_Z 1)) [11; 12; 13; 14] [word (str "a"); word (str "b"); word (str "c"); word (str "d")]
    [] (n_of_Z 4).
Definition words_example : example :=
  Example_ (ex_l ex_fresh) (ex_reduction_features ex_fresh) [] false [Byte.x77] (set_space Byte.x77 words (fun _ => fs_empty)) true.
Definition trigrams : kskip_ngram_transformer :=
  Transformer (fun c => if decide (c = Byte.x77) then 3 else 0) (fun _ => 1) [str "w3"] [str "1"].

Definition names_of (ex : example) (i : byte) : list (list byte) := as_name <$> space_names (ex_feature_space ex i).

(** The two- and three-grams of four words with one skip in all. *)
Example trigrams_names : option_map (fun ex => names_of ex Byte.x77) (generate_grams trigrams words_example) =
  Some (str <$> ["a"; "b"; "c"; "d"; "a^b"; "b^c"; "c^d"; "a^c"; "b^d"; "a^b^c"; "b^c^d"; "a^b^d"; "a^c^d"]%string).
Proof. vm_compute. done. Qed.

(** Of the twelve 1-skip-3-grams of six features the header comment lists, the code makes ten: with one
    skip in all it makes every listed gram but [ace] and [bdf], positions 0, 2, 4 and 1, 3, 5. *)
Definition comment_trigrams : list (list nat) :=
  [[0; 1; 2]; [0; 1; 3]; [0; 2; 3]; [0; 2; 4]; [1; 2; 3]; [1; 2; 4]; [1; 3; 4]; [1; 3; 5]; [2; 3; 4]; [2; 3; 5]; [2; 4; 5]; [3; 4; 5]]%nat.
Example header_comment_trigrams :
  filter (fun g => g ∉ filter (fun g => length g = 3%nat) (grams_of 6 3 1)) comment_trigrams = [[0; 2; 4]; [1; 3; 5]]%nat.
Proof. vm_compute. done. Qed.

Example build_options : option_map (fun t => (ngram_definition t Byte.x77, ngram_definition t Byte.x61, skip_definition t Byte.x61))
  (build [str "2"; str "w3"] [str "1"]) = Some (3, 2, 1).
Proof. done. Qed.

(** An empty descriptor makes the parser read behind the end of the string. *)
Example build_empty : build [[]] [] = None.
Proof. done. Qed.

Lemma generate_grams_exact_witness :
  exists space grams, generate_grams trigrams words_example = Some (set_feature_space space words_example) /\
    (forall i, ~ i ∈ ex_indices words_example -> space i = ex_feature_space words_example i) /\
    forall i, i ∈ ex_indices words_example ->
      appended (ex_feature_space words_example i) (grams i) (space i) /\ NoDup (grams i) /\
      forall g, g ∈ grams i <->
        (2 <= length g)%nat /\ Z.of_nat (length g) <= ngram_definition trigrams i /\ Sorted lt g /\
        Forall (fun p => (p < size (ex_feature_space words_example i))%nat) g /\
        (skipped g <= Z.to_nat (skip_definition trigrams i))%nat.
Proof.
  apply (generate_grams_exact trigrams words_example).
  - apply NoDup_singleton.
  - intros i ->%list_elem_of_singleton. split; [vm_compute; lia|right; vm_compute; lia].
Defined.
