(* ===== verification/Explore.v ===== *)
(** * Exploration: distributions over actions, and drawing from them

    [explore/explore_internal.h] and the generator of [common/random_details.h]. A range of iterators
    is the list of its elements, so the one malformed range left is the empty one; an operation returns
    its error code and the range as it leaves it. The code is written over a number format [F]: with
    [f32] the definitions compute the [float]s of the code; the theorems on probabilities are stated
    over the rationals, where the sums are exact. [std::exp] is a parameter. *)

From Stdlib Require Import Floats.SpecFloat Qround Qminmax.
From S2P Require Import Prelude.
From S2P Require Import FloatBytes.
From S2P Require Import Hash.

(** ** The generator *)

(** The [float] a bit pattern stands for, in the number format. *)
Class FromBits (F : Type) := float_value : Z -> F.

#[export] Instance from_bits_f32 : FromBits f32 := b32_of_bits.

Definition q_of_f32 (x : f32) : Q :=
  match x with
  | S754_finite s m e =>
      if 0 <=? e then inject_Z (cond_Zopp s (Zpos m) * 2 ^ e)
      else Qmake (cond_Zopp s (Zpos m)) (Z.to_pos (2 ^ (- e)))
  | _ => 0%Q
  end.

#[export] Instance from_bits_Q : FromBits Q := fun z => q_of_f32 (b32_of_bits z).

Definition CONSTANT_A : Z := 0xeece66d5deece66d.
Definition CONSTANT_C : Z := 2147483647.
Definition BIAS : Z := Z.shiftl 127 23.

(** The state after a draw, and the pattern the draw is read from. *)
Definition advance (initial : Z) : Z := u64 (CONSTANT_A * initial + CONSTANT_C).
Definition draw_bits (state : Z) : Z := Z.lor (Z.land (Z.shiftr state 25) 0x7FFFFF) BIAS.

Section Random.
Context {F : Type} `{Num F} `{FromBits F}.

Definition merand48 (initial : Z) : Z * F :=
  let initial := advance initial in
  (initial, float_value (draw_bits initial) - n_of_Z 1)%num.

Definition merand48_noadvance (v : Z) : F := snd (merand48 v).
End Random.

(** ** Error codes *)

Definition S_EXPLORATION_OK : Z := 0.
Definition E_EXPLORATION_BAD_RANGE : Z := 1.
Definition E_EXPLORATION_BAD_PDF : Z := 3.
Definition E_EXPLORATION_BAD_EPSILON : Z := 4.

(** ** Distributions *)

Section Distributions.
Context {F : Type} `{Num F}.

Definition generate_epsilon_greedy (epsilon : F) (top_action : Z) (pmf : list F) : Z * list F :=
  let num_actions := Z.of_nat (length pmf) in
  if num_actions =? 0 then (E_EXPLORATION_BAD_RANGE, pmf)
  else
    let top_action := if num_actions <=? top_action then u32 num_actions - 1 else top_action in
    let prob := (epsilon / n_of_Z num_actions)%num in
    let pmf := (fun _ => prob) <$> pmf in
    (S_EXPLORATION_OK, alter (fun p => p + (n_of_Z 1 - epsilon))%num (Z.to_nat top_action) pmf).

(** [std::max_element] and [std::min_element]: the first of the extremal elements. *)
Definition max_element (l : list F) (x : F) : F := fold_left (fun m y => if (m <? y)%num then y else m) l x.
Definition min_element (l : list F) (x : F) : F := fold_left (fun m y => if (y <? m)%num then y else m) l x.

Section Softmax.
Variable exp : F -> F.

Fixpoint softmax_loop (lambda max_score : F) (scores : list F) (norm : F) : list F * F :=
  match scores with
  | [] => ([], norm)
  | s :: scores =>
      let prob := exp (lambda * (s - max_score))%num in
      let '(ds, norm) := softmax_loop lambda max_score scores (norm + prob)%num in
      (prob :: ds, norm)
  end.

Definition generate_softmax (lambda : F) (scores pmf : list F) : Z * list F :=
  let n := Nat.min (length scores) (length pmf) in
  let rest := if (length scores =? length pmf)%nat then [] else replicate (length pmf - n) (n_of_Z 0) in
  match take n scores with
  | [] => (E_EXPLORATION_BAD_RANGE, rest)
  | s :: ss =>
      let max_score := if (lambda >? n_of_Z 0)%num then max_element ss s else min_element ss s in
      let '(ds, norm) := softmax_loop lambda max_score (s :: ss) (n_of_Z 0) in
      (S_EXPLORATION_OK, ((fun d => d / norm)%num <$> ds) ++ rest)
  end.
End Softmax.

(** The votes are summed in [double]. *)
Definition generate_bag {D} `{Num D} `{Widen F D} (top_actions pmf : list F) : Z * list F :=
  match pmf with
  | [] => (E_EXPLORATION_BAD_RANGE, pmf)
  | _ :: pmf' =>
      let num_models : F := narrow (fold_left (fun (acc : D) t => acc + widen t)%num top_actions (n_of_Z 0)) in
      if (widen num_models <=? nlit (1 # 1000000))%num
      then (S_EXPLORATION_OK, n_of_Z 1 :: ((fun _ => n_of_Z 0) <$> pmf'))
      else
        let normalizer := (n_of_Z 1 / num_models)%num in
        let n := Nat.min (length top_actions) (length pmf) in
        (S_EXPLORATION_OK, ((fun t => t * normalizer)%num <$> take n top_actions) ++ drop n pmf)
  end.

Definition mix_with_uniform (uniform_epsilon : F) (pmf : list F) : Z * list F :=
  match pmf with
  | [] => (E_EXPLORATION_BAD_RANGE, pmf)
  | _ =>
      let num_actions := Z.of_nat (length pmf) in
      let scale := (n_of_Z 1 - uniform_epsilon)%num in
      (S_EXPLORATION_OK, (fun prob => prob * scale + uniform_epsilon / n_of_Z num_actions)%num <$> pmf)
  end.

(** The search for [rho] in [enforce_minimum_probability]. *)
Fixpoint rho_loop (zeros : bool) (support_size : Z) (minimum_probability : F) (sorted_probs : list F)
    (idx : Z) (running_sum : F) (rho_idx : Z) (rho_sum : F) : Z * F :=
  match sorted_probs with
  | [] => (rho_idx, rho_sum)
  | prob :: sorted_probs =>
      if negb zeros && (prob =? n_of_Z 0)%num then (rho_idx, rho_sum)
      else
        let running_sum := (running_sum + prob)%num in
        let bound := ((n_of_Z (u64 (support_size - idx - 1)) * minimum_probability + running_sum - n_of_Z 1)
                      / (n_of_Z idx + n_of_Z 1) + minimum_probability)%num in
        let '(rho_idx, rho_sum) := if (prob >? bound)%num then (idx, running_sum) else (rho_idx, rho_sum) in
        rho_loop zeros support_size minimum_probability sorted_probs (idx + 1) running_sum rho_idx rho_sum
  end.

Definition support (zeros : bool) (pmf : list F) : Z :=
  let num_actions := Z.of_nat (length pmf) in
  if zeros then num_actions
  else u64 (num_actions - Z.of_nat (length (filter (fun p => (p =? n_of_Z 0)%num = true) pmf))).

(** The elements a redistribution touches. *)
Definition update_support (zeros : bool) (f : F -> F) (pmf : list F) : list F :=
  (fun prob => if zeros || (prob >? n_of_Z 0)%num then f prob else prob) <$> pmf.

Definition enforce_minimum_probability `{StdSort} (uniform_epsilon : F) (zeros : bool) (pmf : list F) : Z * list F :=
  match pmf with
  | [] => (E_EXPLORATION_BAD_RANGE, pmf)
  | _ =>
      if (uniform_epsilon =? n_of_Z 0)%num then (S_EXPLORATION_OK, pmf)
      else if ((uniform_epsilon <? n_of_Z 0) || (uniform_epsilon >? n_of_Z 1))%num then (E_EXPLORATION_BAD_EPSILON, pmf)
      else
        let support_size := support zeros pmf in
        if (uniform_epsilon >? nlit (999 # 1000))%num
        then (S_EXPLORATION_OK, update_support zeros (fun _ => n_of_Z 1 / n_of_Z support_size)%num pmf)
        else
          let minimum_probability := (uniform_epsilon / n_of_Z support_size)%num in
          let sorted_probs := std_sort (fun a b => (a >? b)%num) pmf in
          let rho_sum := default (n_of_Z 0) (head sorted_probs) in
          let '(rho_idx, rho_sum) := rho_loop zeros support_size minimum_probability sorted_probs 0 (n_of_Z 0) 0 rho_sum in
          let tau := ((n_of_Z (u64 (support_size - rho_idx)) - n_of_Z 1) * minimum_probability + rho_sum - n_of_Z 1)%num in
          let tau := (tau / (n_of_Z rho_idx + n_of_Z 1))%num in
          (S_EXPLORATION_OK, update_support zeros (fun prob => nmax (prob - tau) minimum_probability)%num pmf)
  end.
End Distributions.

(** ** Sampling *)

Section Sampling.
Context {F : Type} `{Num F} `{FromBits F}.

(** The first loop: negative weights become zero, the weights are added up. *)
Fixpoint clamp_total (pmf : list F) (total : F) : list F * F :=
  match pmf with
  | [] => ([], total)
  | p :: pmf =>
      let p := if (p <? n_of_Z 0)%num then n_of_Z 0 else p in
      let '(pmf, total) := clamp_total pmf (total + p)%num in
      (p :: pmf, total)
  end.

Definition set_first (x : F) (l : list F) : list F := match l with [] => [] | _ :: l => x :: l end.

(** The draw, kept from exceeding the total. *)
Definition bounded_draw (total u : F) : F :=
  let draw := (total * u)%num in if (draw >? total)%num then total else draw.

(** The second loop of [sample_after_normalizing]: [chosen] is set once. *)
Fixpoint normalize_loop (draw total : F) (pmf : list F) (index_found : bool) (sum : F) (i chosen : Z) : list F * bool * Z * Z :=
  match pmf with
  | [] => ([], index_found, i, chosen)
  | p :: pmf =>
      let sum := (sum + p)%num in
      let hit := negb index_found && (sum >? draw)%num in
      let chosen := if hit then i else chosen in
      let '(pmf, index_found, i, chosen) := normalize_loop draw total pmf (index_found || hit) sum (u32 (i + 1)) chosen in
      ((p / total)%num :: pmf, index_found, i, chosen)
  end.

Definition sample_after_normalizing (seed : Z) (pmf : list F) (chosen_index : Z) : Z * Z * list F :=
  match pmf with
  | [] => (E_EXPLORATION_BAD_RANGE, chosen_index, pmf)
  | _ =>
      let '(pmf, total) := clamp_total pmf (n_of_Z 0) in
      if (total =? n_of_Z 0)%num then (S_EXPLORATION_OK, 0, set_first (n_of_Z 1) pmf)
      else
        let draw := bounded_draw total (merand48_noadvance seed) in
        let '(pmf, index_found, i, chosen) := normalize_loop draw total pmf false (n_of_Z 0) 0 chosen_index in
        (S_EXPLORATION_OK, if index_found : bool then chosen else u32 (i - 1), pmf)
  end.

(** The overload on a string: the seed is the hash of its characters. *)
Definition sample_after_normalizing_str (seed : list byte) (pmf : list F) (chosen_index : Z) : Z * Z * list F :=
  sample_after_normalizing (uniform_hash seed 0) pmf chosen_index.

(** The second loop of [sample_scores]: it returns at the first hit. *)
Fixpoint scores_loop (draw : F) (scores : list F) (sum : F) (i : Z) : Z :=
  match scores with
  | [] => u32 (i - 1)
  | s :: scores => let sum := (sum + s)%num in if (sum >? draw)%num then i else scores_loop draw scores sum (u32 (i + 1))
  end.

Definition sample_scores (p_seed : Z) (scores : list F) (chosen_index : Z) : Z * Z * Z * list F :=
  match scores with
  | [] => (E_EXPLORATION_BAD_RANGE, p_seed, chosen_index, scores)
  | _ =>
      let '(scores, total) := clamp_total scores (n_of_Z 0) in
      if (total =? n_of_Z 0)%num then (S_EXPLORATION_OK, p_seed, 0, set_first (n_of_Z 1) scores)
      else
        let '(p_seed, u) := merand48 p_seed in
        (S_EXPLORATION_OK, p_seed, scores_loop (bounded_draw total u) scores (n_of_Z 0) 0, scores)
  end.

(** ** A density of segments *)

Record segment := { seg_left : F; seg_right : F; seg_pdf : F }.

Fixpoint pdf_mass (pdf : list segment) (total : F) : F :=
  match pdf with
  | [] => total
  | s :: pdf => pdf_mass pdf (total + (seg_right s - seg_left s) * seg_pdf s)%num
  end.

(** [do draw = ...; while (draw >= total)]: [fuel] bounds the number of draws. *)
Fixpoint draw_below (fuel : nat) (p_seed : Z) (total_pdf_mass : F) : option (Z * F) :=
  match fuel with
  | O => None
  | S fuel =>
      let '(p_seed, u) := merand48 p_seed in
      let draw := (nlit (10001 # 10000) * total_pdf_mass * u)%num in
      if (draw >=? total_pdf_mass)%num then draw_below fuel p_seed total_pdf_mass else Some (p_seed, draw)
  end.

Fixpoint pdf_loop (draw : F) (pdf : list segment) (acc_mass chosen_value pdf_value : F) : F * F :=
  match pdf with
  | [] => (chosen_value, pdf_value)
  | s :: pdf =>
      let seg_mass := (seg_pdf s * (seg_right s - seg_left s))%num in
      if (draw <=? seg_mass + acc_mass)%num
      then ((seg_left s + (draw - acc_mass) / seg_pdf s)%num, seg_pdf s)
      else pdf_loop draw pdf (acc_mass + seg_mass)%num chosen_value pdf_value
  end.

(** The code, the seed, [chosen_value] and [pdf_value]; [None] when the draws allowed by [fuel] are all too large. *)
Definition sample_pdf (fuel : nat) (p_seed : Z) (pdf : list segment) (chosen_value pdf_value : F) : option (Z * Z * F * F) :=
  match pdf with
  | [] => Some (E_EXPLORATION_BAD_PDF, p_seed, chosen_value, pdf_value)
  | first :: _ =>
      let total_pdf_mass := pdf_mass pdf (n_of_Z 0) in
      if (total_pdf_mass =? n_of_Z 0)%num then Some (E_EXPLORATION_BAD_PDF, p_seed, chosen_value, pdf_value)
      else
        '(p_seed, draw) ← draw_below fuel p_seed total_pdf_mass;
        let '(chosen_value, pdf_value) := pdf_loop draw pdf (n_of_Z 0) (seg_left first) (seg_pdf first) in
        Some (S_EXPLORATION_OK, p_seed, chosen_value, pdf_value)
  end.
End Sampling.
Arguments segment F : clear implicits.

Definition swap_chosen {A} (actions : list A) (chosen_index : Z) : Z * list A :=
  let action_size := Z.of_nat (length actions) in
  if action_size =? 0 then (E_EXPLORATION_BAD_RANGE, actions)
  else if action_size <=? chosen_index then (E_EXPLORATION_BAD_RANGE, actions)
  else
    let c := Z.to_nat chosen_index in
    match actions !! 0%nat, actions !! c with
    | Some a, Some b => (S_EXPLORATION_OK, if chosen_index =? 0 then actions else <[c := a]> (<[0%nat := b]> actions))
    | _, _ => (E_EXPLORATION_BAD_RANGE, actions)
    end.

(** ** The values of the generator *)

Lemma land_ones_range x : 0 <= Z.land x 0x7FFFFF < 2 ^ 23.
Proof. change 0x7FFFFF with (Z.ones 23). rewrite Z.land_ones by lia. apply Z.mod_pos_bound. lia. Qed.

Lemma draw_bits_sum state : draw_bits state = (state / 2 ^ 25) mod 2 ^ 23 + 127 * 2 ^ 23.
Proof.
  unfold draw_bits. pose proof (land_ones_range (Z.shiftr state 25)) as Hr.
  assert (Z.land (Z.land (Z.shiftr state 25) 0x7FFFFF) BIAS = 0) as Hz.
  { rewrite <- Z.land_assoc. change (Z.land 0x7FFFFF BIAS) with 0. apply Z.land_0_r. }
  pose proof (Z.add_lor_land (Z.land (Z.shiftr state 25) 0x7FFFFF) BIAS) as Ha.
  rewrite Hz, Z.add_0_r in Ha. rewrite Ha. change 0x7FFFFF with (Z.ones 23).
  rewrite Z.land_ones, Z.shiftr_div_pow2 by lia. done.
Qed.

(** The mantissa of a draw. *)
Definition mantissa (state : Z) : Z := (state / 2 ^ 25) mod 2 ^ 23.

Lemma mantissa_range state : 0 <= mantissa state < 2 ^ 23.
Proof. apply Z.mod_pos_bound. lia. Qed.

Lemma merand48_value (v : Z) :
  fst (merand48 (F := Q) v) = advance v /\
  (snd (merand48 (F := Q) v) == inject_Z (mantissa (advance v)) / inject_Z (2 ^ 23))%Q.
Proof.
  split; [done|]. unfold merand48. cbn [snd]. rewrite draw_bits_sum. fold (mantissa (advance v)).
  pose proof (mantissa_range (advance v)). generalize dependent (mantissa (advance v)). intros m Hm.
  unfold float_value, from_bits_Q, b32_of_bits, float_of_bits.
  destruct (split_bits 23 8 ltac:(done) ltac:(done) 0 127 m (m + 127 * 2 ^ 23)) as (-> & -> & ->);
    [by left|done|done|change (hidden 23) with (2 ^ 23); lia|]. change (hidden 23) with (2 ^ 23).
  cbn -[Z.add Z.pow]. destruct (m + 2 ^ 23) as [|p|p] eqn:E; [lia| |lia].
  change (q_of_f32 _) with (Zpos p # 8388608)%Q. change (inject_Z (2 ^ 23)) with (8388608 # 1)%Q.
  rewrite <- E. unfold Qeq, Qdiv, Qmult, Qinv, Qminus, Qplus, Qopp, inject_Z. cbn -[Z.mul Z.add]. lia.
Qed.

Lemma merand48_range (v : Z) : (0 <= merand48_noadvance (F := Q) v < 1)%Q.
Proof.
  unfold merand48_noadvance. destruct (merand48_value v) as [_ Hv]. rewrite Hv.
  pose proof (mantissa_range (advance v)) as Hm. split.
  - apply Qle_shift_div_l; [done|]. rewrite Qmult_0_l. change 0%Q with (inject_Z 0). rewrite <- Zle_Qle. lia.
  - apply Qlt_shift_div_r; [done|]. rewrite Qmult_1_l, <- Zlt_Qlt. lia.
Qed.

(** ** Distributions: lemmas *)

Lemma qsum_alter_plus (c : Q) l i : (i < length l)%nat -> (qsum (alter (fun p => p + c)%Q i l) == qsum l + c)%Q.
Proof.
  revert i. induction l as [|x l IH]; intros [|i] Hi; simpl in Hi; [lia..| |]; cbn; [lra|].
  change (list_alter _ i l) with (alter (fun p => p + c)%Q i l). rewrite IH by lia. lra.
Qed.

Lemma qsum_div (l : list Q) (t : Q) : (qsum ((fun d => d / t)%Q <$> l) == qsum l / t)%Q.
Proof. induction l as [|x l IH]; cbn; [unfold Qdiv; lra|]. rewrite IH. unfold Qdiv. lra. Qed.

Lemma qsum_zeros n : (qsum (replicate n 0%Q) == 0)%Q.
Proof. induction n as [|n IH]; cbn; [lra|]. rewrite IH. lra. Qed.

Lemma qsum_pos (l : list Q) : l <> [] -> Forall (fun x => 0 < x)%Q l -> (0 < qsum l)%Q.
Proof.
  intros Hl HF. destruct HF as [|x l Hx HF]; [done|]. simpl.
  pose proof (qsum_nonneg l) as Hn. assert (0 <= qsum l)%Q; [|lra].
  apply Hn. eapply Forall_impl; [exact HF|]. simpl. intros; lra.
Qed.

Lemma softmax_loop_map exp (lambda m : Q) ss norm :
  softmax_loop exp lambda m ss norm =
  ((fun s => exp (lambda * (s - m))%Q) <$> ss, fold_left Qplus ((fun s => exp (lambda * (s - m))%Q) <$> ss) norm).
Proof. revert norm. induction ss as [|s ss IH]; intros norm; cbn; [done|]. qnum. by rewrite IH. Qed.

Lemma in_range_pos (n : nat) : (0 < n)%nat -> (0 < inject_Z (Z.of_nat n))%Q.
Proof. intros Hn. change 0%Q with (inject_Z 0). rewrite <- Zlt_Qlt. lia. Qed.

Lemma Qdiv_le_mono (a b t : Q) : (0 < t)%Q -> (a <= b)%Q -> (a / t <= b / t)%Q.
Proof. intros Ht Hab. apply Qmult_le_compat_r; [done|]. apply Qlt_le_weak, Qinv_lt_0_compat, Ht. Qed.

Lemma Qdiv_pos (a t : Q) : (0 < t)%Q -> (0 < a)%Q -> (0 < a / t)%Q.
Proof. intros Ht Ha. apply Qlt_shift_div_l; [done|]. lra. Qed.

Lemma Qdiv_self (t : Q) : (0 < t)%Q -> (t / t == 1)%Q.
Proof. intros Ht. field. lra. Qed.

(** ** Properties: the distributions *)

(** Over exact numbers [generate_epsilon_greedy] fills the range with a distribution: the
    probabilities sum to one, every action has [epsilon / n], and the top action (the last one when
    the index given is past the end) has the remaining [1 - epsilon] on top of it. *)
Theorem epsilon_greedy_pmf (epsilon : Q) (top_action : Z) (pmf : list Q) :
  0 < Z.of_nat (length pmf) < 2 ^ 32 -> 0 <= top_action ->
  exists pmf', generate_epsilon_greedy epsilon top_action pmf = (S_EXPLORATION_OK, pmf') /\
  length pmf' = length pmf /\ (qsum pmf' == 1)%Q /\
  (forall i p, pmf' !! i = Some p ->
    p == epsilon / inject_Z (Z.of_nat (length pmf))
         + (if decide (Z.of_nat i = Z.min top_action (Z.of_nat (length pmf) - 1)) then 1 - epsilon else 0))%Q.
Proof.
  intros Hn Ht. unfold generate_epsilon_greedy. rewrite (proj2 (Z.eqb_neq _ _)) by lia.
  set (top := if _ <=? _ then _ else _).
  assert (top = Z.min top_action (Z.of_nat (length pmf) - 1)) as Htop.
  { subst top. case_if; bprop; [unfold u32; rewrite Z.mod_small by lia|]; lia. }
  rewrite <- Htop. assert (0 <= top < Z.of_nat (length pmf)) as Hr by lia. clearbody top.
  eexists; split; [done|]. rewrite length_alter, length_fmap. split_and!; [done| |].
  - qnum. rewrite qsum_alter_plus by (rewrite length_fmap; lia). rewrite qsum_const.
    field. apply Qnot_eq_sym, Qlt_not_eq, in_range_pos. lia.
  - intros i p Hp. qnum. destruct (decide (Z.of_nat i = top)) as [E|E].
    + replace (Z.to_nat top) with i in Hp by lia. rewrite list_lookup_alter_eq, list_lookup_fmap in Hp.
      destruct (pmf !! i); [|done]. injection Hp as <-. change (inject_Z 1) with 1%Q. ring.
    + rewrite list_lookup_alter_ne, list_lookup_fmap in Hp by lia. destruct (pmf !! i); [|done].
      injection Hp as <-. change (inject_Z 1) with 1%Q. ring.
Qed.

Lemma epsilon_greedy_pmf_witness : exists pmf',
  generate_epsilon_greedy (1 # 5)%Q 2 [0; 0; 0; 0]%Q = (S_EXPLORATION_OK, pmf') /\ (qsum pmf' == 1)%Q.
Proof.
  destruct (epsilon_greedy_pmf (1 # 5) 2 [0; 0; 0; 0]%Q) as (pmf' & H1 & _ & H2 & _); [simpl; lia|lia|].
  exists pmf'. split; [exact H1|exact H2].
Defined.

(** [generate_softmax], for any positive and monotone [exp], gives a distribution over the first
    [min] of the two lengths, zero beyond, in which an action is at least as likely as another when
    its score times [lambda] is as large. *)
Theorem softmax_pmf (exp : Q -> Q) (lambda : Q) (scores pmf : list Q) :
  (forall x, 0 < exp x)%Q -> (forall x y, x <= y -> exp x <= exp y)%Q ->
  scores <> [] -> pmf <> [] ->
  exists pmf', generate_softmax exp lambda scores pmf = (S_EXPLORATION_OK, pmf') /\
  length pmf' = length pmf /\ (qsum pmf' == 1)%Q /\
  (forall i p, pmf' !! i = Some p -> if decide (i < length scores)%nat then 0 < p else p == 0)%Q /\
  (forall i j s t p q, scores !! i = Some s -> scores !! j = Some t -> pmf' !! i = Some p -> pmf' !! j = Some q ->
    lambda * s <= lambda * t -> (i < length pmf)%nat -> (j < length pmf)%nat -> p <= q)%Q.
Proof.
  intros Hpos Hmono Hs Hp. unfold generate_softmax.
  set (n := Nat.min _ _). set (rest := if (length scores =? length pmf)%nat then [] else replicate (length pmf - n) (n_of_Z 0)).
  assert (length rest = (length pmf - n)%nat /\ rest = replicate (length rest) 0%Q) as [Hlr Hrest].
  { subst rest n. destruct (Nat.eqb_spec (length scores) (length pmf)); [split; [simpl; lia|done]|].
    by rewrite length_replicate. }
  clearbody rest. assert (take n scores <> []) as Hne.
  { destruct scores, pmf; done. }
  destruct (take n scores) as [|s ss] eqn:Et; [done|]. clear Hne.
  set (m := if (lambda >? n_of_Z 0)%num then max_element ss s else min_element ss s). clearbody m.
  rewrite softmax_loop_map. set (g := fun s => exp (lambda * (s - m))%Q). rewrite <- Et.
  assert (length (take n scores) = n) as Hln by (rewrite length_take; lia).
  set (norm := fold_left _ _ _).
  assert (norm == qsum (g <$> take n scores))%Q as Hnorm.
  { subst norm. qnum. rewrite qsum_fold_left. change (inject_Z 0) with 0%Q. lra. }
  assert (0 < norm)%Q as Hn0.
  { rewrite Hnorm. apply qsum_pos; [by rewrite Et|]. apply Forall_fmap, Forall_true. intros; apply Hpos. }
  clearbody norm.
  assert (forall i p, (((fun d => d / norm)%Q <$> (g <$> take n scores)) ++ rest) !! i = Some p ->
    ((i < n)%nat /\ exists s, scores !! i = Some s /\ p = (g s / norm)%Q) \/ ((n <= i)%nat /\ p = 0%Q)) as Hlk.
  { intros i p. rewrite lookup_app_Some, !length_fmap, !list_lookup_fmap, Hln.
    intros [Hi|[Hi Hi']].
    - left. destruct (take n scores !! i) as [s'|] eqn:E; [|done]. apply lookup_take_Some in E as [E ?].
      injection Hi as <-. eauto.
    - right. split; [done|]. rewrite Hrest in Hi'. by apply lookup_replicate in Hi' as [-> _]. }
  eexists; split; [done|]. split_and!.
  - rewrite length_app, !length_fmap, Hln, Hlr. lia.
  - qnum. rewrite qsum_app, qsum_div, <- Hnorm, Hrest, qsum_zeros, Qdiv_self by done. lra.
  - intros i p Hi. pose proof (lookup_lt_Some _ _ _ Hi) as Hlt. rewrite length_app, !length_fmap, Hln, Hlr in Hlt.
    destruct (Hlk i p Hi) as [(Hin & s' & Hs' & ->)|[Hin ->]].
    + rewrite decide_True by lia. apply Qdiv_pos; [done|apply Hpos].
    + rewrite decide_False by lia. done.
  - intros i j s' t p q Hi Hj Hpi Hpj Hle Hlti Hltj.
    apply lookup_lt_Some in Hi as Hi'. apply lookup_lt_Some in Hj as Hj'.
    destruct (Hlk i p Hpi) as [(? & si & Hsi & ->)|[? _]]; [|lia].
    destruct (Hlk j q Hpj) as [(? & sj & Hsj & ->)|[? _]]; [|lia]. simplify_eq.
    apply Qdiv_le_mono; [done|]. apply Hmono. lra.
Qed.

(** A positive, increasing function to run the definitions with. *)
Definition exp_sample (x : Q) : Q := if Qle_bool 0 x then (1 + x)%Q else (/ (1 - x))%Q.

Lemma exp_sample_pos x : (0 < exp_sample x)%Q.
Proof.
  unfold exp_sample. case_if; bprop; [lra|]. apply Qinv_lt_0_compat. lra.
Qed.

Lemma exp_sample_mono x y : (x <= y)%Q -> (exp_sample x <= exp_sample y)%Q.
Proof.
  intros Hxy. unfold exp_sample. destruct (Qle_bool 0 x) eqn:Ex, (Qle_bool 0 y) eqn:Ey; bprop; [lra|lra| |].
  - assert (/ (1 - x) <= 1)%Q; [|lra]. apply Qle_shift_inv_r; lra.
  - apply Qle_shift_inv_l; [lra|]. rewrite Qmult_comm. apply Qle_shift_div_r; lra.
Qed.

Lemma softmax_pmf_witness : exists pmf',
  generate_softmax exp_sample 1%Q [1; 3; 2]%Q [0; 0; 0; 5]%Q = (S_EXPLORATION_OK, pmf') /\ (qsum pmf' == 1)%Q.
Proof.
  destruct (softmax_pmf exp_sample 1 [1; 3; 2]%Q [0; 0; 0; 5]%Q exp_sample_pos exp_sample_mono)
    as (pmf' & H1 & _ & H2 & _); [done|done|].
  exists pmf'. split; [exact H1|exact H2].
Defined.

(** *** The minimum probability

    [hi] are the elements that stay above the minimum, [lo] those raised to it. The invariant of the
    loop is that the elements seen so far split this way, for the threshold the elements of [hi] give. *)

Section MinimumProbability.
Context (zeros : bool) (n : nat) (m : Q).
Hypothesis n_small : Z.of_nat n < 2 ^ 64.

Definition qn (k : nat) : Q := inject_Z (Z.of_nat k).

(** What is left over when [k] elements summing to [s] are kept and the others get [m]. *)
Definition excess (k : nat) (s : Q) : Q := ((qn n - qn k) * m + s - 1)%Q.

Lemma qn_S k : (qn (S k) == qn k + 1)%Q.
Proof. unfold qn. rewrite Nat2Z.inj_succ, <- Z.add_1_r, inject_Z_plus. done. Qed.

Lemma qn_plus k l : (qn (k + l) == qn k + qn l)%Q.
Proof. unfold qn. rewrite Nat2Z.inj_add, inject_Z_plus. done. Qed.

Lemma qn_nonneg k : (0 <= qn k)%Q.
Proof. unfold qn. change 0%Q with (inject_Z 0). rewrite <- Zle_Qle. lia. Qed.

(** The test of the loop on element [k], cleared of its division. *)
Lemma rho_test k p s : (k < n)%nat ->
  (p >? (n_of_Z (u64 (Z.of_nat n - Z.of_nat k - 1)) * m + s - n_of_Z 1) / (n_of_Z (Z.of_nat k) + n_of_Z 1) + m)%num = true <->
  (excess (S k) s < qn (S k) * (p - m))%Q.
Proof.
  intros Hk. qnum. unfold u64. rewrite Z.mod_small by lia.
  rewrite negb_true_iff, <- not_true_iff_false, Qle_bool_iff.
  assert (inject_Z (Z.of_nat n - Z.of_nat k - 1) == qn n - qn (S k))%Q as ->.
  { rewrite qn_S. unfold qn. rewrite <- !Z.sub_add_distr. unfold Z.sub. rewrite inject_Z_plus, inject_Z_opp, inject_Z_plus.
    change (inject_Z 1) with 1%Q. lra. }
  change (inject_Z 1) with 1%Q. fold (qn k). fold (excess (S k) s). rewrite <- (qn_S k).
  assert (0 < qn (S k))%Q as Hp by (apply in_range_pos; lia).
  generalize dependent (qn (S k)). intros d Hd. generalize (excess (S k) s). intros e.
  split; intros Hc.
  - destruct (Qlt_le_dec e (d * (p - m))) as [|Hle]; [done|]. exfalso. apply Hc.
    assert (p - m <= e / d)%Q; [|lra]. apply Qle_shift_div_l; [done|]. lra.
  - intros Hle. assert (p - m <= e / d)%Q as Hle' by lra.
    apply (Qmult_le_compat_r _ _ d) in Hle'; [|lra]. rewrite (Qmult_comm (e / d)), Qmult_div_r in Hle' by lra. lra.
Qed.

Definition split_ok (pre : list Q) (rho_idx : Z) (rho_sum : Q) : Prop :=
  exists x hi lo, pre = (x :: hi) ++ lo /\ rho_idx = Z.of_nat (length hi) /\ (rho_sum == qsum (x :: hi))%Q /\
  Forall (fun y => excess (S (length hi)) rho_sum < qn (S (length hi)) * (y - m))%Q (x :: hi) /\
  Forall (fun y => qn (S (length hi)) * (y - m) <= excess (S (length hi)) rho_sum)%Q lo.

Lemma lo_sum d e (lo : list Q) p : (0 <= d)%Q -> Forall (fun y => d * (y - m) <= e)%Q lo -> Forall (fun y => p <= y)%Q lo ->
  (qn (length lo) * (p - m) <= qsum lo - qn (length lo) * m)%Q.
Proof.
  intros Hd _ Hf. induction Hf as [|y lo Hy Hf IH]; cbn [qsum length]; [change (qn 0) with 0%Q; lra|].
  rewrite qn_S. lra.
Qed.

Lemma scale_le c p y : (0 <= c)%Q -> (p <= y)%Q -> (c * (p - m) <= c * (y - m))%Q.
Proof. intros Hc Hy. rewrite !(Qmult_comm c). apply Qmult_le_compat_r; lra. Qed.

(** One step of the loop keeps the split, the elements coming in decreasing order. *)
Lemma split_step (pre : list Q) rho_idx rho_sum running p :
  split_ok pre rho_idx rho_sum -> (running == qsum pre)%Q -> Forall (fun y => p <= y)%Q pre ->
  (excess (S (length pre)) (running + p) < qn (S (length pre)) * (p - m))%Q /\
    split_ok (pre ++ [p]) (Z.of_nat (length pre)) (running + p)%Q \/
  ~ (excess (S (length pre)) (running + p) < qn (S (length pre)) * (p - m))%Q /\
    split_ok (pre ++ [p]) rho_idx rho_sum.
Proof.
  intros (x & hi & lo & -> & -> & Hs & Hhi & Hlo) Hr Hp. set (h := S (length hi)) in *.
  assert (length ((x :: hi) ++ lo) = (h + length lo)%nat) as -> by (rewrite length_app; done).
  apply Forall_app in Hp as [Hp1 Hp2]. rewrite qsum_app, <- Hs in Hr. pose proof (qn_nonneg h) as Hh.
  assert (qn h * (p - m) <= excess h rho_sum -> split_ok (((x :: hi) ++ lo) ++ [p]) (Z.of_nat (length hi)) rho_sum)%Q as Hkeep.
  { intros Hle. exists x, hi, (lo ++ [p]). rewrite <- app_assoc. split_and!; try done.
    apply Forall_app. split; [done|by constructor]. }
  destruct lo as [|z lo].
  - rewrite Nat.add_0_r, app_nil_r in *. cbn [qsum] in Hr.
    destruct (Qlt_le_dec (excess (S h) (running + p)) (qn (S h) * (p - m))) as [Hd|Hd]; [left|right]; (split; [try lra; done|]).
    + exists x, (hi ++ [p]), []. rewrite app_nil_r, length_app, Nat.add_1_r. fold h.
      change (x :: hi ++ [p]) with ((x :: hi) ++ [p]). split_and!; [done|done| |apply Forall_app; split|]; [| |by constructor|done].
      * rewrite qsum_app. cbn [qsum] in *. lra.
      * eapply Forall_impl; [exact Hp1|]. cbn. intros y Hy. pose proof (scale_le (qn (S h)) p y (qn_nonneg _) Hy). lra.
    + apply Hkeep. unfold excess in *. rewrite qn_S in Hd. lra.
  - right. assert (qn h * (p - m) <= excess h rho_sum)%Q as Hz.
    { inversion Hlo; inversion Hp2; subst. eapply Qle_trans; [|eassumption]. apply scale_le; done. }
    split; [|by apply Hkeep]. pose proof (lo_sum _ _ _ p Hh Hlo Hp2) as Hl.
    unfold excess in *. rewrite qn_S, qn_plus. lra.
Qed.

Lemma split_first p running : (qn n * m < 1)%Q -> (running == 0)%Q ->
  (excess 1 (running + p) < qn 1 * (p - m))%Q /\ split_ok [p] 0 (running + p)%Q.
Proof.
  intros Hm Hr. assert (excess 1 (running + p) < qn 1 * (p - m))%Q as He.
  { unfold excess. change (qn 1) with 1%Q. lra. }
  split; [done|]. exists p, [], []. split_and!; [done|done|cbn; lra|by constructor|done].
Qed.

(** The loop over the elements that count: all of them, or, when zeros are left alone, the positive ones. *)
Lemma rho_loop_split (suf : list Q) : forall pre rho_idx rho_sum running,
  (pre = [] \/ split_ok pre rho_idx rho_sum) -> (running == qsum pre)%Q ->
  (qn n * m < 1)%Q -> StronglySorted (fun a b => b <= a)%Q (pre ++ suf) -> pre ++ suf <> [] ->
  (length (pre ++ suf) <= n)%nat -> (zeros = true \/ Forall (fun y => 0 < y)%Q suf) ->
  forall rest, (rest = [] \/ zeros = false /\ exists y l, rest = y :: l /\ (y == 0)%Q) ->
  exists r s, rho_loop zeros (Z.of_nat n) m (suf ++ rest) (Z.of_nat (length pre)) running rho_idx rho_sum = (r, s) /\
  split_ok (pre ++ suf) r s.
Proof.
  induction suf as [|p suf IH]; intros pre ri rs running Hinv Hr Hm Hsort Hne Hlen Hz rest Hrest.
  - rewrite app_nil_r in *. destruct Hinv as [->|Hinv]; [done|]. exists ri, rs. split; [|done].
    destruct Hrest as [->|(-> & y & l & -> & Hy)]; [done|]. cbn [app rho_loop]. qnum.
    change (inject_Z 0) with 0%Q. by rewrite (proj2 (Qeq_bool_iff _ _) Hy).
  - cbn [app rho_loop]. assert (negb zeros && (p =? n_of_Z 0)%num = false) as ->.
    { destruct Hz as [->|Hz]; [done|]. inversion Hz; subst. qnum. destruct (Qeq_bool p (inject_Z 0)) eqn:E; [|by rewrite andb_false_r].
      bprop. change (inject_Z 0) with 0%Q in E. lra. }
    replace (pre ++ p :: suf) with ((pre ++ [p]) ++ suf) in * by (by rewrite <- app_assoc).
    assert (length ((pre ++ [p]) ++ suf) = S (length pre) + length suf)%nat as Hl by (rewrite !length_app; simpl; lia).
    assert (Forall (fun y => p <= y)%Q pre) as Hp.
    { apply StronglySorted_app_1_l in Hsort. apply Forall_forall. intros y Hy.
      apply (StronglySorted_app_1_elem_of (fun a b => b <= a)%Q pre [p] y p Hsort Hy), list_elem_of_here. }
    pose proof (rho_test (length pre) p (running + p)%num) as Ht.
    replace (Z.of_nat (length pre) + 1) with (Z.of_nat (length (pre ++ [p]))) by (rewrite length_app; simpl; lia).
    assert (running + p == qsum (pre ++ [p]))%Q as Hr' by (rewrite qsum_app, Hr; cbn; lra).
    assert (zeros = true \/ Forall (fun y => 0 < y)%Q suf) as Hz' by (destruct Hz as [|Hz]; [by left|right; by inversion Hz]).
    assert ((excess (S (length pre)) (running + p) < qn (S (length pre)) * (p - m))%Q /\
              split_ok (pre ++ [p]) (Z.of_nat (length pre)) (running + p)%Q \/
            ~ (excess (S (length pre)) (running + p) < qn (S (length pre)) * (p - m))%Q /\
              split_ok (pre ++ [p]) ri rs) as [[Hd Hs]|[Hd Hs]].
    { destruct Hinv as [->|Hinv]; [left; by apply split_first|by apply split_step]. }
    + rewrite (proj2 (Ht ltac:(lia)) Hd). apply IH; eauto; by destruct pre.
    + case_if; [destruct Hd; apply Ht; [lia|done]|]. apply IH; eauto; by destruct pre.
Qed.

Lemma nmax_Q_l (a b : Q) : (b <= a)%Q -> (nmax a b == a)%Q.
Proof. intros Hle. unfold nmax. qnum. by rewrite (proj2 (Qle_bool_iff _ _) Hle). Qed.

Lemma nmax_Q_r (a b : Q) : (a <= b)%Q -> (nmax a b == b)%Q.
Proof.
  intros Hle. unfold nmax. qnum. destruct (Qle_bool b a) eqn:E; cbn; [|done]. bprop. by apply Qle_antisym.
Qed.

Lemma nmax_Q_ge_r (a b : Q) : (b <= nmax a b)%Q.
Proof. unfold nmax. qnum. case_if; bprop; [apply Qle_refl|done]. Qed.

Lemma nmax_Q_mono (a a' b : Q) : (a <= a')%Q -> (nmax a b <= nmax a' b)%Q.
Proof.
  intros Ha. destruct (Qlt_le_dec a b) as [Hb|Hb].
  - rewrite (nmax_Q_r a b) by lra. apply nmax_Q_ge_r.
  - rewrite (nmax_Q_l a b), (nmax_Q_l a' b) by lra. done.
Qed.

(** What the redistribution does to the elements of a split sums to one. *)
Lemma split_redistributes (l : list Q) r s tau : split_ok l r s -> n = length l ->
  (tau == ((inject_Z (u64 (Z.of_nat n - r)) - inject_Z 1) * m + s - inject_Z 1) / (inject_Z r + inject_Z 1))%Q ->
  (qsum ((fun p => nmax (p - tau)%Q m) <$> l) == 1)%Q.
Proof.
  intros (x & hi & lo & -> & -> & Hs & Hhi & Hlo) Hn Htau. set (h := S (length hi)) in *.
  rewrite length_app in Hn. change (length (x :: hi)) with h in Hn.
  assert (0 < qn h)%Q as Hh by (apply in_range_pos; lia).
  assert (qn h * tau == excess h s)%Q as Ht.
  { rewrite Htau. unfold u64. rewrite Z.mod_small by lia. unfold Z.sub. rewrite inject_Z_plus, inject_Z_opp.
    fold (qn n) (qn (length hi)). change (inject_Z 1) with 1%Q. rewrite <- (qn_S (length hi)). fold h.
    rewrite Qmult_div_r by lra. unfold excess, h. rewrite qn_S. lra. }
  assert (qsum ((fun p => nmax (p - tau)%Q m) <$> (x :: hi)) == qsum (x :: hi) + qn h * - tau)%Q as H1.
  { rewrite (qsum_map_ext _ (fun p => p + - tau)%Q).
    - rewrite (qsum_map_plus (fun p => p) (fun _ => - tau)%Q), list_fmap_id, qsum_const. done.
    - intros y Hy. eapply Forall_forall in Hhi; [|exact Hy]. cbn in Hhi. rewrite nmax_Q_l; [lra|].
      apply Qlt_le_weak. rewrite <- Ht in Hhi. apply Qmult_lt_l in Hhi; [lra|done]. }
  assert (qsum ((fun p => nmax (p - tau)%Q m) <$> lo) == qn (length lo) * m)%Q as H2.
  { rewrite (qsum_map_ext _ (fun _ => m)); [by rewrite qsum_const|].
    intros y Hy. eapply Forall_forall in Hlo; [|exact Hy]. cbn in Hlo. apply nmax_Q_r.
    rewrite <- Ht in Hlo. apply Qmult_le_l in Hlo; [lra|done]. }
  rewrite fmap_app, qsum_app, H1, H2, <- Hs. unfold excess in Ht. rewrite Hn, qn_plus in Ht. lra.
Qed.
End MinimumProbability.

Lemma strict_weak_greater_Q : strict_weak (fun a b : Q => (a >? b)%num).
Proof.
  split; qnum.
  - intros a. apply negb_false_iff, Qle_bool_iff, Qle_refl.
  - intros a b c Hab Hbc. bprop. apply negb_true_iff, not_true_iff_false. rewrite Qle_bool_iff. lra.
  - intros a b c Hab Hbc. bprop. apply negb_false_iff, Qle_bool_iff. lra.
Qed.

Lemma std_sort_greater `{StdSort} (l : list Q) :
  StronglySorted (fun a b => b <= a)%Q (std_sort (fun a b : Q => (a >? b)%num) l).
Proof.
  eapply strongly_sorted_impl; [|apply std_sort_sorted, strict_weak_greater_Q].
  cbn. intros a b Hab. bprop. done.
Qed.

Lemma split_zeros (l : list Q) : StronglySorted (fun a b => b <= a)%Q l -> Forall (fun p => 0 <= p)%Q l ->
  exists t z, l = t ++ z /\ Forall (fun p => 0 < p)%Q t /\ Forall (fun p => p == 0)%Q z.
Proof.
  induction 1 as [|a l _ IH Ha]; intros Hl; [by exists [], []|].
  inversion Hl as [|? ? H0 Hl']; subst. destruct (Qlt_le_dec 0 a) as [Hpos|Hneg].
  - destruct (IH Hl') as (t & z & -> & Ht & Hz). exists (a :: t), z. split_and!; [done|by constructor|done].
  - exists [], (a :: l). split_and!; [done|constructor|]. constructor; [lra|].
    apply Forall_forall. intros y Hy. eapply Forall_forall in Ha; [|exact Hy]. eapply Forall_forall in Hl'; [|exact Hy].
    cbn in *. lra.
Qed.

(** The elements that count, in decreasing order, followed by the zeros left alone. *)
Definition parts (zeros : bool) (pmf t z : list Q) : Prop :=
  support zeros pmf = Z.of_nat (length t) /\
  (zeros = true \/ Forall (fun p => 0 < p)%Q t) /\
  (z = [] \/ zeros = false /\ Forall (fun p => p == 0)%Q z).

Lemma parts_exist `{StdSort} zeros (pmf : list Q) : Z.of_nat (length pmf) < 2 ^ 64 ->
  (zeros = true \/ Forall (fun p => 0 <= p)%Q pmf) ->
  exists t z, std_sort (fun a b : Q => (a >? b)%num) pmf = t ++ z /\ parts zeros pmf t z.
Proof.
  intros Hlen Hpmf. pose proof (std_sort_perm (fun a b : Q => (a >? b)%num) pmf) as Hp.
  pose proof (std_sort_greater pmf) as Hs. unfold parts, support. destruct zeros.
  - eexists _, []. rewrite app_nil_r. split; [done|]. rewrite Hp. split_and!; auto.
  - destruct Hpmf as [|Hpmf]; [done|]. rewrite <- Hp in Hpmf. destruct (split_zeros _ Hs Hpmf) as (t & z & E & Ht & Hz).
    exists t, z. split_and!; [done| |by right|by right]. rewrite <- Hp, E, filter_app.
    rewrite (filter_none _ t), (filter_every _ z).
    + rewrite E in Hp. rewrite <- Hp in Hlen. rewrite length_app in *. cbn [app]. unfold u64. rewrite Z.mod_small; lia.
    + eapply Forall_impl; [exact Hz|]. cbn. intros p Hp0. by apply Qeq_bool_iff.
    + eapply Forall_impl; [exact Ht|]. cbn. intros p Hp0 Hc. bprop. change (inject_Z 0) with 0%Q in *. lra.
Qed.

(** The redistribution of a function that is monotone and at least [m] on the elements that count. *)
Lemma update_support_props zeros (pmf t z : list Q) (f : Q -> Q) (m : Q) :
  t ++ z ≡ₚ pmf -> parts zeros pmf t z -> (0 <= m)%Q ->
  (forall p, m <= f p)%Q -> (forall p q, p <= q -> f p <= f q)%Q -> (qsum (f <$> t) == 1)%Q ->
  (qsum (update_support zeros f pmf) == 1)%Q /\
  (forall i p p', pmf !! i = Some p -> update_support zeros f pmf !! i = Some p' ->
    (zeros = true \/ 0 < p -> m <= p') /\ (zeros = false -> p <= 0 -> p' = p))%Q /\
  (forall i j p q p' q', pmf !! i = Some p -> pmf !! j = Some q -> update_support zeros f pmf !! i = Some p' ->
    update_support zeros f pmf !! j = Some q' -> p <= q -> p' <= q')%Q.
Proof.
  intros Hperm (_ & Ht & Hz) Hm0 Hm Hmono Hsum. unfold update_support.
  set (g := fun p : Q => if zeros || (p >? n_of_Z 0)%num then f p else p).
  assert (forall p, (zeros = true \/ 0 < p)%Q /\ g p = f p \/ (zeros = false /\ p <= 0)%Q /\ g p = p) as Hg.
  { intros p. subst g. cbn beta. qnum. destruct zeros; [left; auto|]. cbn [orb]. change (inject_Z 0) with 0%Q.
    case_if; bprop; [left|right]; auto. }
  split_and!.
  - rewrite <- Hperm, fmap_app, qsum_app. rewrite (qsum_map_ext g f t), Hsum.
    + destruct Hz as [->|[Hf Hz]]; [cbn; lra|]. rewrite (qsum_map_ext g (fun _ => 0%Q) z), qsum_const; [lra|].
      intros p Hp. eapply Forall_forall in Hz; [|exact Hp]. cbn in Hz. destruct (Hg p) as [[[Ht'|?] _]|[_ ->]]; [congruence|lra|done].
    + intros p Hp. destruct (Hg p) as [[_ ->]|[[-> Hle] _]]; [done|]. destruct Ht as [|Ht]; [done|].
      eapply Forall_forall in Ht; [|exact Hp]. cbn in Ht. lra.
  - intros i p p' Hp. rewrite list_lookup_fmap, Hp. intros [= <-]. destruct (Hg p) as [[[Ht'|?] ->]|[[Ht' ?] ->]].
    + split; [done|congruence].
    + split; [done|lra].
    + split; [|done]. intros [?|?]; [congruence|lra].
  - intros i j p q p' q' Hp Hq. rewrite !list_lookup_fmap, Hp, Hq. intros [= <-] [= <-] Hle.
    destruct (Hg p) as [[? ->]|[[? ?] ->]], (Hg q) as [[? ->]|[[? ?] ->]]; [by apply Hmono| |pose proof (Hm q); lra|done].
    exfalso. intuition (congruence || lra).
Qed.

Lemma qsum_const_eq {A} (c : Q) (l : list A) : (0 < length l)%nat -> (qsum ((fun _ => c / qn (length l)) <$> l) == c)%Q.
Proof.
  intros Hl. rewrite qsum_const. fold (qn (length l)). apply Qmult_div_r. pose proof (in_range_pos _ Hl).
  fold (qn (length l)) in *. lra.
Qed.

Lemma parts_nonempty zeros (pmf t z : list Q) : t ++ z ≡ₚ pmf -> parts zeros pmf t z -> pmf <> [] ->
  (zeros = true \/ Exists (fun p => 0 < p)%Q pmf) -> (0 < length t)%nat.
Proof.
  intros Hperm (_ & _ & Hz) Hne Hin. destruct t; [|simpl; lia]. exfalso. cbn in Hperm. destruct Hz as [->|[-> Hz]].
  - by apply Permutation_nil in Hperm.
  - destruct Hin as [|Hex]; [done|]. rewrite <- Hperm in Hex. apply Exists_exists in Hex as (p & Hp & Hpos).
    eapply Forall_forall in Hz; [|exact Hp]. cbn in *. lra.
Qed.

(** The redistribution [enforce_minimum_probability] performs. *)
Lemma enforce_redistributes `{StdSort} epsilon zeros (pmf t z : list Q) :
  (0 < epsilon <= 1)%Q -> Z.of_nat (length pmf) < 2 ^ 64 -> pmf <> [] -> (0 < length t)%nat ->
  std_sort (fun a b : Q => (a >? b)%num) pmf = t ++ z -> parts zeros pmf t z ->
  exists f, enforce_minimum_probability epsilon zeros pmf = (S_EXPLORATION_OK, update_support zeros f pmf) /\
  (forall p, epsilon / qn (length t) <= f p)%Q /\ (forall p q, p <= q -> f p <= f q)%Q /\ (qsum (f <$> t) == 1)%Q.
Proof.
  intros Heps Hlen Hne Htl Hs (Hsup & Ht & Hz). pose proof (in_range_pos _ Htl) as Hn0. fold (qn (length t)) in Hn0.
  pose proof (std_sort_perm (fun a b : Q => (a >? b)%num) pmf) as Hperm.
  pose proof (std_sort_greater pmf) as Hg. rewrite Hs in Hperm, Hg. apply StronglySorted_app_1_l in Hg.
  assert (length t + length z = length pmf)%nat as Htz by (by rewrite <- length_app, Hperm).
  unfold enforce_minimum_probability. destruct pmf as [|p0 pmf0]; [done|]. rewrite Hsup, Hs. set (pmf := p0 :: pmf0) in *.
  set (rho0 := default _ _). clearbody pmf rho0. qnum. change (inject_Z 0) with 0%Q. change (inject_Z 1) with 1%Q. fold (qn (length t)).
  case_if; [bprop; lra|]. case_if; [exfalso; bprop; destruct E0; bprop; lra|]. case_if.
  - eexists; split; [done|]. split_and!.
    + intros _. apply Qdiv_le_mono; [done|lra].
    + intros _ _ _. apply Qle_refl.
    + by apply qsum_const_eq.
  - set (m := (epsilon / qn (length t))%Q). bprop.
    assert (qn (length t) * m == epsilon)%Q as Hm by (apply Qmult_div_r; lra).
    assert (Z.of_nat (length t) < 2 ^ 64) as Hsm by lia.
    destruct (fun a b c d e f g => rho_loop_split zeros (length t) m Hsm t [] 0 rho0 0%Q a b c d e f g z)
      as (r & s & Hr & Hsplit).
    + by left.
    + done.
    + lra.
    + done.
    + by destruct t.
    + done.
    + done.
    + destruct Hz as [->|[-> Hz]]; [by left|]. destruct Hz as [|y l Hy]; [by left|right; eauto].
    + cbn [length] in Hr. change (Z.of_nat 0) with 0 in Hr. rewrite Hr.
      eexists; split; [done|]. split_and!.
      * intros p. apply nmax_Q_ge_r.
      * intros p q Hpq. apply nmax_Q_mono. lra.
      * eapply split_redistributes; [|exact Hsplit|done|reflexivity]. lia.
Qed.

(** C40: What [enforce_minimum_probability] does to weights of any sum: the result sums to one, every
    element that counts (all of them, or only the positive ones when zeros are not considered) has at
    least [epsilon] over the number of the elements that count, the others are left alone, and the
    order of the elements is kept. The share is the one the code computes and its unit tests expect
    ([0.6] on [0.9, 0.1, 0] without zeros gives [0.7, 0.3, 0]); the comment above the division says
    that epsilon is divided by the number of all actions there, which would give [0.2]. *)
Theorem enforce_minimum_probability_projects `{StdSort} (epsilon : Q) (zeros : bool) (pmf : list Q) :
  (0 < epsilon <= 1)%Q -> Z.of_nat (length pmf) < 2 ^ 64 -> pmf <> [] ->
  (zeros = true \/ Forall (fun p => 0 <= p)%Q pmf /\ Exists (fun p => 0 < p)%Q pmf) ->
  exists pmf', enforce_minimum_probability epsilon zeros pmf = (S_EXPLORATION_OK, pmf') /\
  length pmf' = length pmf /\ (qsum pmf' == 1)%Q /\
  (forall i p p', pmf !! i = Some p -> pmf' !! i = Some p' ->
    (zeros = true \/ 0 < p -> epsilon / inject_Z (support zeros pmf) <= p') /\ (zeros = false -> p <= 0 -> p' = p))%Q /\
  (forall i j p q p' q', pmf !! i = Some p -> pmf !! j = Some q -> pmf' !! i = Some p' -> pmf' !! j = Some q' ->
    p <= q -> p' <= q')%Q.
Proof.
  intros Heps Hlen Hne Hin. destruct (parts_exist zeros pmf Hlen) as (t & z & Hs & Hparts); [naive_solver|].
  pose proof (std_sort_perm (fun a b : Q => (a >? b)%num) pmf) as Hperm. rewrite Hs in Hperm.
  assert (0 < length t)%nat as Htl by (eapply parts_nonempty; naive_solver).
  destruct (enforce_redistributes epsilon zeros pmf t z) as (f & -> & Hm & Hmono & Hsum); [done..|].
  destruct (update_support_props zeros pmf t z f (epsilon / qn (length t))) as (H1 & H2 & H3); [done..| | | | |].
  1: apply Qle_shift_div_l; [by apply in_range_pos|lra].
  1-3: done.
  exists (update_support zeros f pmf). split; [done|]. split; [by apply length_fmap|].
  destruct Hparts as (-> & _). done.
Qed.

Lemma enforce_minimum_probability_projects_witness : exists pmf',
  enforce_minimum_probability (H0 := std_sort_stable) (6 # 10)%Q false [9 # 10; 1 # 10; 0]%Q = (S_EXPLORATION_OK, pmf') /\
  (qsum pmf' == 1)%Q /\ Forall2 Qeq pmf' [7 # 10; 3 # 10; 0]%Q.
Proof.
  destruct (enforce_minimum_probability_projects (H := std_sort_stable) (6 # 10) false [9 # 10; 1 # 10; 0]%Q)
    as (pmf' & H1 & _ & H2 & _); [lra|simpl; lia|done| |].
  - right. split; [repeat constructor; cbn; lra|]. apply Exists_cons_hd. lra.
  - exists pmf'. split; [exact H1|]. split; [exact H2|]. vm_compute in H1. injection H1 as <-. repeat constructor.
Defined.

(** ** Sampling: lemmas *)

Section SamplingLemmas.
Context {F : Type} `{Num F} `{FromBits F}.

Definition clamp (p : F) : F := if (p <? n_of_Z 0)%num then n_of_Z 0 else p.

Lemma clamp_total_eq (pmf : list F) total : clamp_total pmf total = (clamp <$> pmf, fold_left nadd (clamp <$> pmf) total).
Proof. revert total. induction pmf as [|p pmf IH]; intros total; [done|]. cbn. fold (clamp p). by rewrite IH. Qed.

Lemma normalize_loop_found draw total (pmf : list F) sum i c :
  exists ie, normalize_loop draw total pmf true sum i c = ((fun p => p / total)%num <$> pmf, true, ie, c).
Proof.
  revert sum i. induction pmf as [|p pmf IH]; intros sum i; [eexists; done|]. cbn.
  destruct (IH (sum + p)%num (u32 (i + 1))) as [ie ->]. eexists; done.
Qed.

(** The second loop divides by the total and finds the index [sample_scores] stops at. *)
Lemma normalize_loop_eq draw total (pmf : list F) sum i c :
  exists found ie ch, normalize_loop draw total pmf false sum i c = ((fun p => p / total)%num <$> pmf, found, ie, ch) /\
  (if found : bool then ch else u32 (ie - 1)) = scores_loop draw pmf sum i.
Proof.
  revert sum i c. induction pmf as [|p pmf IH]; intros sum i c; [by eexists _, _, _|]. cbn.
  destruct (sum + p >? draw)%num.
  - destruct (normalize_loop_found draw total pmf (sum + p)%num (u32 (i + 1)) i) as [ie ->]. by eexists _, _, _.
  - destruct (IH (sum + p)%num (u32 (i + 1)) c) as (found & ie & ch & -> & Hch). by eexists _, _, _.
Qed.

(** What the two samplers compute on a non-empty range. *)
Lemma sample_after_normalizing_eq seed (pmf : list F) c : pmf <> [] ->
  let weights := clamp <$> pmf in
  let total := fold_left nadd weights (n_of_Z 0) in
  sample_after_normalizing seed pmf c =
  if (total =? n_of_Z 0)%num then (S_EXPLORATION_OK, 0, set_first (n_of_Z 1) weights)
  else (S_EXPLORATION_OK, scores_loop (bounded_draw total (merand48_noadvance seed)) weights (n_of_Z 0) 0,
        (fun p => p / total)%num <$> weights).
Proof.
  intros Hne weights total. unfold sample_after_normalizing. rewrite clamp_total_eq. fold weights total.
  destruct pmf as [|p0 pmf0]; [done|].
  destruct (total =? n_of_Z 0)%num; [done|].
  destruct (normalize_loop_eq (bounded_draw total (merand48_noadvance seed)) total weights (n_of_Z 0) 0 c)
    as (found & ie & ch & -> & <-). done.
Qed.
End SamplingLemmas.

Lemma clamp_nonneg (p : Q) : (0 <= clamp p)%Q.
Proof. unfold clamp. qnum. change (inject_Z 0) with 0%Q. case_if; bprop; lra. Qed.

Lemma scores_loop_cdf (draw : Q) (ws : list Q) : forall sum i,
  Forall (fun w => 0 <= w)%Q ws -> (sum <= draw)%Q -> (draw < sum + qsum ws)%Q -> 0 <= i ->
  i + Z.of_nat (length ws) < 2 ^ 32 ->
  exists k, scores_loop draw ws sum i = i + Z.of_nat k /\ (k < length ws)%nat /\
    (sum + qsum (take k ws) <= draw)%Q /\ (draw < sum + qsum (take (S k) ws))%Q.
Proof.
  induction ws as [|w ws IH]; intros sum i Hw Hs Hd Hi Hl; [cbn in Hd; lra|].
  inversion Hw as [|? ? Hw0 Hw']; subst. cbn [scores_loop length qsum] in *. qnum. case_if; bprop.
  - exists 0%nat. cbn. split_and!; [lia|lia|lra|]. destruct ws; cbn; lra.
  - unfold u32. rewrite Z.mod_small by lia. destruct (IH (sum + w)%Q (i + 1)) as (k & -> & Hk & H1 & H2); [done|done|lra|lia|lia|].
    exists (S k). cbn [take qsum] in *. split_and!; [lia|lia|lra|lra].
Qed.

Lemma qsum_zero_all (l : list Q) : Forall (fun x => 0 <= x)%Q l -> (qsum l == 0)%Q -> Forall (fun x => x == 0)%Q l.
Proof.
  induction 1 as [|x l Hx Hl IH]; [done|]. cbn. pose proof (qsum_nonneg l Hl). intros Hs.
  constructor; [lra|]. apply IH. lra.
Qed.

Lemma qsum_all_zero (l : list Q) : Forall (fun x => x == 0)%Q l -> (qsum l == 0)%Q.
Proof. induction 1; cbn; lra. Qed.

(** ** Properties: sampling *)

(** Over exact numbers [sample_after_normalizing] draws by inverting the cumulative distribution:
    it leaves the weights, negative ones taken as zero, divided by their total (all the mass on the first
    action when the total is zero), and chooses the one action [k] for which the uniform draw [u] of the
    seed falls between the cumulative sums of the first [k] and the first [k + 1] probabilities. *)
Theorem sample_after_normalizing_inverse_cdf (seed chosen_index : Z) (pmf : list Q) :
  pmf <> [] -> Z.of_nat (length pmf) < 2 ^ 32 ->
  exists k pmf', sample_after_normalizing seed pmf chosen_index = (S_EXPLORATION_OK, Z.of_nat k, pmf') /\
  length pmf' = length pmf /\ (k < length pmf)%nat /\ (qsum pmf' == 1)%Q /\
  (qsum (take k pmf') <= merand48_noadvance seed < qsum (take (S k) pmf'))%Q /\
  (forall i p p', pmf !! i = Some p -> pmf' !! i = Some p' -> p' * qsum (clamp <$> pmf) == clamp p)%Q.
Proof.
  intros Hne Hlen. pose proof (merand48_range seed) as Hu. set (u := merand48_noadvance seed) in *.
  rewrite sample_after_normalizing_eq by done. fold u. set (ws := clamp <$> pmf). set (total := fold_left _ _ _).
  assert (Forall (fun w => 0 <= w)%Q ws) as Hws by (apply Forall_fmap, Forall_true; intros; apply clamp_nonneg).
  assert (total == qsum ws)%Q as Ht.
  { subst total. qnum. rewrite qsum_fold_left. change (inject_Z 0) with 0%Q. lra. }
  pose proof (qsum_nonneg ws Hws) as Hpos. assert (length ws = length pmf) as Hlw by apply length_fmap.
  assert (forall i p, pmf !! i = Some p -> ws !! i = Some (clamp p)) as Hlk by (intros i p Hp; subst ws; by rewrite list_lookup_fmap, Hp).
  clearbody u total ws. case_if; qnum; bprop; change (inject_Z 0) with 0%Q in *.
  - assert (qsum ws == 0)%Q as H0 by lra. pose proof (qsum_zero_all ws Hws H0) as Hz.
    exists 0%nat, (set_first 1%Q ws). destruct ws as [|w ws]; [by destruct pmf|].
    inversion Hz as [|? ? Hw Hz']; subst. pose proof (qsum_all_zero _ Hz') as Hzs.
    change (inject_Z 1) with 1%Q. cbn [set_first qsum take length] in *. rewrite take_0. split_and!; [done|done|lia|lra|lra|cbn; lra|].
    intros i p p' Hp _. rewrite H0. eapply Forall_lookup_1 in Hz; [|by apply Hlk]. cbn in Hz. lra.
  - assert (0 < total)%Q as Htp by lra. assert (total * u < total)%Q as Hd.
    { assert (total * u < total * 1)%Q; [apply Qmult_lt_l; lra|lra]. }
    assert (0 <= total * u)%Q as Hd0 by (apply Qmult_le_0_compat; lra).
    assert (bounded_draw total u = (total * u)%Q) as ->.
    { unfold bounded_draw. qnum. case_if; [bprop; lra|done]. }
    destruct (scores_loop_cdf (total * u) ws 0%Q 0) as (k & -> & Hk & H1 & H2); [done|lra|lra|lia|lia|].
    exists k, ((fun p => p / total)%Q <$> ws). split_and!; [done|by rewrite length_fmap|lia| | | |].
    + rewrite qsum_div, <- Ht. by apply Qdiv_self.
    + rewrite <- fmap_take, qsum_div. apply Qle_shift_div_r; lra.
    + rewrite <- fmap_take, qsum_div. apply Qlt_shift_div_l; lra.
    + intros i p p' Hp. rewrite list_lookup_fmap, (Hlk _ _ Hp). intros [= <-]. rewrite <- Ht. field. lra.
Qed.

Lemma sample_after_normalizing_inverse_cdf_witness : exists k pmf',
  sample_after_normalizing 7 [1; -3; 2; 1]%Q 0 = (S_EXPLORATION_OK, Z.of_nat k, pmf') /\ (qsum pmf' == 1)%Q.
Proof.
  destruct (sample_after_normalizing_inverse_cdf 7 0 [1; -3; 2; 1]%Q) as (k & pmf' & H1 & _ & _ & H2 & _); [done|simpl; lia|].
  exists k, pmf'. split; [exact H1|exact H2].
Defined.

(** [sample_scores] is [sample_after_normalizing] without the normalisation: in any number format, on
    the same seed and range it returns the same code and chooses the same index, leaves the clamped weights
    that the other divides by their total, and advances the seed exactly when it has drawn from it. *)
Theorem sample_scores_agrees {F} `{Num F} `{FromBits F} (seed chosen_index : Z) (scores : list F) :
  let '(code, chosen, pmf) := sample_after_normalizing seed scores chosen_index in
  let '(weights, total) := clamp_total scores (n_of_Z 0) in
  if decide (scores = []) then sample_scores seed scores chosen_index = (code, seed, chosen, pmf)
  else if (total =? n_of_Z 0)%num then sample_scores seed scores chosen_index = (code, seed, chosen, pmf)
  else sample_scores seed scores chosen_index = (code, advance seed, chosen, weights) /\
       pmf = (fun p => p / total)%num <$> weights.
Proof.
  destruct (decide (scores = [])) as [->|Hne]; [done|]. rewrite sample_after_normalizing_eq by done.
  unfold sample_scores. rewrite clamp_total_eq. destruct scores as [|s scores]; [done|].
  by destruct (fold_left _ _ _ =? n_of_Z 0)%num.
Qed.

(** ** Termination of the redraws

    The draws of [sample_pdf] come from a linear congruential generator. A draw is refused when its
    mantissa is among the [838] largest, that is, when the state modulo [2^48] is in the last [838 * 2^25]
    values. If that happened for six states in a row, the five differences of consecutive ones would be small;
    but [2^48] divides five independent combinations of them with small coefficients (a reduced basis of the
    dual lattice of the multiplier), so all would be zero, and the first is odd. *)

Section Lattice.
Definition width : Z := 838 * 2 ^ 25.
Definition modulus : Z := 2 ^ 48.

Definition small (e : Z) : Prop := - width < e < width.

Lemma small_multiple (z s : Z) : s = modulus * z -> - modulus < s < modulus -> s = 0.
Proof. intros -> Hb. unfold modulus in *. destruct (Z.eq_dec z 0); lia. Qed.

Lemma term_bound r e : small e -> Z.abs (r * e) <= Z.abs r * (width - 1).
Proof. intros He. rewrite Z.abs_mul. apply Z.mul_le_mono_nonneg_l; unfold small in He; lia. Qed.

Context (a e1 e2 e3 e4 e5 s2 s3 s4 s5 : Z).
Hypothesis step2 : e2 = a * e1 - modulus * s2.
Hypothesis step3 : e3 = a * e2 - modulus * s3.
Hypothesis step4 : e4 = a * e3 - modulus * s4.
Hypothesis step5 : e5 = a * e4 - modulus * s5.
Hypothesis small1 : small e1.
Hypothesis small2 : small e2.
Hypothesis small3 : small e3.
Hypothesis small4 : small e4.
Hypothesis small5 : small e5.

Lemma row_zero r1 r2 r3 r4 r5 c :
  r1 + r2 * a + r3 * a ^ 2 + r4 * a ^ 3 + r5 * a ^ 4 = modulus * c ->
  (Z.abs r1 + Z.abs r2 + Z.abs r3 + Z.abs r4 + Z.abs r5) * width <= modulus ->
  r1 * e1 + r2 * e2 + r3 * e3 + r4 * e4 + r5 * e5 = 0.
Proof using step2 step3 step4 step5 small1 small2 small3 small4 small5.
  intros Hc Hw.
  apply (small_multiple (c * e1 - ((r2 + r3 * a + r4 * a ^ 2 + r5 * a ^ 3) * s2
                                   + (r3 + r4 * a + r5 * a ^ 2) * s3 + (r4 + r5 * a) * s4 + r5 * s5))).
  - rewrite Z.mul_sub_distr_l, Z.mul_assoc, <- Hc, step5, step4, step3, step2. ring.
  - set (R := Z.abs r1 + Z.abs r2 + Z.abs r3 + Z.abs r4 + Z.abs r5) in *.
    assert (Z.abs (r1 * e1 + r2 * e2 + r3 * e3 + r4 * e4 + r5 * e5) <= R * (width - 1)) as Hb.
    { pose proof (term_bound r1 _ small1). pose proof (term_bound r2 _ small2). pose proof (term_bound r3 _ small3).
      pose proof (term_bound r4 _ small4). pose proof (term_bound r5 _ small5).
      subst R. rewrite !Z.mul_add_distr_r. clear -H H0 H1 H2 H3. generalize dependent (r1 * e1). generalize dependent (r2 * e2).
      generalize dependent (r3 * e3). generalize dependent (r4 * e4). generalize dependent (r5 * e5). lia. }
    assert (R * (width - 1) < modulus) as HR.
    { rewrite Z.mul_sub_distr_l. destruct (Z.eq_dec R 0) as [-> |]; [done|]. lia. }
    clear -Hb HR. lia.
Qed.
End Lattice.

Lemma lattice_zero (e1 e2 e3 e4 e5 s2 s3 s4 s5 : Z) :
  e2 = CONSTANT_A * e1 - modulus * s2 -> e3 = CONSTANT_A * e2 - modulus * s3 ->
  e4 = CONSTANT_A * e3 - modulus * s4 -> e5 = CONSTANT_A * e4 - modulus * s5 ->
  small e1 -> small e2 -> small e3 -> small e4 -> small e5 -> e1 = 0.
Proof.
  intros H2 H3 H4 H5 S1 S2 S3 S4 S5.
  pose proof (fun r1 r2 r3 r4 r5 c => row_zero CONSTANT_A _ _ _ _ _ _ _ _ _ H2 H3 H4 H5 S1 S2 S3 S4 S5 r1 r2 r3 r4 r5 c) as Hrow.
  clear H2 H3 H4 H5 S1 S2 S3 S4 S5.
  set (row r1 r2 r3 r4 r5 := Hrow r1 r2 r3 r4 r5 ((r1 + r2 * CONSTANT_A + r3 * CONSTANT_A ^ 2 + r4 * CONSTANT_A ^ 3 + r5 * CONSTANT_A ^ 4) / modulus)).
  pose proof (row 93 315 (-65) (-140) (-359) eq_refl ltac:(done)).
  pose proof (row 263 321 (-146) (-469) 343 eq_refl ltac:(done)).
  pose proof (row (-36) 240 (-68) 674 110 eq_refl ltac:(done)).
  pose proof (row (-779) 220 (-707) (-53) (-93) eq_refl ltac:(done)).
  pose proof (row (-707) 189 829 (-277) 62 eq_refl ltac:(done)).
  clear Hrow row. lia.
Qed.

(** A state the loop of [sample_pdf] draws again after. *)
Definition refused (x : Z) : Prop := 2 ^ 23 - 838 <= mantissa x.
#[export] Instance refused_dec x : Decision (refused x).
Proof. unfold refused. apply _. Defined.

Lemma refused_low x : refused x -> modulus - width <= x mod modulus < modulus.
Proof.
  unfold refused, mantissa, modulus, width. intros Hx. change (2 ^ 48) with (2 ^ 25 * 2 ^ 23).
  rewrite Z.rem_mul_r by lia. pose proof (Z.mod_pos_bound x (2 ^ 25)). pose proof (mantissa_range x). unfold mantissa in *. lia.
Qed.

Lemma advance_low x : exists q, advance x mod modulus = CONSTANT_A * (x mod modulus) + CONSTANT_C - modulus * q.
Proof.
  unfold advance, u64, modulus. rewrite Z.mod_mod_divide by (by exists (2 ^ 16)).
  exists ((CONSTANT_A * x + CONSTANT_C) / 2 ^ 48 - CONSTANT_A * (x / 2 ^ 48)).
  rewrite !Z.mod_eq by lia. ring.
Qed.

Definition steps (n : nat) (x : Z) : Z := Nat.iter n advance x.

Lemma low_run (y : nat -> Z) :
  (forall k, exists q, y (S k) = CONSTANT_A * y k + CONSTANT_C - modulus * q) ->
  (forall k, (k < 6)%nat -> modulus - width <= y k < modulus) -> False.
Proof.
  intros Hstep Hlow.
  destruct (Hstep 0%nat) as [q0 H0]. destruct (Hstep 1%nat) as [q1 H1]. destruct (Hstep 2%nat) as [q2 H2].
  destruct (Hstep 3%nat) as [q3 H3]. destruct (Hstep 4%nat) as [q4 H4]. clear Hstep.
  assert (forall k, (k < 5)%nat -> small (y (S k) - y k)) as Hs.
  { intros k Hk. pose proof (Hlow k ltac:(lia)). pose proof (Hlow (S k) ltac:(lia)). unfold small. lia. }
  assert (y 1%nat - y 0%nat = 0) as Hz.
  { apply (lattice_zero _ (y 2%nat - y 1%nat) (y 3%nat - y 2%nat) (y 4%nat - y 3%nat) (y 5%nat - y 4%nat)
      (q1 - q0) (q2 - q1) (q3 - q2) (q4 - q3)); first [apply Hs; lia|rewrite ?H4, ?H3; lia]. }
  clear Hlow Hs H1 H2 H3 H4. unfold CONSTANT_A, CONSTANT_C, modulus in *. lia.
Qed.

(** No state is refused six times in a row. *)
Lemma refused_run x : exists k, (k < 6)%nat /\ ~ refused (steps (S k) x).
Proof.
  destruct (decide (Forall (fun k => 2 ^ 23 - 838 <= mantissa (steps (S k) x)) (seq 0 6))) as [Hall|Hn].
  - exfalso. apply (low_run (fun k => steps (S k) x mod modulus)); [intros k; apply advance_low|].
    intros k Hk. apply refused_low. eapply Forall_forall in Hall; [exact Hall|]. apply elem_of_seq. lia.
  - apply not_Forall_Exists in Hn; [|intros k; apply _]. apply Exists_exists in Hn as (k & Hk & Hn).
    apply elem_of_seq in Hk. exists k. split; [lia|exact Hn].
Qed.

(** A draw is below the mass exactly when its state is not refused. *)
Lemma draw_test x (mass : Q) : (0 < mass)%Q ->
  (nlit (10001 # 10000) * mass * snd (merand48 x) >=? mass)%num = false <-> ~ refused (advance x).
Proof.
  intros Hm. destruct (merand48_value x) as [_ Hv]. qnum. rewrite <- not_true_iff_false, Qle_bool_iff, Hv. apply not_iff_compat.
  unfold refused. pose proof (mantissa_range (advance x)). set (k := mantissa (advance x)) in *. clearbody k.
  assert ((10001 # 10000) * mass * (inject_Z k / inject_Z (2 ^ 23))
    == mass * ((10001 # 10000) * (inject_Z k / inject_Z (2 ^ 23))))%Q as -> by ring.
  assert (mass <= mass * ((10001 # 10000) * (inject_Z k / inject_Z (2 ^ 23))) <->
          mass * 1 <= mass * ((10001 # 10000) * (inject_Z k / inject_Z (2 ^ 23))))%Q as -> by (by rewrite Qmult_1_r).
  rewrite Qmult_le_l by done. change (inject_Z (2 ^ 23)) with (8388608 # 1)%Q.
  unfold Qle, Qdiv, Qmult, Qinv, inject_Z. cbn -[Z.mul Z.le Pos.mul]. lia.
Qed.

(** The draw numbered [n] from the seed [x], as a share of the total mass. *)
Definition nth_draw (x : Z) (n : nat) : Q := ((10001 # 10000) * merand48_noadvance (steps n x))%Q.

Lemma nth_draw_nonneg x n : (0 <= nth_draw x n)%Q.
Proof. apply Qmult_le_0_compat; [lra|apply merand48_range]. Qed.

Lemma nth_draw_refused x n : refused (steps (S n) x) <-> (1 <= nth_draw x n)%Q.
Proof.
  pose proof (draw_test (steps n x) 1 ltac:(lra)) as Ht. change (advance (steps n x)) with (steps (S n) x) in Ht.
  set (d := (nlit (10001 # 10000) * 1%Q * snd (merand48 (steps n x)))%num : Q) in *.
  assert (d == nth_draw x n)%Q as <- by (unfold d, nth_draw, merand48_noadvance; qnum; ring).
  qnum. destruct (Qle_bool 1 d) eqn:E.
  - apply Qle_bool_iff in E. split; [done|]. intros _. destruct (decide (refused (steps (S n) x))); [done|]. naive_solver.
  - split; [naive_solver|]. intros H1. apply Qle_bool_iff in H1. congruence.
Qed.

(** Some draw is the first below the mass, and [draw_below] stops there. *)
Lemma first_draw k x : ~ refused (steps (S k) x) ->
  exists n, (n <= k)%nat /\ (forall i, (i < n)%nat -> refused (steps (S i) x)) /\ ~ refused (steps (S n) x).
Proof.
  induction k as [k IH] using lt_wf_ind. intros Hk.
  destruct (decide (Forall (fun i => refused (steps (S i) x)) (seq 0 k))) as [Hall|Hn].
  - exists k. split_and!; [lia| |done]. intros i Hi. eapply Forall_forall in Hall; [exact Hall|]. apply elem_of_seq. lia.
  - apply not_Forall_Exists in Hn; [|intros i; apply _]. apply Exists_exists in Hn as (i & Hi & Hn). apply elem_of_seq in Hi.
    destruct (IH i ltac:(lia) Hn) as (n & Hle & Hn'). exists n. split; [lia|done].
Qed.

Lemma draw_below_first (mass : Q) n : (0 < mass)%Q -> forall fuel x,
  (forall i, (i < n)%nat -> refused (steps (S i) x)) -> ~ refused (steps (S n) x) -> (n < fuel)%nat ->
  exists draw, draw_below fuel x mass = Some (steps (S n) x, draw) /\ (draw == nth_draw x n * mass)%Q.
Proof.
  intros Hm. induction n as [|n IH]; intros [|fuel] x Href Hn Hf; try lia; cbn [draw_below];
    pose proof (draw_test x mass Hm) as Ht; destruct (merand48_value x) as [Hseed _];
    destruct (merand48 x) as [p_seed u] eqn:E; cbn [fst snd] in *; subst p_seed.
  - rewrite (proj2 Ht Hn). eexists. split; [done|]. apply (f_equal snd) in E. cbn [snd] in E. unfold nth_draw, merand48_noadvance. change (steps 0 x) with x. rewrite E. qnum. ring.
  - destruct (nlit (10001 # 10000) * mass * u >=? mass)%num; [|by destruct (proj1 Ht eq_refl (Href 0%nat ltac:(lia)))].
    assert (forall i, steps i (advance x) = steps (S i) x) as Hs by (intros i; symmetry; apply Nat.iter_succ_r).
    destruct (IH fuel (advance x)) as (draw & -> & He); [intros i Hi| |lia|]; rewrite ?Hs; [by apply Href; lia|done|].
    exists draw. split; [done|]. rewrite He. unfold nth_draw. by rewrite Hs.
Qed.

Lemma pdf_mass_qsum (pdf : list (segment Q)) total :
  (pdf_mass pdf total == total + qsum ((fun s => (seg_right s - seg_left s) * seg_pdf s) <$> pdf))%Q.
Proof. revert total. induction pdf as [|s pdf IH]; intros total; cbn [pdf_mass]; [cbn; lra|]. rewrite IH. cbn. qnum. lra. Qed.

Definition segment_ok (s : segment Q) : Prop := (seg_left s < seg_right s)%Q /\ (0 < seg_pdf s)%Q.

Definition segment_mass (s : segment Q) : Q := ((seg_right s - seg_left s) * seg_pdf s)%Q.

Lemma segment_mass_pos s : segment_ok s -> (0 < segment_mass s)%Q.
Proof. intros [Hl Hp]. unfold segment_mass. apply Qmult_lt_0_compat; lra. Qed.

(** The segment found is the first the draw does not exceed. *)
Lemma pdf_loop_inverse draw (pdf : list (segment Q)) : forall acc v p,
  Forall segment_ok pdf -> (acc <= draw)%Q -> (draw < acc + qsum (segment_mass <$> pdf))%Q ->
  exists k s value, pdf !! k = Some s /\ pdf_loop draw pdf acc v p = (value, seg_pdf s) /\
  (seg_left s <= value <= seg_right s)%Q /\ (k = 0%nat \/ (seg_left s < value)%Q) /\
  (acc + qsum (segment_mass <$> take k pdf) + (value - seg_left s) * seg_pdf s == draw)%Q.
Proof.
  induction pdf as [|s pdf IH]; intros acc v p Hok Ha Hd; [cbn in Hd; lra|].
  inversion Hok as [|? ? Hs Hok']; subst. cbn [pdf_loop]. qnum. case_if; bprop.
  - destruct Hs as [Hlr Hp]. assert (0 <= (draw - acc) / seg_pdf s)%Q by (apply Qle_shift_div_l; lra).
    assert ((draw - acc) / seg_pdf s <= seg_right s - seg_left s)%Q by (apply Qle_shift_div_r; lra).
    exists 0%nat, s. eexists. split_and!; [done|done|lra|lra|by left|]. rewrite take_0. cbn.
    assert ((draw - acc) / seg_pdf s * seg_pdf s == draw - acc)%Q as Hd' by (field; lra). lra.
  - destruct (IH (acc + seg_pdf s * (seg_right s - seg_left s))%Q v p) as (k & s' & value & Hk & -> & Hr & Hl & He); [done|lra| |].
    + cbn in Hd. unfold segment_mass in Hd at 1. lra.
    + exists (S k), s', value. split_and!; [done|done|apply Hr|apply Hr| |cbn; unfold segment_mass at 1; lra].
      right. destruct Hl as [->|Hl]; [|done]. rewrite take_0 in He. cbn in He. destruct pdf as [|s1 pdf]; [done|].
      injection Hk as ->. apply Forall_inv in Hok' as [_ Hp]. apply Qnot_le_lt. intros Hle.
      assert ((value - seg_left s') * seg_pdf s' <= 0 * seg_pdf s')%Q by (apply Qmult_le_compat_r; lra). lra.
Qed.



(** In [float]s, a draw of zero falls in a first segment of density zero, and the value chosen there is
    [left + 0 / 0]. *)
Lemma sample_pdf_nan :
  let fl : Q -> f32 := @nlit f32 num_f32 in
  let pdf := [Build_segment (fl 0%Q) (fl 1%Q) (fl 0%Q); Build_segment (fl 1%Q) (fl 2%Q) (fl 1%Q)] in
  exists p_seed', sample_pdf (H := num_f32) (H0 := from_bits_f32) 1 10411512951286207333 pdf (fl 0%Q) (fl 0%Q) =
    Some (S_EXPLORATION_OK, p_seed', S754_nan, fl 0%Q).
Proof. eexists. vm_compute. reflexivity. Qed.
