(* ===== verification/Queue.v ===== *)
(** * The thread-safe queue between the parser and the learner

    [thread_safe_queue] of [core/queue.h], under every interleaving of the threads that use it. The body of
    each operation runs with the mutex held, so a step of the relation is one critical section, or one wait on
    a condition variable: the waiting thread gives the mutex up in the same step, and a thread woken, by a
    notification or spuriously, tests its loop condition again. The two notifications of [set_done] come after
    the mutex is released and are a step of their own. *)

From stdpp Require Import relations.
From S2P Require Import Prelude.

Section Queue.
Context {T : Type} (_max_size : nat).

(** ** The shared state and the critical sections *)

Record queue := { _object_queue : list T; _done : bool }.

Inductive pop_result :=
| Pop_wait
| Pop_false
| Pop_item (item : T) (q : queue).

(** [try_pop], from the test of its loop to its return or its wait. *)
Definition try_pop (q : queue) : pop_result :=
  if (length (_object_queue q) =? 0)%nat && negb (_done q) then Pop_wait
  else if _done q && (length (_object_queue q) =? 0)%nat then Pop_false
  else match _object_queue q with
       | [] => Pop_false
       | item :: rest => Pop_item item {| _object_queue := rest; _done := _done q |}
       end.

(** [push]: [None] when it waits. *)
Definition push (item : T) (q : queue) : option queue :=
  if (length (_object_queue q) =? _max_size)%nat then None
  else Some {| _object_queue := _object_queue q ++ [item]; _done := _done q |}.

Definition set_done (q : queue) : queue := {| _object_queue := _object_queue q; _done := true |}.

Definition size (q : queue) : nat := length (_object_queue q).

(** ** Threads *)

Inductive operation := Push (item : T) | Try_pop | Set_done.

(** Where a thread is: about to run the critical section of its next operation, waiting on a condition
    variable inside it, or between the two parts of [set_done]. *)
Inductive position := Ready | Wait_not_full | Wait_not_empty | Notifying.

(** The operations left, the position, and what the calls of [try_pop] have returned. *)
Record thread := { program : list operation; at_ : position; results : list (option T) }.

Definition start (ops : list operation) : thread := {| program := ops; at_ := Ready; results := [] |}.

Definition move (p : position) (t : thread) : thread := {| program := program t; at_ := p; results := results t |}.
Definition next (t : thread) : thread := {| program := tail (program t); at_ := Ready; results := results t |}.
Definition next_result (r : option T) (t : thread) : thread :=
  {| program := tail (program t); at_ := Ready; results := results t ++ [r] |}.

(** [notify_all]. *)
Definition wake_full (t : thread) : thread := match at_ t with Wait_not_full => move Ready t | _ => t end.
Definition wake_empty (t : thread) : thread := match at_ t with Wait_not_empty => move Ready t | _ => t end.

(** The queue, the threads, and what has been pushed and popped so far, in order. *)
Record config := { shared : queue; threads : list thread; pushed : list T; popped : list T }.

Definition initial (programs : list (list operation)) : config :=
  {| shared := {| _object_queue := []; _done := false |}; threads := start <$> programs; pushed := []; popped := [] |}.

Definition update (i : nat) (t : thread) (c : config) : config :=
  {| shared := shared c; threads := <[i := t]> (threads c); pushed := pushed c; popped := popped c |}.

Inductive step : config -> config -> Prop :=
| step_pop_wait i t c ops :
    threads c !! i = Some t -> at_ t = Ready -> program t = Try_pop :: ops -> try_pop (shared c) = Pop_wait ->
    step c (update i (move Wait_not_empty t) c)
| step_pop_false i t c ops :
    threads c !! i = Some t -> at_ t = Ready -> program t = Try_pop :: ops -> try_pop (shared c) = Pop_false ->
    step c (update i (next_result None t) c)
| step_pop_item i t c ops item q :
    threads c !! i = Some t -> at_ t = Ready -> program t = Try_pop :: ops -> try_pop (shared c) = Pop_item item q ->
    step c {| shared := q; threads := wake_full <$> <[i := next_result (Some item) t]> (threads c);
              pushed := pushed c; popped := popped c ++ [item] |}
| step_push_wait i t c ops item :
    threads c !! i = Some t -> at_ t = Ready -> program t = Push item :: ops -> push item (shared c) = None ->
    step c (update i (move Wait_not_full t) c)
| step_push i t c ops item q :
    threads c !! i = Some t -> at_ t = Ready -> program t = Push item :: ops -> push item (shared c) = Some q ->
    step c {| shared := q; threads := wake_empty <$> <[i := next t]> (threads c);
              pushed := pushed c ++ [item]; popped := popped c |}
| step_set_done i t c ops :
    threads c !! i = Some t -> at_ t = Ready -> program t = Set_done :: ops ->
    step c {| shared := set_done (shared c); threads := <[i := move Notifying t]> (threads c);
              pushed := pushed c; popped := popped c |}
| step_notify i t c :
    threads c !! i = Some t -> at_ t = Notifying ->
    step c {| shared := shared c; threads := wake_full <$> (wake_empty <$> <[i := next t]> (threads c));
              pushed := pushed c; popped := popped c |}.

(** A spurious wakeup. *)
Inductive spurious : config -> config -> Prop :=
| spurious_wake i t c :
    threads c !! i = Some t -> (at_ t = Wait_not_full \/ at_ t = Wait_not_empty) ->
    spurious c (update i (move Ready t) c).

Definition any_step (c c' : config) : Prop := step c c' \/ spurious c c'.

Definition reachable (programs : list (list operation)) (c : config) : Prop := rtc any_step (initial programs) c.
End Queue.
Arguments queue : clear implicits.
Arguments operation : clear implicits.
Arguments thread : clear implicits.
Arguments config : clear implicits.

(** ** The invariant *)

Section Invariant.
Context {T : Type} (max : nat).
Implicit Types (c : config T) (t : thread T) (q : queue T).

Definition notifier (ts : list (thread T)) : Prop := Exists (fun t => at_ t = Notifying) ts.

(** What a waiting thread waits for has not happened, or its notification is still to come. *)
Definition thread_ok (q : queue T) (pending : Prop) (t : thread T) : Prop :=
  match at_ t with
  | Ready => True
  | Wait_not_full => length (_object_queue q) = max /\ exists x ops, program t = Push x :: ops
  | Wait_not_empty => _object_queue q = [] /\ (_done q = false \/ pending) /\ exists ops, program t = Try_pop :: ops
  | Notifying => _done q = true /\ exists ops, program t = Set_done :: ops
  end.

Record invariant (c : config T) : Prop := {
  inv_size : (length (_object_queue (shared c)) <= max)%nat;
  inv_fifo : pushed c = popped c ++ _object_queue (shared c);
  inv_threads : Forall (thread_ok (shared c) (notifier (threads c))) (threads c)
}.

Lemma notifier_insert i t t' ts : ts !! i = Some t -> at_ t <> Notifying -> notifier ts -> notifier (<[i := t']> ts).
Proof.
  intros Hi Ht Hn. apply Exists_exists in Hn as (u & Hu & Hat). apply list_elem_of_lookup in Hu as [j Hj].
  apply Exists_exists. exists u. split; [|done]. apply list_elem_of_lookup. exists j.
  rewrite list_lookup_insert_ne; [done|]. intros ->. congruence.
Qed.

Lemma notifier_insert_same i t ts : (i < length ts)%nat -> at_ t = Notifying -> notifier (<[i := t]> ts).
Proof.
  intros Hi Ht. apply Exists_exists. exists t. split; [|done]. apply list_elem_of_lookup. exists i.
  by rewrite list_lookup_insert_eq.
Qed.

Lemma notifier_fmap (f : thread T -> thread T) ts :
  (forall t, at_ t = Notifying -> at_ (f t) = Notifying) -> notifier ts -> notifier (f <$> ts).
Proof. intros Hf Hn. apply Exists_fmap. eapply Exists_impl; [exact Hn|]. cbn. intros t. apply Hf. Qed.

Lemma wake_full_notifying t : at_ t = Notifying -> at_ (wake_full t) = Notifying.
Proof. intros E. unfold wake_full. by rewrite E. Qed.

Lemma wake_empty_notifying t : at_ t = Notifying -> at_ (wake_empty t) = Notifying.
Proof. intros E. unfold wake_empty. by rewrite E. Qed.

Lemma Forall_insert_at {A} (P : A -> Prop) i x (l : list A) : Forall P l -> P x -> Forall P (<[i := x]> l).
Proof. intros Hl Hx. by apply Forall_insert. Qed.


Lemma thread_ok_ready q P t : at_ t = Ready -> thread_ok q P t.
Proof. intros E. unfold thread_ok. by rewrite E. Qed.

Lemma thread_ok_impl q (P Q : Prop) t : (P -> Q) -> thread_ok q P t -> thread_ok q Q t.
Proof. unfold thread_ok. destruct (at_ t); naive_solver. Qed.

Lemma queue_initial_invariant programs : invariant (initial programs).
Proof.
  split; [cbn; lia|done|]. apply Forall_fmap, Forall_true. intros ops. by apply thread_ok_ready.
Qed.

Lemma spurious_invariant c c' : spurious c c' -> invariant c -> invariant c'.
Proof.
  intros [i t c0 Hi Hw] [H1 H2 H3]. split; cbn; [done|done|]. apply Forall_insert_at; [|by apply thread_ok_ready].
  eapply Forall_impl; [exact H3|]. intros u. apply thread_ok_impl. eapply notifier_insert; [done|]. by destruct Hw as [-> | ->].
Qed.

(** A change of one thread that keeps the pending notifications. *)
Lemma insert_ok q q' (ts : list (thread T)) i t t' (f : thread T -> thread T) :
  ts !! i = Some t -> at_ t <> Notifying -> Forall (thread_ok q (notifier ts)) ts ->
  (forall u, at_ u = Notifying -> at_ (f u) = Notifying) -> (forall P, thread_ok q' P (f t')) ->
  (forall u P, thread_ok q P u -> thread_ok q' P (f u)) ->
  Forall (thread_ok q' (notifier (f <$> <[i := t']> ts))) (f <$> <[i := t']> ts).
Proof.
  intros Hi Ht Hts Hf Ht' Hq. rewrite list_fmap_insert. apply Forall_insert_at; [|done].
  apply Forall_fmap. eapply Forall_impl; [exact Hts|]. intros u Hu. eapply thread_ok_impl; [|by apply Hq].
  intros Hn. rewrite <- list_fmap_insert. by eapply notifier_fmap, notifier_insert.
Qed.

Lemma update_ok i t t' c : threads c !! i = Some t -> at_ t <> Notifying ->
  (forall P, thread_ok (shared c) P t') -> invariant c -> invariant (update i t' c).
Proof.
  intros Hi Ht Ht' [H1 H2 H3]. split; cbn; [done|done|].
  pose proof (insert_ok (shared c) (shared c) _ i t t' id Hi Ht H3) as Hok. rewrite list_fmap_id in Hok. by apply Hok.
Qed.

Lemma queue_step_invariant c c' : step max c c' -> invariant c -> invariant c'.
Proof.
  intros Hstep Hinv. pose proof Hinv as [H1 H2 H3].
  destruct Hstep as [i t c ops Hi Ht Hp Hr|i t c ops Hi Ht Hp Hr|i t c ops item q Hi Ht Hp Hr|i t c ops item Hi Ht Hp Hr
    |i t c ops item q Hi Ht Hp Hr|i t c ops Hi Ht Hp|i t c Hi Ht].
  - eapply update_ok; [exact Hi|congruence| |done]. intros P. unfold try_pop in Hr.
    destruct (_object_queue (shared c)) eqn:E; cbn in Hr; [|by destruct (_done (shared c))].
    unfold thread_ok, move. cbn. destruct (_done (shared c)) eqn:Ed; [done|]. eauto.
  - eapply update_ok; [exact Hi|congruence| |done]. intros P. by apply thread_ok_ready.
  - unfold try_pop in Hr. destruct (_object_queue (shared c)) as [|x rest] eqn:E; cbn in Hr; [by destruct (_done (shared c))|].
    rewrite andb_false_r in Hr. injection Hr as -> <-. split; cbn; [cbn in H1; lia|by rewrite H2, <- app_assoc|].
    eapply insert_ok; [exact Hi|congruence|exact H3|apply wake_full_notifying| |].
    + intros P. by apply thread_ok_ready.
    + intros u P. unfold thread_ok, wake_full. destruct (at_ u) eqn:Eu; rewrite ?Eu; cbn; try done. rewrite E. by intros [? _].
  - eapply update_ok; [exact Hi|congruence| |done]. intros P. unfold push in Hr. destruct (Nat.eqb_spec (length (_object_queue (shared c))) max) as [E|]; [|done].
    unfold thread_ok, move. cbn. eauto.
  - unfold push in Hr. destruct (Nat.eqb_spec (length (_object_queue (shared c))) max) as [|E]; [done|]. injection Hr as <-.
    split; cbn; [rewrite length_app; cbn; lia|by rewrite H2, app_assoc|].
    eapply insert_ok; [exact Hi|congruence|exact H3|apply wake_empty_notifying| |].
    + intros P. by apply thread_ok_ready.
    + intros u P. unfold thread_ok, wake_empty. destruct (at_ u) eqn:Eu; rewrite ?Eu; cbn; try done. by intros [? _].
  - split; cbn; [done|done|]. apply lookup_lt_Some in Hi as Hlt. apply Forall_insert_at; [|by unfold thread_ok, move; cbn; eauto].
    eapply Forall_impl; [exact H3|]. intros u. unfold thread_ok. destruct (at_ u); try done; [|naive_solver].
    intros (? & _ & ?). split_and!; [done|right; by apply notifier_insert_same|done].
  - split; cbn; [done|done|]. apply Forall_fmap, Forall_fmap. apply Forall_insert_at.
    + eapply Forall_impl; [exact H3|]. intros u. unfold thread_ok, wake_full, wake_empty. cbn.
      destruct (at_ u) eqn:Eu; rewrite ?Eu; cbn; rewrite ?Eu; done.
    + by apply thread_ok_ready.
Qed.

Lemma queue_reachable_invariant programs c : reachable max programs c -> invariant c.
Proof.
  unfold reachable. revert c. apply rtc_ind_r; [apply queue_initial_invariant|].
  intros c c' _ [Hs|Hs] IH; [by eapply queue_step_invariant|by eapply spurious_invariant].
Qed.
End Invariant.

(** ** Termination and progress *)

Section Progress.
Context {T : Type} (max : nat).
Implicit Types (c : config T) (t : thread T).

(** Each operation left is worth a wakeup of every thread. *)
Definition weight (n : nat) (t : thread T) : nat :=
  (n + 2) * length (program t) + match at_ t with Ready => 1 | _ => 0 end.

Definition work (c : config T) : nat := sum_list_with (weight (length (threads c))) (threads c).

Lemma sum_fmap_le {A} (f : A -> nat) (g : A -> A) (l : list A) :
  (forall x, f (g x) <= f x + 1)%nat -> (sum_list_with f (g <$> l) <= sum_list_with f l + length l)%nat.
Proof. intros Hg. induction l as [|x l IH]; [done|]. rewrite fmap_cons. cbn [sum_list_with length]. specialize (Hg x). lia. Qed.

Lemma wake_full_weight n t : (weight n (wake_full t) <= weight n t + 1)%nat.
Proof. unfold weight, wake_full. destruct (at_ t) eqn:E; cbn; rewrite ?E; lia. Qed.

Lemma wake_both_weight n t : (weight n (wake_full (wake_empty t)) <= weight n t + 1)%nat.
Proof. unfold weight, wake_full, wake_empty. destruct (at_ t) eqn:E; cbn; rewrite ?E; cbn; lia. Qed.

Lemma wake_empty_weight n t : (weight n (wake_empty t) <= weight n t + 1)%nat.
Proof. unfold weight, wake_empty. destruct (at_ t) eqn:E; cbn; rewrite ?E; lia. Qed.

(** An operation that ends pays for the threads it wakes. *)
Lemma complete_less (g : thread T -> thread T) (ts : list (thread T)) i t t' op ops :
  ts !! i = Some t -> program t = op :: ops -> program t' = ops ->
  (forall n u, weight n (g u) <= weight n u + 1)%nat ->
  (sum_list_with (weight (length ts)) (g <$> <[i := t']> ts) < sum_list_with (weight (length ts)) ts)%nat.
Proof.
  intros Hi Hp Hp' Hg. pose proof (sum_fmap_le (weight (length ts)) g (<[i := t']> ts) (Hg _)) as Hle.
  rewrite length_insert in Hle. pose proof (sum_insert (weight (length ts)) i t t' ts Hi) as Hs.
  unfold weight in Hs at 2 4. rewrite Hp, Hp' in Hs. cbn [length] in Hs. destruct (at_ t), (at_ t'); lia.
Qed.

Lemma update_less (ts : list (thread T)) i t p : ts !! i = Some t -> at_ t = Ready -> p <> Ready ->
  (sum_list_with (weight (length ts)) (<[i := move p t]> ts) < sum_list_with (weight (length ts)) ts)%nat.
Proof.
  intros Hi Ht Hp. pose proof (sum_insert (weight (length ts)) i t (move p t) ts Hi) as Hs.
  unfold weight in Hs at 2 4. rewrite Ht in Hs. cbn [move program at_] in Hs. destruct p; [done|lia..].
Qed.

Lemma queue_step_work c c' : step max c c' -> invariant max c -> (work c' < work c)%nat.
Proof.
  intros Hstep [_ _ H3]. unfold work.
  destruct Hstep as [i t c ops Hi Ht Hp Hr|i t c ops Hi Ht Hp Hr|i t c ops item q Hi Ht Hp Hr|i t c ops item Hi Ht Hp Hr
    |i t c ops item q Hi Ht Hp Hr|i t c ops Hi Ht Hp|i t c Hi Ht]; cbn [threads update];
    rewrite ?length_fmap, ?length_insert.
  - by apply update_less.
  - pose proof (complete_less id _ i t (next_result None t) _ _ Hi Hp) as Hc. rewrite list_fmap_id in Hc.
    apply Hc; [cbn; by rewrite Hp|intros; cbn; lia].
  - eapply complete_less; [done..|cbn; by rewrite Hp|apply wake_full_weight].
  - by apply update_less.
  - eapply complete_less; [done..|cbn; by rewrite Hp|apply wake_empty_weight].
  - by apply update_less.
  - eapply Forall_lookup_1 in H3; [|exact Hi]. unfold thread_ok in H3. rewrite Ht in H3. destruct H3 as (_ & ops & Hp).
    rewrite <- list_fmap_compose. eapply complete_less; [done..|cbn; by rewrite Hp|]. intros n u. apply wake_both_weight.
Qed.

Lemma queue_nsteps_work n : forall c c', invariant max c -> nsteps (step max) n c c' -> (n <= work c)%nat.
Proof.
  induction n as [|n IH]; intros c c' Hinv Hn; [lia|]. inversion Hn as [|? ? c1 ? Hs Hn']; subst.
  pose proof (queue_step_work _ _ Hs Hinv). apply IH in Hn'; [lia|]. by eapply queue_step_invariant.
Qed.

Definition stuck c : Prop := forall c', ~ step max c c'.

(** Finished, or rightly waiting. *)
Definition settled (q : queue T) (t : thread T) : Prop :=
  program t = [] \/
  (at_ t = Wait_not_empty /\ _object_queue q = [] /\ _done q = false) \/
  (at_ t = Wait_not_full /\ length (_object_queue q) = max).

Lemma ready_steps c i t : threads c !! i = Some t -> at_ t = Ready -> program t <> [] -> exists c', step max c c'.
Proof.
  intros Hi Ht Hp. destruct (program t) as [|[x| |] ops] eqn:E; [done|..].
  - destruct (push max x (shared c)) as [q|] eqn:Er; eexists; [by eapply step_push|by eapply step_push_wait].
  - destruct (try_pop (shared c)) as [| |x q] eqn:Er; eexists;
      [by eapply step_pop_wait|by eapply step_pop_false|by eapply step_pop_item].
  - eexists. by eapply step_set_done.
Qed.

Lemma stuck_settled c : invariant max c -> stuck c -> Forall (settled (shared c)) (threads c).
Proof.
  intros [_ _ H3] Hst. apply Forall_lookup_2. intros i t Hi. pose proof (Forall_lookup_1 _ _ _ _ H3 Hi) as Hok.
  unfold thread_ok in Hok. destruct (at_ t) eqn:Ht.
  - left. destruct (program t) eqn:E; [done|]. exfalso.
    destruct (ready_steps c i t) as [c' Hs]; [done|done|by rewrite E|by apply (Hst c')].
  - right; right. by destruct Hok.
  - right; left. destruct Hok as (Hq & [Hd|Hn] & _); [done|]. exfalso.
    apply Exists_exists in Hn as (u & Hu & Hat). apply list_elem_of_lookup in Hu as [j Hj].
    eapply Hst. by eapply step_notify.
  - exfalso. eapply Hst. by eapply step_notify.
Qed.
End Progress.

(** A run to instantiate the properties with: a consumer that finds the queue empty and waits, a producer
    that pushes and wakes it, the consumer that pops. *)
Definition sample_programs : list (list (operation nat)) := [[Push 7%nat; Set_done]; [Try_pop; Try_pop]].
Definition sample_config : config nat :=
  {| shared := {| _object_queue := []; _done := false |};
     threads := [{| program := [Set_done]; at_ := Ready; results := [] |};
                 {| program := [Try_pop]; at_ := Ready; results := [Some 7%nat] |}];
     pushed := [7%nat]; popped := [7%nat] |}.

Lemma sample_reachable : reachable 1 sample_programs sample_config.
Proof.
  eapply rtc_l; [left; by apply (step_pop_wait 1 1 (start [Try_pop; Try_pop]) (initial sample_programs) [Try_pop])|].
  eapply rtc_l; [left; by eapply (step_push 1 0 (start [Push 7%nat; Set_done]))|].
  eapply rtc_l; [left; by eapply (step_pop_item 1 1 (start [Try_pop; Try_pop]))|]. apply rtc_refl.
Qed.

(** ** Properties *)

(** C18: under every interleaving, spurious wakeups included, the queue is first in first out and bounded: what
    has been pushed is what has been popped followed by what the queue holds, never more than [_max_size]. *)
Theorem queue_fifo {T} (max_size : nat) (programs : list (list (operation T))) (c : config T) :
  reachable max_size programs c ->
  pushed c = popped c ++ _object_queue (shared c) /\ (length (_object_queue (shared c)) <= max_size)%nat.
Proof. intros Hr. apply queue_reachable_invariant in Hr as [H1 H2 _]. done. Qed.

Lemma queue_fifo_witness : pushed sample_config = popped sample_config ++ _object_queue (shared sample_config).
Proof. apply (queue_fifo 1 sample_programs sample_config sample_reachable). Defined.

(** C19: no wakeup is lost. From every reachable state a run without spurious wakeups makes a bounded number
    of steps, and where no step is possible every thread has finished, or waits in [try_pop] on a queue that is
    empty and not done, or waits in [push] on a full one. So once [set_done] has run, every [try_pop] returns. *)
Theorem queue_progress {T} (max_size : nat) (programs : list (list (operation T))) (c : config T) :
  reachable max_size programs c ->
  (forall n c', nsteps (step max_size) n c c' -> (n <= work c)%nat) /\
  (stuck max_size c -> Forall (settled max_size (shared c)) (threads c)).
Proof.
  intros Hr. apply queue_reachable_invariant in Hr. split; [intros n c'; by apply queue_nsteps_work|by apply stuck_settled].
Qed.

Lemma queue_progress_witness : ~ exists c', nsteps (step 1) 11 sample_config c'.
Proof.
  intros [c' Hn]. apply (queue_progress 1 sample_programs sample_config sample_reachable) in Hn. cbn in Hn. lia.
Defined.
