(* ===== verification/AllReduce.v ===== *)
(** * All-reduce between threads

    [all_reduce_threads] and the barrier [all_reduce_sync] of [allreduce/allreduce.h], under every interleaving.
    Each thread makes a number of [all_reduce] calls on its buffer. A step is one critical section of the
    barrier, one registration of a buffer, or one read-modify-write of one element; the store maps a node and
    an index to an element of that node's buffer. A thread waiting at the barrier goes on when its predicate
    holds: [notify_all] is called with the mutex held, so no waiter can miss it. *)

From stdpp Require Import relations.
From S2P Require Import Prelude.

Section AllReduce.
Context {T : Type} (f : T -> T -> T) (total n : nat).

(** ** The share of a node *)

Definition block_size : nat := n / total.

Definition begin_of (node : nat) : nat :=
  if (block_size =? 0)%nat then (if (node <? n)%nat then node else 0)%nat else (node * block_size)%nat.

Definition end_of (node : nat) : nat :=
  if (block_size =? 0)%nat then (if (node <? n)%nat then node + 1 else 0)%nat
  else if (node =? total - 1)%nat then n else ((node + 1) * block_size)%nat.

(** ** State *)

(** Where a thread is in [all_reduce]: registering its buffer, arriving at a barrier ([true] for the first),
    waiting there with the run it read, at the test of the index loop, and in the two inner loops. *)
Inductive position :=
| Register
| Arrive (first : bool)
| Wait (first : bool) (current_run : bool)
| Index (index : nat)
| Reduce (index i : nat)
| Broadcast (index i : nat).

Record thread := { calls : nat; at_ : position }.

Record config := {
  mem : nat -> nat -> T;
  buffers : nat -> bool;
  _count : nat;
  _run : bool;
  threads : list thread
}.

Definition store (i k : nat) (v : T) (m : nat -> nat -> T) : nat -> nat -> T :=
  fun i' k' => if decide (i' = i /\ k' = k) then v else m i' k'.

(** What follows a barrier. *)
Definition passed (first : bool) (node : nat) (t : thread) : thread :=
  if first then {| calls := calls t; at_ := Index (begin_of node) |} else {| calls := calls t - 1; at_ := Register |}.

Definition goto (p : position) (t : thread) : thread := {| calls := calls t; at_ := p |}.

(** [wait_for_synchronization], up to its wait: the barrier, and the run to wait for the end of. *)
Definition arrive (count : nat) (run : bool) : nat * bool * option bool :=
  let count := S count in
  if (total <=? count)%nat then (0%nat, negb run, None) else (count, run, Some run).

(** One step of the thread [node]; [None] when it is finished or waiting. *)
Definition thread_step (node : nat) (t : thread) (c : config) : option config :=
  let put m b count run t :=
    Some {| mem := m; buffers := b; _count := count; _run := run; threads := <[node := t]> (threads c) |} in
  let go p := put (mem c) (buffers c) (_count c) (_run c) (goto p t) in
  match calls t, at_ t with
  | O, _ => None
  | _, Register =>
      put (mem c) (fun i => if decide (i = node) then true else buffers c i) (_count c) (_run c) (goto (Arrive true) t)
  | _, Arrive first =>
      match arrive (_count c) (_run c) with
      | (count, run, None) => put (mem c) (buffers c) count run (passed first node t)
      | (count, run, Some current_run) => put (mem c) (buffers c) count run (goto (Wait first current_run) t)
      end
  | _, Wait first current_run =>
      if eqb (_run c) current_run then None else put (mem c) (buffers c) (_count c) (_run c) (passed first node t)
  | _, Index index => go (if (index <? end_of node)%nat then Reduce index 1 else Arrive false)
  | _, Reduce index i =>
      if (i <? total)%nat
      then put (store 0 index (f (mem c 0%nat index) (mem c i index)) (mem c)) (buffers c) (_count c) (_run c) (goto (Reduce index (S i)) t)
      else go (Broadcast index 1)
  | _, Broadcast index i =>
      if (i <? total)%nat
      then put (store i index (mem c 0%nat index) (mem c)) (buffers c) (_count c) (_run c) (goto (Broadcast index (S i)) t)
      else go (Index (S index))
  end.

Inductive step : config -> config -> Prop :=
| step_thread node t c c' : threads c !! node = Some t -> thread_step node t c = Some c' -> step c c'.

(** [rounds] calls by each thread. *)
Definition initial (m : nat -> nat -> T) (rounds : nat) : config :=
  {| mem := m; buffers := fun _ => false; _count := 0; _run := true;
     threads := replicate total {| calls := rounds; at_ := Register |} |}.

Definition finished (c : config) : Prop := Forall (fun t => calls t = 0%nat) (threads c).

(** ** Specification: after a call every buffer holds the reduction of all of them *)

Definition reduced (m : nat -> nat -> T) (k : nat) : T :=
  fold_left (fun x i => f x (m i k)) (seq 1 (total - 1)) (m 0%nat k).

Definition all_reduced (m : nat -> nat -> T) (i k : nat) : T := if (k <? n)%nat then reduced m k else m i k.
End AllReduce.

(** ** The shares partition the indices *)

Section Shares.
Context (total n : nat).
Hypothesis total_pos : (0 < total)%nat.

Definition owns (node k : nat) : Prop := (begin_of total n node <= k < end_of total n node)%nat.

Lemma owns_bound node k : owns node k -> (node < total)%nat -> (k < n)%nat.
Proof using total_pos.
  unfold owns, begin_of, end_of, block_size. intros Ho Hn. destruct (Nat.eqb_spec (n / total) 0) as [E|E].
  - destruct (Nat.ltb_spec node n); lia.
  - destruct (Nat.eqb_spec node (total - 1)); [lia|]. pose proof (Nat.Div0.mul_div_le n total).
    assert ((node + 1) * (n / total) <= total * (n / total))%nat by (apply Nat.mul_le_mono_r; lia). lia.
Qed.

Lemma owns_unique node node' k : owns node k -> owns node' k -> (node < total)%nat -> (node' < total)%nat -> node = node'.
Proof using total_pos.
  unfold owns, begin_of, end_of, block_size. intros H1 H2 Hn Hn'. destruct (Nat.eqb_spec (n / total) 0) as [E|E].
  - destruct (Nat.ltb_spec node n), (Nat.ltb_spec node' n); lia.
  - destruct (Nat.lt_trichotomy node node') as [Hlt|[|Hlt]]; [|done|]; exfalso.
    + assert ((node + 1) * (n / total) <= node' * (n / total))%nat by (apply Nat.mul_le_mono_r; lia).
      destruct (Nat.eqb_spec node (total - 1)); lia.
    + assert ((node' + 1) * (n / total) <= node * (n / total))%nat by (apply Nat.mul_le_mono_r; lia).
      destruct (Nat.eqb_spec node' (total - 1)); lia.
Qed.

Lemma owns_cover k : (k < n)%nat -> exists node, (node < total)%nat /\ owns node k.
Proof using total_pos.
  intros Hk. unfold owns, begin_of, end_of, block_size. destruct (Nat.eqb_spec (n / total) 0) as [E|E].
  - apply Nat.div_small_iff in E; [|lia]. exists k. split; [lia|]. destruct (Nat.ltb_spec k n); lia.
  - destruct (Nat.lt_ge_cases (k / (n / total)) (total - 1)) as [Hlt|Hge].
    + exists (k / (n / total))%nat. split; [lia|]. destruct (Nat.eqb_spec (k / (n / total)) (total - 1)); [lia|].
      pose proof (Nat.div_mod k (n / total) E). pose proof (Nat.mod_upper_bound k (n / total) E). lia.
    + exists (total - 1)%nat. split; [lia|]. rewrite Nat.eqb_refl.
      pose proof (Nat.div_mod k (n / total) E). assert ((total - 1) * (n / total) <= k / (n / total) * (n / total))%nat by (apply Nat.mul_le_mono_r; lia). lia.
Qed.
End Shares.

(** ** The invariant *)

Section Invariant.
Context {T : Type} (f : T -> T -> T) (total n : nat).
Context (m0 : nat -> nat -> T) (rounds : nat).
Hypothesis total_pos : (0 < total)%nat.
Implicit Types (c : config (T := T)) (t : thread) (o : nat -> nat -> T).

(** The store after [r] calls. *)
Definition after (r : nat) : nat -> nat -> T := Nat.iter r (all_reduced f total n) m0.

Lemma after_S r i k : (k < n)%nat -> after (S r) i k = reduced f total (after r) k.
Proof. intros Hk. unfold after, all_reduced at 1. cbn [Nat.iter nat_rect]. by rewrite (proj2 (Nat.ltb_lt _ _) Hk). Qed.

(** The first element of a column once the rows below [j] are added to it. *)
Definition partial o (j k : nat) : T := fold_left (fun x i => f x (o i k)) (seq 1 (j - 1)) (o 0%nat k).

(** An element during the second half of a call, from where its owner is; [o] is the store the call started from. *)
Definition cell o t (i k : nat) : T :=
  match at_ t with
  | Register | Arrive true | Wait true _ => o i k
  | Arrive false | Wait false _ => reduced f total o k
  | Index x => if (k <? x)%nat then reduced f total o k else o i k
  | Reduce x j =>
      if (k <? x)%nat then reduced f total o k
      else if (k =? x)%nat && (i =? 0)%nat then partial o j k else o i k
  | Broadcast x j =>
      if (k <? x)%nat then reduced f total o k
      else if (k =? x)%nat && (i <? j)%nat then reduced f total o k else o i k
  end.

(** The number of barriers a thread has passed. *)
Definition phase t : nat :=
  2 * (rounds - calls t) + match at_ t with Register | Arrive true | Wait true _ => 0 | _ => 1 end.

Definition arrived (run : bool) t : bool := match at_ t with Wait _ r => eqb r run | _ => false end.

Definition in_range (node : nat) t : Prop :=
  match at_ t with
  | Index x => (begin_of total n node <= x)%nat
  | Reduce x j | Broadcast x j => owns total n node x /\ (1 <= j <= total)%nat
  | _ => True
  end.

(** [g] barriers have been completed: a thread is in phase [g], or waits at the last one, which is over. *)
Definition thread_ok (g : nat) (run : bool) (node : nat) t : Prop :=
  (calls t <= rounds)%nat /\ (calls t = 0%nat -> at_ t = Register) /\ in_range node t /\
  match at_ t with
  | Wait _ r => (r = run /\ phase t = g) \/ (r <> run /\ S (phase t) = g)
  | _ => phase t = g
  end.

Definition mem_ok (g : nat) (mem : nat -> nat -> T) (ts : list thread) : Prop :=
  forall node t i k, ts !! node = Some t -> owns total n node k -> (i < total)%nat ->
  mem i k = if Nat.even g then after (g / 2) i k else cell (after (g / 2)) t i k.

Record invariant_at (g : nat) c : Prop := {
  ia_length : length (threads c) = total;
  ia_run : _run c = Nat.even g;
  ia_count : _count c = length (filter (fun t => arrived (_run c) t = true) (threads c));
  ia_less : (_count c < total)%nat;
  ia_threads : forall node t, threads c !! node = Some t -> thread_ok g (_run c) node t;
  ia_mem : mem_ok g (mem c) (threads c);
  ia_buffers : forall node t, threads c !! node = Some t -> (at_ t <> Register \/ (calls t < rounds)%nat) -> buffers c node = true
}.

Definition invariant c : Prop := exists g, invariant_at g c.

Lemma filter_insert_count (P : thread -> bool) i t t' ts : ts !! i = Some t ->
  (length (filter (fun t => P t = true) (<[i := t']> ts)) + (if P t then 1 else 0) =
   length (filter (fun t => P t = true) ts) + (if P t' then 1 else 0))%nat.
Proof.
  intros Hi. rewrite <- (take_drop_middle ts i t Hi) at 2. rewrite insert_take_drop by (by eapply lookup_lt_Some).
  rewrite !filter_app, !length_app, !filter_cons.
  repeat case_decide; destruct (P t), (P t'); try done; cbn [length]; lia.
Qed.

Lemma filter_none_count (P : thread -> bool) ts : (forall i t, ts !! i = Some t -> P t = false) ->
  length (filter (fun t => P t = true) ts) = 0%nat.
Proof.
  intros HP. induction ts as [|t ts IH]; [done|]. rewrite filter_cons_False by (by rewrite (HP 0%nat t eq_refl)).
  apply IH. intros i u Hu. by apply (HP (S i)).
Qed.

(** All the threads but one have arrived: the others are those that have. *)
Lemma filter_all_others (P : thread -> bool) node t ts :
  ts !! node = Some t -> P t = false -> (length ts <= S (length (filter (fun t => P t = true) ts)))%nat ->
  forall i u, ts !! i = Some u -> i <> node -> P u = true.
Proof.
  intros Hn Ht Hl i u Hi Hne. destruct (P u) eqn:Hu; [done|]. exfalso.
  revert node i Hn Hi Hne Hl. induction ts as [|v ts IH]; intros [|node] [|i] Hn Hi Hne Hl; try done; cbn in Hn, Hi.
  all: rewrite filter_cons in Hl; cbn [length] in Hl; pose proof (length_filter (fun t => P t = true) ts) as Hlf.
  - injection Hn as ->. rewrite decide_False in Hl by (by rewrite Ht).
    assert (length (filter (fun t => P t = true) ts) < length ts)%nat; [|lia].
    apply (length_filter_lt _ _ u); [by eapply list_elem_of_lookup_2|by rewrite Hu].
  - injection Hi as ->. rewrite decide_False in Hl by (by rewrite Hu).
    assert (length (filter (fun t => P t = true) ts) < length ts)%nat; [|lia].
    apply (length_filter_lt _ _ t); [by eapply list_elem_of_lookup_2|by rewrite Ht].
  - apply (IH node i); [done|done|lia|]. case_decide; cbn [length] in Hl; lia.
Qed.

Lemma initial_invariant : invariant (initial total m0 rounds).
Proof using total_pos.
  exists 0%nat. assert (forall node t, threads (initial total m0 rounds) !! node = Some t -> t = {| calls := rounds; at_ := Register |}) as Hl.
  { intros node t Hl. by apply lookup_replicate in Hl as [-> _]. }
  split; try done.
  - apply length_replicate.
  - cbn [_count initial _run]. symmetry. apply filter_none_count. intros i t Hi. by rewrite (Hl i t Hi).
  - intros node t Ht. rewrite (Hl _ _ Ht). unfold thread_ok, phase. cbn. split_and!; [lia|done|done|lia].
  - intros node t Ht. rewrite (Hl _ _ Ht). cbn. intros [?|?]; [done|lia].
Qed.
Lemma lookup_node c g node t : invariant_at g c -> threads c !! node = Some t -> (node < total)%nat.
Proof. intros Hinv Ht. rewrite <- (ia_length _ _ Hinv). by eapply lookup_lt_Some. Qed.

(** A step of one thread between two barriers. *)
Lemma advance g c node t t' mem' bufs' count' :
  invariant_at g c -> threads c !! node = Some t -> arrived (_run c) t = false ->
  (count' = _count c + if arrived (_run c) t' then 1 else 0)%nat -> (count' < total)%nat ->
  thread_ok g (_run c) node t' ->
  (forall i k, owns total n node k -> (i < total)%nat ->
    mem' i k = if Nat.even g then after (g / 2) i k else cell (after (g / 2)) t' i k) ->
  (forall i k, ~ owns total n node k -> mem' i k = mem c i k) ->
  (forall i, buffers c i = true -> bufs' i = true) ->
  ((at_ t' <> Register \/ (calls t' < rounds)%nat) -> bufs' node = true) ->
  invariant_at g {| mem := mem'; buffers := bufs'; _count := count'; _run := _run c; threads := <[node := t']> (threads c) |}.
Proof using total_pos.
  intros Hinv Ht Ha Hc Hless Hok Hown Hother Hb Hb'. pose proof (lookup_node _ _ _ _ Hinv Ht) as Hnode.
  assert (forall node' u, <[node := t']> (threads c) !! node' = Some u ->
    node' = node /\ u = t' \/ node' <> node /\ threads c !! node' = Some u) as Hlk.
  { intros node' u Hu. apply list_lookup_insert_Some in Hu as [(-> & -> & _)|(Hne & Hu)]; [by left|right; by split]. }
  split; cbn; try apply Hinv.
  - rewrite length_insert. apply Hinv.
  - pose proof (filter_insert_count (arrived (_run c)) node t t' _ Ht) as Hf. rewrite Ha in Hf.
    rewrite Hc, (ia_count _ _ Hinv). lia.
  - done.
  - intros node' u Hu. destruct (Hlk _ _ Hu) as [[-> ->]|[Hne Hu']]; [done|by apply (ia_threads _ _ Hinv)].
  - intros node' u i k Hu Ho Hi. destruct (Hlk _ _ Hu) as [[-> ->]|[Hne Hu']]; [by apply Hown|].
    rewrite Hother; [by eapply (ia_mem _ _ Hinv)|]. intros Ho'. apply Hne.
    eapply (owns_unique total n total_pos); [exact Ho|exact Ho'| |done]. by eapply lookup_node.
  - intros node' u Hu Hr. destruct (Hlk _ _ Hu) as [[-> ->]|[Hne Hu']]; [by apply Hb'|]. apply Hb.
    by eapply (ia_buffers _ _ Hinv).
Qed.

(** The last arrival at a barrier. *)
Lemma complete g c node t b :
  invariant_at g c -> threads c !! node = Some t -> at_ t = Arrive b -> calls t <> 0%nat -> (total <= S (_count c))%nat ->
  invariant_at (S g) {| mem := mem c; buffers := buffers c; _count := 0; _run := negb (_run c);
                        threads := <[node := passed total n b node t]> (threads c) |}.
Proof using total_pos.
  intros Hinv Ht Hat Hcalls Hlast. pose proof (lookup_node _ _ _ _ Hinv Ht) as Hnode.
  pose proof (ia_threads _ _ Hinv _ _ Ht) as (Hle & _ & _ & Hph). rewrite Hat in Hph.
  assert (forall i u, threads c !! i = Some u -> i <> node -> exists b', at_ u = Wait b' (_run c) /\ phase u = g) as Hothers.
  { intros i u Hu Hne. pose proof (filter_all_others (arrived (_run c)) node t (threads c) Ht) as Hall.
    rewrite <- (ia_count _ _ Hinv), (ia_length _ _ Hinv) in Hall.
    specialize (Hall ltac:(unfold arrived; by rewrite Hat) Hlast i u Hu Hne). unfold arrived in Hall.
    pose proof (ia_threads _ _ Hinv _ _ Hu) as (_ & _ & _ & Hpu).
    destruct (at_ u) as [| |b' r| | |]; try done. apply eqb_prop in Hall as ->. exists b'. split; [done|].
    destruct Hpu as [[_ Hp]|[? _]]; done. }
  assert (forall u, phase u = g -> (exists b', at_ u = Wait b' (_run c)) -> at_ u = Wait b (_run c)) as Hsame.
  { intros u Hu [b' Hb']. rewrite Hb'. unfold phase in Hph, Hu. rewrite Hat in Hph. rewrite Hb' in Hu. destruct b, b'; try done; lia. }
  assert (forall node' u, <[node := passed total n b node t]> (threads c) !! node' = Some u ->
    node' = node /\ u = passed total n b node t \/ node' <> node /\ threads c !! node' = Some u /\ at_ u = Wait b (_run c) /\ phase u = g) as Hlk.
  { intros node' u Hu. apply list_lookup_insert_Some in Hu as [(-> & -> & _)|(Hne & Hu)]; [by left|right].
    destruct (Hothers _ _ Hu) as (b' & Hb' & Hp); [done|]. split_and!; [done|done|apply Hsame; eauto|done]. }
  set (r := (rounds - calls t)%nat).
  assert (Nat.even g = b /\ (g / 2 = r)%nat /\ (S g / 2 = if b then r else S r)%nat) as (Heven & Hr & Hr').
  { unfold phase in Hph. rewrite Hat in Hph. fold r in Hph. rewrite <- Hph. destruct b.
    - rewrite Nat.add_0_r, Nat.even_mul. split_and!; [done|symmetry; apply (Nat.div_unique _ _ _ 0); lia|symmetry; apply (Nat.div_unique _ _ _ 1); lia].
    - rewrite Nat.add_1_r, Nat.even_succ, Nat.odd_mul. split_and!; [done|symmetry; apply (Nat.div_unique _ _ _ 1); lia|symmetry; apply (Nat.div_unique _ _ _ 0); lia]. }
  split; cbn [mem buffers _count _run threads].
  - rewrite length_insert. apply Hinv.
  - by rewrite (ia_run _ _ Hinv), Nat.even_succ, Nat.negb_even.
  - symmetry. apply filter_none_count. intros i u Hu. destruct (Hlk _ _ Hu) as [[-> ->]|(_ & _ & Hw & _)].
    + by destruct b.
    + unfold arrived. rewrite Hw. by destruct (_run c).
  - done.
  - intros node' u Hu. destruct (Hlk _ _ Hu) as [[-> ->]|(_ & Hu' & Hw & Hp)].
    + unfold phase in Hph. rewrite Hat in Hph. unfold thread_ok, phase. destruct b; cbn; split_and!; try done; lia.
    + pose proof (ia_threads _ _ Hinv _ _ Hu') as (H1 & H2 & H3 & _). unfold thread_ok. rewrite Hw. split_and!; [done|intros Hc; by rewrite (H2 Hc) in Hw|exact H3|].
      right. split; [by destruct (_run c)|lia].
  - intros node' u i k Hu Ho Hi. rewrite Nat.even_succ, <- Nat.negb_even, Heven, Hr'.
    destruct (Hlk _ _ Hu) as [[-> ->]|(_ & Hu' & Hw & Hp)].
    + rewrite (ia_mem _ _ Hinv _ _ i k Ht Ho Hi), Heven, Hr. unfold cell. rewrite Hat. destruct b; cbn [passed at_ negb].
      * destruct (Nat.ltb_spec k (begin_of total n node)); [|done]. unfold owns in Ho. lia.
      * symmetry. apply after_S. by eapply owns_bound.
    + rewrite (ia_mem _ _ Hinv _ _ i k Hu' Ho Hi), Heven, Hr. unfold cell. rewrite Hw. destruct b; cbn [negb]; [done|].
      symmetry. apply after_S. eapply owns_bound; [done|exact Ho|by eapply lookup_node].
  - intros node' u Hu _. destruct (Hlk _ _ Hu) as [[-> ->]|(_ & Hu' & Hw & _)].
    + apply (ia_buffers _ _ Hinv _ _ Ht). left. congruence.
    + apply (ia_buffers _ _ Hinv _ _ Hu'). left. congruence.
Qed.

Lemma phase_parity g run node t : thread_ok g run node t ->
  match at_ t with Index _ | Reduce _ _ | Broadcast _ _ => Nat.even g = false | _ => True end.
Proof.
  intros (_ & _ & _ & Hp). unfold phase in Hp. destruct (at_ t); try done; subst g; by rewrite Nat.add_1_r, Nat.even_succ, Nat.odd_mul.
Qed.

Lemma partial_S o j k : (1 <= j)%nat -> partial o (S j) k = f (partial o j k) (o j k).
Proof.
  intros Hj. unfold partial. replace (S j - 1)%nat with (S (j - 1)) by lia. rewrite seq_S, fold_left_app. cbn.
  do 2 f_equal. lia.
Qed.

(** A step that changes only the position of a thread. *)
Lemma advance_goto g c node t p : 
  invariant_at g c -> threads c !! node = Some t -> calls t <> 0%nat -> at_ t <> Register ->
  arrived (_run c) t = false -> arrived (_run c) (goto p t) = false ->
  in_range node (goto p t) -> (forall r, p <> Wait true r /\ p <> Wait false r) -> p <> Register -> phase (goto p t) = g ->
  (forall i k, owns total n node k -> (i < total)%nat -> Nat.even g = false ->
    cell (after (g / 2)) (goto p t) i k = cell (after (g / 2)) t i k) ->
  invariant_at g {| mem := mem c; buffers := buffers c; _count := _count c; _run := _run c;
                    threads := <[node := goto p t]> (threads c) |}.
Proof using total_pos.
  intros Hinv Ht Hc Hr Ha Ha' Hrange Hw Hreg Hph Hcell. pose proof (ia_threads _ _ Hinv _ _ Ht) as (Hle & _ & _ & _).
  eapply advance; [exact Hinv|exact Ht|exact Ha|by rewrite Ha', Nat.add_0_r|apply Hinv| | |done|done|].
  - split_and!; [done|done|done|]. cbn [goto at_]. destruct p as [| |b r| | |]; try done. by destruct b, (Hw r).
  - intros i k Ho Hi. rewrite (ia_mem _ _ Hinv _ _ i k Ht Ho Hi). destruct (Nat.even g) eqn:E; [done|]. symmetry. by apply Hcell.
  - intros _. apply (ia_buffers _ _ Hinv _ _ Ht). by left.
Qed.

Lemma step_invariant c c' : step f total n c c' -> invariant c -> invariant c'.
Proof using total_pos.
  intros [node t c0 c1 Ht Hs] [g Hinv]. pose proof (lookup_node _ _ _ _ Hinv Ht) as Hnode.
  pose proof (ia_threads _ _ Hinv _ _ Ht) as Hok. pose proof (phase_parity _ _ _ _ Hok) as Hpar.
  destruct Hok as (Hle & Hz & Hrange & Hph). unfold thread_step in Hs.
  assert (forall i k, owns total n node k -> (i < total)%nat -> mem c0 i k = if Nat.even g then after (g / 2) i k else cell (after (g / 2)) t i k) as Hown.
  { intros i k. by apply (ia_mem _ _ Hinv). }
  assert (at_ t <> Register -> buffers c0 node = true) as Hbuf by (intros; apply (ia_buffers _ _ Hinv _ _ Ht); by left).
  unfold in_range in Hrange. unfold cell in Hown.
  destruct (calls t) as [|k0] eqn:Ecalls; [done|]. destruct (at_ t) as [|b|b r|x|x j|x j] eqn:Hat.
  - injection Hs as <-. exists g. eapply advance; [exact Hinv|exact Ht|by unfold arrived; rewrite Hat|cbn; lia|apply Hinv| |exact Hown|done| |].
    + unfold thread_ok, phase, goto in *. rewrite Hat in Hph. cbn. rewrite Ecalls in *. split_and!; [lia|lia|done|lia].
    + intros i Hi. cbn. by destruct (decide (i = node)).
    + intros _. cbn. by rewrite decide_True.
  - unfold arrive in Hs. destruct (Nat.leb_spec total (S (_count c0))).
    + injection Hs as <-. exists (S g). apply complete; [done|done|done|lia|done].
    + injection Hs as <-. exists g. eapply advance; [exact Hinv|exact Ht|by unfold arrived; rewrite Hat| |done| |exact Hown|done|done|].
      * cbn. rewrite eqb_reflx. lia.
      * unfold thread_ok, phase, goto in *. rewrite Hat in Hph. cbn. rewrite Ecalls in *. split_and!; [lia|lia|done|]. left. split; [done|]. by destruct b.
      * intros _. by apply Hbuf.
  - destruct (eqb (_run c0) r) eqn:Er; [done|]. injection Hs as <-. exists g.
    assert (r <> _run c0) as Hne by (intros ->; by rewrite eqb_reflx in Er).
    destruct Hph as [[? _]|[_ Hph]]; [done|]. unfold phase in Hph. rewrite Hat, Ecalls in Hph.
    eapply advance; [exact Hinv|exact Ht|unfold arrived; rewrite Hat; by destruct r, (_run c0)| |apply Hinv| | |done|done|intros _; by apply Hbuf].
    + destruct b; cbn; lia.
    + unfold thread_ok, phase. destruct b; cbn [passed calls at_ in_range]; rewrite ?Ecalls; split_and!; try done; lia.
    + intros i k Ho Hi. rewrite (Hown i k Ho Hi). destruct b; cbn [passed at_ cell].
      * destruct (Nat.ltb_spec k (begin_of total n node)); [|by destruct (Nat.even g)]. unfold owns in Ho. lia.
      * replace g with (2 * S (rounds - S k0))%nat by lia. by rewrite Nat.even_mul.
  - injection Hs as <-. exists g. unfold phase in Hph. rewrite Hat, Ecalls in Hph.
    destruct (Nat.ltb_spec x (end_of total n node)) as [Hx|Hx];
      (apply advance_goto; [exact Hinv|exact Ht|lia|congruence|unfold arrived; by rewrite Hat|done| |done|done| |]).
    + cbn. unfold owns. lia.
    + unfold phase. cbn. rewrite Ecalls. lia.
    + intros i k Ho Hi _. unfold cell, partial. cbn [goto at_]. rewrite Hat. destruct (Nat.ltb_spec k x); [done|].
      destruct (Nat.eqb_spec k x) as [->|]; [|done]. by destruct i.
    + done.
    + unfold phase. cbn. rewrite Ecalls. lia.
    + intros i k Ho Hi _. unfold cell. cbn [goto at_]. rewrite Hat. destruct (Nat.ltb_spec k x); [done|]. unfold owns in Ho. lia.
  - destruct Hrange as [Hx Hj]. unfold phase in Hph. rewrite Hat, Ecalls in Hph. destruct (Nat.ltb_spec j total) as [Hjt|Hjt].
    + injection Hs as <-. exists g.
      eapply advance; [exact Hinv|exact Ht|unfold arrived; by rewrite Hat|cbn; lia|apply Hinv| | | |done|intros _; by apply Hbuf].
      * unfold thread_ok, phase. cbn. rewrite Ecalls. split_and!; [lia|lia|done|lia|lia|lia].
      * intros i k Ho Hi. unfold store. rewrite Hpar in *. cbn [cell goto at_].
        pose proof (Hown 0%nat x Hx total_pos) as H0. pose proof (Hown j x Hx Hjt) as Hjx.
        rewrite (proj2 (Nat.ltb_ge x x)), Nat.eqb_refl in H0, Hjx by lia. cbn in H0. 
        destruct j as [|j]; [lia|]. rewrite H0, Hjx. case_decide as Hd.
        -- destruct Hd as [-> ->]. rewrite (proj2 (Nat.ltb_ge x x)), Nat.eqb_refl by lia. symmetry. apply partial_S. lia.
        -- rewrite (Hown i k Ho Hi). destruct (Nat.ltb_spec k x); [done|]. destruct (Nat.eqb_spec k x) as [->|]; [|done].
           destruct i; [naive_solver|done].
      * intros i k Ho. unfold store. case_decide as Hd; [|done]. by destruct Hd as [-> ->].
    + injection Hs as <-. exists g.
      apply advance_goto; [exact Hinv|exact Ht|lia|congruence|unfold arrived; by rewrite Hat|done| |done|done| |].
      * cbn. split; [done|lia].
      * unfold phase. cbn. rewrite Ecalls. lia.
      * intros i k Ho Hi _. unfold cell. cbn [goto at_]. rewrite Hat. destruct (Nat.ltb_spec k x); [done|].
        destruct (Nat.eqb_spec k x) as [->|]; [|done]. replace j with total by lia. by destruct i.
  - destruct Hrange as [Hx Hj]. unfold phase in Hph. rewrite Hat, Ecalls in Hph. destruct (Nat.ltb_spec j total) as [Hjt|Hjt].
    + injection Hs as <-. exists g.
      eapply advance; [exact Hinv|exact Ht|unfold arrived; by rewrite Hat|cbn; lia|apply Hinv| | | |done|intros _; by apply Hbuf].
      * unfold thread_ok, phase. cbn. rewrite Ecalls. split_and!; [lia|lia|done|lia|lia|lia].
      * intros i k Ho Hi. unfold store. rewrite Hpar in *. cbn [cell goto at_].
        pose proof (Hown 0%nat x Hx total_pos) as H0.
        rewrite (proj2 (Nat.ltb_ge x x)), Nat.eqb_refl in H0 by lia. cbn [andb] in H0.
        rewrite (proj2 (Nat.ltb_lt 0 j)) in H0 by lia. rewrite H0. case_decide as Hd.
        -- destruct Hd as [-> ->]. rewrite (proj2 (Nat.ltb_ge x x)), Nat.eqb_refl by lia.
           by rewrite (proj2 (Nat.ltb_lt j (S j))) by lia.
        -- rewrite (Hown i k Ho Hi). destruct (Nat.ltb_spec k x); [done|]. destruct (Nat.eqb_spec k x) as [->|]; [|done].
           cbn [andb]. destruct (Nat.ltb_spec i j), (Nat.ltb_spec i (S j)); try done; [lia|].
           assert (i = j) by lia. naive_solver.
      * intros i k Ho. unfold store. case_decide as Hd; [|done]. by destruct Hd as [-> ->].
    + injection Hs as <-. exists g.
      apply advance_goto; [exact Hinv|exact Ht|lia|congruence|unfold arrived; by rewrite Hat|done| |done|done| |].
      * cbn. unfold owns in Hx. lia.
      * unfold phase. cbn. rewrite Ecalls. lia.
      * intros i k Ho Hi _. unfold cell. cbn [goto at_]. rewrite Hat. destruct (Nat.ltb_spec k x), (Nat.ltb_spec k (S x)); try done; [lia| |].
        -- rewrite (proj2 (Nat.eqb_eq k x)) by lia. by rewrite (proj2 (Nat.ltb_lt i j)) by lia.
        -- by rewrite (proj2 (Nat.eqb_neq k x)) by lia.
Qed.

(** *** Progress and termination *)

Definition enabled c t : bool := negb (calls t =? 0)%nat && negb (arrived (_run c) t).

Lemma enabled_steps c node t : threads c !! node = Some t -> enabled c t = true -> exists c', step f total n c c'.
Proof.
  intros Ht He. unfold enabled in He. bprop. cut (exists c', thread_step f total n node t c = Some c').
  { intros [c' Hs]. exists c'. by eapply step_thread. }
  unfold thread_step, arrived in *. destruct (calls t); [done|]. destruct (at_ t) as [|b|b r|x|x j|x j].
  - eauto.
  - unfold arrive. destruct (total <=? _)%nat; eauto.
  - destruct (eqb (_run c) r) eqn:Er; [|eauto]. apply eqb_prop in Er as <-. by rewrite eqb_reflx in *.
  - eauto.
  - destruct (j <? total)%nat; eauto.
  - destruct (j <? total)%nat; eauto.
Qed.

Lemma arrived_phase g c node t : invariant_at g c -> threads c !! node = Some t -> arrived (_run c) t = true -> phase t = g.
Proof.
  intros Hinv Ht Ha. pose proof (ia_threads _ _ Hinv _ _ Ht) as (_ & _ & _ & Hp). unfold arrived in Ha.
  destruct (at_ t); try done. apply eqb_prop in Ha. by destruct Hp as [[_ ?]|[? _]].
Qed.

Lemma progress c : invariant c -> ~ finished c -> exists c', step f total n c c'.
Proof using total_pos.
  intros [g Hinv] Hfin. destruct (decide (Exists (fun t => enabled c t = true) (threads c))) as [He|He].
  { apply Exists_exists in He as (t & Hin & He). apply list_elem_of_lookup in Hin as [node Ht]. by eapply enabled_steps. }
  exfalso. apply not_Exists_Forall in He; [|intros ?; apply _].
  assert (forall node t, threads c !! node = Some t -> calls t <> 0%nat -> arrived (_run c) t = true) as Hall.
  { intros node t Ht Hc. eapply Forall_lookup_1 in He; [|exact Ht]. cbn in He. unfold enabled in He.
    destruct (Nat.eqb_spec (calls t) 0); [done|]. by destruct (arrived (_run c) t). }
  apply Hfin. apply Forall_lookup_2. intros node t Ht. destruct (decide (calls t = 0%nat)) as [|Hc]; [done|]. exfalso.
  pose proof (arrived_phase _ _ _ _ Hinv Ht (Hall _ _ Ht Hc)) as Hpt.
  pose proof (ia_threads _ _ Hinv _ _ Ht) as (Hle & _).
  assert (forall i u, threads c !! i = Some u -> arrived (_run c) u = true) as Harr.
  { intros i u Hu. destruct (decide (calls u = 0%nat)) as [Hz|]; [|by eapply Hall]. exfalso.
    pose proof (ia_threads _ _ Hinv _ _ Hu) as (_ & Hr & _ & Hp). rewrite (Hr Hz) in Hp. unfold phase in Hp, Hpt.
    rewrite (Hr Hz), Hz in Hp. destruct (at_ t) as [|[]|[] ?| | |]; lia. }
  pose proof (ia_less _ _ Hinv) as Hl. rewrite (ia_count _ _ Hinv), <- (ia_length _ _ Hinv) in Hl.
  rewrite filter_every in Hl; [lia|]. apply Forall_lookup_2. exact Harr.
Qed.

(** What is left to do: an upper bound on the steps of a thread. *)
Definition per_index : nat := 2 * total + 3.
Definition per_call : nat := 6 + n * per_index.

Definition position_work (p : position) : nat :=
  match p with
  | Register => 6 + n * per_index
  | Arrive true => 5 + n * per_index
  | Wait true _ => 4 + n * per_index
  | Index x => 3 + (n - x) * per_index
  | Reduce x j => 3 + (n - S x) * per_index + (2 * total + 2 - j)
  | Broadcast x j => 3 + (n - S x) * per_index + (total + 1 - j)
  | Arrive false => 2
  | Wait false _ => 1
  end.

Definition thread_work t : nat := match calls t with O => 0 | S k => k * per_call + position_work (at_ t) end.
Definition work c : nat := sum_list_with thread_work (threads c).

Lemma passed_work b node t p : calls t <> 0%nat -> at_ t = p -> (p = Arrive b \/ exists r, p = Wait b r) ->
  (thread_work (passed total n b node t) < thread_work t)%nat.
Proof.
  intros Hc <- Hp. unfold thread_work. destruct (calls t) as [|k] eqn:E; [done|].
  assert ((n - begin_of total n node) * per_index <= n * per_index)%nat by (apply Nat.mul_le_mono_r; lia).
  destruct b; cbn [passed calls at_]; rewrite ?E.
  - destruct Hp as [-> | [r ->]]; cbn [position_work]; lia.
  - replace (S k - 1)%nat with k by lia. destruct k as [|k]; destruct Hp as [-> | [r ->]]; cbn [position_work]; unfold per_call; lia.
Qed.

Lemma step_work c c' : step f total n c c' -> invariant c -> (work c' < work c)%nat.
Proof using total_pos.
  intros [node t c0 c1 Ht Hs] [g Hinv]. pose proof (lookup_node _ _ _ _ Hinv Ht) as Hnode.
  pose proof (ia_threads _ _ Hinv _ _ Ht) as (_ & _ & Hrange & _).
  cut (exists t', threads c1 = <[node := t']> (threads c0) /\ (thread_work t' < thread_work t)%nat).
  { intros (t' & Hc1 & Hlt). unfold work. rewrite Hc1. pose proof (sum_insert thread_work node t t' _ Ht). lia. }
  clear c c' Hinv. unfold thread_step in Hs. unfold in_range in Hrange.
  assert (forall p, calls t <> 0%nat -> (position_work p < position_work (at_ t))%nat -> (thread_work (goto p t) < thread_work t)%nat) as Hgoto.
  { intros p Hc Hp. unfold thread_work, goto. cbn [calls at_]. destruct (calls t); [done|lia]. }
  destruct (calls t) as [|k] eqn:Ec; [done|]. rewrite <- Ec in *. assert (calls t <> 0%nat) as Hc by lia. clear Ec.
  assert (forall x, owns total n node x -> (x < n)%nat) as Hxn by (intros x Hx; by eapply owns_bound).
  assert (forall x, (x < n)%nat -> ((n - x) * per_index = (n - S x) * per_index + per_index)%nat) as Hsub.
  { intros x Hx. replace (n - x)%nat with (S (n - S x)) by lia. lia. }
  destruct (at_ t) as [|b|b r|x|x j|x j] eqn:Hat.
  - injection Hs as <-. eexists. split; [done|]. apply Hgoto; [done|]. cbn. lia.
  - unfold arrive in Hs. destruct (total <=? _)%nat; injection Hs as <-; eexists; (split; [done|]).
    + eapply passed_work; [done|exact Hat|by left].
    + apply Hgoto; [done|]. destruct b; cbn; lia.
  - destruct (eqb _ _); [done|]. injection Hs as <-. eexists. split; [done|]. eapply passed_work; [done|exact Hat|eauto].
  - injection Hs as <-. eexists. split; [done|]. apply Hgoto; [done|].
    destruct (Nat.ltb_spec x (end_of total n node)); cbn [position_work]; [|generalize ((n - x) * per_index)%nat; lia].
    rewrite (Hsub x) by (apply Hxn; unfold owns; lia). unfold per_index. lia.
  - destruct Hrange as [Hx Hj]. destruct (Nat.ltb_spec j total); injection Hs as <-; eexists; (split; [done|]);
      (apply Hgoto; [done|]); cbn [position_work]; lia.
  - destruct Hrange as [Hx Hj]. destruct (Nat.ltb_spec j total); injection Hs as <-; eexists; (split; [done|]);
      (apply Hgoto; [done|]); cbn [position_work]; lia.
Qed.

Lemma nsteps_work k : forall c c', invariant c -> nsteps (step f total n) k c c' -> (k <= work c)%nat.
Proof using total_pos.
  induction k as [|k IH]; intros c c' Hinv Hn; [lia|]. inversion Hn as [|? ? c1 ? Hs Hn']; subst.
  pose proof (step_work _ _ Hs Hinv). apply IH in Hn'; [lia|]. by eapply step_invariant.
Qed.

Lemma reachable_invariant c : rtc (step f total n) (initial total m0 rounds) c -> invariant c.
Proof using total_pos.
  revert c. apply rtc_ind_r; [apply initial_invariant|]. intros c c' _ Hs IH. by eapply step_invariant.
Qed.

Lemma finished_mem c : invariant c -> finished c ->
  forall i k, (i < total)%nat -> (k < n)%nat -> mem c i k = after rounds i k.
Proof using total_pos.
  intros [g Hinv] Hfin i k Hi Hk. destruct (owns_cover total n total_pos k Hk) as (node & Hnode & Ho).
  destruct (lookup_lt_is_Some_2 (threads c) node) as [t Ht]; [by rewrite (ia_length _ _ Hinv)|].
  pose proof (Forall_lookup_1 _ _ _ _ Hfin Ht) as Hz. pose proof (ia_threads _ _ Hinv _ _ Ht) as (_ & Hr & _ & Hp).
  rewrite (Hr Hz) in Hp. unfold phase in Hp. rewrite (Hr Hz), Hz in Hp.
  rewrite (ia_mem _ _ Hinv _ _ i k Ht Ho Hi). replace g with (2 * rounds)%nat by lia. rewrite Nat.even_mul.
  cbn [Nat.even orb]. by rewrite Nat.mul_comm, Nat.div_mul by lia.
Qed.

(** A thread in its index loop finds every buffer registered. *)
Lemma loop_registered c node t i : invariant c -> threads c !! node = Some t -> (i < total)%nat ->
  match at_ t with Index _ | Reduce _ _ | Broadcast _ _ => buffers c i = true | _ => True end.
Proof using total_pos.
  intros [g Hinv] Ht Hi. pose proof (ia_threads _ _ Hinv _ _ Ht) as Hok.
  destruct (lookup_lt_is_Some_2 (threads c) i) as [u Hu]; [by rewrite (ia_length _ _ Hinv)|].
  assert (match at_ t with Index _ | Reduce _ _ | Broadcast _ _ => (0 < g)%nat | _ => True end) as Hg.
  { destruct Hok as (_ & _ & _ & Hp). unfold phase in Hp. destruct (at_ t); try done; lia. }
  cut ((0 < g)%nat -> buffers c i = true); [by destruct (at_ t); auto|]. intros Hpos. apply (ia_buffers _ _ Hinv _ _ Hu).
  destruct (at_ u) eqn:Hat; [|by left..]. right. pose proof (ia_threads _ _ Hinv _ _ Hu) as (Hle & _ & _ & Hp).
  rewrite Hat in Hp. unfold phase in Hp. rewrite Hat in Hp. lia.
Qed.
End Invariant.

(** ** Running a schedule: a node that cannot step is passed over *)

Section Run.
Context {T : Type} (f : T -> T -> T) (total n : nat).

Definition run_one (c : config (T := T)) (node : nat) : config :=
  match threads c !! node with
  | Some t => default c (thread_step f total n node t c)
  | None => c
  end.

Definition run (schedule : list nat) (c : config (T := T)) : config := fold_left run_one schedule c.

Lemma run_steps schedule c : rtc (step f total n) c (run schedule c).
Proof.
  revert c. induction schedule as [|node schedule IH]; intros c; [apply rtc_refl|]. cbn.
  etrans; [|apply IH]. unfold run_one. destruct (threads c !! node) as [t|] eqn:Ht; [|apply rtc_refl].
  destruct (thread_step f total n node t c) as [c'|] eqn:Hs; [|apply rtc_refl]. apply rtc_once. by eapply step_thread.
Qed.
End Run.

(** ** Property *)

(** C1: threaded all-reduce is correct under every interleaving. From any state reached by [total] threads that
    make [rounds] calls each, runs are bounded; while a call is unfinished some thread can go on; a thread in its
    index loop finds all the buffers registered; and when all the calls have returned, every buffer holds what
    [rounds] times replacing each element by the reduction of its column gives, in node order. *)
Theorem all_reduce_correct {T} (f : T -> T -> T) (total n rounds : nat) (m0 : nat -> nat -> T) (c : config (T := T)) :
  (0 < total)%nat -> rtc (step f total n) (initial total m0 rounds) c ->
  (forall k c', nsteps (step f total n) k c c' -> (k <= work total n c)%nat) /\
  (~ finished c -> exists c', step f total n c c') /\
  (forall node t i, threads c !! node = Some t -> (i < total)%nat ->
    match at_ t with Index _ | Reduce _ _ | Broadcast _ _ => buffers c i = true | _ => True end) /\
  (finished c -> forall i k, (i < total)%nat -> (k < n)%nat ->
    mem c i k = Nat.iter rounds (all_reduced f total n) m0 i k).
Proof.
  intros Hpos Hr. apply reachable_invariant in Hr; [|done]. split_and!.
  - intros k c'. by eapply nsteps_work.
  - by eapply progress.
  - intros node t i. by eapply loop_registered.
  - by apply finished_mem.
Qed.

(** Two nodes, three elements, two calls, the nodes taking turns. *)
Definition sample_store (i k : nat) : Z := Z.of_nat (10 * i + k).
Definition sample_run : config (T := Z) :=
  run Z.add 2 3 (concat (replicate 40 [0; 1; 1]%nat)) (initial 2 sample_store 2).

Lemma all_reduce_correct_witness : mem sample_run 1 2 = 28.
Proof.
  destruct (all_reduce_correct Z.add 2 3 2 sample_store sample_run) as (_ & _ & _ & H); [lia|apply run_steps|].
  rewrite H; [vm_compute; reflexivity|vm_compute; repeat constructor|lia|lia].
Defined.
