(* ===== verification/CbEstimates.v ===== *)
(** * Contextual-bandit cost estimates

    [core/gen_cs_example.{h,cc}] and the estimates of [reductions/cb/cb_algs.h]: from the one cost that was
    observed, a cost for every action, which the cost-sensitive learner below is trained on. The code is written
    over a number format; that the estimates are unbiased is stated over the rationals. The scorer, the learner
    that predicts costs, is a parameter: a state with its [predict] and [learn]. *)

From S2P Require Import Prelude.

Section Estimates.
Context {F : Type} `{Num F}.

(** ** Data *)

Definition FLT_MAX : F := n_of_Z (2 ^ 128 - 2 ^ 104).

Record cb_class := CbClass { cost : F; action : Z; probability : F; partial_prediction : F }.
Definition cb_class_default : cb_class := CbClass FLT_MAX 0 (n_of_Z (-1)) (n_of_Z 0).

Record cs_class := CsClass { x : F; class_index : Z; cs_partial_prediction : F; wap_value : F }.
Definition set_x (v : F) (c : cs_class) : cs_class := CsClass v (class_index c) (cs_partial_prediction c) (wap_value c).

Record action_score := ActionScore { as_action : Z; as_score : F }.

(** What the estimates use of an example: weight, simple label, namespaces, contextual-bandit costs, whether it
    is an empty line, and the features, which only the scorer looks at. *)
Context {X : Type}.

Record example := Example {
  ex_weight : F; ex_label : F; ex_indices : list Z; ex_costs : list cb_class; ex_newline : bool; ex_features : X
}.

Definition set_weight (w : F) (ec : example) : example := Example w (ex_label ec) (ex_indices ec) (ex_costs ec) (ex_newline ec) (ex_features ec).
Definition set_label (l : F) (ec : example) : example := Example (ex_weight ec) l (ex_indices ec) (ex_costs ec) (ex_newline ec) (ex_features ec).
Definition set_indices (l : list Z) (ec : example) : example := Example (ex_weight ec) (ex_label ec) l (ex_costs ec) (ex_newline ec) (ex_features ec).

Definition set_costs (l : list cb_class) (ec : example) : example := Example (ex_weight ec) (ex_label ec) (ex_indices ec) l (ex_newline ec) (ex_features ec).

Definition has_cost (c : cb_class) : bool := negb (cost c =? FLT_MAX)%num.
Definition has_observed_cost (c : cb_class) : bool := has_cost c && (probability c >? n_of_Z 0)%num.

(** ** The message to the baseline reduction *)

Definition BASELINE_ENABLED_MESSAGE_NAMESPACE : Z := 137.

Definition baseline_enabled (ec : example) : bool :=
  existsb (Z.eqb BASELINE_ENABLED_MESSAGE_NAMESPACE) (ex_indices ec).

Definition set_baseline_enabled (ec : example) : example :=
  if baseline_enabled ec then ec else set_indices (ex_indices ec ++ [BASELINE_ENABLED_MESSAGE_NAMESPACE]) ec.

Fixpoint erase_first (v : Z) (l : list Z) : list Z :=
  match l with [] => [] | y :: l => if v =? y then l else y :: erase_first v l end.

Definition reset_baseline_disabled (ec : example) : example :=
  set_indices (erase_first BASELINE_ENABLED_MESSAGE_NAMESPACE (ex_indices ec)) ec.

(** ** The scorer *)

Context {L : Type}.

(** The state after the call, and [ec.pred.scalar]. *)
Record scorer := { sc_predict : L -> example -> Z -> L * F; sc_learn : L -> example -> Z -> L * F }.
Context (sc : scorer).

Definition get_cost_pred (is_learn : bool) (s : L) (known_cost : cb_class) (ec : example) (index base : Z) : L * example * F :=
  let label := if index =? action known_cost then cost known_cost else FLT_MAX in
  let baseline_enabled_old := baseline_enabled ec in
  let ec := set_baseline_enabled ec in
  let ec := set_label label ec in
  let i := u32 (index - 1 + base) in
  let '(s, ec, pred) :=
    if is_learn && (index =? action known_cost)
    then
      let old_weight := ex_weight ec in
      let ec := set_weight (ex_weight ec / probability known_cost)%num ec in
      let '(s, pred) := sc_learn sc s ec i in
      (s, set_weight old_weight ec, pred)
    else let '(s, pred) := sc_predict sc s ec i in (s, ec, pred) in
  let ec := if baseline_enabled_old then ec else reset_baseline_disabled ec in
  (s, ec, pred).

(** ** Estimates of one cost *)

Definition estimate_ips (observation : cb_class) (a : Z) (offset : F) : F :=
  if a =? action observation then ((cost observation - offset) / probability observation)%num else n_of_Z 0.

Fixpoint estimate_dr (observation : cb_class) (scores : list cs_class) (a : Z) : F :=
  match scores with
  | [] => estimate_ips observation a (n_of_Z 0)
  | cl :: scores => if class_index cl =? a then (estimate_ips observation a (x cl) + x cl)%num else estimate_dr observation scores a
  end.

Fixpoint estimate_label (costs : list cb_class) (a : Z) : F :=
  match costs with
  | [] => n_of_Z 0
  | cl :: costs => if action cl =? a then estimate_ips cl a (n_of_Z 0) else estimate_label costs a
  end.

Definition estimate_score (a_s : action_score) (c : F) (a : Z) (offset : F) : F :=
  if a =? as_action a_s then ((c - offset) / as_score a_s)%num else n_of_Z 0.

Definition safe_probability (prob : F) : F := if (prob <=? n_of_Z 0)%num then nlit (1 # 1000) else prob.

(** ** One line per example *)

(** [cb_to_cs]: the number of actions, what the last call observed and predicted, and the running squared loss
    of the regressor. *)
Record cb_to_cs := CbToCs {
  num_actions : Z; pred_scores : list cs_class; avg_loss_regressors : F; nb_ex_regressors : Z;
  last_pred_reg : F; last_correct_cost : F; known_cost : cb_class
}.

Definition set_scores (l : list cs_class) (c : cb_to_cs) : cb_to_cs :=
  CbToCs (num_actions c) l (avg_loss_regressors c) (nb_ex_regressors c) (last_pred_reg c) (last_correct_cost c) (known_cost c).

(** The loss of predicting [pred] is added to the running average. *)
Definition record_loss (pred loss : F) (c : cb_to_cs) : cb_to_cs :=
  let nb := u64 (nb_ex_regressors c + 1) in
  CbToCs (num_actions c) (pred_scores c)
    (avg_loss_regressors c + n_of_Z 1 / n_of_Z nb * (loss - avg_loss_regressors c))%num nb
    pred (cost (known_cost c)) (known_cost c).

(** Whether all the actions can be taken, and the actions a cost is made for. *)
Definition all_actions (costs : list cb_class) : bool :=
  match costs with [] => true | [c] => has_cost c | _ => false end.

Definition action_range (n : Z) : list Z := Z.of_nat <$> seq 1 (Z.to_nat n).

Definition actions_of (c : cb_to_cs) (costs : list cb_class) : list Z :=
  if all_actions costs then action_range (num_actions c) else action <$> costs.

Definition ips_step (clip_p : F) (st : cb_to_cs * list cs_class) (i : Z) : cb_to_cs * list cs_class :=
  let '(c, costs) := st in
  if i =? action (known_cost c)
  then
    let v := (cost (known_cost c) / safe_probability (nmax (probability (known_cost c)) clip_p))%num in
    (record_loss (n_of_Z 0) (cost (known_cost c) * cost (known_cost c))%num c, costs ++ [CsClass v i (n_of_Z 0) (n_of_Z 0)])
  else (c, costs ++ [CsClass (n_of_Z 0) i (n_of_Z 0) (n_of_Z 0)]).

Definition gen_cs_example_ips (c : cb_to_cs) (ld : list cb_class) (clip_p : F) : cb_to_cs * list cs_class :=
  fold_left (ips_step clip_p) (actions_of c ld) (c, []).

Definition squared (e : F) : F := (e * e)%num.

(** [gen_cs_label]: the prediction, corrected where the cost was observed. *)
Definition gen_cs_label (is_learn : bool) (clip_p : F) (st : L * example * cb_to_cs * list cs_class) (a : Z)
    : L * example * cb_to_cs * list cs_class :=
  let '(s, ec, c, costs) := st in
  let '(s, ec, pred) := get_cost_pred is_learn s (known_cost c) ec a (num_actions c) in
  let wc := CsClass pred a (n_of_Z 0) (n_of_Z 0) in
  let c := set_scores (pred_scores c ++ [wc]) c in
  if action (known_cost c) =? a
  then
    let c := record_loss pred (squared (cost (known_cost c) - pred))%num c in
    (s, ec, c, costs ++ [set_x (pred + (cost (known_cost c) - pred) / nmax (probability (known_cost c)) clip_p)%num wc])
  else (s, ec, c, costs ++ [wc]).

Definition gen_cs_example_dr (is_learn : bool) (s : L) (ec : example) (c : cb_to_cs) (ld : list cb_class)
    : L * example * cb_to_cs * list cs_class :=
  let c := set_scores [] c in
  match ld with
  | [] => (s, ec, c, (fun i => CsClass FLT_MAX i (n_of_Z 0) (n_of_Z 0)) <$> action_range (num_actions c))
  | _ => fold_left (gen_cs_label is_learn (n_of_Z 0)) (actions_of c ld) (s, ec, c, [])
  end.

(** The state of the direct method's loop: also the least prediction and its action. *)
Definition dm_state : Type := L * example * cb_to_cs * list cs_class * F * Z.

Definition dm_step (is_learn ties : bool) (st : dm_state) (a : Z) : dm_state :=
  let '(s, ec, c, costs, min, argmin) := st in
  let '(s, ec, pred) := get_cost_pred is_learn s (known_cost c) ec a 0 in
  let wc := CsClass pred a (n_of_Z 0) (n_of_Z 0) in
  let '(min, argmin) := if ((pred <? min)%num || (ties && (pred =? min)%num && (a <? argmin)))%bool then (pred, a) else (min, argmin) in
  let c := set_scores (pred_scores c ++ [wc]) c in
  let c := if action (known_cost c) =? a then record_loss pred (squared (cost (known_cost c) - pred))%num c else c in
  (s, ec, c, costs ++ [wc], min, argmin).

(** The last component is [ec.pred.multiclass]. *)
Definition gen_cs_example_dm (is_learn : bool) (s : L) (ec : example) (c : cb_to_cs) (ld : list cb_class)
    : L * example * cb_to_cs * list cs_class * Z :=
  let c := set_scores [] c in
  let '(s, ec, c, costs, _, argmin) :=
    fold_left (dm_step is_learn (negb (all_actions ld))) (actions_of c ld) (s, ec, c, [], FLT_MAX, 1) in
  (s, ec, c, costs, argmin).

Inductive cb_type_t := DR | DM | IPS | MTR | SM.

(** [gen_cs_example]; [None] when it throws. *)
Definition gen_cs_example (is_learn : bool) (cb_type : cb_type_t) (s : L) (ec : example) (c : cb_to_cs) (ld : list cb_class)
    : option (L * example * cb_to_cs * list cs_class) :=
  match cb_type with
  | IPS => let '(c, costs) := gen_cs_example_ips c ld (n_of_Z 0) in Some (s, ec, c, costs)
  | DM => let '(s, ec, c, costs, _) := gen_cs_example_dm is_learn s ec c ld in Some (s, ec, c, costs)
  | DR => Some (gen_cs_example_dr is_learn s ec c ld)
  | MTR | SM => None
  end.

(** [predict_or_learn] of [cb_algs.cc]: the observed cost is looked up, and the cost-sensitive label made.
    What [base] then does with the label is not part of it. *)
Fixpoint get_observed_cost (costs : list cb_class) : option cb_class :=
  match costs with
  | [] => None
  | cl :: costs => if has_observed_cost cl then Some cl else get_observed_cost costs
  end.

Definition observe (costs : list cb_class) (c : cb_to_cs) : cb_to_cs :=
  CbToCs (num_actions c) (pred_scores c) (avg_loss_regressors c) (nb_ex_regressors c) (last_pred_reg c) (last_correct_cost c)
    (default cb_class_default (get_observed_cost costs)).

Definition make_costs (is_learn : bool) (cb_type : cb_type_t) (s : L) (ec : example) (c : cb_to_cs)
    : option (L * example * cb_to_cs * list cs_class) :=
  gen_cs_example is_learn cb_type s ec (observe (ex_costs ec) c) (ex_costs ec).

(** ** One line per action *)

(** The observed cost of a line: its only cost, when that is not [FLT_MAX]. *)
Definition line_cost (ec : example) : option cb_class :=
  match ex_costs ec with [c] => if has_cost c then Some c else None | _ => None end.

(** A loop over the lines with their index, a [uint32_t]. *)
Definition for_lines (f : Z -> example -> F) (examples : list example) : list cs_class :=
  imap (fun i ec => CsClass (f (u32 (Z.of_nat i)) ec) (u32 (Z.of_nat i)) (n_of_Z 0) (n_of_Z 0)) examples.

Definition gen_cs_example_ips_multi (examples : list example) (clip_p : F) : list cs_class :=
  for_lines (fun _ ec => match line_cost ec with
                         | Some c => (cost c / safe_probability (nmax (probability c) clip_p))%num
                         | None => n_of_Z 0
                         end) examples.

Definition gen_cs_example_dm_multi (examples : list example) : list cs_class :=
  for_lines (fun _ ec => match line_cost ec with Some c => cost c | None => n_of_Z 0 end) examples.

Definition gen_cs_test_example (examples : list example) : list cs_class := for_lines (fun _ _ => FLT_MAX) examples.

(** The sums the multi-task regression keeps for a model, the line it learns from, and its cost. *)
Record mtr_state := MtrState { action_sum : Z; event_sum : Z; mtr_example : Z }.

Fixpoint first_cost (examples : list example) (i : nat) : option (nat * cb_class) :=
  match examples with
  | [] => None
  | ec :: examples => match line_cost ec with Some c => Some (i, c) | None => first_cost examples (i + 1) end
  end.

Definition gen_cs_example_mtr (m : mtr_state) (examples : list example) : mtr_state * list cs_class :=
  let m := MtrState (u64 (action_sum m + Z.of_nat (length examples))) (u64 (event_sum m + 1)) (mtr_example m) in
  match first_cost examples 0 with
  | Some (i, c) => (MtrState (action_sum m) (event_sum m) (u32 (Z.of_nat i)), [CsClass (cost c) 0 (n_of_Z 0) (n_of_Z 0)])
  | None => (m, [])
  end.

Definition gen_cs_example_sm (chosen_action : Z) (sign_offset : F) (action_vals : list action_score) : list cs_class :=
  (fun av =>
     let v := if as_action av =? chosen_action then (as_score av + sign_offset)%num else (as_score av - sign_offset)%num in
     let v := if (v >? n_of_Z 100)%num then n_of_Z 100 else v in
     let v := if (v <? n_of_Z (-100))%num then n_of_Z (-100) else v in
     CsClass v (as_action av) (n_of_Z 0) (n_of_Z 0)) <$> action_vals.

(** [example_is_newline_not_header_cb]. *)
Definition is_header (ec : example) : bool :=
  match ex_costs ec with [c] => (probability c =? n_of_Z (-1))%num | _ => false end.
Definition newline_not_header (ec : example) : bool := ex_newline ec && negb (is_header ec).

(** The state of the learner, the examples done, the predictions, and the costs. *)
Definition dr_state : Type := L * list example * list cs_class * list cs_class.

Fixpoint dr_loop (is_learn : bool) (clip_p : F) (known : cb_class) (examples : list example) (i : nat) (s : L)
    : dr_state :=
  match examples with
  | [] => (s, [], [], [])
  | ec :: examples =>
      if newline_not_header ec
      then let '(s, ecs, preds, costs) := dr_loop is_learn clip_p known examples (i + 1) s in (s, ec :: ecs, preds, costs)
      else
        let index := u32 (Z.of_nat i) in
        let here := action known =? Z.of_nat i in
        let label := if here then CbClass (cost known) 0 (probability known) (partial_prediction known) else cb_class_default in
        let '(s, ec, pred) := get_cost_pred is_learn s label ec 0 2 in
        let wc := CsClass pred index (n_of_Z 0) (n_of_Z 0) in
        let corrected :=
          if negb (probability known =? n_of_Z (-1))%num && here
          then set_x (pred + (cost known - pred) / nmax (probability known) clip_p)%num wc else wc in
        let '(s, ecs, preds, costs) := dr_loop is_learn clip_p known examples (i + 1) s in
        (s, ec :: ecs, wc :: preds, corrected :: costs)
  end.

Definition gen_cs_example_dr_multi (is_learn : bool) (clip_p : F) (known : cb_class) (s : L) (examples : list example) : dr_state :=
  dr_loop is_learn clip_p known examples 0 s.

(** [get_observed_cost_or_default_cb_adf]: the last observed cost, its action the index of its line. *)
Fixpoint last_observed (costs : list cb_class) (found : option cb_class) : option cb_class :=
  match costs with
  | [] => found
  | c :: costs => last_observed costs (if has_observed_cost c then Some c else found)
  end.

Fixpoint observed_line (examples : list example) (i : Z) (found : option (Z * cb_class)) : option (Z * cb_class) :=
  match examples with
  | [] => found
  | ec :: examples =>
      let found := match last_observed (ex_costs ec) None with Some c => Some (i, c) | None => found end in
      observed_line examples (u32 (i + 1)) found
  end.

Definition get_observed_cost_or_default (examples : list example) : cb_class :=
  match observed_line examples 0 None with
  | None => CbClass FLT_MAX 0 (n_of_Z (-1)) (n_of_Z 0)
  | Some (i, c) => CbClass (cost c) i (probability c) (partial_prediction c)
  end.

(** [test_cb_adf_sequence]: [None] when it throws, otherwise the line with the cost, if any. *)
Fixpoint test_loop (allow_multiple_costs : bool) (examples : list example) (i count : nat) (ret : option nat) : option (option nat) :=
  match examples with
  | [] => Some ret
  | ec :: examples =>
      match ex_costs ec with
      | _ :: _ :: _ => None
      | [c] =>
          if has_cost c
          then if negb allow_multiple_costs
               then if (1 <? S count)%nat then None else test_loop allow_multiple_costs examples (S i) (S count) (Some i)
               else if action c =? Z.of_nat i then Some (Some i) else test_loop allow_multiple_costs examples (S i) (S count) (Some i)
          else test_loop allow_multiple_costs examples (S i) count ret
      | [] => test_loop allow_multiple_costs examples (S i) count ret
      end
  end.

Definition test_cb_adf_sequence (examples : list example) (allow_multiple_costs : bool) : option (option nat) :=
  match examples with [] => None | _ => test_loop allow_multiple_costs examples 0 0 None end.
End Estimates.
Arguments cb_class F : clear implicits.
Arguments cs_class F : clear implicits.
Arguments example F X : clear implicits.
Arguments cb_to_cs F : clear implicits.
Arguments scorer F X L : clear implicits.

(** ** Lemmas *)

Section Lemmas.
Context {F : Type} `{Num F} {X L : Type} (sc : scorer F X L).

Lemma baseline_restored (ec : example F X) :
  (if baseline_enabled ec then set_baseline_enabled ec else reset_baseline_disabled (set_baseline_enabled ec)) = ec.
Proof.
  unfold set_baseline_enabled, reset_baseline_disabled. destruct (baseline_enabled ec) eqn:E; [done|].
  destruct ec as [w l ix co nl ft]. unfold set_indices. cbn in *. f_equal. unfold baseline_enabled in E. cbn in E.
  induction ix as [|v ix IH]; [done|]. cbn [existsb app erase_first] in *. apply orb_false_iff in E as [-> E].
  by rewrite IH.
Qed.

(** What the scorer is asked: to learn the observed cost of the action, with the weight of the example
    divided by the probability of the action, or else to predict. *)
Definition asked (is_learn : bool) (s : L) (known : cb_class F) (ec : example F X) (index base : Z) : L * F :=
  let ec' := set_label (if index =? action known then cost known else FLT_MAX) (set_baseline_enabled ec) in
  let i := u32 (index - 1 + base) in
  if is_learn && (index =? action known) then sc_learn sc s (set_weight (ex_weight ec / probability known)%num ec') i
  else sc_predict sc s ec' i.

(** The call changes the label of the example, nothing else. *)
Lemma get_cost_pred_asked is_learn s known ec index base :
  get_cost_pred sc is_learn s known ec index base =
  (let '(s', pred) := asked is_learn s known ec index base in
   (s', set_label (if index =? action known then cost known else FLT_MAX) ec, pred)).
Proof.
  unfold get_cost_pred, asked. set (label := if index =? action known then cost known else FLT_MAX).
  assert (ex_weight (set_label label (set_baseline_enabled ec)) = ex_weight ec) as Hw by (unfold set_baseline_enabled; by destruct (baseline_enabled ec)).
  pose proof (baseline_restored ec) as Hb. cbv zeta. rewrite Hw.
  destruct (is_learn && (index =? action known));
    match goal with |- context [sc_learn sc s ?e ?i] => destruct (sc_learn sc s e i) as [s' pred]
    | |- context [sc_predict sc s ?e ?i] => destruct (sc_predict sc s e i) as [s' pred] end; f_equal; f_equal;
    destruct ec as [w l ix co nl ft]; unfold set_baseline_enabled, reset_baseline_disabled, set_label, set_indices, set_weight in *;
    destruct (baseline_enabled _); try done; cbn in *; by injection Hb as ->.
Qed.

Lemma get_cost_pred_predict s known ec index base :
  get_cost_pred sc false s known ec index base =
  (let label := if index =? action known then cost known else FLT_MAX in
   let '(s', pred) := sc_predict sc s (set_label label (set_baseline_enabled ec)) (u32 (index - 1 + base)) in
   (s', set_label label ec, pred)).
Proof. by rewrite get_cost_pred_asked. Qed.

Lemma asked_label is_learn s known ec index base lb :
  asked is_learn s known (set_label lb ec) index base = asked is_learn s known ec index base.
Proof.
  unfold asked. cbn [ex_weight set_label]. f_equal;
    destruct ec as [w l ix co nl ft]; unfold set_baseline_enabled, set_label, set_indices, baseline_enabled; cbn; by destruct (existsb _ ix).
Qed.

Lemma known_record_loss pred loss (c : cb_to_cs F) : known_cost (record_loss pred loss c) = known_cost c.
Proof. done. Qed.

Lemma num_actions_record_loss pred loss (c : cb_to_cs F) : num_actions (record_loss pred loss c) = num_actions c.
Proof. done. Qed.

Definition ips_value clip_p (known : cb_class F) (i : Z) : F :=
  if i =? action known then (cost known / safe_probability (nmax (probability known) clip_p))%num else n_of_Z 0.

Lemma ips_fold clip_p l : forall (c : cb_to_cs F) acc,
  snd (fold_left (ips_step clip_p) l (c, acc)) =
  acc ++ ((fun i => CsClass (ips_value clip_p (known_cost c) i) i (n_of_Z 0) (n_of_Z 0)) <$> l).
Proof.
  induction l as [|i l IH]; intros c acc; [by rewrite app_nil_r|]. cbn [fold_left]. unfold ips_step at 2, ips_value.
  rewrite fmap_cons. destruct (i =? action (known_cost c)); rewrite IH, <- app_assoc; done.
Qed.

(** A scorer that does not change when it predicts: a prediction for features and an index. *)
Definition pure (s : L) (r : X -> Z -> F) : Prop := forall ec i, sc_predict sc s ec i = (s, r (ex_features ec) i).

Definition dr_value clip_p (known : cb_class F) (pred : F) (here : bool) : F :=
  if here then (pred + (cost known - pred) / nmax (probability known) clip_p)%num else pred.

Definition predicted (r : X -> Z -> F) (ft : X) (n a : Z) : cs_class F := CsClass (r ft (u32 (a - 1 + n))) a (n_of_Z 0) (n_of_Z 0).

(** Actions that were not observed get their predictions, in both modes. *)
Lemma dr_fold_others is_learn clip_p s r l : pure s r -> forall ec (c : cb_to_cs F) acc, action (known_cost c) ∉ l ->
  exists lb c', fold_left (gen_cs_label sc is_learn clip_p) l (s, ec, c, acc) =
      (s, set_label lb ec, c', acc ++ (predicted r (ex_features ec) (num_actions c) <$> l)) /\
    known_cost c' = known_cost c /\ num_actions c' = num_actions c.
Proof.
  intros Hr. induction l as [|a l IH]; intros ec c acc Hl.
  - exists (ex_label ec), c. cbn. rewrite app_nil_r. by destruct ec.
  - apply not_elem_of_cons in Hl as [Ha Hl]. cbn [fold_left]. unfold gen_cs_label at 2. rewrite get_cost_pred_asked.
    unfold asked. rewrite (proj2 (Z.eqb_neq a (action (known_cost c)))) by congruence. rewrite andb_false_r, Hr.
    assert (ex_features (set_label FLT_MAX (set_baseline_enabled ec)) = ex_features ec) as -> by (unfold set_baseline_enabled; by destruct (baseline_enabled ec)).
    cbn [known_cost set_scores]. rewrite (proj2 (Z.eqb_neq (action (known_cost c)) a)) by congruence.
    match goal with |- context [fold_left _ l (s, ?e, ?c1, ?acc1)] => destruct (IH e c1 acc1 Hl) as (lb & c' & -> & Hk & Hn) end.
    exists lb, c'. cbn [ex_features set_label num_actions set_scores known_cost] in *. by rewrite <- app_assoc.
Qed.

(** The observed action is corrected, and those after it are predicted by what was learned from it. *)
Lemma dr_fold_observed is_learn clip_p s r s' v r' l1 l2 ec (c : cb_to_cs F) :
  pure s r -> pure s' r' -> asked is_learn s (known_cost c) ec (action (known_cost c)) (num_actions c) = (s', v) ->
  action (known_cost c) ∉ l1 -> action (known_cost c) ∉ l2 ->
  exists ec' c', fold_left (gen_cs_label sc is_learn clip_p) (l1 ++ action (known_cost c) :: l2) (s, ec, c, []) =
    (s', ec', c', (predicted r (ex_features ec) (num_actions c) <$> l1) ++
       CsClass (dr_value clip_p (known_cost c) v true) (action (known_cost c)) (n_of_Z 0) (n_of_Z 0) ::
       (predicted r' (ex_features ec) (num_actions c) <$> l2)).
Proof.
  intros Hr Hr' Ha Hl1 Hl2. rewrite fold_left_app. cbn [fold_left].
  destruct (dr_fold_others is_learn clip_p s r l1 Hr ec c [] Hl1) as (lb & c1 & -> & Hk & Hn).
  unfold gen_cs_label at 2. rewrite get_cost_pred_asked, Hk, Hn, asked_label, Ha. cbv zeta. rewrite Z.eqb_refl.
  cbn [known_cost set_scores]. rewrite Hk, Z.eqb_refl.
  match goal with |- context [fold_left _ l2 (s', ?e, ?c2, ?acc2)] => destruct (dr_fold_others is_learn clip_p s' r' l2 Hr' e c2 acc2) as (lb2 & c3 & -> & _) end.
  { cbn [known_cost record_loss set_scores]. by rewrite Hk. }
  eexists _, c3. unfold dr_value, set_x.
  cbn [num_actions record_loss set_scores known_cost ex_features set_label app class_index cs_partial_prediction wap_value x].
  rewrite Hn, Hk, <- app_assoc. done.
Qed.

(** The running average of the losses. *)
Lemma record_loss_count pred loss (c : cb_to_cs F) : nb_ex_regressors (record_loss pred loss c) = u64 (nb_ex_regressors c + 1).
Proof. done. Qed.
End Lemmas.

(** ** Unbiased estimates *)

(** The logged action [k] of a policy with probabilities [p] against the costs [truth]: what is then observed. *)
Definition logged (truth p : list Q) (k : nat) : cb_class Q :=
  CbClass (nth k truth 0%Q) (Z.of_nat k + 1) (nth k p 0%Q) 0%Q.

Definition expectation (p : list Q) (f : nat -> Q) : Q := qsum ((fun k => nth k p 0 * f k)%Q <$> seq 0 (length p)).

Lemma qsum_indicator (p : list Q) (i : nat) (v : Q) :
  (expectation p (fun k => if decide (k = i) then v else 0) == (if decide (i < length p)%nat then nth i p 0 * v else 0))%Q.
Proof.
  unfold expectation. assert (forall a n, qsum ((fun k => nth k p 0 * (if decide (k = i) then v else 0))%Q <$> seq a n) ==
    (if decide (a <= i < a + n)%nat then nth i p 0 * v else 0))%Q as Hs.
  { intros a n. revert a. induction n as [|n IH]; intros a; [cbn; rewrite decide_False by lia; done|].
    cbn [seq]. rewrite fmap_cons. cbn [qsum]. rewrite IH. destruct (decide (a = i)) as [->|].
    - rewrite decide_False, decide_True by lia. ring.
    - destruct (decide (S a <= i < S a + n)%nat); [rewrite decide_True by lia|rewrite decide_False by lia]; ring. }
  rewrite Hs. destruct (decide (i < length p)%nat); [rewrite decide_True by lia|rewrite decide_False by lia]; done.
Qed.

Lemma expectation_ext p f g : (forall k, (k < length p)%nat -> f k == g k)%Q -> (expectation p f == expectation p g)%Q.
Proof.
  intros Hfg. unfold expectation. apply qsum_map_ext. intros k Hk. apply elem_of_seq in Hk. rewrite Hfg by lia. done.
Qed.

Lemma expectation_plus p f g : (expectation p (fun k => f k + g k) == expectation p f + expectation p g)%Q.
Proof.
  unfold expectation. rewrite <- qsum_map_plus. apply qsum_map_ext. intros k _. ring.
Qed.

Lemma expectation_const p v : (expectation p (fun _ => v) == qsum p * v)%Q.
Proof.
  unfold expectation. rewrite (qsum_map_ext _ (fun k => v * nth k p 0)%Q) by (intros; ring).
  rewrite qsum_map_scale. assert ((fun k => nth k p 0%Q) <$> seq 0 (length p) = p) as ->; [|ring].
  apply list_eq. intros i. rewrite list_lookup_fmap. destruct (decide (i < length p)%nat) as [Hi|Hi].
  - rewrite lookup_seq_lt by done. cbn. destruct (lookup_lt_is_Some_2 p i Hi) as [v' Hv']. rewrite Hv'. f_equal.
    by apply nth_lookup_Some.
  - rewrite lookup_seq_ge by lia. cbn. symmetry. apply lookup_ge_None_2. lia.
Qed.

(** A base estimate, corrected by the observation with the inverse of its probability, has the true cost as
    its expectation. *)
Lemma corrected_unbiased (p : list Q) (i : nat) (t b : Q) :
  (i < length p)%nat -> (0 < nth i p 0)%Q -> (qsum p == 1)%Q ->
  (expectation p (fun k => b + (if decide (k = i) then (t - b) / nth i p 0 else 0)) == t)%Q.
Proof.
  intros Hi Hp Hsum. rewrite expectation_plus, expectation_const, qsum_indicator, decide_True, Hsum by done. field. lra.
Qed.

Lemma action_range_lookup n i : (i < Z.to_nat n)%nat -> action_range n !! i = Some (Z.of_nat i + 1).
Proof.
  intros Hi. unfold action_range. rewrite list_lookup_fmap, lookup_seq_lt by done. cbn. f_equal. lia.
Qed.

Section Unbiased.
Context {X L : Type} (sc : scorer Q X L) (s : L) (R : L -> X -> Z -> Q) (truth p : list Q).
Hypothesis same_length : length truth = length p.
Hypothesis positive : Forall (fun v => 0 < v)%Q p.
Hypothesis proper : Forall (fun t => ~ t == FLT_MAX)%Q truth.

Lemma nth_positive k : (k < length p)%nat -> (0 < nth k p 0)%Q.
Proof.
  intros Hk. destruct (lookup_lt_is_Some_2 p k Hk) as [v Hv]. rewrite (nth_lookup_Some _ _ _ _ Hv).
  exact (Forall_lookup_1 _ _ _ _ positive Hv).
Qed.

Lemma logged_has_cost k : (k < length p)%nat -> has_cost (logged truth p k) = true.
Proof.
  intros Hk. rewrite <- same_length in Hk. destruct (lookup_lt_is_Some_2 truth k Hk) as [v Hv].
  unfold has_cost, logged. cbn [cost]. rewrite (nth_lookup_Some _ _ _ _ Hv).
  pose proof (Forall_lookup_1 _ _ _ _ proper Hv) as Hn. cbn in Hn. apply negb_true_iff.
  destruct (v =? FLT_MAX)%num eqn:E; [|done]. qnum. bprop. done.
Qed.

Lemma logged_observed k : (k < length p)%nat -> has_observed_cost (logged truth p k) = true.
Proof.
  intros Hk. unfold has_observed_cost. rewrite logged_has_cost by done. cbn [andb logged probability].
  pose proof (nth_positive k Hk) as Hpos. qnum. apply negb_true_iff. change (inject_Z 0) with 0%Q.
  destruct (Qle_bool (nth k p 0%Q) 0) eqn:E; [|done]. bprop. lra.
Qed.

Lemma nmax_positive (v : Q) : (0 < v)%Q -> nmax v (n_of_Z 0) = v.
Proof.
  intros Hv. unfold nmax. qnum. change (inject_Z 0) with 0%Q. case_if; bprop; [lra|done].
Qed.

Lemma safe_positive (v : Q) : (0 < v)%Q -> safe_probability v = v.
Proof. intros Hv. unfold safe_probability. qnum. change (inject_Z 0) with 0%Q. case_if; bprop; [lra|done]. Qed.

(** What the single-line estimate makes when action [k] was logged: the state of the scorer, the actions
    of the costs, and the cost of action [i]. *)
Definition single_estimate (is_learn : bool) (ct : cb_type_t) (ec : example Q X) (c : cb_to_cs Q) (i k : nat) : option (L * list Z * Q) :=
  match make_costs sc is_learn ct s (set_costs [logged truth p k] ec) c with
  | Some (s', _, _, costs) =>
      match costs !! i with Some w => Some (s', (fun w : cs_class Q => class_index w) <$> costs, x w) | None => None end
  | None => None
  end.

(** The scorer learning from logged action [k]: the true cost is the label, the weight is divided by the
    probability of the action, and the model is the one the action has. *)
Definition taught (ec : example Q X) (c : cb_to_cs Q) (k : nat) : L * Q :=
  sc_learn sc s (set_weight (ex_weight ec / nth k p 0)%Q (set_label (nth k truth 0%Q) (set_baseline_enabled (set_costs [logged truth p k] ec))))
    (u32 (Z.of_nat k + num_actions c)).

(** What the scorer answers for action [i] when [k] was logged. When training, the actions after [k] are
    predicted by what was learned from [k]. *)
Definition answered (is_learn : bool) (ec : example Q X) (c : cb_to_cs Q) (i k : nat) : Q :=
  let by_state s := R s (ex_features ec) (u32 (Z.of_nat i + num_actions c)) in
  if is_learn then if (k <? i)%nat then by_state (taught ec c k).1 else if (k =? i)%nat then (taught ec c k).2 else by_state s
  else by_state s.

(** Inverse propensity scoring does not ask the scorer. *)
Definition base_estimate (is_learn : bool) (ct : cb_type_t) (ec : example Q X) (c : cb_to_cs Q) (i k : nat) : Q :=
  match ct with DR => answered is_learn ec c i k | _ => 0%Q end.
Definition state_after (is_learn : bool) (ct : cb_type_t) (ec : example Q X) (c : cb_to_cs Q) (k : nat) : L :=
  match ct with DR => if is_learn then (taught ec c k).1 else s | _ => s end.

Definition corrected (i k : nat) (b : Q) : Q := (b + (if decide (k = i) then (nth i truth 0 - b) / nth i p 0 else 0))%Q.

Lemma observe_logged (ec : example Q X) (c : cb_to_cs Q) k : (k < length p)%nat ->
  exists c', observe [logged truth p k] c = c' /\ known_cost c' = logged truth p k /\ num_actions c' = num_actions c /\
    actions_of c' [logged truth p k] = action_range (num_actions c).
Proof.
  intros Hk. eexists. split; [done|]. unfold observe. cbn [get_observed_cost known_cost num_actions].
  rewrite logged_observed by done. unfold actions_of, all_actions. by rewrite logged_has_cost.
Qed.

Lemma ips_estimate_value is_learn ec (c : cb_to_cs Q) i k :
  num_actions c = Z.of_nat (length p) -> (k < length p)%nat -> (i < length p)%nat ->
  exists v, single_estimate is_learn IPS ec c i k = Some (s, action_range (num_actions c), v) /\ (v == corrected i k 0)%Q.
Proof.
  intros Hn Hk Hi. unfold single_estimate, make_costs. cbn [ex_costs set_costs].
  destruct (observe_logged ec c k Hk) as (c' & -> & Hc & _ & Ha). pose proof (nth_positive k Hk) as Hpk.
  assert (action_range (num_actions c) !! i = Some (Z.of_nat i + 1)) as Hl by (apply action_range_lookup; lia).
  unfold gen_cs_example, gen_cs_example_ips. rewrite Ha.
  pose proof (ips_fold (n_of_Z 0) (action_range (num_actions c)) c' []) as Hf.
  destruct (fold_left _ _ _) as [c1 costs]. cbn [snd app] in Hf. subst costs.
  rewrite list_lookup_fmap, Hl. cbn [fmap option_fmap option_map]. eexists. split.
  { rewrite <- list_fmap_compose. cbn. rewrite list_fmap_id. done. }
  unfold ips_value, corrected. cbn [x]. rewrite Hc. cbn [logged action cost probability]. rewrite nmax_positive, safe_positive by done.
  destruct (decide (k = i)) as [->|Hne].
  - rewrite Z.eqb_refl. qnum. unfold Qdiv. ring.
  - rewrite (proj2 (Z.eqb_neq _ _)) by lia. qnum. done.
Qed.

Hypothesis regressor : forall s, pure sc s (R s).

Lemma asked_logged is_learn (ec : example Q X) (c : cb_to_cs Q) k :
  asked sc is_learn s (logged truth p k) (set_costs [logged truth p k] ec) (Z.of_nat k + 1) (num_actions c) =
  (state_after is_learn DR ec c k, answered is_learn ec c k k).
Proof.
  unfold asked, answered, state_after. rewrite Z.eqb_refl, andb_true_r, Nat.ltb_irrefl, Nat.eqb_refl.
  replace (Z.of_nat k + 1 - 1 + num_actions c) with (Z.of_nat k + num_actions c) by lia. destruct is_learn.
  - rewrite <- surjective_pairing. done.
  - rewrite regressor. f_equal. f_equal. unfold set_baseline_enabled. by destruct (baseline_enabled _).
Qed.

Lemma action_range_split n k : (k < Z.to_nat n)%nat ->
  exists l1 l2, action_range n = l1 ++ (Z.of_nat k + 1) :: l2 /\ length l1 = k /\ ~ (Z.of_nat k + 1 ∈ l1) /\ ~ (Z.of_nat k + 1 ∈ l2).
Proof.
  intros Hk. exists (take k (action_range n)), (drop (S k) (action_range n)).
  assert (NoDup (action_range n)) as Hnd by (apply NoDup_fmap_2; [intros a b; lia|apply NoDup_seq]).
  rewrite <- (take_drop_middle _ _ _ (action_range_lookup n k Hk)) in Hnd. apply NoDup_app in Hnd as (_ & H1 & [H2 _]%NoDup_cons).
  rewrite (take_drop_middle _ _ _ (action_range_lookup n k Hk)). split_and!; [done| | |done].
  - rewrite length_take_le; [done|]. unfold action_range. rewrite length_fmap, length_seq. lia.
  - intros Hin. apply (H1 _ Hin). by left.
Qed.

Lemma dr_estimate_value is_learn ec (c : cb_to_cs Q) i k :
  num_actions c = Z.of_nat (length p) -> (k < length p)%nat -> (i < length p)%nat ->
  exists v, single_estimate is_learn DR ec c i k = Some (state_after is_learn DR ec c k, action_range (num_actions c), v) /\
  (v == corrected i k (answered is_learn ec c i k))%Q.
Proof.
  intros Hn Hk Hi. unfold single_estimate, make_costs. cbn [ex_costs set_costs].
  destruct (observe_logged ec c k Hk) as (c' & -> & Hc & Hn' & Ha). pose proof (nth_positive k Hk) as Hpk.
  destruct (action_range_split (num_actions c) k) as (l1 & l2 & Hsplit & Hl1 & H1 & H2); [lia|].
  assert (action_range (num_actions c) !! i = Some (Z.of_nat i + 1)) as Hl by (apply action_range_lookup; lia).
  unfold gen_cs_example, gen_cs_example_dr. change (actions_of (set_scores [] c')) with (actions_of c'). rewrite Ha. rewrite Hsplit in Hl |- *.
  destruct (dr_fold_observed sc is_learn (n_of_Z 0) s (R s) (state_after is_learn DR ec c k) (answered is_learn ec c k k)
    (R (state_after is_learn DR ec c k)) l1 l2 (set_costs [logged truth p k] ec) (set_scores [] c')) as (ec' & c2 & E); try done;
    cbn [known_cost set_scores num_actions] in *; rewrite ?Hc, ?Hn' in *; cbn [logged action] in *; [apply asked_logged|done|done|].
  rewrite E. cbn [ex_features set_costs] in *.
  set (costs := _ ++ _ :: _). assert ((fun w : cs_class Q => class_index w) <$> costs = l1 ++ (Z.of_nat k + 1) :: l2) as Hix.
  { unfold costs. rewrite fmap_app, fmap_cons, <- !list_fmap_compose. cbn [class_index]. f_equal; [|f_equal]; unfold compose, predicted; cbn; apply list_fmap_id. }
  assert (exists w, costs !! i = Some w /\ (x w == corrected i k (answered is_learn ec c i k))%Q) as (w & -> & Hw).
  - unfold costs, corrected. destruct (decide (k = i)) as [<-|Hne].
    + rewrite lookup_app_r, length_fmap, Hl1, Nat.sub_diag by (rewrite length_fmap; lia). eexists. split; [done|].
      unfold dr_value. cbn [x cost probability]. rewrite nmax_positive by done. qnum. done.
    + assert (forall r, predicted r (ex_features ec) (num_actions c) (Z.of_nat i + 1) =
        CsClass (r (ex_features ec) (u32 (Z.of_nat i + num_actions c))) (Z.of_nat i + 1) 0%Q 0%Q) as Hp.
      { intros r. unfold predicted. by replace (Z.of_nat i + 1 - 1 + num_actions c) with (Z.of_nat i + num_actions c) by lia. }
      unfold answered. rewrite (proj2 (Nat.eqb_neq k i)) by done. destruct (k <? i)%nat eqn:E2; bprop.
      * rewrite lookup_app_r in Hl by lia. rewrite lookup_app_r, length_fmap by (rewrite length_fmap; lia). rewrite Hl1 in *.
        destruct (i - k)%nat as [|j] eqn:Ej; [lia|]. rewrite lookup_cons in Hl. rewrite lookup_cons.
        rewrite list_lookup_fmap, Hl.
        cbn [fmap option_fmap option_map]. rewrite Hp. eexists. split; [done|]. cbn [x state_after]. destruct is_learn; ring.
      * rewrite lookup_app_l in Hl by lia. rewrite lookup_app_l, list_lookup_fmap, Hl by (rewrite length_fmap; lia).
        cbn [fmap option_fmap option_map]. rewrite Hp. eexists. split; [done|]. cbn [x]. destruct is_learn; ring.
  - rewrite Hix. by eexists.
Qed.
End Unbiased.

Lemma expectation_corrected truth p i (b : nat -> Q) :
  (i < length p)%nat -> (0 < nth i p 0)%Q ->
  (expectation p (fun k => corrected truth p i k (b k)) == nth i truth 0 + (expectation p b - b i))%Q.
Proof.
  intros Hi Hp. unfold corrected. rewrite expectation_plus.
  rewrite (expectation_ext p (fun k => if decide (k = i) then (nth i truth 0 - b k) / nth i p 0 else 0)%Q
    (fun k => if decide (k = i) then (nth i truth 0 - b i) / nth i p 0 else 0)%Q) by (intros k _; destruct (decide (k = i)) as [->|]; done).
  rewrite qsum_indicator, decide_True by done. field. lra.
Qed.

(** C22: The costs that inverse propensity scoring and the doubly robust method make, in prediction and in
    training, when the logged action [k] is drawn with positive probabilities [p]. Whatever was logged
    there is one cost for every action, in order: the scorer's answer [b] (zero for inverse propensity
    scoring, which never calls the scorer), and for the logged action [b + (truth - b) / p]. When training,
    the doubly robust method lets the scorer learn exactly once, from the logged action, with the true
    cost and the weight over the probability, so that later actions get the answers of the updated
    scorer. The expected cost of an action is its true cost plus the difference between the expected
    answer for it and the answer when it is itself the one logged. It is therefore unbiased whatever
    costs the scorer predicts, for inverse propensity scoring and in prediction; and in training when
    the scorer answers before it learns and learning from an action does not move its answers for the
    actions after it. Otherwise the doubly robust costs are biased in training by that difference. *)
Theorem cb_costs_unbiased {X L : Type} (sc : scorer Q X L) (s : L) (R : L -> X -> Z -> Q) (truth p : list Q)
    (is_learn : bool) (ct : cb_type_t) (ec : example Q X) (c : cb_to_cs Q) (i : nat) :
  (ct = IPS \/ ct = DR /\ forall s, pure sc s (R s)) ->
  length truth = length p -> Forall (fun v => 0 < v)%Q p -> (qsum p == 1)%Q -> Forall (fun t => ~ t == FLT_MAX)%Q truth ->
  num_actions c = Z.of_nat (length p) -> (i < length p)%nat ->
  let b k := base_estimate sc s R truth p is_learn ct ec c i k in
  let expected := expectation p (fun k => default 0%Q (snd <$> single_estimate sc s truth p is_learn ct ec c i k)) in
  let answer s := R s (ex_features ec) (u32 (Z.of_nat i + num_actions c)) in
  (forall k, (k < length p)%nat -> exists v,
    single_estimate sc s truth p is_learn ct ec c i k = Some (state_after sc s truth p is_learn ct ec c k, action_range (num_actions c), v) /\
    (v == b k + (if decide (k = i) then (nth i truth 0 - b k) / nth i p 0 else 0))%Q) /\
  (expected == nth i truth 0 + (expectation p b - b i))%Q /\
  (ct = IPS \/ is_learn = false -> expected == nth i truth 0)%Q /\
  ((taught sc s truth p ec c i).2 = answer s -> (forall k, (k < i)%nat -> answer (taught sc s truth p ec c k).1 = answer s) ->
    expected == nth i truth 0)%Q.
Proof.
  intros Hct Hl Hp Hs Ht Hn Hi b expected answer.
  assert (forall k, (k < length p)%nat -> exists v,
    single_estimate sc s truth p is_learn ct ec c i k = Some (state_after sc s truth p is_learn ct ec c k, action_range (num_actions c), v) /\
    (v == corrected truth p i k (b k))%Q) as Hval.
  { intros k Hk. destruct Hct as [->|[-> Hr]]; [by apply ips_estimate_value|by apply dr_estimate_value]. }
  assert (expected == nth i truth 0 + (expectation p b - b i))%Q as He.
  { unfold expected. rewrite <- expectation_corrected by (try apply nth_positive; done). apply expectation_ext.
    intros k Hk. destruct (Hval k Hk) as (v & -> & Hv). exact Hv. }
  assert ((forall k, (k < length p)%nat -> b k = b i) -> expected == nth i truth 0)%Q as Hsame.
  { intros Hb. rewrite He, (expectation_ext p b (fun _ => b i)) by (intros k Hk; by rewrite (Hb k Hk)). rewrite expectation_const, Hs. ring. }
  split; [exact Hval|]. split; [exact He|]. split.
  - intros Hcase. apply Hsame. intros k _. unfold b, base_estimate. destruct ct; try done; by destruct Hcase as [?| ->].
  - intros H1 H2. apply Hsame. assert (forall k, b k = match ct with DR => answer s | _ => 0%Q end) as Hb; [|intros k _; by rewrite !Hb].
    intros k. unfold b, base_estimate, answered. destruct ct; try done. destruct is_learn; [|done].
    destruct (k <? i)%nat eqn:E1; bprop; [by apply H2|]. destruct (k =? i)%nat eqn:E2; bprop; [by subst k|done].
Qed.

(** A scorer whose prediction is a feature of the example, to run the definitions with. *)
Definition sample_scorer : scorer Q Q unit :=
  {| sc_predict := fun s ec _ => (s, ex_features ec); sc_learn := fun s ec _ => (s, ex_features ec) |}.

Lemma sample_pure : pure sample_scorer tt (fun f _ => f).
Proof. by intros ec i. Qed.

Definition sample_truth : list Q := [1; 5; -2]%Q.
Definition sample_policy : list Q := [1 # 4; 1 # 2; 1 # 4]%Q.

Lemma sample_proper : Forall (fun t => ~ t == FLT_MAX)%Q sample_truth.
Proof. repeat constructor; intros Hc; discriminate Hc. Qed.

Lemma sample_positive : Forall (fun v => 0 < v)%Q sample_policy.
Proof. repeat constructor. Qed.

(** Scorers that learn: with a model for each action, and with one for all of them. *)
Definition separate_scorer : scorer Q Q (Z -> Q) :=
  {| sc_predict := fun s _ i => (s, s i); sc_learn := fun s ec i => (fun j => if j =? i then ex_label ec else s j, s i) |}.
Definition shared_scorer : scorer Q Q Q :=
  {| sc_predict := fun s _ _ => (s, s); sc_learn := fun s ec _ => (ex_label ec, s) |}.

Definition sample_example : example Q Q := Example 1%Q 0%Q [] [] false 7%Q.
Definition sample_cb : cb_to_cs Q := CbToCs 3 [] 0%Q 0 0%Q 0%Q cb_class_default.

(** The second action, of cost 5: unbiased in prediction, and in training with separate models; with one
    model for all actions training is biased, as its answer for it moves from 7 to 1 when the first
    action is logged. *)
Lemma cb_costs_unbiased_witness :
  let expected {L} (sc : scorer Q Q L) s is_learn :=
    expectation sample_policy (fun k => default 0%Q (snd <$> single_estimate sc s sample_truth sample_policy is_learn DR sample_example sample_cb 1 k)) in
  (expected sample_scorer tt false == 5 /\ expected separate_scorer (fun _ => 7) true == 5 /\ expected shared_scorer 7 true == 5 + (1 # 4) * (1 - 7))%Q.
Proof.
  intros expected. split_and!.
  - destruct (cb_costs_unbiased sample_scorer tt (fun _ f _ => f) sample_truth sample_policy false DR sample_example sample_cb 1) as (_ & _ & He & _);
      [right; split; [done|by intros [] ec i]|done|apply sample_positive|done|apply sample_proper|done|simpl; lia|].
    apply He. by right.
  - destruct (cb_costs_unbiased separate_scorer (fun _ => 7%Q) (fun s _ i => s i) sample_truth sample_policy true DR sample_example sample_cb 1) as (_ & _ & _ & He);
      [right; split; [done|by intros s ec i]|done|apply sample_positive|done|apply sample_proper|done|simpl; lia|].
    apply He; [done|]. intros [|k] Hk; [done|lia].
  - destruct (cb_costs_unbiased shared_scorer 7%Q (fun s _ _ => s) sample_truth sample_policy true DR sample_example sample_cb 1) as (_ & He & _);
      [right; split; [done|by intros s ec i]|done|apply sample_positive|done|apply sample_proper|done|simpl; lia|].
    refine (Qeq_trans _ _ _ He _). vm_compute. reflexivity.
Defined.

(** *** One line per action *)

Section UnbiasedMulti.
Context {X L : Type} (sc : scorer Q X L) (s : L) (r : X -> Z -> Q) (truth p : list Q).
Hypothesis regressor : pure sc s r.
Hypothesis same_length : length truth = length p.
Hypothesis positive : Forall (fun v => 0 < v)%Q p.
Hypothesis proper : Forall (fun t => ~ t == FLT_MAX)%Q truth.
Context (lines : list (example Q X)).
Hypothesis one_line_each : length lines = length p.
Hypothesis no_costs : Forall (fun ec => ex_costs ec = [] /\ ex_newline ec = false) lines.
Hypothesis few : Z.of_nat (length p) < 2 ^ 32.

(** The lines when action [k] was logged. *)
Definition log_line (k : nat) : list (example Q X) := alter (set_costs [logged truth p k]) k lines.

Lemma log_line_lookup k i ec : lines !! i = Some ec ->
  log_line k !! i = Some (if decide (i = k) then set_costs [logged truth p k] ec else ec).
Proof.
  intros Hi. unfold log_line. destruct (decide (i = k)) as [->|].
  - rewrite list_lookup_alter_eq. by rewrite Hi.
  - by rewrite list_lookup_alter_ne.
Qed.

Lemma line_ok i ec : lines !! i = Some ec -> ex_costs ec = [] /\ ex_newline ec = false.
Proof. intros Hi. exact (Forall_lookup_1 _ _ _ _ no_costs Hi). Qed.

Lemma observed_line_found k (ls : list (example Q X)) : forall j found,
  (forall i ec, ls !! i = Some ec -> (if decide (Z.of_nat i + j = Z.of_nat k) then ex_costs ec = [logged truth p k] else ex_costs ec = [])) ->
  0 <= j -> j + Z.of_nat (length ls) < 2 ^ 32 -> (k < length p)%nat ->
  observed_line ls j found =
    if decide (j <= Z.of_nat k < j + Z.of_nat (length ls)) then Some (Z.of_nat k, logged truth p k) else found.
Proof.
  induction ls as [|ec ls IH]; intros j found Hls Hj Hl Hk; cbn [observed_line length].
  - by rewrite decide_False by lia.
  - assert (u32 (j + 1) = j + 1) as Hu by (unfold u32; rewrite Z.mod_small; cbn [length] in Hl; lia).
    pose proof (Hls 0%nat ec eq_refl) as H0. change (Z.of_nat 0 + j) with j in H0. rewrite Hu, IH.
    + destruct (decide (j = Z.of_nat k)) as [->|Hne].
      * rewrite H0. cbn [last_observed]. rewrite (logged_observed truth p same_length positive proper k Hk).
        rewrite decide_False, decide_True by lia. done.
      * rewrite H0. cbn [last_observed]. destruct (decide (j <= Z.of_nat k < j + Z.of_nat (Datatypes.S (length ls)))).
        -- by rewrite decide_True by lia.
        -- by rewrite decide_False by lia.
    + intros i ec' Hi. specialize (Hls (Datatypes.S i) ec' Hi). replace (Z.of_nat i + (j + 1)) with (Z.of_nat (Datatypes.S i) + j) by lia. done.
    + lia.
    + cbn [length] in Hl. lia.
    + done.
Qed.

Lemma known_when_logged k : (k < length p)%nat ->
  get_observed_cost_or_default (log_line k) = CbClass (nth k truth 0%Q) (Z.of_nat k) (nth k p 0%Q) 0%Q.
Proof.
  intros Hk. assert (length (log_line k) = length p) as Hl by (unfold log_line; by rewrite length_alter).
  unfold get_observed_cost_or_default. rewrite (observed_line_found k).
  - by rewrite decide_True by lia.
  - intros i ec Hi. rewrite Z.add_0_r. destruct (lookup_lt_is_Some_2 lines i) as [ec0 Hec0].
    { rewrite one_line_each, <- Hl. by eapply lookup_lt_Some. }
    rewrite (log_line_lookup k i ec0 Hec0) in Hi. injection Hi as <-. pose proof (line_ok i ec0 Hec0) as [Hc _].
    destruct (decide (i = k)) as [->|]; [by rewrite decide_True by done|by rewrite decide_False by lia].
  - done.
  - lia.
  - done.
Qed.

(** The costs [cb_adf] makes for the lines when action [k] was logged. *)
Definition multi_costs (ct : cb_type_t) (k : nat) : list (cs_class Q) :=
  match ct with
  | IPS => gen_cs_example_ips_multi (log_line k) 0%Q
  | _ =>
      let '(_, _, _, costs) :=
        gen_cs_example_dr_multi sc false 0%Q (get_observed_cost_or_default (log_line k)) s (log_line k) in costs
  end.

Definition multi_base (ct : cb_type_t) (ec : example Q X) : Q :=
  match ct with DR => r (ex_features ec) (u32 1) | _ => 0%Q end.

Lemma predict_value label (ec : example Q X) i base :
  exists ec', get_cost_pred sc false s label ec i base = (s, ec', r (ex_features ec) (u32 (i - 1 + base))).
Proof.
  rewrite get_cost_pred_predict. cbv zeta. rewrite regressor. eexists. f_equal. f_equal. cbn [ex_features set_label].
  unfold set_baseline_enabled. by destruct (baseline_enabled ec).
Qed.

Lemma dr_loop_lookup (known : cb_class Q) : forall (ls : list (example Q X)) j,
  Forall (fun ec => newline_not_header ec = false) ls ->
  exists s' ecs preds costs, dr_loop sc false 0%Q known ls j s = (s', ecs, preds, costs) /\
  length costs = length ls /\
  (forall i ec, ls !! i = Some ec -> exists w, costs !! i = Some w /\ class_index w = u32 (Z.of_nat (j + i)) /\
    x w = dr_value 0%Q known (r (ex_features ec) (u32 1))
            (negb (probability known =? n_of_Z (-1))%num && (action known =? Z.of_nat (j + i)))).
Proof.
  induction ls as [|ec ls IH]; intros j Hls; cbn [dr_loop]; [by eexists _, _, _, _|].
  inversion Hls as [|? ? Hn Hls']; subst. rewrite Hn. 
  match goal with |- context [get_cost_pred sc false s ?l ec 0 2] => destruct (predict_value l ec 0 2) as [ec' ->] end.
  destruct (IH (j + 1)%nat Hls') as (s' & ecs & preds & costs & -> & Hl & Hc).
  eexists _, _, _, _. split; [done|]. split; [cbn; by rewrite Hl|]. intros [|i] ec0 Hi.
  - injection Hi as <-. eexists. split; [done|]. rewrite Nat.add_0_r. unfold dr_value. by case_if.
  - destruct (Hc i ec0 Hi) as (w & Hw & Hix & Hx). exists w. replace (j + Datatypes.S i)%nat with (j + 1 + i)%nat by lia. done.
Qed.

Lemma logged_not_newline k : Forall (fun ec => newline_not_header ec = false) (log_line k).
Proof.
  apply Forall_lookup_2. intros i ec Hi. unfold newline_not_header.
  destruct (lines !! i) as [ec0|] eqn:E.
  - rewrite (log_line_lookup k i ec0 E) in Hi. injection Hi as <-. pose proof (line_ok i ec0 E) as [_ Hn].
    destruct (decide (i = k)); cbn; by rewrite Hn.
  - apply lookup_lt_Some in Hi. unfold log_line in Hi. rewrite length_alter in Hi. apply lookup_ge_None in E. lia.
Qed.

Lemma multi_estimate_value ct i k ec : (ct = IPS \/ ct = DR) -> (k < length p)%nat -> lines !! i = Some ec ->
  length (multi_costs ct k) = length lines /\
  exists w, multi_costs ct k !! i = Some w /\ class_index w = Z.of_nat i /\
  (x w == multi_base ct ec + (if decide (k = i) then (nth i truth 0 - multi_base ct ec) / nth i p 0 else 0))%Q.
Proof.
  intros Hct Hk Hi. pose proof (nth_positive p positive k Hk) as Hpk.
  assert (nmax (nth k p 0%Q) 0%Q = nth k p 0%Q) as Hnm by exact (nmax_positive _ Hpk).
  assert (i < length p)%nat as Hip by (rewrite <- one_line_each; by eapply lookup_lt_Some).
  assert (u32 (Z.of_nat i) = Z.of_nat i) as Hu by (unfold u32; rewrite Z.mod_small; lia).
  pose proof (log_line_lookup k i ec Hi) as Hlog. destruct (line_ok i ec Hi) as [Hc _]. destruct Hct as [-> | ->]; cbn [multi_costs multi_base].
  - unfold gen_cs_example_ips_multi, for_lines. rewrite length_imap. split; [unfold log_line; by rewrite length_alter|].
    rewrite list_lookup_imap, Hlog. cbn [fmap option_fmap option_map]. eexists. split; [done|]. cbn [class_index x]. split; [done|].
    unfold line_cost. destruct (decide (i = k)) as [->|Hne].
    + cbn [ex_costs set_costs]. rewrite (logged_has_cost truth p same_length proper k Hk), decide_True by done.
      cbn [logged cost probability]. rewrite Hnm, (safe_positive _ Hpk). qnum. unfold Qdiv. ring.
    + rewrite Hc, decide_False by congruence. done.
  - rewrite known_when_logged by done. unfold gen_cs_example_dr_multi.
    destruct (dr_loop_lookup (CbClass (nth k truth 0%Q) (Z.of_nat k) (nth k p 0%Q) 0%Q) (log_line k) 0 (logged_not_newline k))
      as (s' & ecs & preds & costs & -> & Hl & Hcosts).
    split; [rewrite Hl; unfold log_line; by rewrite length_alter|]. destruct (Hcosts i _ Hlog) as (w & Hw & Hix & Hx).
    exists w. cbn [Nat.add] in Hix, Hx. rewrite Hix, Hx. split_and!; [done|done|]. cbn [action probability cost].
    assert (ex_features (if decide (i = k) then set_costs [logged truth p k] ec else ec) = ex_features ec) as -> by (by destruct (decide (i = k))).
    unfold dr_value. cbn [cost probability]. destruct (decide (k = i)) as [->|Hne].
    + rewrite Z.eqb_refl, andb_true_r. qnum. destruct (Qeq_bool (nth i p 0%Q) (inject_Z (-1))) eqn:E.
      { exfalso. bprop. change (inject_Z (-1)) with (-1)%Q in E. lra. }
      cbn [negb]. by rewrite Hnm.
    + rewrite (proj2 (Z.eqb_neq (Z.of_nat k) (Z.of_nat i))), andb_false_r by lia. ring.
Qed.
End UnbiasedMulti.

(** The same for action-dependent features, one line per action: the observed line found in the sequence, the
    costs made from it by inverse propensity scoring or the doubly robust method are, in expectation over the
    logged action, the true costs, one for each line. *)
Theorem cb_adf_costs_unbiased {X L : Type} (sc : scorer Q X L) (s : L) (r : X -> Z -> Q) (truth p : list Q)
    (lines : list (example Q X)) (ct : cb_type_t) (i : nat) :
  pure sc s r -> length truth = length p -> Forall (fun v => 0 < v)%Q p -> (qsum p == 1)%Q ->
  Forall (fun t => ~ t == FLT_MAX)%Q truth -> length lines = length p ->
  Forall (fun ec => ex_costs ec = [] /\ ex_newline ec = false) lines -> Z.of_nat (length p) < 2 ^ 32 ->
  (ct = IPS \/ ct = DR) -> (i < length p)%nat ->
  (forall k, (k < length p)%nat -> length (multi_costs sc s truth p lines ct k) = length lines) /\
  (expectation p (fun k => default 0%Q (x <$> multi_costs sc s truth p lines ct k !! i)) == nth i truth 0)%Q.
Proof.
  intros Hr Hl Hp Hs Ht Hlines Hno Hfew Hct Hi. rewrite <- Hlines in Hi. apply lookup_lt_is_Some in Hi as [ec Hec].
  pose proof (multi_estimate_value sc s r truth p Hr Hl Hp Ht lines Hlines Hno Hfew ct i) as Hval.
  assert (i < length p)%nat as Hip by (rewrite <- Hlines; by eapply lookup_lt_Some). split.
  - intros k Hk. by apply (Hval k ec).
  - rewrite (expectation_ext _ _ (fun k => multi_base r ct ec + (if decide (k = i) then (nth i truth 0 - multi_base r ct ec) / nth i p 0 else 0))%Q).
    + apply corrected_unbiased; [done|by apply nth_positive|done].
    + intros k Hk. by destruct (Hval k ec Hct Hk Hec) as (_ & w & -> & _ & Hx).
Qed.

Lemma cb_adf_costs_unbiased_witness :
  (expectation sample_policy (fun k => default 0%Q (x <$> multi_costs sample_scorer tt sample_truth sample_policy
     [Example 1%Q 0%Q [] [] false 7%Q; Example 1%Q 0%Q [] [] false 8%Q; Example 1%Q 0%Q [] [] false 9%Q] DR k !! 1%nat)) == 5)%Q.
Proof.
  apply (cb_adf_costs_unbiased sample_scorer tt (fun f _ => f) sample_truth sample_policy
    [Example 1%Q 0%Q [] [] false 7%Q; Example 1%Q 0%Q [] [] false 8%Q; Example 1%Q 0%Q [] [] false 9%Q] DR 1);
    [apply sample_pure|done|apply sample_positive|done|apply sample_proper|done|repeat constructor|done|by right|simpl; lia].
Defined.

(** The running average of the regressor's loss is the mean of the losses recorded. *)
Lemma record_loss_mean (pred loss total : Q) (c : cb_to_cs Q) :
  0 <= nb_ex_regressors c < 2 ^ 64 - 1 -> (avg_loss_regressors c * inject_Z (nb_ex_regressors c) == total)%Q ->
  (avg_loss_regressors (record_loss pred loss c) * inject_Z (nb_ex_regressors (record_loss pred loss c)) == total + loss)%Q.
Proof.
  intros Hn Ht. unfold record_loss, u64. cbn [avg_loss_regressors nb_ex_regressors]. rewrite Z.mod_small by lia. qnum.
  rewrite inject_Z_plus. change (inject_Z 1) with 1%Q. rewrite <- Ht.
  assert (0 <= inject_Z (nb_ex_regressors c))%Q by (change 0%Q with (inject_Z 0); rewrite <- Zle_Qle; lia).
  field. lra.
Qed.
