(* ===== verification/Losses.v ===== *)
(** * Loss functions ([core/src/loss_functions.cc])

    Every loss of the program with its update rules and derivatives, written over the operations
    of [float] ([F]) and [double] ([D]) and their elementary functions. The theorems are over the
    reals: what the updates promise (importance weights compose, no step passes the label, the
    derivatives are the derivatives). *)

From S2P Require Import Prelude.
From Stdlib Require Import Reals Lra.

(** The elementary functions of [<cmath>] for one floating type. *)
Class MathFns (F : Type) := {
  nexp : F -> F;
  nlog : F -> F;
  nlog1p : F -> F;
  nexpm1 : F -> F;
  nsqrt : F -> F;
  npow : F -> F -> F;
  nisfinite : F -> bool
}.

Section Losses.
Context {F D : Type} `{Num F, Num D, Widen F D, MathFns F, MathFns D}.

Definition nopp {G} `{Num G} (x : G) : G := (n_of_Z (-1) * x)%num.

(** The part of [shared_data] the losses read. *)
Record label_range := LabelRange { min_label : F; max_label : F }.

#[local] Abbreviation zero := (n_of_Z 0 : F).
#[local] Abbreviation one := (n_of_Z 1 : F).
#[local] Abbreviation two := (n_of_Z 2 : F).
#[local] Abbreviation four := (n_of_Z 4 : F).

(** A comparison of a [float] product with the [double] literal [1e-6]. *)
Definition tiny_step (x : F) : bool := (widen (D := D) x <? nlit (1 # 1000000))%num.

(** ** Squared loss *)

Definition squared_loss_impl_get_loss (sd : label_range) (prediction label : F) : F :=
  if (prediction <=? max_label sd)%num && (prediction >=? min_label sd)%num
  then ((prediction - label) * (prediction - label))%num
  else if (prediction <? min_label sd)%num then
    if (label =? min_label sd)%num then zero
    else narrow (widen (D := D) ((label - min_label sd) * (label - min_label sd))%num +
                 n_of_Z 2 * widen (label - min_label sd)%num * widen (min_label sd - prediction)%num)%num
  else if (label =? max_label sd)%num then zero
  else narrow (widen (D := D) ((max_label sd - label) * (max_label sd - label))%num +
               n_of_Z 2 * widen (max_label sd - label)%num * widen (prediction - max_label sd)%num)%num.

Definition squared_loss_impl_get_update (prediction label update_scale pred_per_update : F) : F :=
  if tiny_step (update_scale * pred_per_update)%num
  then (two * (label - prediction) * update_scale)%num
  else ((label - prediction) * (one - nexp (n_of_Z (-2) * update_scale * pred_per_update)) / pred_per_update)%num.

Definition squared_loss_impl_get_unsafe_update (prediction label update_scale : F) : F :=
  (two * (label - prediction) * update_scale)%num.

Definition squared_loss_impl_get_square_grad (prediction label : F) : F :=
  (four * (prediction - label) * (prediction - label))%num.

Definition squared_loss_impl_first_derivative (sd : label_range) (prediction label : F) : F :=
  let prediction := if (prediction <? min_label sd)%num then min_label sd
                    else if (prediction >? max_label sd)%num then max_label sd else prediction in
  (two * (prediction - label))%num.

Definition squared_loss_impl_second_derivative (sd : label_range) (prediction : F) : F :=
  if (prediction <=? max_label sd)%num && (prediction >=? min_label sd)%num then two else zero.

(** ** The interface, and its implementations *)

Record loss_function := Loss {
  get_loss : label_range -> F -> F -> F;
  get_update : F -> F -> F -> F -> F;
  get_unsafe_update : F -> F -> F -> F;
  get_square_grad : F -> F -> F;
  first_derivative : label_range -> F -> F -> F;
  second_derivative : label_range -> F -> F -> F
}.

Definition squaredloss : loss_function := {|
  get_loss := squared_loss_impl_get_loss;
  get_update := squared_loss_impl_get_update;
  get_unsafe_update := squared_loss_impl_get_unsafe_update;
  get_square_grad := squared_loss_impl_get_square_grad;
  first_derivative := squared_loss_impl_first_derivative;
  second_derivative sd prediction _ := squared_loss_impl_second_derivative sd prediction
|}.

Definition classic_squaredloss : loss_function := {|
  get_loss _ prediction label := ((prediction - label) * (prediction - label))%num;
  get_update prediction label update_scale _ := (two * (label - prediction) * update_scale)%num;
  get_unsafe_update prediction label update_scale := (two * (label - prediction) * update_scale)%num;
  get_square_grad prediction label := (four * (prediction - label) * (prediction - label))%num;
  first_derivative _ prediction label := (two * (prediction - label))%num;
  second_derivative _ _ _ := two
|}.

(** *** Hinge *)

Definition hinge_first_derivative (prediction label : F) : F :=
  if (label * prediction >=? one)%num then zero else nopp label.

Definition hingeloss : loss_function := {|
  get_loss _ prediction label :=
    let e := (one - label * prediction)%num in if (e >? zero)%num then e else zero;
  get_update prediction label update_scale pred_per_update :=
    if (label * prediction >=? one)%num then zero
    else let err := (one - label * prediction)%num in
         (label * (if (update_scale * pred_per_update <? err)%num then update_scale else err / pred_per_update))%num;
  get_unsafe_update prediction label update_scale :=
    if (label * prediction >=? one)%num then zero else (label * update_scale)%num;
  get_square_grad prediction label := let d := hinge_first_derivative prediction label in (d * d)%num;
  first_derivative _ := hinge_first_derivative;
  second_derivative _ _ _ := zero
|}.

(** *** Logistic *)

(** [W(exp(x)) - x], approximately, in [double]. *)
Definition wexpmx (x : F) : F :=
  let xd : D := widen x in
  let large := (xd >=? n_of_Z 1)%num in
  let w := if large then (nlit (86 # 100) * xd + nlit (1 # 100))%num else nexp (nlit (8 # 10) * xd - nlit (65 # 100))%num in
  let r := if large then (xd - nlog w - w)%num else (nlit (2 # 10) * xd + nlit (65 # 100) - w)%num in
  let t := (n_of_Z 1 + w)%num in
  let u := (n_of_Z 2 * t * (t + n_of_Z 2 * r / n_of_Z 3))%num in
  narrow (w * (n_of_Z 1 + r / t * (u - r) / (u - n_of_Z 2 * r)) - xd)%num.

Definition log_get_loss_sub (prediction label : F) : F := nlog (one + nexp (nopp label * prediction))%num.

Definition log_get_unsafe_update_sub (prediction label update_scale : F) : F :=
  let d := nexp (label * prediction)%num in (label * update_scale / (one + d))%num.

Definition log_get_update_sub (prediction label update_scale pred_per_update : F) : F :=
  let d := nexp (label * prediction)%num in
  if tiny_step (update_scale * pred_per_update)%num then (label * update_scale / (one + d))%num
  else
    let x := (update_scale * pred_per_update + label * prediction + d)%num in
    let w := wexpmx x in
    (nopp (label * w + prediction) / pred_per_update)%num.

Definition log_first_derivative_sub (prediction label : F) : F :=
  (nopp label / (one + nexp (label * prediction)))%num.

Definition log_second_derivative_sub (prediction label : F) : F :=
  let p := (one / (one + nexp (label * prediction)))%num in (p * (one - p))%num.

(** Mixing the losses of the labels 1 and -1. *)
Definition log_mix (loss_min loss_max label : F) (sub : F -> F) : F :=
  let std_label := ((label - loss_min) / (loss_max - loss_min))%num in
  (std_label * sub one + (one - std_label) * sub (n_of_Z (-1)))%num.

Definition log_first_derivative (loss_min loss_max prediction label : F) : F :=
  log_mix loss_min loss_max label (log_first_derivative_sub prediction).

Definition logloss (loss_min loss_max : F) : loss_function := {|
  get_loss _ prediction label := log_mix loss_min loss_max label (log_get_loss_sub prediction);
  get_update prediction label update_scale pred_per_update :=
    log_mix loss_min loss_max label (fun l => log_get_update_sub prediction l update_scale pred_per_update);
  get_unsafe_update prediction label update_scale :=
    log_mix loss_min loss_max label (fun l => log_get_unsafe_update_sub prediction l update_scale);
  get_square_grad prediction label := let d := log_first_derivative loss_min loss_max prediction label in (d * d)%num;
  first_derivative _ := log_first_derivative loss_min loss_max;
  second_derivative _ prediction label := log_mix loss_min loss_max label (log_second_derivative_sub prediction)
|}.

(** *** Quantile *)

Definition quantile_first_derivative (tau prediction label : F) : F :=
  let e := (label - prediction)%num in
  if (e =? zero)%num then zero else if (e >? zero)%num then nopp tau else (one - tau)%num.

Definition quantileloss (tau : F) : loss_function := {|
  get_loss _ prediction label :=
    let e := (label - prediction)%num in if (e >? zero)%num then (tau * e)%num else (nopp (one - tau) * e)%num;
  get_update prediction label update_scale pred_per_update :=
    let err := (label - prediction)%num in
    if (err =? zero)%num then zero
    else
      let normal := (update_scale * pred_per_update)%num in
      if (err >? zero)%num then
        let normal := (tau * normal)%num in
        if (normal <? err)%num then (tau * update_scale)%num else (err / pred_per_update)%num
      else
        let normal := (nopp (one - tau) * normal)%num in
        if (normal >? err)%num then ((tau - one) * update_scale)%num else (err / pred_per_update)%num;
  get_unsafe_update prediction label update_scale :=
    let err := (label - prediction)%num in
    if (err =? zero)%num then zero
    else if (err >? zero)%num then (tau * update_scale)%num else (nopp (one - tau) * update_scale)%num;
  get_square_grad prediction label := let fd := quantile_first_derivative tau prediction label in (fd * fd)%num;
  first_derivative _ := quantile_first_derivative tau;
  second_derivative _ _ _ := zero
|}.

(** *** Expectile *)

Definition expectile_side (q prediction label : F) : F :=
  let err := (label - prediction)%num in if (err <? zero)%num then q else (one - q)%num.

Definition expectileloss (q : F) : loss_function := {|
  get_loss sd prediction label := (squared_loss_impl_get_loss sd prediction label * expectile_side q prediction label)%num;
  get_update prediction label update_scale pred_per_update :=
    squared_loss_impl_get_update prediction label (expectile_side q prediction label * update_scale)%num pred_per_update;
  get_unsafe_update prediction label update_scale :=
    squared_loss_impl_get_unsafe_update prediction label (expectile_side q prediction label * update_scale)%num;
  get_square_grad prediction label :=
    let s := expectile_side q prediction label in
    (squared_loss_impl_get_square_grad prediction label * (s * s))%num;
  first_derivative sd prediction label :=
    (squared_loss_impl_first_derivative sd prediction label * expectile_side q prediction label)%num;
  second_derivative sd prediction label :=
    (squared_loss_impl_second_derivative sd prediction * expectile_side q prediction label)%num
|}.

(** *** Poisson *)

Definition MAX_EXP_ARG : F := n_of_Z 44.

Definition clamp_prediction (prediction : F) : F :=
  if (prediction >? MAX_EXP_ARG)%num then MAX_EXP_ARG
  else if (prediction <? nopp MAX_EXP_ARG)%num then nopp MAX_EXP_ARG else prediction.

Definition poisson_get_update (prediction label update_scale pred_per_update : F) : F :=
  let clamped := clamp_prediction prediction in
  let exp_prediction := nexp clamped in
  if (label >? zero)%num then
    let expm1_arg := (label * update_scale * pred_per_update)%num in
    if (expm1_arg >? MAX_EXP_ARG)%num then (nopp (clamped - nlog label) / pred_per_update)%num
    else (label * update_scale - nlog1p (exp_prediction * nexpm1 expm1_arg / label) / pred_per_update)%num
  else
    let inner := (exp_prediction * update_scale * pred_per_update)%num in
    if negb (nisfinite inner) then (nopp (clamped + nlog (update_scale * pred_per_update)) / pred_per_update)%num
    else (nopp (nlog1p inner) / pred_per_update)%num.

Definition poisson_loss : loss_function := {|
  get_loss _ prediction label :=
    let clamped := clamp_prediction prediction in
    let exp_prediction := nexp clamped in
    (two * (label * (nlog (label + nlit (1 # 1000000)) - clamped) - (label - exp_prediction)))%num;
  get_update := poisson_get_update;
  get_unsafe_update prediction label update_scale :=
    ((label - nexp (clamp_prediction prediction)) * update_scale)%num;
  get_square_grad prediction label :=
    let exp_prediction := nexp (clamp_prediction prediction) in
    ((exp_prediction - label) * (exp_prediction - label))%num;
  first_derivative _ prediction label := (nexp (clamp_prediction prediction) - label)%num;
  second_derivative _ prediction _ := nexp (clamp_prediction prediction)
|}.

(** ** Choosing a loss by its name

    The logistic and Poisson losses widen the label range when the workspace keeps one
    ([set_minmax]). [None]: an invalid name is an exception. *)
Definition get_loss_function (name : list byte) (p0 p1 : F) (has_set_minmax : bool) (sd : label_range) :
    option (loss_function * label_range) :=
  let wide := if has_set_minmax then LabelRange (n_of_Z (-50)) (n_of_Z 50) else sd in
  if decide (name = str "squared" \/ name = str "Huber") then Some (squaredloss, sd)
  else if decide (name = str "classic") then Some (classic_squaredloss, sd)
  else if decide (name = str "hinge") then Some (hingeloss, sd)
  else if decide (name = str "logistic") then Some (logloss p0 p1, wide)
  else if decide (name = str "quantile" \/ name = str "pinball" \/ name = str "absolute") then Some (quantileloss p0, sd)
  else if decide (name = str "expectile") then Some (expectileloss p0, sd)
  else if decide (name = str "poisson") then Some (poisson_loss, wide)
  else None.
End Losses.

Arguments label_range : clear implicits.
Arguments loss_function : clear implicits.

(** * Theorems *)

(** ** The real numbers as the number format *)

Definition Rltb (a b : R) : bool := if Rlt_dec a b then true else false.
Definition Rleb (a b : R) : bool := if Rle_dec a b then true else false.
Definition Reqb (a b : R) : bool := if Req_dec_T a b then true else false.

#[export] Instance num_R : Num R := {|
  n_of_Z := IZR; nlit := Q2R;
  nadd := Rplus; nsub := Rminus; nmul := Rmult; ndiv := Rdiv;
  nltb := Rltb; nleb := Rleb; neqb := Reqb
|}.
#[export] Instance widen_R : Widen R R := {| widen x := x; narrow x := x |}.
#[export] Instance math_R : MathFns R := {|
  nexp := exp; nlog := ln; nlog1p x := ln (1 + x); nexpm1 x := (exp x - 1)%R;
  nsqrt := sqrt; npow := Rpower; nisfinite _ := true
|}.

#[local] Open Scope R_scope.

Ltac rnum := cbn [nopp n_of_Z nlit nadd nsub nmul ndiv nltb nleb neqb num_R widen narrow widen_R
  nexp nlog nlog1p nexpm1 nisfinite math_R
  squaredloss classic_squaredloss hingeloss logloss quantileloss expectileloss poisson_loss
  get_loss get_update get_unsafe_update get_square_grad first_derivative second_derivative min_label max_label] in *.

Lemma Rltb_spec a b : BoolSpec (a < b) (b <= a) (Rltb a b).
Proof. unfold Rltb. destruct (Rlt_dec a b); constructor; [done|]. by apply Rnot_lt_le. Qed.
Lemma Rleb_spec a b : BoolSpec (a <= b) (b < a) (Rleb a b).
Proof. unfold Rleb. destruct (Rle_dec a b); constructor; [done|]. by apply Rnot_le_lt. Qed.
Lemma Reqb_spec a b : BoolSpec (a = b) (a <> b) (Reqb a b).
Proof. unfold Reqb. destruct (Req_dec_T a b); by constructor. Qed.

(** Decide every comparison of the goal, dropping the impossible cases. *)
Ltac rcase1 :=
  match goal with
  | |- context [Rltb ?a ?b] => destruct (Rltb_spec a b)
  | |- context [Rleb ?a ?b] => destruct (Rleb_spec a b)
  | |- context [Reqb ?a ?b] => destruct (Reqb_spec a b)
  end; cbn [andb negb]; try (exfalso; lra).
Ltac rcase := repeat rcase1.

#[local] Abbreviation squared := (squaredloss (F := R) (D := R)).
#[local] Abbreviation hinge := (hingeloss (F := R)).
#[local] Abbreviation quantile := (quantileloss (F := R)).
#[local] Abbreviation expectile := (expectileloss (F := R) (D := R)).
#[local] Abbreviation logistic := (logloss (F := R) (D := R)).
#[local] Abbreviation poisson := (poisson_loss (F := R)).

(** ** Steps: the prediction after an update

    A step of importance [h] changes the prediction by [pred_per_update] times the update. *)
Definition step (l : loss_function R) (label ppu h p : R) : R := p + ppu * get_update l p label h ppu.

(** The scaled importance is not in the range where the code uses the Taylor expansion. *)
Definition not_tiny (x : R) : Prop := 1 / 1000000 <= x.

Lemma tiny_step_R x : tiny_step (F := R) (D := R) x = Rltb x (1 / 1000000).
Proof. done. Qed.

Lemma squared_step label ppu h p : 0 < ppu -> not_tiny (h * ppu) ->
  p + ppu * squared_loss_impl_get_update (F := R) (D := R) p label h ppu = label + (p - label) * exp (-2 * h * ppu).
Proof.
  intros Hp Hh. unfold squared_loss_impl_get_update. rewrite tiny_step_R. rnum. unfold not_tiny in Hh.
  rcase. field. lra.
Qed.

Lemma exp_steps a b c : exp (a * b * c) = exp (a * (b * c)).
Proof. f_equal. ring. Qed.

Lemma squared_invariant label ppu h1 h2 p : 0 < ppu -> not_tiny (h1 * ppu) -> not_tiny (h2 * ppu) ->
  step squared label ppu h2 (step squared label ppu h1 p) = step squared label ppu (h1 + h2) p.
Proof.
  intros Hp H1 H2. unfold step. rnum. rewrite !squared_step; try done; unfold not_tiny in *; [|lra..].
  replace (-2 * (h1 + h2) * ppu) with (-2 * h1 * ppu + -2 * h2 * ppu) by ring. rewrite exp_plus. ring.
Qed.

Lemma expectile_side_cases q p label : expectile_side q p label = if Rltb label p then q else 1 - q.
Proof. unfold expectile_side. rnum. rcase; lra. Qed.

Lemma expectile_side_shrunk q label p E : 0 < E -> expectile_side q (label + (p - label) * E) label = expectile_side q p label.
Proof. intros HE. rewrite !expectile_side_cases. rcase; try done; exfalso; nra. Qed.

Lemma expectile_invariant q label ppu h1 h2 p : 0 < ppu ->
  not_tiny (expectile_side q p label * h1 * ppu) -> not_tiny (expectile_side q p label * h2 * ppu) ->
  step (expectile q) label ppu h2 (step (expectile q) label ppu h1 p) = step (expectile q) label ppu (h1 + h2) p.
Proof.
  intros Hp H1 H2. unfold step. rnum. rewrite (squared_step label ppu _ p) by done.
  set (s := expectile_side q p label) in *.
  rewrite (expectile_side_shrunk q label p) by apply exp_pos. fold s.
  rewrite !squared_step; try done; unfold not_tiny in *; [|lra..].
  replace (-2 * (s * (h1 + h2)) * ppu) with (-2 * (s * h1) * ppu + -2 * (s * h2) * ppu) by ring. rewrite exp_plus. ring.
Qed.

Lemma mult_div_cancel a x : 0 < a -> a * (x / a) = x.
Proof. intros Ha. field. lra. Qed.

(** A step that is clipped at the target. *)
Lemma clipped_step (ppu h err : R) : 0 < ppu -> ppu * (if Rltb (h * ppu) err then h else err / ppu) = Rmin (h * ppu) err.
Proof.
  intros Hp. rcase; [rewrite Rmin_left by lra; lra|]. rewrite Rmin_right by lra. field. lra.
Qed.

Lemma hinge_step label ppu h p : 0 < ppu -> 0 <= h -> label * label = 1 ->
  step hinge label ppu h p = p + label * Rmin (h * ppu) (Rmax 0 (1 - label * p)).
Proof.
  intros Hp Hh Hl. assert (0 <= h * ppu) by nra. unfold step. rnum. destruct (Rleb_spec 1 (label * p)).
  - rewrite (Rmax_left 0) by lra. rewrite Rmin_right by lra. ring.
  - rewrite (Rmax_right 0) by lra. rewrite <- (clipped_step ppu) by done. ring.
Qed.

Lemma Rmin_Rmax_add a b e : 0 <= a -> 0 <= b -> Rmin a (Rmax 0 e) + Rmin b (Rmax 0 (e - Rmin a (Rmax 0 e))) = Rmin (a + b) (Rmax 0 e).
Proof. intros Ha Hb. unfold Rmin, Rmax. repeat destruct (Rle_dec _ _); lra. Qed.

Lemma hinge_invariant label ppu h1 h2 p : 0 < ppu -> 0 <= h1 -> 0 <= h2 -> label * label = 1 ->
  step hinge label ppu h2 (step hinge label ppu h1 p) = step hinge label ppu (h1 + h2) p.
Proof.
  intros Hp H1 H2 Hl. rewrite !hinge_step by (done || lra).
  replace (1 - label * (p + label * Rmin (h1 * ppu) (Rmax 0 (1 - label * p))))
    with (1 - label * p - Rmin (h1 * ppu) (Rmax 0 (1 - label * p))) by (rewrite Rmult_plus_distr_l, <- Rmult_assoc, Hl; ring).
  replace ((h1 + h2) * ppu) with (h1 * ppu + h2 * ppu) by ring.
  rewrite <- (Rmin_Rmax_add (h1 * ppu) (h2 * ppu)) by nra. ring.
Qed.

Lemma quantile_step tau label ppu h p : 0 < ppu -> 0 <= h -> 0 <= tau <= 1 ->
  step (quantile tau) label ppu h p =
  p + Rmin (tau * h * ppu) (Rmax 0 (label - p)) - Rmin ((1 - tau) * h * ppu) (Rmax 0 (p - label)).
Proof.
  intros Hp Hh Ht. assert (0 <= tau * h * ppu /\ 0 <= (1 - tau) * h * ppu) as [Hu Hd] by (split; repeat apply Rmult_le_pos; lra).
  unfold step. rnum. unfold Rmin, Rmax. repeat destruct (Rle_dec _ _); rcase; rewrite ?mult_div_cancel by done; lra.
Qed.

Lemma clipped_steps_add u1 u2 d1 d2 p label : 0 <= u1 -> 0 <= u2 -> 0 <= d1 -> 0 <= d2 ->
  let p1 := p + Rmin u1 (Rmax 0 (label - p)) - Rmin d1 (Rmax 0 (p - label)) in
  p1 + Rmin u2 (Rmax 0 (label - p1)) - Rmin d2 (Rmax 0 (p1 - label)) =
  p + Rmin (u1 + u2) (Rmax 0 (label - p)) - Rmin (d1 + d2) (Rmax 0 (p - label)).
Proof.
  intros ? ? ? ? p1. subst p1. destruct (Rle_dec label p).
  - rewrite !(Rmax_left 0 (label - _)) by (unfold Rmin, Rmax; repeat destruct (Rle_dec _ _); lra).
    unfold Rmin, Rmax. repeat destruct (Rle_dec _ _); lra.
  - rewrite !(Rmax_left 0 (_ - label)) by (unfold Rmin, Rmax; repeat destruct (Rle_dec _ _); lra).
    unfold Rmin, Rmax. repeat destruct (Rle_dec _ _); lra.
Qed.

Lemma quantile_invariant tau label ppu h1 h2 p : 0 < ppu -> 0 <= h1 -> 0 <= h2 -> 0 <= tau <= 1 ->
  step (quantile tau) label ppu h2 (step (quantile tau) label ppu h1 p) = step (quantile tau) label ppu (h1 + h2) p.
Proof.
  intros Hp H1 H2 Ht. rewrite !quantile_step by (done || lra).
  rewrite clipped_steps_add by (repeat apply Rmult_le_pos; lra).
  rewrite !Rmult_plus_distr_l, !Rmult_plus_distr_r. done.
Qed.

(** C12: an update for an example of importance [h1 + h2] moves the prediction exactly as far as one
    of importance [h1] followed by one of importance [h2]: squared and expectile loss outside the
    range of the Taylor expansion, hinge loss for the labels -1 and 1, and quantile loss. *)
Theorem importance_invariant (label ppu h1 h2 p q : R) :
  0 < ppu -> 0 <= h1 -> 0 <= h2 -> 0 <= q <= 1 ->
  (not_tiny (h1 * ppu) -> not_tiny (h2 * ppu) ->
     step squared label ppu h2 (step squared label ppu h1 p) = step squared label ppu (h1 + h2) p) /\
  (not_tiny (expectile_side q p label * h1 * ppu) -> not_tiny (expectile_side q p label * h2 * ppu) ->
     step (expectile q) label ppu h2 (step (expectile q) label ppu h1 p) = step (expectile q) label ppu (h1 + h2) p) /\
  (label * label = 1 ->
     step hinge label ppu h2 (step hinge label ppu h1 p) = step hinge label ppu (h1 + h2) p) /\
  step (quantile q) label ppu h2 (step (quantile q) label ppu h1 p) = step (quantile q) label ppu (h1 + h2) p.
Proof.
  intros Hp H1 H2 Hq. split_and!; intros.
  - by apply squared_invariant.
  - by apply expectile_invariant.
  - by apply hinge_invariant.
  - by apply quantile_invariant.
Qed.

(** *** Poisson *)

Definition in_clamp (p : R) : Prop := -44 <= p <= 44.

Lemma clamp_id p : in_clamp p -> clamp_prediction (F := R) p = p.
Proof. unfold in_clamp, clamp_prediction, MAX_EXP_ARG. rnum. intros ?. rcase. done. Qed.

Lemma exp_ge_1 x : 0 <= x -> 1 <= exp x.
Proof. intros [Hx|<-]; [|rewrite exp_0; lra]. pose proof (exp_ineq1 x ltac:(lra)). lra. Qed.

(** The step for a positive label, in terms of the exponential of the prediction. *)
Lemma poisson_step_pos label ppu h p : 0 < ppu -> 0 <= h -> 0 < label -> in_clamp p -> label * h * ppu <= 44 ->
  exp (step poisson label ppu h p) = exp p * exp (label * h * ppu) / (1 + exp p * (exp (label * h * ppu) - 1) / label).
Proof.
  intros Hp Hh Hl Hc Ha. unfold step, poisson_loss, poisson_get_update. rnum. rewrite clamp_id by done.
  unfold MAX_EXP_ARG. rnum. rcase. set (a := label * h * ppu) in *.
  assert (1 <= exp a) as Ha1 by (apply exp_ge_1; unfold a; repeat apply Rmult_le_pos; lra).
  assert (0 <= exp p * (exp a - 1) / label) as Hq.
  { apply Rmult_le_pos; [apply Rmult_le_pos; [left; apply exp_pos|lra]|]. left. by apply Rinv_0_lt_compat. }
  replace (p + ppu * (label * h - ln (1 + exp p * (exp a - 1) / label) / ppu))
    with (p + (a + - ln (1 + exp p * (exp a - 1) / label))) by (unfold a; field; lra).
  rewrite !exp_plus, exp_Ropp, exp_ln by lra. unfold Rdiv. ring.
Qed.

Lemma poisson_step_zero label ppu h p : 0 < ppu -> 0 <= h -> label <= 0 -> in_clamp p ->
  exp (step poisson label ppu h p) = exp p / (1 + exp p * h * ppu).
Proof.
  intros Hp Hh Hl Hc. unfold step, poisson_loss, poisson_get_update. rnum. rewrite clamp_id by done. rcase.
  assert (0 <= exp p * h * ppu) as Hq by (repeat apply Rmult_le_pos; try lra; left; apply exp_pos).
  replace (p + ppu * (-1 * ln (1 + exp p * h * ppu) / ppu)) with (p + - ln (1 + exp p * h * ppu)) by (field; lra).
  rewrite exp_plus, exp_Ropp, exp_ln by lra. done.
Qed.

Lemma poisson_denominator P a l : 0 < P -> 1 <= a -> 0 < l -> 0 < 1 + P * (a - 1) / l.
Proof.
  intros HP Ha Hl. assert (0 <= P * (a - 1) / l); [|lra].
  apply Rmult_le_pos; [apply Rmult_le_pos; lra|]. left. by apply Rinv_0_lt_compat.
Qed.

(** Updates of the Poisson loss compose as well, for positive and for zero labels, while the
    prediction stays where it is not clamped and the exponent below its limit. *)
Theorem poisson_importance_invariant (label ppu h1 h2 p : R) :
  0 < ppu -> 0 <= h1 -> 0 <= h2 -> in_clamp p -> in_clamp (step poisson label ppu h1 p) -> label * (h1 + h2) * ppu <= 44 ->
  step poisson label ppu h2 (step poisson label ppu h1 p) = step poisson label ppu (h1 + h2) p.
Proof.
  intros Hp H1 H2 Hc Hc1 Ha. apply exp_inv. destruct (Rlt_le_dec 0 label) as [Hl|Hl].
  - assert (0 <= label * h1 * ppu /\ 0 <= label * h2 * ppu) as [Ha1 Ha2] by (split; repeat apply Rmult_le_pos; lra).
    rewrite !poisson_step_pos by (done || lra).
    replace (label * (h1 + h2) * ppu) with (label * h1 * ppu + label * h2 * ppu) by ring. rewrite exp_plus.
    apply exp_ge_1 in Ha1, Ha2. set (A := exp (label * h1 * ppu)) in *. set (B := exp (label * h2 * ppu)) in *.
    set (P := exp p). assert (0 < P) as HP by apply exp_pos.
    pose proof (poisson_denominator P A label HP Ha1 Hl).
    pose proof (poisson_denominator P (A * B) label HP ltac:(nra) Hl).
    assert (0 < 1 + P * A / (1 + P * (A - 1) / label) * (B - 1) / label).
    { apply poisson_denominator; try done. apply Rmult_lt_0_compat; [nra|]. by apply Rinv_0_lt_compat. }
    set (d := 1 + P * (A - 1) / label) in *.
    set (e := 1 + P * A / d * (B - 1) / label) in *.
    assert (d * e = 1 + P * (A * B - 1) / label) as <-.
    { transitivity (d + P * A * (B - 1) / label); [unfold e; field; lra|]. unfold d. field. lra. }
    field. lra.
  - assert (0 <= exp p * h1 * ppu /\ 0 <= exp p * h2 * ppu) as [Ha1 Ha2]
      by (split; repeat apply Rmult_le_pos; try lra; left; apply exp_pos).
    rewrite !poisson_step_zero by (done || lra). pose proof (exp_pos p).
    rewrite Rmult_plus_distr_l, Rmult_plus_distr_r. field. nra.
Qed.

(** ** No step passes its target *)

Definition between (a x b : R) : Prop := Rmin a b <= x <= Rmax a b.

Lemma fraction_between c p label : 0 <= c <= 1 -> between p (p + c * (label - p)) label.
Proof. intros Hc. unfold between, Rmin, Rmax. repeat destruct (Rle_dec _ _); nra. Qed.

Lemma squared_fraction label ppu h p : 0 < ppu -> 0 <= h ->
  exists c, 0 <= c <= 1 /\ p + ppu * squared_loss_impl_get_update (F := R) (D := R) p label h ppu = p + c * (label - p).
Proof.
  intros Hp Hh. assert (0 <= h * ppu) by nra. unfold squared_loss_impl_get_update. rewrite tiny_step_R. rnum. rcase.
  - exists (2 * (h * ppu)). split; [lra|ring].
  - exists (1 - exp (-2 * h * ppu)). pose proof (exp_pos (-2 * h * ppu)). split; [|field; lra].
    pose proof (exp_ge_1 (2 * h * ppu) ltac:(nra)). split; [|lra].
    replace (-2 * h * ppu) with (- (2 * h * ppu)) by ring. rewrite exp_Ropp.
    assert (/ exp (2 * h * ppu) <= / 1) by (apply Rinv_le_contravar; lra). lra.
Qed.

(** C31: no update, however large its importance, carries the prediction past its target: past the
    label for squared, expectile and quantile loss, past the margin for hinge loss; and never away
    from it. *)
Theorem updates_never_overshoot (label ppu h p q : R) :
  0 < ppu -> 0 <= h -> 0 <= q <= 1 ->
  between p (step squared label ppu h p) label /\
  between p (step (expectile q) label ppu h p) label /\
  between p (step (quantile q) label ppu h p) label /\
  (label * label = 1 -> label * p <= label * step hinge label ppu h p <= Rmax (label * p) 1).
Proof.
  intros Hp Hh Hq. split_and!.
  - destruct (squared_fraction label ppu h p Hp Hh) as (c & Hc & Hs). unfold step. rnum. rewrite Hs. by apply fraction_between.
  - assert (0 <= expectile_side q p label) by (rewrite expectile_side_cases; rcase; lra).
    destruct (squared_fraction label ppu (expectile_side q p label * h) p Hp ltac:(by apply Rmult_le_pos)) as (c & Hc & Hs).
    unfold step. rnum. rewrite Hs. by apply fraction_between.
  - rewrite quantile_step by done.
    assert (0 <= q * h * ppu) by (repeat apply Rmult_le_pos; lra). assert (0 <= (1 - q) * h * ppu) by (repeat apply Rmult_le_pos; lra).
    unfold between, Rmin, Rmax. repeat destruct (Rle_dec _ _); lra.
  - intros Hl. rewrite hinge_step, Rmult_plus_distr_l, <- Rmult_assoc, Hl by done. assert (0 <= h * ppu) by nra.
    unfold Rmin, Rmax. repeat destruct (Rle_dec _ _); lra.
Qed.

(** ** Derivatives *)

Lemma D_eq f x a b : derivable_pt_lim f x a -> a = b -> derivable_pt_lim f x b.
Proof. by intros H <-. Qed.
Lemma D_const c x : derivable_pt_lim (fun _ => c) x 0.
Proof. apply derivable_pt_lim_const. Qed.
Lemma D_id x : derivable_pt_lim (fun y => y) x 1.
Proof. apply derivable_pt_lim_id. Qed.
Lemma D_plus f g x a b : derivable_pt_lim f x a -> derivable_pt_lim g x b -> derivable_pt_lim (fun y => f y + g y) x (a + b).
Proof. apply derivable_pt_lim_plus. Qed.
Lemma D_minus f g x a b : derivable_pt_lim f x a -> derivable_pt_lim g x b -> derivable_pt_lim (fun y => f y - g y) x (a - b).
Proof. apply derivable_pt_lim_minus. Qed.
Lemma D_mult f g x a b : derivable_pt_lim f x a -> derivable_pt_lim g x b ->
  derivable_pt_lim (fun y => f y * g y) x (a * g x + f x * b).
Proof. apply derivable_pt_lim_mult. Qed.
Lemma D_exp f x a : derivable_pt_lim f x a -> derivable_pt_lim (fun y => exp (f y)) x (exp (f x) * a).
Proof. intros H. apply (derivable_pt_lim_comp f exp); [done|apply derivable_pt_lim_exp]. Qed.
Lemma D_ln f x a : 0 < f x -> derivable_pt_lim f x a -> derivable_pt_lim (fun y => ln (f y)) x (/ f x * a).
Proof. intros Hp H. apply (derivable_pt_lim_comp f ln); [done|by apply derivable_pt_lim_ln]. Qed.
Lemma D_div f g x a b : g x <> 0 -> derivable_pt_lim f x a -> derivable_pt_lim g x b ->
  derivable_pt_lim (fun y => f y / g y) x ((a * g x - b * f x) / (g x)²).
Proof. intros Hg Hf Hd. by apply derivable_pt_lim_div. Qed.

(** The derivative of an expression, up to an equation on its value. *)
Ltac deriv := eapply D_eq; [repeat first [apply D_const | apply D_id | apply D_minus | apply D_plus | apply D_mult | apply D_exp]|cbn beta].

(** Replace the function by [f] on the interval [(a, b)] around the point. *)
Ltac locally f a b := eapply (derivable_pt_lim_locally_ext f _ _ a b); [lra|intros z Hz; rcase; try lra|].

(** The points where a loss is smooth, and the constant between its derivative and
    [first_derivative]: the Poisson loss is the deviance, twice the negative log likelihood. *)
Inductive smooth_at (sd : label_range R) (p label : R) : R -> loss_function R -> Prop :=
| smooth_below : p < min_label sd -> min_label sd <= max_label sd -> smooth_at sd p label 1 squared
| smooth_inside : min_label sd < p < max_label sd -> smooth_at sd p label 1 squared
| smooth_above : max_label sd < p -> min_label sd <= max_label sd -> smooth_at sd p label 1 squared
| smooth_classic : smooth_at sd p label 1 (classic_squaredloss (F := R))
| smooth_hinge : label * p <> 1 -> smooth_at sd p label 1 hinge
| smooth_logistic lo hi : lo <> hi -> smooth_at sd p label 1 (logistic lo hi)
| smooth_quantile tau : p <> label -> smooth_at sd p label 1 (quantile tau)
| smooth_expectile q : min_label sd < p < max_label sd -> p <> label -> smooth_at sd p label 1 (expectile q)
| smooth_poisson : -44 < p < 44 -> smooth_at sd p label 2 poisson.

Lemma squared_derivative sd p label : min_label sd < p < max_label sd ->
  derivable_pt_lim (fun x => squared_loss_impl_get_loss (F := R) (D := R) sd x label) p (2 * (p - label)).
Proof.
  intros Hp. unfold squared_loss_impl_get_loss. rnum.
  locally (fun x => (x - label) * (x - label)) (min_label sd) (max_label sd). deriv. ring.
Qed.

Lemma squared_first_inside sd p label : min_label sd <= p <= max_label sd ->
  squared_loss_impl_first_derivative sd p label = 2 * (p - label).
Proof. intros Hp. unfold squared_loss_impl_first_derivative. rnum. rcase. done. Qed.

Lemma squared_second_derivative sd p label : min_label sd < p < max_label sd ->
  derivable_pt_lim (fun x => squared_loss_impl_first_derivative sd x label) p (squared_loss_impl_second_derivative sd p).
Proof.
  intros Hp. unfold squared_loss_impl_second_derivative. rnum. rcase.
  eapply (derivable_pt_lim_locally_ext (fun x => 2 * (x - label)) _ _ (min_label sd) (max_label sd)); [done| |].
  - intros z Hz. by rewrite squared_first_inside by lra.
  - deriv. ring.
Qed.

Lemma D_log_mix lo hi label (f f' : R -> R -> R) p :
  derivable_pt_lim (fun x => f x 1) p (f' p 1) -> derivable_pt_lim (fun x => f x (-1)) p (f' p (-1)) ->
  derivable_pt_lim (fun x => log_mix lo hi label (f x)) p (log_mix lo hi label (f' p)).
Proof. intros H1 H2. unfold log_mix. rnum. eapply D_eq; [apply D_plus; apply D_mult; (apply D_const || eassumption)|]. lra. Qed.

Lemma log_loss_derivative p l : derivable_pt_lim (fun x => log_get_loss_sub (F := R) x l) p (log_first_derivative_sub p l).
Proof.
  unfold log_get_loss_sub, log_first_derivative_sub. rnum. pose proof (exp_pos (-1 * l * p)). pose proof (exp_pos (l * p)).
  eapply D_eq; [apply D_ln; [lra|deriv; reflexivity]|cbn beta].
  replace (-1 * l * p) with (- (l * p)) by ring. rewrite exp_Ropp. field. lra.
Qed.

Lemma log_second_derivative p l : l * l = 1 ->
  derivable_pt_lim (fun x => log_first_derivative_sub (F := R) x l) p (log_second_derivative_sub p l).
Proof.
  intros Hl. unfold log_first_derivative_sub, log_second_derivative_sub. rnum. pose proof (exp_pos (l * p)).
  eapply D_eq; [apply D_div; [lra|apply D_const|deriv; reflexivity]|cbn beta]. unfold Rsqr.
  replace ((0 * (1 + exp (l * p)) - (0 + exp (l * p) * (0 * p + l * 1)) * (-1 * l)) / ((1 + exp (l * p)) * (1 + exp (l * p))))
    with (exp (l * p) * (l * l) / ((1 + exp (l * p)) * (1 + exp (l * p)))) by (field; lra).
  rewrite Hl. field. lra.
Qed.

(** The outer pieces of the squared loss are its tangents at the ends of the label range. *)
Lemma squared_derivative_below sd p label : p < min_label sd -> min_label sd <= max_label sd ->
  derivable_pt_lim (fun x => squared_loss_impl_get_loss (F := R) (D := R) sd x label) p (2 * (min_label sd - label)).
Proof.
  intros Hp Hm. unfold squared_loss_impl_get_loss. rnum.
  eapply (derivable_pt_lim_locally_ext (fun x => (label - min_label sd) * (label - min_label sd) + 2 * (label - min_label sd) * (min_label sd - x))
    _ _ (p - 1) (min_label sd)); [lra| |deriv; ring].
  intros z Hz. rcase; try done. replace (label - min_label sd) with 0 by lra. ring.
Qed.

Lemma squared_derivative_above sd p label : max_label sd < p -> min_label sd <= max_label sd ->
  derivable_pt_lim (fun x => squared_loss_impl_get_loss (F := R) (D := R) sd x label) p (2 * (max_label sd - label)).
Proof.
  intros Hp Hm. unfold squared_loss_impl_get_loss. rnum.
  eapply (derivable_pt_lim_locally_ext (fun x => (max_label sd - label) * (max_label sd - label) + 2 * (max_label sd - label) * (x - max_label sd))
    _ _ (max_label sd) (p + 1)); [lra| |deriv; ring].
  intros z Hz. rcase; try done. replace (max_label sd - label) with 0 by lra. ring.
Qed.

Lemma squared_flat sd p label : p < min_label sd \/ max_label sd < p -> min_label sd <= max_label sd ->
  derivable_pt_lim (fun x => squared_loss_impl_first_derivative sd x label) p (squared_loss_impl_second_derivative sd p).
Proof.
  intros [Hp|Hp] Hm; unfold squared_loss_impl_first_derivative, squared_loss_impl_second_derivative; rnum; rcase.
  - eapply (derivable_pt_lim_locally_ext (fun _ => 2 * (min_label sd - label)) _ _ (p - 1) (min_label sd)); [lra| |deriv; ring].
    intros z Hz. rcase. done.
  - eapply (derivable_pt_lim_locally_ext (fun _ => 2 * (max_label sd - label)) _ _ (max_label sd) (p + 1)); [lra| |deriv; ring].
    intros z Hz. rcase. done.
Qed.

(** A continuous condition holds around the point where it does. *)
Lemma affine_sign (l p : R) : l * p <> 1 -> exists d, 0 < d /\ forall z, p - d < z < p + d -> (1 <= l * z <-> 1 <= l * p).
Proof.
  intros Hne. exists (Rabs (1 - l * p) / (1 + Rabs l)). pose proof (Rabs_pos l).
  assert (0 < Rabs (1 - l * p)) as Ha by (apply Rabs_pos_lt; lra).
  assert (0 < Rabs (1 - l * p) / (1 + Rabs l)) as Hd by (apply Rmult_lt_0_compat; [done|apply Rinv_0_lt_compat; lra]).
  split; [done|]. intros z Hz. assert (Rabs (l * z - l * p) < Rabs (1 - l * p)) as Hb.
  { replace (l * z - l * p) with (l * (z - p)) by ring. rewrite Rabs_mult.
    assert (Rabs (z - p) < Rabs (1 - l * p) / (1 + Rabs l)) as Hz' by (apply Rabs_def1; lra).
    apply (Rmult_lt_compat_l (1 + Rabs l)) in Hz'; [|lra].
    replace ((1 + Rabs l) * (Rabs (1 - l * p) / (1 + Rabs l))) with (Rabs (1 - l * p)) in Hz' by (field; lra).
    pose proof (Rabs_pos (z - p)). nra. }
  revert Hb. unfold Rabs. repeat destruct (Rcase_abs _); lra.
Qed.

Lemma hinge_derivatives sd p label : label * p <> 1 ->
  derivable_pt_lim (fun x => get_loss hinge sd x label) p (hinge_first_derivative p label) /\
  derivable_pt_lim (fun x => hinge_first_derivative x label) p 0.
Proof.
  intros Hne. destruct (affine_sign label p Hne) as (d & Hd & Hz). unfold hinge_first_derivative. rnum.
  destruct (Rleb_spec 1 (label * p)); split.
  - eapply (derivable_pt_lim_locally_ext (fun _ => 0) _ _ (p - d) (p + d)); [lra| |apply D_const].
    intros z ?%Hz. rcase; done.
  - eapply (derivable_pt_lim_locally_ext (fun _ => 0) _ _ (p - d) (p + d)); [lra| |apply D_const].
    intros z ?%Hz. rcase; done.
  - eapply (derivable_pt_lim_locally_ext (fun x => 1 - label * x) _ _ (p - d) (p + d)); [lra| |deriv; ring].
    intros z ?%Hz. rcase; done.
  - eapply (derivable_pt_lim_locally_ext (fun _ => -1 * label) _ _ (p - d) (p + d)); [lra| |apply D_const].
    intros z ?%Hz. rcase; done.
Qed.

Lemma quantile_derivatives sd tau p label : p <> label ->
  derivable_pt_lim (fun x => get_loss (quantile tau) sd x label) p (quantile_first_derivative tau p label) /\
  derivable_pt_lim (fun x => quantile_first_derivative tau x label) p 0.
Proof.
  intros Hne. unfold quantile_first_derivative. rnum. destruct (Rlt_le_dec p label); split; rcase.
  - locally (fun x => tau * (label - x)) (p - 1) label. deriv. ring.
  - locally (fun _ : R => -1 * tau) (p - 1) label. apply D_const.
  - locally (fun x => -1 * (1 - tau) * (label - x)) label (p + 1). deriv. ring.
  - locally (fun _ : R => 1 - tau) label (p + 1). apply D_const.
Qed.

Lemma expectile_near q p label : p <> label -> exists lo hi, lo < p < hi /\
  forall z, lo < z < hi -> expectile_side q z label = expectile_side q p label.
Proof.
  intros Hne. destruct (Rlt_le_dec p label).
  - exists (p - 1), label. split; [lra|]. intros z Hz. rewrite !expectile_side_cases. rcase; done.
  - exists label, (p + 1). split; [lra|]. intros z Hz. rewrite !expectile_side_cases. rcase; done.
Qed.

Lemma D_scaled f g c p a lo hi : lo < p < hi -> (forall z, lo < z < hi -> g z = c) ->
  derivable_pt_lim f p a -> derivable_pt_lim (fun x => f x * g x) p (a * c).
Proof.
  intros Hp Hg Hf. eapply (derivable_pt_lim_locally_ext (fun x => f x * c) _ _ lo hi); [done| |].
  - intros z Hz. by rewrite Hg.
  - eapply D_eq; [apply D_mult; [exact Hf|apply D_const]|]. cbn beta. ring.
Qed.

Lemma poisson_derivatives sd p label : -44 < p < 44 ->
  derivable_pt_lim (fun x => get_loss poisson sd x label) p (2 * (exp p - label)) /\
  derivable_pt_lim (fun x => first_derivative poisson sd x label) p (exp p).
Proof.
  intros Hp. rnum. split.
  - eapply (derivable_pt_lim_locally_ext
      (fun x => 2 * (label * (ln (label + Q2R (1 # 1000000)) - x) - (label - exp x))) _ _ (-44) 44); [done| |deriv; ring].
    intros z Hz. by rewrite !clamp_id by (unfold in_clamp; lra).
  - eapply (derivable_pt_lim_locally_ext (fun x => exp x - label) _ _ (-44) 44); [done| |deriv; ring].
    intros z Hz. by rewrite !clamp_id by (unfold in_clamp; lra).
Qed.

(** [first_derivative] and [second_derivative] of every loss are the derivatives of [get_loss]
    (twice for Poisson, whose loss is a deviance) and of [first_derivative]. *)
Theorem loss_derivatives (sd : label_range R) (p label k : R) (l : loss_function R) :
  smooth_at sd p label k l ->
  derivable_pt_lim (fun x => get_loss l sd x label) p (k * first_derivative l sd p label) /\
  derivable_pt_lim (fun x => first_derivative l sd x label) p (second_derivative l sd p label).
Proof.
  destruct 1 as [Hp Hm|Hp|Hp Hm| |Hne|lo hi Hne|tau Hne|q Hp Hne|Hp]; rewrite ?Rmult_1_l.
  - rnum. split; [|apply squared_flat; [by left|done]].
    eapply D_eq; [by apply squared_derivative_below|]. unfold squared_loss_impl_first_derivative. rnum. rcase. done.
  - rnum. rewrite squared_first_inside by lra. split; [by apply squared_derivative|by apply squared_second_derivative].
  - rnum. split; [|apply squared_flat; [by right|done]].
    eapply D_eq; [by apply squared_derivative_above|]. unfold squared_loss_impl_first_derivative. rnum. rcase. done.
  - rnum. split; deriv; ring.
  - by apply hinge_derivatives.
  - rnum. unfold log_first_derivative. split.
    + apply (D_log_mix lo hi label log_get_loss_sub log_first_derivative_sub); apply log_loss_derivative.
    + apply (D_log_mix lo hi label log_first_derivative_sub log_second_derivative_sub); apply log_second_derivative; ring.
  - by apply quantile_derivatives.
  - destruct (expectile_near q p label Hne) as (a & b & Hab & Hside). rnum. rewrite squared_first_inside by lra.
    split; (eapply D_scaled; [exact Hab|exact Hside|]); [by apply squared_derivative|by apply squared_second_derivative].
  - destruct (poisson_derivatives sd p label Hp) as [H1 H2]. rnum. rewrite clamp_id by (unfold in_clamp; lra). split; [exact H1|exact H2].
Qed.

(** The plain update is a gradient step, and the squared gradient the adaptive rule
    accumulates is the square of [first_derivative], for every loss and every prediction in the
    label range. *)
Theorem updates_are_gradient_steps (sd : label_range R) (p label k h : R) (l : loss_function R) :
  smooth_at sd p label k l -> min_label sd <= p <= max_label sd ->
  get_unsafe_update l p label h = - h * first_derivative l sd p label /\
  get_square_grad l p label = first_derivative l sd p label * first_derivative l sd p label.
Proof.
  intros Hl Hp.
  destruct Hl; rnum; rewrite ?squared_first_inside by done;
    unfold squared_loss_impl_get_unsafe_update, squared_loss_impl_get_square_grad, hinge_first_derivative, quantile_first_derivative; rnum;
    try (split; ring).
  - split; [rcase; ring|done].
  - split; [|done]. unfold log_first_derivative, log_mix, log_get_unsafe_update_sub, log_first_derivative_sub. rnum.
    pose proof (exp_pos (1 * p)). pose proof (exp_pos (-1 * p)). field. split_and!; lra.
  - split; [rcase; ring|done].
Qed.

(** ** The theorems at concrete inputs *)

Lemma importance_invariant_witness :
  step (quantile (1 / 4)) 3 2 5 (step (quantile (1 / 4)) 3 2 1 0) = step (quantile (1 / 4)) 3 2 (1 + 5) 0 /\
  step hinge 1 2 5 (step hinge 1 2 (1 / 8) 0) = step hinge 1 2 (1 / 8 + 5) 0 /\
  step squared 3 2 5 (step squared 3 2 1 0) = step squared 3 2 (1 + 5) 0.
Proof.
  split_and!.
  - apply (importance_invariant 3 2 1 5 0 (1 / 4)); lra.
  - apply (importance_invariant 1 2 (1 / 8) 5 0 (1 / 4)); lra.
  - apply (importance_invariant 3 2 1 5 0 (1 / 4)); unfold not_tiny; lra.
Defined.

Lemma poisson_importance_invariant_witness :
  step poisson 0 1 3 (step poisson 0 1 1 0) = step poisson 0 1 (1 + 3) 0.
Proof.
  apply (poisson_importance_invariant 0 1 1 3 0); try lra; unfold in_clamp; [lra|].
  assert (exp (step poisson 0 1 1 0) = / 2) as He.
  { rewrite poisson_step_zero by (unfold in_clamp; lra). rewrite exp_0. field. }
  replace (step poisson 0 1 1 0) with (- ln 2); [|rewrite <- (ln_exp (step poisson 0 1 1 0)), He, ln_Rinv; lra].
  assert (0 < ln 2) by (rewrite <- ln_1; apply ln_increasing; lra).
  assert (ln 2 < 1); [|lra]. rewrite <- (ln_exp 1). apply ln_increasing; [lra|]. pose proof (exp_ineq1 1). lra.
Defined.

Lemma updates_never_overshoot_witness :
  between 0 (step squared 3 2 5 0) 3 /\ between 0 (step (quantile (1 / 4)) 3 2 5 0) 3 /\
  -1 * 0 <= -1 * step hinge (-1) 2 5 0 <= Rmax (-1 * 0) 1.
Proof.
  split_and!.
  - apply (updates_never_overshoot 3 2 5 0 (1 / 4)); lra.
  - apply (updates_never_overshoot 3 2 5 0 (1 / 4)); lra.
  - apply (updates_never_overshoot (-1) 2 5 0 (1 / 4)); lra.
  - apply (updates_never_overshoot (-1) 2 5 0 (1 / 4)); lra.
Defined.

Lemma loss_derivatives_witness :
  derivable_pt_lim (fun x => get_loss squared (LabelRange 0 1) x (1 / 2)) 2 (1 * first_derivative squared (LabelRange 0 1) 2 (1 / 2)) /\
  derivable_pt_lim (fun x => first_derivative squared (LabelRange 0 1) x (1 / 2)) 2 (second_derivative squared (LabelRange 0 1) 2 (1 / 2)).
Proof. apply loss_derivatives. apply smooth_above; cbn; lra. Defined.

Lemma updates_are_gradient_steps_witness :
  get_unsafe_update (logistic (-1) 1) 0 1 5 = - 5 * first_derivative (logistic (-1) 1) (LabelRange (-50) 50) 0 1 /\
  get_square_grad (logistic (-1) 1) 0 1 =
    first_derivative (logistic (-1) 1) (LabelRange (-50) 50) 0 1 * first_derivative (logistic (-1) 1) (LabelRange (-50) 50) 0 1.
Proof. eapply updates_are_gradient_steps; [apply smooth_logistic; lra|cbn; lra]. Defined.

(** The losses run: hinge and quantile updates over the rationals. *)
Example hinge_runs : (get_update (hingeloss (F := Q)) (1 # 2) 1 1 2 == 1 # 4)%Q.
Proof. done. Qed.
Example quantile_runs : (get_update (quantileloss (F := Q) (3 # 4)) 3 1 1 2 == - (1 # 4))%Q.
Proof. done. Qed.
