(* ===== verification/Weights.v ===== *)
(** * Weight arrays ([core/include/vw/core/array_parameters*.h], [core/src/array_parameters_*.cc])

    The dense array and the sparse map of weight rows, and the interface the learners use them
    through: a row of [stride] floats for every index. The two representations implement the same
    abstract map from slots to rows ([WeightStoreLaws]). *)

From stdpp Require Import gmap.
From S2P Require Import Prelude.

(** ** The interface

    [weights[i]] is a reference to the first float of a row; the callers read and write the floats
    behind it. An access returns the row ([None]: no memory), a write stores it back. *)
Class WeightStore (W F : Type) := {
  ws_mask : W -> Z;
  ws_stride_shift : W -> Z;
  ws_access : Z -> W -> option (W * list F);
  ws_write : Z -> list F -> W -> W;
  (** [weights.get(i)], read *)
  ws_get : Z -> W -> option (W * F);
  (** a loop over [begin()..end()] that replaces every row *)
  ws_map_rows : (list F -> list F) -> W -> W
}.

Definition ws_stride {W F} `{WeightStore W F} (w : W) : nat := Z.to_nat (2 ^ ws_stride_shift w).

(** The floats a default function stores: offsets in the row, and values. *)
Definition default_func (F : Type) : Type := Z -> list (nat * F).
Definition store_defaults {F} (ws : list (nat * F)) (r : list F) : list F := fold_left (fun r kv => <[kv.1 := kv.2]> r) ws r.

(** The rows a store has in memory, with their indices, in the order of its iterator. *)
Class WeightRows (W F : Type) `{WeightStore W F} := ws_rows : W -> list (Z * list F).

Section Dense.
Context {F : Type} `{Num F}.
Implicit Type i : Z.

(** ** Dense *)

Record dense_parameters := Dense { d_begin : option (list F); d_weight_mask : Z; d_stride_shift : Z }.
Implicit Type w : dense_parameters.

(** The allocation of [calloc_mergable_or_throw]: none for a length of zero. *)
Definition dense_make (length stride_shift : Z) : dense_parameters :=
  let n := u64 (Z.shiftl length stride_shift) in
  Dense (if n =? 0 then None else Some (replicate (Z.to_nat n) (n_of_Z 0))) (u64 (n - 1)) stride_shift.
Definition dense_empty : dense_parameters := Dense None 0 0.

Definition dense_not_null w : bool := (0 <? d_weight_mask w) && bool_decide (is_Some (d_begin w)).
Definition dense_stride w : nat := Z.to_nat (2 ^ d_stride_shift w).
Definition dense_raw_length w : Z := u64 (d_weight_mask w + 1).

(** [operator[]]: the floats from the masked index on, as many as the stride. *)
Definition dense_slot w i : nat := Z.to_nat (Z.land i (d_weight_mask w)).
Definition dense_row w i : list F := take (dense_stride w) (drop (dense_slot w i) (default [] (d_begin w))).
Definition dense_access i w : option (dense_parameters * list F) :=
  match d_begin w with
  | Some _ => match dense_row w i with [] => None | r => Some (w, r) end
  | None => None
  end.
Definition dense_write i (r : list F) w : dense_parameters :=
  Dense (list_inserts (dense_slot w i) r <$> d_begin w) (d_weight_mask w) (d_stride_shift w).
Definition dense_get i w : option (dense_parameters * F) :=
  '(w, r) ← dense_access i w; v ← head r; Some (w, v).
Definition dense_strided_index (index : Z) w : option (dense_parameters * list F) :=
  dense_access (u64 (Z.shiftl index (d_stride_shift w))) w.

(** The offsets [begin(), begin() + stride, ..] up to [end()]. *)
Definition dense_positions w : list nat :=
  match d_begin w with
  | Some _ => (fun k => k * dense_stride w)%nat <$> seq 0 (Z.to_nat (d_weight_mask w + 1) / dense_stride w)
  | None => []
  end.

(** Every row of the memory changed by [f]. *)
Definition update_at (f : nat -> list F -> list F) (s : nat) (m : list F) (p : nat) : list F :=
  list_inserts p (f p (take s (drop p m))) m.
Definition dense_for_each (f : nat -> list F -> list F) w : dense_parameters :=
  Dense ((fun m => fold_left (update_at f (dense_stride w)) (dense_positions w) m) <$> d_begin w) (d_weight_mask w) (d_stride_shift w).
Definition dense_map_rows (f : list F -> list F) : dense_parameters -> dense_parameters := dense_for_each (fun _ => f).

Definition dense_set_default (f : default_func F) w : dense_parameters :=
  if dense_not_null w then dense_for_each (fun p => store_defaults (f (Z.of_nat p))) w else w.
Definition dense_set_zero (offset : nat) w : dense_parameters :=
  if dense_not_null w then dense_map_rows (fun r => <[offset := n_of_Z 0]> r) w else w.

(** [dense_iterator::next_non_zero] from offset [p]: the first later offset of a weight that is
    not zero, or the end. *)
Fixpoint next_non_zero (fuel : nat) w (p : nat) : nat :=
  let length := Z.to_nat (d_weight_mask w + 1) in
  match fuel with
  | O => length
  | S fuel =>
      if (p + dense_stride w <? length)%nat then
        if negb (nth (p + dense_stride w) (default [] (d_begin w)) (n_of_Z 0) =? n_of_Z 0)%num
        then (p + dense_stride w)%nat else next_non_zero fuel w (p + dense_stride w)
      else length
  end.

#[export] Instance dense_store : WeightStore dense_parameters F := {|
  ws_mask := d_weight_mask; ws_stride_shift := d_stride_shift;
  ws_access := dense_access; ws_write := dense_write; ws_get := dense_get; ws_map_rows := dense_map_rows
|}.

#[export] Instance dense_rows : WeightRows dense_parameters F := fun w =>
  (fun p => (Z.of_nat p, dense_row w (Z.of_nat p))) <$> dense_positions w.

(** ** Sparse *)

Record sparse_parameters := Sparse {
  s_map : gmap Z (list F); s_weight_mask : Z; s_stride_shift : Z; s_default_func : option (default_func F)
}.
Implicit Type s : sparse_parameters.

Definition sparse_make (length stride_shift : Z) : sparse_parameters :=
  Sparse ∅ (u64 (u64 (Z.shiftl length stride_shift) - 1)) stride_shift None.
Definition sparse_empty : sparse_parameters := Sparse ∅ 0 0 None.

Definition sparse_not_null s : bool := 0 <? s_weight_mask s.
Definition sparse_slot s i : Z := Z.land i (s_weight_mask s).
Definition sparse_stride s : nat := Z.to_nat (2 ^ s_stride_shift s).
Definition set_map (m : gmap Z (list F)) s : sparse_parameters := Sparse m (s_weight_mask s) (s_stride_shift s) (s_default_func s).

(** A fresh row, and the default function's floats in it. *)
Definition zero_row s : list F := replicate (sparse_stride s) (n_of_Z 0).
Definition fresh_row s (index : Z) : list F :=
  match s_default_func s with
  | Some f => store_defaults (f index) (zero_row s)
  | None => zero_row s
  end.

Definition get_or_default_and_get i s : sparse_parameters * list F :=
  match s_map s !! sparse_slot s i with
  | Some r => (s, r)
  | None => let r := fresh_row s (sparse_slot s i) in (set_map (<[sparse_slot s i := r]> (s_map s)) s, r)
  end.

(** Without a default function a missing row is not inserted: the shared zero row is returned. *)
Definition get_impl i s : sparse_parameters * list F :=
  match s_map s !! sparse_slot s i with
  | Some r => (s, r)
  | None =>
      match s_default_func s with
      | Some _ => let r := fresh_row s (sparse_slot s i) in (set_map (<[sparse_slot s i := r]> (s_map s)) s, r)
      | None => (s, zero_row s)
      end
  end.

Definition sparse_access i s : option (sparse_parameters * list F) := Some (get_or_default_and_get i s).
Definition sparse_write i (r : list F) s : sparse_parameters := set_map (<[sparse_slot s i := r]> (s_map s)) s.
Definition sparse_get i s : option (sparse_parameters * F) :=
  let '(s, r) := get_impl i s in v ← head r; Some (s, v).
Definition sparse_strided_index (index : Z) s : option (sparse_parameters * list F) :=
  sparse_access (u64 (Z.shiftl index (s_stride_shift s))) s.
Definition sparse_map_rows (f : list F -> list F) s : sparse_parameters := set_map (f <$> s_map s) s.
Definition sparse_set_default (f : default_func F) s : sparse_parameters :=
  Sparse (s_map s) (s_weight_mask s) (s_stride_shift s) (Some f).
Definition sparse_set_zero (offset : nat) s : sparse_parameters := sparse_map_rows (fun r => <[offset := n_of_Z 0]> r) s.

(** The default function is not copied. *)
Definition sparse_shallow_copy (input s : sparse_parameters) : sparse_parameters :=
  Sparse (s_map input) (s_weight_mask input) (s_stride_shift input) (s_default_func s).

#[export] Instance sparse_store : WeightStore sparse_parameters F := {|
  ws_mask := s_weight_mask; ws_stride_shift := s_stride_shift;
  ws_access := sparse_access; ws_write := sparse_write; ws_get := sparse_get; ws_map_rows := sparse_map_rows
|}.
(** In the order of the hash map: any order, as far as the theorems go. *)
#[export] Instance sparse_rows : WeightRows sparse_parameters F := fun s => map_to_list (s_map s).
End Dense.

Arguments dense_parameters : clear implicits.
Arguments sparse_parameters : clear implicits.

(** ** Either ([array_parameters.h]) *)

Section Either.
Context {F : Type} `{Num F}.

Record parameters := Parameters {
  adaptive : bool; normalized : bool; sparse : bool;
  dense_weights : dense_parameters F; sparse_weights : sparse_parameters F
}.

Definition set_dense (d : dense_parameters F) (p : parameters) : parameters :=
  Parameters (adaptive p) (normalized p) (sparse p) d (sparse_weights p).
Definition set_sparse (s : sparse_parameters F) (p : parameters) : parameters :=
  Parameters (adaptive p) (normalized p) (sparse p) (dense_weights p) s.

(** The dispatch of every operation. *)
Definition either {A} (p : parameters) (d : dense_parameters F -> option (dense_parameters F * A))
    (s : sparse_parameters F -> option (sparse_parameters F * A)) : option (parameters * A) :=
  if sparse p then '(w, a) ← s (sparse_weights p); Some (set_sparse w p, a)
  else '(w, a) ← d (dense_weights p); Some (set_dense w p, a).
Definition either_update (p : parameters) (d : dense_parameters F -> dense_parameters F)
    (s : sparse_parameters F -> sparse_parameters F) : parameters :=
  if sparse p then set_sparse (s (sparse_weights p)) p else set_dense (d (dense_weights p)) p.

#[export] Instance parameters_store : WeightStore parameters F := {|
  ws_mask p := if sparse p then s_weight_mask (sparse_weights p) else d_weight_mask (dense_weights p);
  ws_stride_shift p := if sparse p then s_stride_shift (sparse_weights p) else d_stride_shift (dense_weights p);
  ws_access i p := either p (dense_access i) (sparse_access i);
  ws_write i r p := either_update p (dense_write i r) (sparse_write i r);
  ws_get i p := either p (dense_get i) (sparse_get i);
  ws_map_rows f p := either_update p (dense_map_rows f) (sparse_map_rows f)
|}.

#[export] Instance parameters_rows : WeightRows parameters F := fun p =>
  if sparse p then ws_rows (sparse_weights p) else ws_rows (dense_weights p).

Definition set_default (f : default_func F) (p : parameters) : parameters :=
  either_update p (dense_set_default f) (sparse_set_default f).
Definition set_zero (offset : nat) (p : parameters) : parameters :=
  either_update p (dense_set_zero offset) (sparse_set_zero offset).
Definition not_null (p : parameters) : bool :=
  if sparse p then sparse_not_null (sparse_weights p) else dense_not_null (dense_weights p).
End Either.
Arguments parameters : clear implicits.

(** * Theorems *)

(** ** The laws of the interface

    Seen through [ws_row], a store is a map from slots to rows of [stride] floats; the slot of an
    index is its value under the mask. The laws are about aligned indices, multiples of the
    stride: the parsers produce no others. *)
Definition aligned {W F} `{WeightStore W F} (w : W) (i : Z) : Prop := 0 <= i /\ (2 ^ ws_stride_shift w | i).

(** A mask of [n] bits, of which the stride takes the lower [s]. *)
Definition mask_ok (n : nat) (mask shift : Z) : Prop := mask = Z.ones (Z.of_nat n) /\ 0 <= shift <= Z.of_nat n /\ Z.of_nat n < 64.

Class WeightStoreLaws (W F : Type) `{WeightStore W F} := {
  ws_wf : W -> Prop;
  ws_row : W -> Z -> list F;
  (** The rows not yet in memory are unchanged by [f]. *)
  ws_fixed : (list F -> list F) -> W -> Prop;
  ws_mask_ok w : ws_wf w -> exists n, mask_ok n (ws_mask w) (ws_stride_shift w);
  ws_row_slot w i j : ws_wf w -> Z.land i (ws_mask w) = Z.land j (ws_mask w) -> ws_row w i = ws_row w j;
  ws_row_length w i : ws_wf w -> aligned w i -> length (ws_row w i) = ws_stride w;
  ws_access_ok w i : ws_wf w -> aligned w i ->
    exists w', ws_access i w = Some (w', ws_row w i) /\ ws_wf w' /\ ws_mask w' = ws_mask w /\
      ws_stride_shift w' = ws_stride_shift w /\ (forall f, ws_fixed f w -> ws_fixed f w') /\
      forall j, aligned w j -> ws_row w' j = ws_row w j;
  ws_get_ok w i : ws_wf w -> aligned w i ->
    exists w' v, ws_get i w = Some (w', v) /\ head (ws_row w i) = Some v /\ ws_wf w' /\ ws_mask w' = ws_mask w /\
      ws_stride_shift w' = ws_stride_shift w /\ (forall f, ws_fixed f w -> ws_fixed f w') /\
      forall j, aligned w j -> ws_row w' j = ws_row w j;
  ws_write_ok w i r : ws_wf w -> aligned w i -> length r = ws_stride w ->
    ws_wf (ws_write i r w) /\ ws_mask (ws_write i r w) = ws_mask w /\
    ws_stride_shift (ws_write i r w) = ws_stride_shift w /\ (forall f, ws_fixed f w -> ws_fixed f (ws_write i r w)) /\
    forall j, aligned w j ->
      ws_row (ws_write i r w) j = if decide (Z.land j (ws_mask w) = Z.land i (ws_mask w)) then r else ws_row w j;
  ws_map_rows_ok w f : ws_wf w -> (forall r, length (f r) = length r) -> ws_fixed f w ->
    ws_wf (ws_map_rows f w) /\ ws_mask (ws_map_rows f w) = ws_mask w /\
    ws_stride_shift (ws_map_rows f w) = ws_stride_shift w /\ (forall g, ws_fixed g w -> ws_fixed g (ws_map_rows f w)) /\
    forall j, aligned w j -> ws_row (ws_map_rows f w) j = f (ws_row w j)
}.

Lemma land_mask n mask shift i : mask_ok n mask shift -> Z.land i mask = i mod 2 ^ Z.of_nat n.
Proof. intros [-> _]. apply Z.land_ones. lia. Qed.

Lemma masked_aligned n mask shift i : mask_ok n mask shift -> (2 ^ shift | i) ->
  (2 ^ shift | Z.land i mask) /\ 0 <= Z.land i mask /\ Z.land i mask + 2 ^ shift <= 2 ^ Z.of_nat n.
Proof.
  intros Hm Hi. rewrite (land_mask _ _ _ _ Hm). destruct Hm as [_ Hs].
  pose proof (Z.mod_pos_bound i (2 ^ Z.of_nat n) ltac:(lia)) as Hb.
  assert (2 ^ shift | 2 ^ Z.of_nat n) as Hd.
  { exists (2 ^ (Z.of_nat n - shift)). rewrite <- Z.pow_add_r by lia. f_equal. lia. }
  assert (2 ^ shift | i mod 2 ^ Z.of_nat n) as Hdm.
  { rewrite Z.mod_eq by lia. apply Z.divide_sub_r; [done|]. by apply Z.divide_mul_l. }
  split; [done|]. split; [lia|]. pose proof (Z.pow_pos_nonneg 2 shift ltac:(lia) ltac:(lia)).
  destruct Hdm as [k Hk], Hd as [l Hl]. generalize dependent (i mod 2 ^ Z.of_nat n). intros x Hb ->.
  rewrite Hl in *. assert (k < l) by nia. nia.
Qed.

(** Two aligned offsets are equal or their rows do not meet. *)
Lemma aligned_apart s p q : 0 < s -> (s | p) -> (s | q) -> p <> q -> p + s <= q \/ q + s <= p.
Proof. intros Hs [k ->] [l ->] Hne. destruct (Z.lt_total k l) as [|[->|]]; [left|done|right]; nia. Qed.

Section DenseLaws.
Context {F : Type} `{Num F}.
Implicit Type w : dense_parameters F.

Definition dense_wf w : Prop := exists n m, mask_ok n (d_weight_mask w) (d_stride_shift w) /\
  d_begin w = Some m /\ length m = Z.to_nat (2 ^ Z.of_nat n).

Lemma dense_slot_ok n w i : mask_ok n (d_weight_mask w) (d_stride_shift w) -> (2 ^ d_stride_shift w | i) ->
  (2 ^ d_stride_shift w | Z.of_nat (dense_slot w i)) /\ (dense_slot w i + dense_stride w <= Z.to_nat (2 ^ Z.of_nat n))%nat.
Proof.
  intros Hm Hi. destruct (masked_aligned _ _ _ i Hm Hi) as (Hd & Hp & Hb). unfold dense_slot, dense_stride.
  pose proof (Z.pow_nonneg 2 (d_stride_shift w)). split; [by rewrite Z2Nat.id|lia].
Qed.

Lemma dense_row_length w i : dense_wf w -> (2 ^ d_stride_shift w | i) -> length (dense_row w i) = dense_stride w.
Proof.
  intros (n & m & Hm & Hb & Hl) Hi. destruct (dense_slot_ok _ _ _ Hm Hi) as [_ Hs].
  unfold dense_row. rewrite Hb. cbn. rewrite length_take, length_drop. lia.
Qed.

Lemma dense_stride_pos w : dense_wf w -> (0 < dense_stride w)%nat.
Proof. intros (n & m & [_ Hm] & _). unfold dense_stride. pose proof (Z.pow_pos_nonneg 2 (d_stride_shift w)). lia. Qed.

Lemma row_lookup (m : list F) p s k : (k < s)%nat -> take s (drop p m) !! k = m !! (p + k)%nat.
Proof. intros Hk. by rewrite lookup_take_lt, lookup_drop. Qed.

Lemma row_ge (m : list F) p s k : (s <= k)%nat -> take s (drop p m) !! k = None.
Proof. intros Hk. apply lookup_ge_None_2. rewrite length_take. lia. Qed.

(** A row overwritten, seen at another row. *)
Lemma inserts_row (m r : list F) p q s : length r = s -> (p + s <= length m)%nat ->
  p = q \/ (p + s <= q \/ q + s <= p)%nat ->
  take s (drop q (list_inserts p r m)) = if decide (q = p) then r else take s (drop q m).
Proof.
  intros Hr Hp Hpq. apply list_eq. intros k. destruct (decide (k < s)%nat) as [Hk|Hk].
  - rewrite row_lookup by done. destruct (decide (q = p)) as [->|Hne].
    + rewrite list_lookup_inserts by lia. f_equal. lia.
    + rewrite row_lookup by done. destruct Hpq as [->|[Hlt|Hlt]]; [done|..].
      * by rewrite list_lookup_inserts_ge by lia.
      * by rewrite list_lookup_inserts_lt by lia.
  - rewrite row_ge by lia. destruct (decide _); [rewrite lookup_ge_None_2; [done|lia]|by rewrite row_ge by lia].
Qed.

Lemma dense_apart n w i j : mask_ok n (d_weight_mask w) (d_stride_shift w) -> (2 ^ d_stride_shift w | i) -> (2 ^ d_stride_shift w | j) ->
  dense_slot w i = dense_slot w j \/ (dense_slot w i + dense_stride w <= dense_slot w j \/ dense_slot w j + dense_stride w <= dense_slot w i)%nat.
Proof.
  intros Hm Hi Hj. destruct (dense_slot_ok _ _ _ Hm Hi) as [Hdi _], (dense_slot_ok _ _ _ Hm Hj) as [Hdj _].
  destruct (decide (dense_slot w i = dense_slot w j)) as [|Hne]; [by left|right].
  assert (0 < 2 ^ d_stride_shift w) as Hs by (destruct Hm; apply Z.pow_pos_nonneg; lia).
  destruct (aligned_apart _ _ _ Hs Hdi Hdj ltac:(lia)); unfold dense_stride; lia.
Qed.

Lemma dense_write_row w i j r : dense_wf w -> (2 ^ d_stride_shift w | i) -> (2 ^ d_stride_shift w | j) ->
  length r = dense_stride w ->
  dense_row (dense_write i r w) j = if decide (Z.land j (d_weight_mask w) = Z.land i (d_weight_mask w)) then r else dense_row w j.
Proof.
  intros (n & m & Hm & Hb & Hl) Hi Hj Hr. pose proof (dense_apart _ _ _ _ Hm Hi Hj) as Hap.
  destruct (dense_slot_ok _ _ _ Hm Hi) as [_ Hs]. unfold dense_row, dense_write. rewrite Hb. cbn [d_begin fmap option_fmap option_map default]. unfold id.
  change (dense_slot (Dense _ _ _) j) with (dense_slot w j). change (dense_stride (Dense _ _ _)) with (dense_stride w).
  rewrite inserts_row by (done || lia).
  destruct (masked_aligned _ _ _ i Hm Hi) as (_ & Hi0 & _), (masked_aligned _ _ _ j Hm Hj) as (_ & Hj0 & _).
  unfold dense_slot in *. destruct (decide (Z.to_nat _ = Z.to_nat _)), (decide (Z.land _ _ = Z.land _ _)); done || lia.
Qed.

Lemma dense_write_wf w i r : dense_wf w -> dense_wf (dense_write i r w).
Proof.
  intros (n & m & Hm & Hb & Hl). exists n, (list_inserts (dense_slot w i) r m). split; [done|].
  unfold dense_write. rewrite Hb. split; [done|]. by rewrite length_inserts.
Qed.

(** The loop over all rows changes each of them once. *)
Lemma fold_rows (f : nat -> list F -> list F) s c : forall a m, (0 < s)%nat ->
  (forall p r, length (f p r) = length r) -> ((a + c) * s <= length m)%nat ->
  let m' := fold_left (update_at f s) ((fun k => k * s)%nat <$> seq a c) m in
  length m' = length m /\
  forall k, ((k + 1) * s <= length m)%nat ->
    take s (drop (k * s) m') = if decide (a <= k < a + c)%nat then f (k * s)%nat (take s (drop (k * s) m)) else take s (drop (k * s) m).
Proof.
  induction c as [|c IH]; intros a m Hs Hf Hm; cbn zeta.
  - split; [done|]. intros k Hk. destruct (decide _); [lia|done].
  - cbn [seq fmap list_fmap fold_left]. set (m1 := update_at f s m (a * s)).
    assert (length m1 = length m) as Hl1 by apply length_inserts.
    destruct (IH (S a) m1 Hs Hf ltac:(lia)) as [Hl Hrow]. split; [by rewrite Hl|].
    intros k Hk. rewrite Hrow by lia. unfold m1, update_at.
    assert (length (f (a * s)%nat (take s (drop (a * s) m))) = s) as Hfl
      by (rewrite Hf, length_take, length_drop; nia).
    rewrite inserts_row; [|done|nia|]; [|destruct (Nat.lt_total a k) as [|[->|]]; [right; left; nia|by left|right; right; nia]].
    destruct (decide (k = a)) as [->|Hne].
    + rewrite decide_False by lia. rewrite !decide_True by lia. done.
    + rewrite (decide_False (P := (k * s = a * s)%nat)) by nia.
      destruct (decide (S a <= k < S a + c)%nat), (decide (a <= k < a + S c)%nat); done || lia.
Qed.

Lemma dense_for_each_ok (f : nat -> list F -> list F) w : dense_wf w -> (forall p r, length (f p r) = length r) ->
  dense_wf (dense_for_each f w) /\
  forall j, (2 ^ d_stride_shift w | j) -> dense_row (dense_for_each f w) j = f (dense_slot w j) (dense_row w j).
Proof.
  intros Hw Hf. pose proof (dense_stride_pos w Hw) as Hs. destruct Hw as (n & m & Hm & Hb & Hl).
  assert (Z.to_nat (d_weight_mask w + 1) = Z.to_nat (2 ^ Z.of_nat n)) as Hlen.
  { destruct Hm as [-> _]. rewrite Z.ones_equiv. f_equal. lia. }
  pose proof (Nat.Div0.mul_div_le (Z.to_nat (2 ^ Z.of_nat n)) (dense_stride w)) as Hdiv.
  destruct (fold_rows f (dense_stride w) (Z.to_nat (2 ^ Z.of_nat n) / dense_stride w) 0 m Hs Hf ltac:(lia)) as [Hlm Hrows].
  unfold dense_for_each, dense_positions. rewrite Hb, Hlen. cbn [fmap option_fmap option_map]. split.
  - exists n. eexists. split; [done|]. cbn [d_begin]. split; [done|]. by rewrite Hlm.
  - intros j Hj. destruct (dense_slot_ok _ _ _ Hm Hj) as [[k Hk] Hin].
    assert (Z.to_nat k * dense_stride w = dense_slot w j)%nat as Hkk.
    { unfold dense_stride in *. pose proof (Z.pow_pos_nonneg 2 (d_stride_shift w) ltac:(lia) ltac:(destruct Hm; lia)). nia. }
    unfold dense_row. rewrite Hb. cbn [d_begin default]. unfold id. change (dense_slot (Dense _ _ _) j) with (dense_slot w j).
    change (dense_stride (Dense _ _ _)) with (dense_stride w). rewrite <- Hkk, Hrows by lia. rewrite decide_True; [done|].
    split; [lia|].
    assert (S (Z.to_nat k) <= Z.to_nat (2 ^ Z.of_nat n) / dense_stride w)%nat; [|lia].
    apply Nat.div_le_lower_bound; [lia|]. rewrite <- Hkk in Hin. lia.
Qed.

#[export] Program Instance dense_laws : WeightStoreLaws (dense_parameters F) F := {|
  ws_wf := dense_wf; ws_row := dense_row; ws_fixed _ _ := True
|}.
Next Obligation. intros w (n & m & ? & _). by exists n. Qed.
Next Obligation. intros w i j _ Hij. cbn in Hij. unfold dense_row, dense_slot. by rewrite Hij. Qed.
Next Obligation. intros w i Hw [_ Hi]. by apply dense_row_length. Qed.
Next Obligation.
  intros w i Hw [_ Hi]. exists w. cbn. unfold dense_access.
  pose proof (dense_row_length w i Hw Hi) as Hl. pose proof (dense_stride_pos w Hw). destruct Hw as (n & m & Hm & Hb & Hlm).
  rewrite Hb. destruct (dense_row w i) eqn:E; [cbn in Hl; lia|]. repeat split. by exists n, m.
Qed.
Next Obligation.
  intros w i Hw [_ Hi]. exists w. cbn. unfold dense_get, dense_access.
  pose proof (dense_row_length w i Hw Hi) as Hl. pose proof (dense_stride_pos w Hw). destruct Hw as (n & m & Hm & Hb & Hlm).
  rewrite Hb. destruct (dense_row w i) as [|v r] eqn:E; [cbn in Hl; lia|]. exists v. repeat split. by exists n, m.
Qed.
Next Obligation.
  intros w i r Hw [_ Hi] Hr. split; [by apply dense_write_wf|]. split_and!; try done.
  intros j [_ Hj]. by apply dense_write_row.
Qed.
Next Obligation.
  intros w f Hw Hf _. destruct (dense_for_each_ok (fun _ => f) w Hw) as [Hw' Hrow]; [done|].
  split_and!; try done. intros j [_ Hj]. by apply Hrow.
Qed.
End DenseLaws.

Section SparseLaws.
Context {F : Type} `{Num F}.
Implicit Type s : sparse_parameters F.

(** The keys are masked indices of rows. *)
Definition key_ok s (k : Z) : Prop := 0 <= k /\ (2 ^ s_stride_shift s | k) /\ Z.land k (s_weight_mask s) = k.
Definition sparse_wf s : Prop := (exists n, mask_ok n (s_weight_mask s) (s_stride_shift s)) /\
  map_Forall (fun k r => key_ok s k /\ length r = sparse_stride s) (s_map s).
Definition sparse_row s (i : Z) : list F := default (fresh_row s (sparse_slot s i)) (s_map s !! sparse_slot s i).

Lemma store_defaults_length (ws : list (nat * F)) r : length (store_defaults ws r) = length r.
Proof. revert r. induction ws as [|kv ws IH]; intros r; [done|]. cbn. unfold store_defaults in IH. by rewrite IH, length_insert. Qed.

Lemma fresh_row_length s i : length (fresh_row s i) = sparse_stride s.
Proof. unfold fresh_row, zero_row. destruct (s_default_func s); [rewrite store_defaults_length|]; apply length_replicate. Qed.

Lemma slot_key s i : (exists n, mask_ok n (s_weight_mask s) (s_stride_shift s)) -> (2 ^ s_stride_shift s | i) -> key_ok s (sparse_slot s i).
Proof.
  intros [n Hn] Hi. destruct (masked_aligned _ _ _ _ Hn Hi) as (? & ? & ?). unfold sparse_slot.
  split_and!; [done|done|]. by rewrite <- Z.land_assoc, Z.land_diag.
Qed.

Lemma sparse_row_length s i : sparse_wf s -> length (sparse_row s i) = sparse_stride s.
Proof.
  intros [_ Hm]. unfold sparse_row. destruct (s_map s !! _) eqn:E; cbn; [by eapply (proj2 (Hm _ _ E))|apply fresh_row_length].
Qed.

Lemma sparse_stride_pos s : sparse_wf s -> (0 < sparse_stride s)%nat.
Proof. intros [[n [_ Hm]] _]. unfold sparse_stride. pose proof (Z.pow_pos_nonneg 2 (s_stride_shift s)). lia. Qed.

(** Inserting the row that is read anyway changes nothing that can be seen. *)
Lemma materialise s i : sparse_wf s -> (2 ^ s_stride_shift s | i) -> s_map s !! sparse_slot s i = None ->
  let s' := set_map (<[sparse_slot s i := fresh_row s (sparse_slot s i)]> (s_map s)) s in
  sparse_wf s' /\ forall j, sparse_row s' j = sparse_row s j.
Proof.
  intros [Hn Hm] Hal Hi. split.
  - split; [done|]. apply (map_Forall_insert_2 (fun k r => key_ok s k /\ length r = sparse_stride s)); [|done].
    split; [by apply slot_key|apply fresh_row_length].
  - intros j. unfold sparse_row. cbn. change (sparse_slot (set_map _ _) j) with (sparse_slot s j).
    destruct (decide (sparse_slot s i = sparse_slot s j)) as [E|E].
    + rewrite <- E, lookup_insert_eq, Hi. done.
    + by rewrite lookup_insert_ne.
Qed.

Lemma get_or_default_ok s i : sparse_wf s -> (2 ^ s_stride_shift s | i) ->
  exists s', get_or_default_and_get i s = (s', sparse_row s i) /\ sparse_wf s' /\
    s_weight_mask s' = s_weight_mask s /\ s_stride_shift s' = s_stride_shift s /\ s_default_func s' = s_default_func s /\
    forall j, sparse_row s' j = sparse_row s j.
Proof.
  intros Hs Hal. unfold get_or_default_and_get. destruct (s_map s !! sparse_slot s i) as [r|] eqn:E.
  - exists s. unfold sparse_row at 1. by rewrite E.
  - eexists. split; [unfold sparse_row at 1; by rewrite E|]. destruct (materialise s i Hs Hal E). done.
Qed.

Lemma get_impl_ok s i : sparse_wf s -> (2 ^ s_stride_shift s | i) ->
  exists s', get_impl i s = (s', sparse_row s i) /\ sparse_wf s' /\
    s_weight_mask s' = s_weight_mask s /\ s_stride_shift s' = s_stride_shift s /\ s_default_func s' = s_default_func s /\
    forall j, sparse_row s' j = sparse_row s j.
Proof.
  intros Hs Hal. destruct (get_or_default_ok s i Hs Hal) as (s' & He & Hrest). unfold get_impl, get_or_default_and_get in *.
  destruct (s_map s !! sparse_slot s i) as [r|] eqn:E; [by exists s'|].
  destruct (s_default_func s) as [f|] eqn:Ef; [by exists s'|]. exists s.
  split; [|done]. f_equal. unfold sparse_row. rewrite E. cbn. unfold fresh_row. by rewrite Ef.
Qed.

#[export] Program Instance sparse_laws : WeightStoreLaws (sparse_parameters F) F := {|
  ws_wf := sparse_wf; ws_row := sparse_row;
  ws_fixed f s := forall i, f (fresh_row s i) = fresh_row s i
|}.
Next Obligation. by intros s [? _]. Qed.
Next Obligation. intros s i j _ Hij. cbn in Hij. unfold sparse_row, sparse_slot. by rewrite Hij. Qed.
Next Obligation. intros s i Hs _. by apply sparse_row_length. Qed.
Next Obligation.
  intros s i Hs [_ Hal]. destruct (get_or_default_ok s i Hs Hal) as (s' & He & Hw & Hm & Hsh & Hd & Hr). exists s'.
  cbn. unfold sparse_access. rewrite He. split_and!; auto.
  intros f Hf j. unfold fresh_row, zero_row, sparse_stride in *. by rewrite Hd, Hsh.
Qed.
Next Obligation.
  intros s i Hs [_ Hal]. destruct (get_impl_ok s i Hs Hal) as (s' & He & Hw & Hm & Hsh & Hd & Hr).
  pose proof (sparse_row_length s i Hs). pose proof (sparse_stride_pos s Hs).
  destruct (sparse_row s i) as [|v r] eqn:E; [cbn in *; lia|]. exists s', v.
  cbn. unfold sparse_get. rewrite He. split_and!; auto.
  intros f Hf j. unfold fresh_row, zero_row, sparse_stride in *. by rewrite Hd, Hsh.
Qed.
Next Obligation.
  intros s i r [Hn Hm] [_ Hal] Hr. split; [|split_and!; try done].
  - split; [done|]. apply (map_Forall_insert_2 (fun k r => key_ok s k /\ length r = sparse_stride s)); [|done].
    split; [by apply slot_key|done].
  - intros j _. cbn. unfold sparse_row, sparse_write. cbn. change (sparse_slot (set_map _ _) j) with (sparse_slot s j).
    unfold sparse_slot. case_decide as E; [by rewrite E, lookup_insert_eq|by rewrite lookup_insert_ne].
Qed.
Next Obligation.
  intros s f [Hn Hm] Hf Hfix. split; [|split_and!; try done].
  - split; [done|]. intros k r (r' & <- & Hr')%lookup_fmap_Some. rewrite Hf. by apply Hm.
  - intros j _. cbn. unfold sparse_row. cbn. change (sparse_slot (sparse_map_rows f s) j) with (sparse_slot s j).
    rewrite lookup_fmap. destruct (s_map s !! sparse_slot s j); cbn; [done|]. by rewrite Hfix.
Qed.
End SparseLaws.

Section EitherLaws.
Context {F : Type} `{Num F}.

#[export] Program Instance parameters_laws : WeightStoreLaws (parameters F) F := {|
  ws_wf p := if sparse p then sparse_wf (sparse_weights p) else dense_wf (dense_weights p);
  ws_row p := if sparse p then sparse_row (sparse_weights p) else dense_row (dense_weights p);
  ws_fixed f p := if sparse p then ws_fixed f (sparse_weights p) else ws_fixed f (dense_weights p)
|}.
Next Obligation.
  intros [ad no [] d s]; [exact (ws_mask_ok s)|exact (ws_mask_ok d)].
Qed.
Next Obligation.
  intros [ad no [] d s] i j; [exact (ws_row_slot s i j)|exact (ws_row_slot d i j)].
Qed.
Next Obligation.
  intros [ad no [] d s] i; [exact (ws_row_length s i)|exact (ws_row_length d i)].
Qed.
Next Obligation.
  intros [ad no [] d s] i Hw Hi.
  - destruct (@ws_access_ok _ _ _ sparse_laws s i Hw Hi) as (s' & He & Hrest). exists (Parameters ad no true d s').
    split; [|done]. refine (f_equal (fun o => '(w, a) ← o; Some (Parameters ad no true d w, a)) He).
  - destruct (@ws_access_ok _ _ _ dense_laws d i Hw Hi) as (d' & He & Hrest). exists (Parameters ad no false d' s).
    split; [|done]. refine (f_equal (fun o => '(w, a) ← o; Some (Parameters ad no false w s, a)) He).
Qed.
Next Obligation.
  intros [ad no [] d s] i Hw Hi.
  - destruct (@ws_get_ok _ _ _ sparse_laws s i Hw Hi) as (s' & v & He & Hrest). exists (Parameters ad no true d s'), v.
    split; [|done]. refine (f_equal (fun o => '(w, a) ← o; Some (Parameters ad no true d w, a)) He).
  - destruct (@ws_get_ok _ _ _ dense_laws d i Hw Hi) as (d' & v & He & Hrest). exists (Parameters ad no false d' s), v.
    split; [|done]. refine (f_equal (fun o => '(w, a) ← o; Some (Parameters ad no false w s, a)) He).
Qed.
Next Obligation.
  intros [ad no [] d s] i r; [exact (ws_write_ok s i r)|exact (ws_write_ok d i r)].
Qed.
Next Obligation.
  intros [ad no [] d s] f; [exact (ws_map_rows_ok s f)|exact (ws_map_rows_ok d f)].
Qed.
End EitherLaws.

(** ** The rows in memory *)

Class WeightRowsLaws (W F : Type) `{WeightStoreLaws W F, !WeightRows W F} := {
  ws_rows_NoDup w : ws_wf w -> NoDup (ws_rows w).*1;
  ws_rows_ok w p r : ws_wf w -> (p, r) ∈ ws_rows w -> ws_row w p = r /\ aligned w p /\ Z.land p (ws_mask w) = p
}.

Section RowsLaws.
Context {F : Type} `{Num F}.

#[export] Program Instance sparse_rows_laws : WeightRowsLaws (sparse_parameters F) F.
Next Obligation. intros s _. apply NoDup_fst_map_to_list. Qed.
Next Obligation.
  intros s p r [_ Hm] Hin. apply elem_of_map_to_list in Hin. destruct (Hm p r Hin) as [(? & ? & Hk) _].
  split_and!; [|done|done]. cbn. unfold sparse_row, sparse_slot. by rewrite Hk, Hin.
Qed.

Lemma dense_positions_spec (w : dense_parameters F) p : dense_wf w ->
  p ∈ dense_positions w <-> exists i, aligned w i /\ dense_slot w i = p.
Proof.
  intros Hw. pose proof (dense_stride_pos w Hw) as Hs. destruct Hw as (n & m & Hm & Hb & Hl).
  assert (Z.to_nat (d_weight_mask w + 1) = Z.to_nat (2 ^ Z.of_nat n)) as Hlen.
  { destruct Hm as [-> _]. rewrite Z.ones_equiv. f_equal. lia. }
  assert (2 ^ d_stride_shift w = Z.of_nat (dense_stride w)) as Hst by (unfold dense_stride; pose proof (Z.pow_nonneg 2 (d_stride_shift w)); lia).
  unfold dense_positions. rewrite Hb, Hlen, list_elem_of_fmap. split.
  - intros (k & -> & [_ Hk]%elem_of_seq). exists (Z.of_nat (k * dense_stride w)). cbn in Hk.
    pose proof (Nat.Div0.mul_div_le (Z.to_nat (2 ^ Z.of_nat n)) (dense_stride w)).
    assert ((k * dense_stride w < Z.to_nat (2 ^ Z.of_nat n))%nat) by nia. split.
    + split; [lia|]. cbn. rewrite Hst. exists (Z.of_nat k). lia.
    + unfold dense_slot. rewrite (land_mask n _ _ _ Hm), Z.mod_small by lia. lia.
  - intros (i & [_ Hi] & <-). destruct (dense_slot_ok _ _ _ Hm Hi) as [[k Hk] Hin]. rewrite Hst in Hk.
    exists (Z.to_nat k). split; [nia|]. apply elem_of_seq. split; [lia|]. cbn.
    assert (S (Z.to_nat k) <= Z.to_nat (2 ^ Z.of_nat n) / dense_stride w)%nat; [|lia].
    apply Nat.div_le_lower_bound; [lia|]. nia.
Qed.

(** Every row of the dense array is visited. *)
Lemma dense_rows_complete (w : dense_parameters F) i : dense_wf w -> aligned w i ->
  (Z.land i (d_weight_mask w), ws_row w i) ∈ ws_rows w.
Proof.
  intros Hw Hi. cbn. apply list_elem_of_fmap. exists (dense_slot w i).
  assert (Z.of_nat (dense_slot w i) = Z.land i (d_weight_mask w)) as Hz.
  { destruct Hw as (n & m & Hm & _). unfold dense_slot. destruct (masked_aligned n _ _ i Hm (proj2 Hi)). lia. }
  split; [|apply dense_positions_spec; [done|by exists i]]. rewrite Hz. f_equal.
  unfold dense_row, dense_slot. by rewrite <- Z.land_assoc, Z.land_diag.
Qed.

#[export] Program Instance dense_rows_laws : WeightRowsLaws (dense_parameters F) F.
Next Obligation.
  intros w Hw. unfold ws_rows, dense_rows. rewrite <- list_fmap_compose. unfold compose. cbn [fst].
  rewrite (list_fmap_ext _ Z.of_nat) by done. apply NoDup_fmap_2; [apply _|].
  unfold dense_positions. destruct (d_begin w); [|constructor]. pose proof (dense_stride_pos w Hw).
  apply NoDup_fmap_2; [intros a a'; nia|apply NoDup_seq].
Qed.
Next Obligation.
  intros w p r Hw Hin. apply list_elem_of_fmap in Hin as (q & [= -> ->] & Hq).
  apply (dense_positions_spec w q Hw) in Hq as (i & Hi & <-). destruct Hw as (n & m & Hm & _).
  destruct (masked_aligned n _ _ i Hm (proj2 Hi)) as (? & ? & ?). split; [done|].
  assert (Z.of_nat (dense_slot w i) = Z.land i (d_weight_mask w)) as -> by (unfold dense_slot; lia).
  split; [by split|]. cbn. by rewrite <- Z.land_assoc, Z.land_diag.
Qed.

#[export] Program Instance parameters_rows_laws : WeightRowsLaws (parameters F) F.
Next Obligation. intros [ad no [] d s]; [exact (ws_rows_NoDup s)|exact (ws_rows_NoDup d)]. Qed.
Next Obligation. intros [ad no [] d s]; [exact (ws_rows_ok s)|exact (ws_rows_ok d)]. Qed.
End RowsLaws.

(** ** Any two stores with the same rows behave alike *)

(** What a caller does with weights: read one, change a row, or change every row. *)
Inductive weight_op (F : Type) :=
| Get (i : Z)
| Update (i : Z) (f : list F -> list F)
| EachRow (f : list F -> list F).
Arguments Get {F} i.
Arguments Update {F} i f.
Arguments EachRow {F} f.

Section Run.
Context {W F : Type} `{WeightStore W F}.

(** The floats seen by an operation, and the store after it. *)
Definition run_op (op : weight_op F) (w : W) : option (list F * W) :=
  match op with
  | Get i => '(w, v) ← ws_get i w; Some ([v], w)
  | Update i f => '(w, r) ← ws_access i w; Some (r, ws_write i (f r) w)
  | EachRow f => Some ([], ws_map_rows f w)
  end.
Fixpoint run_ops (ops : list (weight_op F)) (w : W) : option (list F * W) :=
  match ops with
  | [] => Some ([], w)
  | op :: ops => '(o, w) ← run_op op w; '(os, w) ← run_ops ops w; Some (o ++ os, w)
  end.

Definition op_ok `{!WeightStoreLaws W F} (w : W) (op : weight_op F) : Prop :=
  match op with
  | Get i => aligned w i
  | Update i f => aligned w i /\ forall r, length (f r) = length r
  | EachRow f => ws_fixed f w /\ forall r, length (f r) = length r
  end.
End Run.

Record same_rows {W1 W2 F} `{WeightStoreLaws W1 F, WeightStoreLaws W2 F} (w1 : W1) (w2 : W2) : Prop := {
  same_wf1 : ws_wf w1;
  same_wf2 : ws_wf w2;
  same_mask : ws_mask w1 = ws_mask w2;
  same_shift : ws_stride_shift w1 = ws_stride_shift w2;
  same_row j : aligned w1 j -> ws_row w1 j = ws_row w2 j
}.

Section Refine.
Context {W1 W2 F : Type} `{WeightStoreLaws W1 F, WeightStoreLaws W2 F}.

Lemma same_aligned (w1 : W1) (w2 : W2) i : same_rows w1 w2 -> aligned w1 i <-> aligned w2 i.
Proof. intros Hs. unfold aligned. by rewrite (same_shift _ _ Hs). Qed.

Lemma ops_kept {W} `{WeightStoreLaws W F} (w w' : W) : ws_stride_shift w' = ws_stride_shift w ->
  (forall f, ws_fixed f w -> ws_fixed f w') -> forall op, op_ok w op -> op_ok w' op.
Proof. intros Hsh Hf [j|j f|f]; cbn; unfold aligned; rewrite ?Hsh; intuition auto. Qed.

(** Rows that each store keeps are kept alike. *)
Lemma same_kept (w1 w1' : W1) (w2 w2' : W2) : same_rows w1 w2 -> ws_wf w1' -> ws_wf w2' ->
  ws_mask w1' = ws_mask w1 -> ws_mask w2' = ws_mask w2 ->
  ws_stride_shift w1' = ws_stride_shift w1 -> ws_stride_shift w2' = ws_stride_shift w2 ->
  (forall j, aligned w1 j -> aligned w2 j -> ws_row w1 j = ws_row w2 j -> ws_row w1' j = ws_row w2' j) -> same_rows w1' w2'.
Proof.
  intros Hs ? ? ? ? Hsh1 Hsh2 Hrow. pose proof (same_shift _ _ Hs). pose proof (same_mask _ _ Hs).
  split; try done; try congruence. intros j Hj. unfold aligned in Hj. rewrite Hsh1 in Hj.
  apply Hrow; [done|by apply (same_aligned w1 w2)|by apply Hs].
Qed.

Lemma same_access (w1 : W1) (w2 : W2) i : same_rows w1 w2 -> aligned w1 i ->
  exists w1' w2' r, ws_access i w1 = Some (w1', r) /\ ws_access i w2 = Some (w2', r) /\ length r = ws_stride w1 /\
    same_rows w1' w2' /\ ws_stride_shift w1' = ws_stride_shift w1 /\ ws_stride_shift w2' = ws_stride_shift w2 /\
    (forall f, ws_fixed f w1 -> ws_fixed f w1') /\ (forall f, ws_fixed f w2 -> ws_fixed f w2').
Proof.
  intros Hs Hi. pose proof (proj1 (same_aligned _ _ i Hs) Hi) as Hi2.
  destruct (ws_access_ok w1 i (same_wf1 _ _ Hs) Hi) as (w1' & E1 & Hw1 & Hm1 & Hsh1 & Hf1 & Hr1).
  destruct (ws_access_ok w2 i (same_wf2 _ _ Hs) Hi2) as (w2' & E2 & Hw2 & Hm2 & Hsh2 & Hf2 & Hr2).
  exists w1', w2', (ws_row w1 i). rewrite (same_row _ _ Hs i Hi) at 2. split_and!; try done.
  - by apply ws_row_length; [apply Hs|].
  - eapply same_kept; try done. intros j Hj1 Hj2 Hj. by rewrite Hr1, Hr2.
Qed.

Lemma same_write (w1 : W1) (w2 : W2) i r : same_rows w1 w2 -> aligned w1 i -> length r = ws_stride w1 ->
  same_rows (ws_write i r w1) (ws_write i r w2) /\ ws_stride_shift (ws_write i r w1) = ws_stride_shift w1 /\
  ws_stride_shift (ws_write i r w2) = ws_stride_shift w2 /\
  (forall f, ws_fixed f w1 -> ws_fixed f (ws_write i r w1)) /\ (forall f, ws_fixed f w2 -> ws_fixed f (ws_write i r w2)).
Proof.
  intros Hs Hi Hr. pose proof (proj1 (same_aligned _ _ i Hs) Hi) as Hi2.
  destruct (ws_write_ok w1 i r (same_wf1 _ _ Hs) Hi Hr) as (Hw1 & Hm1 & Hsh1 & Hf1 & Hr1).
  destruct (ws_write_ok w2 i r (same_wf2 _ _ Hs) Hi2) as (Hw2 & Hm2 & Hsh2 & Hf2 & Hr2).
  { unfold ws_stride in *. by rewrite <- (same_shift _ _ Hs). }
  split_and!; try done. eapply same_kept; try done. intros j Hj1 Hj2 Hj.
  rewrite Hr1, Hr2, (same_mask _ _ Hs) by done. by case_decide.
Qed.

Lemma same_run_op (w1 : W1) (w2 : W2) op : same_rows w1 w2 -> op_ok w1 op -> op_ok w2 op ->
  exists o w1' w2', run_op op w1 = Some (o, w1') /\ run_op op w2 = Some (o, w2') /\ same_rows w1' w2' /\
    (forall op', op_ok w1 op' -> op_ok w1' op') /\ (forall op', op_ok w2 op' -> op_ok w2' op').
Proof.
  intros Hs Ho1 Ho2.
  destruct op as [i|i f|f]; cbn in *.
  - pose proof (same_row _ _ Hs i Ho1) as Hrow.
    destruct (ws_get_ok w1 i (same_wf1 _ _ Hs) Ho1) as (w1' & v & E1 & Hv & Hw1 & Hm1 & Hsh1 & Hf1 & Hr1).
    destruct (ws_get_ok w2 i (same_wf2 _ _ Hs) Ho2) as (w2' & v' & E2 & Hv' & Hw2 & Hm2 & Hsh2 & Hf2 & Hr2).
    rewrite Hrow, Hv' in Hv. injection Hv as ->. rewrite E1, E2. exists [v], w1', w2'.
    split; [done|]. split; [done|].
    split; [|by split; apply ops_kept].
    eapply same_kept; try done. intros j Hj1 Hj2 Hj. by rewrite Hr1, Hr2.
  - destruct Ho1 as [Hi Hf]. destruct (same_access w1 w2 i Hs Hi) as (w1' & w2' & r & E1 & E2 & Hl & Hs' & Hsh1 & Hsh2 & Hf1 & Hf2).
    destruct (same_write w1' w2' i (f r) Hs') as (Hs'' & Hsh1' & Hsh2' & Hf1' & Hf2');
      [unfold aligned; by rewrite Hsh1|rewrite Hf, Hl; unfold ws_stride; by rewrite Hsh1|].
    rewrite E1, E2. exists r, (ws_write i (f r) w1'), (ws_write i (f r) w2'). split; [done|]. split; [done|]. split; [done|].
    split; apply ops_kept; auto; congruence.
  - destruct Ho1 as [Hf1 Hlen], Ho2 as [Hf2 _].
    destruct (ws_map_rows_ok w1 f (same_wf1 _ _ Hs) Hlen Hf1) as (Hw1 & Hm1 & Hsh1 & Hfx1 & Hr1).
    destruct (ws_map_rows_ok w2 f (same_wf2 _ _ Hs) Hlen Hf2) as (Hw2 & Hm2 & Hsh2 & Hfx2 & Hr2).
    exists [], (ws_map_rows f w1), (ws_map_rows f w2). split; [done|]. split; [done|].
    split; [|by split; apply ops_kept].
    eapply same_kept; try done. intros j Hj1 Hj2 Hj. by rewrite Hr1, Hr2, Hj.
Qed.

Lemma same_run_ops ops (w1 : W1) (w2 : W2) : same_rows w1 w2 -> Forall (op_ok w1) ops -> Forall (op_ok w2) ops ->
  exists os w1' w2', run_ops ops w1 = Some (os, w1') /\ run_ops ops w2 = Some (os, w2') /\ same_rows w1' w2'.
Proof.
  revert w1 w2; induction ops as [|op ops IH]; intros w1 w2 Hs Ho1 Ho2; [by exists [], w1, w2|].
  apply Forall_cons in Ho1 as [Ho1 Ho1'], Ho2 as [Ho2 Ho2'].
  destruct (same_run_op w1 w2 op Hs Ho1 Ho2) as (o & w1' & w2' & E1 & E2 & Hs' & Hok1 & Hok2).
  destruct (IH w1' w2' Hs') as (os & w1'' & w2'' & E1' & E2' & Hs''); [by apply (Forall_impl _ _ _ Ho1')|by apply (Forall_impl _ _ _ Ho2')|].
  exists (o ++ os), w1'', w2''. cbn [run_ops]. rewrite E1, E2. cbn. by rewrite E1', E2'.
Qed.
End Refine.

(** ** The initial stores *)

Lemma make_mask_ok (bits shift : nat) : Z.of_nat bits + Z.of_nat shift < 64 -> let n := (bits + shift)%nat in
  u64 (Z.shiftl (2 ^ Z.of_nat bits) (Z.of_nat shift)) = 2 ^ Z.of_nat n /\
  mask_ok n (u64 (2 ^ Z.of_nat n - 1)) (Z.of_nat shift).
Proof.
  intros Hb n. assert (2 ^ Z.of_nat n < 2 ^ 64) as Hn by (apply Z.pow_lt_mono_r; lia).
  pose proof (Z.pow_pos_nonneg 2 (Z.of_nat n) ltac:(lia) ltac:(lia)). split.
  - rewrite Z.shiftl_mul_pow2, <- Z.pow_add_r by lia. replace (Z.of_nat bits + Z.of_nat shift) with (Z.of_nat n) by lia.
    apply Z.mod_small. lia.
  - split; [|lia]. rewrite Z.ones_equiv. apply Z.mod_small. lia.
Qed.

Section Initial.
Context {F : Type} `{Num F} (bits shift : nat).
Hypothesis Hbits : Z.of_nat bits + Z.of_nat shift < 64.
#[local] Abbreviation length := (2 ^ Z.of_nat bits).

Lemma dense_make_wf : dense_wf (dense_make (F := F) length (Z.of_nat shift)) /\
  forall i, (2 ^ Z.of_nat shift | i) ->
    dense_row (dense_make (F := F) length (Z.of_nat shift)) i = replicate (Z.to_nat (2 ^ Z.of_nat shift)) (n_of_Z 0).
Proof.
  destruct (make_mask_ok bits shift Hbits) as [Hn Hm]. set (n := (bits + shift)%nat) in *.
  pose proof (Z.pow_pos_nonneg 2 (Z.of_nat n) ltac:(lia) ltac:(lia)) as Hpos.
  assert (dense_wf (dense_make (F := F) length (Z.of_nat shift))) as Hw.
  { exists n. eexists. unfold dense_make. rewrite Hn. cbn. rewrite (proj2 (Z.eqb_neq _ _)) by lia. split_and!; [done..|].
    apply length_replicate. }
  split; [done|]. intros i Hi. pose proof (dense_row_length _ i Hw Hi) as Hl.
  unfold dense_row, dense_make in *. rewrite Hn in *. rewrite (proj2 (Z.eqb_neq _ _)) in * by lia. cbn [d_begin default] in *.
  unfold id in *. change (dense_stride (Dense _ _ _)) with (Z.to_nat (2 ^ Z.of_nat shift)) in *.
  rewrite drop_replicate, take_replicate in *. rewrite length_replicate in Hl. by rewrite Hl.
Qed.

Lemma dense_default_wf (f : default_func F) : (0 < bits + shift)%nat ->
  dense_wf (dense_set_default f (dense_make length (Z.of_nat shift))) /\
  d_weight_mask (dense_set_default f (dense_make length (Z.of_nat shift))) = d_weight_mask (dense_make (F := F) length (Z.of_nat shift)) /\
  d_stride_shift (dense_set_default f (dense_make length (Z.of_nat shift))) = Z.of_nat shift /\
  forall i, (2 ^ Z.of_nat shift | i) -> dense_row (dense_set_default f (dense_make length (Z.of_nat shift))) i =
    store_defaults (f (Z.land i (d_weight_mask (dense_make (F := F) length (Z.of_nat shift)))))
      (replicate (Z.to_nat (2 ^ Z.of_nat shift)) (n_of_Z 0)).
Proof.
  intros Hb. destruct dense_make_wf as [Hw Hrow]. set (w := dense_make length (Z.of_nat shift)) in *.
  destruct (dense_for_each_ok (fun p => store_defaults (f (Z.of_nat p))) w Hw) as [Hw' Hrow'];
    [intros; apply store_defaults_length|].
  assert (dense_not_null w = true) as Hnn.
  { destruct Hw as (n & m & [Hm _] & Hb' & _). unfold dense_not_null. rewrite Hb'. apply andb_true_iff. split; [|done].
    destruct (make_mask_ok bits shift Hbits) as [Hn [Hm' _]]. apply Z.ltb_lt. unfold w, dense_make. rewrite Hn. cbn [d_weight_mask].
    rewrite Hm'. rewrite Z.ones_equiv. pose proof (Z.pow_le_mono_r 2 1 (Z.of_nat (bits + shift)) ltac:(lia) ltac:(lia)). lia. }
  unfold dense_set_default. rewrite Hnn. split_and!; try done.
  intros i Hi. rewrite Hrow' by done. rewrite Hrow by done. f_equal. f_equal. unfold dense_slot. rewrite Z2Nat.id; [done|].
  destruct Hw as (n & m & Hm & _). destruct (masked_aligned _ _ _ i Hm Hi) as (_ & ? & _). done.
Qed.

(** The sparse map reads as the dense array from the start. *)
Lemma initial_same (f : default_func F) : (0 < bits + shift)%nat ->
  same_rows (dense_set_default f (dense_make length (Z.of_nat shift))) (sparse_set_default f (sparse_make length (Z.of_nat shift))).
Proof.
  intros Hb. destruct (dense_default_wf f Hb) as (Hw & Hm & Hs & Hrow).
  destruct (make_mask_ok bits shift Hbits) as [Hn Hmk].
  split; cbn [ws_wf dense_laws sparse_laws]; try done.
  - split; [|apply map_Forall_empty]. cbn. rewrite Hn. by eexists.
  - intros j [_ Hj]. cbn in Hj. rewrite Hs in Hj. cbn. rewrite Hrow by done. done.
Qed.
End Initial.

(** C11: the sparse map implements the dense array: whatever a caller does with aligned indices -
    reading weights, changing rows, changing all rows by a function that leaves untouched rows as
    they are - both give the same floats at every step, and still agree afterwards. *)
Theorem sparse_refines_dense {F : Type} `{Num F} (bits shift : nat) (f : default_func F) (ops : list (weight_op F)) :
  Z.of_nat bits + Z.of_nat shift < 64 -> (0 < bits + shift)%nat ->
  let wd := dense_set_default f (dense_make (2 ^ Z.of_nat bits) (Z.of_nat shift)) in
  let ws := sparse_set_default f (sparse_make (2 ^ Z.of_nat bits) (Z.of_nat shift)) in
  Forall (op_ok ws) ops ->
  exists os wd' ws', run_ops ops wd = Some (os, wd') /\ run_ops ops ws = Some (os, ws') /\ same_rows wd' ws'.
Proof.
  intros Hb Hn wd ws Hok. pose proof (initial_same bits shift Hb f Hn) as Hs. apply same_run_ops; [done| |done].
  eapply Forall_impl; [exact Hok|]. intros [i|i g|g]; cbn; [|intros [? ?]; split; [|done]|by intros [_ ?]].
  - by apply (same_aligned _ _ i Hs).
  - by apply (same_aligned _ _ i Hs).
Qed.

(** A copy of a sparse map forgets how to make fresh rows. *)
Lemma shallow_copy_forgets_default {F : Type} `{Num F} (s : sparse_parameters F) i :
  s_map s !! sparse_slot s i = None -> sparse_row (sparse_shallow_copy s sparse_empty) i = zero_row s.
Proof. intros Hi. unfold sparse_row. cbn. change (sparse_slot (sparse_shallow_copy s sparse_empty) i) with (sparse_slot s i). by rewrite Hi. Qed.

Definition sample_ops : list (weight_op Q) :=
  [Get 4; Update 2 (fun r => <[0%nat := 7%Q]> r); Update 10 (fun r => <[1%nat := 5%Q]> r); EachRow (fun r => r); Get 2; Get 6; Update 8 (fun r => r)].
Example sample_sparse : option_map fst (run_ops sample_ops (sparse_set_default (fun i => [(0%nat, inject_Z i)]) (sparse_make 4 1))) =
  Some ([4; 2; 0; 7; 0; 7; 6; 0; 0]%Q).
Proof. vm_compute. done. Qed.

Lemma sparse_refines_dense_witness :
  let wd := dense_set_default (fun i => [(0%nat, inject_Z i)]) (dense_make (2 ^ Z.of_nat 2) (Z.of_nat 1)) in
  let ws := sparse_set_default (fun i => [(0%nat, inject_Z i)]) (sparse_make (2 ^ Z.of_nat 2) (Z.of_nat 1)) in
  exists os wd' ws', run_ops sample_ops wd = Some (os, wd') /\ run_ops sample_ops ws = Some (os, ws') /\ same_rows wd' ws'.
Proof.
  apply (sparse_refines_dense 2 1); [lia|lia|].
  assert (forall k, 0 <= k -> aligned (sparse_set_default (fun i => [(0%nat, inject_Z i)]) (sparse_make (2 ^ Z.of_nat 2) (Z.of_nat 1))) (2 * k)) as Ha
    by (intros k Hk; split; [lia|exists k; cbn; lia]).
  unfold sample_ops. rewrite !Forall_cons. cbn [op_ok]. split_and!; try done; try (intros; apply length_insert).
  all: first [apply (Ha 1) | apply (Ha 2) | apply (Ha 3) | apply (Ha 4) | apply (Ha 5)]; lia.
Defined.
