(* ===== verification/Gd.v ===== *)
(** * Gradient descent ([core/src/reductions/gd.cc], [core/include/vw/core/gd_predict.h])

    The base learner: prediction as a sum over the features of an example and its interactions,
    the update with its adaptive and normalized variants, the lazy l1 and l2 regularisation and the
    prediction of several models at once. The weights are used through [WeightStore], so the
    theorems hold for the dense and the sparse array. *)

From S2P Require Import Prelude.
From S2P Require Import Features.
From S2P Require Import InteractionPredict.
From S2P Require Import Losses.
From S2P Require Import Weights.

(** ** Data *)

Section Data.
Context {F D : Type}.

(** The fields of an example that gradient descent reads or writes. *)
Record example := Example_ {
  ex_label : F; ex_weight : F; ex_initial : F;
  ex_ft_offset : Z;
  ex_indices : list Z; ex_space : Z -> features F;
  ex_interactions : list (list Z); ex_extent_interactions : list (list extent_term);
  ex_use_permutations : bool;
  ex_pred_scalar : F; ex_partial_prediction : F; ex_updated_prediction : F;
  ex_num_features_from_interactions : nat;
  (** [total_sum_feat_sq], once calculated *)
  ex_total_sum_feat_sq : option F
}.

(** The options of the workspace that gradient descent reads. *)
Record config := Config {
  ignore_some_linear : bool; ignore_linear : Z -> bool; permutations : bool;
  loss : loss_function F; eta : F; reg_mode : Z; l1_lambda : F; l2_lambda : F
}.

(** The template arguments of [learn], [update] and [sensitivity]: the offsets of the adaptive,
    normalizing and spare floats in a row, 0 for none. *)
Record variant := Variant {
  v_sparse_l2 : bool; v_invariant : bool; v_sqrt_rate : bool; v_feature_mask_off : bool; v_adax : bool;
  v_adaptive : nat; v_normalized : nat; v_spare : nat
}.

Record gd_per_model_state := PerModel { normalized_sum_norm_x : D; total_weight : D }.

(** The fields of [gd] that an update changes, those of [shared_data], and the weights. *)
Record gd {W : Type} := Gd {
  weights : W;
  sd_gravity : D; sd_contraction : D; sd_range : label_range F;
  sd_t : D; sd_weighted_holdout_examples : D; sd_weighted_unlabeled_examples : D;
  gd_per_model_states : list gd_per_model_state;
  current_model_state : option nat;
  update_multiplier : F;
  neg_norm_power : F; neg_power_t : F; sparse_l2 : F
}.
End Data.
Arguments example : clear implicits.
Arguments config : clear implicits.
Arguments gd_per_model_state : clear implicits.
Arguments gd : clear implicits.
Arguments Gd {F D W}.

Section Operations.
Context {F D W : Type} `{Num F, Num D, Widen F D, MathFns F, MathFns D, WeightStore W F}.
(** [inv_sqrt]: the reciprocal square root of the platform. *)
Context (inv_sqrt : F -> F).
Implicit Types (ec : example F) (g : gd F D W) (w : W) (cfg : config F) (v : variant).

#[local] Abbreviation zero := (n_of_Z 0 : F).
#[local] Abbreviation one := (n_of_Z 1 : F).

Definition nabs {G} `{Num G} (x : G) : G := if (x <? n_of_Z 0)%num then nopp x else x.
Definition isnan (x : F) : bool := negb (x =? x)%num.
Definition FLT_MAX : F := n_of_Z ((2 ^ 24 - 1) * 2 ^ 104).
Definition X_MIN : F := nlit (1084202 # 10 ^ 25).
Definition X2_MIN : F := (X_MIN * X_MIN)%num.
Definition X2_MAX : F := FLT_MAX.

Definition set_weights (w : W) g : gd F D W :=
  Gd w (sd_gravity g) (sd_contraction g) (sd_range g) (sd_t g) (sd_weighted_holdout_examples g)
    (sd_weighted_unlabeled_examples g) (gd_per_model_states g) (current_model_state g) (update_multiplier g)
    (neg_norm_power g) (neg_power_t g) (sparse_l2 g).
Definition set_regularization (gravity contraction : D) g : gd F D W :=
  Gd (weights g) gravity contraction (sd_range g) (sd_t g) (sd_weighted_holdout_examples g)
    (sd_weighted_unlabeled_examples g) (gd_per_model_states g) (current_model_state g) (update_multiplier g)
    (neg_norm_power g) (neg_power_t g) (sparse_l2 g).
Definition set_current_model (c : option nat) g : gd F D W :=
  Gd (weights g) (sd_gravity g) (sd_contraction g) (sd_range g) (sd_t g) (sd_weighted_holdout_examples g)
    (sd_weighted_unlabeled_examples g) (gd_per_model_states g) c (update_multiplier g)
    (neg_norm_power g) (neg_power_t g) (sparse_l2 g).
Definition set_norms (states : list (gd_per_model_state D)) (multiplier : F) g : gd F D W :=
  Gd (weights g) (sd_gravity g) (sd_contraction g) (sd_range g) (sd_t g) (sd_weighted_holdout_examples g)
    (sd_weighted_unlabeled_examples g) states (current_model_state g) multiplier
    (neg_norm_power g) (neg_power_t g) (sparse_l2 g).

Definition set_offset (o : Z) ec : example F :=
  Example_ (ex_label ec) (ex_weight ec) (ex_initial ec) o (ex_indices ec) (ex_space ec) (ex_interactions ec)
    (ex_extent_interactions ec) (ex_use_permutations ec) (ex_pred_scalar ec) (ex_partial_prediction ec)
    (ex_updated_prediction ec) (ex_num_features_from_interactions ec) (ex_total_sum_feat_sq ec).
Definition set_predictions (scalar partial : F) (n : nat) ec : example F :=
  Example_ (ex_label ec) (ex_weight ec) (ex_initial ec) (ex_ft_offset ec) (ex_indices ec) (ex_space ec) (ex_interactions ec)
    (ex_extent_interactions ec) (ex_use_permutations ec) scalar partial (ex_updated_prediction ec) n (ex_total_sum_feat_sq ec).
Definition set_updated (updated : F) (total : option F) ec : example F :=
  Example_ (ex_label ec) (ex_weight ec) (ex_initial ec) (ex_ft_offset ec) (ex_indices ec) (ex_space ec) (ex_interactions ec)
    (ex_extent_interactions ec) (ex_use_permutations ec) (ex_pred_scalar ec) (ex_partial_prediction ec) updated
    (ex_num_features_from_interactions ec) total.

(** ** The features of an example, in the order they are visited *)

Definition group_features (offset : Z) (fs : features F) : list (F * Z) :=
  zip_with (fun x i => ((one * x)%num, u64 (i + offset))) (values fs) (indices fs).

Definition linear_features cfg ec : list (F * Z) :=
  flat_map (fun ns => if ignore_some_linear cfg && ignore_linear cfg ns then [] else group_features (ex_ft_offset ec) (ex_space ec ns))
    (ex_indices ec).

(** With the number of those that interactions generate. *)
Definition features_of cfg ec : option (nat * list (F * Z)) :=
  '(n, evs) ← generate_interactions (ex_space ec) false (permutations cfg) (ex_interactions ec) (ex_extent_interactions ec) [];
  Some (n, linear_features cfg ec ++ generated (evs ≫= calls (ex_space ec) false (ex_ft_offset ec))).

(** [foreach_feature] with a callback that is given a reference to the weights, or a weight. *)
Fixpoint foreach_ref {A} (f : A -> F -> list F -> option (A * list F)) (feats : list (F * Z)) (dat : A) w : option (A * W) :=
  match feats with
  | [] => Some (dat, w)
  | (x, i) :: feats =>
      '(w, row) ← ws_access i w;
      '(dat, row) ← f dat x row;
      foreach_ref f feats dat (ws_write i row w)
  end.
Fixpoint foreach_get {A} (f : A -> F -> F -> A) (feats : list (F * Z)) (dat : A) w : option (A * W) :=
  match feats with
  | [] => Some (dat, w)
  | (x, i) :: feats => '(w, fw) ← ws_get i w; foreach_get f feats (f dat x fw) w
  end.

(** ** Prediction *)

Definition vec_add (p fx fw : F) : F := (p + fw * fx)%num.

Definition sign (w : F) : F := if (w <=? zero)%num then n_of_Z (-1) else one.
Definition trunc_weight (w gravity : F) : F := if (gravity <? nabs w)%num then (w - sign w * gravity)%num else zero.
Definition vec_add_trunc (gravity : F) (p fx : F) (row : list F) : option (F * list F) :=
  fw ← head row; Some ((p + trunc_weight fw gravity * fx)%num, row).

Definition inline_predict cfg ec w : option (nat * F * W) :=
  '(n, feats) ← features_of cfg ec;
  '(p, w) ← foreach_get vec_add feats (ex_initial ec) w;
  Some (n, p, w).
Definition trunc_predict cfg ec (gravity : D) w : option (nat * F * W) :=
  '(n, feats) ← features_of cfg ec;
  '(p, w) ← foreach_ref (vec_add_trunc (narrow gravity)) feats (ex_initial ec) w;
  Some (n, p, w).

Definition finalize_prediction (sd : label_range F) (ret : F) : F :=
  if isnan ret then zero
  else if (ret >? max_label sd)%num then max_label sd
  else if (ret <? min_label sd)%num then min_label sd
  else ret.

(** [predict<l1, audit>]; what [audit] prints is not modelled. *)
Definition predict (l1 : bool) cfg g ec : option (gd F D W * example F) :=
  '(n, p, w) ← (if l1 then trunc_predict cfg ec (sd_gravity g) (weights g) else inline_predict cfg ec (weights g));
  let partial := (p * narrow (sd_contraction g))%num in
  Some (set_weights w g, set_predictions (finalize_prediction (sd_range g) partial) partial n ec).

(** ** Several models at once: [multipredict] *)

Definition negligible (fx : F) : bool :=
  (nopp (nlit (1 # 10 ^ 10)) <? widen (D := D) fx)%num && (widen (D := D) fx <? nlit (1 # 10 ^ 10))%num.

Definition weight_at (i : Z) w : option (W * F) := '(w, row) ← ws_access i w; fw ← head row; Some (w, fw).

(** The loop while the last index is within the mask: it stops at [top]. *)
Fixpoint multi_run (fx : F) (step top i : Z) (pred : list F) w : option (list F * W) :=
  if i <=? top then
    match pred with
    | [] => None
    | p :: pred =>
        '(w, fw) ← weight_at i w;
        '(pred, w) ← multi_run fx step top (u64 (i + step)) pred w;
        Some ((p + fx * fw)%num :: pred, w)
    end
  else Some (pred, w).
(** The loop that masks every index. *)
Fixpoint multi_wrap (fx : F) (step mask i : Z) (pred : list F) w : option (list F * W) :=
  match pred with
  | [] => Some ([], w)
  | p :: pred =>
      let i := Z.land i mask in
      '(w, fw) ← weight_at i w;
      '(pred, w) ← multi_wrap fx step mask (u64 (i + step)) pred w;
      Some ((p + fx * fw)%num :: pred, w)
  end.
Definition vec_add_multipredict (step : Z) (pred : list F) (fx : F) (fi : Z) w : option (list F * W) :=
  if negligible fx then Some (pred, w)
  else
    let mask := ws_mask w in
    let fi := Z.land fi mask in
    let top := u64 (fi + u64 (u64 (Z.of_nat (length pred) - 1) * step)) in
    if top <=? mask then multi_run fx step top fi pred w else multi_wrap fx step mask fi pred w.

Fixpoint vec_add_trunc_multipredict (gravity : F) (step : Z) (pred : list F) (fx : F) (fi : Z) w : option (list F * W) :=
  match pred with
  | [] => Some ([], w)
  | p :: pred =>
      '(w, fw) ← weight_at fi w;
      '(pred, w) ← vec_add_trunc_multipredict gravity step pred fx (u64 (fi + step)) w;
      Some ((p + fx * trunc_weight fw gravity)%num :: pred, w)
  end.

Fixpoint foreach_index {A} (f : A -> F -> Z -> W -> option (A * W)) (feats : list (F * Z)) (dat : A) w : option (A * W) :=
  match feats with
  | [] => Some (dat, w)
  | (x, i) :: feats => '(dat, w) ← f dat x i w; foreach_index f feats dat w
  end.

(** [multipredict<l1, audit>]: the scalars of [pred[0..count)]. *)
Definition multipredict (l1 : bool) cfg g ec (count : nat) (step : Z) (finalize_predictions : bool) :
    option (gd F D W * example F * list F) :=
  '(n, feats) ← features_of cfg ec;
  let add := if l1 then vec_add_trunc_multipredict (narrow (sd_gravity g)) step else vec_add_multipredict step in
  '(pred, w) ← foreach_index add feats (replicate count (ex_initial ec)) (weights g);
  let contract p := if negb (sd_contraction g =? n_of_Z 1)%num then (p * narrow (sd_contraction g))%num else p in
  let finalize p := if finalize_predictions then finalize_prediction (sd_range g) p else p in
  Some (set_weights w g, set_predictions (ex_pred_scalar ec) (ex_partial_prediction ec) n ec, map (fun p => finalize (contract p)) pred).

(** [learner::multipredict] for a learner that has none of its own: one prediction per model. *)
Fixpoint multipredict_loop (l1 : bool) cfg g ec (count : nat) (step : Z) (finalize_predictions : bool) : option (gd F D W * list F) :=
  match count with
  | O => Some (g, [])
  | S count =>
      '(g, ec') ← predict l1 cfg g ec;
      '(g, pred) ← multipredict_loop l1 cfg g (set_offset (u64 (ex_ft_offset ec + step)) ec') count step finalize_predictions;
      Some (g, (if finalize_predictions then ex_pred_scalar ec' else ex_partial_prediction ec') :: pred)
  end.

(** ** Lazy regularisation *)

(** [w[0]] of every row truncated and scaled. *)
Definition sync_row (gravity contraction : F) (row : list F) : list F :=
  match row with fw :: row => (trunc_weight fw gravity * contraction)%num :: row | [] => [] end.
Definition sync_weights g : gd F D W :=
  if (sd_gravity g =? n_of_Z 0)%num && (sd_contraction g =? n_of_Z 1)%num then g
  else set_regularization (n_of_Z 0) (n_of_Z 1)
         (set_weights (ws_map_rows (sync_row (narrow (sd_gravity g)) (narrow (sd_contraction g))) (weights g)) g).

(** ** The rates of the features *)

Record norm_data := NormData {
  nd_grad_squared : F; nd_pred_per_update : F; nd_norm_x : F; nd_minus_power_t : F; nd_neg_norm_power : F
}.

Definition compute_rate_decay v (nd : norm_data) (row : list F) : option F :=
  rate_decay ←
    (if (0 <? v_adaptive v)%nat then
       a ← row !! v_adaptive v;
       Some (if v_sqrt_rate v then inv_sqrt a else npow a (nd_minus_power_t nd))
     else Some one);
  if (0 <? v_normalized v)%nat then
    n ← row !! v_normalized v;
    Some (if v_sqrt_rate v then
            let inv_norm := (one / n)%num in
            if (0 <? v_adaptive v)%nat then (rate_decay * inv_norm)%num else (rate_decay * (inv_norm * inv_norm))%num
          else (rate_decay * npow (n * n) (nd_neg_norm_power nd))%num)
  else Some rate_decay.

(** A new scale: the weight is rescaled as if the scale had always been [x_abs]. *)
Definition rescale v (nd : norm_data) (x_abs : F) (row : list F) : option (list F) :=
  n ← row !! v_normalized v;
  if (x_abs >? n)%num then
    row ← (if (n >? zero)%num then
             w0 ← row !! 0%nat;
             if v_sqrt_rate v then
               let r := (n / x_abs)%num in
               Some (<[0%nat := (w0 * (if (0 <? v_adaptive v)%nat then r else r * r))%num]> row)
             else
               let r := (x_abs / n)%num in
               Some (<[0%nat := (w0 * npow (r * r) (nd_neg_norm_power nd))%num]> row)
           else Some row);
    Some (<[v_normalized v := x_abs]> row)
  else Some row.

(** The work of [pred_per_update_feature] on the row it may change. *)
Definition feature_rate v (nd : norm_data) (x : F) (row : list F) : option (norm_data * list F) :=
  let x2 := (x * x)%num in
  let '(x, x2) := if (x2 <? X2_MIN)%num then ((if (x >? zero)%num then X_MIN else nopp X_MIN), X2_MIN) else (x, x2) in
  row ← (if (0 <? v_adaptive v)%nat
         then a ← row !! v_adaptive v; Some (<[v_adaptive v := (a + nd_grad_squared nd * x2)%num]> row)
         else Some row);
  '(row, norm_x2) ←
    (if (0 <? v_normalized v)%nat then
       row ← rescale v nd (nabs x) row;
       n ← row !! v_normalized v;
       Some (row, if (x2 >? X2_MAX)%num then one else (x2 / (n * n))%num)
     else Some (row, zero));
  rate ← compute_rate_decay v nd row;
  let norm_x := if (0 <? v_normalized v)%nat then (nd_norm_x nd + norm_x2)%num else nd_norm_x nd in
  Some (NormData (nd_grad_squared nd) (nd_pred_per_update nd + x2 * rate)%num norm_x (nd_minus_power_t nd) (nd_neg_norm_power nd),
        <[v_spare v := rate]> row).

(** [stateless]: the work is done on a shadow of the row. *)
Definition shadow v (row : list F) : option (list F) :=
  w0 ← row !! 0%nat; a ← row !! v_adaptive v; n ← row !! v_normalized v;
  Some (<[v_normalized v := n]> (<[v_adaptive v := a]> (<[0%nat := w0]> (replicate 4 zero)))).
Definition pred_per_update_feature (stateless : bool) v (nd : norm_data) (x : F) (row : list F) : option (norm_data * list F) :=
  fw ← head row;
  if v_feature_mask_off v || negb (fw =? zero)%num then
    if stateless then s ← shadow v row; '(nd, _) ← feature_rate v nd x s; Some (nd, row)
    else feature_rate v nd x row
  else Some (nd, row).

Definition average_update v (total_weight normalized_sum_norm_x neg_norm_power : F) : F :=
  if (0 <? v_normalized v)%nat then
    if v_sqrt_rate v then
      let avg_norm := (total_weight / normalized_sum_norm_x)%num in
      if (0 <? v_adaptive v)%nat then nsqrt avg_norm else avg_norm
    else npow (normalized_sum_norm_x / total_weight)%num neg_norm_power
  else one.

Definition get_pred_per_update (stateless : bool) v cfg g ec : option (F * gd F D W) :=
  let grad_squared := if v_adax v then ex_weight ec
                      else (ex_weight ec * get_square_grad (loss cfg) (ex_pred_scalar ec) (ex_label ec))%num in
  if (grad_squared =? zero)%num && negb stateless then Some (one, g)
  else
    let nd := NormData grad_squared zero zero (neg_power_t g) (neg_norm_power g) in
    '(_, feats) ← features_of cfg ec;
    '(nd, w) ← foreach_ref (pred_per_update_feature stateless v) feats nd (weights g);
    let g := set_weights w g in
    if (0 <? v_normalized v)%nat then
      c ← current_model_state g;
      s ← gd_per_model_states g !! c;
      let nsnx := (normalized_sum_norm_x s + widen (ex_weight ec) * widen (nd_norm_x nd))%num in
      let tw := (total_weight s + widen (ex_weight ec))%num in
      if stateless then
        let m := average_update v (narrow (total_weight s) + ex_weight ec)%num
                   (narrow (normalized_sum_norm_x s) + ex_weight ec * nd_norm_x nd)%num (neg_norm_power g) in
        Some ((nd_pred_per_update nd * m)%num, set_norms (gd_per_model_states g) m g)
      else
        let m := average_update v (narrow tw) (narrow nsnx) (neg_norm_power g) in
        Some ((nd_pred_per_update nd * m)%num, set_norms (<[c := PerModel nsnx tw]> (gd_per_model_states g)) m g)
    else Some (nd_pred_per_update nd, g).

(** [calculate_total_sum_features_squared] and the cache of its result in the example. *)
Definition calculate_total_sum_features_squared (permutations : bool) ec : F :=
  let sum := fold_left (fun sum ns => (sum + sum_feat_sq (ex_space ec ns))%num) (ex_indices ec) zero in
  (sum + eval_sum_ft_squared_of_generated_ft (ex_space ec) permutations (ex_interactions ec) (ex_extent_interactions ec))%num.
Definition get_total_sum_feat_sq ec : F * example F :=
  match ex_total_sum_feat_sq ec with
  | Some t => (t, ec)
  | None =>
      let t := calculate_total_sum_features_squared (ex_use_permutations ec) ec in
      (t, set_updated (ex_updated_prediction ec) (Some t) ec)
  end.

(** The inner [sensitivity]: what the prediction moves per unit of update. *)
Definition sensitivity_of (stateless : bool) v cfg g ec : option (F * gd F D W * example F) :=
  if (0 <? v_adaptive v)%nat || (0 <? v_normalized v)%nat
  then '(s, g) ← get_pred_per_update stateless v cfg g ec; Some (s, g, ec)
  else let '(s, ec) := get_total_sum_feat_sq ec in Some (s, g, ec).

Definition get_scale v cfg g (weight : F) : F :=
  let update_scale := (eta cfg * weight)%num in
  if (0 <? v_adaptive v)%nat then update_scale
  else
    let t := narrow (sd_t g + widen weight - sd_weighted_holdout_examples g - sd_weighted_unlabeled_examples g)%num in
    (update_scale * npow t (neg_power_t g))%num.

(** The state the offset of the example selects. *)
Definition model_of g ec : nat := Z.to_nat (ex_ft_offset ec / 2 ^ ws_stride_shift (weights g)).

(** The outer [sensitivity]. The assignment after its [return] is never executed. *)
Definition sensitivity v cfg g ec : option (F * gd F D W * example F) :=
  let g := match current_model_state g with None => set_current_model (Some (model_of g ec)) g | Some _ => g end in
  '(s, g', ec) ← sensitivity_of true v cfg g ec;
  Some ((get_scale v cfg g one * s)%num, g', ec).

(** ** Learning *)

Definition update_feature v (update x : F) (row : list F) : option (list F) :=
  fw ← head row;
  if (x <? FLT_MAX)%num && (x >? nopp FLT_MAX)%num && (v_feature_mask_off v || negb (fw =? zero)%num) then
    x ← (if (0 <? v_spare v)%nat then s ← row !! v_spare v; Some (x * s)%num else Some x);
    Some (<[0%nat := (fw + update * x)%num]> row)
  else Some row.

Definition train v cfg g ec (update : F) : option (gd F D W) :=
  let update := if (0 <? v_normalized v)%nat then (update * update_multiplier g)%num else update in
  '(_, feats) ← features_of cfg ec;
  '(_, w) ← foreach_ref (fun (u : unit) x row => row ← update_feature v update x row; Some (u, row)) feats tt (weights g);
  Some (set_weights w g).

(** Implicit regularisation: the update enlarges [gravity] and shrinks [contraction]. *)
Definition regularize cfg g ec (update : F) : F * gd F D W :=
  if negb (reg_mode cfg =? 0)%Z && (widen (D := D) (nabs update) >? nlit (1 # 10 ^ 8))%num then
    let dev1 : D := widen (first_derivative (loss cfg) (sd_range g) (ex_pred_scalar ec) (ex_label ec)) in
    let steep := (nabs dev1 >? nlit (1 # 10 ^ 8))%num in
    let eta_bar := if steep then (widen (nopp update) / dev1)%num else n_of_Z 0 in
    let contraction := if steep then (sd_contraction g * (n_of_Z 1 - widen (l2_lambda cfg) * eta_bar))%num else sd_contraction g in
    ((update / narrow contraction)%num,
     set_regularization (sd_gravity g + eta_bar * widen (l1_lambda cfg))%num contraction g)
  else (update, g).

Definition compute_update v cfg g ec : option (F * gd F D W * example F) :=
  let ec := set_updated (ex_pred_scalar ec) (ex_total_sum_feat_sq ec) ec in
  '(update, g, ec) ←
    (if (get_loss (loss cfg) (sd_range g) (ex_pred_scalar ec) (ex_label ec) >? zero)%num then
       '(pred_per_update, g, ec) ← sensitivity_of false v cfg g ec;
       let update_scale := get_scale v cfg g (ex_weight ec) in
       let update := if v_invariant v
                     then get_update (loss cfg) (ex_pred_scalar ec) (ex_label ec) update_scale pred_per_update
                     else get_unsafe_update (loss cfg) (ex_pred_scalar ec) (ex_label ec) update_scale in
       let ec := set_updated (ex_updated_prediction ec + pred_per_update * update)%num (ex_total_sum_feat_sq ec) ec in
       let '(update, g) := regularize cfg g ec update in
       Some (update, g, ec)
     else Some (zero, g, ec));
  let update := if v_sparse_l2 v then (update - sparse_l2 g * ex_pred_scalar ec)%num else update in
  let update := if isnan update then zero else update in
  Some (update, g, ec).

Definition update v cfg g ec : option (gd F D W * example F) :=
  let g := match current_model_state g with None => set_current_model (Some (model_of g ec)) g | Some _ => g end in
  '(u, g, ec) ← compute_update v cfg g ec;
  g ← (if negb (u =? zero)%num then train v cfg g ec u else Some g);
  let g := if (sd_contraction g <? nlit (1 # 10 ^ 9))%num || (sd_gravity g >? n_of_Z 1000)%num then sync_weights g else g in
  Some (set_current_model None g, ec).

Definition learn (l1 : bool) v cfg g ec : option (gd F D W * example F) :=
  '(g, ec) ← predict l1 cfg g ec;
  update v cfg (set_current_model (Some (model_of g ec)) g) ec.
End Operations.

(** ** Which floats of a row are used *)

Fixpoint ceil_log_2 (fuel : nat) (v : Z) : Z :=
  match fuel with
  | O => 0
  | S fuel => if v =? 0 then 0 else 1 + ceil_log_2 fuel (Z.shiftr v 1)
  end.

(** [set_learn] and the stride it returns; the stride shift [gd_setup] gives the weights. *)
Definition set_learn (sparse_l2 invariant sqrt_rate feature_mask_off adax : bool) (adaptive normalized : bool) : variant * Z :=
  let a := if adaptive then 1%nat else 0%nat in
  let spare := if adaptive then 2%nat else 0%nat in
  if normalized
  then (Variant sparse_l2 invariant sqrt_rate feature_mask_off adax a (a + 1) (a + 2), Z.of_nat a + 3)
  else (Variant sparse_l2 invariant sqrt_rate feature_mask_off adax a 0 spare, Z.of_nat spare + 1).
Definition stride_shift_of (stride : Z) : Z := ceil_log_2 64 (stride - 1).

(** * Theorems *)

(** ** Visiting the weights of a list of features *)

Section Visits.
Context {F W : Type} `{Num F, WeightStoreLaws W F}.
Implicit Types (w : W) (feats : list (F * Z)).

(** The rows that can be read are kept. *)
Record keeps w w' : Prop := {
  keeps_wf : ws_wf w';
  keeps_mask : ws_mask w' = ws_mask w;
  keeps_shift : ws_stride_shift w' = ws_stride_shift w;
  keeps_fixed f : ws_fixed f w -> ws_fixed f w';
  keeps_row j : aligned w j -> ws_row w' j = ws_row w j
}.

Lemma keeps_refl w : ws_wf w -> keeps w w.
Proof. by split. Qed.

Lemma keeps_trans w1 w2 w3 : keeps w1 w2 -> keeps w2 w3 -> keeps w1 w3.
Proof.
  intros [? ? Hs Hf Hr] [? ? Hs' Hf' Hr']. split; try done; try congruence; [auto|].
  intros j Hj. rewrite Hr', Hr; [done|done|]. unfold aligned in *. by rewrite Hs.
Qed.

Lemma keeps_aligned w w' j : keeps w w' -> aligned w j <-> aligned w' j.
Proof. intros Hk. unfold aligned. by rewrite (keeps_shift _ _ Hk). Qed.

(** The weight itself: the first float of the row. *)
Definition weight_of w (i : Z) : F := default (n_of_Z 0) (head (ws_row w i)).

Lemma keeps_weight w w' i : keeps w w' -> aligned w i -> weight_of w' i = weight_of w i.
Proof. intros Hk Hi. unfold weight_of. by rewrite (keeps_row _ _ Hk). Qed.

Lemma get_keeps w i : ws_wf w -> aligned w i -> exists w', ws_get i w = Some (w', weight_of w i) /\ keeps w w'.
Proof.
  intros Hw Hi. destruct (ws_get_ok w i Hw Hi) as (w' & v & E & Hv & ? & ? & ? & ? & ?).
  exists w'. unfold weight_of. rewrite Hv. by split.
Qed.

Lemma access_keeps w i : ws_wf w -> aligned w i -> exists w', ws_access i w = Some (w', ws_row w i) /\ keeps w w'.
Proof. intros Hw Hi. destruct (ws_access_ok w i Hw Hi) as (w' & E & ? & ? & ? & ? & ?). exists w'. by split. Qed.

Lemma row_nonempty w i : ws_wf w -> aligned w i -> exists fw r, ws_row w i = fw :: r.
Proof.
  intros Hw Hi. destruct (ws_get_ok w i Hw Hi) as (_ & v & _ & Hv & _). destruct (ws_row w i) as [|fw r]; [done|]. by exists fw, r.
Qed.

Lemma weight_at_keeps w i : ws_wf w -> aligned w i -> exists w', weight_at i w = Some (w', weight_of w i) /\ keeps w w'.
Proof.
  intros Hw Hi. destruct (access_keeps w i Hw Hi) as (w' & E & Hk). exists w'. unfold weight_at, weight_of. rewrite E. cbn.
  destruct (row_nonempty w i Hw Hi) as (fw & r & ->). done.
Qed.

Lemma write_keeps w i : ws_wf w -> aligned w i -> keeps w (ws_write i (ws_row w i) w).
Proof.
  intros Hw Hi. destruct (ws_write_ok w i (ws_row w i) Hw Hi (ws_row_length w i Hw Hi)) as (? & ? & ? & ? & Hr).
  split; try done. intros j Hj. rewrite Hr by done. case_decide as E; [|done]. by apply ws_row_slot.
Qed.

Lemma foreach_get_ok {A} (f : A -> F -> F -> A) feats dat w : ws_wf w -> Forall (fun xi => aligned w xi.2) feats ->
  exists w', foreach_get f feats dat w = Some (fold_left (fun d xi => f d xi.1 (weight_of w xi.2)) feats dat, w') /\ keeps w w'.
Proof.
  intros Hw Ha. revert dat w Hw Ha. induction feats as [|[x i] feats IH]; intros dat w Hw Ha.
  - exists w. split; [done|by apply keeps_refl].
  - apply Forall_cons in Ha as [Hi Ha]. cbn [foreach_get fst snd] in *.
    destruct (get_keeps w i Hw Hi) as (w1 & E & Hk). rewrite E. cbn [mbind option_bind].
    destruct (IH (f dat x (weight_of w i)) w1 (keeps_wf _ _ Hk)) as (w' & E' & Hk').
    { eapply Forall_impl; [exact Ha|]. intros xi Hxi. by apply (keeps_aligned w _ xi.2 ltac:(eassumption)). }
    exists w'. split; [|by eapply keeps_trans]. rewrite E'. do 2 f_equal. cbn [fold_left fst snd].
    apply fold_left_ext. intros d [y j] Hyj. cbn. rewrite (keeps_weight w w1); [done|done|].
    rewrite Forall_forall in Ha. by apply (Ha (y, j)).
Qed.

(** A callback that only reads the weight. *)
Lemma foreach_ref_read {A} (f : A -> F -> F -> A) (g : A -> F -> list F -> option (A * list F)) feats dat w :
  ws_wf w -> Forall (fun xi => aligned w xi.2) feats ->
  (forall d x fw r, g d x (fw :: r) = Some (f d x fw, fw :: r)) ->
  exists w', foreach_ref g feats dat w = Some (fold_left (fun d xi => f d xi.1 (weight_of w xi.2)) feats dat, w') /\ keeps w w'.
Proof.
  intros Hw Ha Hg. revert dat w Hw Ha. induction feats as [|[x i] feats IH]; intros dat w Hw Ha.
  - exists w. split; [done|by apply keeps_refl].
  - apply Forall_cons in Ha as [Hi Ha]. cbn [foreach_ref fst snd] in *.
    destruct (access_keeps w i Hw Hi) as (w1 & E & Hk). rewrite E. cbn [mbind option_bind].
    destruct (row_nonempty w i Hw Hi) as (fw & r & Erow). rewrite Erow, Hg. cbn [mbind option_bind].
    assert (keeps w (ws_write i (fw :: r) w1)) as Hk1.
    { eapply keeps_trans; [exact Hk|]. rewrite <- Erow, <- (keeps_row _ _ Hk i Hi).
      apply write_keeps; [apply Hk|by apply (keeps_aligned w w1)]. }
    destruct (IH (f dat x fw) _ (keeps_wf _ _ Hk1)) as (w' & E' & Hk').
    { eapply Forall_impl; [exact Ha|]. intros xi Hxi. by apply (keeps_aligned w _ xi.2 ltac:(eassumption)). }
    exists w'. split; [|by eapply keeps_trans]. rewrite E'. do 2 f_equal. cbn [fold_left fst snd].
    replace (weight_of w i) with fw by (unfold weight_of; by rewrite Erow).
    apply fold_left_ext. intros d [y j] Hyj. cbn. rewrite (keeps_weight w _ _ Hk1); [done|].
    rewrite Forall_forall in Ha. by apply (Ha (y, j)).
Qed.

(** A callback that changes each row on its own, over features in distinct slots: every row is
    changed once, from what it was. *)
Definition slots w feats : list Z := (fun xi => Z.land xi.2 (ws_mask w)) <$> feats.

Record visited (row_of : F -> list F -> list F) feats w w' : Prop := {
  visited_wf : ws_wf w';
  visited_mask : ws_mask w' = ws_mask w;
  visited_shift : ws_stride_shift w' = ws_stride_shift w;
  visited_row x i : (x, i) ∈ feats -> ws_row w' i = row_of x (ws_row w i);
  visited_other j : aligned w j -> ~ Z.land j (ws_mask w) ∈ slots w feats -> ws_row w' j = ws_row w j
}.

Lemma foreach_ref_local {A} (P : A -> Prop) (f : A -> F -> list F -> option (A * list F))
    (dat_of : A -> F -> list F -> A) (row_of : F -> list F -> list F) feats dat w :
  ws_wf w -> Forall (fun xi => aligned w xi.2) feats -> NoDup (slots w feats) -> P dat ->
  (forall d x i, (x, i) ∈ feats -> P d ->
     f d x (ws_row w i) = Some (dat_of d x (ws_row w i), row_of x (ws_row w i)) /\
     P (dat_of d x (ws_row w i)) /\ length (row_of x (ws_row w i)) = ws_stride w) ->
  exists w', foreach_ref f feats dat w = Some (fold_left (fun d xi => dat_of d xi.1 (ws_row w xi.2)) feats dat, w') /\
    visited row_of feats w w'.
Proof.
  intros Hw Ha Hnd HP Hf. revert dat w Hw Ha Hnd HP Hf. induction feats as [|[x i] feats IH]; intros dat w Hw Ha Hnd HP Hf.
  - exists w. split; [done|]. split; try done. intros x i Hin. by apply elem_of_nil in Hin.
  - apply Forall_cons in Ha as [Hi Ha]. cbn [slots fmap list_fmap] in Hnd. apply NoDup_cons in Hnd as [Hfresh Hnd].
    cbn [foreach_ref fst snd] in *.
    destruct (access_keeps w i Hw Hi) as (w1 & E & Hk). rewrite E. cbn [mbind option_bind].
    destruct (Hf dat x i (list_elem_of_here _ _) HP) as (Ef & HP' & Hlen). rewrite Ef. cbn [mbind option_bind].
    destruct (ws_write_ok w1 i (row_of x (ws_row w i)) (keeps_wf _ _ Hk)) as (Hw2 & Hm2 & Hs2 & _ & Hr2).
    { by apply (keeps_aligned w w1). } { rewrite Hlen. unfold ws_stride. by rewrite (keeps_shift _ _ Hk). }
    set (w2 := ws_write i (row_of x (ws_row w i)) w1) in *.
    assert (forall j, aligned w j <-> aligned w2 j) as Hal by (intros j; unfold aligned; by rewrite Hs2, (keeps_shift _ _ Hk)).
    assert (forall j, aligned w j -> ws_row w2 j = if decide (Z.land j (ws_mask w) = Z.land i (ws_mask w)) then row_of x (ws_row w i) else ws_row w j) as Hrow.
    { intros j Hj. rewrite Hr2 by (by apply (keeps_aligned w w1)). rewrite (keeps_mask _ _ Hk), (keeps_row _ _ Hk) by done. done. }
    assert (forall y j, (y, j) ∈ feats -> aligned w j /\ ws_row w2 j = ws_row w j) as Hrest.
    { intros y j Hyj. assert (aligned w j) as Hj by (rewrite Forall_forall in Ha; by apply (Ha (y, j))).
      split; [done|]. rewrite Hrow by done. rewrite decide_False; [done|]. intros Heq. apply Hfresh. rewrite <- Heq.
      by apply (list_elem_of_fmap_2 (fun xi => Z.land xi.2 (ws_mask w)) feats (y, j)). }
    destruct (IH (dat_of dat x (ws_row w i)) w2) as (w' & E' & Hv); [done| | |done| |].
    + eapply Forall_impl; [exact Ha|]. intros xi. cbn. apply Hal.
    + unfold slots in *. by rewrite Hm2, (keeps_mask _ _ Hk).
    + intros d y j Hyj HPd. destruct (Hrest y j Hyj) as [_ ->].
      destruct (Hf d y j) as (? & ? & Hl); [by right|done|]. split_and!; try done.
      rewrite Hl. unfold ws_stride. by rewrite Hs2, (keeps_shift _ _ Hk).
    + exists w'. rewrite E'. cbn [fold_left fst snd]. split.
      { do 2 f_equal. apply fold_left_ext. intros d [y j] Hyj. cbn. by destruct (Hrest y j Hyj) as [_ ->]. }
      assert (slots w2 feats = slots w feats) as Hslots by (unfold slots; by rewrite Hm2, (keeps_mask _ _ Hk)).
      destruct Hv as [Hvw Hvm Hvs Hvr Hvo]. split; [done|by rewrite Hvm, Hm2, (keeps_mask _ _ Hk)|by rewrite Hvs, Hs2, (keeps_shift _ _ Hk)| |].
      * intros y j [[= -> ->]|Hyj]%elem_of_cons.
        -- rewrite Hvo; [rewrite Hrow by done; by rewrite decide_True|by apply Hal|].
           rewrite Hslots, Hm2, (keeps_mask _ _ Hk). done.
        -- rewrite (Hvr y j Hyj). by destruct (Hrest y j Hyj) as [_ ->].
      * intros j Hj Hnin. cbn [slots fmap list_fmap] in Hnin. apply not_elem_of_cons in Hnin as [Hne Hnin].
        rewrite Hvo; [rewrite Hrow by done; by rewrite decide_False|by apply Hal|].
        rewrite Hslots, Hm2, (keeps_mask _ _ Hk). done.
Qed.
End Visits.

(** ** The features visited are aligned, and follow the offset *)

Definition multiple (s i : Z) : Prop := 0 <= i /\ (2 ^ s | i).

(** An example as the parsers leave it: indices and offset multiples of the stride, full columns,
    interactions of two terms and more. *)
Record example_ok {F} (s : Z) (ec : example F) : Prop := {
  eo_offset : multiple s (ex_ft_offset ec);
  eo_indices g : Forall (multiple s) (indices (ex_space ec g));
  eo_space : space_ok false (ex_space ec);
  eo_interactions : Forall (fun ns => 2 <= length ns)%nat (ex_interactions ec);
  eo_extents : Forall (fun ns => 2 <= length ns)%nat (ex_extent_interactions ec)
}.

Lemma divide_u64 s x : 0 <= s < 64 -> (2 ^ s | x) -> (2 ^ s | u64 x).
Proof.
  intros Hs Hx. unfold u64. rewrite Z.mod_eq by lia. apply Z.divide_sub_r; [done|]. apply Z.divide_mul_l.
  exists (2 ^ (64 - s)). rewrite <- Z.pow_add_r by lia. f_equal. lia.
Qed.

Lemma multiple_u64 s x : 0 <= s < 64 -> (2 ^ s | x) -> multiple s (u64 x).
Proof. intros Hs Hx. split; [apply Z.mod_pos_bound; lia|by apply divide_u64]. Qed.

Lemma divide_low_bits s a : 0 <= s -> (2 ^ s | a) <-> forall k, 0 <= k < s -> Z.testbit a k = false.
Proof.
  intros Hs. rewrite <- Z.mod_divide by lia. rewrite <- Z.land_ones by done. split.
  - intros E k Hk. rewrite <- (andb_true_r (Z.testbit a k)), <- (Z.ones_spec_low s k) by lia. by rewrite <- Z.land_spec, E, Z.bits_0.
  - intros Hk. apply Z.bits_inj'. intros k Hk0. rewrite Z.land_spec, Z.bits_0.
    destruct (Z.ltb_spec k s); [by rewrite Hk by lia|]. rewrite Z.ones_spec_high by lia. apply andb_false_r.
Qed.

Lemma divide_lxor s a b : 0 <= s -> (2 ^ s | a) -> (2 ^ s | b) -> (2 ^ s | Z.lxor a b).
Proof.
  intros Hs Ha Hb. apply divide_low_bits; [done|]. intros k Hk. rewrite Z.lxor_spec.
  rewrite (proj1 (divide_low_bits s a Hs) Ha) by done. by rewrite (proj1 (divide_low_bits s b Hs) Hb).
Qed.

Lemma u64_add_assoc a b k : u64 (a + u64 (b + k)) = u64 (u64 (a + b) + k).
Proof. unfold u64. rewrite Zplus_mod_idemp_r, Zplus_mod_idemp_l. f_equal. lia. Qed.

Definition move_feature {F} (k : Z) (xi : F * Z) : F * Z := (xi.1, u64 (xi.2 + k)).

Section FeaturesOf.
Context {F : Type} `{NumComm F} (s : Z) (fsp : Z -> features F).
Hypothesis Hs : 0 <= s < 64.
Hypothesis Hidx : forall g, Forall (multiple s) (indices (fsp g)).

Lemma it_index_multiple g p : (2 ^ s | it_index fsp g p).
Proof.
  unfold it_index. destruct (nth_in_or_default p (indices (fsp g)) 0) as [Hin| ->]; [|apply Z.divide_0_r].
  specialize (Hidx g). rewrite Forall_forall in Hidx. apply list_elem_of_In in Hin. by apply Hidx.
Qed.

Definition event_aligned (e : event F) : Prop := match e with Audit _ => True | Kernel _ _ _ _ h => (2 ^ s | h) end.

Lemma expand_aligned permutations rest : forall r hx start,
  match hx with None => True | Some (h, _) => (2 ^ s | h) end ->
  Forall event_aligned (expand fsp false permutations rest r hx start).
Proof.
  induction rest as [|r' rest IH]; intros r hx start Hh; cbn [expand].
  - destruct hx as [[h x]|]; repeat constructor. exact Hh.
  - apply Forall_bind, Forall_forall. intros p _. unfold compose, audit_raw, audit_pop. rewrite app_nil_l, app_nil_r.
    apply IH. cbn. destruct hx as [[h x]|]; cbn; apply divide_u64; try done; apply Z.divide_mul_r.
    + apply divide_lxor; [lia|done|apply it_index_multiple].
    + apply it_index_multiple.
Qed.

Lemma generated_multiple offset (E : list (event F)) : (2 ^ s | offset) -> Forall event_aligned E ->
  Forall (fun xi => multiple s xi.2) (E ≫= generated_by fsp offset).
Proof.
  intros Ho HE. apply Forall_bind. eapply Forall_impl; [exact HE|]. intros [a|g b en x h] Hh; [constructor|]. cbn in *.
  apply Forall_fmap, Forall_forall. intros p _. cbn. apply multiple_u64; [done|]. apply Z.divide_add_r; [|done].
  apply divide_lxor; [lia|apply it_index_multiple|done].
Qed.

End FeaturesOf.

Lemma generated_moved {F} `{Num F} (fsp : Z -> features F) offset k (E : list (event F)) :
  E ≫= generated_by fsp (u64 (offset + k)) = move_feature k <$> (E ≫= generated_by fsp offset).
Proof.
  induction E as [|e E IH]; [done|]. rewrite !bind_cons, fmap_app, IH. f_equal.
  destruct e as [a|g b en x h]; [done|]. cbn. rewrite <- list_fmap_compose. apply list_fmap_ext. intros ? p _.
  unfold move_feature, feature_at. cbn. by rewrite u64_add_assoc.
Qed.

Section ExampleFeatures.
Context {F : Type} `{NumComm F} (s : Z) (cfg : config F) (ec : example F).
Hypothesis Hs : 0 <= s < 64.
Hypothesis Hec : example_ok s ec.

(** What interactions generate, by the recursive reference of [InteractionPredict]. *)
Definition interaction_features (ec : example F) : list (F * Z) :=
  interaction_ranges (ex_space ec) (ex_interactions ec) (ex_extent_interactions ec) ≫=
    (fun r => expand_all (ex_space ec) false (permutations cfg) r ≫= generated_by (ex_space ec) (ex_ft_offset ec)).

Lemma features_of_eq : exists n, features_of cfg ec = Some (n, linear_features cfg ec ++ interaction_features ec).
Proof.
  destruct Hec as [Ho Hi Hsp Hint Hext]. eexists. unfold features_of.
  rewrite (generate_interactions_expand (ex_space ec) false (permutations cfg) Hsp _ _ [] ltac:(constructor) Hint Hext).
  cbn [mbind option_bind]. rewrite generated_calls. unfold interaction_features. by rewrite bind_bind.
Qed.

Lemma interaction_features_multiple : Forall (fun xi => multiple s xi.2) (interaction_features ec).
Proof.
  destruct Hec as [Ho Hi Hsp Hint Hext]. apply Forall_bind, Forall_forall. intros r _.
  apply generated_multiple; [done|done|apply Ho|]. unfold expand_all. destruct r as [|r rs]; [constructor|].
  by apply expand_aligned.
Qed.

Lemma group_features_multiple fs : Forall (multiple s) (indices fs) -> Forall (fun xi => multiple s xi.2) (group_features (ex_ft_offset ec) fs).
Proof.
  intros Hi. unfold group_features. generalize (values fs). induction Hi as [|i l Hi Hl IH]; intros [|v vs]; cbn; constructor; [|apply IH].
  cbn. apply multiple_u64; [done|]. apply Z.divide_add_r; [apply Hi|apply Hec].
Qed.

Lemma features_multiple : Forall (fun xi => multiple s xi.2) (linear_features cfg ec ++ interaction_features ec).
Proof.
  apply Forall_app. split; [|apply interaction_features_multiple]. unfold linear_features.
  induction (ex_indices ec) as [|ns nss IH]; [constructor|]. cbn. apply Forall_app. split; [|done].
  case_if; [constructor|]. apply group_features_multiple, Hec.
Qed.
End ExampleFeatures.

Lemma group_features_moved {F} `{Num F} o k (fs : features F) :
  group_features (u64 (o + k)) fs = move_feature k <$> group_features o fs.
Proof.
  unfold group_features. generalize (indices fs), (values fs). intros l. induction l as [|i l IH]; intros [|v vs]; try done.
  cbn. rewrite IH. f_equal. unfold move_feature. cbn. by rewrite u64_add_assoc.
Qed.

(** The example at another offset visits the same values, moved. *)
Lemma features_moved {F} `{Num F} (cfg : config F) (ec : example F) k :
  linear_features cfg (set_offset (u64 (ex_ft_offset ec + k)) ec) ++
    interaction_features cfg (set_offset (u64 (ex_ft_offset ec + k)) ec) =
  move_feature k <$> (linear_features cfg ec ++ interaction_features cfg ec).
Proof.
  rewrite fmap_app. f_equal.
  - unfold linear_features. cbn. induction (ex_indices ec) as [|ns nss IH]; [done|]. cbn. rewrite fmap_app, IH. f_equal.
    case_if; [done|]. apply group_features_moved.
  - unfold interaction_features. cbn [ex_space ex_interactions ex_extent_interactions ex_ft_offset set_offset]. induction (interaction_ranges _ _ _) as [|r rs IH]; [done|].
    rewrite !bind_cons, fmap_app, IH. f_equal. apply generated_moved.
Qed.

Lemma example_ok_moved {F} s (ec : example F) k : 0 <= s < 64 -> example_ok s ec -> (2 ^ s | k) ->
  example_ok s (set_offset (u64 (ex_ft_offset ec + k)) ec).
Proof.
  intros Hs [Ho ? ? ? ?] Hk. split; try done. cbn. apply multiple_u64; [done|]. apply Z.divide_add_r; [apply Ho|done].
Qed.

(** ** Predicting *)

Section Predicting.
Context {F D W : Type} `{Num D, Widen F D, MathFns F, MathFns D, NumComm F, WeightStoreLaws W F}.
Implicit Types (w : W) (feats : list (F * Z)) (g : gd F D W) (ec : example F) (cfg : config F).

(** The sum a prediction is, of the weights or of the truncated weights. *)
Definition term (l1 : bool) (gravity fw x : F) : F := if l1 then (trunc_weight fw gravity * x)%num else (fw * x)%num.
Definition raw_prediction (l1 : bool) (gravity : F) w feats (initial : F) : F :=
  fold_left (fun p xi => (p + term l1 gravity (weight_of w xi.2) xi.1)%num) feats initial.

Definition feats_of cfg ec : list (F * Z) := linear_features cfg ec ++ interaction_features cfg ec.

Lemma shift_range w : ws_wf w -> 0 <= ws_stride_shift w < 64.
Proof. intros Hw. destruct (ws_mask_ok w Hw) as (n & _ & ? & ?). lia. Qed.

Lemma feats_aligned w cfg ec : ws_wf w -> example_ok (ws_stride_shift w) ec -> Forall (fun xi => aligned w xi.2) (feats_of cfg ec).
Proof. intros Hw He. apply (features_multiple (ws_stride_shift w)); [by apply shift_range|done]. Qed.

Lemma predict_ok l1 cfg g ec : ws_wf (weights g) -> example_ok (ws_stride_shift (weights g)) ec ->
  exists n w', features_of cfg ec = Some (n, feats_of cfg ec) /\ keeps (weights g) w' /\
    let partial := (raw_prediction l1 (narrow (sd_gravity g)) (weights g) (feats_of cfg ec) (ex_initial ec) * narrow (sd_contraction g))%num in
    predict l1 cfg g ec =
      Some (set_weights w' g, set_predictions (finalize_prediction (sd_range g) partial) partial n ec).
Proof.
  intros Hw He. destruct (features_of_eq (ws_stride_shift (weights g)) cfg ec He) as [n E].
  pose proof (feats_aligned (weights g) cfg ec Hw He) as Ha. exists n. fold (feats_of cfg ec) in E.
  unfold predict, trunc_predict, inline_predict. rewrite E. cbn [mbind option_bind].
  destruct l1.
  - destruct (foreach_ref_read (fun p x fw => (p + trunc_weight fw (narrow (sd_gravity g)) * x)%num)
      (vec_add_trunc (narrow (sd_gravity g))) (feats_of cfg ec) (ex_initial ec) (weights g) Hw Ha) as (w' & E' & Hk); [done|].
    exists w'. rewrite E'. done.
  - destruct (foreach_get_ok vec_add (feats_of cfg ec) (ex_initial ec) (weights g) Hw Ha) as (w' & E' & Hk).
    exists w'. rewrite E'. done.
Qed.

Lemma raw_prediction_keeps l1 gr w w' feats p : keeps w w' -> Forall (fun xi => aligned w xi.2) feats ->
  raw_prediction l1 gr w' feats p = raw_prediction l1 gr w feats p.
Proof.
  intros Hk Ha. apply fold_left_ext. intros q [x i] Hin. cbn. rewrite (keeps_weight w w'); [done|done|].
  rewrite Forall_forall in Ha. by apply (Ha (x, i)).
Qed.

Lemma weight_of_slot w i j : ws_wf w -> Z.land i (ws_mask w) = Z.land j (ws_mask w) -> weight_of w i = weight_of w j.
Proof. intros Hw Hs. unfold weight_of. by rewrite (ws_row_slot w i j Hw Hs). Qed.

Lemma mod_u64 n a : Z.of_nat n < 64 -> u64 a mod 2 ^ Z.of_nat n = a mod 2 ^ Z.of_nat n.
Proof.
  intros Hn. unfold u64. apply Z.mod_mod_divide.
  exists (2 ^ (64 - Z.of_nat n)). rewrite <- Z.pow_add_r by lia. f_equal. lia.
Qed.

(** The slot of a sum does not depend on when it is masked or wraps around. *)
Lemma slot_sum w i j k : ws_wf w -> Z.land i (ws_mask w) = Z.land j (ws_mask w) ->
  Z.land (u64 (i + k)) (ws_mask w) = Z.land (j + k) (ws_mask w).
Proof.
  intros Hw. destruct (ws_mask_ok w Hw) as (n & -> & _ & Hn). rewrite !Z.land_ones by lia. intros Hij.
  rewrite mod_u64 by done. by rewrite <- Zplus_mod_idemp_l, Hij, Zplus_mod_idemp_l.
Qed.

(** One feature added to every prediction. *)
Definition add_feature (l1 : bool) (gravity : F) (step : Z) w (x : F) (i : Z) (pred : list F) : list F :=
  imap (fun c p => (p + term l1 gravity (weight_of w (i + Z.of_nat c * step)) x)%num) pred.

Lemma add_feature_cons l1 gr step w x i p pred :
  add_feature l1 gr step w x i (p :: pred) =
  (p + term l1 gr (weight_of w i) x)%num :: add_feature l1 gr step w x (i + step) pred.
Proof.
  unfold add_feature. rewrite imap_cons. f_equal; [by rewrite Z.add_0_r|]. apply imap_ext. intros c q _. unfold compose.
  by replace (i + step + Z.of_nat c * step) with (i + Z.of_nat (S c) * step) by lia.
Qed.

Lemma add_feature_slot l1 gr step w x i j pred : ws_wf w -> Z.land i (ws_mask w) = Z.land j (ws_mask w) ->
  add_feature l1 gr step w x i pred = add_feature l1 gr step w x j pred.
Proof.
  intros Hw Hij. unfold add_feature. apply imap_ext. intros c p _. cbn. do 2 f_equal.
  apply weight_of_slot; [done|]. pose proof (slot_sum w i j (Z.of_nat c * step) Hw Hij).
  pose proof (slot_sum w i i (Z.of_nat c * step) Hw eq_refl). congruence.
Qed.

Lemma add_feature_keeps l1 gr step w w' x i pred : keeps w w' -> aligned w i -> aligned w step ->
  add_feature l1 gr step w' x i pred = add_feature l1 gr step w x i pred.
Proof.
  intros Hk [Hi Hdi] [Hst Hdst]. unfold add_feature. apply imap_ext. intros c p _. cbn. do 2 f_equal.
  apply (keeps_weight w w' _ Hk). split; [lia|]. apply Z.divide_add_r; [done|by apply Z.divide_mul_r].
Qed.

Lemma multi_run_ok x step top pred : forall i w, ws_wf w -> aligned w i -> aligned w step -> 0 < step ->
  i + Z.of_nat (length pred) * step = top + step -> top <= ws_mask w -> ws_mask w + step < 2 ^ 64 ->
  exists w', multi_run x step top i pred w = Some (add_feature false (n_of_Z 0) step w x i pred, w') /\ keeps w w'.
Proof.
  induction pred as [|p pred IH]; intros i w Hw Hi Hst Hpos Htop Hm H64; cbn [multi_run length] in *.
  - rewrite (proj2 (Z.leb_gt _ _)) by lia. exists w. split; [done|by apply keeps_refl].
  - rewrite (proj2 (Z.leb_le _ _)) by nia. destruct (weight_at_keeps w i Hw Hi) as (w1 & E & Hk). rewrite E. cbn [mbind option_bind].
    assert (u64 (i + step) = i + step) as Hu by (apply Z.mod_small; destruct Hi; nia). rewrite Hu.
    destruct (IH (i + step) w1) as (w' & E' & Hk'); [apply Hk| |by apply (keeps_aligned w w1)|done|lia|by rewrite (keeps_mask _ _ Hk)|by rewrite (keeps_mask _ _ Hk)|].
    { apply (keeps_aligned w w1); [done|]. destruct Hi, Hst. split; [lia|by apply Z.divide_add_r]. }
    rewrite E'. cbn [mbind option_bind]. exists w'. split; [|by eapply keeps_trans].
    rewrite add_feature_cons. unfold term at 1. rewrite (nmul_comm x). do 3 f_equal. apply (add_feature_keeps _ _ _ w w1); [done| |done].
    destruct Hi, Hst. split; [lia|by apply Z.divide_add_r].
Qed.

Lemma multi_wrap_ok x step pred : forall i w, ws_wf w -> aligned w i -> aligned w step ->
  exists w', multi_wrap x step (ws_mask w) i pred w = Some (add_feature false (n_of_Z 0) step w x i pred, w') /\ keeps w w'.
Proof.
  induction pred as [|p pred IH]; intros i w Hw Hi Hst; cbn [multi_wrap].
  - exists w. split; [done|by apply keeps_refl].
  - destruct (ws_mask_ok w Hw) as (n & Hmk).
    assert (Z.land (Z.land i (ws_mask w)) (ws_mask w) = Z.land i (ws_mask w)) as Hidem by (by rewrite <- Z.land_assoc, Z.land_diag).
    assert (aligned w (Z.land i (ws_mask w))) as Hli.
    { destruct (masked_aligned n _ _ i Hmk (proj2 Hi)) as (? & ? & ?). by split. }
    destruct (weight_at_keeps w _ Hw Hli) as (w1 & E & Hk). rewrite E. cbn [mbind option_bind].
    rewrite (weight_of_slot w _ i Hw Hidem).
    destruct (IH (u64 (Z.land i (ws_mask w) + step)) w1) as (w' & E' & Hk'); [apply Hk| |by apply (keeps_aligned w w1)|].
    { apply (keeps_aligned w w1); [done|]. apply multiple_u64; [by apply shift_range|].
      apply Z.divide_add_r; [apply Hli|apply Hst]. }
    rewrite (keeps_mask _ _ Hk) in E'. rewrite E'. cbn [mbind option_bind]. exists w'. split; [|by eapply keeps_trans].
    rewrite add_feature_cons. unfold term at 1. rewrite (nmul_comm x). do 3 f_equal.
    assert (aligned w (i + step)) as His by (destruct Hi, Hst; split; [lia|by apply Z.divide_add_r]).
    rewrite <- (add_feature_keeps false (n_of_Z 0) step w w1 x (i + step)) by done.
    apply add_feature_slot; [apply Hk|]. rewrite (keeps_mask _ _ Hk). rewrite (slot_sum w _ i step Hw Hidem). done.
Qed.

Lemma vec_add_multipredict_ok x step pred i w : ws_wf w -> aligned w i -> aligned w step -> 0 < step ->
  ws_mask w + Z.of_nat (length pred) * step < 2 ^ 64 -> (0 < length pred)%nat -> negligible (D := D) x = false ->
  exists w', vec_add_multipredict (D := D) step pred x i w = Some (add_feature false (n_of_Z 0) step w x i pred, w') /\ keeps w w'.
Proof.
  intros Hw Hi Hst Hpos H64 Hlen Hx. unfold vec_add_multipredict. rewrite Hx.
  destruct (ws_mask_ok w Hw) as (n & Hmk). destruct (masked_aligned n _ _ i Hmk (proj2 Hi)) as (Hd & Hp & Hb).
  assert (Z.land (Z.land i (ws_mask w)) (ws_mask w) = Z.land i (ws_mask w)) as Hidem by (by rewrite <- Z.land_assoc, Z.land_diag).
  assert (Z.land i (ws_mask w) <= ws_mask w) as Hle.
  { destruct Hmk as [Hm _]. rewrite Hm in *. rewrite Z.land_ones by lia. rewrite Z.ones_equiv.
    pose proof (Z.mod_pos_bound i (2 ^ Z.of_nat n) ltac:(lia)). lia. }
  assert (u64 (Z.of_nat (length pred) - 1) = Z.of_nat (length pred) - 1) as -> by (apply Z.mod_small; nia).
  assert (u64 ((Z.of_nat (length pred) - 1) * step) = (Z.of_nat (length pred) - 1) * step) as -> by (apply Z.mod_small; nia).
  assert (u64 (Z.land i (ws_mask w) + (Z.of_nat (length pred) - 1) * step) = Z.land i (ws_mask w) + (Z.of_nat (length pred) - 1) * step) as ->
    by (apply Z.mod_small; nia).
  case_if; bprop.
  - destruct (multi_run_ok x step (Z.land i (ws_mask w) + (Z.of_nat (length pred) - 1) * step) pred (Z.land i (ws_mask w)) w) as (w' & E' & Hk);
      [done|by split|done|done|lia|done|nia|].
    exists w'. split; [|done]. rewrite E'. do 2 f_equal. by apply add_feature_slot.
  - destruct (multi_wrap_ok x step pred (Z.land i (ws_mask w)) w) as (w' & E' & Hk); [done|by split|done|].
    exists w'. split; [|done]. rewrite E'. do 2 f_equal. by apply add_feature_slot.
Qed.

Lemma vec_add_trunc_multipredict_ok gr x step pred : forall i w, ws_wf w -> aligned w i -> aligned w step ->
  exists w', vec_add_trunc_multipredict gr step pred x i w = Some (add_feature true gr step w x i pred, w') /\ keeps w w'.
Proof.
  induction pred as [|p pred IH]; intros i w Hw Hi Hst; cbn [vec_add_trunc_multipredict].
  - exists w. split; [done|by apply keeps_refl].
  - destruct (weight_at_keeps w i Hw Hi) as (w1 & E & Hk). rewrite E. cbn [mbind option_bind].
    assert (aligned w (i + step)) as His by (destruct Hi, Hst; split; [lia|by apply Z.divide_add_r]).
    destruct (IH (u64 (i + step)) w1) as (w' & E' & Hk'); [apply Hk| |by apply (keeps_aligned w w1)|].
    { apply (keeps_aligned w w1); [done|]. apply multiple_u64; [by apply shift_range|apply His]. }
    rewrite E'. cbn [mbind option_bind]. exists w'. split; [|by eapply keeps_trans].
    rewrite add_feature_cons. unfold term at 1. rewrite (nmul_comm x). do 3 f_equal.
    rewrite <- (add_feature_keeps true gr step w w1 x (i + step)) by done.
    apply add_feature_slot; [apply Hk|]. rewrite (keeps_mask _ _ Hk). by rewrite (slot_sum w i i step Hw eq_refl).
Qed.

Lemma length_add_feature l1 gr step w x i pred : length (add_feature l1 gr step w x i pred) = length pred.
Proof. apply length_imap. Qed.

(** The callback [multipredict] picks. *)
Definition add_callback (l1 : bool) (gravity : F) (step : Z) : list F -> F -> Z -> W -> option (list F * W) :=
  if l1 then vec_add_trunc_multipredict gravity step else vec_add_multipredict (D := D) step.

Lemma foreach_index_ok l1 gr step feats : forall pred w, ws_wf w -> Forall (fun xi => aligned w xi.2) feats -> aligned w step -> 0 < step ->
  ws_mask w + Z.of_nat (length pred) * step < 2 ^ 64 -> (0 < length pred)%nat ->
  (l1 = false -> Forall (fun xi => negligible (D := D) xi.1 = false) feats) ->
  exists w', foreach_index (add_callback l1 gr step) feats pred w =
    Some (fold_left (fun P xi => add_feature l1 gr step w xi.1 xi.2 P) feats pred, w') /\ keeps w w'.
Proof.
  induction feats as [|[x i] feats IH]; intros pred w Hw Ha Hst Hpos H64 Hlen Hneg; cbn [foreach_index].
  - exists w. split; [done|by apply keeps_refl].
  - apply Forall_cons in Ha as [Hi Ha]. cbn in Hi.
    assert (exists w1, add_callback l1 gr step pred x i w = Some (add_feature l1 gr step w x i pred, w1) /\ keeps w w1) as (w1 & E & Hk).
    { destruct l1; cbn; [by apply vec_add_trunc_multipredict_ok|].
      specialize (Hneg eq_refl). apply Forall_cons in Hneg as [Hx _].
      destruct (vec_add_multipredict_ok x step pred i w) as (w1 & E & Hk); try done. by exists w1. }
    rewrite E. cbn [mbind option_bind].
    destruct (IH (add_feature l1 gr step w x i pred) w1) as (w' & E' & Hk').
    + apply Hk.
    + eapply Forall_impl; [exact Ha|]. intros xi Hxi. by apply (keeps_aligned w w1).
    + by apply (keeps_aligned w w1).
    + done.
    + by rewrite length_add_feature, (keeps_mask _ _ Hk).
    + by rewrite length_add_feature.
    + intros Hl1. specialize (Hneg Hl1). by apply Forall_cons in Hneg as [_ ?].
    + exists w'. rewrite E'. split; [|by eapply keeps_trans]. do 2 f_equal. cbn [fold_left fst snd].
      apply fold_left_ext. intros P [y j] Hyj. cbn. apply (add_feature_keeps _ _ _ w w1); [done| |done].
      rewrite Forall_forall in Ha. by apply (Ha (y, j)).
Qed.

(** Adding the features one by one to all predictions, or prediction by prediction. *)
Lemma fold_add_features l1 gr step w feats : forall pred,
  fold_left (fun P xi => add_feature l1 gr step w xi.1 xi.2 P) feats pred =
  imap (fun c p => raw_prediction l1 gr w ((fun xi => (xi.1, xi.2 + Z.of_nat c * step)) <$> feats) p) pred.
Proof.
  induction feats as [|[x i] feats IH]; intros pred; cbn [fold_left fst snd].
  - symmetry. transitivity (imap (fun _ (p : F) => p) pred); [by apply imap_ext|]. clear. induction pred as [|p pred IH]; [done|].
    rewrite imap_cons. f_equal. exact IH.
  - rewrite IH. unfold add_feature. rewrite imap_imap. apply imap_ext. done.
Qed.

Lemma raw_prediction_ext l1 gr w w' (f f' : F * Z -> F * Z) feats p :
  (forall xi, xi ∈ feats -> (f xi).1 = (f' xi).1 /\ weight_of w (f xi).2 = weight_of w' (f' xi).2) ->
  raw_prediction l1 gr w (f <$> feats) p = raw_prediction l1 gr w' (f' <$> feats) p.
Proof.
  unfold raw_prediction. revert p. induction feats as [|xi feats IH]; intros p Hf; [done|]. cbn.
  destruct (Hf xi (list_elem_of_here _ _)) as [-> ->]. apply IH. intros. apply Hf. by right.
Qed.

(** What model [c] of several predicts before scaling. *)
Definition model_prediction (l1 : bool) cfg g ec (step : Z) (c : nat) (initial : F) : F :=
  raw_prediction l1 (narrow (sd_gravity g)) (weights g) ((fun xi => (xi.1, xi.2 + Z.of_nat c * step)) <$> feats_of cfg ec) initial.

Definition scaled g (finalize : bool) (p : F) : F :=
  let p := (p * narrow (sd_contraction g))%num in if finalize then finalize_prediction (sd_range g) p else p.

Lemma model_prediction_next l1 cfg g ec w' n scalar partial step c initial :
  ws_wf (weights g) -> example_ok (ws_stride_shift (weights g)) ec -> aligned (weights g) step -> keeps (weights g) w' ->
  model_prediction l1 cfg (set_weights w' g) (set_offset (u64 (ex_ft_offset ec + step)) (set_predictions scalar partial n ec)) step c initial =
  model_prediction l1 cfg g ec step (S c) initial.
Proof.
  intros Hw He Hst Hk. unfold model_prediction.
  change (feats_of cfg (set_offset _ (set_predictions scalar partial n ec))) with
    (linear_features cfg (set_offset (u64 (ex_ft_offset ec + step)) ec) ++ interaction_features cfg (set_offset (u64 (ex_ft_offset ec + step)) ec)).
  rewrite features_moved, <- list_fmap_compose. apply raw_prediction_ext. intros [x i] Hxi. cbn [fst snd compose weights sd_gravity set_weights].
  split; [done|]. unfold move_feature, compose; cbn [fst snd].
  pose proof (feats_aligned (weights g) cfg ec Hw He) as Ha. rewrite Forall_forall in Ha. specialize (Ha _ Hxi). cbn in Ha.
  assert (aligned (weights g) (u64 (i + step) + Z.of_nat c * step)) as Hal.
  { destruct (multiple_u64 (ws_stride_shift (weights g)) (i + step) (shift_range _ Hw)) as [Hu Hud];
      [apply Z.divide_add_r; [apply Ha|apply Hst]|]. destruct Hst. split; [lia|]. apply Z.divide_add_r; [done|by apply Z.divide_mul_r]. }
  rewrite (keeps_weight _ _ _ Hk Hal). apply weight_of_slot; [done|].
  rewrite <- (slot_sum (weights g) (u64 (i + step)) (u64 (i + step)) (Z.of_nat c * step) Hw eq_refl).
  rewrite (slot_sum (weights g) (u64 (i + step)) (i + step) (Z.of_nat c * step) Hw); [f_equal; lia|].
  by rewrite (slot_sum (weights g) i i step Hw eq_refl).
Qed.

Lemma loop_ok l1 cfg step fin count : forall g ec,
  ws_wf (weights g) -> example_ok (ws_stride_shift (weights g)) ec -> aligned (weights g) step ->
  exists g', multipredict_loop l1 cfg g ec count step fin =
    Some (g', imap (fun c p => scaled g fin (model_prediction l1 cfg g ec step c p)) (replicate count (ex_initial ec))).
Proof.
  induction count as [|count IH]; intros g ec Hw He Hst; cbn [multipredict_loop]; [by exists g|].
  destruct (predict_ok l1 cfg g ec Hw He) as (n & w' & _ & Hk & E). rewrite E. cbn [mbind option_bind].
  destruct (IH (set_weights w' g) (set_offset (u64 (ex_ft_offset ec + step))
    (set_predictions (finalize_prediction (sd_range g)
       (raw_prediction l1 (narrow (sd_gravity g)) (weights g) (feats_of cfg ec) (ex_initial ec) * narrow (sd_contraction g))%num)
       (raw_prediction l1 (narrow (sd_gravity g)) (weights g) (feats_of cfg ec) (ex_initial ec) * narrow (sd_contraction g))%num n ec))) as (g' & E').
  - apply Hk.
  - cbn [weights set_weights]. rewrite (keeps_shift _ _ Hk).
    destruct (example_ok_moved (ws_stride_shift (weights g)) ec step (shift_range _ Hw) He (proj2 Hst)) as [? ? ? ? ?]. by split.
  - by apply (keeps_aligned (weights g) w').
  - cbn [ex_ft_offset set_predictions] in *. rewrite E'. cbn [mbind option_bind]. exists g'. do 2 f_equal.
    cbn [replicate]. rewrite imap_cons. f_equal.
    + unfold scaled, model_prediction. cbn [ex_pred_scalar ex_partial_prediction set_predictions].
      assert ((fun xi => (xi.1, xi.2 + Z.of_nat 0 * step)) <$> feats_of cfg ec = feats_of cfg ec) as ->.
      { rewrite <- (list_fmap_id (feats_of cfg ec)) at 2. apply list_fmap_ext. intros ? [x i] _. cbn. by rewrite Z.add_0_r. }
      by destruct fin.
    + apply imap_ext. intros c p _. unfold compose. rewrite (model_prediction_next l1 cfg g ec w') by done. done.
Qed.
Lemma multipredict_ok l1 cfg g ec count step fin :
  ws_wf (weights g) -> example_ok (ws_stride_shift (weights g)) ec ->
  aligned (weights g) step -> 0 < step -> (0 < count)%nat -> ws_mask (weights g) + Z.of_nat count * step < 2 ^ 64 ->
  (l1 = false -> Forall (fun xi => negligible (D := D) xi.1 = false) (feats_of cfg ec)) ->
  ((sd_contraction g =? n_of_Z 1)%num = true -> forall p : F, (p * narrow (sd_contraction g))%num = p) ->
  exists n w', keeps (weights g) w' /\ multipredict l1 cfg g ec count step fin =
    Some (set_weights w' g, set_predictions (ex_pred_scalar ec) (ex_partial_prediction ec) n ec,
      imap (fun c p => scaled g fin (model_prediction l1 cfg g ec step c p)) (replicate count (ex_initial ec))).
Proof.
  intros Hw He Hst Hpos Hcount H64 Hneg Hone.
  destruct (features_of_eq (ws_stride_shift (weights g)) cfg ec He) as [n E]. fold (feats_of cfg ec) in E.
  destruct (foreach_index_ok l1 (narrow (sd_gravity g)) step (feats_of cfg ec) (replicate count (ex_initial ec)) (weights g))
    as (w1 & E1 & Hk); try done.
  { by apply feats_aligned. } { by rewrite length_replicate. } { by rewrite length_replicate. }
  exists n, w1. split; [done|]. unfold multipredict. rewrite E. cbn [mbind option_bind].
  unfold add_callback in E1. rewrite E1. cbn [mbind option_bind]. do 2 f_equal. rewrite fold_add_features.
  change (map ?f ?l) with (f <$> l). rewrite fmap_imap. apply imap_ext. intros c p _. unfold compose, scaled, model_prediction.
  destruct (sd_contraction g =? n_of_Z 1)%num eqn:Ec; cbn [negb]; [by rewrite Hone|done].
Qed.
End Predicting.

(** C10: predicting several models in one pass over the features gives what predicting them one
    after the other at their offsets does, number for number, whether or not the indices wrap
    around the mask: for every format in which multiplication commutes and one is neutral, when no
    feature value is below the threshold at which the pass drops it. *)
Theorem multipredict_is_predict {F D W : Type} `{Num D, Widen F D, MathFns F, MathFns D, NumComm F, WeightStoreLaws W F}
    (l1 : bool) (cfg : config F) (g : gd F D W) (ec : example F) (count : nat) (step : Z) (fin : bool) :
  ws_wf (weights g) -> example_ok (ws_stride_shift (weights g)) ec ->
  aligned (weights g) step -> 0 < step -> (0 < count)%nat -> ws_mask (weights g) + Z.of_nat count * step < 2 ^ 64 ->
  (l1 = false -> Forall (fun xi => negligible (D := D) xi.1 = false) (feats_of cfg ec)) ->
  ((sd_contraction g =? n_of_Z 1)%num = true -> forall p : F, (p * narrow (sd_contraction g))%num = p) ->
  exists g1 ec1 g2 pred, multipredict l1 cfg g ec count step fin = Some (g1, ec1, pred) /\
    multipredict_loop l1 cfg g ec count step fin = Some (g2, pred).
Proof.
  intros Hw He Hst Hpos Hcount H64 Hneg Hone.
  destruct (loop_ok l1 cfg step fin count g ec Hw He Hst) as (g2 & E2).
  destruct (multipredict_ok l1 cfg g ec count step fin) as (n & w' & _ & E1); try done. by do 4 eexists.
Qed.

Lemma set_weights_id {F D W} (g : gd F D W) : set_weights (weights g) g = g.
Proof. by destruct g. Qed.

(** ** Learning, in exact arithmetic *)

Section Learning.
Context {W : Type} `{WeightStoreLaws W Q, MathFns Q} (inv_sqrt : Q -> Q).
Implicit Types (w : W) (feats : list (Q * Z)) (g : gd Q Q W) (ec : example Q) (cfg : config Q).
#[local] Open Scope Q_scope.

Definition dot (f : Q * Z -> Q) feats : Q := qsum ((fun xi => xi.1 * f xi) <$> feats).

Lemma raw_prediction_dot w feats p : raw_prediction false 0 w feats p == p + dot (fun xi => weight_of w xi.2) feats.
Proof.
  unfold raw_prediction, dot. revert p. induction feats as [|[x i] feats IH]; intros p; cbn; [lra|].
  rewrite IH. qnum. cbn. lra.
Qed.

Lemma raw_prediction_gravity gr w feats p : raw_prediction false gr w feats p = raw_prediction false 0 w feats p.
Proof. done. Qed.

(** [train] moves every weight by the update times the value and the rate of its feature. *)
Definition finite (x : Q) : Prop := - FLT_MAX < x < FLT_MAX.

Lemma Qltb_true (a b : Q) : a < b -> (a <? b)%num = true.
Proof. intros Hab. cbn. apply negb_true_iff. destruct (Qle_bool b a) eqn:E; [|done]. apply Qle_bool_iff in E. lra. Qed.
Lemma Qltb_lt (a b : Q) : (a <? b)%num = true -> a < b.
Proof. cbn. intros Hab%negb_true_iff. apply Qnot_le_lt. intros Hle%Qle_bool_iff. congruence. Qed.
Lemma Qltb_false (a b : Q) : b <= a -> (a <? b)%num = false.
Proof. intros Hab. cbn. apply negb_false_iff. by apply Qle_bool_iff. Qed.

Lemma finite_range x : finite x -> (x <? FLT_MAX)%num && (x >? nopp FLT_MAX)%num = true.
Proof. intros [Hlo Hhi]. rewrite (Qltb_true x) by done. apply Qltb_true. unfold nopp. qnum. change (inject_Z (-1)) with (-1). lra. Qed.

Definition rated (v : variant) (R : Q * Z -> Q) w feats : Prop :=
  forall x i, (x, i) ∈ feats ->
    if (0 <? v_spare v)%nat then ws_row w i !! v_spare v = Some (R (x, i)) else R (x, i) = 1.

Lemma trained v R u w feats : ws_wf w -> Forall (fun xi => aligned w xi.2) feats -> NoDup (slots w feats) ->
  Forall (fun xi => finite xi.1) feats -> v_feature_mask_off v = true -> rated v R w feats ->
  exists w', foreach_ref (fun (t : unit) x row => row ← update_feature v u x row; Some (t, row)) feats tt w = Some (tt, w') /\
    ws_wf w' /\ ws_mask w' = ws_mask w /\ ws_stride_shift w' = ws_stride_shift w /\
    forall x i, (x, i) ∈ feats -> weight_of w' i == weight_of w i + u * (x * R (x, i)).
Proof.
  intros Hw Ha Hnd Hfin Hmask HR.
  pose (row_of := fun (x : Q) (row : list Q) => default row (update_feature v u x row)).
  destruct (foreach_ref_local (fun _ : unit => True) (fun (t : unit) x row => row ← update_feature v u x row; Some (t, row))
    (fun t _ _ => t) row_of feats tt w Hw Ha Hnd I) as (w' & E & Hv).
  - intros [] x i Hxi _. rewrite Forall_forall in Ha, Hfin. pose proof (Ha _ Hxi) as Hi. pose proof (Hfin _ Hxi) as Hx. cbn in Hi, Hx.
    specialize (HR x i Hxi). pose proof (ws_row_length w i Hw Hi) as Hl.
    destruct (row_nonempty w i Hw Hi) as (fw & r & Erow). rewrite Erow in *.
    unfold row_of, update_feature. cbn [head mbind option_bind]. rewrite Hmask, orb_true_l, finite_range by done. cbn [andb].
    destruct (0 <? v_spare v)%nat; [rewrite HR|]; done.
  - exists w'. split; [rewrite E; f_equal; by destruct (fold_left _ feats tt)|]. destruct Hv as [? ? ? Hrow _].
    split_and!; try done. intros x i Hxi. unfold weight_of at 1. rewrite (Hrow x i Hxi). unfold row_of.
    rewrite Forall_forall in Ha, Hfin. pose proof (Ha _ Hxi) as Hi. pose proof (Hfin _ Hxi) as Hx. cbn in Hi, Hx.
    specialize (HR x i Hxi). unfold weight_of. destruct (row_nonempty w i Hw Hi) as (fw & r & Erow). rewrite Erow in *.
    unfold update_feature. cbn [head mbind option_bind]. rewrite Hmask, orb_true_l, finite_range by done. cbn [andb].
    destruct (0 <? v_spare v)%nat; [rewrite HR|]; cbn; [lra|]. rewrite HR. lra.
Qed.

Lemma trained_prediction u R w w' feats p :
  (forall x i, (x, i) ∈ feats -> weight_of w' i == weight_of w i + u * (x * R (x, i))) ->
  raw_prediction false 0 w' feats p == raw_prediction false 0 w feats p + u * dot (fun xi => xi.1 * R xi) feats.
Proof.
  intros Hu. rewrite !raw_prediction_dot. unfold dot. rewrite <- qsum_map_scale, <- Qplus_assoc, <- qsum_map_plus.
  apply Qplus_comp; [reflexivity|]. apply qsum_map_ext. intros [x i] Hxi. cbn. rewrite Hu by done. ring.
Qed.

(** *** The rates *)

Definition fits (v : variant) w : Prop :=
  (v_adaptive v = 0 /\ v_spare v = 0)%nat \/
  (0 < v_adaptive v /\ 0 < v_spare v /\ v_adaptive v <> v_spare v /\ v_adaptive v < ws_stride w /\ v_spare v < ws_stride w)%nat.

Definition same_constants (nd nd' : @norm_data Q) : Prop :=
  nd_grad_squared nd' = nd_grad_squared nd /\ nd_minus_power_t nd' = nd_minus_power_t nd /\ nd_neg_norm_power nd' = nd_neg_norm_power nd.

(** The adaptive rate and row of a feature, without normalisation. *)
Definition adapted_rate (v : variant) (nd : @norm_data Q) (x : Q) (row : list Q) : Q :=
  let a := default 0 (row !! v_adaptive v) + nd_grad_squared nd * (x * x) in
  if v_sqrt_rate v then inv_sqrt a else npow a (nd_minus_power_t nd).
Definition adapted_row (v : variant) (nd : @norm_data Q) (x : Q) (row : list Q) : list Q :=
  <[v_spare v := adapted_rate v nd x row]> (<[v_adaptive v := default 0 (row !! v_adaptive v) + nd_grad_squared nd * (x * x)]> row).

Lemma adapted_feature v nd nd' x row : v_normalized v = 0%nat -> v_feature_mask_off v = true -> (0 < v_adaptive v < length row)%nat ->
  X2_MIN <= x * x -> same_constants nd nd' ->
  pred_per_update_feature inv_sqrt false v nd' x row =
    Some (NormData (nd_grad_squared nd') (nd_pred_per_update nd' + x * x * adapted_rate v nd x row) (nd_norm_x nd')
            (nd_minus_power_t nd') (nd_neg_norm_power nd'), adapted_row v nd x row).
Proof.
  intros Hn Hmask [Ha Hal] Hx (Hg & Hm & _). unfold pred_per_update_feature. destruct row as [|fw r]; [cbn in Hal; lia|].
  cbn [head mbind option_bind]. rewrite Hmask, orb_true_l. unfold feature_rate. rewrite (Qltb_false (x * x)%num) by done.
  rewrite (proj2 (Nat.ltb_lt 0 (v_adaptive v))) by done. rewrite Hn. cbn [Nat.ltb Nat.leb].
  destruct (lookup_lt_is_Some_2 (fw :: r) (v_adaptive v) Hal) as [a Ea]. rewrite Ea. cbn [mbind option_bind].
  unfold compute_rate_decay. rewrite (proj2 (Nat.ltb_lt 0 (v_adaptive v))) by done. rewrite Hn. cbn [Nat.ltb Nat.leb].
  rewrite list_lookup_insert_eq by done. cbn [mbind option_bind].
  unfold adapted_row, adapted_rate. rewrite Ea, Hg, Hm. done.
Qed.

(** What an example must be for an update to be exact. *)
Record learnable (v : variant) cfg g ec : Prop := {
  la_wf : ws_wf (weights g);
  la_example : example_ok (ws_stride_shift (weights g)) ec;
  la_fits : fits v (weights g);
  la_normalized : v_normalized v = 0%nat;
  la_mask_off : v_feature_mask_off v = true;
  la_distinct : NoDup (slots (weights g) (feats_of cfg ec));
  la_finite : Forall (fun xi => finite xi.1) (feats_of cfg ec);
  la_large : v_adaptive v <> 0%nat -> Forall (fun xi => X2_MIN <= xi.1 * xi.1) (feats_of cfg ec);
  la_plain : v_adaptive v = 0%nat -> sums_ok (ex_space ec) /\ ex_extent_interactions ec = [] /\
    ignore_some_linear cfg = false /\ ex_use_permutations ec = permutations cfg /\ ex_total_sum_feat_sq ec = None
}.

Lemma fold_ppu v nd w feats : forall nd', same_constants nd nd' ->
  let nd'' := fold_left (fun d xi => NormData (nd_grad_squared d)
      (nd_pred_per_update d + xi.1 * xi.1 * adapted_rate v nd xi.1 (ws_row w xi.2)) (nd_norm_x d) (nd_minus_power_t d) (nd_neg_norm_power d)) feats nd' in
  nd_pred_per_update nd'' == nd_pred_per_update nd' + dot (fun xi => xi.1 * adapted_rate v nd xi.1 (ws_row w xi.2)) feats.
Proof.
  unfold dot. induction feats as [|[x i] feats IH]; intros nd' Hc; cbn zeta; [cbn; lra|].
  cbn [fold_left fmap list_fmap qsum fst snd]. rewrite IH by (destruct Hc as (? & ? & ?); by repeat split).
  cbn [nd_pred_per_update]. cbn. lra.
Qed.

Lemma adaptive_rates v cfg g ec n : learnable v cfg g ec -> v_adaptive v <> 0%nat ->
  features_of cfg ec = Some (n, feats_of cfg ec) ->
  ~ (if v_adax v then ex_weight ec else ex_weight ec * get_square_grad (loss cfg) (ex_pred_scalar ec) (ex_label ec)) == 0 ->
  exists w1 R ppu, get_pred_per_update inv_sqrt false v cfg g ec = Some (ppu, set_weights w1 g) /\
    ppu == dot (fun xi => xi.1 * R xi) (feats_of cfg ec) /\ rated v R w1 (feats_of cfg ec) /\
    ws_wf w1 /\ ws_mask w1 = ws_mask (weights g) /\ ws_stride_shift w1 = ws_stride_shift (weights g) /\
    forall x i, (x, i) ∈ feats_of cfg ec -> weight_of w1 i = weight_of (weights g) i.
Proof.
  intros [Hw He Hfits Hn Hmask Hnd Hfin Hlarge _] Ha E Hgrad. specialize (Hlarge Ha).
  destruct Hfits as [[? _]|(Ha0 & Hs0 & Hne & Hal & Hsl)]; [done|].
  pose proof (feats_aligned (weights g) cfg ec Hw He) as Hali.
  unfold get_pred_per_update. set (gs := if v_adax v then ex_weight ec else _) in *.
  assert ((gs =? n_of_Z 0)%num = false) as Hgs by (apply not_true_iff_false; intros Hq; by apply Qeq_bool_iff in Hq).
  rewrite Hgs. cbn [andb]. rewrite E. cbn [mbind option_bind].
  set (nd := NormData gs (n_of_Z 0) (n_of_Z 0) (neg_power_t g) (neg_norm_power g)).
  destruct (foreach_ref_local (same_constants nd) (pred_per_update_feature inv_sqrt false v)
    (fun d x row => NormData (nd_grad_squared d) (nd_pred_per_update d + x * x * adapted_rate v nd x row) (nd_norm_x d) (nd_minus_power_t d) (nd_neg_norm_power d))
    (adapted_row v nd) (feats_of cfg ec) nd (weights g) Hw Hali Hnd) as (w1 & E1 & Hv); [by repeat split| |].
  - intros d x i Hxi Hd. rewrite Forall_forall in Hali, Hlarge. pose proof (Hali _ Hxi) as Hi. pose proof (Hlarge _ Hxi) as Hx. cbn in Hi, Hx.
    pose proof (ws_row_length (weights g) i Hw Hi) as Hl. split_and!.
    + apply adapted_feature; try done. lia.
    + destruct Hd as (? & ? & ?). by repeat split.
    + unfold adapted_row. by rewrite !length_insert.
  - rewrite E1. cbn [mbind option_bind]. rewrite Hn. cbn [Nat.ltb Nat.leb]. destruct Hv as [Hvw Hvm Hvs Hvr _].
    exists w1, (fun xi => adapted_rate v nd xi.1 (ws_row (weights g) xi.2)). eexists. split; [reflexivity|]. split_and!; try done.
    + rewrite (fold_ppu v nd (weights g) (feats_of cfg ec) nd) by (by repeat split). cbn [nd_pred_per_update nd n_of_Z num_Q]. 
      change (inject_Z 0) with 0. lra.
    + intros x i Hxi. rewrite (proj2 (Nat.ltb_lt 0 (v_spare v))) by done. rewrite (Hvr x i Hxi). unfold adapted_row.
      rewrite Forall_forall in Hali. pose proof (ws_row_length (weights g) i Hw (Hali _ Hxi)) as Hl.
      rewrite list_lookup_insert_eq; [done|]. rewrite length_insert. lia.
    + intros x i Hxi. unfold weight_of. rewrite (Hvr x i Hxi). unfold adapted_row.
      destruct (v_spare v) eqn:?, (v_adaptive v) eqn:?; try lia. by destruct (ws_row (weights g) i).
Qed.

Lemma group_squares o fs : length (indices fs) = size fs ->
  qsum ((fun xi => xi.1 * (xi.1 * 1)) <$> group_features o fs) == qsum ((fun v => v * v) <$> values fs).
Proof.
  unfold size, group_features. generalize (indices fs), (values fs). intros l vs. revert l.
  induction vs as [|v vs IH]; intros [|i l] Hl; try done. cbn in *. rewrite IH by lia. change (inject_Z 1) with 1. lra.
Qed.

Lemma total_sum_dot v cfg g ec : learnable v cfg g ec -> v_adaptive v = 0%nat ->
  calculate_total_sum_features_squared (ex_use_permutations ec) ec == dot (fun xi => xi.1 * 1) (feats_of cfg ec).
Proof.
  intros Hla Ha. destruct (la_plain v cfg g ec Hla Ha) as (Hsums & Hext & Hign & Hperm & _).
  destruct (la_example v cfg g ec Hla) as [_ _ Hspace Hint _].
  unfold calculate_total_sum_features_squared, dot, feats_of. rewrite Hperm, Hext, fmap_app, qsum_app.
  assert (interaction_features cfg ec = (interaction_ranges (ex_space ec) (ex_interactions ec) [] ≫= expand_all (ex_space ec) false (permutations cfg))
            ≫= generated_by (ex_space ec) (ex_ft_offset ec)) as -> by (unfold interaction_features; by rewrite Hext, bind_bind).
  qnum. apply Qplus_comp.
  - unfold linear_features. rewrite Hign. cbn [andb].
    assert (forall s, fold_left (fun sum ns => sum + sum_feat_sq (ex_space ec ns)) (ex_indices ec) s ==
      s + qsum ((fun xi => xi.1 * (xi.1 * 1)) <$> flat_map (fun ns => group_features (ex_ft_offset ec) (ex_space ec ns)) (ex_indices ec))) as Hsum.
    { induction (ex_indices ec) as [|ns nss IH]; intros s; cbn; [lra|]. rewrite IH, fmap_app, qsum_app.
      rewrite group_squares by (by destruct (Hspace ns)). rewrite (Hsums ns). unfold squares_of, square. lra. }
    rewrite Hsum. change (inject_Z 0) with 0. lra.
  - rewrite (formula_generated (ex_space ec) (permutations cfg) (ex_ft_offset ec)) by done.
    apply qsum_map_ext. intros xi _. unfold feature_square. lra.
Qed.

(** The sensitivity is what the prediction moves per unit of update. *)
Lemma sensitivity_exact v cfg g ec : learnable v cfg g ec ->
  (v_adaptive v <> 0%nat -> ~ (if v_adax v then ex_weight ec else ex_weight ec * get_square_grad (loss cfg) (ex_pred_scalar ec) (ex_label ec)) == 0) ->
  exists w1 R ppu total, sensitivity_of inv_sqrt false v cfg g ec = Some (ppu, set_weights w1 g, set_updated (ex_updated_prediction ec) total ec) /\
    ppu == dot (fun xi => xi.1 * R xi) (feats_of cfg ec) /\ rated v R w1 (feats_of cfg ec) /\
    ws_wf w1 /\ ws_mask w1 = ws_mask (weights g) /\ ws_stride_shift w1 = ws_stride_shift (weights g) /\
    forall x i, (x, i) ∈ feats_of cfg ec -> weight_of w1 i = weight_of (weights g) i.
Proof.
  intros Hla Hgrad. destruct (features_of_eq (ws_stride_shift (weights g)) cfg ec (la_example v cfg g ec Hla)) as [n E].
  fold (feats_of cfg ec) in E. unfold sensitivity_of. rewrite (la_normalized v cfg g ec Hla). change (0 <? 0)%nat with false. rewrite orb_false_r.
  destruct (decide (v_adaptive v = 0%nat)) as [Ha|Ha].
  - rewrite Ha. cbn [Nat.ltb Nat.leb]. unfold get_total_sum_feat_sq.
    destruct (la_plain v cfg g ec Hla Ha) as (_ & _ & _ & _ & ->).
    exists (weights g), (fun _ => 1). do 2 eexists. rewrite set_weights_id. split; [reflexivity|]. split_and!; try done.
    + by apply (total_sum_dot v cfg g ec Hla).
    + intros x i _. destruct (la_fits v cfg g ec Hla) as [[_ ->]|(? & _)]; [done|lia].
    + apply Hla.
  - rewrite (proj2 (Nat.ltb_lt 0 (v_adaptive v))) by lia.
    destruct (adaptive_rates v cfg g ec n Hla Ha E (Hgrad Ha)) as (w1 & R & ppu & Eq & Hrest). rewrite Eq. cbn [mbind option_bind].
    exists w1, R, ppu, (ex_total_sum_feat_sq ec). split; [|done]. do 2 f_equal. by destruct ec.
Qed.

Lemma keeps_slots w w' feats : keeps w w' -> slots w' feats = slots w feats.
Proof. intros Hk. unfold slots. by rewrite (keeps_mask _ _ Hk). Qed.

Lemma learnable_kept v cfg g ec w' c s p n : learnable v cfg g ec -> keeps (weights g) w' ->
  learnable v cfg (set_current_model c (set_weights w' g)) (set_predictions s p n ec).
Proof.
  intros [Hw He Hf Hn Hm Hnd Hfin Hl Hp] Hk. split; try done.
  - apply Hk.
  - cbn [weights set_current_model set_weights]. rewrite (keeps_shift _ _ Hk). by destruct He.
  - cbn [weights set_current_model set_weights]. unfold fits, ws_stride in *. by rewrite (keeps_shift _ _ Hk).
  - cbn [weights set_current_model set_weights]. by rewrite (keeps_slots (weights g) w').
Qed.

(** Moving the weights by an update whose rates are known. *)
Lemma train_exact v cfg g ec n w1 R u : ws_wf w1 -> Forall (fun xi => aligned w1 xi.2) (feats_of cfg ec) ->
  NoDup (slots w1 (feats_of cfg ec)) -> Forall (fun xi => finite xi.1) (feats_of cfg ec) ->
  v_normalized v = 0%nat -> v_feature_mask_off v = true -> rated v R w1 (feats_of cfg ec) ->
  features_of cfg ec = Some (n, feats_of cfg ec) ->
  exists w', train v cfg (set_weights w1 g) ec u = Some (set_weights w' g) /\
    ws_wf w' /\ ws_mask w' = ws_mask w1 /\ ws_stride_shift w' = ws_stride_shift w1 /\
    forall p, raw_prediction false 0 w' (feats_of cfg ec) p ==
      raw_prediction false 0 w1 (feats_of cfg ec) p + u * dot (fun xi => xi.1 * R xi) (feats_of cfg ec).
Proof.
  intros Hw Ha Hnd Hfin Hn Hmask HR E. unfold train. rewrite Hn, E. cbn [Nat.ltb Nat.leb mbind option_bind weights set_weights].
  destruct (trained v R u w1 _ Hw Ha Hnd Hfin Hmask HR) as (w' & E' & ? & ? & ? & Hu).
  rewrite E'. cbn [mbind option_bind]. exists w'. split; [done|]. split_and!; try done.
  intros p. by apply trained_prediction.
Qed.

Lemma raw_prediction_same w w' feats p :
  (forall x i, (x, i) ∈ feats -> weight_of w' i = weight_of w i) -> raw_prediction false 0 w' feats p = raw_prediction false 0 w feats p.
Proof. intros Hs. apply fold_left_ext. intros q [x i] Hin. cbn. by rewrite (Hs x i). Qed.

Lemma sync_not_due g (w : W) : sd_contraction g == 1 -> sd_gravity g == 0 ->
  (sd_contraction (set_weights w g) <? nlit (1 # 10 ^ 9))%num || (sd_gravity (set_weights w g) >? n_of_Z 1000)%num = false.
Proof.
  intros Hc Hg. apply orb_false_iff. cbn [sd_contraction sd_gravity set_weights].
  split; apply Qltb_false; cbn [nlit n_of_Z num_Q]; rewrite ?Hc, ?Hg; done.
Qed.

Lemma isnan_Q (x : Q) : isnan x = false.
Proof. apply negb_false_iff, Qeq_bool_iff. reflexivity. Qed.

Lemma regularize_off cfg g ec (u : Q) : reg_mode cfg = 0%Z -> regularize cfg g ec u = (u, g).
Proof. intros E. unfold regularize. by rewrite E. Qed.

(** One update without regularisation. *)
Lemma update_exact v cfg g ec : learnable v cfg g ec -> v_sparse_l2 v = false -> reg_mode cfg = 0%Z ->
  sd_contraction g == 1 -> sd_gravity g == 0 -> is_Some (current_model_state g) ->
  (v_adaptive v <> 0%nat -> 0 < get_loss (loss cfg) (sd_range g) (ex_pred_scalar ec) (ex_label ec) ->
     ~ (if v_adax v then ex_weight ec else ex_weight ec * get_square_grad (loss cfg) (ex_pred_scalar ec) (ex_label ec)) == 0) ->
  exists w' u total, update inv_sqrt v cfg g ec = Some (set_current_model None (set_weights w' g), set_updated u total ec) /\
    ws_wf w' /\ ws_stride_shift w' = ws_stride_shift (weights g) /\
    forall p, raw_prediction false 0 w' (feats_of cfg ec) p ==
      raw_prediction false 0 (weights g) (feats_of cfg ec) p + (u - ex_pred_scalar ec).
Proof.
  intros Hla Hl2 Hreg Hc Hgr [c Ecur] Hgrad. unfold update, compute_update. rewrite Ecur.
  set (ec0 := set_updated (ex_pred_scalar ec) (ex_total_sum_feat_sq ec) ec).
  assert (learnable v cfg g ec0) as Hla0 by (destruct Hla as [? [] ? ? ? ? ? ? ?]; split; try done; by split).
  change (ex_pred_scalar ec0) with (ex_pred_scalar ec). change (ex_label ec0) with (ex_label ec).
  destruct (nltb _ _) eqn:Hloss.
  2: { cbn [mbind option_bind]. rewrite Hl2, isnan_Q. cbn [mbind option_bind]. pose proof (sync_not_due g (weights g) Hc Hgr) as Hs. rewrite set_weights_id in Hs.
    change ((n_of_Z 0 =? n_of_Z 0)%num) with true. cbn [negb mbind option_bind]. rewrite Hs.
    exists (weights g), (ex_pred_scalar ec), (ex_total_sum_feat_sq ec). rewrite set_weights_id. split; [done|].
    split_and!; [apply Hla|done|]. intros p. lra. }
  destruct (features_of_eq (ws_stride_shift (weights g)) cfg ec (la_example v cfg g ec Hla)) as [n E]. fold (feats_of cfg ec) in E.
  destruct (sensitivity_exact v cfg g ec0 Hla0) as (w1 & R & ppu & total & Es & Hppu & HR & Hw1 & Hm1 & Hs1 & Hsame).
  { intros Ha. apply (Hgrad Ha). by apply Qltb_lt in Hloss. }
  rewrite Es. cbn [mbind option_bind]. change (ex_pred_scalar (set_updated _ _ ec0)) with (ex_pred_scalar ec).
  change (ex_label (set_updated _ _ ec0)) with (ex_label ec). set (upd := if v_invariant v then _ else _).
  rewrite regularize_off by done. cbn [mbind option_bind]. rewrite Hl2, isnan_Q. cbn [mbind option_bind].
  change (ex_updated_prediction (set_updated _ _ ec0)) with (ex_pred_scalar ec).
  change (set_updated ?a ?b (set_updated _ _ ec0)) with (set_updated a b ec). fold (feats_of cfg ec0) in *.
  change (feats_of cfg ec0) with (feats_of cfg ec) in *.
  destruct (upd =? n_of_Z 0)%num eqn:Hz; cbn [negb mbind option_bind].
  - rewrite sync_not_due by done. do 3 eexists. split; [reflexivity|]. split_and!; [done|done|].
    intros p. rewrite (raw_prediction_same (weights g) w1) by done. apply Qeq_bool_iff in Hz.
    qnum. rewrite Hz. change (inject_Z 0) with 0. lra.
  - destruct (train_exact v cfg g (set_updated (ex_pred_scalar ec + ppu * upd)%num total ec) n w1 R upd)
      as (w' & Et & Hw' & Hm' & Hs' & Hp); try done.
    + change (feats_of cfg (set_updated _ _ ec)) with (feats_of cfg ec). unfold aligned. rewrite Hs1.
      apply feats_aligned; apply Hla.
    + unfold slots. rewrite Hm1. apply Hla.
    + apply Hla.
    + apply Hla.
    + apply Hla.
    + cbn [ex_total_sum_feat_sq set_updated]. rewrite Et. cbn [mbind option_bind]. rewrite sync_not_due by done.
      do 3 eexists. split; [reflexivity|]. split_and!; [done|congruence|].
      intros p. change (feats_of cfg (set_updated _ _ ec)) with (feats_of cfg ec) in *. rewrite Hp.
      rewrite (raw_prediction_same (weights g) w1) by done. qnum. rewrite Hppu. lra.
Qed.
(** *** Lazy regularisation *)

Lemma trunc_weight_0 fw gr : gr == 0 -> trunc_weight fw gr == fw.
Proof.
  intros Hg. unfold trunc_weight, nabs. destruct (fw <? n_of_Z 0)%num eqn:Hn.
  - apply Qltb_lt in Hn. rewrite Qltb_true; qnum; [rewrite Hg; ring|]. unfold nopp. qnum.
    change (inject_Z 0) with 0 in *. change (inject_Z (-1)) with (-1). lra.
  - destruct (gr <? fw)%num eqn:Hp; [qnum; rewrite Hg; ring|]. symmetry. apply Qle_antisym; apply Qnot_lt_le; intros Hlt.
    + assert (gr < fw) as Hlt' by (qnum; change (inject_Z 0) with 0 in *; lra). pose proof (Qltb_true gr fw Hlt') as Ht. congruence.
    + pose proof (Qltb_true fw (n_of_Z 0) Hlt) as Ht. congruence.
Qed.

Lemma sync_rows g : ws_wf (weights g) -> ws_fixed (sync_row (sd_gravity g) (sd_contraction g)) (weights g) ->
  ws_wf (weights (sync_weights g)) /\ ws_stride_shift (weights (sync_weights g)) = ws_stride_shift (weights g) /\
  sd_gravity (sync_weights g) == 0 /\ sd_contraction (sync_weights g) == 1 /\
  forall i, aligned (weights g) i ->
    weight_of (weights (sync_weights g)) i == trunc_weight (weight_of (weights g) i) (sd_gravity g) * sd_contraction g.
Proof.
  intros Hw Hfix. unfold sync_weights. destruct (_ && _) eqn:E.
  - apply andb_true_iff in E as [E0%Qeq_bool_iff E1%Qeq_bool_iff]. split_and!; try done.
    intros i _. rewrite trunc_weight_0 by done. rewrite E1. qnum. change (inject_Z 1) with 1. lra.
  - destruct (ws_map_rows_ok (weights g) (sync_row (sd_gravity g) (sd_contraction g)) Hw) as (? & ? & ? & _ & Hr); [by intros []|done|].
    split_and!; try done. intros i Hi. unfold weight_of. cbn [weights set_regularization set_weights narrow widen_Q]. rewrite Hr by done.
    destruct (row_nonempty (weights g) i Hw Hi) as (fw & r & ->). reflexivity.
Qed.

Lemma raw_trunc_dot gr w feats p : raw_prediction true gr w feats p == p + dot (fun xi => trunc_weight (weight_of w xi.2) gr) feats.
Proof.
  unfold raw_prediction, dot. revert p. induction feats as [|[x i] feats IH]; intros p; cbn; [lra|].
  rewrite IH. qnum. cbn. lra.
Qed.

Lemma synced_prediction gr c gr' w w' feats : gr' == 0 ->
  (forall x i, (x, i) ∈ feats -> weight_of w' i == trunc_weight (weight_of w i) gr * c) ->
  forall p, raw_prediction true gr' w' feats p == raw_prediction true gr w feats p * c + p * (1 - c).
Proof.
  intros Hg Hw p. rewrite !raw_trunc_dot. assert (dot (fun xi => trunc_weight (weight_of w' xi.2) gr') feats == dot (fun xi => trunc_weight (weight_of w xi.2) gr) feats * c) as ->; [|ring].
  rewrite Qmult_comm. unfold dot. rewrite <- qsum_map_scale. apply qsum_map_ext. intros [x i] Hxi. cbn [fst snd].
  rewrite trunc_weight_0, (Hw x i Hxi) by done. ring.
Qed.
End Learning.

(** C2: learning an example moves what is predicted for it exactly from the prediction to the
    updated prediction the update announces (so a loss whose update reaches the label reaches it):
    in exact arithmetic, without regularisation, with plain or adaptive rates, for features in
    distinct rows, whatever the loss function, on any store of weights. *)
Theorem learn_reaches_updated {W : Type} `{WeightStoreLaws W Q, MathFns Q} (inv_sqrt : Q -> Q)
    (v : variant) (cfg : config Q) (g : gd Q Q W) (ec : example Q) :
  learnable v cfg g ec -> v_sparse_l2 v = false -> reg_mode cfg = 0 ->
  (sd_contraction g == 1)%Q -> (sd_gravity g == 0)%Q ->
  (v_adaptive v <> 0%nat -> forall p, (0 < get_loss (loss cfg) (sd_range g) p (ex_label ec))%Q ->
     ~ ((if v_adax v then ex_weight ec else ex_weight ec * get_square_grad (loss cfg) p (ex_label ec)) == 0)%Q) ->
  exists g0 ec0 g1 ec1 g2 ec2, predict false cfg g ec = Some (g0, ec0) /\
    learn inv_sqrt false v cfg g ec = Some (g1, ec1) /\
    predict false cfg g1 ec1 = Some (g2, ec2) /\
    (ex_partial_prediction ec2 == ex_partial_prediction ec0 + (ex_updated_prediction ec1 - ex_pred_scalar ec0))%Q.
Proof.
  intros Hla Hl2 Hreg Hc Hgr Hgrad.
  destruct (predict_ok false cfg g ec (la_wf v cfg g ec Hla) (la_example v cfg g ec Hla)) as (n & w0 & _ & Hk & E0). cbn zeta in E0.
  unfold learn. rewrite E0. cbn [mbind option_bind]. set (partial := nmul _ _) in *. set (scalar := finalize_prediction _ partial) in *.
  set (c := model_of _ _). pose proof (learnable_kept v cfg g ec w0 (Some c) scalar partial n Hla Hk) as Hla'.
  destruct (update_exact inv_sqrt v cfg _ _ Hla') as (w1 & u & total & E1 & Hw1 & Hs1 & Hp); try done.
  { intros Ha. apply (Hgrad Ha). }
  rewrite E1. set (g1 := set_current_model None _) in *. set (ec1 := set_updated u total _) in *.
  destruct (predict_ok false cfg g1 ec1 Hw1) as (n2 & w2 & _ & _ & E2).
  { cbn [weights g1 set_current_model set_weights] in Hs1 |- *. rewrite Hs1. destruct (la_example v cfg _ _ Hla'). by split. }
  do 6 eexists. split; [reflexivity|]. split; [reflexivity|]. split; [exact E2|].
  cbn [ex_partial_prediction ex_updated_prediction ex_pred_scalar set_predictions ec1 set_updated].
  rewrite raw_prediction_gravity. cbn [weights sd_contraction g1 set_current_model set_weights].
  specialize (Hp (ex_initial ec)). cbn [weights set_current_model set_weights] in Hp.
  change (feats_of cfg (set_predictions _ _ _ _)) with (feats_of cfg ec) in Hp.
  rewrite (raw_prediction_keeps false 0%Q (weights g) w0) in Hp
    by (try done; apply feats_aligned; apply Hla).
  unfold partial at 1. rewrite (raw_prediction_gravity (narrow (sd_gravity g))).
  change (feats_of cfg ec1) with (feats_of cfg ec). change (ex_initial ec1) with (ex_initial ec).
  change (ex_pred_scalar (set_predictions scalar _ _ _)) with scalar in Hp.
  qnum. cbn [narrow widen_Q] in *. rewrite Hp, Hc. lra.
Qed.

(** C23: folding the pending regularisation into the weights ([sync_weights]) changes what is
    predicted only by the share of the initial prediction that the contraction had scaled:
    [partial' = partial + initial * (1 - contraction)], so not at all for examples without an
    initial prediction. *)
Theorem sync_keeps_predictions {W : Type} `{WeightStoreLaws W Q, MathFns Q} (cfg : config Q) (g : gd Q Q W) (ec : example Q) :
  ws_wf (weights g) -> example_ok (ws_stride_shift (weights g)) ec -> (0 <= sd_gravity g)%Q ->
  ws_fixed (sync_row (sd_gravity g) (sd_contraction g)) (weights g) ->
  exists g1 ec1 g2 ec2, predict true cfg g ec = Some (g1, ec1) /\
    predict true cfg (sync_weights g) ec = Some (g2, ec2) /\
    (ex_partial_prediction ec2 == ex_partial_prediction ec1 + ex_initial ec * (1 - sd_contraction g))%Q /\
    (sd_gravity g2 == 0)%Q /\ (sd_contraction g2 == 1)%Q.
Proof.
  intros Hw He Hgr Hfix. destruct (predict_ok true cfg g ec Hw He) as (n & w1 & _ & _ & E1). cbn zeta in E1.
  destruct (sync_rows g Hw Hfix) as (Hw' & Hs' & Hg' & Hc' & Hrow).
  destruct (predict_ok true cfg (sync_weights g) ec Hw') as (n2 & w2 & _ & _ & E2); [by rewrite Hs'|]. cbn zeta in E2.
  do 4 eexists. split; [exact E1|]. split; [exact E2|]. cbn [ex_partial_prediction set_predictions sd_gravity sd_contraction set_weights].
  split; [|by split_and!]. qnum. cbn [narrow widen_Q]. rewrite Hc'.
  rewrite (synced_prediction (sd_gravity g) (sd_contraction g) (sd_gravity (sync_weights g)) (weights g) (weights (sync_weights g)) _ Hg');
    [lra|].
  intros x i Hxi. apply Hrow. pose proof (feats_aligned (weights g) cfg ec Hw He) as Ha. rewrite Forall_forall in Ha. by apply (Ha (x, i)).
Qed.

(** *** The layout of a row *)

Lemma ceil_log_2_spec fuel : forall v, 0 <= v < 2 ^ Z.of_nat fuel ->
  0 <= ceil_log_2 fuel v /\ v < 2 ^ ceil_log_2 fuel v /\ (0 < v -> 2 ^ ceil_log_2 fuel v <= 2 * v).
Proof.
  induction fuel as [|fuel IH]; intros v Hv; cbn [ceil_log_2]; [cbn in Hv; lia|].
  destruct (Z.eqb_spec v 0) as [->|Hv0]; [split_and!; lia|]. rewrite Z.shiftr_div_pow2 by lia. change (2 ^ 1) with 2.
  rewrite Nat2Z.inj_succ, Z.pow_succ_r in Hv by lia. pose proof (Z.div_mod v 2 ltac:(lia)). pose proof (Z.mod_pos_bound v 2 ltac:(lia)).
  destruct (IH (v / 2)) as (Hp & Hlo & Hhi); [lia|]. rewrite Z.pow_add_r by lia. change (2 ^ 1) with 2.
  split_and!; [lia|lia|]. intros _. destruct (Z.eq_dec (v / 2) 0) as [E|]; [|lia].
  rewrite E in *. replace (ceil_log_2 fuel 0) with 0 by (by destruct fuel). lia.
Qed.

(** The stride the weights are given is the least power of two that holds a row, and the
    adaptive, normalizing and spare floats of every variant lie inside the row, after the weight and
    apart from each other. *)
Theorem row_layout (l2 inv sq mask adax adaptive normalized : bool) (stride : Z) :
  1 <= stride < 2 ^ 63 ->
  (let s := stride_shift_of stride in 0 <= s /\ stride <= 2 ^ s /\ (1 < stride -> 2 ^ s < 2 * stride)) /\
  (let '(v, n) := set_learn l2 inv sq mask adax adaptive normalized in
   let used := 0%nat :: (if adaptive then [v_adaptive v] else []) ++ (if normalized then [v_normalized v] else [])
                 ++ (if adaptive || normalized then [v_spare v] else []) in
   NoDup used /\ Forall (fun o => Z.of_nat o < n) used /\ ((0 < v_adaptive v)%nat <-> adaptive = true) /\ 1 <= n < 2 ^ 63).
Proof.
  intros Hs. split.
  - unfold stride_shift_of. destruct (ceil_log_2_spec 64 (stride - 1)) as (? & ? & ?); [lia|]. cbn zeta. split_and!; lia.
  - destruct adaptive, normalized; cbn; (split_and!; [by apply (bool_decide_unpack _)| |split; (done || lia)|lia|lia]);
      repeat constructor; lia.
Qed.

(** *** Witnesses: two namespaces and their quadratic interaction, on a dense array *)

(** The losses of the samples call none of the elementary functions. *)
Definition no_fns : MathFns Q :=
  {| nexp q := q; nlog q := q; nlog1p q := q; nexpm1 q := q; nsqrt q := q; npow q _ := q; nisfinite _ := true |}.
#[local] Existing Instance no_fns.

Definition sample_space (g : Z) : features Q :=
  if g =? 97 then Features Q [1; 2]%Q [4; 12] [] [] 5%Q
  else if g =? 98 then Features Q [3]%Q [8] [] [] 9%Q
  else Features Q [] [] [] [] 0%Q.

Definition sample_example : example Q :=
  Example_ 1%Q 2%Q (1 # 2)%Q 4 [97; 98] sample_space [[97; 98]] [] false 0%Q 0%Q 0%Q 0 None.
Definition sample_config : config Q := Config false (fun _ => false) false hingeloss (1 # 2)%Q 0 0%Q 0%Q.
Definition sample_gd (gravity contraction : Q) : gd Q Q (dense_parameters Q) :=
  Gd (dense_make (2 ^ Z.of_nat 8) (Z.of_nat 2)) gravity contraction (LabelRange (-5) 5)%Q 0%Q 0%Q 0%Q [] None 1%Q 0%Q (-1 # 2)%Q 0%Q.

Lemma sample_groups_cases (P : features Q -> Prop) :
  P (sample_space 97) -> P (sample_space 98) -> P (sample_space 0) -> forall g, P (sample_space g).
Proof. intros Ha Hb Hc g. unfold sample_space in *. destruct (g =? 97); [done|]. by destruct (g =? 98). Qed.

Lemma multiple_mul s k : 0 <= s -> 0 <= k -> multiple s (k * 2 ^ s).
Proof. intros Hs Hk. split; [lia|]. by exists k. Qed.

Lemma sample_example_ok : example_ok 2 sample_example.
Proof.
  split.
  - by apply (multiple_mul 2 1).
  - cbn [ex_space sample_example]. apply (sample_groups_cases (fun f => Forall (multiple 2) (indices f))); cbn; repeat constructor;
      first [by apply (multiple_mul 2 1) | by apply (multiple_mul 2 2) | by apply (multiple_mul 2 3)].
  - cbn [ex_space sample_example]. intros g. apply (sample_groups_cases (fun f => length (indices f) = size f /\
      extents_ok 0 (size f) (namespace_extents f) /\ (false = true -> length (space_names f) = size f))); cbn; split_and!; (lia || done).
  - repeat constructor.
  - constructor.
Qed.

Lemma sample_wf gravity contraction : ws_wf (weights (sample_gd gravity contraction)).
Proof. apply (dense_make_wf 8 2). lia. Qed.

Lemma multipredict_is_predict_witness :
  exists g1 ec1 g2 pred,
    multipredict false sample_config (sample_gd 0 (1 # 2)%Q) sample_example 3 4 true = Some (g1, ec1, pred) /\
    multipredict_loop false sample_config (sample_gd 0 (1 # 2)%Q) sample_example 3 4 true = Some (g2, pred).
Proof.
  apply (multipredict_is_predict (D := Q)).
  - apply sample_wf.
  - exact sample_example_ok.
  - by apply (multiple_mul 2 1).
  - lia.
  - lia.
  - vm_compute. reflexivity.
  - intros _. repeat constructor.
  - intros Hc. vm_compute in Hc. discriminate.
Defined.

Lemma sync_keeps_predictions_witness :
  exists g1 ec1 g2 ec2, predict true sample_config (sample_gd (1 # 10)%Q (1 # 2)%Q) sample_example = Some (g1, ec1) /\
    predict true sample_config (sync_weights (sample_gd (1 # 10)%Q (1 # 2)%Q)) sample_example = Some (g2, ec2) /\
    (ex_partial_prediction ec2 == ex_partial_prediction ec1 + (1 # 2) * (1 - (1 # 2)))%Q /\
    (sd_gravity g2 == 0)%Q /\ (sd_contraction g2 == 1)%Q.
Proof.
  apply (sync_keeps_predictions sample_config (sample_gd (1 # 10)%Q (1 # 2)%Q) sample_example).
  - apply sample_wf.
  - exact sample_example_ok.
  - done.
  - exact I.
Defined.

(** Adaptive rates without normalisation; the reciprocal for the reciprocal square root. *)
Definition sample_variant : variant := (set_learn false true true true false true false).1.

Lemma sample_feats : feats_of sample_config sample_example = [(1%Q, 8); (2%Q, 16); (3%Q, 12); (3%Q, 67110472); (6%Q, 201331440)].
Proof. vm_compute. reflexivity. Qed.

Lemma sample_learnable : learnable sample_variant sample_config (sample_gd 0 1) sample_example.
Proof.
  split; try done.
  - apply sample_wf.
  - exact sample_example_ok.
  - right. split_and!; vm_compute; lia.
  - apply (bool_decide_unpack _). vm_compute. exact I.
  - rewrite sample_feats. repeat (apply Forall_cons; split; [split; vm_compute; reflexivity|]). constructor.
  - intros _. rewrite sample_feats. repeat (apply Forall_cons; split; [vm_compute; discriminate|]). constructor.
Qed.

Lemma learn_reaches_updated_witness :
  exists g0 ec0 g1 ec1 g2 ec2, predict false sample_config (sample_gd 0 1) sample_example = Some (g0, ec0) /\
    learn Qinv false sample_variant sample_config (sample_gd 0 1) sample_example = Some (g1, ec1) /\
    predict false sample_config g1 ec1 = Some (g2, ec2) /\
    (ex_partial_prediction ec2 == ex_partial_prediction ec0 + (ex_updated_prediction ec1 - ex_pred_scalar ec0))%Q.
Proof.
  apply (learn_reaches_updated Qinv sample_variant sample_config (sample_gd 0 1) sample_example).
  - exact sample_learnable.
  - done.
  - done.
  - done.
  - done.
  - intros _ p. cbn [get_loss loss sample_config hingeloss ex_label sample_example ex_weight v_adax sample_variant].
    cbn. unfold hinge_first_derivative. qnum. cbn [ex_label sample_example].
    destruct (Qle_bool (inject_Z 1) (1 * p)) eqn:E; cbn [negb].
    + intros Hpos. exfalso. apply Qle_bool_iff in E. change (inject_Z 1) with 1%Q in *. change (inject_Z 0) with 0%Q in *.
      revert Hpos. rewrite (proj2 (Qle_bool_iff (1 - 1 * p) 0)) by lra. cbn [negb]. lra.
    + intros _. vm_compute. discriminate.
Defined.

Lemma row_layout_witness :
  (let s := stride_shift_of 4 in 0 <= s /\ 4 <= 2 ^ s /\ (1 < 4 -> 2 ^ s < 2 * 4)) /\
  (let '(v, n) := set_learn false true true true false true true in
   let used := 0%nat :: [v_adaptive v] ++ [v_normalized v] ++ [v_spare v] in
   NoDup used /\ Forall (fun o => Z.of_nat o < n) used /\ ((0 < v_adaptive v)%nat <-> true = true) /\ 1 <= n < 2 ^ 63).
Proof. apply (row_layout false true true true false true true 4). lia. Defined.
