(* ===== verification/GdModel.v ===== *)
(** * The model file of gradient descent ([save_load] and below of [core/src/reductions/gd.cc])

    The state of online learning and the rows of the weight array, written to an [io_buf] and read
    back: [save_load_online_state_gd] (also used by ftrl, svrg and others, without a [gd] state),
    [save_load_regressor_gd] and [save_load]. The binary mode is modelled; the text modes, which
    only write, format through string streams and are not. *)

From Stdlib Require Import Floats.SpecFloat.
From S2P Require Import Prelude.
From S2P Require Import FloatBytes.
From S2P Require Import Features.
From S2P Require Import InteractionPredict.
From S2P Require Import IoBuf.
From S2P Require Import Losses.
From S2P Require Import Weights.
From S2P Require Import Gd.

#[local] Existing Instance num_f32.

(** ** Data *)

(** [version_struct] and its order. *)
Record version_struct := Version { major : Z; minor : Z; rev : Z }.
Definition version_ltb (a b : version_struct) : bool :=
  (major a <? major b) || ((major a =? major b) && (minor a <? minor b)) ||
  ((major a =? major b) && (minor a =? minor b) && (rev a <? rev b)).
Definition version_geb (a b : version_struct) : bool := negb (version_ltb a b).
Definition VERSION_SAVE_RESUME_FIX : version_struct := Version 7 10 1.
Definition VERSION_PASS_UINT64 : version_struct := Version 8 3 3.
Definition VERSION_FILE_WITH_L1_AND_L2_STATE_IN_MODEL_DATA : version_struct := Version 9 0 0.

(** What of [gd] the file depends on: [None] for the learners that pass no [gd]. *)
Record gd_inputs := GdInputs { adaptive_input : bool; normalized_input : bool; per_model_save_load : bool }.

(** What of the workspace the file depends on. [weights_adaptive] and [weights_normalized] are
    [all.weights.adaptive] and [all.weights.normalized]: on only while training. *)
Record model_config := ModelConfig {
  num_bits : Z; training : bool; preserve_performance_counters : bool; save_resume : bool;
  model_file_ver : version_struct;
  weights_adaptive : bool; weights_normalized : bool;
  gd_input : option gd_inputs; ftrl_size : nat
}.

(** The fields of [shared_data] and of the workspace that are saved and are not in [Gd.gd]. *)
Record counters := Counters {
  initial_t : f32; sum_loss : f64; sum_loss_since_last_dump : f64; dump_interval : f32;
  weighted_labeled_examples : f64; weighted_labels : f64; example_number : Z; total_features : Z;
  old_weighted_labeled_examples : f64; current_pass : Z
}.

(** A value in memory: its bytes, and the value of bytes. *)
Record codec (A : Type) := Codec { to_bytes : A -> list byte; of_bytes : list byte -> A }.
Arguments Codec {A}.
Arguments to_bytes {A}.
Arguments of_bytes {A}.
Definition float_codec : codec f32 := Codec float_bytes float_of_bytes.
Definition double_codec : codec f64 := Codec double_bytes double_of_bytes.
Definition u64_codec : codec Z := Codec (le_split 8) le_combine.

Section Model.
Context {Rd Wr W : Type} `{Reader Rd, Writer Wr, WeightStore W f32, WeightRows W f32} (alloc : nat -> Z).
Implicit Types (b : io_buf Rd Wr) (w : W) (cfg : model_config) (g : gd f32 f64 W).

(** ** Fields *)

(** [bin_text_read_write_fixed] without text: a read that comes short leaves the rest of the
    variable as it was. *)
Definition bin_read_write_fixed (read : bool) (data : list byte) b : io_result (list byte * io_buf Rd Wr) :=
  if read
  then do (bs, b) <- bin_read_fixed alloc (length data) b; Done (bs ++ drop (length bs) data, b)
  else do b <- bin_write_fixed alloc data b; Done (data, b).

Definition field {A} (c : codec A) (read : bool) (x : A) b : io_result (A * io_buf Rd Wr) :=
  do (bs, b) <- bin_read_write_fixed read (to_bytes c x) b; Done (if read then of_bytes c bs else x, b).

Fixpoint fields {A} (c : codec A) (read : bool) (xs : list A) b : io_result (list A * io_buf Rd Wr) :=
  match xs with
  | [] => Done ([], b)
  | x :: xs => do (x, b) <- field c read x b; do (xs, b) <- fields c read xs b; Done (x :: xs, b)
  end.

(** The models whose state is saved: all of them, or the first. *)
Definition saved_models cfg : bool := match gd_input cfg with Some i => per_model_save_load i | None => false end.
Definition model_fields cfg (read : bool) (xs : list f64) b : io_result (list f64 * io_buf Rd Wr) :=
  if saved_models cfg then fields double_codec read xs b
  else match xs with
       | [] => Undefined
       | x :: xs => do (x, b) <- field double_codec read x b; Done (x :: xs, b)
       end.

(** ** Rows *)

Definition index_size cfg : nat := if num_bits cfg <? 31 then 4 else 8.
Definition write_index cfg (i : Z) b : io_result (io_buf Rd Wr) := bin_write_fixed alloc (le_split (index_size cfg) i) b.

Definition nonzero (x : f32) : bool := negb (x =? n_of_Z 0)%num.

(** How many floats of a row are written if any is not zero; how many are read. *)
Definition gd_floats (adaptive normalized : bool) : nat := 1 + (if adaptive then 1 else 0) + (if normalized then 1 else 0).
Definition floats_written cfg : nat :=
  match ftrl_size cfg, gd_input cfg with
  | 3%nat, _ | 4%nat, _ | 6%nat, _ => ftrl_size cfg
  | _, None => 1
  | _, Some _ => gd_floats (weights_adaptive cfg) (weights_normalized cfg)
  end.
Definition floats_read cfg : nat :=
  match ftrl_size cfg, gd_input cfg with
  | O, None => 1
  | O, Some i => gd_floats (adaptive_input i) (normalized_input i)
  | S n, _ => S n
  end.

Definition write_floats (n : nat) (row : list f32) b : io_result (io_buf Rd Wr) := bin_write_fixed alloc (mjoin (float_bytes <$> take n row)) b.

Fixpoint write_rows (n : nat) cfg (shift : Z) (rows : list (Z * list f32)) b : io_result (io_buf Rd Wr) :=
  match rows with
  | [] => Done b
  | (index, row) :: rows =>
      if (length row <? n)%nat then Undefined
      else
        do b <- (if existsb nonzero (take n row)
                 then do b <- write_index cfg (Z.shiftr index shift) b; write_floats n row b
                 else Done b);
        write_rows n cfg shift rows b
  end.

(** [n] floats of the bytes in memory. *)
Fixpoint floats_of (n : nat) (bs : list byte) : list f32 :=
  match n with O => [] | S n => float_of_bytes (take 4 bs) :: floats_of n (drop 4 bs) end.

(** One record after its index: the new row, from the row in memory. *)
Definition read_online_row (n : nat) (row : list f32) b : io_result (list f32 * io_buf Rd Wr) :=
  do (bs, b) <- bin_read_fixed alloc (4 * n) b;
  if (8 <? n)%nat || (8 <? length row)%nat then Undefined
  else Done (take (length row) (floats_of 8 (bs ++ drop (length bs) (replicate 32 Byte.x00))), b).
Definition read_regressor_row (row : list f32) b : io_result (list f32 * io_buf Rd Wr) :=
  match row with
  | [] => Undefined
  | x :: row => do (x, b) <- field float_codec true x b; Done (x :: row, b)
  end.

(** The loop that reads records until the input ends. [old] is the last index. *)
Fixpoint read_rows (fuel : nat) cfg (read_row : list f32 -> io_buf Rd Wr -> io_result (list f32 * io_buf Rd Wr)) (old : Z) w b :
    io_result (W * io_buf Rd Wr) :=
  match fuel with
  | O => NoFuel
  | S fuel =>
      do (bs, b) <- bin_read_fixed alloc (index_size cfg) b;
      match bs with
      | [] => Done (w, b)
      | _ =>
          let i := le_combine (bs ++ drop (length bs) (le_split (index_size cfg) old)) in
          if 2 ^ num_bits cfg <=? i then Throw
          else
            let index := u64 (Z.shiftl i (ws_stride_shift w)) in
            match ws_access index w with
            | None => Undefined
            | Some (w, row) => do (row, b) <- read_row row b; read_rows fuel cfg read_row i (ws_write index row w) b
            end
      end
  end.
Definition rows_fuel b : nat := S (length (stream b)).

Definition save_load_regressor cfg (read : bool) w b : io_result (W * io_buf Rd Wr) :=
  if read then read_rows (rows_fuel b) cfg read_regressor_row 0 w b
  else do b <- write_rows 1 cfg (ws_stride_shift w) (ws_rows w) b; Done (w, b).

Definition save_load_online_state_weights cfg (read : bool) w b : io_result (W * io_buf Rd Wr) :=
  if read then read_rows (rows_fuel b) cfg (read_online_row (floats_read cfg)) 0 w b
  else do b <- write_rows (floats_written cfg) cfg (ws_stride_shift w) (ws_rows w) b; Done (w, b).
End Model.

(** ** The online state *)

#[local] Abbreviation f64_eqb := (@neqb f64 num_f64).
Definition L1_STATE_DEFAULT : f64 := @n_of_Z f64 num_f64 0.
Definition L2_STATE_DEFAULT : f64 := @n_of_Z f64 num_f64 1.

(** The state on the command line wins over that of the model, unless it is the default. *)
Definition chosen_state (read : bool) (default current local : f64) : f64 :=
  if read && f64_eqb current default && negb (f64_eqb local default) then local else current.

Definition reset_counters (c : counters) : counters :=
  let zero := @n_of_Z f64 num_f64 0 in
  Counters (initial_t c) zero zero (dump_interval c) zero zero 0 0 zero 0.

Section Online.
Context {Rd Wr W : Type} `{Reader Rd, Writer Wr, WeightStore W f32, WeightRows W f32} (alloc : nat -> Z).
Implicit Types (b : io_buf Rd Wr) (w : W) (cfg : model_config) (g : gd f32 f64 W) (c : counters).

(** What was added to the file in version 7.10.1: the total weights of the models, the weight of
    the labeled examples when the loss was last shown, and the pass. *)
Definition resume_fields cfg (read : bool) (totals : list f64) (old : f64) (pass : Z) b :
    io_result (list f64 * f64 * Z * io_buf Rd Wr) :=
  if negb read || version_geb (model_file_ver cfg) VERSION_SAVE_RESUME_FIX then
    do (totals, b) <- model_fields alloc cfg read totals b;
    do (old, b) <- field alloc double_codec read old b;
    do (pass, b) <- field alloc u64_codec read pass b;
    Done (totals, old, pass, b)
  else Done (totals, old, pass, b).

(** In version 9.0.0: the state of the regularisation. *)
Definition regularization_fields cfg (read : bool) (gravity contraction : f64) b : io_result (f64 * f64 * io_buf Rd Wr) :=
  if negb read || version_geb (model_file_ver cfg) VERSION_FILE_WITH_L1_AND_L2_STATE_IN_MODEL_DATA then
    do (local_gravity, b) <- field alloc double_codec read gravity b;
    let gravity := chosen_state read L1_STATE_DEFAULT gravity local_gravity in
    do (local_contraction, b) <- field alloc double_codec read contraction b;
    Done (gravity, chosen_state read L2_STATE_DEFAULT contraction local_contraction, b)
  else Done (gravity, contraction, b).

Definition save_load_online_state_gd cfg (read : bool) c g b : io_result (counters * gd f32 f64 W * io_buf Rd Wr) :=
  let keep := training cfg && preserve_performance_counters cfg in
  do (initial_t, b) <- field alloc float_codec read (initial_t c) b;
  do (norms, b) <- model_fields alloc cfg read (normalized_sum_norm_x <$> gd_per_model_states g) b;
  do (t, b) <- field alloc double_codec read (sd_t g) b;
  do (sum_loss, b) <- field alloc double_codec read (sum_loss c) b;
  do (since_last_dump, b) <- field alloc double_codec read (sum_loss_since_last_dump c) b;
  do (interval, b) <- field alloc float_codec read (dump_interval c) b;
  let interval := if negb read || keep then interval else dump_interval c in
  do (min, b) <- field alloc float_codec read (min_label (sd_range g)) b;
  do (max, b) <- field alloc float_codec read (max_label (sd_range g)) b;
  do (labeled, b) <- field alloc double_codec read (weighted_labeled_examples c) b;
  do (labels, b) <- field alloc double_codec read (weighted_labels c) b;
  do (unlabeled, b) <- field alloc double_codec read (sd_weighted_unlabeled_examples g) b;
  do (example_number, b) <- field alloc u64_codec read (example_number c) b;
  do (total_features, b) <- field alloc u64_codec read (total_features c) b;
  do (totals, old, pass, b) <- resume_fields cfg read (total_weight <$> gd_per_model_states g)
                                (old_weighted_labeled_examples c) (current_pass c) b;
  do (gravity, contraction, b) <- regularization_fields cfg read (sd_gravity g) (sd_contraction g) b;
  let c := Counters initial_t sum_loss since_last_dump interval labeled labels example_number total_features old pass in
  let reset := read && negb keep in
  do (w, b) <- save_load_online_state_weights alloc cfg read (weights g) b;
  Done (if reset then reset_counters c else c,
        Gd w gravity contraction (LabelRange min max) t (sd_weighted_holdout_examples g)
          (if reset then @n_of_Z f64 num_f64 0 else unlabeled)
          (zip_with PerModel norms totals) (current_model_state g) (update_multiplier g) (neg_norm_power g) (neg_power_t g) (sparse_l2 g),
        b).
End Online.

(** ** The model of gradient descent *)

(** What [save_load] reads besides: the initial weight, the default function of the options for
    random weights, the constant of [--constant]. *)
Record initial_config := InitialConfig {
  initial_weight : f32; random_weights : option (default_func f32); initial_constant : f32
}.

(** [VW::details::CONSTANT] of [constant.h]. *)
Definition CONSTANT : Z := 11650396.

(** [initialize_regressor] of [parse_regressor.cc]: an array that is there is kept. *)
Definition initialize_regressor cfg (init : initial_config) (p : parameters f32) : io_result (parameters f32) :=
  if not_null p then Done p
  else
    let length := 2 ^ num_bits cfg in
    let p := if sparse p then set_sparse (sparse_make length (ws_stride_shift p)) p
             else set_dense (dense_make length (ws_stride_shift p)) p in
    if ws_mask p =? 0 then Throw
    else if nonzero (initial_weight init) then Done (set_default (fun _ => [(0%nat, initial_weight init)]) p)
    else match random_weights init with Some f => Done (set_default f p) | None => Done p end.

(** [set_weight] of [vw.h] at offset 0. *)
Definition set_weight (index : Z) (value : f32) (p : parameters f32) : io_result (parameters f32) :=
  let i := u64 (Z.shiftl index (ws_stride_shift p)) in
  match ws_access i p with
  | Some (p, _ :: row) => Done (ws_write i (value :: row) p)
  | _ => Undefined
  end.

Section SaveLoad.
Context {Rd Wr : Type} `{Reader Rd, Writer Wr} (alloc : nat -> Z).
Implicit Types (b : io_buf Rd Wr) (cfg : model_config) (g : gd f32 f64 (parameters f32)) (c : counters).

Definition initial_weights cfg (init : initial_config) c (p : parameters f32) : io_result (parameters f32) :=
  do p <- initialize_regressor cfg init p;
  let p := if weights_adaptive cfg && (initial_t c >? n_of_Z 0)%num
           then set_default (fun _ => [(0%nat, initial_weight init); (1%nat, initial_t c)]) p else p in
  if nonzero (initial_constant init) then set_weight CONSTANT (initial_constant init) p else Done p.

Definition bool_codec : codec bool := Codec (fun v : bool => [if v then Byte.x01 else Byte.x00]) (fun bs => negb (le_combine bs =? 0)).

Definition save_load cfg (init : initial_config) (read : bool) c g b :
    io_result (counters * gd f32 f64 (parameters f32) * io_buf Rd Wr) :=
  do g <- (if read then do p <- initial_weights cfg init c (weights g); Done (set_weights p g) else Done g);
  do (c, g, b) <-
    (if (0 <? length (input_files b) + length (output_files b))%nat then
       do (resume, b) <- field alloc bool_codec read (save_resume cfg) b;
       if resume then save_load_online_state_gd alloc cfg read c g b
       else if not_null (weights g)
            then do (p, b) <- save_load_regressor alloc cfg read (weights g) b; Done (c, set_weights p g, b)
            else Throw
     else Done (c, g, b));
  Done (c, if training cfg then g else @sync_weights f32 f64 _ num_f32 num_f64 widen_f32_f64 _ g, b).
End SaveLoad.

(** * Theorems *)

(** ** Fields *)

Definition codec_ok {A} (c : codec A) (ok : A -> Prop) : Prop :=
  (forall x, ok x -> of_bytes c (to_bytes c x) = x) /\ (forall x y, length (to_bytes c x) = length (to_bytes c y)).

Lemma float_codec_ok : codec_ok float_codec valid_f32.
Proof. split; [exact float_bytes_roundtrip|]. intros x y. cbn. by rewrite !length_float_bytes. Qed.
Lemma double_codec_ok : codec_ok double_codec valid_f64.
Proof. split; [exact double_bytes_roundtrip|]. intros x y. cbn. by rewrite !length_double_bytes. Qed.
Lemma u64_codec_ok : codec_ok u64_codec (fun x => 0 <= x < 2 ^ 64).
Proof.
  split; [|intros x y; cbn -[le_split]; by rewrite !length_le_split]. intros x Hx. cbn -[le_split le_combine].
  rewrite le_combine_split. by apply Z.mod_small.
Qed.
Lemma bool_codec_ok : codec_ok bool_codec (fun _ => True).
Proof. by split; [intros []|intros [] []]. Qed.

Section Transfer.
Context {Rd Wr : Type} `{Reader Rd, Writer Wr} (alloc : nat -> Z).
Implicit Type b : io_buf Rd Wr.

(** What an operation writes, and what it makes of the input it consumes. *)
Definition saves {A} (m : io_buf Rd Wr -> io_result (A * io_buf Rd Wr)) (x : A) (bs : list byte) : Prop :=
  forall b, reliable (W := Wr) -> wf_write b -> exists b', m b = Done (x, b') /\ written b' = written b ++ bs /\ wf_write b'.
Definition loads {A} (m : io_buf Rd Wr -> io_result (A * io_buf Rd Wr)) (x : A) (bs : list byte) : Prop :=
  forall b rest, wf b -> stream b = bs ++ rest -> exists b', m b = Done (x, b') /\ stream b' = rest /\ wf b'.

Lemma bin_read_loads n bs : length bs = n -> loads (bin_read_fixed alloc n) bs bs.
Proof.
  intros <- b rest Hwf Hs. destruct (bin_read_fixed_ok alloc (length bs) b Hwf) as (b' & -> & Hs' & Hwf' & _).
  exists b'. by rewrite Hs', Hs, take_app_length, drop_app_length.
Qed.

Lemma field_saves {A} (c : codec A) x : saves (field alloc c false x) x (to_bytes c x).
Proof.
  intros b Hr Hwf. unfold field, bin_read_write_fixed. destruct (bin_write_fixed_ok alloc (to_bytes c x) b Hr Hwf) as (b' & -> & Hw & Hwf' & _).
  by exists b'.
Qed.

Lemma field_loads {A} (c : codec A) ok x y : codec_ok c ok -> ok x -> loads (field alloc c true y) x (to_bytes c x).
Proof.
  intros [Hc Hl] Hx b rest Hwf Hs. unfold field, bin_read_write_fixed.
  destruct (bin_read_loads (length (to_bytes c y)) (to_bytes c x) (Hl x y) b rest Hwf Hs) as (b' & -> & Hs' & Hwf').
  cbn [io_bind]. exists b'. rewrite (Hl x y), drop_all, app_nil_r, Hc by done. done.
Qed.

Lemma fields_saves {A} (c : codec A) xs : saves (fields alloc c false xs) xs (mjoin (to_bytes c <$> xs)).
Proof.
  induction xs as [|x xs IH]; intros b Hr Hwf; cbn [fields]; [exists b; by rewrite app_nil_r|].
  destruct (field_saves c x b Hr Hwf) as (b1 & -> & Hw1 & Hwf1). cbn [io_bind].
  destruct (IH b1 Hr Hwf1) as (b2 & -> & Hw2 & Hwf2). cbn [io_bind]. exists b2. split; [done|]. by rewrite Hw2, Hw1, <- app_assoc.
Qed.

Lemma fields_loads {A} (c : codec A) ok xs ys : codec_ok c ok -> Forall ok xs -> length ys = length xs ->
  loads (fields alloc c true ys) xs (mjoin (to_bytes c <$> xs)).
Proof.
  intros Hc Hxs. revert ys. induction Hxs as [|x xs Hx Hxs IH]; intros [|y ys] Hl b rest Hwf Hs; try done; cbn [fields].
  - exists b. done.
  - cbn in Hs. rewrite <- app_assoc in Hs. destruct (field_loads c ok x y Hc Hx b _ Hwf Hs) as (b1 & -> & Hs1 & Hwf1). cbn [io_bind].
    destruct (IH ys ltac:(by injection Hl) b1 rest Hwf1 Hs1) as (b2 & -> & Hs2 & Hwf2). cbn [io_bind]. by exists b2.
Qed.

(** What is saved of the models, and what loading puts in place of [ys]. *)
Definition model_bytes cfg (xs : list f64) : list byte :=
  if saved_models cfg then mjoin (double_bytes <$> xs) else match xs with [] => [] | x :: _ => double_bytes x end.
Definition loaded_models cfg (xs ys : list f64) : list f64 := if saved_models cfg then xs else take 1 xs ++ drop 1 ys.

Lemma model_fields_saves cfg xs : xs <> [] -> saves (model_fields alloc cfg false xs) xs (model_bytes cfg xs).
Proof.
  intros Hne b Hr Hwf. unfold model_fields, model_bytes. destruct (saved_models cfg); [by apply (fields_saves double_codec)|].
  destruct xs as [|x xs]; [done|]. destruct (field_saves double_codec x b Hr Hwf) as (b1 & -> & Hw1 & Hwf1). by exists b1.
Qed.

Lemma model_fields_loads cfg xs ys : xs <> [] -> length ys = length xs -> Forall valid_f64 xs ->
  loads (model_fields alloc cfg true ys) (loaded_models cfg xs ys) (model_bytes cfg xs).
Proof.
  intros Hne Hl Hv b rest Hwf Hs. unfold model_fields, model_bytes, loaded_models in *. destruct (saved_models cfg).
  - by apply (fields_loads double_codec valid_f64 xs ys double_codec_ok Hv Hl).
  - destruct xs as [|x xs], ys as [|y ys]; try done. apply Forall_cons in Hv as [Hx _].
    destruct (field_loads double_codec valid_f64 x y double_codec_ok Hx b rest Hwf Hs) as (b1 & -> & Hs1 & Hwf1). by exists b1.
Qed.
End Transfer.

(** One more value saved or loaded, in a goal that starts with it. *)
Ltac save_step :=
  match goal with
  | Hr : reliable, Hwf : wf_write ?b |- context [field ?alloc ?c false ?x ?b] =>
      let b' := fresh "b" in let Hw := fresh "Hw" in let Hf := fresh "Hf" in
      destruct (field_saves alloc c x b Hr Hwf) as (b' & -> & Hw & Hf); cbn [io_bind]
  | Hr : reliable, Hwf : wf_write ?b, Hne : ?xs <> [] |- context [model_fields ?alloc ?cfg false ?xs ?b] =>
      let b' := fresh "b" in let Hw := fresh "Hw" in let Hf := fresh "Hf" in
      destruct (model_fields_saves alloc cfg xs Hne b Hr Hwf) as (b' & -> & Hw & Hf); cbn [io_bind]
  end.
Ltac loaded lem :=
  let b' := fresh "b" in let Hs := fresh "Hs" in let Hf := fresh "Hf" in
  destruct lem as (b' & -> & Hs & Hf); cbn [io_bind].
Ltac load_step :=
  match goal with
  | Hwf : wf ?b, Hs : stream ?b = float_bytes ?x ++ ?rest |- context [field ?alloc float_codec true ?y ?b] =>
      loaded (field_loads alloc float_codec valid_f32 x y float_codec_ok ltac:(assumption) b rest Hwf Hs); clear Hwf Hs
  | Hwf : wf ?b, Hs : stream ?b = double_bytes ?x ++ ?rest |- context [field ?alloc double_codec true ?y ?b] =>
      loaded (field_loads alloc double_codec valid_f64 x y double_codec_ok ltac:(assumption) b rest Hwf Hs); clear Hwf Hs
  | Hwf : wf ?b, Hs : stream ?b = le_split 8 ?x ++ ?rest |- context [field ?alloc u64_codec true ?y ?b] =>
      loaded (field_loads alloc u64_codec (fun z => 0 <= z < 2 ^ 64) x y u64_codec_ok ltac:(split; assumption) b rest Hwf Hs); clear Hwf Hs
  | Hwf : wf ?b, Hs : stream ?b = model_bytes ?cfg ?xs ++ ?rest, Hne : ?xs <> [], Hl : length ?ys = length ?xs, Hv : Forall valid_f64 ?xs
      |- context [model_fields ?alloc ?cfg true ?ys ?b] =>
      loaded (model_fields_loads alloc cfg xs ys Hne Hl Hv b rest Hwf Hs); clear Hwf Hs
  end.

(** The bytes of the online state before the weights. *)
Definition online_bytes {W} (cfg : model_config) (c : counters) (g : gd f32 f64 W) : list byte :=
  let d := double_bytes in
  float_bytes (initial_t c) ++ model_bytes cfg (normalized_sum_norm_x <$> gd_per_model_states g) ++ d (sd_t g) ++
  d (sum_loss c) ++ d (sum_loss_since_last_dump c) ++ float_bytes (dump_interval c) ++
  float_bytes (min_label (sd_range g)) ++ float_bytes (max_label (sd_range g)) ++
  d (weighted_labeled_examples c) ++ d (weighted_labels c) ++ d (sd_weighted_unlabeled_examples g) ++
  le_split 8 (example_number c) ++ le_split 8 (total_features c) ++
  model_bytes cfg (total_weight <$> gd_per_model_states g) ++ d (old_weighted_labeled_examples c) ++ le_split 8 (current_pass c) ++
  d (sd_gravity g) ++ d (sd_contraction g).

(** Numbers that fit their type. *)
Record state_ok {W} (c : counters) (g : gd f32 f64 W) : Prop := {
  so_models : gd_per_model_states g <> [];
  so_norms : Forall (fun s => valid_f64 (normalized_sum_norm_x s) /\ valid_f64 (total_weight s)) (gd_per_model_states g);
  so_floats : Forall valid_f32 [initial_t c; dump_interval c; min_label (sd_range g); max_label (sd_range g)];
  so_doubles : Forall valid_f64 [sd_t g; sum_loss c; sum_loss_since_last_dump c; weighted_labeled_examples c; weighted_labels c;
    sd_weighted_unlabeled_examples g; old_weighted_labeled_examples c; sd_gravity g; sd_contraction g];
  so_words : Forall (fun z => 0 <= z < 2 ^ 64) [example_number c; total_features c; current_pass c]
}.

Section OnlineCorrect.
Context {Rd Wr : Type} `{Reader Rd, Writer Wr} (alloc : nat -> Z).
Context {W : Type} `{WeightStore W f32, !WeightRows W f32}.
Implicit Types (b : io_buf Rd Wr) (w : W) (cfg : model_config) (g : gd f32 f64 W) (c : counters).

Lemma zip_models (l : list (gd_per_model_state f64)) :
  zip_with PerModel (normalized_sum_norm_x <$> l) (total_weight <$> l) = l.
Proof. induction l as [|[] l IH]; [done|]. cbn. by rewrite IH. Qed.

Lemma online_saved cfg c g : gd_per_model_states g <> [] -> forall b, reliable (W := Wr) -> wf_write b ->
  exists b', written b' = written b ++ online_bytes cfg c g /\ wf_write b' /\
    save_load_online_state_gd alloc cfg false c g b =
      (do (w, b) <- save_load_online_state_weights alloc cfg false (weights g) b'; Done (c, set_weights w g, b)).
Proof.
  intros Hne b Hr Hwf. unfold save_load_online_state_gd, resume_fields, regularization_fields. cbn [negb orb andb].
  assert (normalized_sum_norm_x <$> gd_per_model_states g <> []) as Hne1 by (by destruct (gd_per_model_states g)).
  assert (total_weight <$> gd_per_model_states g <> []) as Hne2 by (by destruct (gd_per_model_states g)).
  repeat save_step.
  eexists. split; [|split; [|]].
  2: eassumption.
  - repeat match goal with E : written ?b' = _ |- context [written ?b'] => rewrite E end. unfold online_bytes.
    by rewrite <- !app_assoc.
  - destruct (save_load_online_state_weights _ _ _ _ _) as [[w ?]| | |]; try done. cbn [io_bind]. do 3 f_equal; [by destruct c|].
    rewrite zip_models. destruct g as [? ? ? [] ]. done.
Qed.

(** What loading makes of the state [c0], [g0] when the file was saved from [c], [g], before the weights. *)
Definition loaded_counters cfg c0 c : counters :=
  let keep := training cfg && preserve_performance_counters cfg in
  let c' := Counters (initial_t c) (sum_loss c) (sum_loss_since_last_dump c) (if keep then dump_interval c else dump_interval c0)
              (weighted_labeled_examples c) (weighted_labels c) (example_number c) (total_features c) (old_weighted_labeled_examples c) (current_pass c) in
  if keep then c' else reset_counters c'.
Definition loaded_gd {W1} cfg g0 (g : gd f32 f64 W1) (w : W) : gd f32 f64 W :=
  Gd w (chosen_state true L1_STATE_DEFAULT (sd_gravity g0) (sd_gravity g)) (chosen_state true L2_STATE_DEFAULT (sd_contraction g0) (sd_contraction g))
    (sd_range g) (sd_t g) (sd_weighted_holdout_examples g0)
    (if training cfg && preserve_performance_counters cfg then sd_weighted_unlabeled_examples g else @n_of_Z f64 num_f64 0)
    (zip_with PerModel (loaded_models cfg (normalized_sum_norm_x <$> gd_per_model_states g) (normalized_sum_norm_x <$> gd_per_model_states g0))
                       (loaded_models cfg (total_weight <$> gd_per_model_states g) (total_weight <$> gd_per_model_states g0)))
    (current_model_state g0) (update_multiplier g0) (neg_norm_power g0) (neg_power_t g0) (sparse_l2 g0).

Lemma online_loaded {W1} cfg c0 g0 c (g : gd f32 f64 W1) b rest : state_ok c g -> length (gd_per_model_states g0) = length (gd_per_model_states g) ->
  version_geb (model_file_ver cfg) VERSION_SAVE_RESUME_FIX = true ->
  version_geb (model_file_ver cfg) VERSION_FILE_WITH_L1_AND_L2_STATE_IN_MODEL_DATA = true ->
  wf b -> stream b = online_bytes cfg c g ++ rest ->
  exists b', stream b' = rest /\ wf b' /\
    save_load_online_state_gd alloc cfg true c0 g0 b =
      (do (w, b) <- save_load_online_state_weights alloc cfg true (weights g0) b'; Done (loaded_counters cfg c0 c, loaded_gd cfg g0 g w, b)).
Proof.
  intros [Hne Hm Hf Hd Hz] Hlen Hv1 Hv2 Hwf Hs. rewrite !Forall_cons in Hf. rewrite !Forall_cons in Hd. rewrite !Forall_cons in Hz. destruct_and!.
  unfold save_load_online_state_gd, resume_fields, regularization_fields. rewrite Hv1, Hv2. cbn [negb orb andb].
  unfold online_bytes in Hs. rewrite <- !app_assoc in Hs.
  assert (normalized_sum_norm_x <$> gd_per_model_states g <> []) as Hne1 by (by destruct (gd_per_model_states g)).
  assert (total_weight <$> gd_per_model_states g <> []) as Hne2 by (by destruct (gd_per_model_states g)).
  assert (length (normalized_sum_norm_x <$> gd_per_model_states g0) = length (normalized_sum_norm_x <$> gd_per_model_states g)) as Hl1 by (by rewrite !length_fmap).
  assert (length (total_weight <$> gd_per_model_states g0) = length (total_weight <$> gd_per_model_states g)) as Hl2 by (by rewrite !length_fmap).
  assert (Forall valid_f64 (normalized_sum_norm_x <$> gd_per_model_states g)) as Hv3 by (apply Forall_fmap; eapply Forall_impl; [exact Hm|by intros ? []]).
  assert (Forall valid_f64 (total_weight <$> gd_per_model_states g)) as Hv4 by (apply Forall_fmap; eapply Forall_impl; [exact Hm|by intros ? []]).
  repeat load_step.
  eexists. split; [eassumption|split; [eassumption|]].
  destruct (save_load_online_state_weights _ _ _ _ _) as [[w ?]| | |]; try done. cbn [io_bind]. do 3 f_equal.
  - unfold loaded_counters. by destruct (training cfg && preserve_performance_counters cfg).
  - unfold loaded_gd. f_equal; [by destruct (sd_range g)|]. by destruct (training cfg && preserve_performance_counters cfg).
Qed.
End OnlineCorrect.

(** ** Rows *)

Definition float_list (fs : list f32) : list byte := mjoin (float_bytes <$> fs).

Lemma float_list_cons f fs : float_list (f :: fs) = float_bytes f ++ float_list fs.
Proof. done. Qed.

Lemma length_float_list fs : length (float_list fs) = (4 * length fs)%nat.
Proof. induction fs as [|f fs IH]; [done|]. rewrite float_list_cons, length_app, length_float_bytes, IH. cbn [length]. lia. Qed.

Lemma floats_of_list fs n rest : Forall valid_f32 fs ->
  floats_of (length fs + n) (float_list fs ++ rest) = fs ++ floats_of n rest.
Proof.
  induction 1 as [|f fs Hf _ IH]; [done|]. rewrite float_list_cons, <- app_assoc. cbn [length app Nat.add floats_of].
  rewrite take_app_length' by (by rewrite length_float_bytes). rewrite drop_app_length' by (by rewrite length_float_bytes).
  by rewrite float_bytes_roundtrip, IH.
Qed.

(** A record: an index and the floats after it. *)
Definition record_bytes cfg (shift : Z) (rec : Z * list f32) : list byte :=
  le_split (index_size cfg) (Z.shiftr rec.1 shift) ++ float_list rec.2.
Definition records (n : nat) (rows : list (Z * list f32)) : list (Z * list f32) :=
  filter (fun pr => existsb nonzero pr.2) (prod_map id (take n) <$> rows).
Definition records_bytes cfg (shift : Z) (recs : list (Z * list f32)) : list byte := mjoin (record_bytes cfg shift <$> recs).

Lemma records_bytes_cons cfg shift rec recs : records_bytes cfg shift (rec :: recs) = record_bytes cfg shift rec ++ records_bytes cfg shift recs.
Proof. done. Qed.

Lemma records_bytes_length cfg shift recs : (length recs <= length (records_bytes cfg shift recs))%nat.
Proof.
  induction recs as [|rec recs IH]; [done|]. rewrite records_bytes_cons, length_app. unfold record_bytes at 1.
  rewrite length_app, length_le_split. cbn [length]. assert (0 < index_size cfg)%nat by (unfold index_size; destruct (num_bits cfg <? 31); lia). lia.
Qed.

Section RowsCorrect.
Context {Rd Wr : Type} `{Reader Rd, Writer Wr} (alloc : nat -> Z).
Implicit Types (b : io_buf Rd Wr) (cfg : model_config).

Lemma write_rows_emits n cfg shift rows : Forall (fun pr => n <= length pr.2)%nat rows ->
  emits (R := Rd) (W := Wr) (write_rows alloc n cfg shift rows) (records_bytes cfg shift (records n rows)).
Proof.
  unfold records, records_bytes. induction 1 as [|[p row] rows Hl _ IH]; cbn [write_rows]; [apply emits_ret|].
  cbn [snd] in Hl. rewrite (proj2 (Nat.ltb_ge _ _) Hl). cbn [fmap list_fmap prod_map fst snd id]. rewrite filter_cons. cbn [snd].
  destruct (existsb nonzero (take n row)).
  - rewrite decide_True by done. cbn [fmap list_fmap mjoin list_join]. apply (emits_bind (W := Wr)); [|exact IH].
    unfold record_bytes. cbn [fst snd]. apply (emits_bind (W := Wr)); apply bin_write_fixed_emits.
  - rewrite decide_False by (intros []). intros b Hr Hwf. cbn [io_bind]. exact (IH b Hr Hwf).
Qed.
End RowsCorrect.

Section LoadRows.
Context {Rd Wr : Type} `{Reader Rd, Writer Wr} (alloc : nat -> Z).
Context {W : Type} `{WeightStoreLaws W f32}.
Implicit Types (b : io_buf Rd Wr) (w : W) (cfg : model_config).

(** An index that [num_bits] bits and the stride make. *)
Definition row_index cfg w (p : Z) : Prop := aligned w p /\ Z.land p (ws_mask w) = p.
Definition sized cfg w : Prop := 0 <= num_bits cfg /\ ws_mask w = Z.ones (num_bits cfg + ws_stride_shift w).

Lemma index_ok cfg w p : ws_wf w -> sized cfg w -> row_index cfg w p ->
  let i := Z.shiftr p (ws_stride_shift w) in
  0 <= i < 2 ^ num_bits cfg /\ u64 (Z.shiftl i (ws_stride_shift w)) = p /\ le_combine (le_split (index_size cfg) i) = i.
Proof.
  intros Hw [Hnb Hmask] [[Hp [k ->]] Hpm]. cbn zeta. destruct (ws_mask_ok w Hw) as (n & Hn & Hs & Hn64).
  rewrite Z.shiftr_div_pow2 by lia. rewrite Z.div_mul by (apply Z.pow_nonzero; lia).
  assert (0 < 2 ^ ws_stride_shift w) as Hpos by (apply Z.pow_pos_nonneg; lia).
  assert (k * 2 ^ ws_stride_shift w < 2 ^ Z.of_nat n) as Hlt.
  { rewrite <- Hpm, Hn, Z.land_ones by lia. apply Z.mod_pos_bound. lia. }
  assert (2 ^ Z.of_nat n < 2 ^ 64) by (apply Z.pow_lt_mono_r; lia).
  assert (0 <= k < 2 ^ num_bits cfg) as Hk.
  { split; [nia|]. rewrite Hmask, Z.land_ones in Hpm by lia.
    assert (k * 2 ^ ws_stride_shift w < 2 ^ (num_bits cfg + ws_stride_shift w)) as Hlt2 by (rewrite <- Hpm; apply Z.mod_pos_bound; lia).
    rewrite Z.pow_add_r in Hlt2 by lia. nia. }
  split_and!; [lia|lia| |].
  - rewrite Z.shiftl_mul_pow2 by lia. apply Z.mod_small. lia.
  - rewrite le_combine_split. apply Z.mod_small. split; [lia|]. unfold index_size. destruct (Z.ltb_spec (num_bits cfg) 31).
    + assert (2 ^ num_bits cfg <= 2 ^ 31) by (apply Z.pow_le_mono_r; lia). change (Z.of_nat 4 * 8) with 32. lia.
    + change (Z.of_nat 8 * 8) with 64. nia.
Qed.

Definition reads_row w (read_row : list f32 -> io_buf Rd Wr -> io_result (list f32 * io_buf Rd Wr))
    (new_row : list f32 -> list f32 -> list f32) (fs : list f32) : Prop :=
  forall row, length row = ws_stride w -> loads (read_row row) (new_row fs row) (float_list fs) /\ length (new_row fs row) = length row.

Lemma read_rows_ok cfg read_row new_row shift recs : forall fuel old w b,
  ws_wf w -> sized cfg w -> ws_stride_shift w = shift -> Forall (fun rec => reads_row w read_row new_row rec.2) recs ->
  Forall (fun rec => row_index cfg w rec.1) recs -> NoDup recs.*1 ->
  wf b -> stream b = records_bytes cfg shift recs -> (length recs < fuel)%nat ->
  exists w' b', read_rows alloc fuel cfg read_row old w b = Done (w', b') /\ stream b' = [] /\ wf b' /\ ws_wf w' /\
    ws_mask w' = ws_mask w /\ ws_stride_shift w' = ws_stride_shift w /\
    (forall p fs, (p, fs) ∈ recs -> ws_row w' p = new_row fs (ws_row w p)) /\
    (forall j, aligned w j -> ~ Z.land j (ws_mask w) ∈ recs.*1 -> ws_row w' j = ws_row w j).
Proof.
  induction recs as [|[p fs] recs IH]; intros fuel old w b Hw Hsz Hsh Hrd Hix Hnd Hwf Hs Hfuel; (destruct fuel as [|fuel]; [cbn in Hfuel; lia|]); cbn [read_rows].
  - destruct (bin_read_fixed_ok alloc (index_size cfg) b Hwf) as (b1 & -> & Hs1 & Hwf1 & _). rewrite Hs in Hs1 |- *.
    change (records_bytes cfg shift []) with (@nil byte) in *. rewrite drop_nil in Hs1. rewrite take_nil. cbn [io_bind]. exists w, b1. split_and!; try done.
    intros p fs Hin. by apply elem_of_nil in Hin.
  - apply Forall_cons in Hrd as [Hr Hrd]. apply Forall_cons in Hix as [Hi Hix]. apply NoDup_cons in Hnd as [Hfresh Hnd]. cbn [fst snd] in *.
    destruct (index_ok cfg w p Hw Hsz Hi) as ((Hi0 & Hilt) & Hidx & Hle). rewrite Hsh in Hi0, Hilt, Hidx, Hle.
    unfold records_bytes in Hs. cbn [fmap list_fmap mjoin list_join] in Hs. unfold record_bytes in Hs at 1. cbn [fst snd] in Hs.
    rewrite <- !app_assoc in Hs.
    destruct (bin_read_loads alloc (index_size cfg) _ ltac:(apply length_le_split) b _ Hwf Hs) as (b1 & -> & Hs1 & Hwf1). cbn [io_bind].
    set (i := Z.shiftr p shift) in *.
    rewrite !drop_ge, app_nil_r, Hle by (by rewrite !length_le_split). rewrite (proj2 (Z.leb_gt _ _)) by lia. rewrite Hsh, Hidx.
    destruct (le_split (index_size cfg) i) as [|x xs] eqn:Esplit.
    { apply (f_equal length) in Esplit. rewrite length_le_split in Esplit. unfold index_size in Esplit. by destruct (num_bits cfg <? 31). }
    clear Esplit Hs. destruct Hi as [Hal Hmask].
    destruct (ws_access_ok w p Hw Hal) as (w1 & -> & Hw1 & Hm1 & Hsh1 & _ & Hr1).
    destruct (Hr (ws_row w p) (ws_row_length w p Hw Hal)) as [Hload Hlen].
    destruct (Hload b1 _ Hwf1 Hs1) as (b2 & -> & Hs2 & Hwf2). cbn [io_bind].
    assert (aligned w1 p) as Hal1 by (unfold aligned; by rewrite Hsh1).
    destruct (ws_write_ok w1 p (new_row fs (ws_row w p)) Hw1 Hal1) as (Hw2 & Hm2 & Hsh2 & _ & Hr2).
    { rewrite Hlen, (ws_row_length w p Hw Hal). unfold ws_stride. by rewrite Hsh1. }
    set (w2 := ws_write p (new_row fs (ws_row w p)) w1) in *. rewrite Hm1 in *. rewrite Hsh1 in *.
    assert (forall j, aligned w j -> ws_row w2 j = if decide (Z.land j (ws_mask w) = p) then new_row fs (ws_row w p) else ws_row w j) as Hrow.
    { intros j Hj. rewrite Hr2 by (unfold aligned; by rewrite Hsh1). rewrite Hmask. by rewrite Hr1. }
    destruct (IH fuel i w2 b2) as (w' & b' & -> & Hs' & Hwf' & Hw' & Hm' & Hsh' & Hin & Hout); try done.
    { destruct Hsz. split; [done|]. by rewrite Hm2, Hsh2. } { by rewrite Hsh2. }
    { eapply Forall_impl; [exact Hrd|]. intros rec Hrec row Hrow'. apply Hrec. rewrite Hrow'. unfold ws_stride. by rewrite Hsh2. }
    { eapply Forall_impl; [exact Hix|]. intros rec [? ?]. unfold row_index, aligned. by rewrite Hm2, Hsh2. }
    { cbn in Hfuel. lia. }
    rewrite Hm2 in *. rewrite Hsh2 in *. exists w', b'. split_and!; try done; [congruence| |].
    + intros q fs' [[= -> ->]|Hq]%elem_of_cons.
      * rewrite Hout; [rewrite Hrow by done; by rewrite decide_True|unfold aligned; by rewrite Hsh2|by rewrite Hmask].
      * rewrite (Hin q fs' Hq). rewrite Forall_forall in Hix. destruct (Hix _ Hq) as [Hqa Hqm]. cbn in Hqa, Hqm. rewrite Hrow by done.
        rewrite decide_False; [done|]. rewrite Hqm. intros ->. apply Hfresh. by apply (list_elem_of_fmap_2 fst recs (p, fs')).
    + intros j Hj Hnin. cbn [fmap list_fmap] in Hnin. apply not_elem_of_cons in Hnin as [Hne Hnin]. cbn in Hne.
      rewrite Hout; [rewrite Hrow by done; by rewrite decide_False|unfold aligned; by rewrite Hsh2|done].
Qed.
End LoadRows.

(** *** The two formats of a row *)

Definition f32_zero : f32 := S754_zero false.

Definition online_row (fs row : list f32) : list f32 := take (length row) (fs ++ replicate (8 - length fs) f32_zero).
Definition regressor_row (fs row : list f32) : list f32 := fs ++ drop 1 row.

Lemma floats_of_zeros k : floats_of k (replicate (4 * k) Byte.x00) = replicate k f32_zero.
Proof.
  induction k as [|k IH]; [done|]. cbn [floats_of]. replace (4 * S k)%nat with (4 + 4 * k)%nat by lia. rewrite replicate_add.
  rewrite take_app_length', drop_app_length' by (by rewrite length_replicate). rewrite IH. done.
Qed.

Section Rows.
Context {Rd Wr : Type} `{Reader Rd, Writer Wr} (alloc : nat -> Z).
Context {W : Type} `{WeightStoreLaws W f32}.
Implicit Types (b : io_buf Rd Wr) (w : W).

Lemma online_reads w n fs : (ws_stride w <= 8)%nat -> length fs = n -> (n <= ws_stride w)%nat -> Forall valid_f32 fs ->
  reads_row (Wr := Wr) (Rd := Rd) w (read_online_row alloc n) online_row fs.
Proof.
  intros Hs Hn Hle Hv row Hrow. split.
  - intros b rest Hwf Hb. unfold read_online_row.
    destruct (bin_read_loads alloc (4 * n) (float_list fs) ltac:(by rewrite length_float_list, Hn) b rest Hwf Hb) as (b' & -> & Hs' & Hwf').
    cbn [io_bind]. rewrite (proj2 (Nat.ltb_ge 8 n)), (proj2 (Nat.ltb_ge _ _)) by lia. cbn [orb]. exists b'. split; [|done]. do 2 f_equal. unfold online_row. f_equal.
    rewrite length_float_list, drop_replicate, Hn. replace (32 - 4 * n)%nat with (4 * (8 - n))%nat by lia.
    replace 8%nat with (length fs + (8 - n))%nat at 1 by lia. rewrite floats_of_list by done. by rewrite floats_of_zeros.
  - unfold online_row. rewrite length_take, length_app, length_replicate. lia.
Qed.

Lemma regressor_reads w f : ws_wf w -> (0 < ws_stride w)%nat -> valid_f32 f ->
  reads_row (Wr := Wr) (Rd := Rd) w (read_regressor_row alloc) regressor_row [f].
Proof.
  intros Hw Hpos Hv row Hrow. destruct row as [|x row]; [cbn in Hrow; lia|]. split; [|done].
  intros b rest Hwf Hb. unfold read_regressor_row. unfold float_list in Hb. cbn [fmap list_fmap mjoin list_join] in Hb. rewrite app_nil_r in Hb.
  destruct (field_loads alloc float_codec valid_f32 f x float_codec_ok Hv b rest Hwf Hb) as (b' & -> & ? & ?). by exists b'.
Qed.
End Rows.

(** ** Saving a model and loading it *)

Section Roundtrip.
Context {Rd Wr : Type} `{Reader Rd, Writer Wr} (alloc : nat -> Z).
Context {W W' : Type} `{WeightRowsLaws W f32, WeightStoreLaws W' f32}.

(** Whether the row [p] of a store is in the file of [n] floats. *)
Definition in_file (n : nat) (w : W) (p : Z) (row : list f32) : Prop := (p, row) ∈ ws_rows w /\ existsb nonzero (take n row) = true.

Lemma records_spec n (w : W) p fs : (p, fs) ∈ records n (ws_rows w) <-> exists row, in_file n w p row /\ fs = take n row.
Proof.
  unfold records, in_file. rewrite list_elem_of_filter, list_elem_of_fmap. cbn [snd]. split.
  - intros (Hnz & [q row] & [= -> ->] & Hin). exists row. by rewrite <- Is_true_true.
  - intros (row & [Hin Hnz] & ->). split; [by apply Is_true_true|]. by exists (p, row).
Qed.

Lemma records_NoDup n (w : W) : ws_wf w -> NoDup (records n (ws_rows w)).*1.
Proof.
  intros Hw. pose proof (ws_rows_NoDup w Hw) as Hnd. unfold records. revert Hnd. generalize (ws_rows w). intros l.
  induction l as [|[p row] l IH]; intros Hnd; [constructor|]. cbn [fmap list_fmap prod_map fst snd id] in *. apply NoDup_cons in Hnd as [Hp Hnd].
  rewrite filter_cons. destruct (decide _); [|by apply IH]. cbn [fmap list_fmap fst]. apply NoDup_cons. split; [|by apply IH].
  intros Hin. apply Hp. apply list_elem_of_fmap in Hin as ([q fs] & -> & [_ Hin]%list_elem_of_filter). cbn.
  apply list_elem_of_fmap in Hin as ([q' row'] & [= -> ->] & Hin). by apply (list_elem_of_fmap_2 fst l (q', row')).
Qed.

(** Loading into [w0] what was saved of [w]. *)
Record rows_loaded (n : nat) (new_row : list f32 -> list f32 -> list f32) (w : W) (w0 w' : W') : Prop := {
  rl_wf : ws_wf w'; rl_mask : ws_mask w' = ws_mask w0; rl_shift : ws_stride_shift w' = ws_stride_shift w0;
  rl_saved p row : in_file n w p row -> ws_row w' p = new_row (take n row) (ws_row w0 p);
  rl_other j : aligned w0 j -> ~ (exists row, in_file n w (Z.land j (ws_mask w0)) row) -> ws_row w' j = ws_row w0 j
}.

Record same_layout cfg (w : W) (w0 : W') : Prop := {
  sl_wf : ws_wf w; sl_wf0 : ws_wf w0; sl_sized : sized cfg w0;
  sl_mask : ws_mask w0 = ws_mask w; sl_shift : ws_stride_shift w0 = ws_stride_shift w;
  sl_valid : Forall (fun pr => Forall valid_f32 pr.2) (ws_rows w)
}.

Lemma rows_roundtrip n cfg cfg' read_row new_row (w : W) (w0 : W') (br : io_buf Rd Wr) :
  same_layout cfg w w0 -> num_bits cfg' = num_bits cfg -> (n <= ws_stride w)%nat ->
  (forall fs, length fs = n -> Forall valid_f32 fs -> reads_row w0 read_row new_row fs) ->
  wf br -> stream br = records_bytes cfg' (ws_stride_shift w) (records n (ws_rows w)) ->
  exists w' br', read_rows alloc (rows_fuel br) cfg read_row 0 w0 br = Done (w', br') /\ stream br' = [] /\ wf br' /\
    rows_loaded n new_row w w0 w'.
Proof.
  intros [Hw Hw0 Hsz Hm Hsh Hv] Hnb Hn Hread Hwf Hs.
  assert (records_bytes cfg' = records_bytes cfg) as Hrb by (unfold records_bytes, record_bytes, index_size; by rewrite Hnb).
  rewrite Hrb in Hs.
  assert (forall p fs, (p, fs) ∈ records n (ws_rows w) -> length fs = n /\ Forall valid_f32 fs /\ row_index cfg w0 p) as Hrec.
  { intros p fs (row & [Hin _] & ->)%records_spec. destruct (ws_rows_ok w p row Hw Hin) as (Hrow & Hal & Hland).
    rewrite Forall_forall in Hv. specialize (Hv _ Hin). cbn in Hv. pose proof (ws_row_length w p Hw Hal) as Hlen. rewrite Hrow in Hlen.
    split_and!; [rewrite length_take; lia|by apply Forall_take|]. unfold row_index, aligned. rewrite Hm, Hsh. by split. }
  destruct (read_rows_ok alloc cfg read_row new_row (ws_stride_shift w) (records n (ws_rows w)) (rows_fuel br) 0 w0 br)
    as (w' & br' & E & Hs' & Hwf' & Hw' & Hm' & Hsh' & Hin & Hout); try done.
  - apply Forall_forall. intros [p fs] Hin. apply Hread; by apply (Hrec p fs Hin).
  - apply Forall_forall. intros [p fs] Hin. by apply (Hrec p fs Hin).
  - by apply records_NoDup.
  - unfold rows_fuel. rewrite Hs. pose proof (records_bytes_length cfg (ws_stride_shift w) (records n (ws_rows w))). lia.
  - exists w', br'. split; [done|]. split; [done|]. split; [done|]. split; try done.
    + intros p row Hp. apply Hin. apply records_spec. by exists row.
    + intros j Hj Hno. apply Hout; [done|]. intros Hc. apply Hno. apply list_elem_of_fmap in Hc as ([p fs] & Hp & Hc). cbn in Hp.
      apply records_spec in Hc as (row & Hrow & _). exists row. by rewrite Hp.
Qed.
End Roundtrip.

(** What two configurations must share for one to load what the other saves. *)
Record compatible cfg cfg' : Prop := {
  cp_bits : num_bits cfg' = num_bits cfg;
  cp_models : saved_models cfg' = saved_models cfg;
  cp_floats : floats_read cfg' = floats_written cfg;
  cp_resume : version_geb (model_file_ver cfg') VERSION_SAVE_RESUME_FIX = true;
  cp_state : version_geb (model_file_ver cfg') VERSION_FILE_WITH_L1_AND_L2_STATE_IN_MODEL_DATA = true
}.

(** C8: the state of online learning survives the model file. What one learner saves, another with
    the same layout - of either store, dense or sparse - loads: every counter that is to be kept,
    the state of the models, the regularisation that is pending, and the floats of every row that
    were written (the weight and the adaptive and normalizing floats, not the spare one); a row
    that was all zeros keeps what the loading learner starts with. The whole file is consumed. *)
Theorem online_model_roundtrip {Rd Wr W W' : Type} `{Reader Rd, Writer Wr, WeightRowsLaws W f32, WeightRowsLaws W' f32} (alloc : nat -> Z)
    (cfg cfg' : model_config) (c c0 : counters) (g : gd f32 f64 W) (g0 : gd f32 f64 W') (bw br : io_buf Rd Wr) :
  compatible cfg cfg' -> state_ok c g -> length (gd_per_model_states g0) = length (gd_per_model_states g) ->
  same_layout cfg' (weights g) (weights g0) -> (floats_written cfg <= ws_stride (weights g) <= 8)%nat ->
  reliable (W := Wr) -> wf_write bw -> wf br ->
  exists bw' saved, save_load_online_state_gd alloc cfg false c g bw = Done (c, g, bw') /\ written bw' = written bw ++ saved /\
    (stream br = saved ->
     exists w' br', save_load_online_state_gd alloc cfg' true c0 g0 br = Done (loaded_counters cfg' c0 c, loaded_gd cfg' g0 g w', br') /\
       stream br' = [] /\ rows_loaded (floats_written cfg) online_row (weights g) (weights g0) w').
Proof.
  intros [Hbits Hmodels Hfloats Hv1 Hv2] Hok Hlen Hlay [Hn H8] Hrel Hwfw Hwfr.
  destruct (online_saved alloc cfg c g (so_models c g Hok) bw Hrel Hwfw) as (b1 & Hw1 & Hwf1 & ->).
  unfold save_load_online_state_weights at 1.
  destruct (write_rows_emits (Rd := Rd) alloc (floats_written cfg) cfg (ws_stride_shift (weights g)) (ws_rows (weights g))) with (b := b1)
    as (b2 & E2 & Hw2 & Hwf2); [|done|done|].
  { apply Forall_forall. intros [p row] Hin. destruct (ws_rows_ok (weights g) p row (sl_wf _ _ _ Hlay) Hin) as (Hrow & Hal & _).
    cbn. rewrite <- Hrow, (ws_row_length (weights g) p (sl_wf _ _ _ Hlay) Hal). done. }
  rewrite E2. cbn [io_bind]. rewrite set_weights_id. eexists b2, _. split; [done|]. split; [by rewrite Hw2, Hw1, <- app_assoc|].
  intros Hs. assert (online_bytes cfg c g = online_bytes cfg' c g) as Hob by (unfold online_bytes, model_bytes; by rewrite Hmodels).
  rewrite Hob in Hs.
  destruct (online_loaded alloc cfg' c0 g0 c g br _ Hok Hlen Hv1 Hv2 Hwfr Hs) as (b3 & Hs3 & Hwf3 & ->).
  unfold save_load_online_state_weights. rewrite Hfloats.
  destruct (rows_roundtrip alloc (floats_written cfg) cfg' cfg (read_online_row alloc (floats_written cfg)) online_row (weights g) (weights g0) b3)
    as (w' & br' & -> & Hs' & _ & Hl); try done.
  - intros fs Hfs Hv. assert (ws_stride (weights g0) = ws_stride (weights g)) as Hst by (unfold ws_stride; by rewrite (sl_shift _ _ _ Hlay)).
    apply online_reads; [by rewrite Hst|done|by rewrite Hst|done].
  - cbn [io_bind]. by exists w', br'.
Qed.

(** ** Loading any input *)

Section LoadTotal.
Context {Rd Wr : Type} `{Reader Rd, Writer Wr} (alloc : nat -> Z).
Context {W : Type} `{WeightStoreLaws W f32}.
Implicit Types (b : io_buf Rd Wr) (w : W) (cfg : model_config).

(** A row is read from whatever is left of the input. *)
Definition row_reader w (read_row : list f32 -> io_buf Rd Wr -> io_result (list f32 * io_buf Rd Wr)) : Prop :=
  forall row b, wf b -> length row = ws_stride w -> exists row' b', read_row row b = Done (row', b') /\ length row' = length row /\
    wf b' /\ (length (stream b') <= length (stream b))%nat.

Lemma bin_read_any n b : wf b -> exists bs b', bin_read_fixed alloc n b = Done (bs, b') /\ wf b' /\ (length bs <= n)%nat /\
  (bs = [] -> n = 0%nat \/ stream b = []) /\ stream b = bs ++ stream b'.
Proof.
  intros Hwf. destruct (bin_read_fixed_ok alloc n b Hwf) as (b' & -> & Hs & Hwf' & _). do 2 eexists. split; [done|]. split_and!; try done.
  - rewrite length_take. lia.
  - intros Hn. apply (f_equal length) in Hn. rewrite length_take in Hn. cbn in Hn. destruct n; [by left|right]. destruct (stream b); [done|cbn in Hn; lia].
  - by rewrite Hs, take_drop.
Qed.

Lemma online_reader w n : (n <= 8)%nat -> (ws_stride w <= 8)%nat -> row_reader w (read_online_row alloc n).
Proof.
  intros Hn Hs row b Hwf Hrow. unfold read_online_row. destruct (bin_read_any (4 * n) b Hwf) as (bs & b' & -> & Hwf' & Hl & _ & Hb). cbn [io_bind].
  rewrite (proj2 (Nat.ltb_ge 8 n)), (proj2 (Nat.ltb_ge _ _)) by lia. cbn [orb]. do 2 eexists. split; [done|].
  split_and!; [|done|rewrite Hb, length_app; lia]. rewrite length_take. assert (forall k l, length (floats_of k l) = k) as ->; [|lia].
  induction k as [|k IH]; intros l; [done|]. cbn. by rewrite IH.
Qed.

Lemma regressor_reader w : (0 < ws_stride w)%nat -> row_reader w (read_regressor_row alloc).
Proof.
  intros Hpos [|x row] b Hwf Hrow; [cbn in Hrow; lia|]. unfold read_regressor_row, field, bin_read_write_fixed.
  destruct (bin_read_any (length (to_bytes float_codec x)) b Hwf) as (bs & b' & -> & Hwf' & Hl & _ & Hb). cbn [io_bind].
  do 2 eexists. split; [done|]. split_and!; [done|done|rewrite Hb, length_app; lia].
Qed.

Lemma read_rows_any cfg read_row fuel : forall old w b, ws_wf w -> sized cfg w -> row_reader w read_row -> wf b -> (length (stream b) < fuel)%nat ->
  read_rows alloc fuel cfg read_row old w b = Throw \/
  exists w' b', read_rows alloc fuel cfg read_row old w b = Done (w', b') /\ stream b' = [] /\
    ws_wf w' /\ ws_mask w' = ws_mask w /\ ws_stride_shift w' = ws_stride_shift w.
Proof.
  induction fuel as [|fuel IH]; intros old w b Hw Hsz Hrd Hwf Hf; [lia|]. cbn [read_rows].
  assert (0 < index_size cfg)%nat as His by (unfold index_size; destruct (num_bits cfg <? 31); lia).
  destruct (bin_read_any (index_size cfg) b Hwf) as (bs & b1 & -> & Hwf1 & Hl & He & Hb). cbn [io_bind].
  destruct bs as [|x bs]; [right; exists w, b1; split_and!; try done; destruct (He eq_refl) as [|He']; [lia|by rewrite He' in Hb]|].
  set (i := le_combine _). destruct (Z.leb_spec (2 ^ num_bits cfg) i) as [|Hi]; [by left|].
  assert (0 <= i) as Hi0 by apply le_combine_bound. destruct Hsz as [Hnb Hmask]. destruct (ws_mask_ok w Hw) as (n & Hn & Hs & Hn64).
  assert (0 < 2 ^ ws_stride_shift w) as Hpos by (apply Z.pow_pos_nonneg; lia).
  assert (aligned w (u64 (Z.shiftl i (ws_stride_shift w)))) as Hal.
  { rewrite Z.shiftl_mul_pow2 by lia. split; [apply Z.mod_pos_bound; lia|]. apply divide_u64; [lia|]. by exists i. }
  destruct (ws_access_ok w _ Hw Hal) as (w1 & -> & Hw1 & Hm1 & Hsh1 & _). set (index := u64 _) in *.
  destruct (Hrd (ws_row w index) b1 Hwf1 (ws_row_length w _ Hw Hal)) as (row & b2 & -> & Hlen & Hwf2 & Hle). cbn [io_bind].
  assert (aligned w1 index) as Hal1 by (unfold aligned; by rewrite Hsh1).
  destruct (ws_write_ok w1 index row Hw1 Hal1) as (Hw2 & Hm2 & Hsh2 & _).
  { rewrite Hlen, (ws_row_length w _ Hw Hal). unfold ws_stride. by rewrite Hsh1. }
  destruct (IH i (ws_write index row w1) b2) as [->|(w' & b' & -> & Hs' & Hw' & Hm' & Hsh')]; try done.
  - split; [done|]. by rewrite Hm2, Hsh2, Hm1, Hsh1.
  - intros r b' Hb' Hr. apply Hrd; [done|]. rewrite Hr. unfold ws_stride. by rewrite Hsh2, Hsh1.
  - rewrite Hb in Hf. cbn in Hf. rewrite length_app in Hf. lia.
  - by left.
  - right. exists w', b'. split_and!; try done; congruence.
Qed.
End LoadTotal.

(** Loading weights ends on every input, whole, cut or corrupted: either an index beyond the
    array makes it throw, or the input is consumed to its end and the array keeps its layout. *)
Theorem load_ends {Rd Wr W : Type} `{Reader Rd, Writer Wr, WeightRowsLaws W f32} (alloc : nat -> Z)
    (cfg : model_config) (w : W) (b : io_buf Rd Wr) (online : bool) :
  ws_wf w -> sized cfg w -> (0 < ws_stride w <= 8)%nat -> (floats_read cfg <= 8)%nat -> wf b ->
  let r := if online then save_load_online_state_weights alloc cfg true w b else save_load_regressor alloc cfg true w b in
  r = Throw \/ exists w' b', r = Done (w', b') /\ stream b' = [] /\ ws_wf w' /\ ws_mask w' = ws_mask w /\ ws_stride_shift w' = ws_stride_shift w.
Proof.
  intros Hw Hsz [Hpos H8] Hn Hwf. unfold save_load_online_state_weights, save_load_regressor, rows_fuel. cbn zeta.
  destruct online; apply read_rows_any; try done; try lia; [by apply online_reader|by apply regressor_reader].
Qed.

(** ** A model saved while testing *)

(** Three floats of one record: the weight, and the index and weight of the record after it. *)
Fixpoint merged (shift : Z) (items : list (Z * f32)) : list (Z * list f32) :=
  match items with
  | (i, x) :: (j, y) :: items => (Z.shiftl i shift, [x; float_of_bytes (le_split 4 j); y]) :: merged shift items
  | _ => []
  end.

Lemma small_bits z : 0 <= z < 2 ^ 23 ->
  valid_f32 (float_of_bytes (le_split 4 z)) /\ float_bytes (float_of_bytes (le_split 4 z)) = le_split 4 z.
Proof.
  intros Hz. unfold float_of_bytes, float_bytes, b32_of_bits, bits_of_b32. rewrite le_combine_split, Z.mod_small by lia.
  destruct (split_finite 23 8 ltac:(done) ltac:(done) false 0 z ltac:(done) Hz) as (H1 & H2 & H3). rewrite Z.mul_0_l, !Z.add_0_l in *.
  unfold float_of_bits. rewrite H1, H2, H3. cbn [Z.eqb]. destruct z as [|m|]; [done| |lia]. split.
  - unfold valid_f32. cbn [valid_binary]. unfold bounded, canonical_mantissa, fexp, emin. rewrite digits2_pos_log2.
    assert (Z.log2 (Zpos m) < 23) by (apply Z.log2_lt_pow2; lia). change (1 - bias 23 8) with (-149).
    apply andb_true_iff. split; [|done]. apply Z.eqb_eq. lia.
  - cbn [bits_of_float sign_bit]. by rewrite (proj2 (Z.ltb_lt _ _)) by (change (hidden 23) with (2 ^ 23); lia).
Qed.

Lemma merged_bytes cfg shift items : 0 <= shift -> num_bits cfg < 31 -> Nat.Even (length items) -> Forall (fun it => 0 <= it.1 < 2 ^ 23) items ->
  records_bytes cfg shift (merged shift items) = records_bytes cfg 0 ((fun it => (it.1, [it.2])) <$> items).
Proof.
  intros Hs Hnb. induction items as [|[i x]|[i x] [j y] items IH] using pairs_ind; intros Hev Hi; [done|by apply Nat.even_spec in Hev|].
  rewrite !Forall_cons in Hi. destruct Hi as (_ & Hj & Hi). cbn [merged fmap list_fmap fst snd] in *. rewrite !records_bytes_cons.
  unfold records_bytes in IH. assert (Nat.Even (length items)) as Hev' by (destruct Hev as [k Hk]; cbn in Hk; exists (k - 1)%nat; lia).
  unfold records_bytes. rewrite (IH Hev' Hi). unfold record_bytes. cbn [fst snd].
  assert (index_size cfg = 4%nat) as -> by (unfold index_size; by rewrite (proj2 (Z.ltb_lt _ _)) by lia).
  rewrite Z.shiftr_shiftl_l, Z.sub_diag, Z.shiftl_0_r, !Z.shiftr_0_r by lia. rewrite !float_list_cons.
  destruct (small_bits j Hj) as [_ ->]. by rewrite <- !app_assoc.
Qed.

Lemma merged_keys shift items p : p ∈ (merged shift items).*1 -> exists k i, items !! (2 * k)%nat = Some i /\ p = Z.shiftl i.1 shift.
Proof.
  induction items as [|[i x]|[i x] [j y] items IH] using pairs_ind; cbn [merged fmap list_fmap]; try by intros ?%elem_of_nil.
  intros [->|Hp]%elem_of_cons; [by exists 0%nat, (i, x)|]. destruct (IH Hp) as (k & it & Hk & ->).
  exists (S k), it. by replace (2 * S k)%nat with (S (S (2 * k))) by lia.
Qed.

Lemma merged_NoDup shift items : 0 <= shift -> NoDup items.*1 -> NoDup (merged shift items).*1.
Proof.
  intros Hs. induction items as [|[i x]|[i x] [j y] items IH] using pairs_ind; intros Hnd; [constructor..|].
  cbn [merged fmap list_fmap fst] in *. apply NoDup_cons in Hnd as [Hi [_ Hnd]%NoDup_cons]. apply NoDup_cons. split; [|by apply IH].
  intros Hin. apply Hi. right. destruct (merged_keys _ _ _ Hin) as (k & [i' y'] & Hk & Heq). cbn in Heq.
  rewrite !Z.shiftl_mul_pow2 in Heq by done. apply Z.mul_cancel_r in Heq; [|apply Z.pow_nonzero; lia]. subst i'.
  apply (list_elem_of_lookup_2 _ (2 * k)%nat). by rewrite list_lookup_fmap, Hk.
Qed.

Lemma merged_reads shift items rec : Forall (fun it => 0 <= it.1 < 2 ^ 23 /\ valid_f32 it.2) items -> rec ∈ merged shift items ->
  length rec.2 = 3%nat /\ Forall valid_f32 rec.2.
Proof.
  induction items as [|[i x]|[i x] [j y] items IH] using pairs_ind; intros Hi; cbn [merged]; try by intros ?%elem_of_nil.
  rewrite !Forall_cons in Hi. destruct Hi as ([_ Hx] & [Hj Hy] & Hi). intros [->|Hin]%elem_of_cons; [|by apply IH].
  split; [done|]. cbn [snd fst] in *. repeat constructor; [done|by apply small_bits|done].
Qed.

Lemma index_row {W} `{WeightStoreLaws W f32} cfg (w : W) i : ws_wf w -> sized cfg w -> 0 <= i < 2 ^ num_bits cfg ->
  row_index cfg w (Z.shiftl i (ws_stride_shift w)).
Proof.
  intros Hw [Hnb Hm] Hi. destruct (ws_mask_ok w Hw) as (n & _ & Hs & _). rewrite Z.shiftl_mul_pow2 by lia.
  assert (0 < 2 ^ ws_stride_shift w) as Hpos by (apply Z.pow_pos_nonneg; lia).
  split; [split; [lia|by exists i]|]. rewrite Hm, Z.land_ones by lia. apply Z.mod_small. rewrite Z.pow_add_r by lia. nia.
Qed.

Lemma merged_loaded {Rd Wr W} `{Reader Rd, Writer Wr, WeightStoreLaws W f32} (alloc : nat -> Z) cfg (w : W) items (b : io_buf Rd Wr) :
  let s := ws_stride_shift w in
  ws_wf w -> sized cfg w -> (3 <= ws_stride w <= 8)%nat -> num_bits cfg <= 23 -> NoDup items.*1 ->
  Forall (fun it => 0 <= it.1 < 2 ^ num_bits cfg /\ valid_f32 it.2) items -> wf b -> stream b = records_bytes cfg s (merged s items) ->
  exists w' b', read_rows alloc (rows_fuel b) cfg (read_online_row alloc 3) 0 w b = Done (w', b') /\
    forall k it, items !! S (2 * k) = Some it -> ws_row w' (Z.shiftl it.1 s) = ws_row w (Z.shiftl it.1 s).
Proof.
  intros s Hw Hsz Hst Hnb Hnd Hok Hwf Hs. assert (0 <= s) as Hs0 by (destruct (ws_mask_ok w Hw) as (n & _ & ? & _); unfold s; lia).
  assert (2 ^ num_bits cfg <= 2 ^ 23) as Hp23 by (apply Z.pow_le_mono_r; lia).
  assert (Forall (fun it => 0 <= it.1 < 2 ^ 23 /\ valid_f32 it.2) items) as Hok' by (eapply Forall_impl; [exact Hok|]; intros it []; split; [lia|done]).
  rewrite Forall_forall in Hok.
  destruct (read_rows_ok alloc cfg (read_online_row alloc 3) online_row s (merged s items) (rows_fuel b) 0 w b)
    as (w' & b' & -> & _ & _ & _ & _ & _ & _ & Hout); try done.
  - apply Forall_forall. intros rec Hrec. destruct (merged_reads s items rec Hok' Hrec). apply online_reads; [lia|done|lia|done].
  - apply Forall_forall. intros rec Hrec. destruct (merged_keys s items rec.1) as (k & it & Hk & ->); [by apply list_elem_of_fmap_2|].
    apply index_row; [done|done|]. by apply (Hok it), (list_elem_of_lookup_2 _ (2 * k)%nat).
  - by apply merged_NoDup.
  - unfold rows_fuel. rewrite Hs. pose proof (records_bytes_length cfg s (merged s items)). lia.
  - exists w', b'. split; [done|]. intros k it Hk. pose proof (list_elem_of_lookup_2 _ _ _ Hk) as Hin.
    destruct (index_row cfg w it.1 Hw Hsz (proj1 (Hok it Hin))) as [Hal Hland]. apply Hout; [done|]. fold s in Hland. rewrite Hland.
    intros (k' & it' & Hk' & Heq)%merged_keys. rewrite !Z.shiftl_mul_pow2 in Heq by done. apply Z.mul_cancel_r in Heq; [|apply Z.pow_nonzero; lia].
    assert (S (2 * k) = 2 * k')%nat; [|lia]. eapply (NoDup_lookup items.*1); [done|by rewrite list_lookup_fmap, Hk|by rewrite list_lookup_fmap, Hk', Heq].
Qed.

(** A learner that only tests keeps one float per row and saves that one, but says in the file
    that rows come with the floats of adaptive and normalized learning, as its options do. Who
    loads the file takes the next record for those two floats: every second row of the model is
    lost, with no error. *)
Theorem tested_model_loses_rows {Rd Wr W W' : Type} `{Reader Rd, Writer Wr, WeightRowsLaws W f32, WeightRowsLaws W' f32} (alloc : nat -> Z)
    (cfg cfg' : model_config) (per_model per_model' : bool) (w : W) (w0 : W') (bw b : io_buf Rd Wr) :
  let recs := records 1 (ws_rows w) in
  gd_input cfg = Some (GdInputs true true per_model) -> gd_input cfg' = Some (GdInputs true true per_model') ->
  ftrl_size cfg = O -> ftrl_size cfg' = O -> weights_adaptive cfg = false -> weights_normalized cfg = false ->
  num_bits cfg' = num_bits cfg -> 0 <= num_bits cfg <= 23 ->
  ws_wf w -> ws_stride_shift w = 0 -> ws_mask w = Z.ones (num_bits cfg) -> Forall (fun pr => Forall valid_f32 pr.2) (ws_rows w) ->
  ws_wf w0 -> sized cfg' w0 -> (3 <= ws_stride w0 <= 8)%nat -> Nat.Even (length recs) ->
  reliable (W := Wr) -> wf_write bw -> wf b ->
  exists bw' saved, save_load_online_state_weights alloc cfg false w bw = Done (w, bw') /\ written bw' = written bw ++ saved /\
    (stream b = saved ->
     exists w' b', save_load_online_state_weights alloc cfg' true w0 b = Done (w', b') /\
       forall k p fs, recs !! S (2 * k) = Some (p, fs) ->
         ws_row w' (Z.shiftl p (ws_stride_shift w0)) = ws_row w0 (Z.shiftl p (ws_stride_shift w0))).
Proof.
  intros recs Hi Hi' Hf Hf' Ha Hn Hnb Hb Hw Hsh Hm Hv Hw0 Hsz Hst Heven Hrel Hwfw Hwf.
  assert (floats_written cfg = 1%nat) as Hfw by (unfold floats_written; by rewrite Hf, Hi, Ha, Hn).
  assert (floats_read cfg' = 3%nat) as Hfr by (unfold floats_read; by rewrite Hf', Hi').
  unfold save_load_online_state_weights. rewrite Hfw, Hfr, Hsh.
  assert (forall p row, (p, row) ∈ ws_rows w -> length row = 1%nat /\ Forall valid_f32 row /\ 0 <= p < 2 ^ num_bits cfg) as Hrows.
  { intros p row Hin. destruct (ws_rows_ok w p row Hw Hin) as (Hrow & Hal & Hp). rewrite <- Hrow, (ws_row_length w p Hw Hal).
    split; [unfold ws_stride; by rewrite Hsh|]. rewrite Hrow. split; [rewrite Forall_forall in Hv; by apply (Hv _ Hin)|].
    rewrite <- Hp, Hm, Z.land_ones by lia. apply Z.mod_pos_bound. lia. }
  destruct (write_rows_emits (Rd := Rd) alloc 1 cfg 0 (ws_rows w)) with (b := bw) as (bw' & -> & Hwr & _); [|done|done|].
  { apply Forall_forall. intros [p row] Hin. cbn. destruct (Hrows p row Hin) as [-> _]. done. }
  cbn [io_bind]. exists bw', (records_bytes cfg 0 recs). split; [done|]. split; [done|]. intros Hs.
  pose (items := (fun pr => (pr.1, hd f32_zero pr.2)) <$> recs : list (Z * f32)).
  assert (recs = (fun it => (it.1, [it.2])) <$> items) as Hitems.
  { unfold items. rewrite <- list_fmap_compose. rewrite <- (list_fmap_id recs) at 1. apply list_fmap_ext. intros k [p fs] Hk. cbn.
    apply list_elem_of_lookup_2, records_spec in Hk as (row & [Hin _] & ->). destruct (Hrows p row Hin) as (Hl & _). by destruct row as [|x []]. }
  assert (Forall (fun it => 0 <= it.1 < 2 ^ num_bits cfg' /\ valid_f32 it.2) items) as Hok.
  { apply Forall_fmap, Forall_forall. intros [p fs] Hin. apply records_spec in Hin as (row & [Hin _] & ->).
    destruct (Hrows p row Hin) as (Hl & Hval & Hp). destruct row as [|x []]; try done. apply Forall_cons in Hval as [Hx _]. cbn. by rewrite Hnb. }
  assert (NoDup items.*1) as Hnd.
  { assert (items.*1 = recs.*1) as ->; [|by apply records_NoDup]. unfold items. rewrite <- list_fmap_compose. by apply list_fmap_ext. }
  assert (records_bytes cfg = records_bytes cfg') as Hrb by (unfold records_bytes, record_bytes, index_size; by rewrite Hnb).
  rewrite Hrb, Hitems, <- (merged_bytes cfg' (ws_stride_shift w0) items) in Hs.
  - destruct (merged_loaded alloc cfg' w0 items b Hw0 Hsz Hst ltac:(lia) Hnd Hok Hwf Hs) as (w' & b' & E & Hout).
    exists w', b'. split; [exact E|]. intros k p fs Hk. rewrite Hitems, list_lookup_fmap in Hk.
    destruct (items !! S (2 * k)) as [it|] eqn:Eit; [|done]. injection Hk as <- _. exact (Hout k it Eit).
  - destruct (ws_mask_ok w0 Hw0) as (n & _ & ? & _). lia.
  - lia.
  - revert Heven. by rewrite Hitems, length_fmap.
  - assert (2 ^ num_bits cfg' <= 2 ^ 23) by (apply Z.pow_le_mono_r; lia). eapply Forall_impl; [exact Hok|]. intros it []. lia.
Qed.

(** ** Witnesses: a dense array of eight rows saved, a sparse map loaded *)

Definition sample_config (train : bool) : model_config :=
  ModelConfig 3 train true true (Version 9 11 0) train train (Some (GdInputs true true false)) 0.
Definition sample_counters : counters :=
  Counters f32_one (S754_zero false) (S754_zero false) f32_one L2_STATE_DEFAULT (S754_zero false) 3 7 (S754_zero false) 1.
Definition sample_gd {W} (w : W) : gd f32 f64 W :=
  Gd w L1_STATE_DEFAULT L2_STATE_DEFAULT (LabelRange f32_minus_one f32_one) L2_STATE_DEFAULT (S754_zero false) (S754_zero false)
    [PerModel L2_STATE_DEFAULT L2_STATE_DEFAULT] None f32_zero f32_zero f32_zero f32_zero.
Definition sample_weights : dense_parameters f32 := dense_write 4 [f32_one; f32_minus_one; f32_one; f32_one] (dense_make (2 ^ Z.of_nat 3) (Z.of_nat 2)).
Definition sample_sparse : sparse_parameters f32 := sparse_make (2 ^ Z.of_nat 3) (Z.of_nat 2).
Definition sample_writer : io_buf buffer_view vector_writer := IoBuf (replicate 16 Byte.x00) 0 0 0 false 0 0 [] [[]].
Definition sample_reader (bs : list byte) : io_buf buffer_view vector_writer := IoBuf (replicate 16 Byte.x00) 0 0 0 false 0 0 [BufferView bs 0] [].
Definition sample_saved : list byte :=
  online_bytes (sample_config true) sample_counters (sample_gd sample_weights) ++
  records_bytes (sample_config true) 2 (records 3 (ws_rows sample_weights)).

Lemma sample_buffers bs : reliable (W := vector_writer) /\ wf_write sample_writer /\ wf (sample_reader bs).
Proof. unfold reliable, wf_write, wf. cbn. split_and!; try done; lia. Qed.

Lemma sample_state_ok {W} (w : W) : state_ok sample_counters (sample_gd w).
Proof.
  split; cbn; try done; try lia; repeat (apply Forall_cons; split); try apply Forall_nil; by vm_compute.
Qed.

Lemma sample_same_layout : same_layout (sample_config true) sample_weights sample_sparse.
Proof.
  split.
  - apply dense_write_wf, (dense_make_wf 3 2). lia.
  - split; [|done]. exists 5%nat. done.
  - by split.
  - done.
  - done.
  - assert (forallb (fun pr : Z * list f32 => forallb (valid_binary 24 128) pr.2) (ws_rows sample_weights) = true) as Hv by (vm_compute; reflexivity).
    rewrite forallb_forall in Hv. apply Forall_forall. intros pr Hin%list_elem_of_In. specialize (Hv pr Hin). rewrite forallb_forall in Hv.
    apply Forall_forall. intros x Hx%list_elem_of_In. exact (Hv x Hx).
Qed.

Lemma online_model_roundtrip_witness :
  exists bw' w' br',
    save_load_online_state_gd (fun _ => 0) (sample_config true) false sample_counters (sample_gd sample_weights) sample_writer =
      Done (sample_counters, sample_gd sample_weights, bw') /\
    save_load_online_state_gd (fun _ => 0) (sample_config true) true sample_counters (sample_gd sample_sparse) (sample_reader sample_saved) =
      Done (sample_counters, sample_gd w', br') /\
    ws_row w' 4 = [f32_one; f32_minus_one; f32_one; f32_zero].
Proof.
  destruct (sample_buffers sample_saved) as (Hrel & Hw & Hr).
  destruct (online_model_roundtrip (fun _ => 0) (sample_config true) (sample_config true) sample_counters sample_counters
    (sample_gd sample_weights) (sample_gd sample_sparse) sample_writer (sample_reader sample_saved)) as (bw' & saved & E & Hs & Hload).
  - by split.
  - apply sample_state_ok.
  - done.
  - exact sample_same_layout.
  - vm_compute. lia.
  - exact Hrel.
  - exact Hw.
  - exact Hr.
  - assert (saved = sample_saved) as ->.
    { apply (f_equal (fun r => match r with Done (_, _, b) => written b | _ => [] end)) in E. cbv beta iota in E.
      rewrite <- E in Hs. vm_compute in Hs. vm_compute. symmetry. exact Hs. }
    destruct Hload as (w' & br' & E' & _ & Hrows); [vm_compute; reflexivity|]. exists bw', w', br'. split; [exact E|]. split; [rewrite E'; reflexivity|].
    rewrite (rl_saved _ _ _ _ _ Hrows 4 [f32_one; f32_minus_one; f32_one; f32_one]); [vm_compute; reflexivity|].
    split; [|vm_compute; reflexivity]. apply list_elem_of_In. vm_compute. tauto.
Defined.

(** A file cut in the middle of a row. *)
Definition sample_cut : list byte := [Byte.x05; Byte.x00; Byte.x00; Byte.x00; Byte.x00; Byte.x00; Byte.x80; Byte.x3f].

Lemma load_ends_witness :
  let r := save_load_online_state_weights (fun _ => 0) (sample_config true) true sample_sparse (sample_reader sample_cut) in
  (r = Throw \/ exists w' b', r = Done (w', b') /\ stream b' = [] /\ ws_wf w' /\ ws_mask w' = ws_mask sample_sparse /\
                  ws_stride_shift w' = ws_stride_shift sample_sparse) /\
  (forall w' b', r = Done (w', b') -> ws_row w' 20 = [f32_one; f32_zero; f32_zero; f32_zero]).
Proof.
  destruct sample_same_layout as [_ Hw Hsz _ _ _]. destruct (sample_buffers sample_cut) as (_ & _ & Hr). split.
  - apply (load_ends (fun _ => 0) (sample_config true) sample_sparse (sample_reader sample_cut) true); [exact Hw|exact Hsz|vm_compute; lia|vm_compute; lia|exact Hr].
  - intros w' b' E. apply (f_equal (fun r => match r with Done (w, _) => ws_row w 20 | _ => [] end)) in E. cbv beta iota in E.
    rewrite <- E. vm_compute. reflexivity.
Defined.

(** A learner that tests: a float per row, two rows in use. *)
Definition sample_tester : dense_parameters f32 :=
  dense_write 2 [f32_minus_one] (dense_write 1 [f32_one] (dense_make (2 ^ Z.of_nat 3) (Z.of_nat 0))).
Definition sample_tested : list byte := records_bytes (sample_config false) 0 (records 1 (ws_rows sample_tester)).

Lemma tested_model_loses_rows_witness :
  exists bw' w' b',
    save_load_online_state_weights (fun _ => 0) (sample_config false) false sample_tester sample_writer = Done (sample_tester, bw') /\
    written bw' = sample_tested /\
    save_load_online_state_weights (fun _ => 0) (sample_config true) true sample_sparse (sample_reader sample_tested) = Done (w', b') /\
    ws_row w' 4 = [f32_one; float_of_bytes (le_split 4 2); f32_minus_one; f32_zero] /\ ws_row w' 8 = replicate 4 f32_zero.
Proof.
  destruct (sample_buffers sample_tested) as (Hrel & Hw & Hr). destruct sample_same_layout as [_ Hw0 Hsz _ _ _].
  destruct (tested_model_loses_rows (fun _ => 0) (sample_config false) (sample_config true) false false sample_tester sample_sparse sample_writer
    (sample_reader sample_tested)) as (bw' & saved & E & Hs & Hload).
  - reflexivity.
  - reflexivity.
  - reflexivity.
  - reflexivity.
  - reflexivity.
  - reflexivity.
  - reflexivity.
  - split; vm_compute; discriminate.
  - do 2 (apply dense_write_wf). apply (dense_make_wf 3 0). lia.
  - reflexivity.
  - reflexivity.
  - apply (Forall_impl (fun pr : Z * list f32 => forallb (valid_binary 24 128) pr.2 = true)).
    + vm_compute. repeat (apply Forall_cons; split; [reflexivity|]). apply Forall_nil, I.
    + intros pr Hv. rewrite forallb_forall in Hv. apply Forall_forall. intros x Hx%list_elem_of_In. exact (Hv x Hx).
  - exact Hw0.
  - exact Hsz.
  - vm_compute. lia.
  - exists 1%nat. vm_compute. reflexivity.
  - exact Hrel.
  - exact Hw.
  - exact Hr.
  - assert (saved = sample_tested) as ->.
    { apply (f_equal (fun r => match r with Done (_, b) => written b | _ => [] end)) in E. cbv beta iota in E.
      rewrite <- E in Hs. vm_compute in Hs. vm_compute. symmetry. exact Hs. }
    destruct Hload as (w' & b' & E' & Hrows); [vm_compute; reflexivity|]. exists bw', w', b'. split; [exact E|].
    split; [exact Hs|]. split; [exact E'|]. split.
    + apply (f_equal (fun r => match r with Done (w, _) => ws_row w 4 | _ => [] end)) in E'. cbv beta iota in E'.
      rewrite <- E'. vm_compute. reflexivity.
    + change 8 with (Z.shiftl 2 (ws_stride_shift sample_sparse)). rewrite (Hrows 0%nat 2 [f32_minus_one]); [vm_compute; reflexivity|].
      vm_compute. reflexivity.
Defined.
