(* ===== verification/TextUtils.v ===== *)
(** * Text utilities ([core/parse_primitives.h], [core/src/parse_primitives.cc], [common/text_utils.h],
      [core/src/text_utils.cc], [core/fast_pow10.h], [core/src/named_labels.cc])

    What the parsers of text share: string views over the memory they point into, the home made
    [parse_float] with its table of powers of ten and its fall back on [strtof], tokenizers with and
    without escapes, the splitting of a command line, hexadecimal escapes and the label dictionary. *)

From Stdlib Require Import Floats.SpecFloat.
From Stdlib Require QArith.Qpower QArith.Qfield.
From S2P Require Import Prelude.
From S2P Require Import Hash.
From S2P Require Import IoBuf.

(** ** String views *)

(** [VW::string_view]: the characters of the view, and the memory that follows them: number
    parsers get the address of the characters and may read on. *)
Record string_view := View { chars : list byte; after : list byte }.

(** The memory from the first character on. *)
Definition data (s : string_view) : list byte := chars s ++ after s.

(** [s.substr(0, n)], [s.remove_prefix(n)] *)
Definition view_take (n : nat) (s : string_view) : string_view := View (take n (chars s)) (drop n (chars s) ++ after s).
Definition view_drop (n : nat) (s : string_view) : string_view := View (drop n (chars s)) (after s).
Definition view_empty (s : string_view) : bool := match chars s with [] => true | _ => false end.

(** A literal of the code: a C string. *)
Definition literal (s : list byte) : string_view := View s [Byte.x00].

(** Is the character [b] the character [c]? *)
Definition is_chr (c b : byte) : bool := bool_decide (b = c).

(** ** Scanning, as the C library does: [None] when the scan runs off the memory *)

Fixpoint span (P : byte -> bool) (l : list byte) : option (list byte * list byte) :=
  match l with
  | [] => None
  | c :: l' => if P c then '(x, r) ← span P l'; Some (c :: x, r) else Some ([], l)
  end.

Definition is_space (c : byte) : bool := (byte_val c =? 32) || ((9 <=? byte_val c) && (byte_val c <=? 13)).
Definition is_upper (c : byte) : bool := (65 <=? byte_val c) && (byte_val c <=? 90).
Definition is_lower (c : byte) : bool := (97 <=? byte_val c) && (byte_val c <=? 122).
Definition lower (c : byte) : Z := if is_upper c then byte_val c + 32 else byte_val c.

(** The value of a digit in bases up to 36. *)
Definition digit_val (c : byte) : Z :=
  if is_digit c then byte_val c - 48 else if is_lower c || is_upper c then lower c - 87 else 36.
Definition digits_val (base : Z) (l : list byte) : Z := fold_left (fun acc c => acc * base + digit_val c) l 0.

(** An optional sign: negative, and its characters. *)
Definition sign_of (l : list byte) : option (bool * nat) :=
  c ← l !! 0%nat; Some (is_chr Byte.x2d c, if is_chr Byte.x2d c || is_chr Byte.x2b c then 1%nat else 0%nat).

(** [strtol(p, &end, 10)]: the value and the number of characters taken, 0 if there is no number. *)
Definition LONG_MAX : Z := 2 ^ 63 - 1.
Definition strtol (p : list byte) : option (Z * nat) :=
  '(sp, l) ← span is_space p;
  '(neg, k) ← sign_of l;
  '(ds, _) ← span is_digit (drop k l);
  let n := if neg : bool then - digits_val 10 ds else digits_val 10 ds in
  match ds with
  | [] => Some (0, 0%nat)
  | _ => Some (Z.max (- LONG_MAX - 1) (Z.min LONG_MAX n), (length sp + k + length ds)%nat)
  end.

(** [strtoul(p, &end, 16)] *)
Definition is_hex (c : byte) : bool := digit_val c <? 16.
Fixpoint prefix_ci (p : list byte) (l : list byte) : option bool :=
  match p with
  | [] => Some true
  | c :: p => d ← l !! 0%nat; if lower d =? byte_val c then prefix_ci p (tail l) else Some false
  end.
(** [0x] counts only if a digit follows. *)
Definition hex_prefix (l : list byte) : option bool :=
  b ← prefix_ci (str "0x") l; if b : bool then is_hex <$> l !! 2%nat else Some false.
Definition strtoul16 (p : list byte) : option (Z * nat) :=
  '(sp, l) ← span is_space p;
  '(neg, k) ← sign_of l;
  x ← hex_prefix (drop k l);
  let k := if x : bool then (k + 2)%nat else k in
  '(ds, _) ← span is_hex (drop k l);
  let n := digits_val 16 ds in
  match ds with
  | [] => Some (0, 0%nat)
  | _ => Some (if 2 ^ 64 <=? n then 2 ^ 64 - 1 else if neg : bool then u64 (- n) else n, (length sp + k + length ds)%nat)
  end.

(** [strtof] in the "C" locale: infinity, NaN, hexadecimal and decimal numbers, correctly rounded. *)
Definition decimal_value (s : bool) (m e : Z) : f32 :=
  match m with
  | Zpos p =>
      if 0 <=? e then binary_normalize 24 128 (cond_Zopp s (m * 10 ^ e)) 0 s
      else match 10 ^ (- e) with Zpos d => SFdiv 24 128 (S754_finite s p 0) (S754_finite false d 0) | _ => S754_nan end
  | _ => S754_zero s
  end.
Definition hex_value (s : bool) (m e : Z) : f32 := binary_normalize 24 128 (cond_Zopp s m) e s.

(** The digits before and after an optional point; the characters taken, none without a digit. *)
Definition mantissa (digit : byte -> bool) (base : Z) (l : list byte) : option (Z * Z * nat) :=
  '(ds, r) ← span digit l;
  c ← r !! 0%nat;
  if is_chr Byte.x2e c then
    '(fs, _) ← span digit (tail r);
    Some (digits_val base (ds ++ fs), Z.of_nat (length fs),
          if (length ds + length fs =? 0)%nat then 0%nat else (length ds + 1 + length fs)%nat)
  else Some (digits_val base ds, 0, length ds).

(** An exponent introduced by [letter], if digits follow. *)
Definition exponent (letter : Z) (l : list byte) : option (Z * nat) :=
  c ← l !! 0%nat;
  if lower c =? letter then
    '(neg, k) ← sign_of (tail l);
    '(ds, _) ← span is_digit (drop k (tail l));
    match ds with
    | [] => Some (0, 0%nat)
    | _ => Some (if neg : bool then - digits_val 10 ds else digits_val 10 ds, (1 + k + length ds)%nat)
    end
  else Some (0, 0%nat).

Definition is_word_char (c : byte) : bool := is_digit c || is_lower c || is_upper c || is_chr Byte.x5f c.
Definition strtof_unsigned (neg : bool) (l : list byte) : option (f32 * nat) :=
  inf ← prefix_ci (str "inf") l;
  nan ← prefix_ci (str "nan") l;
  hex ← prefix_ci (str "0x") l;
  if inf : bool then
    full ← prefix_ci (str "infinity") l; Some (S754_infinity neg, if full : bool then 8%nat else 3%nat)
  else if nan : bool then
    c ← l !! 3%nat;
    if is_chr Byte.x28 c then
      '(ws, r) ← span is_word_char (drop 4 l);
      d ← r !! 0%nat; Some (S754_nan, if is_chr Byte.x29 d then (5 + length ws)%nat else 3%nat)
    else Some (S754_nan, 3%nat)
  else
    '(hm, hf, hk) ← (if hex : bool then mantissa is_hex 16 (drop 2 l) else Some (0, 0, 0%nat));
    if (0 <? hk)%nat then
      '(e, ke) ← exponent 112 (drop (2 + hk) l); Some (hex_value neg hm (e - 4 * hf), (2 + hk + ke)%nat)
    else
      '(m, f, k) ← mantissa is_digit 10 l;
      if (k =? 0)%nat then Some (S754_zero false, 0%nat)
      else '(e, ke) ← exponent 101 (drop k l); Some (decimal_value neg m (e - f), (k + ke)%nat).
Definition strtof (p : list byte) : option (f32 * nat) :=
  '(sp, l) ← span is_space p;
  '(neg, k) ← sign_of l;
  '(x, n) ← strtof_unsigned neg (drop k l);
  Some (x, if (n =? 0)%nat then 0%nat else (length sp + k + n)%nat).

(** ** Powers of ten ([fast_pow10.h]) *)

Definition VALUES_BELOW_ZERO : nat := 37.
Definition VALUES_ABOVE_ZERO : nat := 38.
Definition VALUES_ABOVE_AND_INCLUDING_ZERO : nat := 39.

Section ParseFloat.
(** The infinity of the format and the [strtof] of the C library. *)
Context {F : Type} `{Num F} (infinity : F) (strtof : list byte -> option (F * nat)).

Definition POW10_BASE : F := n_of_Z 10.
Fixpoint constexpr_int_pow10 (exponent : nat) : F :=
  if (VALUES_ABOVE_AND_INCLUDING_ZERO <? exponent)%nat then infinity
  else match exponent with O => n_of_Z 1 | S n => (POW10_BASE * constexpr_int_pow10 n)%num end.
Fixpoint constexpr_negative_int_pow10 (exponent : nat) : F :=
  if (VALUES_BELOW_ZERO <? exponent)%nat then n_of_Z 0
  else match exponent with O => n_of_Z 1 | S n => (constexpr_negative_int_pow10 n / POW10_BASE)%num end.

Definition POW_10_POSITIVE_LOOKUP_TABLE : list F := constexpr_int_pow10 <$> seq 0 VALUES_ABOVE_AND_INCLUDING_ZERO.
Definition POW_10_NEGATIVE_LOOKUP_TABLE : list F :=
  (fun i => constexpr_negative_int_pow10 (VALUES_BELOW_ZERO - i)%nat) <$> seq 0 VALUES_BELOW_ZERO.

Definition fast_pow10 (exponent : Z) : F :=
  if Z.of_nat VALUES_ABOVE_ZERO <? exponent then infinity
  else if exponent <? - Z.of_nat VALUES_BELOW_ZERO then n_of_Z 0
  else if 0 <=? exponent then nth (Z.to_nat exponent) POW_10_POSITIVE_LOOKUP_TABLE (n_of_Z 0)
  else nth (Z.to_nat (exponent + Z.of_nat VALUES_BELOW_ZERO)) POW_10_NEGATIVE_LOOKUP_TABLE (n_of_Z 0).

(** ** [parse_float]

    The cursor is the memory from [p] on and [k], how far [p] is from the start. A read beyond the
    memory, and an exponent beyond [int], are undefined. *)

Section Bounded.
(** [end_line], as an offset from the start. *)
Context (end_line : option nat).
Definition before (k : nat) : bool := match end_line with None => true | Some e => (k <? e)%nat end.

Fixpoint skip_spaces (l : list byte) (k : nat) : option (list byte * nat) :=
  match l with
  | [] => None
  | c :: l' => if is_chr Byte.x20 c && before k then skip_spaces l' (S k) else Some (l, k)
  end.

Fixpoint digits_loop (acc : F) (l : list byte) (k : nat) : option (F * list byte * nat) :=
  match l with
  | [] => None
  | c :: l' =>
      if is_digit c && before k then digits_loop ((acc * n_of_Z 10 + n_of_Z (byte_val c)) - n_of_Z 48)%num l' (S k)
      else Some (acc, l, k)
  end.

(** At the character after the point; [num_dec] digits are counted, at most 35. *)
Fixpoint fraction_loop (acc : F) (num_dec : Z) (l : list byte) (k : nat) : option (F * Z * list byte * nat) :=
  match l with
  | [] => None
  | c :: l' =>
      if is_digit c && before k then
        if num_dec <? 35 then fraction_loop (acc * n_of_Z 10 + n_of_Z (byte_val c - 48))%num (num_dec + 1) l' (S k)
        else fraction_loop acc num_dec l' (S k)
      else Some (acc, num_dec, l, k)
  end.

(** [int] arithmetic: overflow is undefined. *)
Definition int_ok (z : Z) : option Z := if (- 2 ^ 31 <=? z) && (z <? 2 ^ 31) then Some z else None.
Fixpoint exponent_loop (exp_acc : Z) (l : list byte) (k : nat) : option (Z * list byte * nat) :=
  match l with
  | [] => None
  | c :: l' =>
      if is_digit c && before k then e ← int_ok (exp_acc * 10 + byte_val c); exponent_loop (e - 48) l' (S k)
      else Some (exp_acc, l, k)
  end.

(** [static_cast<int8_t>] *)
Definition i8 (z : Z) : Z := let y := z mod 2 ^ 8 in if y <? 2 ^ 7 then y else y - 2 ^ 8.

Definition parse_fraction (acc : F) (l : list byte) (k : nat) : option (F * Z * list byte * nat) :=
  c ← l !! 0%nat;
  if is_chr Byte.x2e c then fraction_loop acc 0 (tail l) (S k) else Some (acc, 0, l, k).

Definition parse_exponent (l : list byte) (k : nat) : option (Z * list byte * nat) :=
  c ← l !! 0%nat;
  if (is_chr Byte.x65 c || is_chr Byte.x45 c) && before k then
    d ← tail l !! 0%nat;
    let minus := is_chr Byte.x2d d && before (S k) in
    '(e, l, k) ← exponent_loop 0 (if minus then tail (tail l) else tail l) (if minus then S (S k) else S k);
    Some (if minus then - e else e, l, k)
  else Some (0, l, k).

(** The value and how many characters were taken. *)
Definition parse_float (p : list byte) : option (F * nat) :=
  first ← p !! 0%nat;
  if is_chr Byte.x00 first then Some (n_of_Z 0, 0%nat)
  else
    '(l, k) ← skip_spaces p 0;
    c ← l !! 0%nat;
    let s := if is_chr Byte.x2d c then -1 else 1 in
    let '(l, k) := if is_chr Byte.x2d c then (tail l, S k) else (l, k) in
    '(acc, l, k) ← digits_loop (n_of_Z 0) l k;
    '(acc, num_dec, l, k) ← parse_fraction acc l k;
    '(exp_acc, l, k) ← parse_exponent l k;
    c ← l !! 0%nat;
    if is_chr Byte.x20 c || is_chr Byte.x0a c || is_chr Byte.x09 c || match end_line with Some e => (k =? e)%nat | None => false end
    then
      _ ← int_ok (exp_acc - num_dec);
      Some (n_of_Z s * (acc * fast_pow10 (i8 (exp_acc - num_dec))), k)%num
    else strtof p.
End Bounded.

Definition isnan (x : F) : bool := negb (x =? x)%num.

(** [float_of_string]: what is not a number is 0, with a warning. *)
Definition float_of_string (s : string_view) : option F :=
  '(f, end_idx) ← parse_float (Some (length (chars s))) (data s);
  Some (if ((end_idx =? 0)%nat && negb (view_empty s)) || isnan f then n_of_Z 0 else f).
End ParseFloat.

(** [int_of_string]: the value and the number of characters up to [end]. *)
Definition i32 (z : Z) : Z := let y := z mod 2 ^ 32 in if y <? 2 ^ 31 then y else y - 2 ^ 32.
Definition int_of_string (s : string_view) : option (Z * nat) :=
  '(i, k) ← strtol (data s);
  Some (if (k =? 0)%nat && negb (view_empty s) then 0 else i32 i, k).

(** ** Tokenizers *)

(** The loop of [tokenize]; [last_space] says whether the token before was empty. *)
Fixpoint tokenize_loop (fuel : nat) (delim : byte) (allow_empty last_space : bool) (s : string_view) : list string_view :=
  match fuel with
  | O => []
  | S fuel =>
      match find_byte delim (chars s) with
      | Some end_pos =>
          (if allow_empty || (0 <? end_pos)%nat then [view_take end_pos s] else []) ++
          tokenize_loop fuel delim allow_empty (end_pos =? 0)%nat (view_drop (S end_pos) s)
      | None => if negb (view_empty s) || (last_space && allow_empty) then [s] else []
      end
  end.
Definition tokenize (delim : byte) (s : string_view) (allow_empty : bool) : list string_view :=
  tokenize_loop (S (length (chars s))) delim allow_empty false s.
#[global] Arguments tokenize : simpl never.

(** [escaped_tokenize]: a token grows in [current] until a delimiter that is not escaped. *)
Fixpoint find_first_of (delims : list byte) (l : list byte) : option nat :=
  match l with
  | [] => None
  | c :: l' => if bool_decide (c ∈ delims) then Some 0%nat else S <$> find_first_of delims l'
  end.
Definition backslash : byte := Byte.x5c.
(** A C string of the two characters. *)
Definition escape_delims (delim : byte) : list byte := if is_chr Byte.x00 delim then [backslash] else [backslash; delim].

Fixpoint escaped_loop (fuel : nat) (delim : byte) (allow_empty last_space : bool) (current s : list byte) : list (list byte) :=
  match fuel with
  | O => []
  | S fuel =>
      match find_first_of (escape_delims delim) s with
      | Some end_pos =>
          let current := current ++ take end_pos s in
          let rest := drop (S end_pos) s in
          if is_chr backslash (nth end_pos s Byte.x00)
          then escaped_loop fuel delim allow_empty last_space (current ++ take 1 rest) (drop 1 rest)
          else (match current with [] => if allow_empty then [current] else [] | _ => [current] end) ++
               escaped_loop fuel delim allow_empty (end_pos =? 0)%nat [] rest
      | None =>
          match s, current with
          | [], [] => if last_space && allow_empty then [[]] else []
          | _, _ => [current ++ s]
          end
      end
  end.
Definition escaped_tokenize (delim : byte) (s : list byte) (allow_empty : bool) : list (list byte) :=
  escaped_loop (S (length s)) delim allow_empty false [] s.

(** [split_command_line] *)
Definition is_delim (c : byte) : bool := is_chr Byte.x20 c.
Definition is_quote (c : byte) : bool := is_chr Byte.x22 c || is_chr Byte.x27 c.
Definition is_escape_char (c : byte) : bool := is_chr backslash c.
Definition unescape_char (c : byte) : byte :=
  if is_chr Byte.x6e c then Byte.x0a else if is_chr Byte.x74 c then Byte.x09 else c.

Definition push_token (ret : list (list byte)) (current : list byte) : list (list byte) :=
  match current with [] => ret | _ => ret ++ [current] end.
(** [quote] is the quote the loop is inside of. *)
Fixpoint split_loop (quote : option byte) (ret : list (list byte)) (current l : list byte) : io_result (list (list byte)) :=
  match l with
  | [] => match quote with Some _ => Throw | None => Done (push_token ret current) end
  | c :: l =>
      if is_escape_char c then
        match l with
        | [] => Throw
        | e :: l => split_loop quote ret (current ++ [unescape_char e]) l
        end
      else if is_delim c then
        match quote with
        | None => split_loop quote (push_token ret current) [] l
        | Some _ => split_loop quote ret (current ++ [c]) l
        end
      else if is_quote c then
        match quote with
        | None => split_loop (Some c) ret current l
        | Some q => if is_chr q c then split_loop None ret current l else split_loop quote ret (current ++ [c]) l
        end
      else split_loop quote ret (current ++ [c]) l
  end.
Definition split_command_line (s : list byte) : io_result (list (list byte)) := split_loop None [] [] s.

(** [trim_whitespace]: between the first and the last character that is not a space. *)
Fixpoint drop_spaces (l : list byte) : list byte :=
  match l with c :: l' => if is_space c then drop_spaces l' else l | [] => [] end.
Definition trim_whitespace (s : string_view) : string_view :=
  let start_pos := (length (chars s) - length (drop_spaces (chars s)))%nat in
  match drop_spaces (chars s) with
  | [] => literal []
  | _ => view_take (length (drop_spaces (rev (chars s))) - start_pos) (view_drop start_pos s)
  end.

(** [split_by_limit]; a limit of 0 never ends. *)
Fixpoint limit_loop (fuel limit : nat) (s : string_view) : io_result (list string_view) :=
  match chars s with
  | [] => Done []
  | _ =>
      match fuel with
      | O => NoFuel
      | S fuel => do rest <- limit_loop fuel limit (view_drop limit s); Done (view_take limit s :: rest)
      end
  end.
Definition split_by_limit (s : string_view) (limit : nat) : io_result (list string_view) :=
  limit_loop (length (chars s)) limit s.

(** ** [decode_inline_hex]

    [\x] and two characters that [strtoul] takes whole stand for a byte; the loop stops where less
    than four characters are left. *)

(** The end of the number is the NUL of the copied string. *)
Definition hex_token (a b : byte) : option byte :=
  let substr := [a; b; Byte.x00] in
  '(c, k) ← strtoul16 substr;
  n ← substr !! k;
  if is_chr Byte.x00 n then Some (byte.of_Z c) else None.
Fixpoint decode_inline_hex (arg : list byte) : list byte :=
  match arg with
  | c0 :: ((c1 :: a :: b :: rest) as next) =>
      if is_chr backslash c0 && is_chr Byte.x78 c1 then
        match hex_token a b with
        | Some c => c :: decode_inline_hex rest
        | None => c0 :: decode_inline_hex next
        end
      else c0 :: decode_inline_hex next
  | _ => arg
  end.

(** ** [named_labels] *)

(** [m_name2id] is read from [m_id2name]: the identifiers are the positions, from 1. *)
Record named_labels := NamedLabels { m_label_list : list byte; m_id2name : list string_view; m_name2id : list (list byte * Z) }.

Fixpoint assoc (k : list byte) (l : list (list byte * Z)) : option Z :=
  match l with [] => None | (k', v) :: l => if decide (k' = k) then Some v else assoc k l end.

Fixpoint name_ids (names : list string_view) (k : Z) (ids : list (list byte * Z)) : io_result (list (list byte * Z)) :=
  match names with
  | [] => Done ids
  | l :: names =>
      match assoc (chars l) ids with
      | Some _ => Throw
      | None => name_ids names (k + 1) (ids ++ [(chars l, k + 1)])
      end
  end.
Definition initialize_maps_from_input_string (label_list : list byte) : io_result named_labels :=
  let id2name := tokenize Byte.x2c (literal label_list) false in
  do ids <- name_ids id2name 0 [];
  Done (NamedLabels label_list id2name ids).

Definition getK (n : named_labels) : Z := u32 (Z.of_nat (length (m_id2name n))).
Definition get_id (s : list byte) (n : named_labels) : Z := match assoc s (m_name2id n) with Some v => v | None => 0 end.
Definition get_name (v : Z) (n : named_labels) : string_view :=
  if (v =? 0) || (getK n <? v) then literal [] else nth (Z.to_nat (v - 1)) (m_id2name n) (literal []).

(** * Theorems *)

(** ** Tokens are the fields between delimiters *)

(** Cut at every [d]. *)
Fixpoint splits (d : byte) (l : list byte) : list (list byte) :=
  match l with
  | [] => [[]]
  | c :: l => if decide (c = d) then [] :: splits d l
              else match splits d l with f :: fs => (c :: f) :: fs | [] => [[c]] end
  end.

Definition nonempty (f : list byte) : Prop := f <> [].
#[export] Instance nonempty_dec f : Decision (nonempty f).
Proof. unfold nonempty. apply _. Defined.

Lemma splits_find d l :
  splits d l = match find_byte d l with Some n => take n l :: splits d (drop (S n) l) | None => [l] end.
Proof.
  induction l as [|c l IH]; [done|]. cbn [splits find_byte]. case_decide; [done|]. rewrite IH. by destruct (find_byte d l).
Qed.

Lemma splits_nonempty d l : splits d l <> [].
Proof. rewrite splits_find. by destruct (find_byte d l). Qed.

(** With [allow_empty] the last field, if empty, is kept only after another empty one. *)
Fixpoint kept_fields (after_empty : bool) (fs : list (list byte)) : list (list byte) :=
  match fs with
  | [] => []
  | [f] => match f with [] => if after_empty then [[]] else [] | _ => [f] end
  | f :: fs => f :: kept_fields (match f with [] => true | _ => false end) fs
  end.

Lemma tokenize_loop_fields d ae : forall fuel ls s, (length (chars s) < fuel)%nat ->
  chars <$> tokenize_loop fuel d ae ls s = (if ae then kept_fields ls (splits d (chars s)) else filter nonempty (splits d (chars s))).
Proof.
  induction fuel as [|fuel IH]; intros ls s Hf; [lia|]. cbn [tokenize_loop]. rewrite splits_find.
  pose proof (find_byte_spec d (chars s)) as Hspec. destruct (find_byte d (chars s)) as [n|].
  - destruct Hspec as [Hn%lookup_lt_Some _].
    rewrite fmap_app, IH by (cbn; rewrite length_drop; lia). cbn [view_drop chars].
    pose proof (splits_nonempty d (drop (S n) (chars s))) as Hne.
    assert (length (take n (chars s)) = n) as Hl by (rewrite length_take; lia).
    destruct ae; cbn [orb].
    + cbn [fmap list_fmap app view_take chars kept_fields]. destruct (splits d (drop (S n) (chars s))) as [|f fs]; [done|].
      f_equal. destruct (take n (chars s)) as [|c t], n as [|n]; try done.
    + destruct n as [|n]; cbn [Nat.ltb Nat.leb app fmap list_fmap]; [by rewrite filter_cons_False by auto|].
      rewrite filter_cons_True; [done|]. by destruct (chars s).
  - unfold view_empty. destruct (chars s) as [|c l] eqn:E; cbn [negb orb].
    + destruct ae; [rewrite andb_true_r|rewrite andb_false_r]; [|done]. cbn. destruct ls; [|done]. cbn. by rewrite E.
    + cbn. rewrite E. by destruct ae.
Qed.

(** Every token is a piece of the memory of the string. *)
Lemma tokenize_loop_memory d ae fuel : forall ls s, Forall (fun t => exists pre, data s = pre ++ data t) (tokenize_loop fuel d ae ls s).
Proof.
  assert (forall n s, data (view_take n s) = data s) as Ht by (intros n s; unfold data; cbn; by rewrite app_assoc, take_drop).
  assert (forall n s, data s = take n (chars s) ++ data (view_drop n s)) as Hd by (intros n s; unfold data; cbn; by rewrite app_assoc, take_drop).
  induction fuel as [|fuel IH]; intros ls s; [constructor|]. cbn [tokenize_loop]. destruct (find_byte d (chars s)) as [n|].
  - apply Forall_app. split.
    + case_if; [|constructor]. repeat constructor. exists []. by rewrite Ht.
    + eapply Forall_impl; [apply IH|]. intros t [pre E]. rewrite (Hd (S n)), E, app_assoc. eauto.
  - case_if; [|constructor]. repeat constructor. by exists [].
Qed.

(** Tokens are the fields between delimiters, in order, each a view of the string's own memory:
    all that are not empty; or, with [allow_empty], all but an empty last one that follows one that
    is not empty. *)
Theorem tokenize_fields d s :
  chars <$> tokenize d s false = filter nonempty (splits d (chars s)) /\
  chars <$> tokenize d s true = kept_fields false (splits d (chars s)) /\
  forall allow_empty, Forall (fun t => exists pre, data s = pre ++ data t) (tokenize d s allow_empty).
Proof.
  unfold tokenize. split_and!; [apply (tokenize_loop_fields d false); lia|apply (tokenize_loop_fields d true); lia|].
  intros ae. apply tokenize_loop_memory.
Qed.

(** Fields joined by the delimiter. *)
Fixpoint join (d : byte) (fs : list (list byte)) : list byte :=
  match fs with [] => [] | [f] => f | f :: fs => f ++ d :: join d fs end.

Lemma splits_prefix d f l : d ∉ f -> splits d (f ++ d :: l) = f :: splits d l.
Proof.
  induction f as [|c f IH]; cbn [app splits]; intros Hd; [by case_decide|]. apply not_elem_of_cons in Hd as [Hc Hf].
  rewrite IH by done. by case_decide.
Qed.
Lemma splits_single d f : d ∉ f -> splits d f = [f].
Proof.
  induction f as [|c f IH]; cbn [splits]; intros Hd; [done|]. apply not_elem_of_cons in Hd as [Hc Hf]. rewrite IH by done. by case_decide.
Qed.
Lemma splits_join d fs : fs <> [] -> Forall (fun f => d ∉ f) fs -> splits d (join d fs) = fs.
Proof.
  intros Hne. induction 1 as [|f fs Hf Hfs IH]; [done|]. destruct fs as [|g fs]; [by apply splits_single|].
  cbn [join]. rewrite splits_prefix by done. f_equal. by apply IH.
Qed.
Lemma tokenize_join d fs s : chars s = join d fs -> Forall (fun f => (d ∉ f) /\ f <> []) fs -> chars <$> tokenize d s false = fs.
Proof.
  intros E Hfs. unfold tokenize. rewrite (tokenize_loop_fields d false), E by lia. destruct fs as [|f fs]; [done|].
  rewrite splits_join; [|done|eapply Forall_impl; [exact Hfs|by intros ? []]]. apply filter_every.
  eapply Forall_impl; [exact Hfs|by intros ? []].
Qed.

(** ** A decimal number in the text *)

Section Numerals.
Context {F : Type} `{Num F} (infinity : F) (strtof : list byte -> option (F * nat)).

(** [-]digits[.digits][e[-]digits] *)
Record numeral := Numeral {
  nm_minus : bool; nm_int : list byte; nm_frac : option (list byte); nm_exp : option (bool * list byte)
}.
Definition minus_text (m : bool) : list byte := if m then [Byte.x2d] else [].
Definition frac_text (f : option (list byte)) : list byte := match f with Some fs => Byte.x2e :: fs | None => [] end.
Definition exp_text (e : option (bool * list byte)) : list byte :=
  match e with Some (m, es) => Byte.x65 :: minus_text m ++ es | None => [] end.
Definition numeral_text (n : numeral) : list byte := minus_text (nm_minus n) ++ nm_int n ++ frac_text (nm_frac n) ++ exp_text (nm_exp n).

Definition frac_digits (n : numeral) : list byte := default [] (nm_frac n).
Definition exp_value (e : option (bool * list byte)) : Z :=
  match e with Some (m, es) => if m : bool then - digits_val 10 es else digits_val 10 es | None => 0 end.
(** The power of ten the digits are scaled by. *)
Definition power10 (n : numeral) : Z := exp_value (nm_exp n) - Z.of_nat (length (frac_digits n)).

Definition add_digit (acc : F) (c : byte) : F := ((acc * n_of_Z 10 + n_of_Z (byte_val c)) - n_of_Z 48)%num.
Definition add_fraction_digit (acc : F) (c : byte) : F := (acc * n_of_Z 10 + n_of_Z (byte_val c - 48))%num.
Definition numeral_value (n : numeral) : F :=
  (n_of_Z (if nm_minus n then -1 else 1) *
   (fold_left add_fraction_digit (frac_digits n) (fold_left add_digit (nm_int n) (n_of_Z 0)) * fast_pow10 infinity (i8 (power10 n))))%num.

Definition all_digits (l : list byte) : Prop := Forall (fun c => is_digit c = true) l.
Record numeral_ok (n : numeral) : Prop := {
  no_int : all_digits (nm_int n);
  no_some : nm_int n <> [] \/ nm_frac n <> None;
  no_frac : all_digits (frac_digits n) /\ (length (frac_digits n) <= 35)%nat;
  no_exp : match nm_exp n with Some (_, es) => all_digits es /\ (1 <= length es <= 8)%nat | None => True end
}.

(** What may follow the number: the end of the text, or a blank. *)
Definition follows (end_line : option nat) (k : nat) (rest : list byte) : Prop :=
  match rest with
  | [] => False
  | c :: _ => is_digit c = false /\ c <> Byte.x2e /\ c <> Byte.x65 /\ c <> Byte.x45 /\
              (end_line = Some k \/ (c = Byte.x20 \/ c = Byte.x0a \/ c = Byte.x09) /\ match end_line with Some e => (k <= e)%nat | None => True end)
  end.

Lemma is_chr_eq c : is_chr c c = true.
Proof. by unfold is_chr; rewrite bool_decide_true. Qed.
Lemma is_chr_ne c d : d <> c -> is_chr c d = false.
Proof. intros. unfold is_chr. by rewrite bool_decide_false. Qed.

Lemma before_le e k k' : match e with Some e => (k' <= e)%nat | None => True end -> (k < k')%nat -> before e k = true.
Proof. destruct e; cbn; [|done]. intros. apply Nat.ltb_lt. lia. Qed.

Lemma digits_loop_run e ds : forall acc rest k, all_digits ds ->
  match e with Some e => (k + length ds <= e)%nat | None => True end ->
  match rest with c :: _ => is_digit c = false | [] => False end ->
  digits_loop e acc (ds ++ rest) k = Some (fold_left add_digit ds acc, rest, (k + length ds)%nat).
Proof.
  induction ds as [|c ds IH]; intros acc rest k Hds He Hrest.
  - destruct rest as [|c rest]; [done|]. cbn. rewrite Hrest. cbn. by rewrite Nat.add_0_r.
  - apply Forall_cons in Hds as [Hc Hds]. cbn [app digits_loop]. rewrite Hc, (before_le e k (k + length (c :: ds))) by (done || cbn; lia).
    cbn [andb]. rewrite IH; [by rewrite length_cons, <- plus_n_Sm|done|destruct e; cbn in *; lia|done].
Qed.

Lemma fraction_loop_run e ds : forall acc nd rest k, all_digits ds ->
  match e with Some e => (k + length ds <= e)%nat | None => True end ->
  match rest with c :: _ => is_digit c = false | [] => False end -> nd + Z.of_nat (length ds) <= 35 ->
  fraction_loop e acc nd (ds ++ rest) k = Some (fold_left add_fraction_digit ds acc, nd + Z.of_nat (length ds), rest, (k + length ds)%nat).
Proof.
  induction ds as [|c ds IH]; intros acc nd rest k Hds He Hrest Hnd.
  - destruct rest as [|c rest]; [done|]. cbn. rewrite Hrest. cbn. by rewrite Nat.add_0_r, Z.add_0_r.
  - apply Forall_cons in Hds as [Hc Hds]. cbn [app fraction_loop]. rewrite Hc, (before_le e k (k + length (c :: ds))) by (done || cbn; lia).
    cbn [andb]. rewrite length_cons in *. rewrite (proj2 (Z.ltb_lt nd 35)) by lia.
    rewrite IH; [|done|destruct e; cbn in *; lia|done|lia]. cbn [fold_left]. do 2 f_equal; [f_equal; f_equal; lia|lia].
Qed.

Lemma is_digit_val c : is_digit c = true -> digit_val c = byte_val c - 48 /\ 48 <= byte_val c <= 57.
Proof. intros Hc. unfold digit_val. rewrite Hc. unfold is_digit in Hc. bprop. lia. Qed.

Lemma digits_val_snoc b ds c : digits_val b (ds ++ [c]) = digits_val b ds * b + digit_val c.
Proof. unfold digits_val. by rewrite fold_left_app. Qed.

Lemma digits_val_bound ds : all_digits ds -> 0 <= digits_val 10 ds < 10 ^ Z.of_nat (length ds).
Proof.
  induction ds as [|c ds IH] using rev_ind; intros Hds; [done|]. apply Forall_app in Hds as [Hds [Hc _]%Forall_cons].
  apply is_digit_val in Hc. rewrite digits_val_snoc, length_app, Nat2Z.inj_add, Z.pow_add_r by lia. specialize (IH Hds). cbn [length]. lia.
Qed.

Lemma exponent_loop_run e ds : forall acc rest k, all_digits ds -> 0 <= acc ->
  match e with Some e => (k + length ds <= e)%nat | None => True end ->
  match rest with c :: _ => is_digit c = false | [] => False end ->
  acc * 10 ^ Z.of_nat (length ds) + 10 ^ Z.of_nat (length ds) <= 10 ^ 8 ->
  exponent_loop e acc (ds ++ rest) k = Some (fold_left (fun acc c => acc * 10 + digit_val c) ds acc, rest, (k + length ds)%nat).
Proof.
  induction ds as [|c ds IH]; intros acc rest k Hds Hacc He Hrest Hb.
  - destruct rest as [|c rest]; [done|]. cbn. rewrite Hrest. cbn. by rewrite Nat.add_0_r.
  - apply Forall_cons in Hds as [Hc Hds]. cbn [app exponent_loop]. rewrite Hc, (before_le e k (k + length (c :: ds))) by (done || cbn; lia).
    cbn [andb]. apply is_digit_val in Hc as [Hv Hr]. rewrite length_cons, Nat2Z.inj_succ, Z.pow_succ_r in Hb by lia.
    assert (0 < 10 ^ Z.of_nat (length ds)) by (apply Z.pow_pos_nonneg; lia).
    assert (acc * 10 + 10 <= 10 ^ 8) by nia. unfold int_ok.
    rewrite (proj2 (Z.leb_le _ _)), (proj2 (Z.ltb_lt _ _)) by lia. cbn [andb mbind option_bind fold_left].
    rewrite Hv. replace (acc * 10 + byte_val c - 48) with (acc * 10 + (byte_val c - 48)) by lia.
    rewrite length_cons, <- plus_n_Sm. rewrite IH; [done|done|lia|destruct e; cbn in *; lia|done|nia].
Qed.

(** The first character of what is left of a number. *)
Lemma app_head {A} (x : list A) c r : exists d r', x ++ c :: r = d :: r' /\ (x = [] -> d = c) /\ (x <> [] -> d ∈ x).
Proof. destruct x as [|d x]; [by exists c, r|]. exists d, (x ++ c :: r). split_and!; [done..|]. intros _. by left. Qed.

Lemma parse_exponent_run e x rest k :
  match x with Some (_, es) => all_digits es /\ (1 <= length es <= 8)%nat | None => True end -> follows e (k + length (exp_text x)) rest ->
  parse_exponent e (exp_text x ++ rest) k = Some (exp_value x, rest, (k + length (exp_text x))%nat).
Proof.
  intros Hx Hf. unfold parse_exponent. destruct rest as [|c rest]; [done|]. destruct Hf as (Hnd & _ & He & HE & Hend).
  destruct x as [[m es]|]; cbn [exp_text app].
  - change ((Byte.x65 :: minus_text m ++ es) ++ c :: rest) with (Byte.x65 :: (minus_text m ++ es) ++ c :: rest).
    rewrite <- app_assoc. cbn [lookup list_lookup tail mbind option_bind]. rewrite is_chr_eq. cbn [orb andb].
    assert (match e with Some e => (k + length (exp_text (Some (m, es))) <= e)%nat | None => True end) as Hle.
    { destruct Hend as [->|[_ ?]]; [lia|done]. }
    cbn [exp_text length] in *. rewrite length_app in *.
    rewrite (before_le e k (k + S (length (minus_text m) + length es))) by (done || lia). destruct Hx as [Hes Hl].
    assert (forall k', (k' + length es = k + S (length (minus_text m) + length es))%nat ->
      exponent_loop e 0 (es ++ c :: rest) k' = Some (digits_val 10 es, c :: rest, (k + S (length (minus_text m) + length es))%nat)) as Hloop.
    { intros k' Hk'. rewrite exponent_loop_run; [by rewrite Hk'|done|lia|by rewrite Hk'|done|].
      assert (10 ^ Z.of_nat (length es) <= 10 ^ 8) by (apply Z.pow_le_mono_r; lia). lia. }
    destruct m; cbn [minus_text app length] in *.
    + cbn [lookup list_lookup tail mbind option_bind]. rewrite is_chr_eq, (before_le e (S k) (k + S (1 + length es))) by (done || lia).
      cbn [andb]. rewrite Hloop by lia. done.
    + destruct (app_head es c rest) as (d & r' & Heq & H1 & H2). rewrite Heq. cbn [lookup list_lookup tail mbind option_bind].
      rewrite is_chr_ne; [cbn [andb]; rewrite <- Heq, Hloop by lia; done|].
      intros ->. destruct es as [|c' es]; [cbn in Hl; lia|]. assert (Byte.x2d ∈ c' :: es) as Hin by (by apply H2).
      unfold all_digits in Hes. rewrite Forall_forall in Hes. by specialize (Hes _ Hin).
  - cbn [lookup list_lookup mbind option_bind]. rewrite !is_chr_ne by done. cbn. by rewrite Nat.add_0_r.
Qed.

Lemma parse_fraction_run e acc fr rest k :
  all_digits (default [] fr) -> (length (default [] fr) <= 35)%nat ->
  match e with Some e => (k + length (frac_text fr) <= e)%nat | None => True end ->
  match rest with c :: _ => is_digit c = false /\ c <> Byte.x2e | [] => False end ->
  parse_fraction e acc (frac_text fr ++ rest) k =
    Some (fold_left add_fraction_digit (default [] fr) acc, Z.of_nat (length (default [] fr)), rest, (k + length (frac_text fr))%nat).
Proof.
  intros Hds Hl He Hrest. unfold parse_fraction, id in *. destruct rest as [|c rest]; [done|]. destruct Hrest as [Hc Hdot].
  destruct fr as [ds|]; cbn [frac_text app default length id] in *.
  - cbn [lookup list_lookup mbind option_bind tail]. rewrite is_chr_eq.
    rewrite fraction_loop_run; [|done|destruct e; lia|done|lia]. by rewrite Z.add_0_l, Nat.add_succ_r.
  - cbn [lookup list_lookup mbind option_bind]. rewrite is_chr_ne by done. by rewrite Nat.add_0_r.
Qed.

(** The number is read from its text to its end. *)
Lemma parse_float_numeral e n rest : numeral_ok n -> follows e (length (numeral_text n)) rest ->
  parse_float infinity strtof e (numeral_text n ++ rest) = Some (numeral_value n, length (numeral_text n)).
Proof.
  intros [Hint Hsome [Hfrac Hlen] Hexp] Hf. destruct n as [m int fr ex]. unfold frac_digits in *. cbn [nm_minus nm_int nm_frac nm_exp] in *.
  unfold numeral_text in *. cbn [nm_minus nm_int nm_frac nm_exp] in *.
  assert (match e with Some e => (length (minus_text m ++ int ++ frac_text fr ++ exp_text ex) <= e)%nat | None => True end) as Hle.
  { destruct rest as [|c rest]; [done|]. destruct Hf as (_ & _ & _ & _ & [->|[_ ?]]); [lia|done]. }
  set (tl := exp_text ex ++ rest). set (body := int ++ frac_text fr ++ tl).
  assert ((minus_text m ++ int ++ frac_text fr ++ exp_text ex) ++ rest = minus_text m ++ body) as ->.
  { unfold body, tl. by rewrite <- !app_assoc. }
  assert (match tl with c :: _ => is_digit c = false /\ c <> Byte.x2e | [] => False end) as Htl.
  { unfold tl. destruct ex as [[]|]; cbn; [done|]. by destruct rest as [|c rest]; [|destruct Hf as (? & ? & _)]. }
  assert (match frac_text fr ++ tl with c :: _ => is_digit c = false | [] => False end) as Hdot.
  { destruct fr; cbn; [done|]. destruct tl; [done|]. tauto. }
  assert (exists c b, body = c :: b /\ c <> Byte.x2d /\ c <> Byte.x20 /\ c <> Byte.x00) as (c & b & Hb & Hm & Hsp & Hz).
  { unfold body. destruct int as [|c int].
    - destruct fr as [fs|]; [|by destruct Hsome]. by exists Byte.x2e, (fs ++ tl).
    - apply Forall_cons in Hint as [Hc _]. exists c, (int ++ frac_text fr ++ tl). split; [done|]. by split_and!; intros ->. }
  unfold parse_float.
  assert (forall k, match e with Some e => (k + length (int ++ frac_text fr ++ exp_text ex) <= e)%nat | None => True end ->
    (k + length (int ++ frac_text fr ++ exp_text ex) = length (minus_text m ++ int ++ frac_text fr ++ exp_text ex))%nat ->
    digits_loop e (n_of_Z 0) body k = Some (fold_left add_digit int (n_of_Z 0), frac_text fr ++ tl, (k + length int)%nat) /\
    parse_fraction e (fold_left add_digit int (n_of_Z 0)) (frac_text fr ++ tl) (k + length int) =
      Some (fold_left add_fraction_digit (default [] fr) (fold_left add_digit int (n_of_Z 0)), Z.of_nat (length (default [] fr)), tl,
            (k + length int + length (frac_text fr))%nat) /\
    parse_exponent e tl (k + length int + length (frac_text fr)) =
      Some (exp_value ex, rest, length (minus_text m ++ int ++ frac_text fr ++ exp_text ex))) as Hparts.
  { intros k Hk Hkl. rewrite !length_app in *. split_and!.
    - apply digits_loop_run; [done|destruct e; lia|done].
    - apply parse_fraction_run; [done|done|destruct e; lia|done].
    - unfold tl. rewrite parse_exponent_run; [do 2 f_equal; lia|done|]. by replace (_ + _)%nat with (length (minus_text m) + (length int + (length (frac_text fr) + length (exp_text ex))))%nat by lia. }
  assert (power10 (Numeral m int fr ex) = exp_value ex - Z.of_nat (length (default [] fr))) as Hp by done.
  assert (forall es, all_digits es -> (1 <= length es <= 8)%nat -> 0 <= digits_val 10 es < 10 ^ 8) as Hbound.
  { intros es Hes Hl. pose proof (digits_val_bound es Hes). assert (10 ^ Z.of_nat (length es) <= 10 ^ 8) by (apply Z.pow_le_mono_r; lia). lia. }
  assert (int_ok (power10 (Numeral m int fr ex)) = Some (power10 (Numeral m int fr ex))) as Hok.
  { unfold int_ok. rewrite (proj2 (Z.leb_le _ _)), (proj2 (Z.ltb_lt _ _)); [done|..]; rewrite Hp;
      (destruct ex as [[[] es]|]; cbn [exp_value]; [destruct Hexp as [H1 H2]; specialize (Hbound es H1 H2)..|]); lia. }
  destruct rest as [|d rest]; [done|]. destruct Hf as (_ & _ & _ & _ & Hend).
  assert (is_chr Byte.x20 d || is_chr Byte.x0a d || is_chr Byte.x09 d ||
    match e with Some e => (length (minus_text m ++ int ++ frac_text fr ++ exp_text ex) =? e)%nat | None => false end = true) as Hstop.
  { destruct Hend as [->|[Hd _]]; [rewrite Nat.eqb_refl; apply orb_true_r|]. destruct Hd as [->|[->| ->]]; rewrite is_chr_eq; by rewrite ?orb_true_r. }
  destruct m; cbn [minus_text app] in *.
  - cbn [lookup list_lookup mbind option_bind]. rewrite is_chr_ne by done. cbn [skip_spaces]. rewrite is_chr_ne by done. cbn [andb mbind option_bind lookup list_lookup tail].
    rewrite is_chr_eq. destruct (Hparts 1%nat) as (H1 & H2 & H3); [by destruct e|done|]. rewrite H1. cbn [mbind option_bind]. rewrite H2.
    cbn [mbind option_bind]. rewrite H3. cbn [mbind option_bind lookup list_lookup]. rewrite Hstop, <- Hp, Hok. done.
  - rewrite Hb. cbn [lookup list_lookup mbind option_bind]. rewrite is_chr_ne by done. cbn [skip_spaces]. rewrite is_chr_ne by done. cbn [andb mbind option_bind lookup list_lookup tail].
    rewrite is_chr_ne by done. rewrite <- Hb. destruct (Hparts 0%nat) as (H1 & H2 & H3); [by destruct e|done|]. rewrite H1. cbn [mbind option_bind]. rewrite H2.
    cbn [mbind option_bind]. rewrite H3. cbn [mbind option_bind lookup list_lookup]. rewrite Hstop, <- Hp, Hok. done.
Qed.
End Numerals.

(** ** Exactness *)

Lemma int_pow10_Q infinity n : (n <= 39)%nat -> (constexpr_int_pow10 infinity n == inject_Z (10 ^ Z.of_nat n))%Q.
Proof.
  induction n as [|n IH]; intros Hn; [done|]. cbn [constexpr_int_pow10]. rewrite (proj2 (Nat.ltb_ge _ _)) by (unfold VALUES_ABOVE_AND_INCLUDING_ZERO; lia).
  unfold POW10_BASE. qnum. rewrite IH by lia. rewrite Nat2Z.inj_succ, Z.pow_succ_r by lia. by rewrite inject_Z_mult.
Qed.

Lemma negative_int_pow10_Q n : (n <= 37)%nat -> (constexpr_negative_int_pow10 n * inject_Z (10 ^ Z.of_nat n) == 1)%Q.
Proof.
  induction n as [|n IH]; intros Hn; [done|]. cbn [constexpr_negative_int_pow10]. rewrite (proj2 (Nat.ltb_ge _ _)) by (unfold VALUES_BELOW_ZERO; lia).
  unfold POW10_BASE. qnum. rewrite Nat2Z.inj_succ, Z.pow_succ_r, inject_Z_mult by lia. rewrite <- IH by lia. field.
Qed.

Lemma inject_pow10 n : (inject_Z (10 ^ Z.of_nat n) == Qpower 10 (Z.of_nat n))%Q.
Proof.
  induction n as [|n IH]; [done|]. rewrite Nat2Z.inj_succ, Z.pow_succ_r, inject_Z_mult, IH by lia.
  unfold Z.succ. rewrite Z.add_comm, Qpower.Qpower_plus by done. change (Qpower 10 1) with 10%Q. ring.
Qed.

Lemma fast_pow10_Q infinity e : -37 <= e <= 38 -> (fast_pow10 infinity e == Qpower 10 e)%Q.
Proof.
  intros He. unfold fast_pow10. rewrite !(proj2 (Z.ltb_ge _ _)) by (unfold VALUES_ABOVE_ZERO, VALUES_BELOW_ZERO; lia).
  destruct (Z.leb_spec 0 e) as [Hp|Hp].
  - unfold POW_10_POSITIVE_LOOKUP_TABLE. erewrite nth_lookup_Some.
    2:{ rewrite list_lookup_fmap, lookup_seq_lt by (unfold VALUES_ABOVE_AND_INCLUDING_ZERO; lia). reflexivity. }
    rewrite int_pow10_Q, inject_pow10 by lia. cbn [Nat.add]. by rewrite Z2Nat.id.
  - unfold POW_10_NEGATIVE_LOOKUP_TABLE. erewrite nth_lookup_Some.
    2:{ rewrite list_lookup_fmap, lookup_seq_lt by (unfold VALUES_BELOW_ZERO; lia). reflexivity. }
    replace (VALUES_BELOW_ZERO - (0 + _))%nat with (Z.to_nat (- e)) by (unfold VALUES_BELOW_ZERO; lia).
    pose proof (negative_int_pow10_Q (Z.to_nat (- e)) ltac:(lia)) as Hk. rewrite inject_pow10, Z2Nat.id in Hk by lia.
    assert (e = - - e) as He' by lia. rewrite He' at 2. rewrite Qpower.Qpower_opp.
    assert (~ Qpower 10 (- e) == 0)%Q as Hnz by (apply Qpower.Qpower_not_0; done).
    rewrite <- (Qmult_inv_r _ Hnz), (Qmult_comm (Qpower 10 _)) in Hk. by apply Qmult_inj_r in Hk.
Qed.

Lemma i8_small z : -128 <= z < 128 -> i8 z = z.
Proof.
  intros Hz. unfold i8. change (2 ^ 8) with 256. change (2 ^ 7) with 128.
  pose proof (Z.div_mod z 256 ltac:(lia)). pose proof (Z.mod_pos_bound z 256 ltac:(lia)).
  destruct (Z.ltb_spec (z mod 256) 128); nia.
Qed.

Lemma add_digits_Q ds (acc : Q) z : all_digits ds -> (acc == inject_Z z)%Q ->
  (fold_left add_digit ds acc == inject_Z (fold_left (fun a c => a * 10 + digit_val c)%Z ds z))%Q /\
  (fold_left add_fraction_digit ds acc == inject_Z (fold_left (fun a c => a * 10 + digit_val c)%Z ds z))%Q.
Proof.
  intros Hds. revert acc z; induction Hds as [|c ds Hc _ IH]; intros acc z Hz; [by cbn|]. cbn [fold_left].
  apply is_digit_val in Hc as [Hv _]. unfold add_digit at 2, add_fraction_digit at 2. qnum. split; apply IH; rewrite Hv, Hz.
  - unfold Z.sub. rewrite !inject_Z_plus, inject_Z_mult. change (inject_Z 10) with 10%Q. change (inject_Z 48) with 48%Q. change (inject_Z (Z.opp 48)) with (-48)%Q. ring.
  - by rewrite inject_Z_plus, inject_Z_mult.
Qed.

(** C32: a decimal number is read as what it means, and to its end. In exact arithmetic the value is
    the digits as an integer times the power of ten that the exponent and the digits after the point
    make, as long as that power is one of the table's, 10^-37 to 10^38. *)
Theorem parse_float_exact (infinity : Q) (strtof : list byte -> option (Q * nat)) end_line (n : numeral) (rest : list byte) :
  numeral_ok n -> -37 <= power10 n <= 38 -> follows end_line (length (numeral_text n)) rest ->
  exists x, parse_float infinity strtof end_line (numeral_text n ++ rest) = Some (x, length (numeral_text n)) /\
    (x == (if nm_minus n then -1 else 1) * inject_Z (digits_val 10 (nm_int n ++ frac_digits n)) * Qpower 10 (power10 n))%Q.
Proof.
  intros Hok He Hf. eexists. split; [by apply parse_float_numeral|]. unfold numeral_value. qnum. destruct Hok as [Hint _ [Hfrac _] _].
  rewrite i8_small, fast_pow10_Q by lia. unfold digits_val. rewrite fold_left_app.
  destruct (add_digits_Q (nm_int n) (inject_Z 0) 0 Hint) as [Hi _]; [done|].
  destruct (add_digits_Q (frac_digits n) _ _ Hfrac Hi) as [_ ->]. destruct (nm_minus n); ring.
Qed.

(** An exponent below -128 wraps around in the [int8_t] that [fast_pow10] takes: numbers
    that are as good as 0 are read as infinity. *)
Theorem tiny_number_is_infinity (es rest : list byte) end_line :
  all_digits es -> length es = 3%nat -> 129 <= digits_val 10 es <= 217 ->
  let n := Numeral false [Byte.x31] None (Some (true, es)) in
  follows end_line (length (numeral_text n)) rest ->
  @parse_float f32 num_f32 (S754_infinity false) strtof end_line (numeral_text n ++ rest) =
    Some (S754_infinity false, length (numeral_text n)).
Proof.
  intros Hes Hl Hv n Hf. rewrite (parse_float_numeral (H := num_f32)); [|split; cbn; [by repeat constructor|by left|split; [constructor|lia]|split; [done|lia]]|done].
  do 2 f_equal. unfold numeral_value. cbn [nm_minus nm_int nm_exp frac_digits nm_frac n default fold_left].
  assert (power10 n = - digits_val 10 es) as -> by (unfold power10; cbn -[digits_val]; lia).
  assert (fast_pow10 (H := num_f32) (S754_infinity false) (i8 (- digits_val 10 es)) = S754_infinity false) as ->; [|done].
  unfold fast_pow10. rewrite (proj2 (Z.ltb_lt _ _)); [done|]. unfold i8, VALUES_ABOVE_ZERO.
  assert ((- digits_val 10 es) mod 2 ^ 8 = 256 - digits_val 10 es) as -> by (symmetry; apply (Z.mod_unique _ _ (-1)); lia).
  rewrite (proj2 (Z.ltb_lt _ _)); lia.
Qed.

(** ** Command lines *)

(** An argument between double quotes, its quotes and backslashes escaped. *)
Definition quote_char (c : byte) : list byte := if is_chr Byte.x22 c || is_chr backslash c then [backslash; c] else [c].
Definition quote_arg (a : list byte) : list byte := Byte.x22 :: (a ≫= quote_char) ++ [Byte.x22].

Lemma split_quoted a : forall ret current l,
  split_loop (Some Byte.x22) ret current ((a ≫= quote_char) ++ l) = split_loop (Some Byte.x22) ret (current ++ a) l.
Proof.
  induction a as [|c a IH]; intros ret current l; [by rewrite app_nil_r|]. rewrite bind_cons, <- app_assoc.
  replace (current ++ c :: a) with ((current ++ [c]) ++ a) by by rewrite <- app_assoc. rewrite <- IH. unfold quote_char.
  unfold is_chr. repeat case_bool_decide; subst; cbn [orb app split_loop]; [done..|].
  unfold is_escape_char, is_delim, is_quote, is_chr. rewrite (bool_decide_false (c = backslash)) by done.
  rewrite (bool_decide_false (c = Byte.x22)) by done. case_bool_decide; [done|]. cbn [orb]. by case_bool_decide.
Qed.

(** What is quoted is split back: a command line of quoted arguments, whatever bytes they hold,
    splits into them - except those that are empty, which are lost. *)
Theorem split_command_line_quoted (args : list (list byte)) :
  split_command_line (join Byte.x20 (quote_arg <$> args)) = Done (filter nonempty args).
Proof.
  unfold split_command_line.
  cut (forall ret, split_loop None ret [] (join Byte.x20 (quote_arg <$> args)) = Done (ret ++ filter nonempty args)); [intros E; apply E|].
  induction args as [|a args IH]; intros ret; [by cbn; rewrite app_nil_r|]. rewrite fmap_cons.
  assert (forall l, split_loop None ret [] (quote_arg a ++ l) = split_loop None ret a l) as Ha.
  { intros l. unfold quote_arg. cbn [app split_loop]. change (is_escape_char Byte.x22) with false. change (is_delim Byte.x22) with false.
    change (is_quote Byte.x22) with true. cbn iota. rewrite <- app_assoc, split_quoted. done. }
  assert (push_token ret a ++ filter nonempty args = ret ++ filter nonempty (a :: args)) as Hp.
  { destruct a as [|c a]; [by rewrite filter_cons_False by auto|]. rewrite filter_cons_True by done. cbn. by rewrite <- app_assoc. }
  destruct args as [|b args].
  - cbn [fmap list_fmap join]. rewrite <- (app_nil_r (quote_arg a)), Ha. cbn [split_loop]. by rewrite <- Hp, app_nil_r.
  - cbn [fmap list_fmap join]. rewrite Ha. cbn [split_loop]. change (is_escape_char Byte.x20) with false. change (is_delim Byte.x20) with true.
    cbn iota. rewrite <- Hp. apply (IH (push_token ret a)).
Qed.

(** ** Hexadecimal escapes *)

Definition hex_digit (d : Z) : byte := nth (Z.to_nat d) (str "0123456789abcdef") Byte.x00.
Definition hex_escape (c : byte) : list byte := [backslash; Byte.x78; hex_digit (byte_val c / 16); hex_digit (byte_val c mod 16)].
(** A byte written as it is, or escaped. *)
Definition inline_text (it : bool * byte) : list byte := if it.1 then hex_escape it.2 else [it.2].

Lemma hex_token_escape c : hex_token (hex_digit (byte_val c / 16)) (hex_digit (byte_val c mod 16)) = Some c.
Proof. by destruct c. Qed.

Lemma decode_plain c l : c <> backslash -> decode_inline_hex (c :: l) = c :: decode_inline_hex l.
Proof. intros Hc. destruct l as [|c1 [|a [|b l]]]; try done. cbn [decode_inline_hex]. by rewrite (is_chr_ne backslash c) by done. Qed.

(** A text in which any bytes are escaped as [\xHH], and every backslash is, decodes to the bytes. *)
Theorem decode_inline_hex_roundtrip (items : list (bool * byte)) :
  Forall (fun it => it.2 = backslash -> it.1 = true) items -> decode_inline_hex (items ≫= inline_text) = items.*2.
Proof.
  induction 1 as [|[e c] items Hc _ IH]; [done|]. rewrite bind_cons, fmap_cons. cbn [snd fst] in *. rewrite <- IH. destruct e.
  - unfold inline_text, hex_escape. cbn [fst snd app decode_inline_hex]. rewrite !is_chr_eq. cbn [andb]. by rewrite hex_token_escape.
  - apply decode_plain. intros E. by specialize (Hc E).
Qed.

(** ** The label dictionary *)

Lemma assoc_app k l l' : assoc k (l ++ l') = match assoc k l with Some v => Some v | None => assoc k l' end.
Proof. induction l as [|[k' v] l IH]; [done|]. cbn. by case_decide. Qed.

Lemma name_ids_spec names : forall k ids,
  name_ids names k ids =
    if decide (NoDup (chars <$> names) /\ Forall (fun n => assoc (chars n) ids = None) names)
    then Done (ids ++ imap (fun i n => (chars n, k + Z.of_nat (S i))) names) else Throw.
Proof.
  induction names as [|n names IH]; intros k ids.
  - rewrite decide_True by (split; [apply NoDup_nil|]; constructor). cbn. by rewrite app_nil_r.
  - cbn [name_ids]. destruct (assoc (chars n) ids) eqn:E.
    + rewrite decide_False; [done|]. intros [_ [Hn _]%Forall_cons]. congruence.
    + rewrite IH.
      assert (NoDup (chars <$> names) /\ Forall (fun m => assoc (chars m) (ids ++ [(chars n, k + 1)]) = None) names <->
        NoDup (chars <$> n :: names) /\ Forall (fun m => assoc (chars m) ids = None) (n :: names)) as Hiff.
      { rewrite fmap_cons, NoDup_cons, Forall_cons, list_elem_of_fmap. setoid_rewrite assoc_app. cbn. rewrite !Forall_forall. split.
        - intros [Hnd Hall]. split_and!; [|done|done|].
          + intros (m & Hm & Hin). specialize (Hall m Hin). destruct (assoc (chars m) ids); [done|]. by rewrite decide_True in Hall.
          + intros m Hin. specialize (Hall m Hin). by destruct (assoc (chars m) ids).
        - intros [[Hnot Hnd] [_ Hall]]. split; [done|]. intros m Hin. rewrite (Hall m Hin), decide_False; [done|]. intros Hm. apply Hnot. by exists m. }
      destruct (decide (NoDup (chars <$> n :: names) /\ _)) as [Hd|Hd]; [rewrite decide_True by by apply Hiff|rewrite decide_False by by rewrite Hiff].
      * rewrite <- app_assoc. cbn [app imap]. f_equal. f_equal. f_equal. apply imap_ext. intros i m _. cbn. f_equal. lia.
      * done.
Qed.

Lemma assoc_imap names k i n : NoDup (chars <$> names) -> names !! i = Some n ->
  assoc (chars n) (imap (fun i n => (chars n, k + Z.of_nat (S i))) names) = Some (k + Z.of_nat (S i)).
Proof.
  revert k i; induction names as [|m names IH]; intros k i Hnd Hi; [done|]. rewrite fmap_cons, NoDup_cons in Hnd. destruct Hnd as [Hm Hnd].
  destruct i as [|i]; cbn in Hi.
  - simplify_eq. cbn. by rewrite decide_True.
  - cbn. rewrite decide_False.
    + specialize (IH (k + 1) i Hnd Hi). etransitivity; [|etransitivity; [exact IH|f_equal; lia]]. f_equal. apply imap_ext. intros j x _. cbn. f_equal. lia.
    + intros E. apply Hm. rewrite E. apply list_elem_of_fmap. exists n. split; [done|]. by apply list_elem_of_lookup_2 in Hi.
Qed.

(** The label dictionary is a bijection between the names of the list and 1 .. K, and refuses a
    list with a name given twice. *)
Theorem named_labels_bijection (label_list : list byte) :
  let names := filter nonempty (splits Byte.x2c label_list) in
  Z.of_nat (length names) < 2 ^ 32 ->
  match initialize_maps_from_input_string label_list with
  | Done n => NoDup names /\ getK n = Z.of_nat (length names) /\
      forall i s, names !! i = Some s <-> (chars (get_name (Z.of_nat (S i)) n) = s /\ get_id s n = Z.of_nat (S i))
  | Throw => ~ NoDup names
  | _ => False
  end.
Proof.
  intros names Hlen. unfold initialize_maps_from_input_string. set (id2name := tokenize _ _ _).
  assert (chars <$> id2name = names) as Hn by apply (tokenize_fields Byte.x2c (literal label_list)).
  rewrite name_ids_spec. assert (length id2name = length names) as Hl by by rewrite <- Hn, length_fmap.
  destruct (decide (NoDup (chars <$> id2name) /\ _)) as [[Hnd _]|Hd].
  - cbn [io_bind app]. unfold get_name, getK, get_id. cbn [m_id2name m_name2id]. rewrite Hn in Hnd. split; [done|].
    assert (u32 (Z.of_nat (length id2name)) = Z.of_nat (length names)) as -> by (rewrite Hl; apply Z.mod_small; lia). split; [done|].
    intros i s. assert (names !! i = chars <$> id2name !! i) as -> by (rewrite <- Hn; apply list_lookup_fmap). split.
    + destruct (id2name !! i) as [n|] eqn:Ei; [|done]. intros [= <-]. pose proof (lookup_lt_Some _ _ _ Ei).
      rewrite (proj2 (Z.eqb_neq _ 0)) by lia. rewrite (proj2 (Z.ltb_ge (Z.of_nat (length names)) _)) by lia. cbn [orb]. split.
      * rewrite (nth_lookup_Some _ _ _ n); [done|]. by replace (Z.to_nat _) with i by lia.
      * rewrite (assoc_imap id2name 0 i n); [lia|by rewrite Hn|done].
    + intros [Hname Hid]. rewrite (proj2 (Z.eqb_neq _ 0)) in Hname by lia. cbn [orb] in Hname.
      destruct (Z.ltb_spec (Z.of_nat (length names)) (Z.of_nat (S i))) as [Hgt|Hle].
      * exfalso. cbn in Hname. subst s. destruct (assoc [] _) as [v|] eqn:E; [|done]. subst v.
        assert (forall l v, assoc [] l = Some v -> ([], v) ∈ l) as Hin.
        { induction l as [|[k v] l IH]; [done|]. cbn. intros v'. case_decide; [intros [= ->]; subst; left|]. right. auto. }
        apply Hin, elem_of_lookup_imap in E as (j & m & Heq & Hj). assert ([] ∈ names) as Hbad.
        { rewrite <- Hn. apply list_elem_of_fmap. exists m. split; [congruence|]. by apply list_elem_of_lookup_2 in Hj. }
        apply list_elem_of_filter in Hbad as [Hbad _]. by apply Hbad.
      * destruct (lookup_lt_is_Some_2 id2name i) as [n Ei]; [lia|]. rewrite Ei. cbn. f_equal. rewrite <- Hname. f_equal. symmetry.
        apply nth_lookup_Some. by replace (Z.to_nat (Z.of_nat (S i) - 1)) with i by lia.
  - cbn [io_bind]. intros Hnd. apply Hd. rewrite Hn. split; [done|]. by apply Forall_forall.
Qed.

(** * Witnesses *)

Lemma parse_float_exact_witness :
  exists x, parse_float 0%Q (fun _ => None) None (str "-12.50e-1 ") = Some (x, 9%nat) /\ (x == -5 # 4)%Q.
Proof.
  destruct (parse_float_exact 0%Q (fun _ => None) None (Numeral true (str "12") (Some (str "50")) (Some (true, str "1"))) (str " "))
    as (x & E & Hx).
  - split; cbn; [repeat constructor|by left|split; [repeat constructor|lia]|split; [repeat constructor|lia]].
  - done.
  - split_and!; try done. right. split; [by left|done].
  - exists x. split; [exact E|]. rewrite Hx. vm_compute. reflexivity.
Defined.

Lemma tiny_number_is_infinity_witness :
  @parse_float f32 num_f32 (S754_infinity false) strtof (Some 6%nat) (str "1e-130 ") = Some (S754_infinity false, 6%nat).
Proof.
  apply (tiny_number_is_infinity (str "130") (str " ") (Some 6%nat)); [repeat constructor|done|vm_compute; split; discriminate|].
  split_and!; try done. by left.
Defined.

Lemma decode_inline_hex_roundtrip_witness : decode_inline_hex (str "a\x5cb\x00") = [Byte.x61; backslash; Byte.x62; Byte.x00].
Proof.
  apply (decode_inline_hex_roundtrip [(false, Byte.x61); (true, backslash); (false, Byte.x62); (true, Byte.x00)]).
  repeat constructor; done.
Defined.

Lemma named_labels_bijection_witness :
  exists n, initialize_maps_from_input_string (str "red,green,,blue") = Done n /\ getK n = 3 /\
    chars (get_name 3 n) = str "blue" /\ get_id (str "green") n = 2.
Proof.
  pose proof (named_labels_bijection (str "red,green,,blue")) as Hb. cbn zeta in Hb.
  destruct (initialize_maps_from_input_string (str "red,green,,blue")) as [n| | |] eqn:E; try (exfalso; vm_compute in E; congruence).
  exists n. split; [reflexivity|]. destruct Hb as (_ & HK & Hn); [vm_compute; reflexivity|]. split; [rewrite HK; reflexivity|].
  split; [apply (proj1 (Hn 2%nat (str "blue")))|apply (proj1 (Hn 1%nat (str "green")))]; vm_compute; reflexivity.
Defined.
