(* ===== verification/LabelText.v ===== *)
(** * Labels in the text format (the [parse_label] functions of [core/src/*_label*.cc], [cb.cc],
      [cost_sensitive.cc], [multiclass.cc], [multilabel.cc])

    What each label type makes of the words before the first bar of a line. What is written to the
    logger is not modelled. *)

From Stdlib Require Import Floats.SpecFloat.
From S2P Require Import Prelude.
From S2P Require Import FloatBytes.
From S2P Require Import Hash.
From S2P Require Import IoBuf.
From S2P Require Import Labels.
From S2P Require Import TextUtils.

#[local] Existing Instance num_f32.

(** ** The parts of words *)

(** A read out of the memory, or an overflow of [int], is undefined. *)
Definition lift {A} (o : option A) : io_result A := match o with Some a => Done a | None => Undefined end.

Definition f32_infinity : f32 := S754_infinity false.
Definition float_of (s : string_view) : io_result f32 := lift (float_of_string f32_infinity strtof s).
Definition int_of (s : string_view) : io_result Z := do (i, _) <- lift (int_of_string s); Done i.

(** [int_of_string] for which the character after the number must be a space or NUL. *)
Definition int_alone (s : string_view) : io_result Z :=
  do (i, k) <- lift (int_of_string s);
  do c <- lift (data s !! k);
  if is_chr Byte.x20 c || is_chr Byte.x00 c then Done i else Throw.

Definition hash_of (s : string_view) : Z := u32 (hashstring (chars s) 0).
(** [s == "..."] *)
Definition is_word (w : list byte) (s : string_view) : bool := bool_decide (chars s = w).

(** [THROW] on NaN; clamping a probability to [0, 1]. *)
Definition check_nan (x : f32) : io_result f32 := if isnan x then Throw else Done x.
Definition clamp_probability (p : f32) : f32 :=
  let p := if (p >? f32_one)%num then f32_one else p in if (p <? f32_zero)%num then f32_zero else p.

Fixpoint map_io {A B} (f : A -> io_result B) (l : list A) : io_result (list B) :=
  match l with [] => Done [] | a :: l => do b <- f a; do bs <- map_io f l; Done (b :: bs) end.

(** ** Simple, multiclass and multilabel labels *)

(** Up to three words; with more the label is left as it was. *)
Definition parse_simple_label (words : list string_view) (ld : simple_label) (rf : simple_label_reduction_features) :
    io_result (simple_label * simple_label_reduction_features) :=
  match words with
  | [l] => do l <- float_of l; Done (SimpleLabel l, rf)
  | [l; w] => do l <- float_of l; do w <- float_of w; Done (SimpleLabel l, SimpleRF w (slrf_initial rf))
  | [l; w; i] => do l <- float_of l; do w <- float_of w; do i <- float_of i; Done (SimpleLabel l, SimpleRF w i)
  | _ => Done (ld, rf)
  end.

Definition label_id (ldict : option named_labels) (word : string_view) : io_result Z :=
  match ldict with
  | Some dict => Done (get_id (chars word) dict)
  | None => do i <- int_alone word; Done (u32 i)
  end.
Definition parse_multiclass_label (ldict : option named_labels) (words : list string_view) (ld : multiclass_label) : io_result multiclass_label :=
  match words with
  | [] => Done ld
  | [l] => do l <- label_id ldict l; Done (MulticlassLabel l f32_one)
  | [l; w] => do l <- label_id ldict l; do w <- float_of w; Done (MulticlassLabel l w)
  | _ => Throw
  end.

Definition parse_multilabel (words : list string_view) (ld : multilabel_label) : io_result multilabel_label :=
  match words with
  | [w] =>
      do ns <- map_io (fun t => do n <- int_of t; Done (u32 n)) (tokenize Byte.x2c w false);
      Done (MultilabelLabel (label_v ld ++ ns))
  | _ => Done ld
  end.

(** ** Cost-sensitive labels *)

(** [name_value]: the names between colons, and the value if it is set: with more than two names it
    keeps what it was. *)
Definition name_value (s : string_view) (v : f32) : io_result (list string_view * f32) :=
  let name := tokenize Byte.x3a s false in
  match name with
  | [] | [_] => Done (name, f32_one)
  | [_; n] => do v <- float_of n; do v <- check_nan v; Done (name, v)
  | _ => Done (name, v)
  end.

Definition cs_word (ldict : option named_labels) (word : string_view) : io_result cs_class :=
  do (tokens, x) <- name_value word f32_zero;
  match tokens with
  | [name] | [name; _] | [name; _; _] =>
      let class_index := match ldict with Some dict => get_id (chars name) dict | None => hash_of name end in
      let x := if (length tokens =? 1)%nat && (x >=? f32_zero)%num then FLT_MAX else x in
      Done (CsClass x class_index f32_zero f32_zero)
  | _ => Throw
  end.

Definition parse_cs_label (ldict : option named_labels) (words : list string_view) : io_result cs_label :=
  let costs := do cs <- map_io (cs_word ldict) words; Done (CsLabel cs) in
  match words with
  | [word] =>
      do (tokens, _) <- name_value word f32_zero;
      match tokens with
      | [] => Undefined
      | name :: _ =>
          let plain w := match ldict with None => is_word w name | Some _ => false end in
          let eq_shared := is_word (str "***shared***") name || plain (str "shared") in
          let eq_label := is_word (str "***label***") name || plain (str "label") in
          if eq_shared then
            match tokens with [_] => Done (CsLabel [CsClass (SFopp FLT_MAX) 0 f32_zero f32_zero]) | _ => Done (CsLabel []) end
          else if eq_label then
            match tokens with
            | [_; c] => do c <- float_of c; Done (CsLabel [CsClass c 0 f32_zero f32_zero])
            | _ => Done (CsLabel [])
            end
          else costs
      end
  | _ => costs
  end.

(** ** Contextual bandit labels *)

(** [parse_graph_feedback_matrix]: triplets, up to a word that holds none. *)
Fixpoint parse_graph_feedback_matrix (words : list string_view) (triplets : list triplet) : io_result (list triplet) :=
  match words with
  | [] => Done triplets
  | word :: words =>
      match tokenize Byte.x2c word false with
      | [] => Done triplets
      | [r; c; v] =>
          do r <- int_of r; do c <- int_of c; do v <- float_of v;
          parse_graph_feedback_matrix words (triplets ++ [Triplet (u64 r) (u64 c) v])
      | [t] =>
          match chars t with
          | c :: _ => if is_chr Byte.x20 c || is_chr Byte.x7c c then Done triplets else Throw
          | [] => Throw
          end
      | _ => Throw
      end
  end.

(** The optional value after a colon. *)
Definition optional_float (s : option string_view) (x : f32) : io_result f32 := match s with Some s => float_of s | None => Done x end.

Definition SHARED_TYPE : list byte := str "shared".
Definition ACTION_TYPE : list byte := str "action".
Definition SLOT_TYPE : list byte := str "slot".
Definition GRAPH_FEEDBACK_TYPE : list byte := str "graph".

(** One word of a label: the class and its first token. *)
Definition cb_word (word : string_view) : io_result (cb_class * string_view) :=
  let tokens := tokenize Byte.x3a word false in
  match tokens with
  | [] => Throw
  | name :: args =>
      if (2 <? length args)%nat then Throw
      else
        do cost <- optional_float (args !! 0%nat) FLT_MAX;
        do cost <- check_nan cost;
        do p <- optional_float (args !! 1%nat) f32_zero;
        do p <- check_nan p;
        let p := clamp_probability p in
        let p := if is_word SHARED_TYPE name && (length tokens =? 1)%nat then f32_minus_one else p in
        Done (CbClass cost (hash_of name) p f32_zero, name)
  end.

Fixpoint cb_words (words : list string_view) (costs : list cb_class) (graph : list triplet) : io_result (list cb_class * list triplet) :=
  match words with
  | [] => Done (costs, graph)
  | word :: words =>
      do (f, name) <- cb_word word;
      if is_word GRAPH_FEEDBACK_TYPE name then
        match last costs with
        | Some back =>
            if (cb_probability back =? f32_minus_one)%num
            then do graph <- parse_graph_feedback_matrix words graph; Done (costs, graph)
            else Throw
        | None => Throw
        end
      else cb_words words (costs ++ [f]) graph
  end.
Definition parse_label_cb (words : list string_view) (ld : cb_label) (graph : list triplet) : io_result (cb_label * list triplet) :=
  do (costs, graph) <- cb_words words (cb_costs ld) graph; Done (CbLabel costs f32_one, graph).

Definition parse_label_cb_eval (words : list string_view) (ld : cb_eval_label) (graph : list triplet) : io_result (cb_eval_label * list triplet) :=
  match words with
  | [] | [_] => Throw
  | action :: rest => do (event, graph) <- parse_label_cb rest (cbe_event ld) graph; Done (CbEvalLabel (hash_of action) event, graph)
  end.

(** ** Conditional contextual bandit labels *)

(** [parse_outcome] and [convert_to_score] make [action:cost:probability] and more
    [action:probability]. *)
Definition convert_to_score (action_id_str probability_str : string_view) : io_result action_score :=
  do action_id <- int_of action_id_str;
  do p <- float_of probability_str;
  do p <- check_nan p;
  Done (ActionScore (u32 action_id) (clamp_probability p)).

Definition parse_outcome (outcome : string_view) : io_result ccb_outcome :=
  match tokenize Byte.x2c outcome false with
  | [] => Undefined
  | first :: rest =>
      match tokenize Byte.x3a first false with
      | [a; c; p] =>
          do score <- convert_to_score a p;
          do cost <- float_of c;
          do cost <- check_nan cost;
          do others <- map_io (fun s => match tokenize Byte.x3a s false with
                                        | [a; p] => convert_to_score a p
                                        | _ => Throw
                                        end) rest;
          Done (CcbOutcome cost (score :: others))
      | _ => Throw
      end
  end.

Definition parse_explicit_inclusions (split_inclusions : list string_view) (included : list Z) : io_result (list Z) :=
  do ns <- map_io (fun s => do n <- int_of s; Done (u32 n)) split_inclusions; Done (included ++ ns).

Fixpoint ccb_slot_words (words : list string_view) (outcome : option ccb_outcome) (included : list Z) :
    io_result (option ccb_outcome * list Z) :=
  match words with
  | [] => Done (outcome, included)
  | w :: words =>
      match find_byte Byte.x3a (chars w) with
      | Some _ =>
          match outcome with
          | Some _ => Throw
          | None => do o <- parse_outcome w; ccb_slot_words words (Some o) included
          end
      | None => do included <- parse_explicit_inclusions (tokenize Byte.x2c w false) included; ccb_slot_words words outcome included
      end
  end.

(** [are_same(total, 1)]: the scores of a full distribution sum to 1. *)
Definition fabs (x : f32) : f32 := SFabs x.
Definition VW_DEFAULT_TOLERANCE : f32 := @narrow _ _ widen_f32_f64 (@nlit f64 num_f64 (1 # 10000)).
Definition are_same (lhs rhs : f32) : bool := (fabs (lhs - rhs) <? VW_DEFAULT_TOLERANCE)%num.
Definition sums_to_one (scores : list action_score) : bool :=
  are_same (fold_left (fun result_so_far a => result_so_far + as_score a)%num scores f32_zero) f32_one.
Definition full_distribution_ok (scores : list action_score) : bool := (length scores <=? 1)%nat || sums_to_one scores.

Definition CCB_LABEL : list byte := str "ccb".
Definition parse_ccb_label (words : list string_view) (ld : ccb_label) : io_result ccb_label :=
  match words with
  | ccb :: type :: rest =>
      if negb (is_word CCB_LABEL ccb) then Throw
      else if is_word SHARED_TYPE type then
        match rest with [] => Done (CcbLabel SHARED (ccb_outcome_ptr ld) (explicit_included_actions ld) f32_one) | _ => Throw end
      else if is_word ACTION_TYPE type then
        match rest with [] => Done (CcbLabel ACTION (ccb_outcome_ptr ld) (explicit_included_actions ld) f32_one) | _ => Throw end
      else if is_word SLOT_TYPE type then
        if (2 <? length rest)%nat then Throw
        else
          do (outcome, included) <- ccb_slot_words rest (ccb_outcome_ptr ld) (explicit_included_actions ld);
          if match outcome with Some o => full_distribution_ok (cco_probabilities o) | None => true end
          then Done (CcbLabel SLOT outcome included f32_one)
          else Throw
      else Throw
  | _ => Throw
  end.

(** ** Slates labels *)

Definition SLATES_LABEL : list byte := str "slates".
Definition slates_score (token : string_view) : io_result action_score :=
  match tokenize Byte.x3a token false with
  | [a; p] => do a <- int_of a; do p <- float_of p; Done (ActionScore (u32 a) p)
  | _ => Throw
  end.
Definition parse_slates_label (words : list string_view) (ld : slates_label) : io_result slates_label :=
  match words with
  | slates :: type :: rest =>
      if negb (is_word SLATES_LABEL slates) then Throw
      else if is_word SHARED_TYPE type then
        match rest with
        | [] => Done (SlatesLabel SHARED f32_one (sla_labeled ld) (sla_cost ld) (sla_slot_id ld) (sla_probabilities ld))
        | [c] => do c <- float_of c; Done (SlatesLabel SHARED f32_one true c (sla_slot_id ld) (sla_probabilities ld))
        | _ => Throw
        end
      else if is_word ACTION_TYPE type then
        match rest with
        | [s] => do s <- int_alone s; Done (SlatesLabel ACTION f32_one (sla_labeled ld) (sla_cost ld) (u32 s) (sla_probabilities ld))
        | _ => Throw
        end
      else if is_word SLOT_TYPE type then
        match rest with
        | [] => Done (SlatesLabel SLOT f32_one (sla_labeled ld) (sla_cost ld) (sla_slot_id ld) (sla_probabilities ld))
        | [ps] =>
            do scores <- map_io slates_score (tokenize Byte.x2c ps false);
            let scores := sla_probabilities ld ++ scores in
            if full_distribution_ok scores
            then Done (SlatesLabel SLOT f32_one true (sla_cost ld) (sla_slot_id ld) scores)
            else Throw
        | _ => Throw
        end
      else Throw
  | _ => Throw
  end.

(** ** Labels of continuous actions *)

Definition CA_LABEL : list byte := str "ca".
Definition PDF : list byte := str "pdf".
Definition CHOSEN_ACTION : list byte := str "chosen_action".

(** [is_valid_pdf] of [prob_dist_cont.cc]: the bounds are [double]s. *)
Definition is_valid_pdf (pdf : list pdf_segment) : bool :=
  let mass := fold_left (fun mass s => mass + (seg_right s - seg_left s) * seg_pdf_value s)%num pdf f32_zero in
  let mass := @widen _ _ widen_f32_f64 mass in
  negb (@nltb f64 num_f64 mass (@nlit f64 num_f64 (9999 # 10000)) || @nltb f64 num_f64 (@nlit f64 num_f64 (10001 # 10000)) mass).

Fixpoint pdf_segments (words : list string_view) (pdf : list pdf_segment) : io_result (list pdf_segment) :=
  match words with
  | [] => Done pdf
  | w :: words =>
      if is_word CHOSEN_ACTION w then Done pdf
      else match tokenize Byte.x3a w false with
           | l :: r :: v :: _ =>
               do l <- float_of l; do r <- float_of r; do v <- float_of v; pdf_segments words (pdf ++ [PdfSegment l r v])
           | _ => pdf_segments words pdf
           end
  end.
Definition parse_pdf (words : list string_view) (rf : continuous_reduction_features) : io_result continuous_reduction_features :=
  do pdf <- pdf_segments words (crf_pdf rf);
  Done (ContinuousRF (if is_valid_pdf pdf then pdf else []) (chosen_action rf)).

Fixpoint parse_chosen_action (words : list string_view) (rf : continuous_reduction_features) : io_result continuous_reduction_features :=
  match words with
  | [] => Done rf
  | w :: words =>
      match tokenize Byte.x3a w false with
      | [] => parse_chosen_action words rf
      | a :: _ => do a <- float_of a; Done (ContinuousRF (crf_pdf rf) a)
      end
  end.

Definition ca_cost (word : string_view) : io_result continuous_label_elm :=
  let tokens := tokenize Byte.x3a word false in
  match tokens with
  | [] => Throw
  | a :: args =>
      if (3 <? length args)%nat then Throw
      else
        do action <- float_of a;
        do cost <- optional_float (args !! 0%nat) FLT_MAX;
        do cost <- check_nan cost;
        do v <- optional_float (args !! 1%nat) f32_zero;
        do v <- check_nan v;
        Done (ContinuousElm action cost (if (v <? f32_zero)%num then f32_zero else v))
  end.

(** The words after the first; [previous] is the word before. *)
Fixpoint ca_words (previous : string_view) (words : list string_view) (costs : list continuous_label_elm) (rf : continuous_reduction_features) :
    io_result (list continuous_label_elm * continuous_reduction_features) :=
  match words with
  | [] => Done (costs, rf)
  | w :: words =>
      if is_word PDF w then do rf <- parse_pdf words rf; ca_words w words costs rf
      else if is_word CHOSEN_ACTION w then do rf <- parse_chosen_action words rf; ca_words w words costs rf
      else if is_word CA_LABEL previous then do f <- ca_cost w; ca_words w words (costs ++ [f]) rf
      else ca_words w words costs rf
  end.
Definition parse_continuous_label (words : list string_view) (rf : continuous_reduction_features) :
    io_result (continuous_label * continuous_reduction_features) :=
  match words with
  | [] => Done (ContinuousLabel [], rf)
  | ca :: words =>
      if negb (is_word CA_LABEL ca) then Throw
      else do (costs, rf) <- ca_words ca words [] rf; Done (ContinuousLabel costs, rf)
  end.

(** ** [label_parser::parse_label] of every type *)

Definition parse_label (t : label_type_t) (ldict : option named_labels) (words : list string_view) (l : polylabel) (rf : reduction_features) :
    io_result (polylabel * reduction_features) :=
  match t with
  | SIMPLE =>
      do (x, r) <- parse_simple_label words (simple l) (simple_rf rf);
      Done (set_simple x l, ReductionFeatures r (continuous_rf rf) (graph_feedback_rf rf))
  | MULTICLASS => do x <- parse_multiclass_label ldict words (multi l); Done (set_multi x l, rf)
  | CS => do x <- parse_cs_label ldict words; Done (set_cs x l, rf)
  | CB =>
      do (x, g) <- parse_label_cb words (cb l) (graph_feedback_rf rf);
      Done (set_cb x l, ReductionFeatures (simple_rf rf) (continuous_rf rf) g)
  | CB_EVAL =>
      do (x, g) <- parse_label_cb_eval words (cb_eval l) (graph_feedback_rf rf);
      Done (set_cb_eval x l, ReductionFeatures (simple_rf rf) (continuous_rf rf) g)
  | CB_WITH_OBSERVATIONS => Throw
  | MULTILABEL => do x <- parse_multilabel words (multilabels l); Done (set_multilabels x l, rf)
  | CCB => do x <- parse_ccb_label words (conditional_contextual_bandit l); Done (set_conditional_contextual_bandit x l, rf)
  | SLATES => do x <- parse_slates_label words (slates l); Done (set_slates x l, rf)
  | NOLABEL => Done (l, rf)
  | CONTINUOUS =>
      do (x, r) <- parse_continuous_label words (continuous_rf rf);
      Done (set_cb_cont x l, ReductionFeatures (simple_rf rf) r (graph_feedback_rf rf))
  end.

(** [parse_example_label]: a label given as a string of its own. *)
Definition parse_example_label (t : label_type_t) (ldict : option named_labels) (label : string_view) (l : polylabel) (rf : reduction_features) :
    io_result (polylabel * reduction_features) :=
  parse_label t ldict (tokenize Byte.x20 label false) l rf.

(** * Theorems *)

(** ** Floats that are numbers *)

Definition is_number (x : f32) : Prop := isnan x = false.
(** A probability: between 0 and 1. *)
Definition probability (p : f32) : Prop := (f32_zero <=? p)%num = true /\ (p <=? f32_one)%num = true.

Lemma sf_compare_swap x y : SFcompare y x = CompOpp <$> SFcompare x y.
Proof.
  destruct x as [s| s | | s m e], y as [s'| s' | | s' m' e']; cbn; try done; try (by destruct s); try (by destruct s'); try (by destruct s, s').
  rewrite (Z.compare_antisym e e'). change (Pos.compare_cont Eq m m') with (m ?= m')%positive.
  change (Pos.compare_cont Eq m' m) with (m' ?= m)%positive. rewrite (Pos.compare_antisym m m').
  destruct s, s'; cbn; try done; destruct (e ?= e')%Z; cbn; try done; by destruct (m ?= m')%positive.
Qed.

Lemma number_compare x y : is_number x -> is_number y -> is_Some (SFcompare x y).
Proof.
  unfold is_number. destruct x as [s| s | | s m e], y as [s'| s' | | s' m' e']; cbn; try done; intros _ _;
    try (by eexists); try (by destruct s; eexists); try (by destruct s'; eexists); by destruct s, s'; eexists.
Qed.

Lemma number_ge x y : is_number x -> is_number y -> (x <? y)%num = false -> (y <=? x)%num = true.
Proof.
  intros Hx Hy. cbn. unfold SFltb, SFleb. rewrite (sf_compare_swap x y). destruct (number_compare x y Hx Hy) as [c ->]. by destruct c.
Qed.

Lemma clamp_ok p : is_number p -> probability (clamp_probability p).
Proof.
  intros Hp. unfold clamp_probability, probability. destruct (p >? f32_one)%num eqn:E1; [by vm_compute|].
  destruct (p <? f32_zero)%num eqn:E0; [by vm_compute|]. by split; apply number_ge.
Qed.

Lemma done_bind {A B} (m : io_result A) (f : A -> io_result B) y : io_bind m f = Done y -> exists x, m = Done x /\ f x = Done y.
Proof. destruct m; try done. intros E. by exists a. Qed.

Lemma float_of_number s x : float_of s = Done x -> is_number x.
Proof.
  unfold float_of, float_of_string. destruct (parse_float _ _ _ _) as [[f k]|]; [|done]. cbn. intros [= <-].
  destruct (((k =? 0)%nat && negb (view_empty s)) || isnan f) eqn:E; [done|]. by apply orb_false_iff in E as [_ E].
Qed.

Lemma check_nan_number x y : check_nan x = Done y -> y = x /\ is_number x.
Proof. unfold check_nan, is_number. destruct (isnan x); [done|]. by intros [= ->]. Qed.

Lemma map_io_forall {A B} (f : A -> io_result B) (P : B -> Prop) l bs :
  (forall a b, f a = Done b -> P b) -> map_io f l = Done bs -> Forall P bs.
Proof.
  intros Hf. revert bs; induction l as [|a l IH]; cbn; intros bs; [intros [= <-]; constructor|].
  intros (b & Hb & (bs' & Hbs & [= <-])%done_bind)%done_bind. constructor; eauto.
Qed.

(** Take apart a computation that came to a result. *)
Ltac io_done :=
  repeat match goal with
  | H : io_bind _ _ = Done _ |- _ => apply done_bind in H as (? & ? & ?)
  | x : (_ * _)%type |- _ => destruct x
  | H : Done _ = Done _ |- _ => injection H as H; subst
  | H : Throw = Done _ |- _ => discriminate H
  | H : Undefined = Done _ |- _ => discriminate H
  | H : (if ?b then _ else _) = Done _ |- _ => let E := fresh "E" in destruct b eqn:E
  | H : (if ?b then Throw else _) = Done _ |- _ => let E := fresh "E" in destruct b eqn:E
  | H : float_of _ = Done _ |- _ => apply float_of_number in H
  | H : check_nan _ = Done _ |- _ => apply check_nan_number in H as [-> ?]
  end.

(** ** What a parsed label is *)

Definition cb_class_wf (c : cb_class) : Prop :=
  is_number (cb_cost c) /\ word32 (cb_action c) /\ (probability (cb_probability c) \/ cb_probability c = f32_minus_one).
Definition score_wf (a : action_score) : Prop := word32 (as_action a) /\ is_number (as_score a).
Definition triplet_wf (t : triplet) : Prop := 0 <= tr_row t < 2 ^ 64 /\ 0 <= tr_col t < 2 ^ 64 /\ is_number (tr_val t).

(** Numbers are not NaN and identifiers fit their type. The probabilities of contextual bandits,
    conditional ones included, lie between 0 and 1; those of slates are only numbers, as their parser
    does not clamp them. A distribution of several scores sums to 1, in both. *)
Definition label_wf (t : label_type_t) (l : polylabel) (rf : reduction_features) : Prop :=
  match t with
  | SIMPLE => is_number (sl_label (simple l)) /\ is_number (slrf_weight (simple_rf rf)) /\ is_number (slrf_initial (simple_rf rf))
  | MULTICLASS => word32 (mc_label (multi l)) /\ is_number (mc_weight (multi l))
  | CS => Forall (fun c => is_number (cs_x c) /\ word32 (cs_class_index c)) (cs_costs (cs l))
  | CB => Forall cb_class_wf (cb_costs (cb l)) /\ Forall triplet_wf (graph_feedback_rf rf)
  | CB_EVAL => word32 (cbe_action (cb_eval l)) /\ Forall cb_class_wf (cb_costs (cbe_event (cb_eval l))) /\ Forall triplet_wf (graph_feedback_rf rf)
  | CB_WITH_OBSERVATIONS => True
  | MULTILABEL => Forall word32 (label_v (multilabels l))
  | CCB => Forall word32 (explicit_included_actions (conditional_contextual_bandit l)) /\
      match ccb_outcome_ptr (conditional_contextual_bandit l) with
      | Some o => is_number (cco_cost o) /\ cco_probabilities o <> [] /\
          Forall (fun a => word32 (as_action a) /\ probability (as_score a)) (cco_probabilities o) /\
          full_distribution_ok (cco_probabilities o) = true
      | None => True
      end
  | SLATES => word32 (sla_slot_id (slates l)) /\ is_number (sla_cost (slates l)) /\ Forall score_wf (sla_probabilities (slates l)) /\
      full_distribution_ok (sla_probabilities (slates l)) = true
  | NOLABEL => True
  | CONTINUOUS =>
      Forall (fun c => is_number (cle_action c) /\ is_number (cle_cost c) /\ (f32_zero <=? cle_pdf_value c)%num = true) (cl_costs (cb_cont l)) /\
      (crf_pdf (continuous_rf rf) = [] \/ is_valid_pdf (crf_pdf (continuous_rf rf)) = true)
  end.

Definition dict_wf (ldict : option named_labels) : Prop :=
  match ldict with Some d => Forall (fun kv => word32 kv.2) (m_name2id d) | None => True end.

Lemma get_id_word s d : dict_wf (Some d) -> word32 (get_id s d).
Proof.
  cbn. unfold get_id. induction 1 as [|[k v] l Hv _ IH]; [done|]. cbn. by case_decide.
Qed.

Lemma label_id_word ldict w i : dict_wf ldict -> label_id ldict w = Done i -> word32 i.
Proof. destruct ldict; cbn; intros Hd E; io_done; [by apply get_id_word|apply u32_word]. Qed.

Lemma u64_range z : 0 <= u64 z < 2 ^ 64.
Proof. by apply Z.mod_pos_bound. Qed.

#[local] Hint Resolve u32_word u64_range clamp_ok get_id_word label_id_word : core.

Lemma cs_word_wf ldict w c : dict_wf ldict -> cs_word ldict w = Done c -> is_number (cs_x c) /\ word32 (cs_class_index c).
Proof.
  intros Hd. unfold cs_word, name_value.
  assert (forall name, word32 match ldict with Some dict => get_id (chars name) dict | None => hash_of name end) as Hid.
  { intros name. destruct ldict; [auto|apply u32_word]. }
  assert (forall x, is_number x -> is_number (if (x >=? f32_zero)%num then FLT_MAX else x)) as Hx by (intros; by case_if).
  destruct (tokenize _ _ _) as [|n [|v [|u [|]]]]; cbn; intros E; io_done; cbn; split; auto; done.
Qed.

Lemma parse_cs_wf ldict words ld : dict_wf ldict -> parse_cs_label ldict words = Done ld ->
  Forall (fun c => is_number (cs_x c) /\ word32 (cs_class_index c)) (cs_costs ld).
Proof.
  intros Hd. unfold parse_cs_label.
  assert (forall ld, (do cs <- map_io (cs_word ldict) words; Done (CsLabel cs)) = Done ld ->
    Forall (fun c => is_number (cs_x c) /\ word32 (cs_class_index c)) (cs_costs ld)) as Hcosts.
  { intros ld' E. io_done. eapply map_io_forall; [|done]. intros. by eapply cs_word_wf. }
  destruct words as [|w [|]]; [by apply Hcosts| |by apply Hcosts]. intros ((tokens & x) & _ & E)%done_bind.
  destruct tokens as [|name rest]; [done|]. destruct (_ || _) in E.
  - destruct rest; injection E as <-; repeat constructor; done.
  - destruct (_ || _) in E; [|by apply Hcosts]. destruct rest as [|c [|]]; io_done; repeat constructor; done.
Qed.

Lemma optional_number o x y : is_number x -> optional_float o x = Done y -> is_number y.
Proof. destruct o; cbn; intros Hx E; io_done; done. Qed.

Lemma cb_word_wf w c name : cb_word w = Done (c, name) -> cb_class_wf c.
Proof.
  unfold cb_word. destruct (tokenize _ _ _) as [|n args]; [done|]. intros E. io_done. split_and!; cbn; [done|apply u32_word|].
  destruct (is_word _ _ && _); auto.
Qed.

Lemma graph_wf words : forall ts ts', Forall triplet_wf ts -> parse_graph_feedback_matrix words ts = Done ts' -> Forall triplet_wf ts'.
Proof.
  induction words as [|w words IH]; intros ts ts' Hts; cbn; [by intros [= <-]|].
  destruct (tokenize _ _ _) as [|a [|b [|c [|]]]]; try done; [by intros [= <-]|destruct (chars a); intros E; io_done; done|].
  intros E. io_done. eapply IH; [|done]. apply Forall_app. split; [done|]. repeat constructor; cbn; auto using u64_range; apply u64_range.
Qed.

Lemma cb_words_wf words : forall costs g costs' g', Forall cb_class_wf costs -> Forall triplet_wf g ->
  cb_words words costs g = Done (costs', g') -> Forall cb_class_wf costs' /\ Forall triplet_wf g'.
Proof.
  induction words as [|w words IH]; intros costs g costs' g' Hc Hg; cbn; [by intros [= <- <-]|].
  intros ((f & name) & Hw%cb_word_wf & E)%done_bind. io_done.
  - destruct (last costs); [|done]. io_done. split; [done|]. by eapply graph_wf.
  - eapply IH; [| |done]; [|done]. apply Forall_app. by split; [|constructor].
Qed.

Lemma convert_wf a p s : convert_to_score a p = Done s -> word32 (as_action s) /\ probability (as_score s).
Proof. unfold convert_to_score. intros E. io_done. cbn. auto. Qed.

Lemma parse_outcome_wf w o : parse_outcome w = Done o ->
  is_number (cco_cost o) /\ cco_probabilities o <> [] /\ Forall (fun a => word32 (as_action a) /\ probability (as_score a)) (cco_probabilities o).
Proof.
  unfold parse_outcome. destruct (tokenize _ w _) as [|first rest]; [done|]. destruct (tokenize _ first _) as [|a [|c [|p [|]]]]; try done.
  intros E. io_done. cbn. split_and!; [done|done|]. constructor; [by eapply convert_wf|]. eapply map_io_forall; [|done].
  intros t s. cbn. destruct (tokenize _ t _) as [|? [|? [|]]]; try done. apply convert_wf.
Qed.

Lemma map_u32_wf l ns : map_io (fun s => do n <- int_of s; Done (u32 n)) l = Done ns -> Forall word32 ns.
Proof. apply map_io_forall. intros a b E. io_done. auto. Qed.

Definition outcome_wf (o : option ccb_outcome) : Prop :=
  match o with
  | Some o => is_number (cco_cost o) /\ cco_probabilities o <> [] /\ Forall (fun a => word32 (as_action a) /\ probability (as_score a)) (cco_probabilities o)
  | None => True
  end.
Lemma ccb_slot_wf words : forall o inc o' inc', outcome_wf o -> Forall word32 inc -> ccb_slot_words words o inc = Done (o', inc') ->
  outcome_wf o' /\ Forall word32 inc'.
Proof.
  induction words as [|w words IH]; intros o inc o' inc' Ho Hi; cbn; [by intros [= <- <-]|].
  destruct (find_byte _ _).
  - destruct o; [done|]. intros E. io_done. eapply IH; [| |done]; [|done]. by apply parse_outcome_wf in H.
  - unfold parse_explicit_inclusions. intros E. io_done. eapply IH; [| |done]; [done|]. apply Forall_app. split; [done|]. by eapply map_u32_wf.
Qed.

Definition ca_wf (c : continuous_label_elm) : Prop :=
  is_number (cle_action c) /\ is_number (cle_cost c) /\ (f32_zero <=? cle_pdf_value c)%num = true.
Definition pdf_wf (rf : continuous_reduction_features) : Prop := crf_pdf rf = [] \/ is_valid_pdf (crf_pdf rf) = true.

Lemma ca_cost_wf w c : ca_cost w = Done c -> ca_wf c.
Proof.
  unfold ca_cost. destruct (tokenize _ _ _) as [|n args]; [done|]. intros E. io_done; split_and!; cbn; try done.
  case_if; [done|by apply number_ge].
Qed.

Lemma parse_pdf_wf words rf rf' : parse_pdf words rf = Done rf' -> pdf_wf rf'.
Proof. unfold parse_pdf, pdf_wf. intros (pdf & _ & [= <-])%done_bind. cbn. destruct (is_valid_pdf pdf) eqn:E; auto. Qed.

Lemma parse_chosen_wf words : forall rf rf', pdf_wf rf -> parse_chosen_action words rf = Done rf' -> pdf_wf rf'.
Proof.
  induction words as [|w words IH]; intros rf rf' Hrf; cbn; [by intros [= <-]|].
  destruct (tokenize _ _ _); [by apply IH|]. intros E. by io_done.
Qed.

Lemma ca_words_wf words : forall prev costs rf costs' rf', Forall ca_wf costs -> pdf_wf rf ->
  ca_words prev words costs rf = Done (costs', rf') -> Forall ca_wf costs' /\ pdf_wf rf'.
Proof.
  induction words as [|w words IH]; intros prev costs rf costs' rf' Hc Hrf; cbn [ca_words]; [by intros [= <- <-]|].
  destruct (is_word PDF w); [|destruct (is_word CHOSEN_ACTION w); [|destruct (is_word CA_LABEL prev)]].
  - intros (r & E%parse_pdf_wf & E2)%done_bind. by eapply IH.
  - intros (r & E%parse_chosen_wf & E2)%done_bind; [|done]. by eapply IH.
  - intros (c & E%ca_cost_wf & E2)%done_bind. eapply IH; [|done|done]. apply Forall_app. by split; [|constructor].
  - by apply IH.
Qed.

(** C17: Whatever the words of a label are, an accepted label is well formed in the sense of its type,
    when the label the words are added to was. No number in it is NaN and every identifier fits its
    width (32 bits; 64 in feedback graphs). For contextual bandits (also evaluated ones) each
    probability lies between 0 and 1 or is the -1 of a shared example; for conditional contextual
    bandits each lies between 0 and 1, an outcome has at least one, and several sum to 1; for slates
    the scores are numbers, of which several sum to 1, but a score is not checked to lie between 0 and
    1 ([slates_score_unclamped]). Densities of continuous actions are at least 0 and a pdf is empty or
    valid. A label with observations has no text form and is never accepted; with no label type
    nothing changes. *)
Theorem parsed_label_wf t ldict words l rf l' rf' :
  dict_wf ldict -> label_wf t l rf -> parse_label t ldict words l rf = Done (l', rf') ->
  label_wf t l' rf' /\ t <> CB_WITH_OBSERVATIONS /\ (t = NOLABEL -> l' = l /\ rf' = rf).
Proof.
  intros Hd Hwf E. split; [|by destruct t; cbn in E; split; try done; injection E as <- <-].
  revert E. destruct t; cbn [parse_label].
  - intros ((x & r) & E & [= <- <-])%done_bind. revert E. destruct Hwf as (H1 & H2 & H3).
    destruct words as [|? [|? [|? [|]]]]; cbn; intros E; io_done; done.
  - intros ((x & g) & E & [= <- <-])%done_bind. cbn. unfold parse_label_cb in E. io_done. destruct Hwf. by eapply cb_words_wf.
  - intros ((x & g) & E & [= <- <-])%done_bind. cbn. destruct Hwf as (H1 & H2 & H3), words as [|a [|b words]]; try done.
    cbn [parse_label_cb_eval] in E. unfold parse_label_cb in E. io_done. cbn. split; [apply u32_word|]. by eapply cb_words_wf.
  - done.
  - intros (x & E & [= <- <-])%done_bind. cbn. by eapply parse_cs_wf.
  - intros (x & E & [= <- <-])%done_bind. cbn in *. destruct words as [|w [|]]; cbn in E; io_done; try done.
    apply Forall_app. split; [done|]. by eapply map_u32_wf.
  - intros (x & E & [= <- <-])%done_bind. destruct Hwf as [H1 H2].
    destruct words as [|? [|? [|]]]; cbn in E |- *; io_done; cbn; eauto. split; [by eapply label_id_word|done].
  - intros (x & E & [= <- <-])%done_bind. cbn in *. destruct Hwf as [Hi Ho]. unfold parse_ccb_label in E.
    destruct words as [|a [|ty words]]; try done. destruct (negb _); [done|].
    destruct (is_word SHARED_TYPE ty); [destruct words; io_done; by split|]. destruct (is_word ACTION_TYPE ty); [destruct words; io_done; by split|].
    destruct (is_word SLOT_TYPE ty); [|done]. destruct (_ <? _)%nat; [done|]. apply done_bind in E as ((o & inc) & E & E2).
    apply ccb_slot_wf in E as [Ho' Hi']; [|by destruct (ccb_outcome_ptr _); [split_and!; apply Ho|]|done].
    destruct o as [o|]; [|io_done; by split]. destruct (full_distribution_ok _) eqn:Ef; [|done]. io_done. cbn. split_and!; try done; apply Ho'.
  - intros (x & E & [= <- <-])%done_bind. cbn in *. destruct Hwf as (Hs & Hc & Hp & Hf). unfold parse_slates_label in E.
    destruct words as [|a [|ty words]]; try done. destruct (negb _); [done|].
    destruct (is_word SHARED_TYPE ty); [destruct words as [|? [|]]; io_done; by split_and!|].
    destruct (is_word ACTION_TYPE ty); [destruct words as [|? [|]]; io_done; split_and!; try done; apply u32_word|].
    destruct (is_word SLOT_TYPE ty); [|done]. destruct words as [|ps [|]]; [io_done; by split_and!| |done].
    apply done_bind in E as (scores & E & E2). destruct (full_distribution_ok _) eqn:Ef; [|done]. io_done. cbn. split_and!; try done.
    apply Forall_app. split; [done|]. eapply map_io_forall; [|done]. intros tk s. unfold slates_score.
    destruct (tokenize _ tk _) as [|? [|? [|]]]; try done. intros E'. io_done. split; [apply u32_word|done].
  - done.
  - intros ((x & r) & E & [= <- <-])%done_bind. cbn in *. destruct Hwf as [_ Hp], words as [|ca words]; cbn in E.
    + injection E as <- <-. by split.
    + destruct (negb _); [done|]. io_done. cbn. eapply ca_words_wf; done.
Qed.

(** A cost-sensitive label that is nothing but colons makes the parser read the first of no
    tokens, before the check that would refuse it. *)
Theorem cs_label_of_colons_undefined (ldict : option named_labels) (word : string_view) :
  Forall (fun c => c = Byte.x3a) (chars word) -> parse_cs_label ldict [word] = Undefined.
Proof.
  intros Hall. unfold parse_cs_label, name_value.
  assert (tokenize Byte.x3a word false = []) as ->; [|done]. apply (fmap_nil_inv chars). rewrite (proj1 (tokenize_fields Byte.x3a word)).
  induction Hall as [|c l -> _ IH]; cbn [splits]; [|rewrite decide_True by done]; by rewrite filter_cons_False by auto.
Qed.

(** * Witnesses *)

Definition sample_polylabel : polylabel :=
  PolyLabel simple_reset multiclass_reset cs_reset cb_reset continuous_reset ccb_reset slates_reset cb_eval_reset multilabel_reset cb_with_observations_reset.
Definition sample_rf : reduction_features := ReductionFeatures simple_rf_reset continuous_rf_clear [].

(** [2:0.5:1.7] and [3:1 ]: the probability is clamped. *)
Lemma parsed_label_wf_witness :
  exists l' rf', parse_label CB None (tokenize Byte.x20 (literal (str "2:0.5:1.7 3:1 ")) false) sample_polylabel sample_rf = Done (l', rf') /\
    label_wf CB l' rf' /\ (cb_action <$> cb_costs (cb l')) = [2; 3] /\ (cb_probability <$> cb_costs (cb l')) = [f32_one; f32_zero].
Proof.
  destruct (parse_label CB None (tokenize Byte.x20 (literal (str "2:0.5:1.7 3:1 ")) false) sample_polylabel sample_rf) as [[l' rf']| | |] eqn:E;
    try (exfalso; vm_compute in E; congruence).
  exists l', rf'. split; [reflexivity|]. split.
  - refine (proj1 (parsed_label_wf CB None _ sample_polylabel sample_rf l' rf' I _ E)). split; constructor.
  - assert (Done (l', rf') = Done (l', rf')) as E2 by reflexivity. rewrite <- E in E2 at 1. vm_compute in E2. injection E2 as <- <-. split; reflexivity.
Defined.

(** [slates slot 1:7]: the score of the only action of a slot is kept as it is, above 1; the same
    probability of a [ccb] slot is clamped to 1. *)
Example slates_score_unclamped :
  (do (l, _) <- parse_label SLATES None (tokenize Byte.x20 (literal (str "slates slot 1:7")) false) sample_polylabel sample_rf;
   Done (as_score <$> sla_probabilities (slates l))) = Done [n_of_Z 7] /\
  (do (l, _) <- parse_label CCB None (tokenize Byte.x20 (literal (str "ccb slot 1:0:7")) false) sample_polylabel sample_rf;
   Done (option_map (fun o => as_score <$> cco_probabilities o) (ccb_outcome_ptr (conditional_contextual_bandit l)))) = Done (Some [f32_one]).
Proof. split; vm_compute; reflexivity. Qed.

Lemma cs_label_of_colons_undefined_witness : parse_cs_label None (tokenize Byte.x20 (literal (str "::")) false) = Undefined.
Proof. apply (cs_label_of_colons_undefined None (View (str "::") [Byte.x00])). repeat constructor. Defined.
