(* ===== verification/TextParser.v ===== *)
(** * The text format ([text_parser/src/parse_example_text.cc])

    A line of text made into an example: the label and the tag before the first bar, then the
    recursive descent of [tc_parser] over namespaces and features, with the derived namespaces
    (affixes, spellings, dictionaries) and audit names. *)

From Stdlib Require Import Floats.SpecFloat.
From Stdlib Require Import Numbers.DecimalString.
From S2P Require Import Prelude.
From S2P Require Import FloatBytes.
From S2P Require Import Hash.
From S2P Require Import Features.
From S2P Require Import IoBuf.
From S2P Require Import Labels.
From S2P Require Import CacheParser.
From S2P Require Import TextUtils.
From S2P Require Import LabelText.

#[local] Existing Instance num_f32.

(** ** State *)

Definition DEFAULT_NAMESPACE : byte := Byte.x20.
Definition AFFIX_NAMESPACE : byte := byte.of_Z 132.
Definition SPELLING_NAMESPACE : byte := byte.of_Z 133.
Definition DICTIONARY_NAMESPACE : byte := byte.of_Z 135.
Definition AFFIX_CONSTANT : Z := 13903957.
Definition QUADRATIC_CONSTANT : Z := 27942141.

(** What the parser reads of the workspace. [redefine] is [None] when [redefine_some] is off; a
    dictionary finds the features of a name. *)
Record text_config := TextConfig {
  hasher : hash_func_t;
  redefine : option (byte -> byte);
  affix_features : byte -> Z;
  spelling_features : byte -> bool;
  namespace_dictionaries : byte -> list (list byte -> option (features f32));
  hash_seed : Z; parse_mask : Z; strict_parse : bool; audit : bool
}.

(** The members of [tc_parser] that change; [warnings] counts the warnings that were logged. *)
Record tc := Tc {
  read_idx : nat; cur_channel_v : f32; new_index : bool; anon : Z; channel_hash : Z;
  base : list byte; index : byte; ae : example; warnings : nat
}.
Definition set_read_idx n (st : tc) : tc := Tc n (cur_channel_v st) (new_index st) (anon st) (channel_hash st) (base st) (index st) (ae st) (warnings st).
Definition set_cur_channel_v x (st : tc) : tc := Tc (read_idx st) x (new_index st) (anon st) (channel_hash st) (base st) (index st) (ae st) (warnings st).
Definition set_anon n (st : tc) : tc := Tc (read_idx st) (cur_channel_v st) (new_index st) n (channel_hash st) (base st) (index st) (ae st) (warnings st).
Definition set_ae e (st : tc) : tc := Tc (read_idx st) (cur_channel_v st) (new_index st) (anon st) (channel_hash st) (base st) (index st) e (warnings st).
Definition add_warning (st : tc) : tc := Tc (read_idx st) (cur_channel_v st) (new_index st) (anon st) (channel_hash st) (base st) (index st) (ae st) (S (warnings st)).

(** ** Examples *)

Definition group (i : byte) (e : example) : features f32 := ex_feature_space e i.
Definition set_group (i : byte) (fs : features f32) (e : example) : example :=
  Example_ (ex_l e) (ex_reduction_features e) (ex_tag e) (ex_is_newline e) (ex_indices e) (set_space i fs (ex_feature_space e)) (ex_sorted e).
Definition push_index (i : byte) (e : example) : example :=
  Example_ (ex_l e) (ex_reduction_features e) (ex_tag e) (ex_is_newline e) (ex_indices e ++ [i]) (ex_feature_space e) (ex_sorted e).
Definition set_newline (e : example) : example :=
  Example_ (ex_l e) (ex_reduction_features e) (ex_tag e) true (ex_indices e) (ex_feature_space e) (ex_sorted e).
Definition set_label (l : polylabel) (rf : reduction_features) (e : example) : example :=
  Example_ l rf (ex_tag e) (ex_is_newline e) (ex_indices e) (ex_feature_space e) (ex_sorted e).
Definition add_tag (tag : list byte) (e : example) : example :=
  Example_ (ex_l e) (ex_reduction_features e) (ex_tag e ++ tag) (ex_is_newline e) (ex_indices e) (ex_feature_space e) (ex_sorted e).
Definition push_name (name : audit_strings) (fs : features f32) : features f32 :=
  Features f32 (values fs) (indices fs) (space_names fs ++ [name]) (namespace_extents fs) (sum_feat_sq fs).

(** A derived namespace is listed when it gets its first feature. *)
Definition list_if_empty (i : byte) (e : example) : example := match values (group i e) with [] => push_index i e | _ => e end.

(** ** Derived features *)

Section Derived.
Context (cfg : text_config).

(** A name that C code took from characters ends at the first NUL. *)
Fixpoint c_string (l : list byte) : list byte :=
  match l with [] => [] | c :: l => if is_chr Byte.x00 c then [] else c :: c_string l end.
Definition index_prefix (i : byte) : list byte := if is_chr Byte.x20 i then [] else [i].

(** Prefixes and suffixes of the name: four bits of [affix] each, the length and which end. *)
Definition affix_name (is_prefix : bool) (len : nat) (name : list byte) : list byte :=
  if (len <? length name)%nat then (if is_prefix then take len name else drop (length name - len) name) else name.
Fixpoint push_affixes (fuel : nat) (affix : Z) (i : byte) (v : f32) (hash : Z) (name : list byte) (fs : features f32) : features f32 :=
  match fuel with
  | O => fs
  | S fuel =>
      if affix =? 0 then fs
      else
        let is_prefix := Z.testbit affix 0 in
        let len := Z.land (Z.shiftr affix 1) 0x7 in
        let a_name := affix_name is_prefix (Z.to_nat len) name in
        let word_hash := u64 (run_hasher (hasher cfg) a_name hash * u64 (AFFIX_CONSTANT + Z.land affix 0xF * QUADRATIC_CONSTANT)) in
        let fs := push_back_ns v word_hash (byte_val AFFIX_NAMESPACE) fs in
        let fs := if audit cfg
                  then push_name (AuditStrings (str "affix")
                         (c_string (index_prefix i ++ [if is_prefix then Byte.x2b else Byte.x2d; byte.of_Z (48 + len); Byte.x3d] ++ a_name)) []) fs
                  else fs in
        push_affixes fuel (Z.shiftr affix 4) i v hash name fs
  end.
Definition add_affixes (i : byte) (v : f32) (hash : Z) (name : list byte) (e : example) : example :=
  match name with
  | [] => e
  | _ =>
      if 0 <? affix_features cfg i then
        let e := list_if_empty AFFIX_NAMESPACE e in
        set_group AFFIX_NAMESPACE (push_affixes 16 (affix_features cfg i) i v hash name (group AFFIX_NAMESPACE e)) e
      else e
  end.

(** The shape of a name: digits, letters by case, points. *)
Definition spelling_char (c : byte) : byte :=
  if is_digit c then Byte.x30 else if is_lower c then Byte.x61 else if is_upper c then Byte.x41
  else if is_chr Byte.x2e c then Byte.x2e else Byte.x23.
Definition add_spelling (i : byte) (v : f32) (hash : Z) (name : list byte) (e : example) : example :=
  if spelling_features cfg i then
    let e := list_if_empty SPELLING_NAMESPACE e in
    let spelling := spelling_char <$> name in
    let fs := push_back_ns v (hashstring spelling hash) (byte_val SPELLING_NAMESPACE) (group SPELLING_NAMESPACE e) in
    let fs := if audit cfg
              then push_name (AuditStrings (str "spelling")
                     (c_string ((match index_prefix i with [] => [] | p => p ++ [Byte.x5f] end) ++ spelling)) []) fs
              else fs in
    set_group SPELLING_NAMESPACE fs e
  else e.

(** The features a dictionary has for the name are copied. *)
Definition decimal (z : Z) : list byte := str (NilZero.string_of_uint (N.to_uint (Z.to_N z))).
Definition add_dictionary (i : byte) (name : list byte) (e : example) (map : list byte -> option (features f32)) : example :=
  match map name with
  | None => e
  | Some feats =>
      match values feats with
      | [] => e
      | _ =>
          let e := list_if_empty DICTIONARY_NAMESPACE e in
          let fs := start_ns_extent (byte_val DICTIONARY_NAMESPACE) (group DICTIONARY_NAMESPACE e) in
          let names := if audit cfg
                       then (fun id => AuditStrings (str "dictionary") ([i; Byte.x5f] ++ name ++ [Byte.x3d] ++ decimal id) []) <$> indices feats
                       else [] in
          let fs := Features f32 (values fs ++ values feats) (indices fs ++ indices feats) (space_names fs ++ names) (namespace_extents fs)
                      (sum_feat_sq fs + sum_feat_sq feats)%num in
          set_group DICTIONARY_NAMESPACE (end_ns_extent fs) e
      end
  end.
Definition add_dictionaries (i : byte) (name : list byte) (e : example) : example :=
  fold_left (add_dictionary i name) (namespace_dictionaries cfg i) e.

(** What one feature adds to the example. *)
Definition add_feature (i : byte) (base : list byte) (hash : Z) (name str_value : list byte) (v : f32) (word_hash : Z) (e : example) : example :=
  let fs := push_back v word_hash (group i e) in
  let fs := if audit cfg then push_name (AuditStrings base name str_value) fs else fs in
  let e := set_group i fs e in
  add_dictionaries i name (add_spelling i v hash name (add_affixes i v hash name e)).
End Derived.

(** ** The grammar *)

Section Parser.
Context (cfg : text_config) (line : string_view).
Implicit Type st : tc.

Definition at_ st : option byte := chars line !! read_idx st.
(** The end of the line, or one of the characters. *)
Definition at_end_or (cs : list byte) st : bool := match at_ st with None => true | Some c => bool_decide (c ∈ cs) end.
Definition SPACE : byte := Byte.x20.
Definition TAB : byte := Byte.x09.
Definition BAR : byte := Byte.x7c.
Definition CR : byte := Byte.x0d.
Definition COLON : byte := Byte.x3a.

(** [parser_warning]: an exception in strict mode. *)
Definition parser_warning st : io_result tc := if strict_parse cfg then Throw else Done (add_warning st).

(** [parse_float] on the rest of the line. *)
Definition rest_of_line st : string_view := view_drop (read_idx st) line.
Definition float_at st : io_result (f32 * nat) :=
  let sv := rest_of_line st in lift (parse_float f32_infinity strtof (Some (length (chars sv))) (data sv)).

(** A value between blanks, further down the line if need be. *)
Definition is_blank_char (c : byte) : bool := bool_decide (c ∈ [SPACE; TAB; CR; Byte.x0a]).
Fixpoint blanks (l : list byte) : nat := match l with c :: l => if is_blank_char c then S (blanks l) else O | [] => O end.
Fixpoint until_blank (l : list byte) : nat := match l with c :: l => if is_blank_char c then O else S (until_blank l) | [] => O end.
Definition string_feature_value st : list byte * tc :=
  let sv := chars (rest_of_line st) in
  let start_idx := if (blanks sv <? length sv)%nat then blanks sv else O in
  let sv := drop start_idx sv in
  let end_idx := until_blank sv in
  (take end_idx sv, set_read_idx (read_idx st + start_idx + end_idx) st).

(** [is_feature_value_float]: the value, 1 if there is none; the flag is false when a value is there
    that is no number. *)
Definition is_feature_value_float st : io_result (bool * f32 * tc) :=
  if at_end_or [SPACE; TAB; BAR; CR] st then Done (true, f32_one, st)
  else if bool_decide (at_ st = Some COLON) then
    let st := set_read_idx (S (read_idx st)) st in
    do (x, end_read) <- float_at st;
    if (end_read =? 0)%nat then Done (false, x, st)
    else
      do (x, st) <- (if isnan x then do st <- parser_warning st; Done (f32_zero, st) else Done (x, st));
      Done (true, x, set_read_idx (read_idx st + end_read) st)
  else do st <- parser_warning st; Done (true, f32_zero, st).

Fixpoint name_length (l : list byte) : nat :=
  match l with c :: l => if bool_decide (c ∈ [SPACE; COLON; TAB; BAR; CR]) then O else S (name_length l) | [] => O end.
Definition read_name st : list byte * tc :=
  let l := chars (rest_of_line st) in
  (take (name_length l) l, set_read_idx (read_idx st + name_length l) st).

(** A value given as a string is hashed with the name; a feature without a name is numbered. *)
Definition hash_feature (name str_value : list byte) st : Z * tc :=
  match str_value, name with
  | _ :: _, _ => (Z.land (run_hasher (hasher cfg) str_value (run_hasher (hasher cfg) name (channel_hash st))) (parse_mask cfg), st)
  | [], _ :: _ => (Z.land (run_hasher (hasher cfg) name (channel_hash st)) (parse_mask cfg), st)
  | [], [] => (u64 (channel_hash st + anon st), set_anon (u64 (anon st + 1)) st)
  end.

Definition maybe_feature st : io_result tc :=
  if at_end_or [SPACE; TAB; BAR; CR] st then Done st
  else
    let '(name, st) := read_name st in
    do (is_float, x, st) <- is_feature_value_float st;
    let '(str_value, st) := if is_float : bool then ([], st) else string_feature_value st in
    let v := if is_float then (cur_channel_v st * x)%num else n_of_Z 1 in
    let '(word_hash, st) := hash_feature name str_value st in
    if (v =? n_of_Z 0)%num then Done st
    else Done (set_ae (add_feature cfg (index st) (base st) (channel_hash st) name str_value v word_hash (ae st)) st).

Definition name_space_info_value st : io_result tc :=
  if at_end_or [SPACE; TAB; BAR; CR] st then Done st
  else if bool_decide (at_ st = Some COLON) then
    let st := set_read_idx (S (read_idx st)) st in
    do (x, end_read) <- float_at st;
    let st := set_cur_channel_v x st in
    do st <- (if (length (chars line) <=? end_read + read_idx st)%nat then parser_warning st else Done st);
    do st <- (if isnan x then parser_warning (set_cur_channel_v f32_one st) else Done st);
    Done (set_read_idx (read_idx st + end_read) st)
  else parser_warning st.

Definition group_size (i : byte) st : nat := length (values (group i (ae st))).

Definition name_space_info st : io_result tc :=
  match at_ st with
  | None => parser_warning st
  | Some c =>
      if bool_decide (c ∈ [BAR; SPACE; TAB; COLON; CR]) then parser_warning st
      else
        let i := match redefine cfg with Some f => f c | None => c end in
        let new := new_index st || (group_size i st =? 0)%nat in
        let '(name, st) := read_name st in
        let base := if audit cfg then name else base st in
        name_space_info_value
          (Tc (read_idx st) (cur_channel_v st) new (anon st) (run_hasher (hasher cfg) name (hash_seed cfg)) base i (ae st) (warnings st))
  end.

(** The loop consumes a character at least each time. *)
Fixpoint list_features_loop (fuel : nat) st : io_result tc :=
  match fuel with
  | O => NoFuel
  | S fuel =>
      if bool_decide (at_ st = Some SPACE \/ at_ st = Some TAB)
      then do st <- maybe_feature (set_read_idx (S (read_idx st)) st); list_features_loop fuel st
      else Done st
  end.
Definition line_fuel st : nat := S (length (chars line) - read_idx st).
Definition list_features st : io_result tc :=
  do st <- list_features_loop (line_fuel st) st;
  if at_end_or [BAR; CR] st then Done st else parser_warning st.

Definition start_extent st : tc := set_ae (set_group (index st) (start_ns_extent (channel_hash st) (group (index st) (ae st))) (ae st)) st.
Definition end_extent st : tc := set_ae (set_group (index st) (end_ns_extent (group (index st) (ae st))) (ae st)) st.
Definition default_channel_hash : Z := if hash_seed cfg =? 0 then 0 else uniform_hash [] (hash_seed cfg).

(** The members set when a namespace begins. *)
Definition begin_name_space st : tc := Tc (read_idx st) f32_one false 0 (channel_hash st) (base st) Byte.x00 (ae st) (warnings st).

(** The name and the features; whether an extent was started. *)
Definition name_space_features st : io_result (bool * tc) :=
  if at_end_or [SPACE; TAB; BAR; CR] st then
    do st <- list_features (start_extent
               (Tc (read_idx st) (cur_channel_v st) (group_size DEFAULT_NAMESPACE st =? 0)%nat (anon st) default_channel_hash
                  (if audit cfg then [SPACE] else base st) DEFAULT_NAMESPACE (ae st) (warnings st)));
    Done (true, st)
  else if negb (bool_decide (at_ st = Some COLON)) then
    do st <- name_space_info st; do st <- list_features (start_extent st); Done (true, st)
  else do st <- parser_warning st; Done (false, st).

Definition name_space st : io_result tc :=
  do (did_start_extent, st) <- name_space_features (begin_name_space st);
  let st := if new_index st && (0 <? group_size (index st) st)%nat then set_ae (push_index (index st) (ae st)) st else st in
  Done (if did_start_extent : bool then end_extent st else st).

Fixpoint list_name_space_loop (fuel : nat) st : io_result tc :=
  match fuel with
  | O => NoFuel
  | S fuel =>
      if bool_decide (at_ st = Some BAR)
      then do st <- name_space (set_read_idx (S (read_idx st)) st); list_name_space_loop fuel st
      else Done st
  end.
Definition list_name_space st : io_result tc :=
  do st <- list_name_space_loop (line_fuel st) st;
  if at_end_or [CR] st then Done st else parser_warning st.

(** The constructor of [tc_parser] does the work. *)
Definition tc_parser (e : example) : io_result (example * nat) :=
  if view_empty line then Done (set_newline e, 0%nat)
  else do st <- list_name_space (Tc 0 f32_zero false 0 0 [] Byte.x00 e 0); Done (ae st, warnings st).
End Parser.

(** ** Lines *)

(** The defaults of a label type: the entry of the table does not depend on the devices. *)
Definition default_label (t : label_type_t) (l : polylabel) : polylabel :=
  lp_default_label (@get_label_parser buffer_view vector_writer _ _ (fun _ => 0) t) l.

Section Lines.
Context (cfg : text_config) (t : label_type_t) (ldict : option named_labels).

(** The words of the label and the tag: the last word is the tag if it touches the bar (or the end)
    or begins with a quote. *)
Definition label_space (example : string_view) : string_view :=
  let s := match find_byte BAR (chars example) with Some bar_idx => view_take bar_idx example | None => example end in
  match find_byte TAB (chars s) with Some tab_idx => view_drop (S tab_idx) s | None => s end.
Definition words_and_tag (s : string_view) : list string_view * list byte :=
  let words := tokenize SPACE s false in
  match last words with
  | None => (words, [])
  | Some tag =>
      let quoted := bool_decide (chars tag !! 0%nat = Some Byte.x27) in
      if (length (after tag) =? length (after s))%nat || quoted
      then (removelast words, if quoted then drop 1 (chars tag) else chars tag)
      else (words, [])
  end.

(** [substring_to_example]: the example and the number of warnings of the feature parser. *)
Definition substring_to_example (e : example) (example : string_view) : io_result (CacheParser.example * nat) :=
  let e := if view_empty example then set_newline e else e in
  let e := set_label (default_label t (ex_l e)) (ex_reduction_features e) e in
  let bar_idx := find_byte BAR (chars example) in
  let '(words, tag) := if bool_decide (bar_idx = Some 0%nat) then ([], []) else words_and_tag (label_space example) in
  let e := add_tag tag e in
  do e <- match words with
          | [] => Done e
          | _ => do (l, rf) <- parse_label t ldict words (ex_l e) (ex_reduction_features e); Done (set_label l rf e)
          end;
  match bar_idx with
  | Some bar_idx => tc_parser cfg (view_drop bar_idx example) e
  | None => Done (e, 0%nat)
  end.

(** [read_line]: line feeds at the end go. *)
Fixpoint drop_line_feeds (l : list byte) : list byte :=
  match l with c :: l' => if is_chr Byte.x0a c then drop_line_feeds l' else l | [] => [] end.
Definition read_line (e : example) (line : string_view) : io_result (example * nat) :=
  substring_to_example e (view_take (length (drop_line_feeds (rev (chars line)))) line).

(** [read_lines]: the examples given are filled first, then fresh ones. *)
Fixpoint read_each (fresh : example) (lines : list string_view) (examples : list example) : io_result (list example) :=
  match lines with
  | [] => Done examples
  | line :: lines =>
      do (e, _) <- read_line (default fresh (list.head examples)) line;
      do es <- read_each fresh lines (tail examples);
      Done (e :: es)
  end.
Definition read_lines (fresh : example) (lines_view : string_view) (examples : list example) : io_result (list example) :=
  read_each fresh (tokenize Byte.x0a lines_view false) examples.

Section Input.
Context {R W : Type} `{Reader R, Writer W} (alloc : nat -> Z).
Implicit Type b : io_buf R W.

(** [read_features]: the bytes consumed, the line without byte-order mark and line end. *)
Definition drop_bom (l : list byte) : list byte := if bool_decide (take 3 l = [byte.of_Z 239; byte.of_Z 187; byte.of_Z 191]) then drop 3 l else l.
Definition drop_last_if (c : byte) (l : list byte) : list byte := match last l with Some d => if is_chr c d then removelast l else l | None => l end.
Definition read_features b : io_result (nat * string_view * io_buf R W) :=
  do (p, n, b) <- readto alloc (read_fuel b) Byte.x0a b;
  if (n <? 1)%nat then Done (n, literal [], b)
  else
    let l := drop_bom (slice p n (mem b)) in
    let text := drop_last_if CR (drop_last_if Byte.x0a l) in
    Done (n, View text (drop (length text) l ++ drop (p + n) (mem b)), b).

(** The first example is filled; 0 bytes are the end of the input. *)
Definition read_features_string (e : example) b : io_result (nat * (example * nat) * io_buf R W) :=
  do (n, line, b) <- read_features b;
  if (n <? 1)%nat then Done (n, (e, 0%nat), b)
  else do r <- substring_to_example e line; Done (n, r, b).
End Input.
End Lines.

(** * Theorems *)

(** ** The text of an example

    Namespaces as written: a name, perhaps a value that scales the features, and features, each a
    name with perhaps a number or a string as value. A blank closes each namespace. *)

Inductive value_text := NoValue | Number (n : numeral) | Text (s : list byte).
Record feature_text := FeatureText { ft_name : list byte; ft_value : value_text }.
Record namespace_text := NamespaceText { nt_name : list byte; nt_value : option numeral; nt_features : list feature_text }.

Definition value_chars (v : value_text) : list byte :=
  match v with NoValue => [] | Number n => COLON :: numeral_text n | Text s => COLON :: s end.
Definition feature_chars (f : feature_text) : list byte := ft_name f ++ value_chars (ft_value f).
Definition scale_chars (v : option numeral) : list byte := match v with Some n => COLON :: numeral_text n | None => [] end.
Definition namespace_chars (ns : namespace_text) : list byte :=
  BAR :: nt_name ns ++ scale_chars (nt_value ns) ++ (nt_features ns ≫= fun f => SPACE :: feature_chars f) ++ [SPACE].
Definition example_chars (nss : list namespace_text) : list byte := nss ≫= namespace_chars.

Definition number_of (n : numeral) : f32 := numeral_value f32_infinity n.

(** *** What it means *)

Section Meaning.
Context (cfg : text_config).

Definition feature_value (cur : f32) (f : feature_text) : f32 :=
  match ft_value f with NoValue => (cur * f32_one)%num | Number n => (cur * number_of n)%num | Text _ => n_of_Z 1 end.
Definition value_string (f : feature_text) : list byte := match ft_value f with Text s => s | _ => [] end.

(** The hash of a feature: of the name in its namespace, of the string value in that, or the next
    number of a feature without a name. *)
Definition feature_hash (hash anon : Z) (f : feature_text) : Z * Z :=
  let h := run_hasher (hasher cfg) in
  match value_string f, ft_name f with
  | _ :: _, _ => (Z.land (h (value_string f) (h (ft_name f) hash)) (parse_mask cfg), anon)
  | [], _ :: _ => (Z.land (h (ft_name f) hash) (parse_mask cfg), anon)
  | [], [] => (u64 (hash + anon), u64 (anon + 1))
  end.

(** Features that are worth 0 are dropped. *)
Definition apply_feature (i : byte) (base : list byte) (hash : Z) (cur : f32) (a : Z * example) (f : feature_text) : Z * example :=
  let '(anon, e) := a in
  let '(word_hash, anon) := feature_hash hash anon f in
  let v := feature_value cur f in
  (anon, if (v =? n_of_Z 0)%num then e else add_feature cfg i base hash (ft_name f) (value_string f) v word_hash e).

Definition namespace_index (name : list byte) : byte :=
  match name with [] => DEFAULT_NAMESPACE | c :: _ => match redefine cfg with Some g => g c | None => c end end.
Definition namespace_hash (name : list byte) : Z :=
  match name with [] => default_channel_hash cfg | _ => run_hasher (hasher cfg) name (hash_seed cfg) end.
Definition scale_of (v : option numeral) : f32 := match v with Some n => number_of n | None => f32_one end.
Definition namespace_base (name old : list byte) : list byte :=
  if audit cfg then match name with [] => [SPACE] | _ => name end else old.

Definition open_extent (i : byte) (hash : Z) (e : example) : example := set_group i (start_ns_extent hash (group i e)) e.
Definition close_extent (i : byte) (e : example) : example := set_group i (end_ns_extent (group i e)) e.
Definition group_empty (i : byte) (e : example) : bool := (length (values (group i e)) =? 0)%nat.

(** A namespace: its features under an extent of its hash, and its index listed if its group was
    empty and is not any more. *)
Definition apply_namespace (a : list byte * example) (ns : namespace_text) : list byte * example :=
  let '(base, e) := a in
  let i := namespace_index (nt_name ns) in
  let hash := namespace_hash (nt_name ns) in
  let base := namespace_base (nt_name ns) base in
  let new := group_empty i e in
  let '(_, e) := fold_left (apply_feature i base hash (scale_of (nt_value ns))) (nt_features ns) (0, open_extent i hash e) in
  let e := if new && negb (group_empty i e) then push_index i e else e in
  (base, close_extent i e).
Definition apply_namespaces (nss : list namespace_text) (e : example) : example := (fold_left apply_namespace nss ([], e)).2.
End Meaning.

(** *** What is well formed *)

Definition name_char (c : byte) : Prop := c ∉ [SPACE; COLON; TAB; BAR; CR].
Definition name_ok (name : list byte) : Prop := Forall name_char name.
Definition number_ok (n : numeral) : Prop := numeral_ok n /\ is_number (number_of n).
(** A string value begins with a character no number begins with, and has no blank. *)
Definition value_start (c : byte) : Prop :=
  is_digit c = false /\ is_space c = false /\
  c ∉ [Byte.x00; Byte.x2d; Byte.x2b; Byte.x2e; Byte.x65; Byte.x45; Byte.x69; Byte.x49; Byte.x6e; Byte.x4e].
Definition string_ok (s : list byte) : Prop :=
  match s with c :: _ => value_start c | [] => False end /\ Forall (fun c => is_blank_char c = false) s.
Definition feature_ok (f : feature_text) : Prop :=
  name_ok (ft_name f) /\ match ft_value f with NoValue => ft_name f <> [] | Number n => number_ok n | Text s => string_ok s end.
Definition namespace_ok (ns : namespace_text) : Prop :=
  name_ok (nt_name ns) /\ match nt_value ns with Some n => number_ok n /\ nt_name ns <> [] | None => True end /\ Forall feature_ok (nt_features ns).

(** Evaluate the tests on characters that are known; prove a membership by evaluation. *)
Ltac decide_bytes :=
  repeat match goal with
  | |- context [@bool_decide ?P ?d] =>
      let b := eval vm_compute in (@bool_decide P d) in
      lazymatch b with true => change (@bool_decide P d) with true | false => change (@bool_decide P d) with false end
  end; cbn iota.
Ltac byte_in := apply (bool_decide_unpack _); vm_compute; exact I.

(** *** The cursor *)

Section Cursor.
Context (cfg : text_config) (line : string_view).
Implicit Type st : tc.

(** What is left of the line. *)
Definition cursor st (rest : list byte) : Prop := (read_idx st <= length (chars line))%nat /\ drop (read_idx st) (chars line) = rest.

Lemma cursor_at st rest : cursor st rest -> at_ line st = rest !! 0%nat.
Proof. intros [_ <-]. unfold at_. by rewrite lookup_drop, Nat.add_0_r. Qed.

Lemma cursor_skip st x rest n : cursor st (x ++ rest) -> n = length x -> cursor (set_read_idx (read_idx st + n) st) rest.
Proof.
  intros [Hle Hd] ->. unfold cursor. cbn [read_idx set_read_idx]. split.
  - apply (f_equal length) in Hd. rewrite length_drop, length_app in Hd. lia.
  - by rewrite <- drop_drop, Hd, drop_app_length.
Qed.

Lemma cursor_length st rest : cursor st rest -> (length rest = length (chars line) - read_idx st)%nat.
Proof. intros [_ <-]. by rewrite length_drop. Qed.

Lemma cursor_at_end st rest cs : cursor st rest ->
  at_end_or line cs st = match rest with [] => true | c :: _ => bool_decide (c ∈ cs) end.
Proof. intros Hc. unfold at_end_or. rewrite (cursor_at _ _ Hc). by destruct rest. Qed.

Lemma cursor_is st rest c : cursor st rest -> bool_decide (at_ line st = Some c) = match rest with [] => false | d :: _ => bool_decide (d = c) end.
Proof.
  intros Hc. rewrite (cursor_at _ _ Hc). destruct rest as [|d rest]; [done|]. cbn. destruct (decide (d = c)) as [->|Hd].
  - by rewrite !bool_decide_true.
  - rewrite !bool_decide_false by congruence. done.
Qed.

Lemma name_length_app name d rest : name_ok name -> bool_decide (d ∈ [SPACE; COLON; TAB; BAR; CR]) = true -> name_length (name ++ d :: rest) = length name.
Proof.
  intros Hn Hd. induction Hn as [|c name Hc _ IH]; cbn [app name_length length]; [by rewrite Hd|].
  by rewrite bool_decide_false, IH.
Qed.

Lemma read_name_exact st name d rest : cursor st (name ++ d :: rest) -> name_ok name -> bool_decide (d ∈ [SPACE; COLON; TAB; BAR; CR]) = true ->
  read_name line st = (name, set_read_idx (read_idx st + length name) st) /\ cursor (set_read_idx (read_idx st + length name) st) (d :: rest).
Proof.
  intros Hc Hn Hd. split; [|by eapply cursor_skip]. unfold read_name, rest_of_line, view_drop. cbn [chars]. rewrite (proj2 Hc).
  rewrite (name_length_app name d rest) by done. by rewrite take_app_length.
Qed.

Lemma number_at st n rest : cursor st (numeral_text n ++ SPACE :: rest) -> numeral_ok n ->
  float_at line st = Done (number_of n, length (numeral_text n)).
Proof.
  intros Hc Hn. unfold float_at, rest_of_line, view_drop, data. cbn [chars after]. rewrite (proj2 Hc), <- app_assoc. cbn [app].
  rewrite parse_float_numeral; [done|done|]. cbn. split_and!; try done. right. split; [by left|]. rewrite length_app. lia.
Qed.

Lemma value_start_ne c d : value_start c ->
  bool_decide (d ∈ [Byte.x00; Byte.x2d; Byte.x2b; Byte.x2e; Byte.x65; Byte.x45; Byte.x69; Byte.x49; Byte.x6e; Byte.x4e]) || is_space d = true ->
  is_chr d c = false.
Proof.
  intros (_ & Hs & Hc) Hd. apply is_chr_ne. intros ->. apply orb_true_iff in Hd as [Hd|Hd]; [|congruence]. apply Hc. by apply bool_decide_eq_true in Hd.
Qed.

Lemma lower_cases c : (lower c = 105 -> c = Byte.x69 \/ c = Byte.x49) /\ (lower c = 110 -> c = Byte.x6e \/ c = Byte.x4e) /\ (lower c = 48 -> c = Byte.x30).
Proof. destruct c; split_and!; intros E; vm_compute in E; try discriminate E; auto. Qed.

(** A string value is not taken for a number. *)
Lemma string_no_number c mem e : value_start c -> (0 < e)%nat ->
  exists x, parse_float f32_infinity strtof (Some e) (c :: mem) = Some (x, 0%nat).
Proof.
  intros Hc He. pose proof (fun d H => value_start_ne c d Hc H) as Hne. pose proof Hc as (Hdig & Hsp & Hset).
  assert (strtof (c :: mem) = Some (S754_zero false, 0%nat)) as Hstrtof.
  { unfold strtof. cbn [span]. rewrite Hsp. cbn [mbind option_bind]. unfold sign_of. cbn [lookup list_lookup mbind option_bind].
    rewrite !Hne by done. cbn [orb drop mbind option_bind]. unfold strtof_unsigned, prefix_ci, str. cbn [String.list_byte_of_string map].
    change (String.list_byte_of_string "inf") with [Byte.x69; Byte.x6e; Byte.x66].
    change (String.list_byte_of_string "nan") with [Byte.x6e; Byte.x61; Byte.x6e].
    change (String.list_byte_of_string "0x") with [Byte.x30; Byte.x78]. cbn [lookup list_lookup mbind option_bind tail].
    destruct (lower_cases c) as (H1 & H2 & H3).
    change (byte_val Byte.x69) with 105. change (byte_val Byte.x6e) with 110. change (byte_val Byte.x30) with 48.
    rewrite (proj2 (Z.eqb_neq (lower c) 105)) by (intros [->| ->]%H1; apply Hset; byte_in).
    rewrite (proj2 (Z.eqb_neq (lower c) 110)) by (intros [->| ->]%H2; apply Hset; byte_in).
    rewrite (proj2 (Z.eqb_neq (lower c) 48)) by (intros ->%H3; done).
    cbn [mbind option_bind]. unfold mantissa. cbn [span]. rewrite Hdig. cbn [mbind option_bind lookup list_lookup].
    rewrite Hne by done. done. }
  unfold parse_float. cbn [lookup list_lookup mbind option_bind]. rewrite Hne by done. cbn [skip_spaces]. rewrite Hne by done.
  cbn [andb mbind option_bind lookup list_lookup]. rewrite Hne by done. cbn [digits_loop]. rewrite Hdig. cbn [andb mbind option_bind].
  unfold parse_fraction. cbn [lookup list_lookup mbind option_bind]. rewrite Hne by done. cbn [mbind option_bind].
  unfold parse_exponent. cbn [lookup list_lookup mbind option_bind]. rewrite !Hne by done. cbn [orb andb mbind option_bind lookup list_lookup].
  rewrite !Hne by done. destruct e; [lia|]. cbn [orb Nat.eqb]. rewrite Hstrtof. by eexists.
Qed.

Lemma blanks_none c l : is_blank_char c = false -> blanks (c :: l) = 0%nat.
Proof. intros Hc. cbn. by rewrite Hc. Qed.
Lemma until_blank_app s rest : Forall (fun c => is_blank_char c = false) s -> until_blank (s ++ SPACE :: rest) = length s.
Proof. induction 1 as [|c s Hc _ IH]; [done|]. cbn [app until_blank length]. by rewrite Hc, IH. Qed.

Lemma string_value_exact st s rest : cursor st (s ++ SPACE :: rest) -> string_ok s ->
  string_feature_value line st = (s, set_read_idx (read_idx st + length s) st).
Proof.
  intros Hc [Hs Hb]. unfold string_feature_value, rest_of_line, view_drop. cbn [chars]. rewrite (proj2 Hc). destruct s as [|c s]; [done|].
  pose proof Hb as [Hcb _]%Forall_cons. change ((c :: s) ++ SPACE :: rest) with (c :: s ++ SPACE :: rest). rewrite (blanks_none c) by done.
  replace (if (0 <? length (c :: s ++ SPACE :: rest))%nat then 0%nat else 0%nat) with 0%nat by by case_if. cbn [drop].
  change (c :: s ++ SPACE :: rest) with ((c :: s) ++ SPACE :: rest). rewrite until_blank_app, take_app_length, Nat.add_0_r by done. done.
Qed.

(** *** A feature *)

Lemma feature_end st f rest : cursor st (feature_chars f ++ SPACE :: rest) -> feature_ok f ->
  at_end_or line [SPACE; TAB; BAR; CR] st = false /\
  exists d r, value_chars (ft_value f) ++ SPACE :: rest = d :: r /\ bool_decide (d ∈ [SPACE; COLON; TAB; BAR; CR]) = true.
Proof.
  intros Hc [Hn Hv]. rewrite (cursor_at_end _ _ _ Hc). unfold feature_chars. split.
  - destruct f as [[|c name] v]; cbn [ft_name ft_value app] in *.
    + destruct v; [done|done|done].
    + apply Forall_cons in Hn as [Hn _]. apply bool_decide_false. intros Hin. apply Hn. revert Hin. rewrite !elem_of_cons. tauto.
  - destruct (ft_value f); cbn [value_chars app]; by eexists _, _.
Qed.

Lemma maybe_feature_exact st f rest : cursor st (feature_chars f ++ SPACE :: rest) -> feature_ok f ->
  exists st', maybe_feature cfg line st = Done st' /\ cursor st' (SPACE :: rest) /\
    cur_channel_v st' = cur_channel_v st /\ new_index st' = new_index st /\ channel_hash st' = channel_hash st /\ base st' = base st /\
    index st' = index st /\ warnings st' = warnings st /\
    (anon st', ae st') = apply_feature cfg (index st) (base st) (channel_hash st) (cur_channel_v st) (anon st, ae st) f.
Proof.
  intros Hc Hf. destruct (feature_end st f rest Hc Hf) as (Hend & d & r & Hdr & Hd). unfold maybe_feature. rewrite Hend.
  unfold feature_chars in Hc. rewrite <- app_assoc, Hdr in Hc. destruct Hf as [Hn Hv].
  destruct (read_name_exact st (ft_name f) d r Hc Hn Hd) as [-> Hc1]. set (st1 := set_read_idx _ st) in *.
  assert (exists st2 b x str_value, is_feature_value_float cfg line st1 = Done (b, x, st2) /\
    (if b : bool then ([], st2) else string_feature_value line st2) =
      (str_value, set_read_idx (read_idx st1 + length (value_chars (ft_value f))) st1) /\
    str_value = value_string f /\ (if b then (cur_channel_v st * x)%num else n_of_Z 1) = feature_value (cur_channel_v st) f)
    as (st2 & b & x & str_value & -> & Hstr & -> & Hx).
  { rewrite <- Hdr in Hc1. unfold is_feature_value_float, value_string, feature_value. rewrite (cursor_at_end _ _ _ Hc1), (cursor_is _ _ _ Hc1).
    destruct (ft_value f) as [|n|s]; cbn [value_chars app length] in *.
    - exists st1, true, f32_one, []. decide_bytes. split_and!; try done. by rewrite Nat.add_0_r; destruct st1.
    - decide_bytes. destruct Hv as [Hok Hnum].
      change (COLON :: numeral_text n ++ SPACE :: rest) with ([COLON] ++ numeral_text n ++ SPACE :: rest) in Hc1.
      pose proof (cursor_skip _ _ _ 1 Hc1 eq_refl) as Hc2. rewrite Nat.add_1_r in Hc2. rewrite (number_at _ n rest Hc2 Hok). cbn [io_bind].
      assert (length (numeral_text n) <> 0)%nat as Hlen.
      { destruct n as [m int fr ex], Hok as [_ [Hs|Hs] _ _]; cbn in *; unfold numeral_text; cbn; rewrite !length_app; [destruct int; [done|cbn; lia]|].
        destruct fr; [cbn; lia|done]. }
      rewrite (proj2 (Nat.eqb_neq _ _)) by done. unfold is_number in Hnum. rewrite Hnum. cbn [io_bind].
      eexists _, true, (number_of n), []. split; [reflexivity|]. split; [|done]. f_equal. unfold set_read_idx. cbn. f_equal. lia.
    - decide_bytes.
      change (COLON :: s ++ SPACE :: rest) with ([COLON] ++ s ++ SPACE :: rest) in Hc1.
      pose proof (cursor_skip _ _ _ 1 Hc1 eq_refl) as Hc2. rewrite Nat.add_1_r in Hc2. destruct Hv as [Hs Hb]. destruct s as [|c s]; [done|].
      unfold float_at, rest_of_line, view_drop, data. cbn [chars after]. rewrite (proj2 Hc2). cbn [app].
      destruct (string_no_number c ((s ++ SPACE :: rest) ++ after line) (length (c :: s ++ SPACE :: rest)) Hs) as [x ->]; [cbn; lia|].
      cbn [lift io_bind Nat.eqb]. eexists _, false, x, (c :: s). split; [done|]. cbn iota. rewrite (string_value_exact _ (c :: s) rest); [|done|done].
      split; [|done]. f_equal. unfold set_read_idx. cbn. f_equal. lia. }
  cbn [io_bind]. rewrite Hstr. cbv beta iota zeta.
  change (cur_channel_v (set_read_idx (read_idx st1 + length (value_chars (ft_value f))) st1)) with (cur_channel_v st). rewrite Hx. clear Hstr Hx x b st2.
  assert (cursor (set_read_idx (read_idx st1 + length (value_chars (ft_value f))) st1) (SPACE :: rest)) as Hc2.
  { rewrite <- Hdr in Hc1. by eapply cursor_skip. }
  unfold apply_feature, feature_hash, hash_feature. cbn [set_read_idx channel_hash st1 anon].
  destruct (value_string f) as [|sc ss] eqn:Es; [destruct (ft_name f) as [|nc ns] eqn:En|]; cbn [set_anon set_read_idx anon index base channel_hash ae];
    (destruct (feature_value (cur_channel_v st) f =? n_of_Z 0)%num eqn:Ez; eexists; (split; [reflexivity|]); split_and!; try done;
      rewrite ?En, ?Es; done).
Qed.

(** *** Features and namespaces *)

(** What two states of the parser share while features are read. *)
Record same_context (st st' : tc) : Prop := {
  sc_channel : cur_channel_v st' = cur_channel_v st; sc_new : new_index st' = new_index st; sc_hash : channel_hash st' = channel_hash st;
  sc_base : base st' = base st; sc_index : index st' = index st; sc_warnings : warnings st' = warnings st
}.

(** After the features: the end of the line or the next namespace. *)
Definition closes (rest : list byte) : Prop := match rest with [] => True | c :: _ => c = BAR end.
Definition features_chars (fs : list feature_text) : list byte := (fs ≫= fun f => SPACE :: feature_chars f) ++ [SPACE].

Lemma at_blank_end st rest : cursor st rest -> closes rest ->
  at_end_or line [SPACE; TAB; BAR; CR] st = true /\ bool_decide (at_ line st = Some SPACE \/ at_ line st = Some TAB) = false /\ at_end_or line [BAR; CR] st = true.
Proof.
  intros Hc Hr. rewrite !(cursor_at_end _ _ _ Hc), (cursor_at _ _ Hc). by destruct rest as [|c rest]; [|cbn in Hr; subst c].
Qed.

Lemma list_features_loop_exact fs : forall fuel st rest, cursor st (features_chars fs ++ rest) -> Forall feature_ok fs -> closes rest ->
  (S (length fs) < fuel)%nat ->
  exists st', list_features_loop cfg line fuel st = Done st' /\ cursor st' rest /\ same_context st st' /\
    (anon st', ae st') = fold_left (apply_feature cfg (index st) (base st) (channel_hash st) (cur_channel_v st)) fs (anon st, ae st).
Proof.
  induction fs as [|f fs IH]; intros fuel st rest Hc Hfs Hr Hfuel; (destruct fuel as [|fuel]; [lia|]); cbn [list_features_loop].
  - unfold features_chars in Hc. cbn [mbind list_bind app] in Hc. rewrite (cursor_at _ _ Hc).
    change ((SPACE :: rest) !! 0%nat) with (Some SPACE). rewrite bool_decide_true by by left.
    change (SPACE :: rest) with ([SPACE] ++ rest) in Hc. pose proof (cursor_skip _ _ _ 1 Hc eq_refl) as Hc1. rewrite Nat.add_1_r in Hc1.
    destruct (at_blank_end _ _ Hc1 Hr) as (H1 & H2 & _). unfold maybe_feature. rewrite H1. cbn [io_bind]. destruct fuel as [|fuel]; [cbn in Hfuel; lia|].
    cbn [list_features_loop]. rewrite H2. eexists. split; [reflexivity|]. by split_and!.
  - apply Forall_cons in Hfs as [Hf Hfs]. unfold features_chars in Hc. rewrite bind_cons, <- !app_assoc in Hc. cbn [app] in Hc.
    rewrite (cursor_at _ _ Hc). match type of Hc with cursor _ (SPACE :: ?l) => change ((SPACE :: l) !! 0%nat) with (Some SPACE); change (SPACE :: l) with ([SPACE] ++ l) in Hc end.
    rewrite bool_decide_true by by left. pose proof (cursor_skip _ _ _ 1 Hc eq_refl) as Hc1. rewrite Nat.add_1_r in Hc1.
    assert (exists r', (fs ≫= fun f => SPACE :: feature_chars f) ++ SPACE :: rest = SPACE :: r' /\ SPACE :: r' = features_chars fs ++ rest) as (r' & Hr' & Hr2).
    { destruct fs as [|g fs]; [by exists rest|]. rewrite bind_cons. cbn [app]. eexists. split; [reflexivity|]. unfold features_chars.
      rewrite bind_cons. cbn [app]. by rewrite <- !app_assoc. }
    rewrite Hr' in Hc1. destruct (maybe_feature_exact _ f r' Hc1 Hf) as (st1 & -> & Hc2 & E1 & E2 & E3 & E4 & E5 & E6 & E7). cbn [io_bind].
    rewrite Hr2 in Hc2. destruct (IH fuel st1 rest Hc2 Hfs Hr) as (st2 & -> & Hc3 & [F1 F2 F3 F4 F5 F6] & F7); [cbn in Hfuel; lia|].
    cbn [set_read_idx cur_channel_v new_index channel_hash base index warnings anon ae] in *.
    exists st2. split; [done|]. split; [done|]. split; [split; congruence|]. cbn [fold_left]. rewrite <- E7, F7. congruence.
Qed.

Lemma features_length fs : (S (length fs) <= length (features_chars fs))%nat.
Proof.
  unfold features_chars. rewrite length_app. cbn. induction fs as [|f fs IH]; [done|]. rewrite bind_cons, length_app. cbn [length] in *. lia.
Qed.

Lemma list_features_exact fs st rest : cursor st (features_chars fs ++ rest) -> Forall feature_ok fs -> closes rest ->
  exists st', list_features cfg line st = Done st' /\ cursor st' rest /\ same_context st st' /\
    (anon st', ae st') = fold_left (apply_feature cfg (index st) (base st) (channel_hash st) (cur_channel_v st)) fs (anon st, ae st).
Proof.
  intros Hc Hfs Hr. unfold list_features. destruct (list_features_loop_exact fs (line_fuel line st) st rest Hc Hfs Hr) as (st' & -> & Hc' & Hsame & Hae).
  - unfold line_fuel. rewrite <- (cursor_length _ _ Hc), length_app. pose proof (features_length fs). lia.
  - cbn [io_bind]. destruct (at_blank_end _ _ Hc' Hr) as (_ & _ & ->). by exists st'.
Qed.

(** The value of a namespace. *)
Lemma scale_exact st v rest : cursor st (scale_chars v ++ SPACE :: rest) -> match v with Some n => number_ok n | None => True end ->
  cur_channel_v st = f32_one ->
  name_space_info_value cfg line st = Done (set_read_idx (read_idx st + length (scale_chars v)) (set_cur_channel_v (scale_of v) st)).
Proof.
  intros Hc Hv Hone. unfold name_space_info_value. rewrite (cursor_at_end _ _ _ Hc), (cursor_is _ _ _ Hc). destruct v as [n|]; cbn [scale_chars app] in *; decide_bytes.
  - change (COLON :: numeral_text n ++ SPACE :: rest) with ([COLON] ++ numeral_text n ++ SPACE :: rest) in Hc.
    pose proof (cursor_skip _ _ _ 1 Hc eq_refl) as Hc2. rewrite Nat.add_1_r in Hc2. destruct Hv as [Hok Hnum]. rewrite (number_at _ n rest Hc2 Hok). cbn [io_bind].
    pose proof (cursor_length _ _ Hc2) as Hl. rewrite length_app in Hl. cbn [length set_read_idx read_idx set_cur_channel_v] in *.
    rewrite (proj2 (Nat.leb_gt _ _)) by lia. cbn [io_bind]. unfold is_number in Hnum. rewrite Hnum. cbn [io_bind scale_of]. f_equal.
    unfold set_read_idx, set_cur_channel_v. cbn. f_equal. lia.
  - rewrite Nat.add_0_r. cbn [scale_of]. rewrite <- Hone. by destruct st.
Qed.

Lemma name_first c name : name_ok (c :: name) -> forall cs, Forall (fun d => d ∈ [SPACE; COLON; TAB; BAR; CR]) cs -> bool_decide (c ∈ cs) = false.
Proof. intros [Hc _]%Forall_cons cs Hcs. apply bool_decide_false. intros Hin. rewrite Forall_forall in Hcs. apply Hc. auto. Qed.

Lemma name_space_info_exact st name v rest : cursor st (name ++ scale_chars v ++ SPACE :: rest) -> name_ok name -> name <> [] ->
  match v with Some n => number_ok n | None => True end -> cur_channel_v st = f32_one -> new_index st = false ->
  exists st', name_space_info cfg line st = Done st' /\ cursor st' (SPACE :: rest) /\ cur_channel_v st' = scale_of v /\
    new_index st' = group_empty (namespace_index cfg name) (ae st) /\ channel_hash st' = namespace_hash cfg name /\
    base st' = namespace_base cfg name (base st) /\ index st' = namespace_index cfg name /\ anon st' = anon st /\ ae st' = ae st /\ warnings st' = warnings st.
Proof.
  intros Hc Hn Hne Hv Hone Hnew. destruct name as [|c name]; [done|]. unfold name_space_info. rewrite (cursor_at _ _ Hc).
  change (((c :: name) ++ scale_chars v ++ SPACE :: rest) !! 0%nat) with (Some c). cbv iota beta.
  rewrite (name_first c name Hn) by (apply Forall_forall; intros d; rewrite !elem_of_cons; tauto).
  assert (exists d r, scale_chars v ++ SPACE :: rest = d :: r /\ bool_decide (d ∈ [SPACE; COLON; TAB; BAR; CR]) = true) as (d & r & Hdr & Hd).
  { destruct v; cbn [scale_chars app]; by eexists _, _. }
  rewrite Hdr in Hc. destruct (read_name_exact st (c :: name) d r Hc Hn Hd) as [-> Hc1]. rewrite <- Hdr in Hc1.
  rewrite (scale_exact _ v rest); [|exact Hc1|done|exact Hone]. eexists. split; [reflexivity|].
  split; [by apply (cursor_skip (set_read_idx (read_idx st + length (c :: name)) st) _ _ _ Hc1)|].
  cbn. unfold group_empty, group_size, namespace_base. rewrite Hnew. by destruct (audit cfg).
Qed.

(** What follows the name and value of a namespace. *)
Lemma features_chars_head fs rest : exists r, features_chars fs ++ rest = SPACE :: r.
Proof. unfold features_chars. destruct fs as [|f fs]; [by eexists|]. rewrite bind_cons. cbn. by eexists. Qed.

(** A name space: the state where it starts, after the bar. *)
Lemma name_space_exact st ns rest : cursor st (nt_name ns ++ scale_chars (nt_value ns) ++ features_chars (nt_features ns) ++ rest) ->
  namespace_ok ns -> closes rest ->
  exists st', name_space cfg line st = Done st' /\ cursor st' rest /\ warnings st' = warnings st /\
    (base st', ae st') = apply_namespace cfg (base st, ae st) ns.
Proof.
  intros Hc (Hn & Hv & Hfs) Hr. unfold name_space. set (st0 := begin_name_space st).
  assert (cursor st0 (nt_name ns ++ scale_chars (nt_value ns) ++ features_chars (nt_features ns) ++ rest)) as Hc0 by exact Hc.
  destruct (features_chars_head (nt_features ns) rest) as [r Hfr].
  assert (exists st1, name_space_features cfg line st0 = (do st <- list_features cfg line (start_extent st1); Done (true, st)) /\
    cursor st1 (features_chars (nt_features ns) ++ rest) /\ cur_channel_v st1 = scale_of (nt_value ns) /\
    new_index st1 = group_empty (namespace_index cfg (nt_name ns)) (ae st) /\ channel_hash st1 = namespace_hash cfg (nt_name ns) /\
    base st1 = namespace_base cfg (nt_name ns) (base st) /\ index st1 = namespace_index cfg (nt_name ns) /\ anon st1 = 0 /\ ae st1 = ae st /\
    warnings st1 = warnings st) as (st1 & -> & Hc1 & E1 & E2 & E3 & E4 & E5 & E6 & E7 & E8).
  { unfold name_space_features. rewrite (cursor_at_end _ _ _ Hc0), (cursor_is _ _ _ Hc0). destruct (nt_name ns) as [|c name] eqn:En.
    - assert (nt_value ns = None) as Hnone by (destruct (nt_value ns); [by destruct Hv|done]). rewrite Hnone in *. cbn [scale_chars app] in *. rewrite Hfr. decide_bytes.
      eexists. split; [reflexivity|]. split; [rewrite <- Hfr; exact Hc0|]. cbn. unfold group_size, group_empty, namespace_base. by destruct (audit cfg).
    - cbn [app]. rewrite (name_first c name Hn) by (apply Forall_forall; intros d; rewrite !elem_of_cons; tauto).
      assert (c <> COLON) as Hcol by (intros ->; apply Forall_cons in Hn as [Hn _]; apply Hn; byte_in).
      rewrite bool_decide_false by done. cbn [negb]. rewrite Hfr in Hc0 |- *.
      destruct (name_space_info_exact st0 (c :: name) (nt_value ns) r Hc0 Hn) as (st1 & -> & Hc1 & H1 & H2 & H3 & H4 & H5 & H6 & H7 & H8); [done| |done|done|].
      { destruct (nt_value ns); [apply Hv|done]. }
      cbn [io_bind]. eexists. split; [reflexivity|]. by split_and!. }
  destruct (list_features_exact (nt_features ns) (start_extent st1) rest Hc1 Hfs Hr) as (st2 & -> & Hc2 & [F1 F2 F3 F4 F5 F6] & F7).
  cbn [io_bind]. cbv beta iota zeta. cbn [start_extent set_ae cur_channel_v new_index channel_hash base index warnings anon ae] in *.
  eexists. split; [reflexivity|].
  rewrite F2, F5, E2, E5. unfold end_extent. unfold apply_namespace. rewrite <- E1, <- E3, <- E4, <- E5.
  change (open_extent (index st1) (channel_hash st1) (ae st)) with (set_group (index st1) (start_ns_extent (channel_hash st1) (group (index st1) (ae st))) (ae st)).
  rewrite <- E7, <- E6, <- F7.
  assert (forall e, (0 <? length (values (group (index st1) e)))%nat = negb (group_empty (index st1) e)) as Hneg by (intros e; unfold group_empty; by destruct (values _)).
  unfold group_size. rewrite Hneg, E7. destruct (group_empty (index st1) (ae st) && negb (group_empty (index st1) (ae st2)));
    cbn [set_ae index base ae warnings]; rewrite ?F5; (split; [exact Hc2|]); (split; [congruence|]); by rewrite <- F4.
Qed.

Lemma namespace_chars_split ns rest : namespace_chars ns ++ rest =
  BAR :: nt_name ns ++ scale_chars (nt_value ns) ++ features_chars (nt_features ns) ++ rest.
Proof. unfold namespace_chars, features_chars. cbn [app]. by rewrite <- !app_assoc. Qed.

Lemma example_closes nss : closes (example_chars nss).
Proof. destruct nss as [|ns nss]; [done|]. unfold example_chars. by rewrite bind_cons, namespace_chars_split. Qed.

Lemma list_name_space_exact nss : forall fuel st, cursor st (example_chars nss) -> Forall namespace_ok nss -> (length nss < fuel)%nat ->
  exists st', list_name_space_loop cfg line fuel st = Done st' /\ cursor st' [] /\ warnings st' = warnings st /\
    (base st', ae st') = fold_left (apply_namespace cfg) nss (base st, ae st).
Proof.
  induction nss as [|ns nss IH]; intros fuel st Hc Hok Hf; (destruct fuel as [|fuel]; [cbn in Hf; lia|]); cbn [list_name_space_loop];
    rewrite (cursor_is _ _ _ Hc).
  - by exists st.
  - apply Forall_cons in Hok as [Hns Hok]. unfold example_chars in Hc |- *. rewrite bind_cons, namespace_chars_split in Hc |- *. rewrite bool_decide_true by done.
    match type of Hc with cursor _ (BAR :: ?l) => change (BAR :: l) with ([BAR] ++ l) in Hc end.
    pose proof (cursor_skip _ _ _ 1 Hc eq_refl) as Hc1. rewrite Nat.add_1_r in Hc1.
    destruct (name_space_exact _ ns _ Hc1 Hns (example_closes nss)) as (st1 & -> & Hc2 & Hw & Hae). cbn [io_bind].
    destruct (IH fuel st1 Hc2 Hok) as (st2 & -> & Hc3 & Hw2 & Hae2); [cbn in Hf; lia|]. exists st2. split; [done|]. split; [done|].
    cbn in Hw. split; [congruence|]. cbn [fold_left]. rewrite Hae2, Hae. done.
Qed.

Lemma example_length nss : (length nss <= length (example_chars nss))%nat.
Proof. induction nss as [|ns nss IH]; [done|]. unfold example_chars in *. rewrite bind_cons, length_app. unfold namespace_chars at 1. cbn [length app]. lia. Qed.

Lemma tc_parser_exact nss e : chars line = example_chars nss -> nss <> [] -> Forall namespace_ok nss ->
  tc_parser cfg line e = Done (apply_namespaces cfg nss e, 0%nat).
Proof.
  intros Hl Hne Hok. unfold tc_parser, view_empty. rewrite Hl. destruct nss as [|ns nss']; [done|]. set (nss := ns :: nss') in *.
  assert (match example_chars nss with [] => true | _ => false end = false) as ->.
  { unfold nss, example_chars. by rewrite bind_cons, namespace_chars_split. }
  unfold list_name_space. set (st := Tc _ _ _ _ _ _ _ _ _). assert (cursor st (example_chars nss)) as Hc by (split; [cbn; lia|by rewrite <- Hl]).
  destruct (list_name_space_exact nss (line_fuel line st) st Hc Hok) as (st' & -> & Hc' & Hw & Hae).
  - unfold line_fuel. rewrite <- (cursor_length _ _ Hc). pose proof (example_length nss). lia.
  - cbn [io_bind]. rewrite (cursor_at_end _ _ _ Hc'). cbn [io_bind]. unfold apply_namespaces. cbn [base ae st] in Hae. rewrite <- Hae. cbn [snd]. by rewrite Hw.
Qed.
End Cursor.

(** ** A whole line *)

Record line_text := LineText { lt_words : list (list byte); lt_tag : option (bool * list byte); lt_namespaces : list namespace_text }.

(** Words with a blank after each; the tag, quoted or touching the bar. *)
Definition words_chars (words : list (list byte)) : list byte := words ≫= fun w => w ++ [SPACE].
Definition tag_chars (tag : option (bool * list byte)) : list byte :=
  match tag with None => [] | Some (quoted, t) => (if quoted : bool then [Byte.x27] else []) ++ t end.
Definition line_chars (lt : line_text) : list byte := words_chars (lt_words lt) ++ tag_chars (lt_tag lt) ++ example_chars (lt_namespaces lt).

Definition word_char (c : byte) : Prop := c <> SPACE /\ c <> TAB /\ c <> BAR.
Definition word_ok (w : list byte) : Prop := w <> [] /\ Forall word_char w.
Definition tag_ok (words : list (list byte)) (tag : option (bool * list byte)) : Prop :=
  match tag with
  | Some (true, t) => Forall word_char t
  | Some (false, t) => word_ok t /\ t !! 0%nat <> Some Byte.x27
  | None => match last words with Some w => w !! 0%nat <> Some Byte.x27 | None => True end
  end.
Definition line_ok (lt : line_text) : Prop :=
  Forall word_ok (lt_words lt) /\ tag_ok (lt_words lt) (lt_tag lt) /\ lt_namespaces lt <> [] /\ Forall namespace_ok (lt_namespaces lt).

(** The views of the words, over the memory that follows them. *)
Fixpoint word_views (words : list (list byte)) (mem : list byte) : list string_view :=
  match words with [] => [] | w :: ws => View w (SPACE :: words_chars ws ++ mem) :: word_views ws mem end.

Lemma word_views_chars words mem : chars <$> word_views words mem = words.
Proof. induction words as [|w ws IH]; [done|]. cbn. by rewrite IH. Qed.

Lemma tokenize_loop_fuel d : forall fuel fuel' ls ls' s, (length (chars s) < fuel)%nat -> (length (chars s) < fuel')%nat ->
  tokenize_loop fuel d false ls s = tokenize_loop fuel' d false ls' s.
Proof.
  induction fuel as [|fuel IH]; intros fuel' ls ls' s Hf Hf'; [lia|]. destruct fuel' as [|fuel']; [lia|]. cbn [tokenize_loop].
  rewrite !andb_false_r. pose proof (find_byte_spec d (chars s)) as Hspec. destruct (find_byte d (chars s)) as [n|]; [|done].
  destruct Hspec as [Hn%lookup_lt_Some _]. f_equal. apply IH; cbn; rewrite length_drop; lia.
Qed.

Lemma find_byte_app_l d x l : d ∉ x -> find_byte d (x ++ d :: l) = Some (length x).
Proof.
  induction x as [|c x IH]; cbn [app find_byte length]; intros Hd; [by rewrite decide_True|].
  apply not_elem_of_cons in Hd as [Hc Hd]. rewrite decide_False, IH by done. done.
Qed.
Lemma find_byte_none d l : d ∉ l -> find_byte d l = None.
Proof.
  induction l as [|c l IH]; [done|]. cbn [find_byte]. intros [Hc Hl]%not_elem_of_cons. by rewrite decide_False, IH.
Qed.

Lemma tokenize_unfold d s : tokenize d s false =
  match find_byte d (chars s) with
  | Some n => (if (0 <? n)%nat then [view_take n s] else []) ++ tokenize d (view_drop (S n) s) false
  | None => if view_empty s then [] else [s]
  end.
Proof.
  unfold tokenize at 1. cbn [tokenize_loop]. pose proof (find_byte_spec d (chars s)) as Hspec. destruct (find_byte d (chars s)) as [n|].
  - destruct Hspec as [Hn%lookup_lt_Some _]. f_equal. unfold tokenize. apply tokenize_loop_fuel; cbn; rewrite length_drop; lia.
  - by destruct (view_empty s).
Qed.

Lemma view_take_app w x aft : view_take (length w) (View (w ++ x) aft) = View w (x ++ aft).
Proof. unfold view_take. cbn [chars after]. by rewrite take_app_length, drop_app_length. Qed.

Lemma view_drop_app w d x aft : view_drop (S (length w)) (View (w ++ d :: x) aft) = View x aft.
Proof.
  unfold view_drop. cbn [chars after]. f_equal. replace (S (length w)) with (length (w ++ [d])) by (rewrite length_app; cbn; lia).
  change (d :: x) with ([d] ++ x). by rewrite app_assoc, drop_app_length.
Qed.

Lemma tokenize_word d w r aft : w <> [] -> d ∉ w ->
  tokenize d (View (w ++ d :: r) aft) false = View w (d :: r ++ aft) :: tokenize d (View r aft) false.
Proof.
  intros Hne Hd. rewrite tokenize_unfold. cbn [chars]. rewrite find_byte_app_l by done. rewrite view_take_app, view_drop_app. by destruct w.
Qed.

Lemma word_no (w : list byte) c : Forall word_char w -> (c = SPACE \/ c = TAB \/ c = BAR) -> c ∉ w.
Proof. intros Hw Hc Hin. rewrite Forall_forall in Hw. specialize (Hw c Hin). unfold word_char in Hw. tauto. Qed.

Lemma tokenize_words words tl aft : Forall word_ok words ->
  tokenize SPACE (View (words_chars words ++ tl) aft) false = word_views words (tl ++ aft) ++ tokenize SPACE (View tl aft) false.
Proof.
  induction 1 as [|w words [Hne Hw] _ IH]; [done|]. unfold words_chars. rewrite bind_cons, <- !app_assoc. cbn [app].
  rewrite tokenize_word; [|done|apply word_no; [done|by left]]. fold (words_chars words). rewrite IH. cbn. by rewrite app_assoc.
Qed.

Lemma tokenize_one d w aft : d ∉ w -> tokenize d (View w aft) false = match w with [] => [] | _ => [View w aft] end.
Proof. intros Hd. rewrite tokenize_unfold. cbn [chars]. rewrite find_byte_none by done. by destruct w. Qed.

Lemma last_word_views words mem w : last (word_views words mem) = Some w -> exists x, last words = Some (chars w) /\ after w = SPACE :: x ++ mem.
Proof.
  induction words as [|v words IH]; [done|]. cbn [word_views]. destruct words as [|u words].
  - cbn. intros [= <-]. by exists [].
  - intros Hl. destruct IH as (x & Hx & Ha); [done|]. by exists x.
Qed.

Lemma words_and_tag_exact words tag aft : Forall word_ok words -> tag_ok words tag ->
  words_and_tag (View (words_chars words ++ tag_chars tag) aft) =
    (word_views words (tag_chars tag ++ aft), match tag with Some (_, t) => t | None => [] end).
Proof.
  intros Hw Ht. unfold words_and_tag. rewrite tokenize_words by done. destruct tag as [[quoted t]|].
  - assert (Forall word_char (tag_chars (Some (quoted, t)))) as Htc.
    { cbn. destruct quoted; cbn in *; [constructor; [done|exact Ht]|apply Ht]. }
    rewrite tokenize_one by (apply word_no; [done|by left]).
    assert (tag_chars (Some (quoted, t)) <> []) as Hne by (destruct quoted; cbn in *; [done|apply Ht]).
    destruct (tag_chars (Some (quoted, t))) as [|c tc] eqn:E; [done|]. rewrite last_snoc. cbn [after chars]. rewrite Nat.eqb_refl. cbn [orb].
    rewrite removelast_last. f_equal. rewrite <- E. destruct quoted; cbn in *; [done|]. rewrite bool_decide_false; [done|]. apply Ht.
  - cbn [tag_chars app]. rewrite tokenize_one by apply not_elem_of_nil. rewrite !app_nil_r. destruct (last (word_views words aft)) as [w|] eqn:E.
    + destruct (last_word_views _ _ _ E) as (x & Hl & Ha). cbn [after]. rewrite Ha. cbn [tag_ok] in Ht. rewrite Hl in Ht. rewrite (bool_decide_false _ Ht).
      rewrite (proj2 (Nat.eqb_neq _ _)); [done|]. cbn. rewrite length_app. lia.
    + done.
Qed.

Lemma words_no_blank words c : Forall word_ok words -> c = TAB \/ c = BAR -> c ∉ words_chars words.
Proof.
  intros Hw Hc [w [Hin Hw']]%list_elem_of_bind. apply elem_of_app in Hin as [Hin|Hin%list_elem_of_singleton].
  - rewrite Forall_forall in Hw. apply (word_no w c); [by apply Hw|tauto|done].
  - subst. by destruct Hc.
Qed.

Lemma tag_no_blank words tag c : tag_ok words tag -> c = TAB \/ c = BAR -> c ∉ tag_chars tag.
Proof.
  intros Ht Hc. destruct tag as [[[] t]|]; cbn in *.
  - intros [->|Hin]%elem_of_cons; [by destruct Hc|]. by apply (word_no t c) in Hin; [|tauto..].
  - apply word_no; [apply Ht|tauto].
  - apply not_elem_of_nil.
Qed.

(** The label of a line, given the views of its words. *)
Definition labelled (t : label_type_t) (ldict : option named_labels) (ws : list string_view) (e : example) : io_result example :=
  match ws with
  | [] => Done e
  | _ => do (l, rf) <- parse_label t ldict ws (ex_l e) (ex_reduction_features e); Done (set_label l rf e)
  end.
(** The example before the label is read: the default label, and the tag. *)
Definition with_tag (t : label_type_t) (lt : line_text) (e : example) : example :=
  add_tag (match lt_tag lt with Some (_, tag) => tag | None => [] end) (set_label (default_label t (ex_l e)) (ex_reduction_features e) e).

Lemma substring_exact cfg t ldict e lt aft : line_ok lt ->
  let mem := tag_chars (lt_tag lt) ++ example_chars (lt_namespaces lt) ++ aft in
  substring_to_example cfg t ldict e (View (line_chars lt) aft) =
    do e <- labelled t ldict (word_views (lt_words lt) mem) (with_tag t lt e);
    Done (apply_namespaces cfg (lt_namespaces lt) e, 0%nat).
Proof.
  intros (Hw & Ht & Hne & Hns) mem. destruct lt as [words tag nss]. cbn [lt_words lt_tag lt_namespaces] in *. unfold line_chars. cbn [lt_words lt_tag lt_namespaces].
  destruct nss as [|ns nss']; [done|]. set (nss := ns :: nss') in *.
  assert (exists r, example_chars nss = BAR :: r) as [r Hr].
  { unfold nss, example_chars. rewrite bind_cons, namespace_chars_split. by eexists. }
  assert (BAR ∉ words_chars words ++ tag_chars tag) as Hbar.
  { rewrite elem_of_app. intros [Hin|Hin]; [by apply (words_no_blank words BAR) in Hin; [|done|right]|by apply (tag_no_blank words tag BAR) in Hin; [|done|right]]. }
  assert (TAB ∉ words_chars words ++ tag_chars tag) as Htab.
  { rewrite elem_of_app. intros [Hin|Hin]; [by apply (words_no_blank words TAB) in Hin; [|done|left]|by apply (tag_no_blank words tag TAB) in Hin; [|done|left]]. }
  assert (find_byte BAR (words_chars words ++ tag_chars tag ++ example_chars nss) = Some (length (words_chars words ++ tag_chars tag))) as Hfind.
  { by rewrite Hr, app_assoc, find_byte_app_l. }
  unfold substring_to_example. cbn [chars]. rewrite Hfind.
  assert (view_empty (View (words_chars words ++ tag_chars tag ++ example_chars nss) aft) = false) as ->.
  { unfold view_empty. cbn [chars]. rewrite Hr. by destruct (words_chars words); [destruct (tag_chars tag)|]. }
  assert ((if bool_decide (Some (length (words_chars words ++ tag_chars tag)) = Some 0%nat) then ([], [])
           else words_and_tag (label_space (View (words_chars words ++ tag_chars tag ++ example_chars nss) aft))) =
          (word_views words mem, match tag with Some (_, t) => t | None => [] end)) as ->.
  { case_bool_decide as Hz.
    - injection Hz as Hz. apply length_zero_iff_nil, app_nil in Hz as [Hz1 Hz2]. destruct words as [|w words].
      + destruct tag as [[[] tg]|]; cbn in *; try done. by subst.
      + apply Forall_cons in Hw as [[Hw _] _]. by destruct w.
    - unfold label_space. cbn [chars]. rewrite Hfind. unfold view_take. cbn [chars after]. rewrite app_assoc, take_app_length, drop_app_length.
      cbn [chars]. rewrite find_byte_none by done. rewrite words_and_tag_exact by done. done. }
  cbn [lt_tag]. unfold labelled, with_tag. cbn [lt_tag].
  assert (forall e, tc_parser cfg (view_drop (length (words_chars words ++ tag_chars tag)) (View (words_chars words ++ tag_chars tag ++ example_chars nss) aft)) e =
    Done (apply_namespaces cfg nss e, 0%nat)) as Htc.
  { intros e'. apply tc_parser_exact; [|done|done]. unfold view_drop. cbn [chars]. by rewrite app_assoc, drop_app_length. }
  destruct (word_views words mem) as [|w ws]; [by cbn [io_bind]; rewrite Htc|].
  destruct (parse_label _ _ _ _ _) as [[l rf]| | |]; [|done..]. cbn [io_bind]. by rewrite Htc.
Qed.

(** *** Numbers as words of a label *)

Lemma float_of_numeral n mem : number_ok n -> float_of (View (numeral_text n) (SPACE :: mem)) = Done (number_of n).
Proof.
  intros [Hok Hnum]. unfold float_of, float_of_string, data. cbn [chars after]. rewrite parse_float_numeral; [|done|].
  - cbn [mbind option_bind lift]. unfold is_number in Hnum. change (numeral_value f32_infinity n) with (number_of n). rewrite Hnum, orb_false_r. unfold view_empty. cbn [chars].
    destruct (numeral_text n) eqn:E; [|done]. exfalso. destruct n as [m int fr ex], Hok as [_ [Hs|Hs] _ _]; unfold numeral_text in E; cbn in *;
      apply app_nil in E as [_ [Hi Hf]%app_nil]; [done|]. by destruct fr.
  - cbn. split_and!; try done. by left.
Qed.

Lemma digit_word_char c : is_digit c = true -> word_char c.
Proof. intros Hc. by split_and!; intros ->. Qed.

Lemma numeral_word n : numeral_ok n -> word_ok (numeral_text n) /\ numeral_text n !! 0%nat <> Some Byte.x27.
Proof.
  intros [Hint Hs [Hfr _] Hex]. destruct n as [m int fr ex]. unfold frac_digits, numeral_text in *. cbn [nm_minus nm_int nm_frac nm_exp] in *.
  assert (forall l, all_digits l -> Forall word_char l) as Hd by (intros l Hl; eapply Forall_impl; [exact Hl|apply digit_word_char]).
  split.
  - split; [destruct m, int, fr; cbn; try done; by destruct Hs|]. rewrite !Forall_app. split_and!.
    + destruct m; repeat constructor; done.
    + by apply Hd.
    + destruct fr; [constructor; [done|by apply Hd]|constructor].
    + destruct ex as [[me es]|]; [|constructor]. constructor; [done|]. apply Forall_app. split; [destruct me; repeat constructor; done|apply Hd, Hex].
  - destruct m; [done|]. destruct int as [|c int]; cbn.
    + destruct fr; [done|by destruct Hs].
    + apply Forall_cons in Hint as [Hc _]. intros [= ->]. done.
Qed.

(** A simple label: the label, the weight, the initial prediction. *)
Definition simple_numbers (nums : list numeral) (rf : simple_label_reduction_features) : option (simple_label * simple_label_reduction_features) :=
  match nums with
  | [l] => Some (SimpleLabel (number_of l), rf)
  | [l; w] => Some (SimpleLabel (number_of l), SimpleRF (number_of w) (slrf_initial rf))
  | [l; w; i] => Some (SimpleLabel (number_of l), SimpleRF (number_of w) (number_of i))
  | _ => None
  end.

Lemma simple_label_exact nums mem ld rf r : Forall number_ok nums -> simple_numbers nums rf = Some r ->
  parse_simple_label (word_views (numeral_text <$> nums) mem) ld rf = Done r.
Proof.
  intros Hn Hr. destruct nums as [|a [|b [|c [|]]]]; try done; injection Hr as <-; repeat (apply Forall_cons in Hn as [? Hn]); cbn;
    rewrite !float_of_numeral by done; cbn [io_bind]; rewrite ?float_of_numeral by done; cbn [io_bind]; by rewrite ?float_of_numeral by done.
Qed.

(** ** Lines of a file *)

Section ReadLines.
Context {R W : Type} `{Reader R, Writer W} (alloc : nat -> Z).
Implicit Type b : io_buf R W.

Definition bom_chars (bom : bool) : list byte := if bom then [byte.of_Z 239; byte.of_Z 187; byte.of_Z 191] else [].
Definition end_of_line (cr : bool) : list byte := if cr then [CR; Byte.x0a] else [Byte.x0a].

Lemma drop_last_if_snoc c l : drop_last_if c (l ++ [c]) = l.
Proof. unfold drop_last_if. by rewrite last_snoc, is_chr_eq, removelast_last. Qed.
Lemma drop_last_if_other c l d : d <> c -> drop_last_if c (l ++ [d]) = l ++ [d].
Proof. intros Hd. unfold drop_last_if. by rewrite last_snoc, is_chr_ne. Qed.

Lemma read_features_exact b text c bom cr rest : wf b -> stream b = bom_chars bom ++ (text ++ [c]) ++ end_of_line cr ++ rest ->
  Byte.x0a ∉ text ++ [c] -> c <> CR -> (bom = false -> take 3 (text ++ [c] ++ end_of_line cr) <> bom_chars true) ->
  exists mem b', read_features alloc b = Done (length (bom_chars bom ++ (text ++ [c]) ++ end_of_line cr), View (text ++ [c]) (end_of_line cr ++ mem), b') /\
    stream b' = rest /\ wf b'.
Proof.
  intros Hwf Hs Hnl Hc Hbom. unfold read_features.
  destruct (readto_text alloc (read_fuel b) b Byte.x0a Hwf (read_fuel_measure b)) as (p & k & b' & -> & (Hwf' & _ & Hm) & Hsl). cbn [io_bind].
  set (body := bom_chars bom ++ (text ++ [c]) ++ (if cr then [CR] else [])).
  assert (stream b = body ++ Byte.x0a :: rest) as Hs'. { rewrite Hs. unfold body. rewrite <- !app_assoc. by destruct cr. }
  assert (find_byte Byte.x0a (stream b) = Some (length body)) as Hf.
  { rewrite Hs'. apply find_byte_app_l. unfold body. rewrite !elem_of_app. rewrite elem_of_app in Hnl. intros [Hin|[Hin|Hin]]; [|tauto|].
    - destruct bom; cbn in Hin; [|by apply elem_of_nil in Hin]. apply (bool_decide_pack _) in Hin. vm_compute in Hin. done.
    - destruct cr; [apply list_elem_of_singleton in Hin; done|by apply elem_of_nil in Hin]. }
  rewrite Hf in Hm. destruct Hm as (-> & _ & Hdrop).
  assert (take (S (length body)) (stream b) = body ++ [Byte.x0a]) as Htake.
  { rewrite Hs'. change (Byte.x0a :: rest) with ([Byte.x0a] ++ rest). rewrite app_assoc. apply take_app_length'. rewrite length_app. cbn. lia. }
  assert (body ++ [Byte.x0a] = bom_chars bom ++ (text ++ [c]) ++ end_of_line cr) as Hbody by (unfold body; rewrite <- !app_assoc; by destruct cr).
  rewrite Hsl, Htake. cbn [Nat.ltb Nat.leb]. rewrite Hbody.
  assert (drop_bom (bom_chars bom ++ (text ++ [c]) ++ end_of_line cr) = (text ++ [c]) ++ end_of_line cr) as ->.
  { unfold drop_bom. destruct bom; [by rewrite bool_decide_true|]. rewrite bool_decide_false; [done|]. cbn [bom_chars app].
    intros Heq. apply (Hbom eq_refl). rewrite <- app_assoc in Heq. exact Heq. }
  assert (drop_last_if CR (drop_last_if Byte.x0a ((text ++ [c]) ++ end_of_line cr)) = text ++ [c]) as ->.
  { destruct cr; cbn [end_of_line].
    - change [CR; Byte.x0a] with ([CR] ++ [Byte.x0a]). by rewrite (app_assoc _ [CR]), !drop_last_if_snoc.
    - by rewrite drop_last_if_snoc, drop_last_if_other. }
  rewrite drop_app_length. eexists _, b'. split; [|split; [|done]].
  - f_equal. f_equal. f_equal. rewrite <- Hbody, length_app. cbn. lia.
  - rewrite Hdrop, Hs'. change (Byte.x0a :: rest) with ([Byte.x0a] ++ rest). rewrite app_assoc. apply drop_app_length'. rewrite length_app. cbn. lia.
Qed.
End ReadLines.

Lemma snoc_app {A} (c : A) pre x : (exists t, x = t ++ [c]) -> exists t, pre ++ x = t ++ [c].
Proof. intros [t ->]. exists (pre ++ t). by rewrite app_assoc. Qed.

Lemma line_chars_snoc lt : lt_namespaces lt <> [] -> exists text, line_chars lt = text ++ [SPACE].
Proof.
  intros Hne. unfold line_chars. destruct (exists_last Hne) as (nss & ns & ->). do 2 apply snoc_app.
  unfold example_chars. rewrite bind_app. apply snoc_app. cbn [mbind list_bind]. rewrite app_nil_r. unfold namespace_chars.
  match goal with |- exists t, BAR :: ?x = _ => change (exists t, [BAR] ++ x = t ++ [SPACE]) end. do 4 apply snoc_app. by exists [].
Qed.

(** A line with a simple label, read. *)
Lemma read_simple_ok {R W : Type} `{Reader R, Writer W} (alloc : nat -> Z) (cfg : text_config) (ldict : option named_labels)
    (e : example) (b : io_buf R W) (nums : list numeral) (lt : line_text) (sl : simple_label) (srf : simple_label_reduction_features)
    (bom cr : bool) (rest : list byte) :
  lt_words lt = numeral_text <$> nums -> Forall number_ok nums -> line_ok lt ->
  simple_numbers nums (simple_rf (ex_reduction_features e)) = Some (sl, srf) ->
  Byte.x0a ∉ line_chars lt -> (bom = false -> take 3 (line_chars lt ++ end_of_line cr) <> bom_chars true) ->
  wf b -> stream b = bom_chars bom ++ line_chars lt ++ end_of_line cr ++ rest ->
  let rf := ex_reduction_features e in
  let e1 := set_label (set_simple sl (ex_l e)) (ReductionFeatures srf (continuous_rf rf) (graph_feedback_rf rf)) e in
  let tag := match lt_tag lt with Some (_, tag) => tag | None => [] end in
  exists b', read_features_string cfg SIMPLE ldict alloc e b =
      Done (length (bom_chars bom ++ line_chars lt ++ end_of_line cr), (apply_namespaces cfg (lt_namespaces lt) (add_tag tag e1), 0%nat), b') /\
    stream b' = rest /\ wf b'.
Proof.
  intros Hw Hn Hok Hr Hnl Hbom Hwf Hs rf e1 tag. destruct (line_chars_snoc lt) as [text Ht]; [apply Hok|]. rewrite Ht in *.
  destruct (read_features_exact alloc b text SPACE bom cr rest Hwf Hs Hnl) as (mem & b' & Hrf & Hs' & Hwf'); [done|by rewrite app_assoc|].
  exists b'. split; [|done]. unfold read_features_string. rewrite Hrf. cbn [io_bind]. rewrite (proj2 (Nat.ltb_ge _ _)) by (rewrite !length_app; cbn; lia).
  rewrite <- Ht, (substring_exact cfg SIMPLE ldict e lt) by done. cbv zeta. rewrite Hw.
  set (m := tag_chars (lt_tag lt) ++ example_chars (lt_namespaces lt) ++ end_of_line cr ++ mem).
  assert (exists v vs, word_views (numeral_text <$> nums) m = v :: vs) as (v & vs & Hv) by (destruct nums; [done|by eexists _, _]).
  unfold labelled. rewrite Hv, <- Hv. cbn [parse_label]. rewrite (simple_label_exact nums m _ _ (sl, srf) Hn Hr). cbn [io_bind].
  by do 4 f_equal.
Qed.

(** C6: reading a file of text, whatever its buffering: a line with a simple label (label, weight,
    initial prediction), a tag and namespaces is taken whole, with or without byte-order mark and
    carriage return, and becomes the example it describes, with no warning, also in strict mode:
    numbers are the numbers written, each feature goes to the group of its namespace with the hash
    of its name and its value scaled by that of the namespace. *)
Theorem read_simple_example {R W : Type} `{Reader R, Writer W} (alloc : nat -> Z) (cfg : text_config) (ldict : option named_labels)
    (e : example) (b : io_buf R W) (nums : list numeral) (lt : line_text) (sl : simple_label) (srf : simple_label_reduction_features)
    (bom cr : bool) (rest : list byte) :
  lt_words lt = numeral_text <$> nums -> Forall number_ok nums -> line_ok lt ->
  simple_numbers nums (simple_rf (ex_reduction_features e)) = Some (sl, srf) ->
  Byte.x0a ∉ line_chars lt -> (bom = false -> take 3 (line_chars lt ++ end_of_line cr) <> bom_chars true) ->
  wf b -> stream b = bom_chars bom ++ line_chars lt ++ end_of_line cr ++ rest ->
  let rf := ex_reduction_features e in
  let e1 := set_label (set_simple sl (ex_l e)) (ReductionFeatures srf (continuous_rf rf) (graph_feedback_rf rf)) e in
  let tag := match lt_tag lt with Some (_, tag) => tag | None => [] end in
  exists b', read_features_string cfg SIMPLE ldict alloc e b =
      Done (length (bom_chars bom ++ line_chars lt ++ end_of_line cr), (apply_namespaces cfg (lt_namespaces lt) (add_tag tag e1), 0%nat), b') /\
    stream b' = rest /\ wf b'.
Proof. apply read_simple_ok. Qed.

(** ** The parser ends, and lists the groups that have features *)

(** The groups of derived features. *)
Definition derived : list byte := [AFFIX_NAMESPACE; SPELLING_NAMESPACE; DICTIONARY_NAMESPACE].

(** The namespaces listed are those with features, each once. *)
Definition indices_exact (e : example) : Prop :=
  NoDup (ex_indices e) /\ forall i, i ∈ ex_indices e <-> group_empty i e = false.

Section Invariant.
Context (cfg : text_config) (line : string_view).
Implicit Type st : tc.

(** While a namespace is read its index may not be listed yet. *)
Definition open_exact (i : byte) (new : bool) (e : example) : Prop :=
  NoDup (ex_indices e) /\ (forall j, j <> i -> j ∈ ex_indices e <-> group_empty j e = false) /\
  if new then i ∉ ex_indices e else i ∈ ex_indices e /\ group_empty i e = false.

Lemma group_set i j fs e : group j (set_group i fs e) = if decide (j = i) then fs else group j e.
Proof. done. Qed.

Lemma group_empty_values i fs e : group_empty i (set_group i fs e) = (length (values fs) =? 0)%nat.
Proof. unfold group_empty. by rewrite group_set, decide_True. Qed.
Lemma group_empty_other i j fs e : j <> i -> group_empty j (set_group i fs e) = group_empty j e.
Proof. intros Hj. unfold group_empty. by rewrite group_set, decide_False. Qed.

(** Giving a listed derived group features, or listing it with them. *)
Lemma derived_exact d i new e fs : d <> i -> values fs <> [] -> open_exact i new e -> open_exact i new (set_group d fs (list_if_empty d e)).
Proof.
  intros Hd Hfs (Hnd & Hother & Hi). assert (group_empty d e = match values (group d e) with [] => true | _ => false end) as Hge by (unfold group_empty; by destruct (values (group d e))).
  assert (forall e', ex_feature_space e' = ex_feature_space e -> group_empty i (set_group d fs e') = group_empty i e) as Hgi.
  { intros e' He. rewrite group_empty_other by done. unfold group_empty, group. by rewrite He. }
  unfold list_if_empty. destruct (values (group d e)) eqn:E.
  - assert (d ∉ ex_indices e) as Hnot by (intros Hin; apply Hother in Hin; [|done]; congruence). split_and!; cbn.
    + apply NoDup_app. split_and!; [done| |by apply NoDup_singleton]. intros x Hx Hin%list_elem_of_singleton. congruence.
    + intros j Hj. rewrite elem_of_app, list_elem_of_singleton. destruct (decide (j = d)) as [->|Hjd].
      * change (set_group d fs (push_index d e)) with (set_group d fs (push_index d e)). rewrite group_empty_values. destruct (values fs); [done|]. split; [done|by right].
      * rewrite group_empty_other by done. rewrite (Hother j Hj). split; [by intros [|]|by left].
    + destruct new; [rewrite elem_of_app, list_elem_of_singleton; intros [|]; congruence|]. destruct Hi. split; [rewrite elem_of_app; by left|by rewrite Hgi].
  - split_and!; [done| |].
    + intros j Hj. cbn. destruct (decide (j = d)) as [->|Hjd].
      * rewrite group_empty_values, (Hother d Hj), Hge. by destruct (values fs).
      * rewrite group_empty_other by done. by apply Hother.
    + destruct new; [done|]. rewrite Hgi by done. done.
Qed.

Lemma push_back_values (v : f32) w fs : values (push_back v w fs) <> [].
Proof. cbn. by destruct (values fs). Qed.
Lemma push_back_ns_values (v : f32) w h fs : values (push_back_ns v w h fs) <> [].
Proof. unfold push_back_ns. cbn. intros [_ Hx]%app_nil. done. Qed.
Lemma audit_values (a : bool) name (fs : features f32) : values (if a then push_name name fs else fs) = values fs.
Proof. by destruct a. Qed.

Lemma push_affixes_values fuel : forall affix i v hash name fs, values fs <> [] -> values (push_affixes cfg fuel affix i v hash name fs) <> [].
Proof.
  induction fuel as [|fuel IH]; intros affix i v hash name fs Hfs; [done|]. cbn [push_affixes]. case_if; [done|].
  apply IH. rewrite audit_values. apply push_back_ns_values.
Qed.

Lemma push_affixes_some fuel affix i v hash name fs : 0 < affix -> values (push_affixes cfg (S fuel) affix i v hash name fs) <> [].
Proof.
  intros Ha. cbn [push_affixes]. rewrite (proj2 (Z.eqb_neq affix 0)) by lia. apply push_affixes_values. rewrite audit_values. apply push_back_ns_values.
Qed.

(** Changing the group being read: its features may grow. *)
Lemma set_current_exact i new e fs : (values (group i e) <> [] -> values fs <> []) -> open_exact i new e -> open_exact i new (set_group i fs e).
Proof.
  intros Hfs (Hnd & Hother & Hi). split_and!; [done|intros j Hj; rewrite group_empty_other by done; by apply Hother|].
  destruct new; [done|]. destruct Hi as [Hin Hne]. split; [done|]. rewrite group_empty_values. unfold group_empty in Hne.
  destruct (values (group i e)); [done|]. by destruct (values fs); [destruct Hfs|].
Qed.

Lemma derived_ne i d : i ∉ derived -> d ∈ derived -> d <> i.
Proof. by intros Hi Hd ->. Qed.

Lemma add_affixes_exact i new v hash name e : i ∉ derived -> open_exact i new e -> open_exact i new (add_affixes cfg i v hash name e).
Proof.
  intros Hi He. unfold add_affixes. destruct name as [|c name]; [done|]. destruct (0 <? affix_features cfg i) eqn:E; [|done]. apply Z.ltb_lt in E.
  apply derived_exact; [apply (derived_ne i); [done|byte_in]| |done]. by apply (push_affixes_some 15).
Qed.

Lemma add_spelling_exact i new v hash name e : i ∉ derived -> open_exact i new e -> open_exact i new (add_spelling cfg i v hash name e).
Proof.
  intros Hi He. unfold add_spelling. case_if; [|done]. apply derived_exact; [apply (derived_ne i); [done|byte_in]| |done].
  rewrite audit_values. apply push_back_ns_values.
Qed.

Lemma add_dictionaries_exact i new name e : i ∉ derived -> open_exact i new e -> open_exact i new (add_dictionaries cfg i name e).
Proof.
  intros Hi. unfold add_dictionaries. revert e; induction (namespace_dictionaries cfg i) as [|m ms IH]; intros e He; [done|]. cbn [fold_left]. apply IH.
  unfold add_dictionary. destruct (m name) as [feats|]; [|done]. destruct (values feats) as [|x xs] eqn:Ex; [done|].
  apply derived_exact; [apply (derived_ne i); [done|byte_in]| |done]. cbn. intros [_ Hx]%app_nil. done.
Qed.

Lemma add_feature_exact i base hash name s v w new e : i ∉ derived -> open_exact i new e -> open_exact i new (add_feature cfg i base hash name s v w e).
Proof.
  intros Hi He. unfold add_feature. apply add_dictionaries_exact, add_spelling_exact, add_affixes_exact; try done.
  apply set_current_exact; [|done]. intros _. rewrite audit_values. apply push_back_values.
Qed.

(** *** Every step comes to a result *)

(** A number somewhere on the line for which [parse_float] is undefined. *)
Definition bad_number : Prop :=
  exists k, parse_float f32_infinity strtof (Some (length (chars line) - k)%nat) (data (view_drop k line)) = None.
Definition ends {A} (m : io_result A) (P : A -> Prop) : Prop :=
  match m with Done a => P a | Throw => strict_parse cfg = true | Undefined => bad_number | NoFuel => False end.

Lemma ends_bind {A B} (m : io_result A) (f : A -> io_result B) (P : A -> Prop) (Q : B -> Prop) :
  ends m P -> (forall a, P a -> ends (f a) Q) -> ends (io_bind m f) Q.
Proof. destruct m; cbn; auto. Qed.

Lemma warning_ends st (P : tc -> Prop) : P (add_warning st) -> ends (parser_warning cfg st) P.
Proof. unfold parser_warning. intros HP. destruct (strict_parse cfg) eqn:E; [done|]. exact HP. Qed.

Lemma float_ends st (P : f32 * nat -> Prop) : (forall r, P r) -> ends (float_at line st) P.
Proof.
  intros HP. unfold float_at. destruct (parse_float _ _ _ _) as [r|] eqn:E; cbn; [apply HP|]. exists (read_idx st).
  unfold rest_of_line in E. cbn [view_drop chars] in E. by rewrite length_drop in E.
Qed.

(** The cursor moves on; the namespace, its group and its listing stay as they should. *)
Definition steps (st st' : tc) : Prop :=
  (read_idx st <= read_idx st')%nat /\ index st' = index st /\ new_index st' = new_index st /\
  (index st ∉ derived -> open_exact (index st) (new_index st) (ae st) -> open_exact (index st) (new_index st) (ae st')).
(** As before, and the example is the same. *)
Definition moves (st st' : tc) : Prop := (read_idx st <= read_idx st')%nat /\ index st' = index st /\ new_index st' = new_index st /\ ae st' = ae st.

Lemma moves_steps st st1 st2 : moves st st1 -> steps st1 st2 -> steps st st2.
Proof. intros (H1 & H2 & H3 & H4) (K1 & K2 & K3 & K4). rewrite H2, H3, H4 in *. split_and!; try congruence; [lia|done]. Qed.

Lemma steps_trans st st1 st2 : steps st st1 -> steps st1 st2 -> steps st st2.
Proof. intros (H1 & H2 & H3 & H4) (K1 & K2 & K3 & K4). rewrite H2, H3 in *. split_and!; try congruence; [lia|auto]. Qed.

Lemma value_float_ends st : ends (is_feature_value_float cfg line st) (fun r => moves st r.2).
Proof.
  unfold is_feature_value_float. repeat case_if; [by split_and!| |apply ends_bind with (moves st); [by apply warning_ends; split_and!|by intros]].
  eapply ends_bind; [by apply (float_ends _ (fun _ => True))|]. intros [x n] _. case_if; [cbn; split_and!; cbn; try done; lia|].
  apply ends_bind with (fun r => moves st r.2).
  - destruct (isnan x); [|split_and!; cbn; try done; lia]. apply ends_bind with (moves st); [|by intros].
    apply warning_ends. split_and!; cbn; try done; lia.
  - intros [y st1] (H1 & H2 & H3 & H4). cbn in *. split_and!; cbn; try done. lia.
Qed.

Lemma maybe_feature_ends st : ends (maybe_feature cfg line st) (steps st).
Proof.
  unfold maybe_feature. case_if; [by split_and!|]. destruct (read_name line st) as [name st1] eqn:En.
  assert (moves st st1) as Hm1 by (unfold read_name in En; injection En as _ <-; split_and!; cbn; try done; lia).
  eapply ends_bind; [apply value_float_ends|]. intros [[b x] st2] Hm2. cbn [snd] in Hm2.
  destruct (if b then ([], st2) else string_feature_value line st2) as [str_value st3] eqn:Es.
  assert (moves st2 st3) as Hm3.
  { destruct b; [injection Es as _ <-; by split_and!|]. unfold string_feature_value in Es. injection Es as _ <-. split_and!; cbn; try done; lia. }
  destruct (hash_feature cfg name str_value st3) as [w st4] eqn:Eh.
  assert (moves st3 st4) as Hm4 by (unfold hash_feature in Eh; destruct str_value, name; injection Eh as _ <-; by split_and!).
  assert (moves st st4) as Hm by (destruct Hm1 as (? & ? & ? & ?), Hm2 as (? & ? & ? & ?), Hm3 as (? & ? & ? & ?), Hm4 as (? & ? & ? & ?); split_and!; try congruence; lia).
  eapply (moves_steps st st4) with (st2 := st4) in Hm as Hsteps; [|by split_and!].
  case_if; [exact Hsteps|]. cbn [ends]. eapply moves_steps; [exact Hm|]. split_and!; try done. intros Hi He. by apply add_feature_exact.
Qed.

Lemma at_lt st c : at_ line st = Some c -> (read_idx st < length (chars line))%nat.
Proof. apply lookup_lt_Some. Qed.

Lemma list_features_ends fuel : forall st, (length (chars line) - read_idx st < fuel)%nat -> ends (list_features_loop cfg line fuel st) (steps st).
Proof.
  induction fuel as [|fuel IH]; intros st Hf; [lia|]. cbn [list_features_loop]. case_bool_decide as Hat; [|by split_and!].
  assert (read_idx st < length (chars line))%nat as Hlt by (destruct Hat as [Hat|Hat]; by apply at_lt in Hat).
  eapply ends_bind; [apply maybe_feature_ends|]. intros st1 Hs.
  assert (steps st st1) as Hs1 by (eapply moves_steps; [|exact Hs]; split_and!; cbn; try done; lia).
  assert (read_idx st < read_idx st1)%nat as Hlt1 by (destruct Hs as [Hle _]; cbn in Hle; lia).
  specialize (IH st1 ltac:(lia)). destruct (list_features_loop cfg line fuel st1); cbn in *; try done. by eapply steps_trans.
Qed.

Lemma features_end st : ends (list_features cfg line st) (steps st).
Proof.
  unfold list_features. apply ends_bind with (steps st).
  - apply list_features_ends. unfold line_fuel. lia.
  - intros st1 Hs. case_if; [done|]. apply warning_ends. eapply steps_trans; [exact Hs|]. by split_and!.
Qed.

Lemma info_value_ends st : ends (name_space_info_value cfg line st) (moves st).
Proof.
  unfold name_space_info_value. repeat case_if; [by split_and!| |by apply warning_ends; split_and!].
  eapply ends_bind; [by apply (float_ends _ (fun _ => True))|]. intros [x n] _.
  apply ends_bind with (moves st); [case_if; [apply warning_ends|]; split_and!; cbn; try done; lia|].
  intros st1 Hm1. apply ends_bind with (moves st).
  - case_if; [apply warning_ends|exact Hm1]. destruct Hm1 as (? & ? & ? & ?). by split_and!.
  - intros st2 (? & ? & ? & ?). split_and!; cbn; try done. lia.
Qed.

(** *** Namespaces *)

(** No namespace of the line has the letter of a derived group. *)
Definition letters_ok : Prop :=
  forall k c, chars line !! k = Some BAR -> chars line !! S k = Some c -> match redefine cfg with Some f => f c | None => c end ∉ derived.

Lemma exact_open e i : indices_exact e -> open_exact i (group_empty i e) e.
Proof.
  intros [Hnd Hin]. split_and!; [done|by intros j _|]. destruct (group_empty i e) eqn:E; [|by rewrite Hin].
  intros Hi%Hin. congruence.
Qed.

Lemma open_close e i new : open_exact i new e -> indices_exact (if new && negb (group_empty i e) then push_index i e else e).
Proof.
  intros (Hnd & Hother & Hi). destruct new; cbn [andb].
  - destruct (group_empty i e) eqn:E; cbn [negb]; split; try done.
    + intros j. destruct (decide (j = i)) as [->|Hj]; [|by apply Hother]. by rewrite E.
    + cbn. apply NoDup_app. split_and!; [done| |by apply NoDup_singleton]. intros x Hx Hin%list_elem_of_singleton. by subst.
    + intros j. cbn. rewrite elem_of_app, list_elem_of_singleton. change (group_empty j (push_index i e)) with (group_empty j e).
      destruct (decide (j = i)) as [->|Hj]; [rewrite E; tauto|]. rewrite (Hother j Hj). tauto.
  - split; [done|]. intros j. destruct (decide (j = i)) as [->|Hj]; [|by apply Hother]. by destruct Hi as [? ->].
Qed.

Lemma same_values_exact e i fs : values fs = values (group i e) -> indices_exact e -> indices_exact (set_group i fs e).
Proof.
  intros Hv [Hnd Hin]. split; [done|]. intros j. cbn. rewrite Hin. destruct (decide (j = i)) as [->|Hj].
  - rewrite group_empty_values, Hv. done.
  - by rewrite group_empty_other.
Qed.

(** The part after the name: what the namespace adds. *)
Lemma opened_ends st : index st ∉ derived -> new_index st = group_empty (index st) (ae st) -> indices_exact (ae st) ->
  ends (do st <- list_features cfg line (start_extent st); Done (true, st))
    (fun r => r.1 = true /\ (read_idx st <= read_idx r.2)%nat /\ open_exact (index r.2) (new_index r.2) (ae r.2)).
Proof.
  intros Hi Hnew He. eapply ends_bind; [apply features_end|]. intros st1 (H1 & H2 & H3 & H4). cbn [fst snd]. split_and!; [done|exact H1|].
  cbn [fst snd]. rewrite H2, H3. apply H4; [done|]. cbn [start_extent set_ae ae index new_index]. apply set_current_exact; [done|]. rewrite Hnew. by apply exact_open.
Qed.

Lemma name_space_ends st : letters_ok -> (exists k, read_idx st = S k /\ chars line !! k = Some BAR) -> indices_exact (ae st) ->
  ends (name_space cfg line st) (fun st' => (read_idx st <= read_idx st')%nat /\ indices_exact (ae st')).
Proof.
  intros Hletters (k & Hk & Hbar) He. unfold name_space.
  apply ends_bind with (fun r => (read_idx st <= read_idx r.2)%nat /\
    (open_exact (index r.2) (new_index r.2) (ae r.2) \/ new_index r.2 = false /\ indices_exact (ae r.2))).
  - unfold name_space_features. case_if; [|case_if].
    + destruct st as [ri ch nw an hs bs ix e ws]. cbn in *. refine (_ (opened_ends (Tc ri f32_one (group_size DEFAULT_NAMESPACE (begin_name_space (Tc ri ch nw an hs bs ix e ws)) =? 0)%nat 0 (default_channel_hash cfg) (if audit cfg then [SPACE] else bs) DEFAULT_NAMESPACE e ws) _ _ _)); [|cbn..].
      * cbn. destruct (list_features _ _ _); cbn; try done. intros (_ & H1 & H2). auto.
      * intros Hin. apply (bool_decide_pack _) in Hin. vm_compute in Hin. done.
      * done.
      * done.
    + assert (exists c, at_ line (begin_name_space st) = Some c /\ bool_decide (c ∈ [BAR; SPACE; TAB; COLON; CR]) = false) as (c & Hat & Hc).
      { unfold at_end_or in E. destruct (at_ line (begin_name_space st)) as [c|]; [|done]. exists c. split; [done|]. bprop.
        apply bool_decide_eq_false in E. apply bool_decide_false. case_bool_decide as Hcol; [done|]. revert E. rewrite !elem_of_cons.
        intros Hn [->|[->|[->|[->|[->|Hx]]]]]; tauto. }
      unfold name_space_info. rewrite Hat, Hc. destruct (read_name line (begin_name_space st)) as [name st1] eqn:En.
      assert (moves (begin_name_space st) st1) as (M1 & M2 & M3 & M4) by (unfold read_name in En; injection En as _ <-; split_and!; cbn; try done; lia).
      eapply ends_bind; [apply info_value_ends|]. intros st2 (N1 & N2 & N3 & N4). cbn in *.
      assert (match redefine cfg with Some f => f c | None => c end ∉ derived) as Hnd.
      { apply (Hletters k); [done|]. unfold at_ in Hat. cbn in Hat. by rewrite <- Hk. }
      refine (_ (opened_ends st2 _ _ _)); [|by rewrite N2| |by rewrite N4, M4].
      * destruct (list_features _ _ _); cbn; try done. intros (_ & H1 & H2). split; [lia|auto].
      * rewrite N2, N3, N4, M4. done.
    + apply ends_bind with (fun st' => st' = add_warning (begin_name_space st)); [by apply warning_ends|]. intros st1 ->. cbn. split; [done|by right].
  - intros [b st1] [Hle Hcase]. cbn [fst snd] in *. cbn [ends].
    assert (indices_exact (ae (if new_index st1 && (0 <? group_size (index st1) st1)%nat then set_ae (push_index (index st1) (ae st1)) st1 else st1))) as Hex.
    { assert ((0 <? group_size (index st1) st1)%nat = negb (group_empty (index st1) (ae st1))) as -> by (unfold group_size, group_empty; by destruct (values (group (index st1) (ae st1)))).
      destruct Hcase as [Hopen|[-> Hex]]; [|done]. apply open_close in Hopen. by destruct (new_index st1 && _). }
    assert (forall s : tc, read_idx (if new_index s && (0 <? group_size (index s) s)%nat then set_ae (push_index (index s) (ae s)) s else s) = read_idx s) as Hri by (intros; by case_if).
    specialize (Hri st1). revert Hex Hri. set (st2 := if new_index st1 && _ then _ else _). intros Hex Hri. destruct b; cbn; (split; [lia|]); [|done].
    by apply same_values_exact.
Qed.

Lemma list_name_space_ends fuel : forall st, letters_ok -> (length (chars line) - read_idx st < fuel)%nat -> indices_exact (ae st) ->
  ends (list_name_space_loop cfg line fuel st) (fun st' => indices_exact (ae st')).
Proof.
  induction fuel as [|fuel IH]; intros st Hl Hf He; [lia|]. cbn [list_name_space_loop]. case_bool_decide as Hat; [|done].
  pose proof (at_lt _ _ Hat) as Hlt. eapply ends_bind; [apply name_space_ends; [done|by exists (read_idx st)|done]|].
  intros st1 [Hle He1]. cbn in Hle. apply IH; [done|lia|done].
Qed.
End Invariant.

(** C16: the parser of features ends on every line, well formed or not. It throws only in strict
    mode; its result is undefined only if the line has a number that [parse_float] reads beyond the
    memory or whose exponent overflows. An example that lists exactly its groups that have features,
    each once, is left so - as long as no namespace has the letter of a derived group. *)
Theorem tc_parser_ends (cfg : text_config) (line : string_view) (e : example) :
  letters_ok cfg line -> indices_exact e ->
  match tc_parser cfg line e with
  | Done (e', _) => indices_exact e'
  | Throw => strict_parse cfg = true
  | Undefined => bad_number line
  | NoFuel => False
  end.
Proof.
  intros Hl He. unfold tc_parser. case_if; [done|].
  assert (ends cfg line (do st <- list_name_space cfg line (Tc 0 f32_zero false 0 0 [] Byte.x00 e 0); Done (ae st, warnings st)) (fun r => indices_exact r.1)) as Hends.
  { apply ends_bind with (fun st => indices_exact (ae st)); [|done]. unfold list_name_space. apply ends_bind with (fun st => indices_exact (ae st)).
    - apply list_name_space_ends; [done| |done]. unfold line_fuel. lia.
    - intros st He'. case_if; [done|]. by apply warning_ends. }
  destruct (do st <- list_name_space _ _ _; _) as [[e' w]| | |]; exact Hends.
Qed.

(** * Witnesses *)

Definition sample_text_config : text_config :=
  TextConfig Hashall None (fun c => if is_chr Byte.x61 c then 0x34 else 0) (fun _ => false) (fun _ => []) 0 (2 ^ 18 - 1) true false.
Definition sample_example : example := Example_ sample_polylabel sample_rf [] false [] (fun _ => fs_empty) false.
Definition digits (s : String.string) : numeral := Numeral false (str s) None None.
Arguments digits s%_string_scope.

(** [1 2 'tag|a:2 x:3 :1 y:red |b z ] *)
Definition sample_line : line_text :=
  LineText [str "1"; str "2"] (Some (true, str "tag"))
    [NamespaceText (str "a") (Some (digits "2"))
       [FeatureText (str "x") (Number (digits "3")); FeatureText [] (Number (digits "1")); FeatureText (str "y") (Text (str "red"))];
     NamespaceText (str "b") None [FeatureText (str "z") NoValue]].
Definition sample_text : list byte := bom_chars true ++ str "1 2 'tag|a:2 x:3 :1 y:red |b z " ++ [CR; Byte.x0a] ++ str "next".
Definition sample_input (bs : list byte) : io_buf buffer_view vector_writer := IoBuf (replicate 8 Byte.x00) 0 0 0 false 0 0 [BufferView bs 0] [].

#[local] Instance name_char_dec c : Decision (name_char c).
Proof. unfold name_char. apply _. Defined.
#[local] Instance word_char_dec c : Decision (word_char c).
Proof. unfold word_char. apply _. Defined.
Ltac by_decide := apply (bool_decide_unpack _); vm_compute; exact I.

Lemma digits_ok s : Forall (fun c => is_digit c = true) (str s) -> str s <> [] -> is_number (number_of (digits s)) -> number_ok (digits s).
Proof. intros Hd Hne Hn. split; [|done]. split; cbn; auto; split; [constructor|lia]. Qed.
Ltac digits_ok := apply digits_ok; [by_decide|discriminate|vm_compute; reflexivity].

#[local] Instance name_ok_dec n : Decision (name_ok n).
Proof. unfold name_ok. apply _. Defined.

Lemma sample_features_ok : Forall feature_ok [FeatureText (str "x") (Number (digits "3")); FeatureText [] (Number (digits "1")); FeatureText (str "y") (Text (str "red"))].
Proof.
  apply Forall_cons. split; [split; cbn [ft_name ft_value]; [by_decide|digits_ok]|].
  apply Forall_cons. split; [split; cbn [ft_name ft_value]; [by_decide|digits_ok]|].
  apply Forall_cons. split; [|apply Forall_nil, I]. split; cbn [ft_name ft_value]; [by_decide|].
  split; [|by_decide]. split; [reflexivity|]. split; [reflexivity|by_decide].
Qed.

Lemma sample_line_ok : line_ok sample_line.
Proof.
  split; [|split; [|split]].
  - repeat constructor; done.
  - cbn [sample_line lt_tag tag_ok]. by_decide.
  - discriminate.
  - apply Forall_cons. split.
    + split; [by_decide|]. split; [|exact sample_features_ok]. split; [digits_ok|discriminate].
    + apply Forall_cons. split; [|apply Forall_nil, I]. split; [by_decide|]. split; [exact I|].
      apply Forall_cons. split; [|apply Forall_nil, I]. split; cbn [ft_name ft_value]; [by_decide|discriminate].
Qed.

(** The feature [x:3] of a namespace with value 2, with its prefix of two characters as affix. *)
Lemma read_simple_example_witness :
  exists e' b', read_features_string sample_text_config SIMPLE None (fun _ => 0) sample_example (sample_input sample_text) = Done (36%nat, (e', 0%nat), b') /\
    stream b' = str "next" /\ ex_tag e' = str "tag" /\ ex_indices e' = [AFFIX_NAMESPACE; Byte.x61; Byte.x62] /\
    sl_label (simple (ex_l e')) = f32_one /\ values (group Byte.x61 e') = [number_of (digits "6"); number_of (digits "2"); f32_one].
Proof.
  destruct (read_simple_example (fun _ => 0) sample_text_config None sample_example (sample_input sample_text) [digits "1"; digits "2"] sample_line
    (SimpleLabel (number_of (digits "1"))) (SimpleRF (number_of (digits "2")) f32_zero) true true (str "next")) as (b' & E & Hs & _).
  - reflexivity.
  - apply Forall_cons. split; [digits_ok|]. apply Forall_cons. split; [digits_ok|apply Forall_nil, I].
  - exact sample_line_ok.
  - reflexivity.
  - by_decide.
  - discriminate.
  - unfold wf. cbn. lia.
  - vm_compute. reflexivity.
  - eexists _, b'. split; [exact E|]. split; [exact Hs|]. split; [vm_compute; reflexivity|]. split; [vm_compute; reflexivity|].
    split; [vm_compute; reflexivity|]. vm_compute. reflexivity.
Defined.

Lemma sample_indices_exact : indices_exact sample_example.
Proof. split; [by apply NoDup_nil|]. intros i. cbn. by rewrite elem_of_nil. Qed.

Lemma tc_parser_ends_witness :
  let line := View (str "|a x:1 |a y |b:zz ") [Byte.x0a] in
  tc_parser sample_text_config line sample_example = Throw /\ strict_parse sample_text_config = true.
Proof.
  pose proof (tc_parser_ends sample_text_config (View (str "|a x:1 |a y |b:zz ") [Byte.x0a]) sample_example) as Hends.
  assert (tc_parser sample_text_config (View (str "|a x:1 |a y |b:zz ") [Byte.x0a]) sample_example = Throw) as E by (vm_compute; reflexivity).
  rewrite E in Hends. split; [exact E|]. apply Hends.
  - intros k c Hk Hc. assert (k < 18)%nat as Hlt by exact (lookup_lt_Some _ _ _ Hk).
    do 18 (destruct k as [|k]; [vm_compute in Hk, Hc; try discriminate Hk; injection Hc as <-; cbn [redefine sample_text_config]; by_decide|]). lia.
  - exact sample_indices_exact.
Defined.

(** A feature whose value is missing takes the next word as its value, also if a namespace begins
    there: [b] is lost and [z] goes to [a]. A string value that begins with [e] is read as 0 and its
    feature dropped. *)
Lemma missing_value_takes_namespace :
  exists e', tc_parser sample_text_config (View (str "|a x: |b z") [Byte.x0a]) sample_example = Done (e', 0%nat) /\
    group_empty Byte.x62 e' = true /\ length (values (group Byte.x61 e')) = 2%nat.
Proof. eexists. split; [vm_compute; reflexivity|]. split; vm_compute; reflexivity. Qed.

Lemma value_of_e_is_dropped :
  exists e', tc_parser sample_text_config (View (str "|a x:e y:f") [Byte.x0a]) sample_example = Done (e', 0%nat) /\
    length (values (group Byte.x61 e')) = 1%nat.
Proof. eexists. split; [vm_compute; reflexivity|]. vm_compute; reflexivity. Qed.
