(* ===== verification/Learner.v ===== *)
(** * The interface of learners ([core/include/vw/core/learner.h], [core/src/learner.cc])

    A learner predicts and learns by functions bound to its data; a reduction calls the learner
    below it with an offset that selects one of the models of the learner below. This file holds
    the calls with their offsets, the builder of reductions, what a base learner promises
    ([Answers], [Learns]) with the instances of gradient descent and the scorer, and the first
    reductions: the scorer and the binary loss ([core/src/reductions/scorer.cc], [binary.cc]). *)

From S2P Require Import Prelude.
From S2P Require Import Features.
From S2P Require Import Losses.
From S2P Require Import Weights.
From S2P Require Import Gd.

(** ** Examples, as reductions see them *)

Section Data.
Context {F : Type}.

Record cb_class := CbClass { cost : F; action : Z; probability : F }.
Record continuous_label_elm := ContinuousElm { cont_action : F; cont_cost : F; cont_pdf_value : F }.

(** [polylabel] *)
Record polylabel := Polylabel { simple : F; multi : Z; cb : list cb_class; cb_cont : list continuous_label_elm; multilabels : list Z }.

Record pdf_segment := PdfSegment { left : F; right : F; pdf_value : F }.

(** [polyprediction] *)
Record polyprediction := Polyprediction {
  scalar : F; scalars : list F; multiclass : Z; a_s : list (Z * F); pdf : list pdf_segment; pdf_action : F; pdf_density : F;
  pred_multilabels : list Z
}.
End Data.
Arguments cb_class : clear implicits.
Arguments continuous_label_elm : clear implicits.
Arguments polylabel : clear implicits.
Arguments pdf_segment : clear implicits.
Arguments polyprediction : clear implicits.

Section Setters.
Context {F X : Type}.

(** [ex_x] is all that reductions leave alone: the features and their interactions. [rf_weight] and
    [rf_initial] are [simple_label_reduction_features]. *)
Record example := Example {
  ex_x : X; ft_offset : Z; weight : F; loss : F; partial_prediction : F; rf_weight : F; rf_initial : F;
  l : polylabel F; pred : polyprediction F
}.
Implicit Type ec : example.

Definition set_offset (o : Z) ec : example := Example (ex_x ec) o (weight ec) (loss ec) (partial_prediction ec) (rf_weight ec) (rf_initial ec) (l ec) (pred ec).
Definition set_weight (w : F) ec : example := Example (ex_x ec) (ft_offset ec) w (loss ec) (partial_prediction ec) (rf_weight ec) (rf_initial ec) (l ec) (pred ec).
Definition set_loss (x : F) ec : example := Example (ex_x ec) (ft_offset ec) (weight ec) x (partial_prediction ec) (rf_weight ec) (rf_initial ec) (l ec) (pred ec).
Definition set_partial (p : F) ec : example := Example (ex_x ec) (ft_offset ec) (weight ec) (loss ec) p (rf_weight ec) (rf_initial ec) (l ec) (pred ec).
Definition set_l (y : polylabel F) ec : example := Example (ex_x ec) (ft_offset ec) (weight ec) (loss ec) (partial_prediction ec) (rf_weight ec) (rf_initial ec) y (pred ec).
Definition set_pred (p : polyprediction F) ec : example := Example (ex_x ec) (ft_offset ec) (weight ec) (loss ec) (partial_prediction ec) (rf_weight ec) (rf_initial ec) (l ec) p.

Definition set_simple (y : F) ec : example := set_l (Polylabel y (multi (l ec)) (cb (l ec)) (cb_cont (l ec)) (multilabels (l ec))) ec.
Definition set_multi (y : Z) ec : example := set_l (Polylabel (simple (l ec)) y (cb (l ec)) (cb_cont (l ec)) (multilabels (l ec))) ec.
Definition set_multilabels (ys : list Z) ec : example := set_l (Polylabel (simple (l ec)) (multi (l ec)) (cb (l ec)) (cb_cont (l ec)) ys) ec.
Definition set_cb (cs : list (cb_class F)) ec : example := set_l (Polylabel (simple (l ec)) (multi (l ec)) cs (cb_cont (l ec)) (multilabels (l ec))) ec.
Definition set_scalar (x : F) ec : example :=
  let p := pred ec in set_pred (Polyprediction x (scalars p) (multiclass p) (a_s p) (pdf p) (pdf_action p) (pdf_density p) (pred_multilabels p)) ec.
Definition set_scalars (xs : list F) ec : example :=
  let p := pred ec in set_pred (Polyprediction (scalar p) xs (multiclass p) (a_s p) (pdf p) (pdf_action p) (pdf_density p) (pred_multilabels p)) ec.
Definition set_multiclass (y : Z) ec : example :=
  let p := pred ec in set_pred (Polyprediction (scalar p) (scalars p) y (a_s p) (pdf p) (pdf_action p) (pdf_density p) (pred_multilabels p)) ec.

(** [simple_label_reduction_features::reset_to_default] *)
Definition reset_to_default `{Num F} ec : example :=
  Example (ex_x ec) (ft_offset ec) (weight ec) (loss ec) (partial_prediction ec) (n_of_Z 1) (n_of_Z 0) (l ec) (pred ec).

(** ** Learners *)

(** What a learner is made of: [feature_width_below] and the functions bound to its data, which is
    the state [M]. [None] as a result is behaviour C++ leaves undefined; a learner may have no
    multipredict function. The array of predictions multipredict fills is the list of their scalars. *)
Record learner (M : Type) := Learner {
  feature_width_below : Z;
  learn_f : M -> example -> option (M * example);
  predict_f : M -> example -> option (M * example);
  update_f : M -> example -> option (M * example);
  multipredict_f : option (M -> example -> nat -> Z -> bool -> option (M * example * list F))
}.
End Setters.
Arguments example : clear implicits.
Arguments learner : clear implicits.
Arguments Learner {F X M}.
Arguments feature_width_below {F X M}.
Arguments learn_f {F X M}.
Arguments predict_f {F X M}.
Arguments update_f {F X M}.
Arguments multipredict_f {F X M}.

Section Calls.
Context {F X M : Type}.
Implicit Types (ec : example F X) (base : learner F X M) (m : M).

(** The product is cut to 32 bits before it is added to the 64 bits of the offset. *)
Definition increment_offset (width i : Z) ec : example F X := set_offset (u64 (ft_offset ec + u32 (u64 (width * i)))) ec.
Definition decrement_offset (width i : Z) ec : example F X := set_offset (u64 (ft_offset ec - u32 (u64 (width * i)))) ec.

Definition with_offset (f : M -> example F X -> option (M * example F X)) (width i : Z) m ec : option (M * example F X) :=
  '(m, ec) ← f m (increment_offset width i ec); Some (m, decrement_offset width i ec).

Definition learn base (i : Z) m ec : option (M * example F X) := with_offset (learn_f base) (feature_width_below base) i m ec.
Definition predict base (i : Z) m ec : option (M * example F X) := with_offset (predict_f base) (feature_width_below base) i m ec.
Definition update base (i : Z) m ec : option (M * example F X) := with_offset (update_f base) (feature_width_below base) i m ec.

Fixpoint predict_each (f : M -> example F X -> option (M * example F X)) (width : Z) (finalize : bool) (count : nat) m ec :
    option (M * example F X * list F) :=
  match count with
  | O => Some (m, ec, [])
  | S count =>
      '(m, ec) ← f m ec;
      let p := if finalize then scalar (pred ec) else partial_prediction ec in
      '(m, ec, ps) ← predict_each f width finalize count m (increment_offset width 1 ec); Some (m, ec, p :: ps)
  end.

Definition multipredict base (lo : Z) (count : nat) (finalize : bool) m ec : option (M * example F X * list F) :=
  let width := feature_width_below base in
  match multipredict_f base with
  | None =>
      '(m, ec, ps) ← predict_each (predict_f base) width finalize count m (increment_offset width lo ec);
      Some (m, decrement_offset width (u64 (lo + Z.of_nat count)) ec, ps)
  | Some f =>
      '(m, ec, ps) ← f m (increment_offset width lo ec) count width finalize; Some (m, decrement_offset width lo ec, ps)
  end.
End Calls.

(** [make_reduction_learner] with [set_feature_width]: [D] is the data of the reduction. The copy of
    the learner below drops its multipredict function, and [update] is [learn] until it is set. *)
Section Reduction.
Context {F X M D : Type}.

Definition make_reduction_learner (width : Z) (base : learner F X M)
    (learn_fn predict_fn : D -> learner F X M -> M -> example F X -> option (D * M * example F X)) : learner F X (D * M) :=
  let bind f := fun dm ec => f dm.1 base dm.2 ec in
  Learner (u64 (feature_width_below base * width)) (bind learn_fn) (bind predict_fn) (bind learn_fn) None.

Definition set_update (update_fn : D -> learner F X M -> M -> example F X -> option (D * M * example F X)) (base : learner F X M)
    (r : learner F X (D * M)) : learner F X (D * M) :=
  Learner (feature_width_below r) (learn_f r) (predict_f r) (fun dm ec => update_fn dm.1 base dm.2 ec) (multipredict_f r).
Definition set_multipredict
    (f : D -> learner F X M -> M -> example F X -> nat -> Z -> bool -> option (D * M * example F X * list F)) (base : learner F X M)
    (r : learner F X (D * M)) : learner F X (D * M) :=
  Learner (feature_width_below r) (learn_f r) (predict_f r) (update_f r) (Some (fun dm ec count step fin => f dm.1 base dm.2 ec count step fin)).
End Reduction.

(** ** The scorer and the binary loss *)

Section Scorer.
Context {F X M : Type} `{Num F, MathFns F}.
Implicit Types (ec : example F X) (base : learner F X M) (m : M).
(** The loss of a prediction and a label in the shared data of the state; [set_minmax] when the loss
    tracks the range of the labels. *)
Context (get_loss : M -> F -> F -> F) (set_minmax : option (F -> M -> M)).

Definition FLT_MAX : F := n_of_Z (2 ^ 128 - 2 ^ 104).

Definition logistic (x : F) : F := (n_of_Z 1 / (n_of_Z 1 + nexp (nopp x)))%num.
Definition glf1 (x : F) : F := (n_of_Z 2 / (n_of_Z 1 + nexp (nopp x)) - n_of_Z 1)%num.
Definition id_link (x : F) : F := x.

Definition minmax (y : F) m : M := match set_minmax with Some f => f y m | None => m end.

Definition scorer_predict_or_learn (is_learn : bool) (link : F -> F) (_ : unit) base m ec : option (unit * M * example F X) :=
  let m := if is_learn then minmax (simple (l ec)) m else m in
  let labeled := negb (simple (l ec) =? FLT_MAX)%num in
  let learns := is_learn && labeled && (weight ec >? n_of_Z 0)%num in
  '(m, ec) ← (if learns then learn base 0 m ec else predict base 0 m ec);
  let ec := if (weight ec >? n_of_Z 0)%num && negb (simple (l ec) =? FLT_MAX)%num
            then set_loss (get_loss m (scalar (pred ec)) (simple (l ec)) * weight ec)%num ec else ec in
  Some (tt, m, set_scalar (link (scalar (pred ec))) ec).

Definition scorer_multipredict (link : F -> F) (_ : unit) base m ec (count : nat) (step : Z) (finalize : bool) :
    option (unit * M * example F X * list F) :=
  '(m, ec, ps) ← multipredict base 0 count finalize m ec; Some (tt, m, ec, map link ps).

Definition scorer_update (_ : unit) base m ec : option (unit * M * example F X) :=
  '(m, ec) ← update base 0 (minmax (simple (l ec)) m) ec; Some (tt, m, ec).

(** [scorer_setup], for one of its links. *)
Definition scorer (link : F -> F) base : learner F X (unit * M) :=
  set_update scorer_update base (set_multipredict (scorer_multipredict link) base
    (make_reduction_learner 1 base (scorer_predict_or_learn true link) (scorer_predict_or_learn false link))).

Definition nfabs (x : F) : F := if (x <? n_of_Z 0)%num then nopp x else x.

Definition binary_predict_or_learn (is_learn : bool) (_ : unit) base m ec : option (unit * M * example F X) :=
  '(m, ec) ← (if is_learn : bool then learn base 0 m ec else predict base 0 m ec);
  let ec := set_scalar (if (scalar (pred ec) >? n_of_Z 0)%num then n_of_Z 1 else n_of_Z (-1)) ec in
  let y := simple (l ec) in
  Some (tt, m,
    if negb (y =? FLT_MAX)%num then
      if negb (nfabs y =? n_of_Z 1)%num then ec
      else if (y =? scalar (pred ec))%num then set_loss (n_of_Z 0) ec else set_loss (weight ec) ec
    else ec).
Definition binary base : learner F X (unit * M) :=
  make_reduction_learner 1 base (binary_predict_or_learn true) (binary_predict_or_learn false).
End Scorer.

(** ** Gradient descent as a learner *)

Section GdLearner.
Context {F D W : Type} `{Num F, Num D, Widen F D, MathFns F, MathFns D, WeightStore W F} (inv_sqrt : F -> F).
(** The fields only gradient descent uses are in [ex_x]; its copies of the others are not read. *)
Implicit Type ec : example F (Gd.example F).

Definition to_gd ec : Gd.example F :=
  let x := ex_x ec in
  Example_ (simple (l ec)) (weight ec) (rf_initial ec) (ft_offset ec) (ex_indices x) (ex_space x) (ex_interactions x)
    (ex_extent_interactions x) (ex_use_permutations x) (scalar (pred ec)) (partial_prediction ec) (ex_updated_prediction x)
    (ex_num_features_from_interactions x) (ex_total_sum_feat_sq x).
Definition of_gd ec (x : Gd.example F) : example F (Gd.example F) :=
  set_scalar (ex_pred_scalar x) (set_partial (ex_partial_prediction x)
    (Example x (ft_offset ec) (weight ec) (loss ec) (partial_prediction ec) (rf_weight ec) (rf_initial ec) (l ec) (pred ec))).

Definition gd_call (f : gd F D W -> Gd.example F -> option (gd F D W * Gd.example F)) (g : gd F D W) ec : option (gd F D W * example F (Gd.example F)) :=
  '(g, x) ← f g (to_gd ec); Some (g, of_gd ec x).
Definition gd_multipredict (l1 : bool) cfg (g : gd F D W) ec (count : nat) (step : Z) (fin : bool) :
    option (gd F D W * example F (Gd.example F) * list F) :=
  '(g, x, ps) ← Gd.multipredict l1 cfg g (to_gd ec) count step fin; Some (g, of_gd ec x, ps).

(** [gd_setup]: the width of the base learner is the stride of the weights. *)
Definition gd_learner (l1 : bool) (v : variant) (cfg : config F) (stride : Z) : learner F (Gd.example F) (gd F D W) :=
  Learner stride (gd_call (Gd.learn inv_sqrt l1 v cfg)) (gd_call (Gd.predict l1 cfg)) (gd_call (Gd.update inv_sqrt v cfg))
    (Some (gd_multipredict l1 cfg)).
End GdLearner.

(** ** What a base learner promises to a reduction *)

(** The fields of an example that a base learner may not depend on when it predicts, or may have
    written, are the label, the predictions, the loss and the weight of the label. *)
Record same_input {F X} (ec ec' : example F X) : Prop := {
  same_x : ex_x ec' = ex_x ec; same_offset : ft_offset ec' = ft_offset ec;
  same_weight : weight ec' = weight ec; same_initial : rf_initial ec' = rf_initial ec
}.

(** In the situations [I], model [i] of the first [n] predicts [score i]; predicting stays in [I] and
    keeps label and weight. *)
Class Answers {F X M} (base : learner F X M) (I : M -> example F X -> Prop) (n : Z) (score : Z -> F) : Prop := {
  answers_same m ec ec' : I m ec -> same_input ec ec' -> I m ec';
  answers_predict m ec i : I m ec -> 0 <= i < n ->
    exists m' ec', predict base i m ec = Some (m', ec') /\ scalar (pred ec') = score i /\ I m' ec' /\
      l ec' = l ec /\ weight ec' = weight ec /\ multiclass (pred ec') = multiclass (pred ec);
  answers_multi m ec (count : nat) : I m ec -> (0 < count)%nat -> Z.of_nat count <= n ->
    exists m' ec', multipredict base 0 count true m ec = Some (m', ec', (fun i => score (Z.of_nat i)) <$> seq 0 count) /\
      I m' ec' /\ l ec' = l ec /\ weight ec' = weight ec
}.

(** In the situations [J], which the label, the weight and the predictions do not change, each of the
    first [n] models learns, and stays in [J]. *)
Class Learns {F X M} (base : learner F X M) (J : M -> example F X -> Prop) (n : Z) : Prop := {
  learns_same m ec ec' : J m ec -> ex_x ec' = ex_x ec -> ft_offset ec' = ft_offset ec -> J m ec';
  learns_learn m ec i : J m ec -> 0 <= i < n -> exists m' ec', learn base i m ec = Some (m', ec') /\ J m' ec'
}.

Section Recording.
Context {F X M : Type}.
Implicit Types (ec : example F X) (base : learner F X M) (m : M).

(** A call of a base learner: where the model is, its label, the prediction in the example, the weight. *)
Record call := Call { c_offset : Z; c_label : F; c_score : F; c_weight : F }.
Definition call_of ec : call := Call (ft_offset ec) (simple (l ec)) (scalar (pred ec)) (weight ec).

(** The learner [base], with a list of what was seen of the calls it had. *)
Definition note {C} (see : M -> example F X -> C) (f : M -> example F X -> option (M * example F X)) (cm : list C * M) ec : option (list C * M * example F X) :=
  '(m, ec') ← f cm.2 ec; Some (cm.1 ++ [see cm.2 ec], m, ec').
Definition noting {C} (see : M -> example F X -> C) base : learner F X (list C * M) :=
  Learner (feature_width_below base) (note see (learn_f base)) (note see (predict_f base)) (note see (update_f base)) None.
Definition recording base : learner F X (list call * M) := noting (fun _ => call_of) base.

Definition model_offset base ec (i : Z) : Z := ft_offset (increment_offset (feature_width_below base) i ec).

Lemma noted {C} (see : M -> example F X -> C) f width i calls m ec m' ec' : with_offset f width i m ec = Some (m', ec') ->
  with_offset (note see f) width i (calls, m) ec = Some (calls ++ [see m (increment_offset width i ec)], m', ec').
Proof. unfold with_offset, note. cbn [fst snd]. destruct (f m _) as [[m1 ec1]|]; [|done]. cbn. by intros [= <- <-]. Qed.
Lemma recorded_update base i calls m ec m' ec' : update base i m ec = Some (m', ec') ->
  update (recording base) i (calls, m) ec = Some (calls ++ [call_of (increment_offset (feature_width_below base) i ec)], m', ec').
Proof. apply (noted (fun _ => call_of)). Qed.

Lemma recorded_learn base i calls m ec m' ec' : learn base i m ec = Some (m', ec') ->
  learn (recording base) i (calls, m) ec = Some (calls ++ [call_of (increment_offset (feature_width_below base) i ec)], m', ec').
Proof. apply (noted (fun _ => call_of)). Qed.
End Recording.
Arguments call : clear implicits.

(** Place, label and weight of a call. *)
Definition told_of {F} (c : call F) : Z * F * F := (c_offset c, c_label c, c_weight c).

(** In the situations [J], which labels and predictions do not change, each of the first [n] models can
    be called, and gives back offset and weight. *)
Class Taught {F X M} (f : Z -> M -> example F X -> option (M * example F X)) (J : M -> example F X -> Prop) (n : Z) : Prop := {
  taught_same m ec ec' : J m ec -> ex_x ec' = ex_x ec -> ft_offset ec' = ft_offset ec -> J m ec';
  taught_call m ec i : J m ec -> 0 <= i < n ->
    exists m' ec', f i m ec = Some (m', ec') /\ J m' ec' /\ ft_offset ec' = ft_offset ec /\ weight ec' = weight ec /\ l ec' = l ec
}.

(** A call gives the offset back. *)
Definition keeps_offset {F X M} (f : M -> example F X -> option (M * example F X)) : Prop :=
  forall m ec m' ec', f m ec = Some (m', ec') -> ft_offset ec' = ft_offset ec.

Lemma set_offset_id {F X} (ec : example F X) o : o = ft_offset ec -> set_offset o ec = ec.
Proof. intros ->. by destruct ec. Qed.

Lemma set_offset_twice {F X} (ec : example F X) o o' : set_offset o (set_offset o' ec) = set_offset o ec.
Proof. done. Qed.

Lemma increment_small {F X} (ec : example F X) width i :
  0 <= width -> 0 <= i -> width * i < 2 ^ 32 -> increment_offset width i ec = set_offset (u64 (ft_offset ec + width * i)) ec.
Proof.
  intros Hw Hi Hs. unfold increment_offset. rewrite (u64_id (width * i)), (u32_id (width * i)); [done| |]; split; try lia; nia.
Qed.

Lemma decrement_small {F X} (ec : example F X) width i :
  0 <= width -> 0 <= i -> width * i < 2 ^ 32 -> decrement_offset width i ec = set_offset (u64 (ft_offset ec - width * i)) ec.
Proof.
  intros Hw Hi Hs. unfold decrement_offset. rewrite (u64_id (width * i)), (u32_id (width * i)); [done| |]; split; try lia; nia.
Qed.

Lemma predict_offset {F X M} (base : learner F X M) i m ec m' ec' :
  keeps_offset (predict_f base) -> 0 <= ft_offset ec < 2 ^ 64 -> predict base i m ec = Some (m', ec') -> ft_offset ec' = ft_offset ec.
Proof.
  intros Hk Ho. unfold predict, with_offset. destruct (predict_f base m _) as [[m1 ec1]|] eqn:E; [|done]. cbn. intros [= <- <-]. cbn.
  apply Hk in E. rewrite E. cbn. by apply u64_plus_sub.
Qed.

(** The learner's own loop of [multipredict], as calls of [predict]. *)
Fixpoint predicts {F X M} (base : learner F X M) (lo : Z) (finalize : bool) (count : nat) (m : M) (ec : example F X) :
    option (M * example F X * list F) :=
  match count with
  | O => Some (m, ec, [])
  | S count =>
      '(m, ec) ← predict base lo m ec;
      '(m, ec', ps) ← predicts base (lo + 1) finalize count m ec;
      Some (m, ec', (if finalize then scalar (pred ec) else partial_prediction ec) :: ps)
  end.

Lemma predict_eq {F X M} (base : learner F X M) i m ec :
  keeps_offset (predict_f base) -> 0 <= feature_width_below base -> 0 <= i -> feature_width_below base * i < 2 ^ 32 -> 0 <= ft_offset ec < 2 ^ 64 ->
  predict base i m ec =
    '(m, ec') ← predict_f base m (set_offset (u64 (ft_offset ec + feature_width_below base * i)) ec); Some (m, set_offset (ft_offset ec) ec').
Proof.
  intros Hk Hw Hi Hs Ho. unfold predict, with_offset. rewrite increment_small by done.
  destruct (predict_f base m _) as [[m1 ec1]|] eqn:E; [|done]. cbn. do 2 f_equal. rewrite decrement_small by done.
  apply Hk in E. rewrite E. cbn. by rewrite u64_plus_sub.
Qed.

Lemma predict_each_predicts {F X M} (base : learner F X M) fin count : keeps_offset (predict_f base) -> 0 <= feature_width_below base ->
  forall lo m ec, 0 <= lo -> feature_width_below base * (lo + Z.of_nat count) < 2 ^ 32 -> 0 <= ft_offset ec < 2 ^ 64 ->
  predict_each (predict_f base) (feature_width_below base) fin count m (set_offset (u64 (ft_offset ec + feature_width_below base * lo)) ec) =
    '(m, ec', ps) ← predicts base lo fin count m ec;
    Some (m, set_offset (u64 (ft_offset ec + feature_width_below base * (lo + Z.of_nat count))) ec', ps).
Proof.
  intros Hk Hw. set (w := feature_width_below base) in *. induction count as [|count IH]; intros lo m ec Hlo Hs Ho; cbn [predict_each predicts].
  - cbn. by rewrite Z.add_0_r.
  - rewrite (predict_eq base lo m ec) by (done || (fold w; nia)). fold w.
    destruct (predict_f base m _) as [[m1 ec1]|] eqn:E; [|done]. cbn [mbind option_bind]. apply Hk in E. cbn in E.
    assert (increment_offset w 1 ec1 = set_offset (u64 (ft_offset ec + w * (lo + 1))) (set_offset (ft_offset ec) ec1)) as ->.
    { rewrite increment_small by (done || nia). rewrite E, set_offset_twice. f_equal. unfold u64. rewrite Zplus_mod_idemp_l. f_equal. lia. }
    pose proof (IH (lo + 1) m1 (set_offset (ft_offset ec) ec1) ltac:(lia) ltac:(lia) Ho) as E'. cbn [ft_offset set_offset] in E'. rewrite E'.
    destruct (predicts base (lo + 1) fin count m1 _) as [[[m2 ec2] ps]|]; [|done]. cbn [mbind option_bind]. do 4 f_equal; [f_equal; f_equal; lia].
Qed.

Lemma predicts_offset {F X M} (base : learner F X M) fin count : keeps_offset (predict_f base) -> forall lo m ec m' ec' ps,
  0 <= ft_offset ec < 2 ^ 64 -> predicts base lo fin count m ec = Some (m', ec', ps) -> ft_offset ec' = ft_offset ec.
Proof.
  intros Hk. induction count as [|count IH]; intros lo m ec m' ec' ps Ho; cbn [predicts]; [by intros [= _ <- _]|].
  destruct (predict base lo m ec) as [[m1 ec1]|] eqn:E; [|done]. cbn [mbind option_bind]. apply predict_offset in E; [|done|done].
  destruct (predicts base (lo + 1) fin count m1 ec1) as [[[m2 ec2] qs]|] eqn:E'; [|done]. cbn. intros [= _ <- _].
  apply IH in E'; [congruence|lia].
Qed.

(** The width of the models fits the 32 bits the code cuts offsets to. *)
Lemma multipredict_small {F X M : Type} (base : learner F X M) (lo : Z) (count : nat) (finalize : bool) (m : M) (ec : example F X) :
  multipredict_f base = None -> keeps_offset (predict_f base) -> 0 <= feature_width_below base -> 0 <= lo ->
  feature_width_below base * (lo + Z.of_nat count) < 2 ^ 32 -> lo + Z.of_nat count < 2 ^ 64 -> 0 <= ft_offset ec < 2 ^ 64 ->
  multipredict base lo count finalize m ec = predicts base lo finalize count m ec.
Proof.
  intros Hn Hk Hw Hlo Hs Hc Ho. unfold multipredict. rewrite Hn, increment_small by (done || nia).
  rewrite (predict_each_predicts base finalize count Hk Hw lo m ec Hlo Hs Ho).
  destruct (predicts base lo finalize count m ec) as [[[m' ec'] ps]|] eqn:E; [|done]. cbn [mbind option_bind]. do 3 f_equal.
  rewrite u64_id, decrement_small by (done || lia). cbn [ft_offset set_offset]. rewrite set_offset_twice, u64_plus_sub by done.
  apply set_offset_id. symmetry. by eapply predicts_offset.
Qed.

(** A learner with no multipredict function of its own predicts several models as separate calls
    of [predict] at their offsets would, and gives the offset of the example back, as long as the
    offsets, which the code cuts to 32 bits, fit in them. *)
Theorem multipredict_is_predicts {F X M : Type} (base : learner F X M) (lo : Z) (count : nat) (finalize : bool) (m : M) (ec : example F X) :
  multipredict_f base = None -> keeps_offset (predict_f base) -> 0 <= feature_width_below base -> 0 <= lo ->
  feature_width_below base * (lo + Z.of_nat count) < 2 ^ 32 -> lo + Z.of_nat count < 2 ^ 64 -> 0 <= ft_offset ec < 2 ^ 64 ->
  multipredict base lo count finalize m ec = predicts base lo finalize count m ec.
Proof. apply multipredict_small. Qed.

(** ** Reductions and tables as base learners *)

(** A learner without a multipredict function keeps the promise when its predictions do. *)
Lemma answers_of_predict {F X M} (base : learner F X M) (I : M -> example F X -> Prop) n (score : Z -> F) :
  multipredict_f base = None -> keeps_offset (predict_f base) -> 0 <= feature_width_below base -> feature_width_below base * n < 2 ^ 32 -> n < 2 ^ 64 ->
  (forall m ec, I m ec -> 0 <= ft_offset ec < 2 ^ 64) ->
  (forall m ec ec', I m ec -> same_input ec ec' -> I m ec') ->
  (forall m ec i, I m ec -> 0 <= i < n ->
    exists m' ec', predict base i m ec = Some (m', ec') /\ scalar (pred ec') = score i /\ I m' ec' /\
      l ec' = l ec /\ weight ec' = weight ec /\ multiclass (pred ec') = multiclass (pred ec)) ->
  Answers base I n score.
Proof.
  intros Hm Hk Hw Hs Hn Ho Hsame Hp. split; [done|done|]. intros m ec count HI _ Hc.
  rewrite multipredict_small by (done || nia || by eapply Ho).
  assert (forall c lo m ec, I m ec -> 0 <= lo -> lo + Z.of_nat c <= n -> exists m' ec',
    predicts base lo true c m ec = Some (m', ec', (fun i => score (lo + Z.of_nat i)) <$> seq 0 c) /\ I m' ec' /\ l ec' = l ec /\ weight ec' = weight ec) as Hall;
    [|by apply (Hall count 0)].
  clear m ec HI Hc count. induction c as [|c IH]; intros lo m ec HI Hlo Hc; cbn [predicts]; [by exists m, ec|].
  destruct (Hp m ec lo HI ltac:(lia)) as (m1 & ec1 & -> & Es & HI1 & El & Ew & _). cbn [mbind option_bind].
  destruct (IH (lo + 1) m1 ec1 HI1 ltac:(lia) ltac:(lia)) as (m2 & ec2 & -> & HI2 & El2 & Ew2). cbn [mbind option_bind].
  exists m2, ec2. split; [|split; [done|by rewrite El2, Ew2]]. do 2 f_equal. cbn [seq]. rewrite fmap_cons, Es. f_equal; [f_equal; lia|].
  rewrite <- fmap_S_seq, <- list_fmap_compose. apply list_fmap_ext. intros _ x _. cbn. f_equal. lia.
Qed.

(** A learner that looks its predictions up by the offset and notes the offsets it learns at. *)
Definition table_learner {F} (score : Z -> F) : learner F unit (list Z) :=
  let f := fun m ec => Some (m, set_scalar (score (ft_offset ec)) ec) in
  let g := fun m ec => Some (ft_offset ec :: m, set_scalar (score (ft_offset ec)) ec) in
  Learner 1 g f g None.
Definition at_zero {F} (m : list Z) (ec : example F unit) : Prop := ft_offset ec = 0.

#[export] Instance table_answers {F} (score : Z -> F) : Answers (table_learner score) at_zero (2 ^ 32 - 1) score.
Proof.
  apply answers_of_predict; cbn [table_learner feature_width_below multipredict_f predict_f]; try done.
  - by intros m ec m' ec' [= <- <-].
  - intros m ec ->. lia.
  - intros m ec ec' HI [_ E _ _]. unfold at_zero. by rewrite E.
  - intros m ec i HI Hi. unfold at_zero in HI. unfold predict, with_offset. cbn [table_learner feature_width_below predict_f mbind option_bind].
    rewrite increment_small by (done || lia). eexists _, _. split; [reflexivity|]. rewrite decrement_small by (done || lia). cbn.
    rewrite HI, Z.mul_1_l, Z.add_0_l, (u64_id i), Z.sub_diag by lia. done.
Qed.

Lemma table_learned {F} (score : Z -> F) i m ec : ft_offset ec = 0 -> 0 <= i < 2 ^ 32 ->
  exists ec', learn (table_learner score) i m ec = Some (i :: m, ec') /\ ft_offset ec' = 0.
Proof.
  intros HJ Hi. unfold learn, with_offset. cbn [table_learner feature_width_below learn_f mbind option_bind]. rewrite increment_small by (done || lia).
  eexists. rewrite decrement_small by (done || lia). cbn. rewrite HJ, Z.mul_1_l, Z.add_0_l, (u64_id i), Z.sub_diag by lia. done.
Qed.

#[export] Instance table_learns {F} (score : Z -> F) n : 0 <= n < 2 ^ 32 -> Learns (table_learner score) at_zero n.
Proof.
  intros Hn. split; unfold at_zero; [congruence|]. intros m ec i HJ Hi. destruct (table_learned score i m ec HJ) as (ec' & ? & ?); [lia|].
  by exists (i :: m), ec'.
Qed.

Lemma answers_fewer {F X M} (base : learner F X M) I n n' score : n' <= n -> Answers base I n score -> Answers base I n' score.
Proof. intros Hn [H1 H2 H3]. split; [done|intros; apply H2; [done|lia]|intros; apply H3; [done|done|lia]]. Qed.

(** An example without features, for evaluating reductions. *)
Definition plain_example {F} (zero one : F) (y : F) (mc : Z) : example F unit :=
  Example tt 0 one zero zero one zero (Polylabel y mc [] [] []) (Polyprediction zero [] 0 [] [] zero zero []).

Lemma multipredict_is_predicts_witness :
  let base := table_learner (fun i => inject_Z (i * i)) in let ec := plain_example 0%Q 1%Q 0%Q 0 in
  multipredict base 3 4 true [] ec = predicts base 3 true 4 [] ec /\
  snd <$> multipredict base 3 4 true [] ec = Some [inject_Z 9; inject_Z 16; inject_Z 25; inject_Z 36].
Proof.
  split; [|by vm_compute]. apply (multipredict_is_predicts (table_learner (fun i => inject_Z (i * i))) 3 4 true); try done.
  by intros m ec m' ec' [= <- <-].
Defined.

(** ** Gradient descent keeps the promise *)

Lemma imap_replicate {A B} (f : nat -> A -> B) n a : imap f (replicate n a) = (fun i => f i a) <$> seq 0 n.
Proof.
  apply list_eq. intros i. rewrite list_lookup_imap, list_lookup_fmap. destruct (decide (i < n)%nat).
  - by rewrite lookup_replicate_2, lookup_seq_lt.
  - rewrite lookup_seq_ge by lia. by rewrite (lookup_ge_None_2 (replicate n a)) by (rewrite length_replicate; lia).
Qed.

Section GdAnswers.
Context {F D W : Type} `{Num D, Widen F D, MathFns F, MathFns D, NumComm F, WeightStoreLaws W F} (inv_sqrt : F -> F).
Context (l1 : bool) (v : variant) (cfg : config F) (stride n : Z) (g0 : gd F D W) (x0 : Gd.example F).
Hypotheses (Hwf : ws_wf (weights g0)) (Hx : example_ok (ws_stride_shift (weights g0)) x0) (Hoff : ex_ft_offset x0 < 2 ^ 64).
Hypotheses (Hst : aligned (weights g0) stride) (Hpos : 0 < stride) (Hn : stride * n < 2 ^ 32) (Hmask : ws_mask (weights g0) + n * stride < 2 ^ 64).
Hypothesis Hneg : l1 = false -> Forall (fun xi => negligible (D := D) xi.1 = false) (feats_of cfg x0).
Hypothesis Hone : (sd_contraction g0 =? n_of_Z 1)%num = true -> forall p : F, (p * narrow (sd_contraction g0))%num = p.

(** The weights are those of [g0], read or not; the example has the features, offset and initial
    value of [x0]. *)
Definition gd_situation (g : gd F D W) (ec : example F (Gd.example F)) : Prop :=
  (exists w, g = set_weights w g0 /\ keeps (weights g0) w) /\
  ex_indices (ex_x ec) = ex_indices x0 /\ ex_space (ex_x ec) = ex_space x0 /\ ex_interactions (ex_x ec) = ex_interactions x0 /\
  ex_extent_interactions (ex_x ec) = ex_extent_interactions x0 /\ ft_offset ec = ex_ft_offset x0 /\ rf_initial ec = ex_initial x0.

Definition gd_score (i : Z) : F := scaled g0 true (model_prediction l1 cfg g0 x0 stride (Z.to_nat i) (ex_initial x0)).

Lemma gd_feats g ec : gd_situation g ec -> feats_of cfg (to_gd ec) = feats_of cfg x0.
Proof.
  intros (_ & E1 & E2 & E3 & E4 & E5 & E6). unfold feats_of, linear_features, interaction_features. cbn.
  by rewrite E1, E2, E3, E4, E5.
Qed.

Lemma gd_example_ok g ec : gd_situation g ec -> example_ok (ws_stride_shift (weights g0)) (to_gd ec).
Proof. intros (_ & E1 & E2 & E3 & E4 & E5 & E6). destruct Hx. split; cbn; [by rewrite E5|by rewrite E2..|by rewrite E3|by rewrite E4]. Qed.

Lemma raw_prediction_moved ec c w : gd_situation (set_weights w g0) ec -> keeps (weights g0) w ->
  raw_prediction l1 (narrow (sd_gravity g0)) w
    (feats_of cfg (Gd.set_offset (u64 (ex_ft_offset (to_gd ec) + stride * Z.of_nat c)) (to_gd ec))) (ex_initial x0) =
  model_prediction l1 cfg g0 x0 stride c (ex_initial x0).
Proof.
  intros Hs Hk. pose proof (gd_feats _ _ Hs) as Ef. unfold model_prediction. rewrite <- Ef.
  assert (aligned (weights g0) (stride * Z.of_nat c)) as Hal by (destruct Hst; split; [lia|by apply Z.divide_mul_l]).
  assert (example_ok (ws_stride_shift (weights g0)) (Gd.set_offset (u64 (ex_ft_offset (to_gd ec) + stride * Z.of_nat c)) (to_gd ec))) as Hok.
  { apply example_ok_moved; [by apply shift_range|by eapply gd_example_ok|apply Hal]. }
  rewrite (raw_prediction_keeps l1 _ (weights g0) w) by (done || by apply feats_aligned).
  unfold feats_of at 1. rewrite features_moved. fold (feats_of cfg (to_gd ec)).
  apply raw_prediction_ext. intros [x i] _. cbn. split; [done|]. apply weight_of_slot; [done|].
  rewrite (Z.mul_comm (Z.of_nat c)). by apply slot_sum.
Qed.

Lemma model_prediction_kept ec w c : gd_situation (set_weights w g0) ec -> keeps (weights g0) w ->
  model_prediction l1 cfg (set_weights w g0) (to_gd ec) stride c (ex_initial x0) = model_prediction l1 cfg g0 x0 stride c (ex_initial x0).
Proof.
  intros Hs Hk. unfold model_prediction. rewrite (gd_feats _ _ Hs). apply raw_prediction_ext. intros [x i] Hxi. cbn. split; [done|].
  apply (keeps_weight _ _ _ Hk). pose proof (feats_aligned (weights g0) cfg x0 Hwf Hx) as Ha. rewrite Forall_forall in Ha.
  specialize (Ha _ Hxi). cbn in Ha. destruct Ha, Hst. split; [lia|]. apply Z.divide_add_r; [done|by apply Z.divide_mul_r].
Qed.

Lemma gd_predicts g ec c : gd_situation g ec -> exists g' ec',
  gd_call (Gd.predict l1 cfg) g (set_offset (u64 (ft_offset ec + stride * Z.of_nat c)) ec) = Some (g', ec') /\
  scalar (pred ec') = gd_score (Z.of_nat c) /\ gd_situation g' (set_offset (ft_offset ec) ec') /\
  l ec' = l ec /\ weight ec' = weight ec /\ multiclass (pred ec') = multiclass (pred ec) /\
  ft_offset ec' = u64 (ft_offset ec + stride * Z.of_nat c).
Proof.
  intros Hs. destruct Hs as ((w & -> & Hk) & Hs).
  assert (gd_situation (set_weights w g0) ec) as Hsit by (split; [by exists w|done]).
  pose proof (raw_prediction_moved ec c w Hsit Hk) as Er.
  destruct (predict_ok l1 cfg (set_weights w g0) (to_gd (set_offset (u64 (ft_offset ec + stride * Z.of_nat c)) ec)))
    as (k & w' & _ & Hk' & E); [apply Hk| |].
  { cbn [weights set_weights]. rewrite (keeps_shift _ _ Hk).
    apply (example_ok_moved _ (to_gd ec) (stride * Z.of_nat c)); [by apply shift_range|by eapply gd_example_ok|].
    apply Z.divide_mul_l, Hst. }
  unfold gd_call. rewrite E. cbn [mbind option_bind weights set_weights]. eexists _, _. split; [reflexivity|].
  destruct Hs as (E1 & E2 & E3 & E4 & E5 & E6). split.
  - cbn. unfold gd_score, scaled. rewrite Nat2Z.id, <- Er. cbn. by rewrite E6.
  - split; [|done]. split; [|done]. exists w'. split; [done|]. by apply (keeps_trans _ w).
Qed.

#[export] Instance gd_answers : Answers (gd_learner inv_sqrt l1 v cfg stride) gd_situation n gd_score.
Proof.
  split.
  - intros g ec ec' (Hg & Hs) [Ex Eo _ Ei]. split; [done|]. by rewrite Ex, Eo, Ei.
  - intros g ec i Hs Hi. destruct (gd_predicts g ec (Z.to_nat i) Hs) as (g' & ec' & E & Esc & Hs' & El & Ew & Em & Eo).
    rewrite Z2Nat.id in * by lia. exists g', (set_offset (ft_offset ec) ec'). split; [|done]. unfold predict, with_offset.
    cbn [feature_width_below predict_f gd_learner]. rewrite increment_small by nia. rewrite E. cbn. do 2 f_equal.
    rewrite decrement_small by nia. rewrite Eo, u64_plus_sub; [done|]. destruct Hs as (_ & _ & _ & _ & _ & -> & _). split; [apply Hx|done].
  - intros g ec count Hs Hc Hcn. pose proof Hs as ((w & -> & Hk) & E1 & E2 & E3 & E4 & E5 & E6).
    pose proof (gd_feats _ _ Hs) as Ef.
    assert (increment_offset stride 0 ec = ec) as Ei.
    { rewrite increment_small by lia. apply set_offset_id. rewrite Z.mul_0_r, Z.add_0_r, u64_id; [done|]. rewrite E5. split; [apply Hx|done]. }
    destruct (multipredict_ok l1 cfg (set_weights w g0) (to_gd ec) count stride true) as (k & w' & Hk' & E); try done.
    + apply Hk.
    + cbn. rewrite (keeps_shift _ _ Hk). by eapply gd_example_ok.
    + cbn. by apply (keeps_aligned (weights g0) w).
    + cbn. rewrite (keeps_mask _ _ Hk). nia.
    + by rewrite Ef.
    + unfold multipredict. cbn [feature_width_below multipredict_f gd_learner]. rewrite Ei. unfold gd_multipredict. rewrite E. cbn [mbind option_bind].
      eexists _, _. split; [do 2 f_equal|].
      * rewrite imap_replicate. apply list_fmap_ext. intros _ c _. unfold gd_score, scaled. rewrite Nat2Z.id. cbn [sd_contraction sd_range set_weights].
        rewrite <- (model_prediction_kept ec w c Hs Hk). cbn. by rewrite E6.
      * unfold decrement_offset, increment_offset in *. rewrite Z.mul_0_r in *. change (u32 (u64 0)) with 0 in *. rewrite Z.sub_0_r.
        split; [|done]. split; [exists w'; split; [done|by apply (keeps_trans _ w)]|]. cbn. repeat split; try done.
        rewrite E5, u64_id; [done|]. split; [apply Hx|done].
Qed.
End GdAnswers.

(** ** Reductions that pass the offset on *)

Section Pass.
Context {F X M D : Type}.
Implicit Types (ec : example F X) (base : learner F X M) (m : M).

Lemma increment_zero base i ec : increment_offset (feature_width_below base) 0 (increment_offset (feature_width_below base) i ec) = increment_offset (feature_width_below base) i ec.
Proof.
  unfold increment_offset at 1. rewrite Z.mul_0_r. change (u32 (u64 0)) with 0. rewrite Z.add_0_r. apply set_offset_id.
  cbn. unfold u64. by rewrite Zmod_mod.
Qed.

Lemma decrement_zero base i ec : decrement_offset (feature_width_below base) i (decrement_offset (feature_width_below base) 0 ec) = decrement_offset (feature_width_below base) i ec.
Proof.
  unfold decrement_offset. rewrite Z.mul_0_r. change (u32 (u64 0)) with 0. rewrite Z.sub_0_r. cbn. rewrite set_offset_twice. f_equal.
  unfold u64. by rewrite Zminus_mod_idemp_l.
Qed.

(** A reduction of width 1 that predicts with model 0 of its base, then works on the predictions of
    the example only: at model [i] it has what the base predicts at model [i]. *)
Lemma pass_predict base (r : learner F X (unit * M)) (k : M -> example F X -> example F X) i m ec m' ec' :
  feature_width_below r = feature_width_below base ->
  (forall m ec, predict_f r (tt, m) ec = '(m, ec) ← predict base 0 m ec; Some (tt, m, k m ec)) ->
  (forall m ec o, k m (set_offset o ec) = set_offset o (k m ec)) ->
  predict base i m ec = Some (m', ec') -> predict r i (tt, m) ec = Some (tt, m', k m' ec').
Proof.
  intros Hw Hr Hk. assert (forall m ec, ft_offset (k m ec) = ft_offset ec) as Ho.
  { intros m0 e. rewrite <- (set_offset_id e (ft_offset e)) at 1 by done. by rewrite Hk. }
  unfold predict, with_offset in *. rewrite Hw, Hr. unfold with_offset. rewrite increment_zero.
  destruct (predict_f base m _) as [[m1 ec1]|]; [|done]. cbn [mbind option_bind]. intros [= <- <-]. do 2 f_equal.
  rewrite <- (decrement_zero base i ec1). unfold decrement_offset. by rewrite !Hk.
Qed.

Lemma pass_multi base count fin m ec m' ec' ps (r : learner F X (unit * M)) (g : F -> F) :
  feature_width_below r = feature_width_below base ->
  multipredict_f r = Some (fun dm ec count step fin => '(m, ec, ps) ← multipredict base 0 count fin dm.2 ec; Some (tt, m, ec, map g ps)) ->
  multipredict base 0 count fin m ec = Some (m', ec', ps) -> 0 <= ft_offset ec < 2 ^ 64 -> ft_offset ec' = ft_offset ec ->
  multipredict r 0 count fin (tt, m) ec = Some (tt, m', ec', map g ps).
Proof.
  intros Hw Hr E Ho Ho'. unfold multipredict at 1. rewrite Hr, Hw.
  assert (increment_offset (feature_width_below base) 0 ec = ec) as ->.
  { unfold increment_offset. rewrite Z.mul_0_r. change (u32 (u64 0)) with 0. rewrite Z.add_0_r, u64_id by done. by apply set_offset_id. }
  cbn [snd]. rewrite E. cbn [mbind option_bind]. do 3 f_equal. unfold decrement_offset. rewrite Z.mul_0_r. change (u32 (u64 0)) with 0.
  rewrite Z.sub_0_r, u64_id by lia. by apply set_offset_id.
Qed.
End Pass.

Section PassAnswers.
Context {F X M : Type} `{Num F, MathFns F} (base : learner F X M) (I : M -> example F X -> Prop) (n : Z) (score : Z -> F).
Context `{HA : !Answers base I n score}.
Hypothesis Hwidth : 0 <= feature_width_below base < 2 ^ 64.
Hypothesis Hkeeps : forall m ec, I m ec -> 0 <= ft_offset ec < 2 ^ 64.

(** The scorer over a learner predicts its scores through the link. *)
#[export] Instance scorer_answers get_loss set_minmax link :
  (forall m ec m' ec', I m ec -> I m' ec' -> ft_offset ec' = ft_offset ec) ->
  Answers (scorer get_loss set_minmax link base) (fun dm ec => I dm.2 ec) n (fun i => link (score i)).
Proof.
  intros Hsame. assert (feature_width_below (scorer get_loss set_minmax link base) = feature_width_below base) as Hw.
  { cbn. by rewrite Z.mul_1_r, u64_id. }
  split.
  - intros [[] m] ec ec'. apply answers_same.
  - intros [[] m] ec i HI Hi. destruct (answers_predict m ec i HI Hi) as (m' & ec' & E & Es & HI' & El & Ew & Em).
    eexists _, _. split; [eapply (pass_predict base (scorer get_loss set_minmax link base)
      (fun m ec => let ec := if (weight ec >? n_of_Z 0)%num && negb (simple (l ec) =? FLT_MAX)%num
            then set_loss (get_loss m (scalar (pred ec)) (simple (l ec)) * weight ec)%num ec else ec in set_scalar (link (scalar (pred ec))) ec));
      [exact Hw|intros; reflexivity| |exact E]|].
    + intros m0 e o. cbn. by case_if.
    + case_if; cbn; rewrite ?Es; (split; [done|]; split; [|done]); by eapply (answers_same m' ec').
  - intros [[] m] ec count HI Hc Hn. destruct (answers_multi m ec count HI Hc Hn) as (m' & ec' & E & HI' & El & Ew).
    exists (tt, m'), ec'. split; [|done]. erewrite (pass_multi base); [| exact Hw | reflexivity | exact E | by eapply Hkeeps | by eapply Hsame].
    by rewrite <- (list_fmap_compose _ link).
Qed.
End PassAnswers.
