(* ===== verification/Ect.v ===== *)
(** * Error correcting tournaments ([core/src/reductions/ect.cc])

    Multiclass prediction by binary tournaments between labels: the circuit of matches, built once
    for the number of labels and of tournaments; prediction, which walks the circuit down from the
    final match of a tournament chosen by the classifiers; training, which walks it up from the
    label. The [uint32_t] counters of nodes are [nat]: the definitions are the code's as long as a
    circuit has fewer than 2^32 nodes. *)

From S2P Require Import Prelude.
From S2P Require Import Losses.
From S2P Require Import Learner.

(** ** The circuit *)

(** A node of the circuit: a label, or a match between [left] and [right] in a tournament, with the
    matches its winner and its loser go to. *)
Record direction := Direction { id : nat; tournament : nat; winner : nat; loser : nat; left : nat; right : nat; last : bool }.

Definition set_winner (w : nat) (d : direction) : direction := Direction (id d) (tournament d) w (loser d) (left d) (right d) (last d).
Definition set_loser (x : nat) (d : direction) : direction := Direction (id d) (tournament d) (winner d) x (left d) (right d) (last d).
Definition set_last (d : direction) : direction := Direction (id d) (tournament d) (winner d) (loser d) (left d) (right d) true.

(** [for (size_t i = 0; i < 32; i++)] from [i], [n] rounds left. *)
Fixpoint final_depth_from (eliminations i n : nat) : nat :=
  match n with
  | O => 31
  | S n => if (Nat.shiftr eliminations i =? 0)%nat then i else final_depth_from eliminations (S i) n
  end.
Definition final_depth (eliminations : nat) : nat := final_depth_from (eliminations - 1) 0 32.

(** What the construction changes: the nodes, the final nodes, the tournaments of the next level. *)
Record circuit := Circuit { directions : list direction; final_nodes : list nat; new_tournaments : list (list nat) }.

(** [new_tournaments[i].push_back(id)], when there is such a tournament. *)
Definition enter (i : nat) (x : nat) (c : circuit) : circuit :=
  Circuit (directions c) (final_nodes c) (alter (fun t => t ++ [x]) i (new_tournaments c)).

(** The node [child] learns where it goes on from its match in tournament [i]. *)
Definition connect (i child index : nat) (ds : list direction) : option (list direction) :=
  d ← ds !! child;
  Some (<[child := if (tournament d =? i)%nat then set_winner index d else set_loser index d]> ds).

Definition update_node (f : direction -> direction) (i : nat) (c : circuit) : circuit :=
  Circuit (alter f i (directions c)) (final_nodes c) (new_tournaments c).

(** The match of [x] and [y] in tournament [i]; [final] when these two are left and no one else will
    come. [node] and the index of the new node are both the number of nodes. *)
Definition play (i : nat) (final : bool) (x y : nat) (c : circuit) : option circuit :=
  let node := length (directions c) in
  ds ← connect i x node (directions c ++ [Direction node i 0 0 x y false]);
  ds ← connect i y node ds;
  d ← ds !! x;
  let c := Circuit (if last d then <[x := set_winner node d]> ds else ds) (final_nodes c) (new_tournaments c) in
  let more := (S i <? length (new_tournaments c))%nat in
  let c :=
    if final then
      let c := update_node set_last node c in
      let c := if more then enter (S i) node c else update_node (set_winner 0) node c in
      Circuit (directions c) (final_nodes c ++ [node]) (new_tournaments c)
    else enter i node c in
  Some (if more then enter (S i) node c else update_node (set_loser 0) node c).

(** The loop over the pairs of tournament [i]; the last one of an odd number waits. *)
Fixpoint play_pairs (i : nat) (final : bool) (t : list nat) (c : circuit) : option circuit :=
  match t with
  | x :: y :: t => c ← play i final x y c; play_pairs i final t c
  | [x] => Some (enter i x c)
  | [] => Some c
  end.

(** The loop over the tournaments from [i] on; [before] is the tournament before, if any. *)
Fixpoint play_level (i : nat) (before : list nat) (ts : list (list nat)) (c : circuit) : option circuit :=
  match ts with
  | [] => Some c
  | t :: ts =>
      let final := (length t =? 2)%nat && (length before =? 0)%nat in
      c ← play_pairs i final t c; play_level (S i) t ts c
  end.

Definition not_empty (ts : list (list nat)) : bool := existsb (fun t => negb (length t =? 0)%nat) ts.

(** [while (not_empty(e.all_levels[level]))]: the tournaments last made are the current level. *)
Fixpoint play_levels (fuel : nat) (c : circuit) : option circuit :=
  let ts := new_tournaments c in
  if not_empty ts then
    match fuel with
    | O => None
    | S fuel => c ← play_level 0 [] ts (Circuit (directions c) (final_nodes c) (replicate (length ts) [])); play_levels fuel c
    end
  else Some c.

Definition first_level (max_label eliminations : nat) : list (list nat) := seq 0 max_label :: replicate (eliminations - 1) [].
Definition labels (max_label : nat) : list direction := (fun i => Direction i 0 0 0 0 0 false) <$> seq 0 max_label.
Definition circuit_fuel (max_label eliminations : nat) : nat := S (max_label * eliminations).

(** What is left of [ect] when the circuit is built; the result of [create_circuit] is the width. *)
Record ect := Ect { k : nat; errors : nat; nodes : list direction; finals : list nat; last_pair : nat; tree_height : nat }.

Definition create_circuit (max_label errors : nat) : option (ect * nat) :=
  let eliminations := S errors in
  if (max_label =? 1)%nat then Some (Ect max_label errors [] [] 0 0, O)
  else
    c ← play_levels (circuit_fuel max_label eliminations) (Circuit (labels max_label) [] (first_level max_label eliminations));
    let last_pair := ((max_label - 1) * eliminations)%nat in
    let tree_height := if (1 <? max_label)%nat then final_depth eliminations else O in
    Some (Ect max_label errors (directions c) (final_nodes c) last_pair tree_height, (last_pair + (eliminations - 1))%nat).

(** ** Predicting and training *)

Section Learner.
Context {F X M : Type} `{Num F}.
Implicit Types (base : learner F X M) (m : M) (ec : example F X) (e : ect).
(** [class_boundary]: 0, or 1/2 under the logistic link. *)
Context (class_boundary : F).

Definition above ec : bool := (scalar (pred ec) >? class_boundary)%num.

(** The final tournament, from bit [i - 1] down: which of the tournaments to trust. *)
Fixpoint finals_loop base e (i finals_winner : nat) m ec : option (M * example F X * nat) :=
  match i with
  | O => Some (m, ec, finals_winner)
  | S i =>
      let with_bit := Nat.lor finals_winner (Nat.shiftl 1 i) in
      if (with_bit <=? errors e)%nat then
        '(m, ec) ← predict base (Z.of_nat (last_pair e + with_bit - 1)) m ec;
        finals_loop base e i (if above ec then with_bit else finals_winner) m ec
      else finals_loop base e i finals_winner m ec
  end.

(** [while (id >= e.k)] *)
Fixpoint descend (fuel : nat) base e (node : nat) m ec : option (M * example F X * nat) :=
  if (k e <=? node)%nat then
    match fuel with
    | O => None
    | S fuel =>
        '(m, ec) ← predict base (Z.of_nat (node - k e)) m ec;
        d ← nodes e !! node;
        descend fuel base e (if above ec then right d else left d) m ec
    end
  else Some (m, ec, node).

Definition ect_predict base e m ec : option (M * example F X * nat) :=
  if (k e =? 1)%nat then Some (m, ec, 1%nat)
  else
    let ec := reset_to_default (set_simple FLT_MAX ec) in
    '(m, ec, finals_winner) ← finals_loop base e (tree_height e) 0 m ec;
    node ← finals e !! finals_winner;
    '(m, ec, y) ← descend (length (nodes e)) base e node m ec;
    Some (m, ec, S y).

(** One match on the way up: train for the side the label is on, then ask who wins. *)
Definition ect_match base e (node : nat) (is_left : bool) m ec : option (M * example F X * bool) :=
  let y := if is_left then n_of_Z (-1) else n_of_Z 1 in
  let ec := set_simple y ec in
  '(m, ec) ← learn base (Z.of_nat (node - k e)) m ec;
  let old_weight := weight ec in
  '(m, ec) ← learn base (Z.of_nat (node - k e)) m (set_weight (n_of_Z 0) ec);
  let ec := set_weight old_weight ec in
  Some (m, ec, ((scalar (pred ec) - class_boundary) * y >? n_of_Z 0)%num).

(** [do ... while (id != 0)]; [won] is [tournaments_won]. *)
Fixpoint climb (fuel : nat) base e (node : nat) (is_left : bool) (won : list bool) m ec : option (M * example F X * list bool) :=
  match fuel with
  | O => None
  | S fuel =>
      '(m, ec, wins) ← ect_match base e node is_left m ec;
      d ← nodes e !! node;
      let next := if wins : bool then winner d else loser d in
      n ← nodes e !! next;
      let is_left := if last d then is_left else (left n =? node)%nat in
      let won := if last d then won ++ [wins] else if negb wins && (loser d =? 0)%nat then won ++ [false] else won in
      if (next =? 0)%nat then Some (m, ec, won) else climb fuel base e next is_left won m ec
  end.

(** The loop over [j] at height [i] of the final tournament: [tournaments_won] shrinks at each round. *)
Fixpoint train_pairs (fuel : nat) base e (i j : nat) (won : list bool) m ec : option (M * example F X * list bool) :=
  if (j <? length won / 2)%nat then
    match fuel with
    | O => None
    | S fuel =>
        l ← won !! (j * 2)%nat;
        r ← won !! (j * 2 + 1)%nat;
        '(m, ec, w) ←
          (if Bool.eqb l r then Some (m, ec, l)
           else
             let ec := set_simple (if l : bool then n_of_Z (-1) else n_of_Z 1) ec in
             let ec := set_weight (n_of_Z (Z.shiftl 1 (Z.of_nat (tree_height e - i - 1)))) ec in
             '(m, ec) ← learn base (Z.of_nat (last_pair e + j * Nat.shiftl 1 (i + 1) + Nat.shiftl 1 i - 1)) m ec;
             Some (m, ec, if above ec then r else l));
        let won := <[j := w]> won in
        let size := length won in
        let won := if (size mod 2 =? 1)%nat then <[(size / 2)%nat := default false (won !! (size - 1)%nat)]> won else won in
        train_pairs fuel base e i (S j) (take ((1 + size) / 2) won) m ec
    end
  else Some (m, ec, won).

(** [for (size_t i = 0; i < e.tree_height; i++)], [n] rounds left. *)
Fixpoint train_finals (n : nat) base e (i : nat) (won : list bool) m ec : option (M * example F X) :=
  match n with
  | O => Some (m, ec)
  | S n => '(m, ec, won) ← train_pairs (length won) base e i 0 won m ec; train_finals n base e (S i) won m ec
  end.

Definition ect_train base e m ec : option (M * example F X) :=
  if (k e =? 1)%nat then Some (m, ec)
  else
    let label := multi (l ec) in
    if (label =? 0) || (Z.of_nat (k e) <? label) then Some (m, ec)
    else
      let y := (Z.to_nat label - 1)%nat in
      leaf ← nodes e !! y;
      n ← nodes e !! winner leaf;
      '(m, ec, won) ← climb (length (nodes e)) base e (winner leaf) (left n =? y)%nat [] m ec;
      train_finals (tree_height e) base e 0 won m ec.

Definition ect_predict_fn e base m ec : option (ect * M * example F X) :=
  '(m, ec, y) ← ect_predict base e m ec; Some (e, m, set_multiclass (Z.of_nat y) ec).
Definition ect_learn_fn e base m ec : option (ect * M * example F X) :=
  let mc := multi (l ec) in
  let p := multiclass (pred ec) in
  '(m, ec) ← (if negb (mc =? 2 ^ 32 - 1) then ect_train base e m ec else Some (m, ec));
  Some (e, m, set_multiclass p (set_multi mc ec)).

(** [ect_setup] *)
Definition ect_learner (width : nat) base : learner F X (ect * M) := make_reduction_learner (Z.of_nat width) base ect_learn_fn ect_predict_fn.
End Learner.

(** ** A level as a list of actions *)

Inductive act := Match (i : nat) (final : bool) (x y : nat) | Carry (i x : nat).

Fixpoint pair_acts (i : nat) (final : bool) (t : list nat) : list act :=
  match t with x :: y :: t => Match i final x y :: pair_acts i final t | [x] => [Carry i x] | [] => [] end.

Fixpoint level_acts (i : nat) (before : list nat) (ts : list (list nat)) : list act :=
  match ts with
  | [] => []
  | t :: ts => pair_acts i ((length t =? 2)%nat && (length before =? 0)%nat) t ++ level_acts (S i) t ts
  end.

Definition run_act (a : act) (c : circuit) : option circuit :=
  match a with Match i final x y => play i final x y c | Carry i x => Some (enter i x c) end.
Fixpoint run (acts : list act) (c : circuit) : option circuit :=
  match acts with [] => Some c | a :: acts => c ← run_act a c; run acts c end.

Lemma run_app l1 l2 c : run (l1 ++ l2) c = c ← run l1 c; run l2 c.
Proof. revert c. induction l1 as [|a l1 IH]; intros c; [done|]. cbn. destruct (run_act a c); [apply IH|done]. Qed.

Lemma play_pairs_run i final t c : play_pairs i final t c = run (pair_acts i final t) c.
Proof.
  revert c. induction t as [|x|x y t IH] using pairs_ind; intros c; [done|done|]. cbn. destruct (play i final x y c); [apply IH|done].
Qed.

Lemma play_level_run i before ts c : play_level i before ts c = run (level_acts i before ts) c.
Proof.
  revert i before c. induction ts as [|t ts IH]; intros i before c; [done|]. cbn. rewrite run_app, play_pairs_run.
  destruct (run _ c); [apply IH|done].
Qed.

(** The tournament and the entries of an action. *)
Definition act_of (a : act) : nat := match a with Match i _ _ _ => i | Carry i _ => i end.
Definition act_final (a : act) : bool := match a with Match _ final _ _ => final | Carry _ _ => false end.
Definition act_entries (a : act) : list nat := match a with Match _ _ x y => [x; y] | Carry _ x => [x] end.

(** ** One match *)

(** What of a node never changes, and the children in play. *)
Definition shape (d : direction) : nat * nat * nat := (tournament d, left d, right d).

(** How the match of [x] and [y] changes the links of node [q]. *)
Definition relinked (i x y node q : nat) (d : direction) : direction :=
  let plays := bool_decide (q = x \/ q = y) in
  Direction (id d) (tournament d)
    (if plays && ((tournament d =? i)%nat || (bool_decide (q = x) && last d)) then node else winner d)
    (if plays && negb (tournament d =? i)%nat then node else loser d) (left d) (right d) (last d).
Definition played (i x y : nat) (final : bool) (ds : list direction) : list direction :=
  let node := length ds in imap (relinked i x y node) ds ++ [Direction node i 0 0 x y final].

Lemma alter_ge {A} (f : A -> A) i (ts : list A) : (length ts <= i)%nat -> alter f i ts = ts.
Proof. intros Hi. apply list_eq. intros j. rewrite list_lookup_alter. case_decide as E; [|done]. subst j. by rewrite lookup_ge_None_2. Qed.

Lemma alter_at_end {A} (f : A -> A) (ds : list A) d : alter f (length ds) (ds ++ [d]) = ds ++ [f d].
Proof. rewrite alter_app_r_alt by lia. by rewrite Nat.sub_diag. Qed.

(** Where the node of a match enters. *)
Definition entered (i node : nat) (final : bool) (ts : list (list nat)) : list (list nat) :=
  alter (fun t => t ++ (if final then [node; node] else [node])) (S i) (alter (fun t => t ++ (if final then [] else [node])) i ts).

Lemma insert_alter {A} (f : A -> A) i (ds : list A) d : ds !! i = Some d -> <[i := f d]> ds = alter f i ds.
Proof.
  intros Hd. apply list_eq. intros j. pose proof (lookup_lt_Some _ _ _ Hd). rewrite list_lookup_alter, list_lookup_insert.
  destruct (decide (i = j)); [rewrite decide_True by done; by rewrite Hd|by rewrite decide_False by tauto].
Qed.

(** What [connect] does to a node. *)
Definition to_match (i node : nat) (d : direction) : direction := if (tournament d =? i)%nat then set_winner node d else set_loser node d.

Lemma connect_ok i q node ds : (q < length ds)%nat -> connect i q node ds = Some (alter (to_match i node) q ds).
Proof. intros [d Hd]%lookup_lt_is_Some_2. unfold connect. rewrite Hd. cbn. f_equal. by apply (insert_alter (to_match i node)). Qed.

Definition if_last (node : nat) (d : direction) : direction := if last d then set_winner node d else d.

Lemma matched i x y ds : (x < length ds)%nat -> (y < length ds)%nat ->
  let node := length ds in
  alter (if_last node) x (alter (to_match i node) y (alter (to_match i node) x ds)) = imap (relinked i x y node) ds.
Proof.
  intros Hx Hy node. apply list_eq. intros q. rewrite list_lookup_imap. rewrite !list_lookup_alter.
  destruct (ds !! q) as [[? t w s a b la]|] eqn:Eq; unfold relinked, to_match, if_last.
  - assert (forall p : nat, bool_decide (q = p) = bool_decide (p = q)) as Hsym by (intros p; apply bool_decide_ext; split; congruence).
    rewrite bool_decide_or, !Hsym. unfold to_match, if_last.
    repeat case_decide; repeat case_bool_decide; try congruence; subst; rewrite ?Eq; cbn; destruct (t =? i)%nat eqn:E; cbn; rewrite ?E; cbn; destruct la; cbn; try done.
  - repeat case_decide; subst; rewrite ?Eq; try congruence; done.
Qed.

Lemma alter_twice {A} (f g : A -> A) i (ts : list A) : alter f i (alter g i ts) = alter (fun a => f (g a)) i ts.
Proof. apply list_eq. intros j. rewrite !list_lookup_alter. case_decide; [|done]. by destruct (ts !! i) eqn:E; rewrite ?decide_True by done; rewrite ?E. Qed.

Lemma alter_node (f : direction -> direction) dl node d : length dl = node -> alter f node (dl ++ [d]) = dl ++ [f d].
Proof. intros <-. apply alter_at_end. Qed.

Lemma entered_more_final i node ts :
  entered i node true ts = alter (fun t => t ++ [node]) (S i) (alter (fun t => t ++ [node]) (S i) ts).
Proof.
  unfold entered. rewrite alter_twice, (list_alter_id (fun t => t ++ [])) by (intros; apply app_nil_r).
  apply list_alter_ext; [|done]. intros t _. by rewrite <- app_assoc.
Qed.

Lemma entered_no_more i node final ts : (length ts <= S i)%nat ->
  entered i node final ts = if final then ts else alter (fun t => t ++ [node]) i ts.
Proof.
  intros Hi. unfold entered. rewrite alter_ge by (by rewrite length_alter). destruct final; [|done].
  apply list_alter_id. intros. apply app_nil_r.
Qed.

Lemma play_ok i final x y c : (x < length (directions c))%nat -> (y < length (directions c))%nat ->
  let node := length (directions c) in
  play i final x y c = Some (Circuit (played i x y final (directions c)) (final_nodes c ++ if final then [node] else [])
    (entered i node final (new_tournaments c))).
Proof.
  intros Hx Hy node. unfold play. fold node. set (ds := directions c) in *.
  rewrite connect_ok by (rewrite length_app; lia). cbn [mbind option_bind]. rewrite connect_ok by (rewrite length_alter, length_app; lia).
  cbn [mbind option_bind].
  rewrite !alter_app_l by (rewrite ?length_alter; done). set (ds2 := alter (to_match i node) y (alter (to_match i node) x ds)).
  assert (x < length ds2)%nat as Hx2 by (unfold ds2; by rewrite !length_alter).
  destruct (lookup_lt_is_Some_2 _ _ Hx2) as [d Hd]. rewrite lookup_app_l, Hd by done. cbn [mbind option_bind].
  assert (forall n, (if last d then <[x := set_winner node d]> (ds2 ++ [n]) else ds2 ++ [n]) = imap (relinked i x y node) ds ++ [n]) as Hlast.
  { intros n. pose proof (matched i x y ds Hx Hy) as Hm. cbv zeta in Hm. fold node ds2 in Hm. rewrite <- Hm. rewrite <- alter_app_l by done.
    rewrite <- (insert_alter (if_last node) x _ d) by (by rewrite lookup_app_l). unfold if_last. case_if; [done|].
    rewrite list_insert_id; [done|]. by rewrite lookup_app_l. }
  rewrite Hlast. unfold played. fold node. assert (length (imap (relinked i x y node) ds) = node) as Hl by apply length_imap.
  generalize dependent (imap (relinked i x y node) ds). intros dl _ Hl.
  unfold enter, update_node. cbn [directions final_nodes new_tournaments].
  destruct (S i <? length (new_tournaments c))%nat eqn:Em; bprop; destruct final; cbn [directions final_nodes new_tournaments]; rewrite ?app_nil_r;
    rewrite ?(alter_node _ dl node) by done.
  - by rewrite entered_more_final.
  - done.
  - by rewrite entered_no_more.
  - by rewrite entered_no_more.
Qed.

(** ** What every circuit has *)

Lemma mjoin_alter {A} (xs : list A) i ts : (i < length ts)%nat -> mjoin (alter (fun t => t ++ xs) i ts) ≡ₚ xs ++ mjoin ts.
Proof.
  revert i. induction ts as [|t ts IH]; intros [|i] Hi; cbn in *; try lia.
  - rewrite <- app_assoc. rewrite !(Permutation_app_comm xs), app_assoc. by rewrite <- app_assoc, (Permutation_app_comm (mjoin ts)), app_assoc.
  - rewrite IH by lia. rewrite !app_assoc. by rewrite (Permutation_app_comm t).
Qed.

Lemma mjoin_entered i node final ts : exists n, mjoin (entered i node final ts) ≡ₚ replicate n node ++ mjoin ts.
Proof.
  assert (forall xs i ts, (exists n, xs = replicate n node) -> exists n, mjoin (alter (fun t => t ++ xs) i ts) ≡ₚ replicate n node ++ mjoin ts) as Hone.
  { intros xs j ts0 [n ->]. destruct (decide (j < length ts0)%nat); [exists n; by apply mjoin_alter|]. exists O. rewrite alter_ge by lia. done. }
  unfold entered. edestruct (Hone (if final then [] else [node]) i ts) as [n1 E1]; [destruct final; [by exists O|by exists 1%nat]|].
  edestruct (Hone (if final then [node; node] else [node]) (S i)) as [n2 E2]; [destruct final; [by exists 2%nat|by exists 1%nat]|].
  exists (n2 + n1)%nat. rewrite E2, E1, replicate_add. by rewrite app_assoc.
Qed.

Section Circuit.
Context (K m : nat).

Definition children (ds : list direction) : list nat := drop K ds ≫= (fun d => [left d; right d]).
Definition waiting (acts : list act) (c : circuit) : list nat := (acts ≫= act_entries) ++ mjoin (new_tournaments c).
Definition leaves (xs : list nat) : list nat := filter (fun q => q < K)%nat xs.

(** During a level, with [acts] left to do: what waits and the children are nodes; each label waits
    or has been matched, once, in the first tournament; links lead upwards, from a label to its only
    match; the final nodes are those marked so, in order. *)
Record circuit_ok (acts : list act) (c : circuit) : Prop := {
  co_length : (K <= length (directions c))%nat;
  co_width : length (new_tournaments c) = m;
  co_waiting : Forall (fun q => q < length (directions c))%nat (waiting acts c);
  co_acts : Forall (fun a => act_of a < m)%nat acts;
  co_acts_high : Forall (fun a => act_of a <> O -> Forall (fun q => K <= q)%nat (act_entries a)) acts;
  co_new_high i t : new_tournaments c !! S i = Some t -> Forall (fun q => K <= q)%nat t;
  co_leaves : leaves (children (directions c) ++ waiting acts c) ≡ₚ seq 0 K;
  co_tournaments p d : directions c !! p = Some d -> (K <= p)%nat -> (tournament d < m)%nat;
  co_children p d : directions c !! p = Some d -> (K <= p)%nat -> (left d < p /\ right d < p)%nat;
  co_links q d : directions c !! q = Some d ->
    (winner d = O \/ (q < winner d < length (directions c) /\ K <= winner d))%nat /\
    (loser d = O \/ (q < loser d < length (directions c) /\ K <= loser d))%nat;
  co_labels q d : directions c !! q = Some d -> (q < K)%nat -> tournament d = O /\ loser d = O /\ last d = false;
  co_first q p d d' : directions c !! q = Some d -> (q < K)%nat -> directions c !! p = Some d' -> (K <= p)%nat ->
    left d' = q \/ right d' = q -> winner d = p;
  co_last p : p ∈ final_nodes c <-> exists d, directions c !! p = Some d /\ last d = true;
  co_sorted : StronglySorted lt (final_nodes c)
}.

Lemma played_old i x y final ds q : (q < length ds)%nat -> played i x y final ds !! q = relinked i x y (length ds) q <$> ds !! q.
Proof. intros Hq. unfold played. rewrite lookup_app_l by (by rewrite length_imap). by rewrite list_lookup_imap. Qed.

Lemma played_new i x y final ds : played i x y final ds !! length ds = Some (Direction (length ds) i 0 0 x y final).
Proof. unfold played. by rewrite lookup_app_r, length_imap, Nat.sub_diag by (by rewrite length_imap). Qed.

Lemma length_played i x y final ds : length (played i x y final ds) = S (length ds).
Proof. unfold played. rewrite length_app, length_imap. cbn. lia. Qed.

Lemma played_cases i x y final ds q d' : played i x y final ds !! q = Some d' ->
  (exists d, ds !! q = Some d /\ d' = relinked i x y (length ds) q d) \/ q = length ds /\ d' = Direction (length ds) i 0 0 x y final.
Proof.
  intros E. destruct (decide (q < length ds)%nat) as [Hq|Hq].
  - left. rewrite played_old in E by done. destruct (ds !! q) as [d|]; [|done]. exists d. by injection E as <-.
  - right. pose proof (lookup_lt_Some _ _ _ E) as Hl. rewrite length_played in Hl. assert (q = length ds) as -> by lia.
    rewrite played_new in E. by injection E as <-.
Qed.

Lemma children_played i x y final ds : (K <= length ds)%nat -> children (played i x y final ds) = children ds ++ [x; y].
Proof.
  intros Hl. unfold children, played. rewrite drop_app_le by (by rewrite length_imap). rewrite bind_app. f_equal.
  generalize (length ds) at 1. intros node. rewrite <- !(list_fmap_bind shape (fun s => [s.1.2; s.2])).
  rewrite !fmap_drop. do 2 f_equal. apply list_eq. intros q. rewrite !list_lookup_fmap, list_lookup_imap. by destruct (ds !! q).
Qed.

Lemma leaves_app xs ys : leaves (xs ++ ys) = leaves xs ++ leaves ys.
Proof. apply filter_app. Qed.

Lemma leaves_nodes n node : (K <= node)%nat -> leaves (replicate n node) = [].
Proof. intros Hn. induction n as [|n IH]; [done|]. rewrite replicate_S. unfold leaves in *. by rewrite filter_cons_False by lia. Qed.

Lemma leaves_perm xs ys : xs ≡ₚ ys -> leaves xs ≡ₚ leaves ys.
Proof. intros E. unfold leaves. by rewrite E. Qed.

(** A label that has been matched waits no more. *)
Lemma label_apart acts c q : circuit_ok acts c -> (q < K)%nat -> q ∈ children (directions c) -> q ∉ waiting acts c.
Proof.
  intros Hc Hq Hch Hwt. pose proof (NoDup_seq 0 K) as Hnd. rewrite <- (co_leaves _ _ Hc), leaves_app in Hnd.
  apply NoDup_app in Hnd as (_ & Hd & _). apply (Hd q); by apply list_elem_of_filter.
Qed.

Lemma child_elem ds p d : ds !! p = Some d -> (K <= p)%nat -> left d ∈ children ds /\ right d ∈ children ds.
Proof.
  intros Hd Hp. assert (d ∈ drop K ds) as Hin.
  { apply (list_elem_of_lookup_2 _ (p - K)). rewrite lookup_drop. by replace (K + (p - K))%nat with p by lia. }
  split; apply list_elem_of_bind; exists d; (split; [|done]); rewrite !elem_of_cons; auto.
Qed.

Lemma alter_app_lookup {A} (xs : list A) (i : nat) (ts : list (list A)) (j : nat) t : alter (fun t => t ++ xs) i ts !! j = Some t ->
  exists t0, ts !! j = Some t0 /\ (t = t0 ++ xs /\ i = j \/ t = t0).
Proof.
  rewrite list_lookup_alter. case_decide as E; [subst|intros Ht; exists t; auto].
  destruct (ts !! j) as [t0|]; [|done]. intros [= <-]. exists t0. auto.
Qed.

Lemma entered_lookup i node final ts (j : nat) t : entered i node final ts !! j = Some t ->
  exists t0 n, ts !! j = Some t0 /\ t = t0 ++ replicate n node.
Proof.
  unfold entered. intros (t1 & (t0 & Ht & H1)%alter_app_lookup & H2)%alter_app_lookup.
  assert (exists n, t1 = t0 ++ replicate n node) as [n1 ->].
  { destruct H1 as [[-> _]| ->]; [destruct final; [by exists O|by exists 1%nat]|exists O; by rewrite app_nil_r]. }
  exists t0. destruct H2 as [[-> _]| ->]; [|by exists n1]. exists (n1 + (if final then 2 else 1))%nat.
  rewrite replicate_add, <- app_assoc. by destruct final.
Qed.

Lemma match_ok i final x y acts c : circuit_ok (Match i final x y :: acts) c ->
  let node := length (directions c) in
  let c' := Circuit (played i x y final (directions c)) (final_nodes c ++ if final then [node] else []) (entered i node final (new_tournaments c)) in
  play i final x y c = Some c' /\ circuit_ok acts c'.
Proof.
  intros Hc node c'. destruct c as [ds fin new]. cbn [directions final_nodes new_tournaments] in *.
  pose proof (co_waiting _ _ Hc) as Hw. unfold waiting in Hw. cbn in Hw. apply Forall_cons in Hw as [Hx Hw]. apply Forall_cons in Hw as [Hy Hw]. cbn in Hx, Hy.
  pose proof (co_length _ _ Hc) as HK. cbn in HK.
  split; [by apply (play_ok i final x y (Circuit ds fin new))|].
  destruct (mjoin_entered i node final new) as [n En].
  assert (children (directions c') ++ waiting acts c' ≡ₚ replicate n node ++ children ds ++ waiting (Match i final x y :: acts) (Circuit ds fin new)) as Hperm.
  { unfold waiting, c'. cbn [directions new_tournaments]. rewrite children_played by done. cbn. rewrite En.
    rewrite <- !app_assoc. solve_Permutation. }
  split; cbn [directions final_nodes new_tournaments c'].
  - rewrite length_played. lia.
  - unfold entered. rewrite !length_alter. apply (co_width _ _ Hc).
  - rewrite length_played. unfold waiting, c' in *. cbn [directions new_tournaments] in *. rewrite En.
    assert (Forall (fun q => q < S (length ds))%nat ((acts ≫= act_entries) ++ mjoin new)) as Hw' by (eapply Forall_impl; [exact Hw|]; cbn; lia).
    apply Forall_app in Hw' as [? ?]. rewrite !Forall_app. split; [done|]. split; [|done]. apply Forall_replicate. lia.
  - pose proof (co_acts _ _ Hc) as Ha. by apply Forall_cons in Ha as [_ ?].
  - pose proof (co_acts_high _ _ Hc) as Hh. by apply Forall_cons in Hh as [_ ?].
  - intros j t Ht. apply entered_lookup in Ht as (t0 & n0 & Ht0 & ->). apply Forall_app. split; [by apply (co_new_high _ _ Hc j)|].
    by apply Forall_replicate.
  - change (played i x y final ds) with (directions c'). rewrite (leaves_perm _ _ Hperm), leaves_app, leaves_nodes by done. apply (co_leaves _ _ Hc).
  - intros p d [(d0 & E & ->)|[-> ->]]%played_cases Hp; cbn; [by apply (co_tournaments _ _ Hc p)|].
    pose proof (co_acts _ _ Hc) as Ha. by apply Forall_cons in Ha as [? _].
  - intros p d [(d0 & E & ->)|[-> ->]]%played_cases Hp; cbn; [by apply (co_children _ _ Hc)|done].
  - rewrite length_played. intros q d [(d0 & E & ->)|[-> ->]]%played_cases; cbn; [|by auto].
    destruct (co_links _ _ Hc q d0 E) as [H1 H2]. cbn in H1, H2. apply lookup_lt_Some in E. split; case_if; lia.
  - intros q d [(d0 & E & ->)|[-> ->]]%played_cases Hq; cbn; [|lia]. destruct (co_labels _ _ Hc q d0 E Hq) as (Ht & Hlo & Hla).
    split; [done|]. split; [|done]. rewrite Ht. case_if; [|done]. bprop. exfalso.
    case_bool_decide as Hpl; [|done]. pose proof (co_acts_high _ _ Hc) as Hh. apply Forall_cons in Hh as [Hh _]. cbn in Hh.
    specialize (Hh ltac:(intros ->; done)). rewrite !Forall_cons in Hh. lia.
  - intros q p d d' Eq Hq Ep Hp Hch. apply played_cases in Eq as [(d0 & E & ->)|[-> ->]]; [|lia].
    destruct (co_labels _ _ Hc q d0 E Hq) as (Ht & Hlo & Hla). cbn. rewrite Ht, Hla, andb_false_r, orb_false_r.
    pose proof (co_acts_high _ _ Hc) as Hh. apply Forall_cons in Hh as [Hh _]. cbn in Hh. rewrite !Forall_cons in Hh.
    apply played_cases in Ep as [(d1 & E1 & ->)|[-> ->]]; cbn in Hch.
    + rewrite bool_decide_false; [by apply (co_first _ _ Hc q p d0 d1)|]. intros Hxy.
      destruct (child_elem ds p d1 E1 Hp) as [Hl Hr]. apply (label_apart _ _ q Hc Hq); [by destruct Hch; subst|].
      unfold waiting. cbn. rewrite !elem_of_cons. destruct Hxy; auto.
    + rewrite bool_decide_true by (destruct Hch; subst; tauto). destruct i; [done|]. exfalso. specialize (Hh ltac:(done)). lia.
  - intros p. rewrite elem_of_app, (co_last _ _ Hc p). split.
    + intros [(d & E & Hd)|Hp].
      * exists (relinked i x y (length ds) p d). split; [|exact Hd]. cbn in E. rewrite played_old by (by eapply lookup_lt_Some). by rewrite E.
      * destruct final; [|by apply not_elem_of_nil in Hp]. apply list_elem_of_singleton in Hp as ->. eexists. split; [apply played_new|done].
    + intros (d & [(d0 & E & ->)|[-> ->]]%played_cases & Hd); [left; by exists d0|]. cbn in Hd. right. rewrite Hd. apply list_elem_of_here.
  - pose proof (co_sorted _ _ Hc) as Hs. cbn in Hs. destruct final; [|by rewrite app_nil_r]. apply StronglySorted_app_2; [|done|by repeat constructor].
    intros p q Hp Hq. apply list_elem_of_singleton in Hq as ->. apply (co_last _ _ Hc p) in Hp as (d & E & _). by apply lookup_lt_Some in E.
Qed.

Lemma carry_ok i x acts c : circuit_ok (Carry i x :: acts) c -> circuit_ok acts (enter i x c).
Proof.
  intros Hc. destruct c as [ds fin new]. pose proof (co_acts _ _ Hc) as Hacts. apply Forall_cons in Hacts as [Hi Hacts]. cbn in Hi.
  pose proof (co_width _ _ Hc) as Hm. cbn in Hm.
  assert (waiting acts (enter i x (Circuit ds fin new)) ≡ₚ waiting (Carry i x :: acts) (Circuit ds fin new)) as Hperm.
  { unfold waiting. cbn. rewrite mjoin_alter by lia. rewrite app_assoc, (Permutation_app_comm _ [x]). done. }
  destruct Hc as [H1 H2 H3 H4 H5 H6 H7 H8 H9 H10 H11 H12 H13 H14]. split; try done.
  - cbn in *. by rewrite length_alter.
  - by rewrite Hperm.
  - by apply Forall_cons in H5 as [_ ?].
  - cbn in *. intros j t (t0 & Ht0 & Ht)%alter_app_lookup. specialize (H6 j t0 Ht0). destruct Ht as [[-> ->]| ->]; [|done].
    apply Forall_app. split; [done|]. apply Forall_cons in H5 as [H5 _]. by apply H5.
  - rewrite (leaves_perm _ (children ds ++ waiting (Carry i x :: acts) (Circuit ds fin new))); [done|]. by rewrite Hperm.
Qed.

(** ** Counting matches *)

Definition is_match (a : act) : bool := match a with Match _ _ _ _ => true | Carry _ _ => false end.
Definition acts_at (j : nat) (acts : list act) : nat := length (filter (fun a => act_of a = j) acts).
Definition matches_at (j : nat) (acts : list act) : nat := length (filter (fun a => act_of a = j /\ is_match a = true) acts).
(** The matches of tournament [j] so far. *)
Definition matched_in (j : nat) (ds : list direction) : nat := length (filter (fun d => tournament d = j) (drop K ds)).

Lemma acts_at_cons j a acts : acts_at j (a :: acts) = ((if decide (act_of a = j) then 1 else 0) + acts_at j acts)%nat.
Proof. unfold acts_at. rewrite filter_cons. by case_decide. Qed.

Lemma matches_at_cons j a acts : matches_at j (a :: acts) = ((if decide (act_of a = j /\ is_match a = true) then 1 else 0) + matches_at j acts)%nat.
Proof. unfold matches_at. rewrite filter_cons. by case_decide. Qed.

Lemma acts_at_app j l1 l2 : acts_at j (l1 ++ l2) = (acts_at j l1 + acts_at j l2)%nat.
Proof. unfold acts_at. by rewrite filter_app, length_app. Qed.

Lemma matches_at_app j l1 l2 : matches_at j (l1 ++ l2) = (matches_at j l1 + matches_at j l2)%nat.
Proof. unfold matches_at. by rewrite filter_app, length_app. Qed.

Lemma pair_acts_count i final t j :
  let size := if decide (i = j) then length t else O in
  (acts_at j (pair_acts i final t) + matches_at j (pair_acts i final t) = size)%nat /\
  (2 * matches_at j (pair_acts i final t) <= size <= 2 * matches_at j (pair_acts i final t) + 1)%nat.
Proof.
  induction t as [|x|x y t IH] using pairs_ind; cbn [pair_acts].
  - cbn. case_decide; cbn; lia.
  - rewrite acts_at_cons, matches_at_cons. cbn. repeat case_decide; lia || tauto.
  - rewrite acts_at_cons, matches_at_cons. cbn [act_of is_match length]. cbn zeta in *. repeat case_decide; try tauto; try lia.
Qed.

Lemma level_acts_count i before ts j :
  let size := if (j <? i)%nat then O else length (default [] (ts !! (j - i)%nat)) in
  (acts_at j (level_acts i before ts) + matches_at j (level_acts i before ts) = size)%nat /\
  (2 * matches_at j (level_acts i before ts) <= size <= 2 * matches_at j (level_acts i before ts) + 1)%nat.
Proof.
  revert i before. induction ts as [|t ts IH]; intros i before; cbn zeta.
  - rewrite lookup_nil. cbn. case_if; cbn; lia.
  - cbn [level_acts]. rewrite acts_at_app, matches_at_app. specialize (IH (S i) t). cbn zeta in IH.
    destruct (pair_acts_count i ((length t =? 2)%nat && (length before =? 0)%nat) t j) as [E1 E2].
    destruct (decide (i = j)) as [->|Hij].
    + rewrite (proj2 (Nat.ltb_lt j (S j))) in IH by lia. rewrite Nat.ltb_irrefl, Nat.sub_diag. cbn. lia.
    + destruct (j <? i)%nat eqn:E; bprop.
      * rewrite (proj2 (Nat.ltb_lt j (S i))) in IH by lia. lia.
      * rewrite (proj2 (Nat.ltb_ge j (S i))) in IH by lia. replace (j - i)%nat with (S (j - S i)) by lia.
        change ((t :: ts) !! S (j - S i)) with (ts !! (j - S i)%nat). lia.
Qed.

Lemma matched_in_played i x y final ds j : (K <= length ds)%nat ->
  matched_in j (played i x y final ds) = (matched_in j ds + if decide (i = j) then 1 else 0)%nat.
Proof.
  intros Hl. unfold matched_in, played. rewrite drop_app_le by (by rewrite length_imap). rewrite filter_app, length_app. f_equal.
  - generalize (length ds) at 1. intros node.
    assert (forall ds', length (filter (fun d => tournament d = j) ds') = length (filter (fun n => n = j) (tournament <$> ds'))) as E.
    { induction ds' as [|d ds' IH]; [done|]. rewrite fmap_cons, !filter_cons. case_decide; cbn; by rewrite IH. }
    rewrite !E, !fmap_drop. do 3 f_equal. apply list_eq. intros q. rewrite !list_lookup_fmap, list_lookup_imap. by destruct (ds !! q).
  - rewrite filter_cons. cbn. by case_decide.
Qed.

(** ** Which labels can win a match *)

Inductive reaches (ds : list direction) : nat -> nat -> Prop :=
  | reach_here y : reaches ds y y
  | reach_left y p d : ds !! p = Some d -> (K <= p)%nat -> reaches ds y (left d) -> reaches ds y p
  | reach_right y p d : ds !! p = Some d -> (K <= p)%nat -> reaches ds y (right d) -> reaches ds y p.

Lemma reaches_played i x y final ds q p : reaches ds q p -> reaches (played i x y final ds) q p.
Proof.
  induction 1 as [q|q p d Hd Hp _ IH|q p d Hd Hp _ IH]; [constructor|apply (reach_left _ q p (relinked i x y (length ds) p d))|apply (reach_right _ q p (relinked i x y (length ds) p d))];
    try done; rewrite played_old by (by eapply lookup_lt_Some); by rewrite Hd.
Qed.

(** The sizes of the next level. *)
Definition size_of (j : nat) (c : circuit) : nat := length (default [] (new_tournaments c !! j)).

Lemma size_alter (xs : list nat) i ds fin (ts : list (list nat)) j : (i < length ts)%nat ->
  size_of j (Circuit ds fin (alter (fun t => t ++ xs) i ts)) = (size_of j (Circuit ds fin ts) + if decide (i = j) then length xs else 0)%nat.
Proof.
  intros Hi. unfold size_of. cbn. rewrite list_lookup_alter. case_decide as E; [|lia]. rewrite <- E.
  destruct (lookup_lt_is_Some_2 _ _ Hi) as [t ->]. cbn. apply length_app.
Qed.

(** [acts], none of them final, take [c] to [c']. *)
Record progress (acts : list act) (c c' : circuit) : Prop := {
  pr_ok : circuit_ok [] c';
  pr_finals : final_nodes c' = final_nodes c;
  pr_sizes j : (j < m)%nat -> size_of j c' = (size_of j c + acts_at j acts + if decide (j = O) then O else matches_at (j - 1) acts)%nat;
  pr_matched j : matched_in j (directions c') = (matched_in j (directions c) + matches_at j acts)%nat;
  pr_length : length (directions c') = (length (directions c) + length (filter (fun a => is_match a = true) acts))%nat;
  pr_reaches y p : reaches (directions c) y p -> reaches (directions c') y p;
  pr_kept y p j : p ∈ default [] (new_tournaments c !! j) \/ (exists a, a ∈ acts /\ act_of a = j /\ p ∈ act_entries a) ->
    reaches (directions c) y p -> exists p', p' ∈ default [] (new_tournaments c' !! j) /\ reaches (directions c') y p'
}.

Lemma progress_nil c : circuit_ok [] c -> progress [] c c.
Proof.
  intros Hc. split; try done.
  - intros j _. case_decide; cbn; lia.
  - intros y p j [Hp|(a & Ha & _)]; [eauto|by apply not_elem_of_nil in Ha].
Qed.

Lemma elem_alter_app (xs : list nat) i (ts : list (list nat)) j p :
  p ∈ default [] (ts !! j) -> p ∈ default [] (alter (fun t => t ++ xs) i ts !! j).
Proof.
  intros Hp. rewrite list_lookup_alter. case_decide as E; [|done]. subst. destruct (ts !! j) as [t|]; [|done]. cbn in *.
  apply elem_of_app. by left.
Qed.

Lemma elem_alter_new (xs : list nat) i (ts : list (list nat)) p : (i < length ts)%nat -> p ∈ xs -> p ∈ default [] (alter (fun t => t ++ xs) i ts !! i).
Proof.
  intros Hi Hp. rewrite list_lookup_alter, decide_True by done. destruct (lookup_lt_is_Some_2 _ _ Hi) as [t ->]. cbn. apply elem_of_app. by right.
Qed.

Lemma progress_match i x y acts c c' : circuit_ok (Match i false x y :: acts) c ->
  progress acts (Circuit (played i x y false (directions c)) (final_nodes c ++ []) (entered i (length (directions c)) false (new_tournaments c))) c' ->
  progress (Match i false x y :: acts) c c'.
Proof.
  intros Hc [P1 P2 P3 P4 P5 P6 P7]. destruct c as [ds fin new]. cbn [directions final_nodes new_tournaments] in *. rewrite app_nil_r in *.
  pose proof (co_acts _ _ Hc) as Hi. apply Forall_cons in Hi as [Hi _]. cbn in Hi. pose proof (co_width _ _ Hc) as Hm. cbn in Hm.
  pose proof (co_length _ _ Hc) as HK. cbn in HK.
  split; try done; cbn [directions final_nodes new_tournaments].
  - intros j Hj. rewrite P3 by done. unfold entered. rewrite acts_at_cons. cbn [act_of].
    assert (size_of j (Circuit (played i x y false ds) fin (alter (fun t => t ++ [length ds]) (S i) (alter (fun t => t ++ [length ds]) i new))) =
      (size_of j (Circuit ds fin new) + (if decide (i = j) then 1 else 0) + (if decide (S i = j) then 1 else 0))%nat) as ->.
    { destruct (decide (S i < m)%nat) as [Hs|Hs].
      - rewrite size_alter by (rewrite length_alter; lia). rewrite size_alter by lia. cbn. unfold size_of. cbn. lia.
      - rewrite (alter_ge _ (S i)) by (rewrite length_alter; lia). rewrite size_alter by lia. cbn. unfold size_of. cbn. rewrite (decide_False (P := S i = j)) by lia. lia. }
    rewrite matches_at_cons. cbn [act_of is_match]. repeat case_decide; try lia; tauto || (exfalso; lia) || idtac.
  - intros j. rewrite P4, matched_in_played by done. rewrite matches_at_cons. cbn [act_of is_match]. repeat case_decide; try lia; tauto.
  - rewrite P5, length_played, filter_cons_True by done. cbn. lia.
  - intros q p Hq. by apply P6, reaches_played.
  - intros q p j Hp Hq. destruct (decide (p ∈ default [] (new !! j))) as [Hnew|Hnew].
    + apply (P7 q p j); [left; unfold entered; by apply elem_alter_app, elem_alter_app|by apply reaches_played].
    + destruct Hp as [?|(a & [->|Ha]%elem_of_cons & Hj & Hp)]; [done| |].
      * cbn in Hj, Hp. subst j. apply (P7 q (length ds) i).
        -- left. unfold entered. apply elem_alter_app, elem_alter_new; [lia|apply list_elem_of_here].
        -- rewrite !elem_of_cons, elem_of_nil in Hp. pose proof (played_new i x y false ds) as Hn.
           destruct Hp as [->|[->|[]]]; [eapply (reach_left _ _ _ _ Hn)|eapply (reach_right _ _ _ _ Hn)]; try done; by apply reaches_played.
      * apply (P7 q p j); [right; by exists a|by apply reaches_played].
Qed.

Lemma progress_carry i x acts c c' : circuit_ok (Carry i x :: acts) c -> progress acts (enter i x c) c' -> progress (Carry i x :: acts) c c'.
Proof.
  intros Hc [P1 P2 P3 P4 P5 P6 P7]. destruct c as [ds fin new]. unfold enter in *. cbn [directions final_nodes new_tournaments] in *.
  pose proof (co_acts _ _ Hc) as Hi. apply Forall_cons in Hi as [Hi _]. cbn in Hi. pose proof (co_width _ _ Hc) as Hm. cbn in Hm.
  split; try done; cbn [directions final_nodes new_tournaments].
  - intros j Hj. rewrite P3, size_alter by lia. rewrite acts_at_cons, matches_at_cons. cbn. repeat case_decide; lia || tauto.
  - intros j. rewrite P4, matches_at_cons. cbn. case_decide; [by destruct_and!|done].
  - intros q p j Hp Hq. apply (P7 q p j); [|done]. destruct Hp as [Hp|(a & [->|Ha]%elem_of_cons & Hj & Hp)].
    + left. by apply elem_alter_app.
    + left. cbn in Hj, Hp. subst j. apply elem_alter_new; [lia|done].
    + right. by exists a.
Qed.

Lemma run_progress acts : forall c, circuit_ok acts c -> Forall (fun a => act_final a = false) acts -> exists c', run acts c = Some c' /\ progress acts c c'.
Proof.
  induction acts as [|[i final x y|i x] acts IH]; intros c Hc Hf; [exists c; split; [done|by apply progress_nil]| |].
  - apply Forall_cons in Hf as [Hf1 Hf]. cbn in Hf1. subst final. destruct (match_ok i false x y acts c Hc) as [E Hc1].
    destruct (IH _ Hc1 Hf) as (c' & E' & Hp). exists c'. split; [cbn; rewrite E; exact E'|]. by apply progress_match.
  - apply Forall_cons in Hf as [_ Hf]. destruct (IH _ (carry_ok _ _ _ _ Hc) Hf) as (c' & E' & Hp). exists c'. split; [done|]. by apply progress_carry.
Qed.

(** ** Levels *)

(** Between levels, when [length (final_nodes c)] tournaments are over: those are empty, the next one
    has at least two entries, from which every label can be reached, as from every final node, and an
    empty one is followed by empty ones; what is left in a tournament and its matches make up for
    what came from the one before. *)
Record level_ok (c : circuit) : Prop := {
  lv_circuit : circuit_ok [] c;
  lv_le : (length (final_nodes c) <= m)%nat;
  lv_done j : (j < length (final_nodes c))%nat -> size_of j c = O;
  lv_active : (length (final_nodes c) < m)%nat -> (2 <= size_of (length (final_nodes c)) c)%nat /\
    forall y, (y < K)%nat -> exists p, p ∈ default [] (new_tournaments c !! length (final_nodes c)) /\ reaches (directions c) y p;
  lv_contiguous j : (length (final_nodes c) <= j)%nat -> size_of j c = O -> size_of (S j) c = O;
  lv_count j : (j < m)%nat ->
    (size_of j c + matched_in j (directions c) + (if decide (j < length (final_nodes c)) then 1 else 0) =
      if decide (j = O) then K else matched_in (j - 1) (directions c) + (if decide (j - 1 < length (final_nodes c)) then 1 else 0))%nat;
  lv_finals y p : p ∈ final_nodes c -> (y < K)%nat -> reaches (directions c) y p;
  lv_top : length (final_nodes c) = m -> exists ps, final_nodes c = ps ++ [length (directions c) - 1]%nat
}.

Lemma level_entries i before ts : level_acts i before ts ≫= act_entries = mjoin ts.
Proof.
  revert i before. induction ts as [|t ts IH]; intros i before; [done|]. cbn [level_acts]. rewrite bind_app, IH. cbn. f_equal.
  generalize ((length t =? 2)%nat && (length before =? 0)%nat). intros b. induction t as [|x|x y t IHt] using pairs_ind; cbn in *; [done|done|by rewrite IHt].
Qed.

Lemma level_act_in i before ts a : a ∈ level_acts i before ts ->
  exists j t, ts !! j = Some t /\ act_of a = (i + j)%nat /\ forall p, p ∈ act_entries a -> p ∈ t.
Proof.
  revert i before. induction ts as [|t ts IH]; intros i before; [by intros ?%not_elem_of_nil|]. cbn. rewrite elem_of_app. intros [Ha|Ha].
  - exists O, t. split; [done|]. rewrite Nat.add_0_r. revert Ha. generalize ((length t =? 2)%nat && (length before =? 0)%nat). intros b. clear IH.
    induction t as [|x|x y t IHt] using pairs_ind; cbn; rewrite ?elem_of_cons; [by intros ?%not_elem_of_nil| |].
    + intros [->|?%not_elem_of_nil]; [|done]. split; [done|]. by intros p Hp.
    + intros [->|Ha]; [split; [done|]; intros p; cbn; rewrite !elem_of_cons, elem_of_nil; tauto|].
      destruct (IHt Ha) as [E Hp]. split; [done|]. intros p H0. do 2 (apply elem_of_cons; right). by apply Hp.
  - destruct (IH (S i) t Ha) as (j & t' & E & Ea & Hp). exists (S j), t'. split; [done|]. split; [lia|done].
Qed.

Lemma level_entry_act i before ts j t p : ts !! j = Some t -> p ∈ t -> exists a, a ∈ level_acts i before ts /\ act_of a = (i + j)%nat /\ p ∈ act_entries a.
Proof.
  revert i before j. induction ts as [|t0 ts IH]; intros i before j; [done|]. destruct j as [|j]; cbn.
  - intros [= ->] Hp. setoid_rewrite elem_of_app. rewrite Nat.add_0_r. revert Hp. generalize ((length t =? 2)%nat && (length before =? 0)%nat). intros b.
    assert (p ∈ t -> exists a, a ∈ pair_acts i b t /\ act_of a = i /\ p ∈ act_entries a) as Hex.
    { clear. induction t as [|x|x y t IHt] using pairs_ind; cbn; [by intros ?%not_elem_of_nil| |].
      - intros Hp. exists (Carry i x). split; [apply list_elem_of_here|done].
      - rewrite !elem_of_cons. intros [->|[->|Hp]]; [exists (Match i b x y)..|].
        1,2: split; [apply list_elem_of_here|]; split; [done|]; cbn; rewrite !elem_of_cons; auto.
        destruct (IHt Hp) as (a & Ha & ?). exists a. split; [by apply elem_of_cons; right|done]. }
    intros Hp. destruct (Hex Hp) as (a & Ha & ?). exists a. split; [by left|done].
  - intros Ht Hp. destruct (IH (S i) t0 j Ht Hp) as (a & Ha & E & Hpa). exists a. split; [apply elem_of_app; by right|]. split; [lia|done].
Qed.

Lemma level_starts c : circuit_ok [] c -> circuit_ok (level_acts 0 [] (new_tournaments c)) (Circuit (directions c) (final_nodes c) (replicate m [])).
Proof.
  intros Hc. assert (waiting (level_acts 0 [] (new_tournaments c)) (Circuit (directions c) (final_nodes c) (replicate m [])) = waiting [] c) as Ew.
  { unfold waiting. rewrite level_entries. cbn. assert (mjoin (replicate m ([] : list nat)) = []) as ->; [|by rewrite app_nil_r].
    induction m as [|k0 IH]; [done|]. cbn. exact IH. }
  destruct Hc as [H1 H2 H3 H4 H5 H6 H7 H8 H9 H10 H11 H12 H13 H14]. split; cbn [directions final_nodes new_tournaments]; try done.
  - by rewrite length_replicate.
  - by rewrite Ew.
  - apply Forall_forall. intros a (j & t & E & -> & _)%level_act_in. apply lookup_lt_Some in E. lia.
  - apply Forall_forall. intros a (j & t & E & -> & Hp)%level_act_in Hj. cbn in Hj. destruct j as [|j]; [done|].
    apply Forall_forall. intros p Hpa. pose proof (H6 j t E) as Hh. rewrite Forall_forall in Hh. by apply Hh, Hp.
  - intros i t [-> _]%lookup_replicate. constructor.
  - by rewrite Ew.
Qed.

Lemma matches_le j acts : (matches_at j acts <= length (filter (fun a => is_match a = true) acts))%nat.
Proof. unfold matches_at. induction acts as [|a acts IH]; [done|]. rewrite !filter_cons. repeat case_decide; cbn; try lia; tauto. Qed.

Lemma level_acts_nonfinal ts : forall i before,
  (forall j t, (before :: ts) !! j = Some [] -> (before :: ts) !! S j = Some t -> t = []) -> Forall (fun a => act_final a = false) (level_acts i before ts).
Proof.
  induction ts as [|t ts IH]; intros i before Hc; [constructor|]. cbn. apply Forall_app. split.
  - assert ((length t =? 2)%nat && (length before =? 0)%nat = false) as ->.
    { apply andb_false_iff. destruct before as [|b before]; [left|by right]. by rewrite (Hc O t). }
    clear. induction t as [|x|x y t IHt] using pairs_ind; cbn; repeat constructor. done.
  - apply IH. intros j. apply (Hc (S j)).
Qed.

Lemma level_acts_skip i n ts : level_acts i [] (replicate n [] ++ ts) = level_acts (i + n) [] ts.
Proof. revert i. induction n as [|n IH]; intros i; cbn; [by rewrite Nat.add_0_r|]. rewrite IH. f_equal. lia. Qed.

(** The tournaments of a level: those that are over, the first of the others, the rest. *)
Lemma level_split c : level_ok c -> (length (final_nodes c) < m)%nat -> exists t rest,
  new_tournaments c = replicate (length (final_nodes c)) [] ++ t :: rest /\ (2 <= length t)%nat /\
  (forall y, (y < K)%nat -> exists p, p ∈ t /\ reaches (directions c) y p) /\
  Forall (fun a => act_final a = false) (level_acts (S (length (final_nodes c))) t rest) /\ m = (length (final_nodes c) + S (length rest))%nat.
Proof.
  intros [Hc Hle Hdone Hact Hcont Hcount Hfin Htop] Ha. set (a := length (final_nodes c)) in *. set (ts := new_tournaments c) in *.
  pose proof (co_width _ _ Hc) as Hm. fold ts in Hm. destruct (Hact Ha) as [Hs Hr].
  destruct (lookup_lt_is_Some_2 ts a ltac:(lia)) as [t Ht]. exists t, (drop (S a) ts). unfold size_of in Hs, Hr. fold ts in Hs, Hr. rewrite Ht in Hs, Hr. cbn in Hs, Hr.
  assert (ts = replicate a [] ++ t :: drop (S a) ts) as Ets.
  { rewrite <- (take_drop a ts) at 1. f_equal; [|by apply drop_S]. apply list_eq. intros j. destruct (decide (j < a)%nat) as [Hj|Hj].
    - rewrite lookup_take_lt, lookup_replicate_2 by done. specialize (Hdone j Hj). unfold size_of in Hdone. fold ts in Hdone.
      destruct (lookup_lt_is_Some_2 ts j ltac:(lia)) as [tj Htj]. rewrite Htj in *. cbn in Hdone. by destruct tj.
    - rewrite !lookup_ge_None_2; [done|rewrite length_replicate; lia|rewrite length_take; lia]. }
  split; [done|]. split; [done|]. split; [done|]. split.
  - apply level_acts_nonfinal. intros j tj Hj Hsj.
    assert (forall q u, (t :: drop (S a) ts) !! q = Some u -> ts !! (a + q)%nat = Some u) as Hq.
    { intros q u Hu. by rewrite <- lookup_drop, (drop_S ts t a Ht). }
    apply Hq in Hj, Hsj. specialize (Hcont (a + j)%nat ltac:(lia)). unfold size_of in Hcont. fold ts in Hcont.
    rewrite Hj in Hcont. replace (a + S j)%nat with (S (a + j)) in Hsj by lia. rewrite Hsj in Hcont. specialize (Hcont eq_refl). by destruct tj.
  - rewrite length_drop. lia.
Qed.

Lemma size_replicate j ds fin n : size_of j (Circuit ds fin (replicate n [])) = O.
Proof. unfold size_of. cbn. destruct (replicate n [] !! j) as [t|] eqn:E; [|done]. apply lookup_replicate in E as [-> _]. done. Qed.

Lemma size_beyond j c : circuit_ok [] c -> (m <= j)%nat -> size_of j c = O.
Proof. intros Hc Hj. unfold size_of. rewrite lookup_ge_None_2; [done|]. rewrite (co_width _ _ Hc). done. Qed.

(** A level in which no tournament ends. *)
Lemma level_goes_on c acts c' : level_ok c -> (length (final_nodes c) < m)%nat -> acts = level_acts 0 [] (new_tournaments c) ->
  (3 <= size_of (length (final_nodes c)) c)%nat ->
  progress acts (Circuit (directions c) (final_nodes c) (replicate m [])) c' -> level_ok c' /\ (length (directions c) < length (directions c'))%nat.
Proof.
  intros Hlv Ha -> H3 Hp. set (acts := level_acts 0 [] (new_tournaments c)) in *.
  assert (forall j, acts_at j acts + matches_at j acts = size_of j c /\ 2 * matches_at j acts <= size_of j c <= 2 * matches_at j acts + 1)%nat as Hcnt.
  { intros j. pose proof (level_acts_count 0 [] (new_tournaments c) j) as Hj. cbn zeta in Hj. rewrite Nat.sub_0_r in Hj. apply Hj. }
  destruct Hp as [P1 P2 P3 P4 P5 P6 P7]. destruct Hlv as [Hc Hle Hdone Hact Hcont Hcount Hfin Htop].
  cbn [directions final_nodes new_tournaments] in *. destruct (Hact Ha) as [Hs Hr].
  assert (forall j, (j < m)%nat -> size_of j c' = (acts_at j acts + if decide (j = O) then O else matches_at (j - 1) acts)%nat) as Hsz.
  { intros j Hj. by rewrite P3, size_replicate by done. }
  split; [split; rewrite ?P2; try done|].
  - intros j Hj. rewrite Hsz by lia. pose proof (Hdone j Hj). pose proof (Hcnt j). pose proof (Hcnt (j - 1)%nat). case_decide; [lia|].
    pose proof (Hdone (j - 1)%nat ltac:(lia)). lia.
  - intros _. split.
    + rewrite Hsz by done. pose proof (Hcnt (length (final_nodes c))). lia.
    + intros y Hy. destruct (Hr y Hy) as (p & Hpin & Hreach). apply (P7 y p (length (final_nodes c))); [|done]. right.
      destruct (new_tournaments c !! length (final_nodes c)) as [t|] eqn:Et; [|by apply not_elem_of_nil in Hpin].
      destruct (level_entry_act 0 [] (new_tournaments c) _ t p Et Hpin) as (x & ? & ? & ?). by exists x.
  - intros j Hj Hz. destruct (decide (S j < m)%nat) as [Hjm|]; [|by apply size_beyond; [done|lia]].
    rewrite Hsz in Hz by lia. pose proof (Hcnt j). assert (size_of j c = O) as Hj0 by lia. pose proof (Hcont j Hj Hj0) as Hj1. pose proof (Hcnt (S j)).
    rewrite Hsz by done. rewrite decide_False by done. replace (S j - 1)%nat with j by lia. lia.
  - intros j Hj. specialize (Hcount j Hj). pose proof (Hcnt j). rewrite Hsz, !P4 by done. pose proof (Hcnt (j - 1)%nat). destruct (decide (j = O)); lia.
  - intros y p Hpf Hy. by apply P6, Hfin.
  - intros E. lia.
  - pose proof (matches_le (length (final_nodes c)) acts). pose proof (Hcnt (length (final_nodes c))). lia.
Qed.

(** A level in which tournament [length (final_nodes c)] ends with the match of [x] and [y]; [acts] are
    those of the tournaments after it. *)
Lemma level_ends c x y acts c' : level_ok c -> (length (final_nodes c) < m)%nat ->
  let a := length (final_nodes c) in
  let node := length (directions c) in
  let c1 := Circuit (played a x y true (directions c)) (final_nodes c ++ [node]) (entered a node true (replicate m [])) in
  level_acts 0 [] (new_tournaments c) = Match a true x y :: acts -> size_of a c = 2%nat ->
  (forall q, (q < K)%nat -> reaches (directions c) q x \/ reaches (directions c) q y) -> (S a = m -> acts = []) ->
  progress acts c1 c' -> level_ok c' /\ (length (directions c) < length (directions c'))%nat.
Proof.
  intros Hlv Ha a node c1 Eacts H2 Hxy Hlastm Hp.
  assert (forall j, acts_at j acts + matches_at j acts + (if decide (a = j) then 2 else 0) = size_of j c /\
    2 * matches_at j acts <= size_of j c <= 2 * matches_at j acts + (if decide (a = j) then 2 else 0) + 1)%nat as Hcnt.
  { intros j. pose proof (level_acts_count 0 [] (new_tournaments c) j) as Hj. cbn zeta in Hj. rewrite Nat.sub_0_r, Eacts, acts_at_cons, matches_at_cons in Hj.
    cbn [act_of is_match] in Hj. change (if (j <? 0)%nat then _ else ?s) with s in Hj. unfold size_of. repeat case_decide; lia || tauto. }
  destruct Hp as [P1 P2 P3 P4 P5 P6 P7]. destruct Hlv as [Hc Hle Hdone Hact Hcont Hcount Hfin Htop].
  pose proof (co_length _ _ Hc) as HK. cbn [directions final_nodes new_tournaments c1] in *. fold a in Hle, Hdone, Hact, Hcont, Hcount, Htop.
  assert (length (final_nodes c') = S a) as Hfl by (rewrite P2, length_app; cbn; lia).
  assert (forall j, (j < m)%nat -> size_of j c1 = if decide (j = S a) then 2%nat else O) as Hs1.
  { intros j Hj. unfold c1. destruct (decide (S a < m)%nat) as [Hsa|Hsa].
    - rewrite entered_more_final, !size_alter, size_replicate by (rewrite ?length_alter, ?length_replicate; lia). cbn. repeat case_decide; lia.
    - rewrite entered_no_more, size_replicate by (rewrite length_replicate; lia). by rewrite decide_False by lia. }
  assert (forall j, (j < m)%nat -> size_of j c' = ((if decide (j = S a) then 2 else 0) + acts_at j acts + if decide (j = O) then O else matches_at (j - 1) acts)%nat) as Hsz.
  { intros j Hj. rewrite P3 by done. fold c1. by rewrite Hs1. }
  assert (forall j, matched_in j (directions c') = (matched_in j (directions c) + (if decide (a = j) then 1 else 0) + matches_at j acts)%nat) as Hmt.
  { intros j. by rewrite P4, matched_in_played. }
  assert (forall q, (q < K)%nat -> reaches (played a x y true (directions c)) q node) as Hnode.
  { intros q Hq. pose proof (played_new a x y true (directions c)) as Hn.
    destruct (Hxy q Hq); [eapply (reach_left _ _ _ _ Hn)|eapply (reach_right _ _ _ _ Hn)]; try done; by apply reaches_played. }
  split; [split; rewrite ?Hfl; try done|].
  - intros j Hj. rewrite Hsz by lia. pose proof (Hcnt j). pose proof (Hcnt (j - 1)%nat).
    assert (a = j -> size_of j c = 2%nat) by (intros <-; done). pose proof (Hdone (j - 1)%nat). pose proof (Hdone j). repeat case_decide; lia.
  - intros HSa. split.
    + rewrite Hsz, decide_True by done. lia.
    + intros q Hq. apply (P7 q node (S a)); [|by apply Hnode]. left. unfold entered.
      apply elem_alter_new; [rewrite length_alter, length_replicate; lia|apply list_elem_of_here].
  - intros j Hj Hz. destruct (decide (S j < m)%nat) as [Hjm|]; [|by apply size_beyond; [done|lia]].
    rewrite Hsz in Hz by lia. pose proof (Hcnt j) as H1. pose proof (Hcnt (S j)) as H3. pose proof (Hcont j) as H4.
    rewrite Hsz by done. replace (S j - 1)%nat with j by lia. repeat case_decide; lia.
  - intros j Hj. specialize (Hcount j Hj). pose proof (Hcnt j) as Hj1. pose proof (Hcnt (j - 1)%nat) as Hj2. rewrite Hsz, !Hmt by done.
    repeat case_decide; lia.
  - intros q p Hpf Hq. rewrite P2 in Hpf. apply elem_of_app in Hpf as [Hpf|Hpf%list_elem_of_singleton].
    + by apply P6, reaches_played, Hfin.
    + subst p. by apply P6, Hnode.
  - intros E. exists (final_nodes c). rewrite P2, P5, (Hlastm E), length_played. cbn. do 2 f_equal. lia.
  - rewrite P5, length_played. lia.
Qed.

Lemma level_step c : level_ok c -> (length (final_nodes c) < m)%nat ->
  exists c', play_level 0 [] (new_tournaments c) (Circuit (directions c) (final_nodes c) (replicate (length (new_tournaments c)) [])) = Some c' /\
    level_ok c' /\ (length (directions c) < length (directions c'))%nat.
Proof.
  intros Hlv Ha. destruct (level_split c Hlv Ha) as (t & rest & Ets & Hs & Hr & Hnf & Hm). pose proof Hlv as [Hc _ _ _ _ _ _ _].
  rewrite play_level_run, (co_width _ _ Hc). pose proof (level_starts c Hc) as Hstart.
  assert (level_acts 0 [] (new_tournaments c) = pair_acts (length (final_nodes c)) (length t =? 2)%nat t ++ level_acts (S (length (final_nodes c))) t rest) as Eacts.
  { rewrite Ets, level_acts_skip. cbn. by rewrite andb_true_r. }
  assert (size_of (length (final_nodes c)) c = length t) as Hsize.
  { unfold size_of. rewrite Ets, lookup_app_r; rewrite length_replicate; [|done]. by rewrite Nat.sub_diag. }
  destruct (decide (length t = 2%nat)) as [H2|H2].
  - destruct t as [|x [|y [|]]]; try done. cbn in Eacts. rewrite Eacts in Hstart.
    destruct (match_ok _ _ _ _ _ _ Hstart) as [E1 Hc1]. cbn [directions final_nodes new_tournaments] in E1, Hc1.
    destruct (run_progress _ _ Hc1 Hnf) as (c' & E & Hp). exists c'. split; [rewrite Eacts; cbn [run run_act]; rewrite E1; exact E|].
    apply (level_ends c x y _ c' Hlv Ha Eacts Hsize); [| |exact Hp].
    + intros q Hq. destruct (Hr q Hq) as (p & Hin & Hreach). rewrite !elem_of_cons, elem_of_nil in Hin. destruct Hin as [->|[->|[]]]; auto.
    + intros E'. by destruct rest; [|cbn in Hm; lia].
  - destruct (run_progress (level_acts 0 [] (new_tournaments c)) _ Hstart) as (c' & E & Hp).
    { rewrite Eacts. apply Forall_app. split; [|done]. rewrite (proj2 (Nat.eqb_neq _ _)) by done. clear.
      induction t as [|x|x y t IHt] using pairs_ind; cbn; by repeat constructor. }
    exists c'. split; [done|]. apply (level_goes_on c _ c' Hlv Ha eq_refl); [lia|done].
Qed.

(** ** All levels *)

Fixpoint sum_below (f : nat -> nat) (n : nat) : nat := match n with O => O | S n => (sum_below f n + f n)%nat end.

Lemma sum_below_plus f g n : sum_below (fun j => f j + g j)%nat n = (sum_below f n + sum_below g n)%nat.
Proof. induction n as [|n IH]; cbn; [done|]. rewrite IH. lia. Qed.

Lemma sum_below_ext f g n : (forall j, (j < n)%nat -> f j = g j) -> sum_below f n = sum_below g n.
Proof. induction n as [|n IH]; intros Hf; cbn; [done|]. rewrite IH by (intros; apply Hf; lia). by rewrite Hf by lia. Qed.

Lemma sum_below_bound f c n : (forall j, (j < n)%nat -> f j <= c)%nat -> (sum_below f n <= n * c)%nat.
Proof. induction n as [|n IH]; intros Hf; cbn; [lia|]. specialize (Hf n ltac:(lia)) as H1. specialize (IH ltac:(intros; apply Hf; lia)). lia. Qed.

Lemma sum_below_one i n : sum_below (fun j => if decide (i = j) then 1 else 0)%nat n = if decide (i < n)%nat then 1%nat else O.
Proof. induction n as [|n IH]; cbn; [by rewrite decide_False by lia|]. rewrite IH. repeat case_decide; lia. Qed.

Lemma matched_total ds : (forall p d, ds !! p = Some d -> (K <= p)%nat -> tournament d < m)%nat ->
  length (drop K ds) = sum_below (fun j => matched_in j ds) m.
Proof.
  intros Ht. unfold matched_in. assert (Forall (fun d => tournament d < m)%nat (drop K ds)) as Hf.
  { apply Forall_lookup. intros q d Hd. rewrite lookup_drop in Hd. apply (Ht (K + q)%nat); [done|lia]. }
  clear Ht. induction Hf as [|d ds' Hd _ IH]; [induction m; cbn in *; congruence || lia|].
  cbn [length]. rewrite IH. symmetry.
  rewrite (sum_below_ext _ (fun j => (if decide (tournament d = j) then 1 else 0) + length (filter (fun d => tournament d = j) ds'))%nat).
  - rewrite sum_below_plus, sum_below_one. by rewrite decide_True by done.
  - intros j _. rewrite filter_cons. by case_decide.
Qed.

Lemma matched_bound c : level_ok c -> (2 <= K)%nat -> forall j, (j < m)%nat ->
  (matched_in j (directions c) <= K - 1 /\ (j < length (final_nodes c) -> matched_in j (directions c) = K - 1))%nat.
Proof.
  intros Hlv HK. induction j as [|j IH]; intros Hj.
  - pose proof (lv_count _ Hlv O Hj) as Hc. pose proof (lv_done _ Hlv O) as Hd. pose proof (lv_active _ Hlv) as Ha.
    destruct (decide (length (final_nodes c) = O)) as [E|E]; [destruct Ha as [Ha _]; [lia|]; rewrite E in Ha|]; repeat case_decide; try lia.
  - specialize (IH ltac:(lia)). pose proof (lv_count _ Hlv (S j) Hj) as Hc. pose proof (lv_done _ Hlv (S j)) as Hd. pose proof (lv_active _ Hlv) as Ha.
    replace (S j - 1)%nat with j in Hc by lia. rewrite (decide_False (P := S j = O)) in Hc by done.
    destruct (decide (length (final_nodes c) = S j)) as [E|E]; [destruct Ha as [Ha _]; [lia|]; rewrite E in Ha|]; repeat case_decide; try lia.
Qed.

Lemma length_bound c : level_ok c -> (2 <= K)%nat -> (length (directions c) <= K + m * (K - 1))%nat /\
  (length (final_nodes c) = m -> length (directions c) = K + m * (K - 1))%nat.
Proof.
  intros Hlv HK. pose proof (matched_total (directions c) (co_tournaments _ _ (lv_circuit _ Hlv))) as E. rewrite length_drop in E.
  pose proof (co_length _ _ (lv_circuit _ Hlv)). pose proof (matched_bound c Hlv HK) as Hb.
  pose proof (sum_below_bound (fun j => matched_in j (directions c)) (K - 1) m ltac:(intros; by apply Hb)). split; [lia|]. intros Em.
  rewrite (sum_below_ext _ (fun _ => K - 1)%nat) in E by (intros j Hj; apply Hb; lia).
  assert (sum_below (fun _ => K - 1)%nat m = m * (K - 1))%nat as Es by (clear; induction m; cbn; lia). lia.
Qed.

Lemma not_empty_active c : level_ok c -> not_empty (new_tournaments c) = (length (final_nodes c) <? m)%nat.
Proof.
  intros Hlv. destruct (length (final_nodes c) <? m)%nat eqn:E; bprop.
  - destruct (lv_active _ Hlv E) as [Hs _]. unfold size_of in Hs. destruct (new_tournaments c !! length (final_nodes c)) as [t|] eqn:Et; [|cbn in Hs; lia].
    unfold not_empty. apply existsb_exists. exists t. split; [by apply list_elem_of_lookup_2, list_elem_of_In in Et|]. cbn in Hs.
    apply negb_true_iff, Nat.eqb_neq. lia.
  - unfold not_empty. apply existsb_none. intros t [j Ht]%list_elem_of_lookup_1. pose proof (co_width _ _ (lv_circuit _ Hlv)).
    pose proof (lookup_lt_Some _ _ _ Ht). pose proof (lv_done _ Hlv j ltac:(lia)) as Hs. unfold size_of in Hs. rewrite Ht in Hs. cbn in Hs. by rewrite Hs.
Qed.

Lemma levels_ok fuel : forall c, level_ok c -> (2 <= K)%nat -> (K + m * (K - 1) - length (directions c) < fuel)%nat ->
  exists c', play_levels fuel c = Some c' /\ level_ok c' /\ length (final_nodes c') = m.
Proof.
  induction fuel as [|fuel IH]; intros c Hlv HK Hf; [lia|]. cbn [play_levels]. cbv zeta. rewrite not_empty_active by done.
  destruct (length (final_nodes c) <? m)%nat eqn:E; bprop.
  - destruct (level_step c Hlv E) as (c1 & E1 & Hlv1 & Hlen). rewrite E1. cbn [mbind option_bind]. apply IH; [done|done|].
    destruct (length_bound c1 Hlv1 HK). lia.
  - exists c. split; [done|]. split; [done|]. pose proof (lv_le _ Hlv). lia.
Qed.
End Circuit.

(** ** What [create_circuit] makes *)

(** [e] has a finished circuit for its labels and its tournaments. *)
Record built (e : ect) : Prop := {
  bu_labels : (2 <= k e)%nat;
  bu_circuit : exists new, circuit_ok (k e) (S (errors e)) [] (Circuit (nodes e) (finals e) new);
  bu_finals : length (finals e) = S (errors e);
  bu_top : exists ps, finals e = ps ++ [length (nodes e) - 1]%nat;
  bu_reaches y p : p ∈ finals e -> (y < k e)%nat -> reaches (k e) (nodes e) y p;
  bu_length : length (nodes e) = (k e + last_pair e)%nat;
  bu_height : tree_height e = final_depth (S (errors e))
}.

Lemma labels_lookup n q d : labels n !! q = Some d -> d = Direction q 0 0 0 0 0 false /\ (q < n)%nat.
Proof. unfold labels. rewrite list_lookup_fmap. intros (i & Hi & ->)%fmap_Some. apply lookup_seq in Hi as [-> ?]. done. Qed.

Lemma first_level_ok n m : (2 <= n)%nat -> level_ok n (S m) (Circuit (labels n) [] (first_level n (S m))).
Proof.
  intros Hn. unfold first_level. replace (S m - 1)%nat with m by lia. assert (length (labels n) = n) as Hl by (unfold labels; by rewrite length_fmap, length_seq).
  assert (mjoin (replicate m ([] : list nat)) = []) as Hj by (induction m; [done|exact IHm]).
  assert (children n (labels n) = []) as Hch by (unfold children; by rewrite drop_ge by lia).
  assert (waiting [] (Circuit (labels n) [] (seq 0 n :: replicate m [])) = seq 0 n) as Hw by (change (seq 0 n ++ mjoin (replicate m ([] : list nat)) = seq 0 n); by rewrite Hj, app_nil_r).
  assert (forall j, matched_in n j (labels n) = O) as Hmt by (intros j; unfold matched_in; by rewrite drop_ge by lia).
  assert (forall j, size_of j (Circuit (labels n) [] (seq 0 n :: replicate m [])) = if decide (j = O) then n else O) as Hsz.
  { intros [|j]; cbn; [apply length_seq|]. apply (size_replicate j [] [] m). }
  split; cbn [directions final_nodes new_tournaments length]; try lia.
  - split; cbn [directions final_nodes new_tournaments].
    + lia.
    + cbn. by rewrite length_replicate.
    + rewrite Hw, Hl. apply Forall_forall. intros q Hq%elem_of_seq. lia.
    + constructor.
    + constructor.
    + intros i t. cbn. intros [-> _]%lookup_replicate. constructor.
    + rewrite Hch, Hw. cbn. unfold leaves. assert (Forall (fun q => q < n)%nat (seq 0 n)) as Hall by (apply Forall_forall; intros q Hq%elem_of_seq; lia).
      clear -Hall. induction Hall as [|q l Hq _ IH]; [done|]. by rewrite filter_cons_True, IH.
    + intros p d [-> Hp]%labels_lookup. lia.
    + intros p d [-> Hp]%labels_lookup. lia.
    + intros q d [-> Hq]%labels_lookup. cbn. auto.
    + intros q d [-> Hq]%labels_lookup. done.
    + intros q p d d' _ _ [-> Hp]%labels_lookup. lia.
    + intros p. split; [by intros ?%not_elem_of_nil|]. by intros (d & [-> _]%labels_lookup & ?).
    + constructor.
  - intros _. split; [by rewrite Hsz|]. intros y Hy. exists y. split; [cbn; apply elem_of_seq; lia|constructor].
  - intros j _. rewrite !Hsz. by case_decide.
  - intros j _. rewrite Hsz, !Hmt. repeat case_decide; lia.
  - by intros y p ?%not_elem_of_nil.
Qed.

Lemma create_circuit_built n errs : (2 <= n)%nat ->
  exists e, create_circuit n errs = Some (e, last_pair e + errs)%nat /\ built e /\ k e = n /\ errors e = errs /\ last_pair e = ((n - 1) * S errs)%nat.
Proof.
  intros Hn. pose proof (first_level_ok n errs Hn) as Hlv. unfold create_circuit. rewrite (proj2 (Nat.eqb_neq _ _)) by lia.
  destruct (levels_ok n (S errs) (circuit_fuel n (S errs)) _ Hlv Hn) as (c & E & Hc & Hf).
  { unfold circuit_fuel, labels. cbn [directions]. rewrite length_fmap, length_seq. nia. }
  rewrite E. cbn [mbind option_bind]. rewrite (proj2 (Nat.ltb_lt 1 n)) by lia.
  eexists. split; [f_equal; f_equal; cbn; lia|]. split; [|done].
  destruct Hc as [H1 H2 H3 H4 H5 H6 H7 H8]. split; cbn [k errors nodes finals last_pair tree_height]; try done.
  - exists (new_tournaments c). by destruct c.
  - by apply H8.
  - destruct (length_bound n (S errs) c) as [_ Hlen]; [by split|done|]. rewrite Hlen by done. lia.
Qed.

(** ** Predicting *)

Section Predicting.
Context {F X M : Type} `{Num F} (class_boundary : F) (base : learner F X M) (e : ect).
Context (I : M -> example F X -> Prop) (score : Z -> F) `{HA : !Answers base I (Z.of_nat (last_pair e + errors e)) score}.
Hypothesis Hb : built e.

(** What the model of a problem answers: the right side, or the larger tournament. *)
Definition answer (i : nat) : bool := (score (Z.of_nat i) >? class_boundary)%num.

Lemma finals_loop_ok i : forall w m ec, I m ec -> (w <= errors e)%nat ->
  exists m' ec' w', finals_loop class_boundary base e i w m ec = Some (m', ec', w') /\ I m' ec' /\ (w' <= errors e)%nat.
Proof.
  induction i as [|i IH]; intros w m ec HI Hw; cbn [finals_loop]; [by exists m, ec, w|]. cbv zeta. case_if; bprop; [|by apply IH].
  assert (Nat.lor w (Nat.shiftl 1 i) <> O) as Hpos.
  { intros [_ E0]%Nat.lor_eq_0_iff. rewrite Nat.shiftl_1_l in E0. by apply (Nat.pow_nonzero 2 i). }
  generalize dependent (Nat.lor w (Nat.shiftl 1 i)). intros b Eb Hpos.
  assert (0 <= Z.of_nat (last_pair e + b - 1) < Z.of_nat (last_pair e + errors e)) as Hi by lia.
  destruct (answers_predict m ec _ HI Hi) as (m1 & ec1 & -> & _ & HI1 & _).
  cbn [mbind option_bind]. apply IH; [done|]. by case_if.
Qed.

(** The models of the matches [y] takes part in answer for a side [y] can have come from. *)
Definition consistent (y : nat) : Prop := forall p d, nodes e !! p = Some d -> (k e <= p)%nat ->
  reaches (k e) (nodes e) y p -> reaches (k e) (nodes e) y (if answer (p - k e) then right d else left d).

Lemma reaches_label ds K y p : reaches K ds y p -> (p < K)%nat -> y = p.
Proof. destruct 1; lia. Qed.

Lemma descend_ok fuel : forall node m ec, I m ec -> (node < length (nodes e))%nat -> (node < fuel)%nat ->
  exists m' ec' y, descend class_boundary fuel base e node m ec = Some (m', ec', y) /\ I m' ec' /\ (y < k e)%nat /\
    (forall y0, reaches (k e) (nodes e) y0 node -> consistent y0 -> y = y0) /\
    (y = node \/ exists p d, nodes e !! p = Some d /\ (k e <= p)%nat /\ (if answer (p - k e) then right d else left d) = y).
Proof.
  destruct (bu_circuit _ Hb) as [new Hc]. induction fuel as [|fuel IH]; intros node m ec HI Hn Hf; [lia|]. cbn [descend].
  destruct (k e <=? node)%nat eqn:Ek; bprop.
  - pose proof (bu_length _ Hb).
    assert (0 <= Z.of_nat (node - k e) < Z.of_nat (last_pair e + errors e)) as Hi by lia.
    destruct (answers_predict m ec _ HI Hi) as (m1 & ec1 & -> & Es & HI1 & _). cbn [mbind option_bind].
    destruct (lookup_lt_is_Some_2 _ _ Hn) as [d Hd]. rewrite Hd. cbn [mbind option_bind].
    assert (above class_boundary ec1 = answer (node - k e)) as -> by (unfold above, answer; by rewrite Es).
    destruct (co_children _ _ _ _ Hc node d Hd Ek) as [Hl Hr].
    destruct (IH (if answer (node - k e) then right d else left d) m1 ec1 HI1) as (m' & ec' & y & E & HI' & Hy & Hcons & Hlast); [by case_if; lia..|].
    exists m', ec', y. split; [done|]. split; [done|]. split; [done|]. split.
    + intros y0 Hr0 Hc0. apply Hcons; [|done]. by apply Hc0.
    + right. destruct Hlast as [->|?]; [by exists node, d|done].
  - exists m, ec, node. split; [done|]. split; [done|]. split; [done|]. split; [|by left]. intros y0 Hr0 _. symmetry. by eapply reaches_label.
Qed.

Lemma ect_predict_ok m ec : I m (reset_to_default (set_simple FLT_MAX ec)) ->
  exists m' ec' y, ect_predict class_boundary base e m ec = Some (m', ec', S y) /\ I m' ec' /\ (y < k e)%nat /\
    (forall y0, (y0 < k e)%nat -> consistent y0 -> y = y0) /\
    (exists p d, nodes e !! p = Some d /\ (k e <= p)%nat /\ (if answer (p - k e) then right d else left d) = y).
Proof.
  intros HI. destruct (bu_circuit _ Hb) as [new Hc]. pose proof (bu_labels _ Hb). unfold ect_predict. rewrite (proj2 (Nat.eqb_neq _ _)) by lia.
  destruct (finals_loop_ok (tree_height e) 0 m _ HI ltac:(lia)) as (m1 & ec1 & w & -> & HI1 & Hw). cbn [mbind option_bind].
  destruct (lookup_lt_is_Some_2 (finals e) w) as [p Hp]; [rewrite (bu_finals _ Hb); lia|]. rewrite Hp. cbn [mbind option_bind].
  pose proof (list_elem_of_lookup_2 _ _ _ Hp) as Hpin. destruct (proj1 (co_last _ _ _ _ Hc p) Hpin) as (d & Hd & Hlast). cbn in Hd.
  destruct (descend_ok (length (nodes e)) p m1 ec1 HI1) as (m' & ec' & y & -> & HI' & Hy & Hcons & Hfirst); [by eapply lookup_lt_Some..|].
  cbn [mbind option_bind]. exists m', ec', y. split; [done|]. split; [done|]. split; [done|]. split.
  - intros y0 Hy0 Hc0. apply Hcons; [|done]. by apply (bu_reaches _ Hb).
  - destruct Hfirst as [->|?]; [|done]. destruct (co_labels _ _ _ _ Hc p d Hd Hy) as (_ & _ & ?). congruence.
Qed.

End Predicting.

(** ** Training *)

Lemma halved n : ((1 + n) / 2 - 1 <= (n - 1) / 2)%nat /\ ((1 + n) / 2 <= n)%nat.
Proof.
  pose proof (Nat.div_mod_eq (1 + n) 2). pose proof (Nat.mod_upper_bound (1 + n) 2 ltac:(lia)).
  pose proof (Nat.div_mod_eq (n - 1) 2). pose proof (Nat.mod_upper_bound (n - 1) 2 ltac:(lia)). lia.
Qed.

Lemma halved_times n p b : ((n - 1) * p <= b -> ((1 + n) / 2 - 1) * (2 * p) <= b)%nat.
Proof.
  intros Hb. destruct (halved n) as [Hh _]. pose proof (Nat.div_mod_eq (n - 1) 2).
  assert (((1 + n) / 2 - 1) * 2 <= n - 1)%nat as Hle by lia. rewrite Nat.mul_assoc. pose proof (Nat.mul_le_mono_r _ _ p Hle). lia.
Qed.

Lemma reaches_matched ds K y p : reaches K ds y p -> (y < K)%nat -> (K <= p)%nat ->
  exists q d, ds !! q = Some d /\ (K <= q)%nat /\ (left d = y \/ right d = y).
Proof.
  intros Hr Hy. induction Hr as [|? p d Hd Hp Hr IH|? p d Hd Hp Hr IH]; intros HK; [lia|..].
  - destruct (decide (K <= left d)%nat); [by apply IH|]. exists p, d. split; [done|]. split; [done|]. left. symmetry. eapply reaches_label; [done|lia].
  - destruct (decide (K <= right d)%nat); [by apply IH|]. exists p, d. split; [done|]. split; [done|]. right. symmetry. eapply reaches_label; [done|lia].
Qed.

(** The problems training learns: a match's, or that of round [j] at height [i] of the final
    tournament, with the tournaments that are left of [S (errors e)] when the loop is there. *)
Definition trained (e : ect) (p : nat) : Prop :=
  (p < last_pair e)%nat \/ exists i j, p = (last_pair e + j * Nat.shiftl 1 (i + 1) + Nat.shiftl 1 i - 1)%nat /\ ((2 * j + 1) * 2 ^ (i + j) <= errors e)%nat.

Lemma trained_cases e p : trained e p ->
  (p < last_pair e)%nat \/ exists i j, p = (last_pair e + (2 * j + 1) * 2 ^ i - 1)%nat /\ ((2 * j + 1) * (2 ^ i * 2 ^ j) <= errors e)%nat.
Proof.
  intros [Hp|(i & j & -> & Hp)]; [by left|]. right. exists i, j. rewrite !Nat.shiftl_1_l, (Nat.add_1_r i), Nat.pow_succ_r'.
  rewrite Nat.pow_add_r in Hp. split; [|done]. f_equal. lia.
Qed.

Lemma trained_low e p : trained e p -> (p < last_pair e + errors e)%nat.
Proof.
  intros [Hp|(i & j & -> & Hp)]%trained_cases; [lia|]. pose proof (Nat.pow_nonzero 2 i ltac:(lia)). pose proof (Nat.pow_nonzero 2 j ltac:(lia)).
  assert ((2 * j + 1) * 2 ^ i <= (2 * j + 1) * (2 ^ i * 2 ^ j))%nat by nia. nia.
Qed.

Lemma third_not_trained e p : trained e p -> (errors e <= 5)%nat -> p <> (last_pair e + 2)%nat.
Proof.
  intros [Hp|(i & j & -> & Hp)]%trained_cases He E; [lia|]. pose proof (Nat.pow_nonzero 2 i ltac:(lia)).
  assert ((2 * j + 1) * 2 ^ i = 3)%nat as E3 by nia. destruct j as [|[|j]].
  - destruct i as [|i]; [cbn in E3; lia|]. rewrite Nat.pow_succ_r' in E3. lia.
  - cbn [Nat.pow] in Hp. nia.
  - nia.
Qed.

Section Training.
Context {F X M : Type} `{Num F} (class_boundary : F) (base : learner F X M) (e : ect).
Context (J : M -> example F X -> Prop).
Hypothesis Hb : built e.
Hypothesis Hsame : forall m ec ec', J m ec -> ex_x ec' = ex_x ec -> ft_offset ec' = ft_offset ec -> J m ec'.

Hypothesis Hlearn : forall m ec p, J m ec -> trained e p -> exists m' ec', learn base (Z.of_nat p) m ec = Some (m', ec') /\ J m' ec'.

Definition finals_below (node : nat) : nat := length (filter (fun f => f < node)%nat (finals e)).

Lemma filter_below_le node next (fs : list nat) : (node <= next)%nat ->
  (length (filter (fun f => f < node)%nat fs) <= length (filter (fun f => f < next)%nat fs))%nat.
Proof. intros Hn. induction fs as [|f l IH]; [done|]. rewrite !filter_cons. repeat case_decide; cbn; lia. Qed.

Lemma finals_below_le node next : (node <= next)%nat -> (finals_below node <= finals_below next)%nat.
Proof. apply filter_below_le. Qed.

Lemma finals_below_lt node next f : f ∈ finals e -> (node <= f < next)%nat -> (finals_below node < finals_below next)%nat.
Proof.
  intros Hf Hn. unfold finals_below. induction (finals e) as [|g l IH]; [by apply not_elem_of_nil in Hf|].
  pose proof (filter_below_le node next l ltac:(lia)). rewrite !filter_cons. apply elem_of_cons in Hf as [<-|Hf].
  - rewrite decide_False, decide_True by lia. cbn. lia.
  - specialize (IH Hf). repeat case_decide; cbn; lia.
Qed.

Lemma finals_below_not_all node f : f ∈ finals e -> (node <= f)%nat -> (finals_below node < S (errors e))%nat.
Proof. intros Hf Hn. rewrite <- (bu_finals _ Hb). apply (length_filter_lt _ _ f); [done|lia]. Qed.

Lemma ect_match_ok node is_left m ec : J m ec -> (k e <= node < length (nodes e))%nat ->
  exists m' ec' w, ect_match class_boundary base e node is_left m ec = Some (m', ec', w) /\ J m' ec'.
Proof.
  intros HJ Hn. pose proof (bu_length _ Hb). assert (trained e (node - k e)) as Ht by (left; lia). unfold ect_match. cbv zeta.
  destruct (Hlearn m (set_simple (if is_left then n_of_Z (-1) else n_of_Z 1) ec) (node - k e)) as (m1 & ec1 & -> & HJ1); [by eapply Hsame|done|].
  cbn [mbind option_bind].
  destruct (Hlearn m1 (set_weight (n_of_Z 0) ec1) (node - k e)) as (m2 & ec2 & -> & HJ2); [by eapply Hsame|done|]. cbn [mbind option_bind].
  eexists _, _, _. split; [done|]. by eapply Hsame.
Qed.

Lemma climb_ok fuel : forall node is_left won m ec, J m ec -> (k e <= node < length (nodes e))%nat ->
  (length (nodes e) - node <= fuel)%nat -> (length won <= finals_below node)%nat ->
  exists m' ec' won', climb class_boundary fuel base e node is_left won m ec = Some (m', ec', won') /\ J m' ec' /\ (length won' <= S (errors e))%nat.
Proof.
  destruct (bu_circuit _ Hb) as [new Hc]. destruct (bu_top _ Hb) as [ps Etop].
  assert (length (nodes e) - 1 ∈ finals e)%nat as Htop by (rewrite Etop; apply elem_of_app; right; apply list_elem_of_here).
  destruct (proj1 (co_last _ _ _ _ Hc _) Htop) as (dt & Hdt & Hlt). cbn in Hdt.
  induction fuel as [|fuel IH]; intros node is_left won m ec HJ Hn Hf Hw; [lia|]. cbn [climb].
  destruct (ect_match_ok node is_left m ec HJ Hn) as (m1 & ec1 & wins & -> & HJ1). cbn [mbind option_bind].
  destruct (lookup_lt_is_Some_2 (nodes e) node) as [d Hd]; [lia|]. rewrite Hd. cbn [mbind option_bind].
  destruct (co_links _ _ _ _ Hc node d Hd) as [Lw Ll]. cbn in Lw, Ll. set (next := if wins then winner d else loser d).
  assert (next = O \/ (node < next < length (nodes e) /\ k e <= next)%nat) as Hnext by (unfold next; by destruct wins).
  destruct (lookup_lt_is_Some_2 (nodes e) next) as [n Hn']; [lia|]. rewrite Hn'. cbn [mbind option_bind].
  set (won' := if last d then _ else _).
  assert (length won' <= S (errors e) /\ (next <> O -> length won' <= finals_below next))%nat as [Hle Hlen].
  { unfold won'. destruct (last d) eqn:El.
    - assert (node ∈ finals e) as Hnf by (apply (co_last _ _ _ _ Hc); eauto). rewrite length_app. cbn.
      pose proof (finals_below_not_all node node Hnf ltac:(lia)). split; [lia|]. intros Hnz.
      pose proof (finals_below_lt node next node Hnf ltac:(lia)). lia.
    - assert (node <> length (nodes e) - 1)%nat as Hne by (intros ->; congruence).
      pose proof (finals_below_not_all node _ Htop ltac:(lia)). destruct wins; cbn [negb andb].
      + split; [lia|]. intros Hnz. pose proof (finals_below_le node next ltac:(lia)). lia.
      + subst next. destruct (loser d =? 0)%nat eqn:E0; bprop; [rewrite length_app; cbn; split; [lia|done]|].
        split; [lia|]. intros _. pose proof (finals_below_le node (loser d) ltac:(lia)). lia. }
  destruct (next =? 0)%nat eqn:E0; bprop; [by exists m1, ec1, won'|]. apply IH; [done|lia|lia|by apply Hlen].
Qed.

Lemma train_pairs_ok fuel i : forall j won m ec, J m ec -> (length won - j <= fuel)%nat -> ((length won - 1) * 2 ^ (i + j) <= errors e)%nat ->
  exists m' ec' won', train_pairs class_boundary fuel base e i j won m ec = Some (m', ec', won') /\ J m' ec' /\
    (length won' <= if (j <? length won / 2)%nat then (1 + length won) / 2 else length won)%nat.
Proof.
  induction fuel as [|fuel IH]; intros j won m ec HJ Hf Hw; cbn [train_pairs]; destruct (j <? length won / 2)%nat eqn:Ej; bprop;
    try (by exists m, ec, won); pose proof (Nat.div_mod_eq (length won) 2); [lia|].
  destruct (lookup_lt_is_Some_2 won (j * 2)) as [l El]; [lia|]. destruct (lookup_lt_is_Some_2 won (j * 2 + 1)) as [r Er]; [lia|].
  rewrite El. cbn [mbind option_bind]. rewrite Er. cbn [mbind option_bind].
  assert (exists m1 ec1 w, (if Bool.eqb l r then Some (m, ec, l)
           else
             '(m, ec) ← learn base (Z.of_nat (last_pair e + j * Nat.shiftl 1 (i + 1) + Nat.shiftl 1 i - 1)) m
               (set_weight (n_of_Z (Z.shiftl 1 (Z.of_nat (tree_height e - i - 1)))) (set_simple (if l then n_of_Z (-1) else n_of_Z 1) ec));
             Some (m, ec, if above class_boundary ec then r else l)) = Some (m1, ec1, w) /\ J m1 ec1) as (m1 & ec1 & w & -> & HJ1).
  { destruct (Bool.eqb l r); [by exists m, ec, l|].
    assert (trained e (last_pair e + j * Nat.shiftl 1 (i + 1) + Nat.shiftl 1 i - 1)) as Ht by (right; exists i, j; split; [done|nia]).
    match goal with |- context [learn base _ _ ?x] => destruct (Hlearn m x _ ltac:(by eapply Hsame) Ht) as (m1 & ec1 & -> & HJ1) end.
    by exists m1, ec1, (if above class_boundary ec1 then r else l). }
  cbn [mbind option_bind]. cbv zeta. set (won1 := if (_ =? 1)%nat then _ else _).
  assert (length won1 = length won) as E1 by (unfold won1; case_if; by rewrite ?length_insert).
  rewrite length_insert. destruct (halved (length won)) as [Hh Hh'].
  assert (length (take ((1 + length won) / 2) won1) = (1 + length won) / 2)%nat as Et by (rewrite length_take; lia).
  destruct (IH (S j) (take ((1 + length won) / 2) won1) m1 ec1 HJ1) as (m' & ec' & won' & -> & HJ' & Hl).
  - lia.
  - rewrite Et, Nat.add_succ_r, Nat.pow_succ_r'. by apply halved_times.
  - exists m', ec', won'. split; [done|]. split; [done|]. rewrite Et in Hl. destruct (halved ((1 + length won) / 2)).
    revert Hl. destruct (S j <? (1 + length won) / 2 / 2)%nat; lia.
Qed.

Lemma train_finals_ok n : forall i won m ec, J m ec -> ((length won - 1) * 2 ^ i <= errors e)%nat ->
  exists m' ec', train_finals class_boundary n base e i won m ec = Some (m', ec') /\ J m' ec'.
Proof.
  induction n as [|n IH]; intros i won m ec HJ Hw; [by exists m, ec|]. cbn [train_finals].
  destruct (train_pairs_ok (length won) i 0 won m ec) as (m1 & ec1 & won1 & -> & HJ1 & Hl); [done|lia|by rewrite Nat.add_0_r|].
  cbn [mbind option_bind]. apply IH; [done|]. pose proof (halved_times _ _ _ Hw) as Hw2. rewrite Nat.pow_succ_r'.
  pose proof (Nat.div_mod_eq (length won) 2). pose proof (Nat.mod_upper_bound (length won) 2 ltac:(lia)).
  destruct (0 <? length won / 2)%nat eqn:E0; bprop.
  - pose proof (Nat.mul_le_mono_r _ _ (2 * 2 ^ i) (Nat.sub_le_mono_r _ _ 1 Hl)). lia.
  - replace (length won1 - 1)%nat with O by lia. lia.
Qed.

Lemma ect_train_ok m ec : J m ec -> exists m' ec', ect_train class_boundary base e m ec = Some (m', ec') /\ J m' ec'.
Proof.
  intros HJ. destruct (bu_circuit _ Hb) as [new Hc]. pose proof (bu_labels _ Hb). unfold ect_train. cbv zeta.
  rewrite (proj2 (Nat.eqb_neq _ _)) by lia. destruct ((_ =? 0) || _) eqn:El; [by exists m, ec|]. apply orb_false_iff in El as [El1 El2]. bprop.
  set (y := (Z.to_nat (multi (l ec)) - 1)%nat). assert (y < k e)%nat as Hy by (unfold y; lia).
  destruct (bu_top _ Hb) as [ps Etop].
  assert (length (nodes e) - 1 ∈ finals e)%nat as Htop by (rewrite Etop; apply elem_of_app; right; apply list_elem_of_here).
  pose proof (bu_length _ Hb). pose proof (co_length _ _ _ _ Hc). cbn [directions] in *.
  destruct (proj1 (co_last _ _ _ _ Hc _) Htop) as (dt & Hdt & Hlt). cbn [directions] in Hdt.
  destruct (reaches_matched _ _ _ _ (bu_reaches _ Hb y _ Htop Hy) Hy) as (p & d & Hd & Hp & Hside).
  { destruct (decide (k e <= length (nodes e) - 1)%nat) as [|Hlow]; [done|].
    destruct (co_labels _ _ _ _ Hc _ dt Hdt ltac:(lia)) as (_ & _ & ?). congruence. }
  destruct (lookup_lt_is_Some_2 (nodes e) y) as [leaf Hleaf]; [lia|]. rewrite Hleaf. cbn [mbind option_bind].
  assert (winner leaf = p) as -> by (by eapply (co_first _ _ _ _ Hc y p leaf d)). rewrite Hd. cbn [mbind option_bind].
  pose proof (lookup_lt_Some _ _ _ Hd).
  destruct (climb_ok (length (nodes e)) p (left d =? y)%nat [] m ec HJ) as (m1 & ec1 & won & -> & HJ1 & Hl); [lia|lia|cbn; lia|].
  cbn [mbind option_bind]. apply train_finals_ok; [done|]. cbn. lia.
Qed.
End Training.

(** ** What the reduction promises *)

(** C14: the circuit of any number of labels and of errors can be built, and predicting with it ends,
    asks only the models below the width reserved for the reduction, and gives a label between 1 and
    the number of labels: the one for which every match it can take part in is answered, if there is
    one. *)
Theorem ect_predicts {F X M : Type} `{Num F} (class_boundary : F) (base : learner F X M) (max_label errors : nat)
    (I : M -> example F X -> Prop) (score : Z -> F) (m : M) (ec : example F X) :
  let width := ((max_label - 1) * S errors + errors)%nat in
  (2 <= max_label)%nat -> Answers base I (Z.of_nat width) score -> I m (reset_to_default (set_simple FLT_MAX ec)) ->
  exists e m' ec' y, create_circuit max_label errors = Some (e, width) /\
    ect_predict class_boundary base e m ec = Some (m', ec', S y) /\ I m' ec' /\ (y < max_label)%nat /\
    forall y0, (y0 < max_label)%nat -> consistent class_boundary e score y0 -> y = y0.
Proof.
  intros width Hn HA HI. unfold width in *. destruct (create_circuit_built max_label errors Hn) as (e & E & Hb & Hk & He & Hw).
  exists e. rewrite <- Hw, <- He in *. destruct (ect_predict_ok class_boundary base e I score Hb m ec HI) as (m' & ec' & y & E' & HI' & Hy & Hcons & _).
  exists m', ec', y. rewrite <- Hk in *. done.
Qed.

(** The circuits of the examples. *)
Definition ect_of (max_label errors : nat) : ect := default (Ect 0 0 [] [] 0 0) (fst <$> create_circuit max_label errors).

Lemma ect_predicts_witness :
  let score := fun i => if (i =? 1) || (i =? 5) then 1%Q else (-1)%Q in
  exists e m' ec' y, create_circuit 5 2 = Some (e, 14%nat) /\
    ect_predict 0%Q (table_learner score) e [] (plain_example 0%Q 1%Q 0%Q 0) = Some (m', ec', S y) /\ (y < 5)%nat.
Proof.
  intros score. destruct (ect_predicts 0%Q (table_learner score) 5 2 at_zero score [] (plain_example 0%Q 1%Q 0%Q 0))
    as (e & m' & ec' & y & E & E' & _ & Hy & _); [lia|eapply answers_fewer; [|apply table_answers]; lia|done|].
  exists e, m', ec', y. split; [exact E|]. split; [exact E'|exact Hy].
Defined.

(** Predicting never gives a label whose model of the first match answers for the other side,
    however many errors the tournaments were made for: walking down, a match is left to the side its
    model answers for, also when it was reached from the tournament of its loser. *)
Theorem ect_first_match_decides {F X M : Type} `{Num F} (class_boundary : F) (base : learner F X M) (max_label errors : nat) (e : ect) (width : nat)
    (I : M -> example F X -> Prop) (score : Z -> F) (m : M) (ec : example F X) (y : nat) (leaf first : direction) :
  (2 <= max_label)%nat -> create_circuit max_label errors = Some (e, width) -> Answers base I (Z.of_nat width) score ->
  I m (reset_to_default (set_simple FLT_MAX ec)) ->
  (y < max_label)%nat -> nodes e !! y = Some leaf -> nodes e !! winner leaf = Some first ->
  (if answer class_boundary score (winner leaf - max_label) then right first else left first) <> y ->
  exists m' ec' y', ect_predict class_boundary base e m ec = Some (m', ec', S y') /\ y' <> y.
Proof.
  intros Hn E HA HI Hy Hleaf Hfirst Hside. destruct (create_circuit_built max_label errors Hn) as (e0 & E0 & Hb & Hk & He & _).
  rewrite E in E0. injection E0 as -> ->. subst errors max_label.
  destruct (ect_predict_ok class_boundary base e0 I score Hb m ec HI) as (m' & ec' & y' & E' & _ & _ & _ & p & d & Hd & Hp & Hans).
  exists m', ec', y'. split; [done|]. intros ->. destruct (bu_circuit _ Hb) as [new Hc].
  assert (winner leaf = p) as Ep by (eapply (co_first _ _ _ _ Hc y p leaf d); try done; destruct (answer _ _ _) in Hans; auto).
  apply Hside. rewrite Ep in *. rewrite Hd in Hfirst. by injection Hfirst as <-.
Qed.

(** Four labels, three errors allowed: one wrong answer of the match between labels 0 and 1. *)
Lemma ect_first_match_decides_witness :
  let score := fun i => if i =? 0 then 1%Q else (-1)%Q in
  exists m' ec' y', ect_predict 0%Q (table_learner score) (ect_of 4 3) [] (plain_example 0%Q 1%Q 0%Q 0) = Some (m', ec', S y') /\ y' <> 0%nat.
Proof.
  intros score. eapply (ect_first_match_decides 0%Q (table_learner score) 4 3 (ect_of 4 3) 15 at_zero score [] _ 0);
    [lia|by vm_compute|eapply answers_fewer; [|apply table_answers]; lia|done|lia|by vm_compute|by vm_compute|by vm_compute].
Defined.

(** Training ends for every example, whatever its label, and only learns models below the width
    reserved for the reduction. *)
Theorem ect_train_ends {F X M : Type} `{Num F} (class_boundary : F) (base : learner F X M) (max_label errs : nat)
    (J : M -> example F X -> Prop) (m : M) (ec : example F X) :
  let width := ((max_label - 1) * S errs + errs)%nat in
  (2 <= max_label)%nat -> Learns base J (Z.of_nat width) -> J m ec ->
  exists e m' ec', create_circuit max_label errs = Some (e, width) /\ ect_train class_boundary base e m ec = Some (m', ec') /\ J m' ec'.
Proof.
  intros width Hn HL HJ. unfold width in *. destruct (create_circuit_built max_label errs Hn) as (e & E & Hb & Hk & He & Hw).
  exists e. rewrite <- Hw, <- He in *. destruct (ect_train_ok class_boundary base e J Hb learns_same) with (m := m) (ec := ec) as (m' & ec' & E' & HJ'); [|done|by exists m', ec'].
  intros m0 ec0 p HJ0 Hp. pose proof (trained_low e p Hp). apply learns_learn; [done|lia].
Qed.

(** One label of five wins all its matches but those of model 2. *)
Lemma ect_train_ends_witness :
  let score := fun i => if i =? 2 then 1%Q else (-1)%Q in
  exists e m' ec', create_circuit 5 3 = Some (e, 19%nat) /\
    ect_train 0%Q (table_learner score) e [] (plain_example 0%Q 1%Q 0%Q 5) = Some (m', ec') /\ ft_offset ec' = 0.
Proof.
  intros score. destruct (ect_train_ends 0%Q (table_learner score) 5 3 at_zero [] (plain_example 0%Q 1%Q 0%Q 5)) as (e & m' & ec' & E & E' & HJ);
    [lia|apply table_learns; lia|done|]. exists e, m', ec'. split; [exact E|]. split; [exact E'|exact HJ].
Defined.

(** With room for three to five errors, training never learns the third model of the final
    tournament, which is the one to tell its fourth tournament from its third: the loop that should
    visit every pair of tournaments halves the list it runs over after each of them. Whatever
    learning all the other models keeps, training keeps. *)
Theorem ect_third_final_untrained {F X M : Type} `{Num F} (class_boundary : F) (base : learner F X M) (max_label errs : nat)
    (J : M -> example F X -> Prop) (m : M) (ec : example F X) :
  let last_pair := ((max_label - 1) * S errs)%nat in
  (2 <= max_label)%nat -> (3 <= errs <= 5)%nat ->
  (forall m ec ec', J m ec -> ex_x ec' = ex_x ec -> ft_offset ec' = ft_offset ec -> J m ec') ->
  (forall m ec i, J m ec -> (i < last_pair + errs)%nat -> i <> (last_pair + 2)%nat -> exists m' ec', learn base (Z.of_nat i) m ec = Some (m', ec') /\ J m' ec') ->
  J m ec ->
  exists e m' ec', create_circuit max_label errs = Some (e, last_pair + errs)%nat /\ ect_train class_boundary base e m ec = Some (m', ec') /\ J m' ec'.
Proof.
  intros lp Hn Hr Hsame HL HJ. unfold lp in *. destruct (create_circuit_built max_label errs Hn) as (e & E & Hb & Hk & He & Hw).
  exists e. rewrite <- Hw, <- He in *. destruct (ect_train_ok class_boundary base e J Hb Hsame) with (m := m) (ec := ec) as (m' & ec' & E' & HJ'); [|done|by exists m', ec'].
  intros m0 ec0 p HJ0 Hp. pose proof (trained_low e p Hp). apply HL; [done|lia|]. apply third_not_trained; [done|lia].
Qed.

(** The models learned for four labels and three errors, when label 2 loses where it can lose. *)
Lemma ect_third_final_untrained_witness :
  let score := fun i => if (i =? 0) || (i =? 2) then 1%Q else (-1)%Q in
  exists e m' ec', create_circuit 4 3 = Some (e, 15%nat) /\
    ect_train 0%Q (table_learner score) e [] (plain_example 0%Q 1%Q 0%Q 2) = Some (m', ec') /\ 14 ∉ m'.
Proof.
  intros score.
  destruct (ect_third_final_untrained 0%Q (table_learner score) 4 3 (fun m ec => ft_offset ec = 0 /\ 14 ∉ m) [] (plain_example 0%Q 1%Q 0%Q 2))
    as (e & m' & ec' & E & E' & _ & HJ); [lia|lia| | |split; [done|apply not_elem_of_nil]|].
  - intros m0 ec0 ec1 [E H] _ E1. by rewrite E1.
  - intros m0 ec0 i [Hz Hm] Hi Hne. destruct (table_learned score (Z.of_nat i) m0 ec0 Hz) as (ec1 & E1 & Ez); [lia|].
    exists (Z.of_nat i :: m0), ec1. split; [exact E1|]. split; [exact Ez|]. rewrite not_elem_of_cons. split; [lia|done].
  - exists e, m', ec'. split; [exact E|]. split; [exact E'|exact HJ].
Defined.
