(* ===== verification/Setup.v ===== *)
(** * Setting examples up ([core/src/vw.cc], [core/src/unique_sort.cc])

    What happens to an example between the parser and the learner: sorting with removal of
    duplicates, the cache, the hold-out set, the weight, ignored namespaces, grams, the constant
    feature, limits, and the spreading of the indices over the rows of the weights. The last section
    follows a line of text from the buffer to the prediction of gradient descent. *)

From Stdlib Require Import Floats.SpecFloat.
From S2P Require Import Prelude.
From S2P Require Import FloatBytes.
From S2P Require Import Hash.
From S2P Require Import Features.
From S2P Require Import IoBuf.
From S2P Require Import Labels.
From S2P Require Import CacheParser.
From S2P Require Import Ngrams.
From S2P Require Import TextUtils.
From S2P Require Import LabelText.
From S2P Require Import TextParser.
From S2P Require InteractionPredict.
From S2P Require Losses.
From S2P Require Weights.
From S2P Require Gd.

(** ** Removing duplicates *)

Section Unique.
Context {F : Type} `{Num F}.
Implicit Type fs : features F.

(** [x[last] = x[i]] in every column. *)
Definition move_to {A} (i last : nat) (l : list A) : list A := match l !! i with Some x => <[last := x]> l | None => l end.
Definition move_columns (i last : nat) (c : columns (F := F)) : columns (F := F) :=
  let '(vs, ixs, es, ns) := c in (move_to i last vs, move_to i last ixs, move_to i last es, move_to i last ns).

(** The loop over [i], [n] rounds left; [max] is [static_cast<size_t>(max)]. *)
Fixpoint unique_loop (n i last_index : nat) (max : Z) (c : columns (F := F)) : option (nat * columns (F := F)) :=
  match n with
  | O => Some (last_index, c)
  | S n =>
      let ixs := c.1.1.2 in
      x ← ixs !! i; y ← ixs !! last_index;
      if x =? y then unique_loop n (S i) last_index max c
      else
        let last := S last_index in
        let c := if (i =? last)%nat then c else move_columns i last c in
        if max <=? Z.of_nat (S last) then Some (last, c) else unique_loop n (S i) last max c
  end.

(** [unique_features(features& fs, int max)] *)
Definition unique_features (fs : features F) (max : Z) : option (features F) :=
  match indices fs with
  | [] => Some fs
  | _ =>
      if max =? 0 then Some (clear fs)
      else if max =? 1 then Some (truncate_to 1 fs)
      else
        let flat_extents := flatten_namespace_extents (namespace_extents fs) (length (indices fs)) in
        '(last, (vs, ixs, es, ns)) ← unique_loop (size fs - 1) 1 0 (u64 max) (values fs, indices fs, flat_extents, space_names fs);
        Some (truncate_to (S last) (Features F vs ixs ns (unflatten_namespace_extents es) (sum_feat_sq fs)))
  end.
End Unique.

#[local] Existing Instance num_f32.

(** ** Setting up *)

Definition CONSTANT : Z := 11650396.
Definition CONSTANT_NAMESPACE : byte := byte.of_Z 128.

(** What [setup_example] reads of the workspace; [audit_names] is [audit || hash_inv]. *)
Record setup_config := SetupConfig {
  sort_features : bool; write_cache : bool; emptylines_separate_examples : bool; sc_strict_parse : bool; label_type : label_type_t;
  holdout_period : Z; holdout_after : Z; holdout_set_off : bool;
  ignore_some : bool; ignore : byte -> bool; skip_gram_transformer : option kskip_ngram_transformer;
  add_constant : bool; audit_names : bool; limit_some : bool; limit : byte -> Z;
  total_feature_width : Z; stride_shift : Z; sc_parse_mask : Z; sc_permutations : bool
}.

(** What of the parser changes. *)
Record parser_state {R W : Type} := ParserState {
  num_setup_examples : Z; in_pass_counter : Z; output : io_buf R W; cache_temp_buffer : io_buf R vector_writer
}.
Arguments parser_state : clear implicits.
Arguments ParserState {R W}.

(** An example ready for the learners, and whether a warning was logged. *)
Record ready := Ready {
  ae : example; test_only : bool; weight : f32; partial_prediction : f32; ae_loss : f32; num_features : nat; use_permutations : bool; warned : bool
}.

Definition of_option {A} (o : option A) : io_result A := match o with Some a => Done a | None => Undefined end.

Definition with_features (indices : list byte) (space : byte -> features f32) (sorted : bool) (e : example) : example :=
  Example_ (ex_l e) (ex_reduction_features e) (ex_tag e) (ex_is_newline e) indices space sorted.

(** [for (features& fs : ae)] *)
Fixpoint each_group (f : byte -> features f32 -> option (features f32)) (indices : list byte) (space : byte -> features f32) :
    option (byte -> features f32) :=
  match indices with [] => Some space | i :: indices => fs ← f i (space i); each_group f indices (set_space i fs space) end.

Section Setup.
Context {R W : Type} `{Reader R, Writer W, StdSort} (alloc : nat -> Z) (cfg : setup_config).
Implicit Types (e : example) (st : parser_state R W).

Definition sort_unique (_ : byte) (fs : features f32) : option (features f32) :=
  '(sorted, fs) ← sort (sc_parse_mask cfg) fs; if sorted : bool then unique_features fs (-1) else Some fs.
Definition unique_sort_features e : option example :=
  space ← each_group sort_unique (ex_indices e) (ex_feature_space e); Some (with_features (ex_indices e) space true e).

(** A period of 0 divides by zero. *)
Definition is_test_only (counter target_modulus : Z) : option bool :=
  if holdout_set_off cfg then Some false
  else if holdout_after cfg =? 0 then (if holdout_period cfg =? 0 then None else Some (counter mod holdout_period cfg =? target_modulus))
  else Some (holdout_after cfg <? counter).

(** Namespaces that are ignored lose their features and are no longer listed. *)
Definition ignore_namespaces e : example :=
  let space := fun i => if bool_decide (i ∈ ex_indices e) && ignore cfg i then fs_empty else ex_feature_space e i in
  with_features (filter (fun i => ignore cfg i = false) (ex_indices e)) space (ex_sorted e) e.

Definition add_constant_feature e : example :=
  let fs := push_back_ns f32_one CONSTANT (byte_val CONSTANT_NAMESPACE) (ex_feature_space e CONSTANT_NAMESPACE) in
  let fs := if audit_names cfg then push_name (AuditStrings [] (str "Constant") []) fs else fs in
  with_features (ex_indices e ++ [CONSTANT_NAMESPACE]) (set_space CONSTANT_NAMESPACE fs (ex_feature_space e)) (ex_sorted e) e.

(** [limit] is an array of [uint32_t], passed on as an [int]. *)
Definition limit_group (i : byte) (fs : features f32) : option (features f32) :=
  if limit cfg i <? Z.of_nat (size fs) then '(_, fs) ← sort (sc_parse_mask cfg) fs; unique_features fs (i32 (limit cfg i)) else Some fs.
Definition feature_limit e : option example :=
  space ← each_group limit_group (ex_indices e) (ex_feature_space e); Some (with_features (ex_indices e) space (ex_sorted e) e).

Definition multiplier : Z := u64 (Z.shiftl (total_feature_width cfg) (stride_shift cfg)).
Definition multiply (_ : byte) (fs : features f32) : option (features f32) :=
  Some (Features f32 (values fs) ((fun j => u64 (j * multiplier)) <$> indices fs) (space_names fs) (namespace_extents fs) (sum_feat_sq fs)).
Definition spread e : option example :=
  if multiplier =? 1 then Some e
  else space ← each_group multiply (ex_indices e) (ex_feature_space e); Some (with_features (ex_indices e) space (ex_sorted e) e).

Definition count_features e : nat := foldr (fun i n => (size (ex_feature_space e i) + n)%nat) 0%nat (ex_indices e).

Definition lbl_parser : label_parser (R := R) (W := vector_writer) := get_label_parser alloc (label_type cfg).

Definition cache_example e st : io_result (parser_state R W) :=
  do (temp, out) <- write_example_to_cache alloc e lbl_parser (sc_parse_mask cfg) (cache_temp_buffer st) (output st);
  Done (ParserState (num_setup_examples st) (in_pass_counter st) out temp).

Definition ends_group e : bool :=
  emptylines_separate_examples cfg && ex_is_newline e &&
  match label_type cfg with CCB => ccb_type (conditional_contextual_bandit (ex_l e)) =? UNSET | _ => true end.

Definition bad_weight (w : f32) : bool := (w <? f32_zero)%num || isnan w.

(** From the ignored namespaces on: what happens to the features. *)
Definition setup_features e : option example :=
  let e := if ignore_some cfg then ignore_namespaces e else e in
  e ← (match skip_gram_transformer cfg with Some t => generate_grams t e | None => Some e end);
  let e := if add_constant cfg then add_constant_feature e else e in
  e ← (if limit_some cfg then feature_limit e else Some e);
  spread e.

Definition setup_example e st : io_result (ready * parser_state R W) :=
  do e <- (if sort_features cfg && negb (ex_sorted e) then of_option (unique_sort_features e) else Done e);
  do st <- (if write_cache cfg then cache_example e st else Done st);
  let empty := emptylines_separate_examples cfg in
  let counter := if empty then in_pass_counter st else u32 (in_pass_counter st + 1) in
  do held_out <- of_option (is_test_only counter (if empty then u32 (holdout_period cfg - 1) else 0));
  let test_only := held_out || lp_test_label lbl_parser (ex_l e) in
  let counter := if ends_group e then u32 (counter + 1) else counter in
  let w := lp_get_weight lbl_parser (ex_l e) (ex_reduction_features e) in
  if bad_weight w && sc_strict_parse cfg then Throw
  else
    do e <- of_option (setup_features e);
    Done (Ready e test_only w f32_zero f32_zero (count_features e) (sc_permutations cfg) (bad_weight w),
          ParserState (u64 (num_setup_examples st + 1)) counter (output st) (cache_temp_buffer st)).

(** [setup_examples] *)
Fixpoint setup_examples (es : list example) st : io_result (list ready * parser_state R W) :=
  match es with
  | [] => Done ([], st)
  | e :: es => do (r, st) <- setup_example e st; do (rs, st) <- setup_examples es st; Done (r :: rs, st)
  end.
End Setup.

(** ** What removing duplicates leaves *)

(** Rows after one of index [i]: the first of each run of equal indices. *)
Fixpoint skip_run {A} (i : Z) (rows : list (Z * A)) : list (Z * A) :=
  match rows with [] => [] | (j, x) :: rows => if j =? i then skip_run i rows else (j, x) :: skip_run j rows end.
Definition first_of_runs {A} (rows : list (Z * A)) : list (Z * A) :=
  match rows with [] => [] | (i, x) :: rows => (i, x) :: skip_run i rows end.

Section UniqueSpec.
Context {F : Type} `{Num F}.
Implicit Type fs : features F.

Definition feature_rows fs : list (Z * F) := zip (indices fs) (values fs).
Definition rows_of (c : columns (F := F)) : list (Z * F) := zip c.1.1.2 c.1.1.1.

(** Columns of length [n], and names of length [k]. *)
Definition columns_length (n k : nat) (c : columns (F := F)) : Prop :=
  length c.1.1.1 = n /\ length c.1.1.2 = n /\ length c.1.2 = n /\ length c.2 = k.

Lemma length_move_to {A} i last (l : list A) : length (move_to i last l) = length l.
Proof. unfold move_to. case_match; [by rewrite length_insert|done]. Qed.

Lemma move_columns_length i last n k c : columns_length n k c -> columns_length n k (move_columns i last c).
Proof. destruct c as [[[vs ixs] es] ns]. unfold columns_length, move_columns. cbn. by rewrite !length_move_to. Qed.

Lemma move_columns_rows i last n k c x : columns_length n k c -> rows_of c !! i = Some x -> rows_of (move_columns i last c) = <[last := x]> (rows_of c).
Proof.
  destruct c as [[[vs ixs] es] ns]. unfold rows_of, move_columns, move_to. cbn. intros _ Hx. destruct x as [j v].
  apply lookup_zip_Some in Hx as [Hi Hv]. rewrite Hi, Hv. by rewrite insert_zip_with.
Qed.

Lemma skip_run_drop {A} (rows : list (Z * A)) i y j x : rows !! i = Some (j, x) ->
  skip_run y (drop i rows) = if j =? y then skip_run y (drop (S i) rows) else (j, x) :: skip_run j (drop (S i) rows).
Proof. intros Hi. by rewrite (drop_S rows (j, x) i). Qed.

Lemma unique_loop_ok n : forall i last max c N k y v, columns_length N k c -> (n + i = N)%nat -> (last < i)%nat -> Z.of_nat (S last) < max ->
  rows_of c !! last = Some (y, v) ->
  exists last' c', unique_loop n i last max c = Some (last', c') /\ columns_length N k c' /\ (last' < N)%nat /\
    take (S last') (rows_of c') = take (Z.to_nat max) (take (S last) (rows_of c) ++ skip_run y (drop i (rows_of c))).
Proof.
  induction n as [|n IH]; intros i last max c N k y v Hc Hn Hl Hm Hy; cbn [unique_loop].
  - exists last, c. split; [done|]. split; [done|]. split; [lia|]. assert (length (rows_of c) = N) as Hr by (unfold rows_of; destruct Hc as (? & ? & _); rewrite length_zip_with; lia).
    rewrite (drop_ge (rows_of c)) by lia. cbn [skip_run]. rewrite app_nil_r, take_take. f_equal. lia.
  - assert (length (rows_of c) = N) as Hr by (unfold rows_of; destruct Hc as (? & ? & _); rewrite length_zip_with; lia).
    destruct (lookup_lt_is_Some_2 (rows_of c) i) as [[x w] Hx]; [lia|].
    pose proof Hx as Hx'. pose proof Hy as Hy'. unfold rows_of in Hx', Hy'. apply lookup_zip_Some in Hx' as [Hxi _], Hy' as [Hyi _].
    rewrite Hxi, Hyi. cbn [mbind option_bind]. rewrite (skip_run_drop _ _ y x w Hx). destruct (x =? y) eqn:E.
    + apply Z.eqb_eq in E. subst x. apply (IH (S i) last max c N k y v); try done; lia.
    + set (c1 := if (i =? S last)%nat then c else move_columns i (S last) c).
      assert (columns_length N k c1) as Hc1 by (unfold c1; case_if; [done|by apply move_columns_length]).
      assert (rows_of c1 = <[S last := (x, w)]> (rows_of c)) as Er.
      { unfold c1. destruct (i =? S last)%nat eqn:Ei; bprop; [subst i; by rewrite list_insert_id|by eapply move_columns_rows]. }
      assert (take (S (S last)) (rows_of c1) = take (S last) (rows_of c) ++ [(x, w)]) as Et.
      { rewrite (take_S_r _ (S last) (x, w)) by (rewrite Er, list_lookup_insert_eq; [done|lia]). f_equal. rewrite Er. by rewrite take_insert_ge by lia. }
      assert (drop (S i) (rows_of c1) = drop (S i) (rows_of c)) as Ed by (rewrite Er; apply drop_insert_lt; lia).
      cbv zeta. fold c1. destruct (max <=? Z.of_nat (S (S last))) eqn:Em; bprop.
      * exists (S last), c1. split; [done|]. split; [done|]. split; [lia|]. rewrite Et.
        replace (take (S last) (rows_of c) ++ (x, w) :: skip_run x (drop (S i) (rows_of c))) with
          ((take (S last) (rows_of c) ++ [(x, w)]) ++ skip_run x (drop (S i) (rows_of c))) by by rewrite <- app_assoc.
        rewrite take_app_le by (rewrite length_app, length_take_le by lia; cbn [length]; lia). rewrite (take_ge (_ ++ _)); [done|].
        rewrite length_app, length_take_le by lia. cbn [length]. lia.
      * destruct (IH (S i) (S last) max c1 N k x w) as (last' & c' & E' & Hc' & Hl' & Hr'); [done|lia|lia|lia|rewrite Er, list_lookup_insert_eq; [done|lia]|].
        exists last', c'. split; [done|]. split; [done|]. split; [done|]. rewrite Hr', Et, Ed. by rewrite <- app_assoc.
Qed.

Lemma zip_take {A B} n (l : list A) (k : list B) : zip (take n l) (take n k) = take n (zip l k).
Proof. revert l k. induction n as [|n IH]; intros [|x l] [|y k]; try done. cbn. by rewrite IH. Qed.

(** [unique_features] keeps, in order, the first feature of each run of equal indices, at most [max]
    of them, for a negative [max] all. *)
Lemma unique_features_ok audit fs max : columns_wf audit fs -> - 2 ^ 31 <= max < 2 ^ 31 ->
  exists fs', unique_features fs max = Some fs' /\ columns_wf audit fs' /\
    feature_rows fs' = take (Z.to_nat (u64 max)) (first_of_runs (feature_rows fs)).
Proof.
  intros Hg Hmax. pose proof Hg as [Hi He Hn]. unfold unique_features, feature_rows. destruct (indices fs) as [|x ixs] eqn:Ex.
  { exists fs. split; [done|]. split; [done|]. rewrite Ex. cbn. by rewrite take_nil. }
  destruct (values fs) as [|v vs] eqn:Ev; [done|]. rewrite <- Ex, <- Ev in *.
  destruct (max =? 0) eqn:E0; bprop; [subst max; exists fs_empty; split; [done|]; split; [apply columns_wf_empty|]; by rewrite take_0|].
  assert (1 <= length (values fs))%nat as H1 by (rewrite Ev; cbn; lia).
  destruct (max =? 1) eqn:E1; bprop.
  { subst max. destruct (truncate_columns_wf audit 1 (removed_chunk 1 (values fs)) fs Hg H1) as (Hg' & Hv & Hx). eexists. split; [done|].
    split; [exact Hg'|]. unfold truncate_to. rewrite Hv, Hx, zip_take, Ex, Ev. cbn. by rewrite !take_0. }
  set (flat := flatten_namespace_extents _ _). assert (length flat = length (values fs)) as Hflat by (unfold flat; rewrite Hi; by apply flat_length, (columns_wf_ok audit)).
  assert (2 <= u64 max) as Hu.
  { unfold u64. destruct (decide (0 <= max)); [rewrite Z.mod_small by lia; lia|]. rewrite <- (Z_mod_plus max 1) by lia. rewrite Z.mod_small by lia. lia. }
  destruct (unique_loop_ok (size fs - 1) 1 0 (u64 max) (values fs, indices fs, flat, space_names fs) (length (values fs)) (length (space_names fs)) x v)
    as (last & [[[vs' ixs'] es'] ns'] & E & (Lv & Li & Le & Ln) & Hl & Hr); [done|unfold size; lia|lia|lia|unfold rows_of; cbn; by rewrite Ex, Ev|].
  rewrite E. cbn [mbind option_bind]. unfold rows_of in Hr. cbn [fst snd] in *. set (fs1 := Features F vs' ixs' ns' _ _).
  assert (columns_wf audit fs1) as Hg1.
  { split; cbn [indices values namespace_extents space_names fs1]; [lia| |by rewrite Ln, Hn, Lv]. rewrite Lv, <- Le. apply unflatten_ok. }
  destruct (truncate_columns_wf audit (S last) (removed_chunk (S last) (values fs1)) fs1 Hg1) as (Hg' & Hv & Hx); [cbn; lia|].
  eexists. split; [done|]. split; [exact Hg'|]. unfold truncate_to. rewrite Hv, Hx, zip_take. cbn [values indices fs1]. rewrite Hr, Ex, Ev. done.
Qed.
End UniqueSpec.

(** ** Examples stay well formed *)

(** A group whose columns agree, with indices that are not negative. *)
Definition group_wf {F} (audit : bool) (fs : features F) : Prop := columns_wf audit fs /\ Forall (Z.le 0) (indices fs).

(** The namespaces listed, each once, are all that have features. *)
Record example_wf (audit : bool) (e : example) : Prop := {
  ew_nodup : NoDup (ex_indices e);
  ew_empty i : i ∉ ex_indices e -> values (ex_feature_space e i) = [];
  ew_groups i : group_wf audit (ex_feature_space e i)
}.

Lemma group_wf_empty {F} `{Num F} audit : group_wf audit (fs_empty (F := F)).
Proof. split; [apply columns_wf_empty|constructor]. Qed.

Lemma each_group_ok audit f : (forall i fs, group_wf audit fs -> exists fs', f i fs = Some fs' /\ group_wf audit fs') ->
  forall js space, NoDup js -> (forall i, group_wf audit (space i)) ->
  exists space', each_group f js space = Some space' /\ (forall i, group_wf audit (space' i)) /\
    (forall i, i ∈ js -> f i (space i) = Some (space' i)) /\ (forall i, i ∉ js -> space' i = space i).
Proof.
  intros Hf. induction js as [|i js IH]; intros space Hnd Hs; cbn [each_group].
  { exists space. split; [done|]. split; [done|]. split; [by intros i ?%not_elem_of_nil|done]. }
  apply NoDup_cons in Hnd as [Hi Hnd]. destruct (Hf i (space i) (Hs i)) as (fs & E & Hfs). rewrite E. cbn [mbind option_bind].
  destruct (IH (set_space i fs space) Hnd) as (space' & E' & Hs' & Hin & Hout).
  { intros j. unfold set_space. case_decide; [done|apply Hs]. }
  exists space'. split; [done|]. split; [done|]. split.
  - intros j [->|Hj]%elem_of_cons.
    + rewrite Hout by done. unfold set_space. by rewrite decide_True.
    + rewrite <- Hin by done. unfold set_space. rewrite decide_False by (by intros ->). done.
  - intros j Hj. rewrite not_elem_of_cons in Hj. rewrite Hout by tauto. unfold set_space. by rewrite decide_False by tauto.
Qed.

Lemma each_group_wf audit f e sorted : (forall i fs, group_wf audit fs -> exists fs', f i fs = Some fs' /\ group_wf audit fs') -> example_wf audit e ->
  exists space, each_group f (ex_indices e) (ex_feature_space e) = Some space /\ example_wf audit (with_features (ex_indices e) space sorted e) /\
    (forall i, i ∈ ex_indices e -> f i (ex_feature_space e i) = Some (space i)).
Proof.
  intros Hf [Hnd Hem Hg]. destruct (each_group_ok audit f Hf _ _ Hnd Hg) as (space & E & Hs & Hin & Hout). exists space. split; [done|]. split; [|done].
  split; cbn; [done| |done]. intros i Hi. rewrite Hout by done. by apply Hem.
Qed.

Lemma skip_run_subset {A} (rows : list (Z * A)) : forall i x, x ∈ skip_run i rows -> x ∈ rows.
Proof.
  induction rows as [|[j y] rows IH]; intros i x; cbn; [done|]. case_if; [intros Hx; apply elem_of_cons; right; by eapply IH|].
  rewrite !elem_of_cons. intros [|Hx]; [by left|right; by eapply IH].
Qed.

Lemma first_of_runs_subset {A} (rows : list (Z * A)) x : x ∈ first_of_runs rows -> x ∈ rows.
Proof. destruct rows as [|[i y] rows]; cbn; [done|]. rewrite !elem_of_cons. intros [|Hx]; [by left|right; by eapply skip_run_subset]. Qed.

Lemma indices_of_rows {F} audit (fs : features F) : columns_wf audit fs -> indices fs = (feature_rows fs).*1.
Proof. intros [Hi _ _]. unfold feature_rows. by rewrite fst_zip by lia. Qed.

(** The last extent ends with the group, if it has the hash [h]. *)
Definition extends_at (h : Z) (fs : features f32) : Prop :=
  forall b, last (namespace_extents fs) = Some b -> ext_hash b = h -> end_index b = size fs.

Definition named (audit : bool) (name : audit_strings) (fs : features f32) : features f32 := if audit then push_name name fs else fs.

Lemma push_name_wf (audit : bool) (v : f32) i es name (fs : features f32) :
  length (indices fs) = length (values fs) -> Forall (Z.le 0) (indices fs) -> length (space_names fs) = (if audit then length (values fs) else 0)%nat ->
  0 <= i -> extents_ok 0 (S (length (values fs))) es -> group_wf audit (named audit name (push_back v i (set_extents es fs))).
Proof.
  intros Hi Hn Hs Hpos He. unfold named. split; [split|]; destruct audit; cbn; rewrite ?length_app, ?Hi, ?Hs, ?Nat.add_1_r; try done;
    (apply Forall_app; by repeat constructor).
Qed.

Lemma push_named_wf audit (v : f32) i name (fs : features f32) : group_wf audit fs -> 0 <= i -> group_wf audit (named audit name (push_back v i fs)).
Proof.
  intros [[Hi He Hs] Hn] Hpos. assert (push_back v i fs = push_back v i (set_extents (namespace_extents fs) fs)) as -> by by destruct fs.
  apply push_name_wf; try done. eapply extents_ok_weaken; [|exact He]. lia.
Qed.

Lemma push_ns_named_wf audit (v : f32) i h name (fs : features f32) : group_wf audit fs -> 0 <= i -> extends_at h fs ->
  group_wf audit (named audit name (push_back_ns v i h fs)) /\ extends_at h (named audit name (push_back_ns v i h fs)).
Proof.
  intros [[Hi He Hs] Hn] Hpos Hh. destruct (push_back_ns_fields v i h fs Hi He Hh) as (es & -> & Hes & b & Hb & _ & Hend).
  split; [by apply push_name_wf|]. intros b'. unfold named. assert (forall (fs : features f32), namespace_extents (if audit then push_name name fs else fs) = namespace_extents fs) as ->
    by by destruct audit. cbn. rewrite Hb. intros [= <-] _. rewrite Hend. unfold size, named. destruct audit; cbn; rewrite length_app; cbn; lia.
Qed.

Section Stages.
Context `{StdSort} (cfg : setup_config).
Let audit : bool := audit_names cfg.

Lemma unique_group_wf fs max : group_wf audit fs -> - 2 ^ 31 <= max < 2 ^ 31 -> exists fs', unique_features fs max = Some fs' /\ group_wf audit fs'.
Proof.
  intros [Hc Hn] Hm. destruct (unique_features_ok audit fs max Hc Hm) as (fs' & E & Hc' & Hr). exists fs'. split; [done|]. split; [done|].
  rewrite (indices_of_rows audit fs' Hc'), Hr. rewrite (indices_of_rows audit fs Hc) in Hn. rewrite Forall_forall in *.
  intros i (x & -> & Hx)%list_elem_of_fmap. apply Hn, list_elem_of_fmap_2, first_of_runs_subset.
  rewrite <- (take_drop (Z.to_nat (u64 max)) (first_of_runs _)). apply elem_of_app. by left.
Qed.

Lemma sort_group_wf fs : group_wf audit fs -> exists b fs', sort (sc_parse_mask cfg) fs = Some (b, fs') /\ group_wf audit fs'.
Proof.
  intros [Hc Hn]. destruct (sort_columns_wf audit fs (sc_parse_mask cfg) Hc) as (b & fs' & E & Hc' & _ & Hp & _). exists b, fs'.
  split; [done|]. split; [done|]. by rewrite Hp.
Qed.

Lemma sort_unique_wf i fs : group_wf audit fs -> exists fs', sort_unique cfg i fs = Some fs' /\ group_wf audit fs'.
Proof.
  intros Hg. unfold sort_unique. destruct (sort_group_wf fs Hg) as ([] & fs1 & -> & Hg1); cbn [mbind option_bind]; [|by exists fs1].
  by apply unique_group_wf.
Qed.

Lemma limit_group_wf i fs : group_wf audit fs -> exists fs', limit_group cfg i fs = Some fs' /\ group_wf audit fs'.
Proof.
  intros Hg. unfold limit_group. case_if; [|by exists fs]. destruct (sort_group_wf fs Hg) as (b & fs1 & -> & Hg1). cbn [mbind option_bind].
  apply unique_group_wf; [done|]. unfold i32. pose proof (Z.mod_pos_bound (limit cfg i) (2 ^ 32) ltac:(lia)). case_if; bprop; lia.
Qed.

Lemma ignore_wf e : example_wf audit e -> example_wf audit (ignore_namespaces cfg e).
Proof.
  intros [Hnd Hem Hg]. unfold ignore_namespaces. split; cbn.
  - by apply NoDup_filter.
  - intros i Hi. case_bool_decide as Hin; cbn; [|by apply Hem]. destruct (ignore cfg i) eqn:E; [done|]. destruct Hi. by apply list_elem_of_filter.
  - intros i. case_match; [apply group_wf_empty|apply Hg].
Qed.

Lemma constant_wf e : CONSTANT_NAMESPACE ∉ ex_indices e -> example_wf audit e -> example_wf audit (add_constant_feature cfg e).
Proof.
  intros Hc [Hnd Hem Hg]. unfold add_constant_feature. fold audit. pose proof (Hem _ Hc) as Hv. set (fs := ex_feature_space e CONSTANT_NAMESPACE) in *.
  split; cbn [ex_indices ex_feature_space with_features].
  - apply NoDup_app. split; [done|]. split; [|by apply NoDup_singleton]. intros x Hx' ->%list_elem_of_singleton. done.
  - intros i. rewrite not_elem_of_app, list_elem_of_singleton. intros [Hi' Hne]. unfold set_space. rewrite decide_False by done. by apply Hem.
  - intros i. unfold set_space. case_decide; [|apply Hg]. apply push_ns_named_wf; [apply Hg|done|]. intros b Hb _. unfold size.
    pose proof (extents_last_le _ _ _ _ (go_extents _ _ (proj1 (Hg CONSTANT_NAMESPACE))) Hb) as Hle. fold fs in Hle. rewrite Hv in *. cbn in *. lia.
Qed.

Lemma gram_hash_nonneg (xs : list Z) t : Forall (Z.le 0) xs -> (2 <= length t)%nat -> 0 <= gram_hash ((fun p => xs !!! p) <$> t).
Proof.
  intros Hx Ht. destruct t as [|p [|q t]]; cbn in Ht; [lia..|]. cbn [fmap list_fmap gram_hash join_with].
  assert (0 <= u64 (xs !!! p * Ngrams.QUADRATIC_CONSTANT + xs !!! q)) as Hh by apply Z.mod_pos_bound, eq_refl.
  revert Hh. generalize (u64 (xs !!! p * Ngrams.QUADRATIC_CONSTANT + xs !!! q)). clear Ht p q. induction t as [|p t IH]; intros z Hz; [done|].
  cbn [fmap list_fmap join_with]. apply IH. apply Z.mod_pos_bound, eq_refl.
Qed.

Lemma grams_wf t e : example_wf audit e -> exists e', generate_grams t e = Some e' /\ example_wf audit e' /\ ex_indices e' = ex_indices e.
Proof.
  intros [Hnd Hem Hg]. unfold generate_grams.
  destruct (generate_loop_ok t (ex_indices e) (ex_feature_space e) Hnd) as (space & -> & Hin & Hout).
  { intros i _. destruct (Hg i) as [[Hi _ Hn] _]. unfold covers, size. rewrite Hi, Hn. split; [lia|]. destruct audit; [by right|left; by apply length_zero_iff_nil]. }
  cbn [mbind option_bind]. eexists. split; [done|]. split; [|done]. split; cbn; [done|intros i Hi; rewrite Hout by done; by apply Hem|].
  intros i. destruct (decide (i ∈ ex_indices e)) as [Hi|Hi]; [|rewrite Hout by done; apply Hg].
  specialize (Hin i Hi). set (ts := grams_of _ _ _) in Hin. destruct Hin as [Av Ai An Ae _]. destruct (Hg i) as [[Hx He Hn] Hnn].
  assert (forall g, g ∈ ts -> (2 <= length g)%nat /\ Forall (fun p => (p < size (ex_feature_space e i))%nat) g) as Hts.
  { intros g Hgin. unfold ts in Hgin. apply elem_of_grams in Hgin. tauto. }
  split; [split|].
  - rewrite Av, Ai, !length_app, length_fmap, length_replicate. lia.
  - rewrite Av, Ae, length_app. eapply extents_ok_weaken; [|exact He]. lia.
  - rewrite An, Av. destruct (space_names (ex_feature_space e i)) as [|n ns] eqn:En.
    + destruct audit; [|done]. rewrite length_app, length_replicate. assert (size (ex_feature_space e i) = 0%nat) as Hz by (unfold size; cbn in Hn; lia).
      destruct ts as [|g ts']; [unfold size in Hz; cbn; lia|]. destruct (Hts g (list_elem_of_here g ts')) as [H2l Hall].
      destruct g as [|p g]; [cbn in H2l; lia|]. apply Forall_cons in Hall as [Hp _]. lia.
    + destruct audit; [|done]. rewrite !length_app, length_fmap, length_replicate. cbn in *. lia.
  - rewrite Ai. apply Forall_app. split; [done|]. apply Forall_fmap, Forall_forall. intros g Hgin. apply gram_hash_nonneg; [done|]. by apply Hts.
Qed.

Lemma multiply_wf i fs : group_wf audit fs -> exists fs', multiply cfg i fs = Some fs' /\ group_wf audit fs'.
Proof.
  intros [[Hi He Hn] Hnn]. eexists. split; [reflexivity|]. split; [split|]; cbn; [by rewrite length_fmap|done|done|].
  apply Forall_fmap, Forall_true. intros j. apply Z.mod_pos_bound, eq_refl.
Qed.

(** What the learners need of an example. *)
Definition aligned_example (s : Z) e : Prop := example_wf audit e /\ forall i, Forall (Gd.multiple s) (indices (ex_feature_space e i)).

Lemma unlisted_indices e i : example_wf audit e -> i ∉ ex_indices e -> indices (ex_feature_space e i) = [].
Proof. intros [_ Hem Hg] Hi. apply length_zero_iff_nil. by rewrite (go_indices _ _ (proj1 (Hg i))), Hem. Qed.

Lemma spread_ok e : 0 <= stride_shift cfg < 64 -> 0 <= total_feature_width cfg -> example_wf audit e ->
  exists e', spread cfg e = Some e' /\ aligned_example (stride_shift cfg) e' /\ ex_indices e' = ex_indices e /\
    forall i, indices (ex_feature_space e' i) = (if multiplier cfg =? 1 then id else fmap (fun j => u64 (j * multiplier cfg))) (indices (ex_feature_space e i)) /\
      values (ex_feature_space e' i) = values (ex_feature_space e i).
Proof.
  intros Hs Hw He. assert (2 ^ stride_shift cfg | multiplier cfg) as Hm.
  { unfold multiplier. apply Gd.divide_u64; [done|]. rewrite Z.shiftl_mul_pow2 by lia. apply Z.divide_factor_r. }
  unfold spread. destruct (multiplier cfg =? 1) eqn:E1; bprop.
  { exists e. split; [done|]. split; [|done]. split; [done|]. intros i. rewrite E1 in Hm. assert (stride_shift cfg = 0) as ->.
    { destruct (decide (stride_shift cfg = 0)) as [|Hne]; [done|]. apply Z.divide_1_r_nonneg in Hm; [|lia]. pose proof (Z.pow_gt_1 2 (stride_shift cfg) ltac:(lia)). lia. }
    eapply Forall_impl; [apply (ew_groups _ _ He i)|]. intros j Hj. split; [done|]. apply Z.divide_1_l. }
  destruct (each_group_wf audit (multiply cfg) e (ex_sorted e) multiply_wf He) as (space & -> & He' & Hin). cbn [mbind option_bind].
  eexists. split; [done|]. assert (forall i, indices (space i) = (fun j => u64 (j * multiplier cfg)) <$> indices (ex_feature_space e i) /\ values (space i) = values (ex_feature_space e i)) as Hsp.
  { intros i. destruct (decide (i ∈ ex_indices e)) as [Hi|Hi].
    - specialize (Hin i Hi). unfold multiply in Hin. by injection Hin as <-.
    - rewrite (unlisted_indices e) by done. pose proof (unlisted_indices _ i He' Hi) as Hx. cbn in Hx. rewrite Hx. split; [done|].
      rewrite (ew_empty _ _ He i Hi). by apply (ew_empty _ _ He' i). }
  split; [|by split; [done|]]. split; [done|]. intros i. cbn. rewrite (proj1 (Hsp i)). apply Forall_fmap, Forall_true. intros j. cbn.
  apply Gd.multiple_u64; [done|]. by apply Z.divide_mul_r.
Qed.

(** From the ignored namespaces on, whatever the options. *)
Lemma setup_features_ok e : 0 <= stride_shift cfg < 64 -> 0 <= total_feature_width cfg ->
  CONSTANT_NAMESPACE ∉ ex_indices e -> example_wf audit e ->
  exists e', setup_features cfg e = Some e' /\ aligned_example (stride_shift cfg) e'.
Proof.
  intros Hs Hw Hc He. unfold setup_features.
  set (e1 := if ignore_some cfg then _ else _). assert (example_wf audit e1 /\ CONSTANT_NAMESPACE ∉ ex_indices e1) as [He1 Hc1].
  { unfold e1. case_if; [|done]. split; [by apply ignore_wf|]. cbn. rewrite list_elem_of_filter. tauto. }
  assert (exists e2, (match skip_gram_transformer cfg with Some t => generate_grams t e1 | None => Some e1 end) = Some e2 /\
    example_wf audit e2 /\ CONSTANT_NAMESPACE ∉ ex_indices e2) as (e2 & -> & He2 & Hc2).
  { case_match; [|by exists e1]. destruct (grams_wf k e1 He1) as (e2 & -> & He2 & E). exists e2. by rewrite E. }
  cbn [mbind option_bind]. set (e3 := if add_constant cfg then _ else _). assert (example_wf audit e3) as He3 by (unfold e3; case_if; [by apply constant_wf|done]).
  assert (exists e4, (if limit_some cfg then feature_limit cfg e3 else Some e3) = Some e4 /\ example_wf audit e4) as (e4 & -> & He4).
  { case_if; [|by exists e3]. unfold feature_limit. destruct (each_group_wf audit (limit_group cfg) e3 (ex_sorted e3) limit_group_wf He3) as (space & -> & He4 & _). by eexists. }
  cbn [mbind option_bind]. destruct (spread_ok e4 Hs Hw He4) as (e5 & -> & He5 & _). by exists e5.
Qed.

Lemma unique_sort_ok e : example_wf audit e -> exists e', unique_sort_features cfg e = Some e' /\ example_wf audit e' /\
  ex_indices e' = ex_indices e /\ ex_l e' = ex_l e /\ ex_reduction_features e' = ex_reduction_features e /\ ex_is_newline e' = ex_is_newline e.
Proof.
  intros He. unfold unique_sort_features. destruct (each_group_wf audit (sort_unique cfg) e true sort_unique_wf He) as (space & -> & He' & _).
  by eexists.
Qed.
End Stages.

(** Setting up leaves the label alone. *)
Lemma setup_features_label `{StdSort} cfg e e' : setup_features cfg e = Some e' -> ex_l e' = ex_l e /\ ex_reduction_features e' = ex_reduction_features e.
Proof.
  unfold setup_features. set (e1 := if ignore_some cfg then _ else _). assert (ex_l e1 = ex_l e /\ ex_reduction_features e1 = ex_reduction_features e) as [<- <-] by (unfold e1; by case_if).
  generalize e1. clear e1. intros e1. destruct (match skip_gram_transformer cfg with Some t => _ | None => _ end) as [e2|] eqn:E2; [|done].
  assert (ex_l e2 = ex_l e1 /\ ex_reduction_features e2 = ex_reduction_features e1) as [<- <-].
  { case_match; [|by injection E2 as ->]. unfold generate_grams in E2. destruct (generate_loop _ _ _); [|done]. by injection E2 as <-. }
  clear E2 e1. cbn [mbind option_bind]. set (e3 := if add_constant cfg then _ else _).
  assert (ex_l e3 = ex_l e2 /\ ex_reduction_features e3 = ex_reduction_features e2) as [<- <-] by (unfold e3; by case_if).
  generalize e3. clear e3. intros e3. destruct (if limit_some cfg then _ else _) as [e4|] eqn:E4; [|done].
  assert (ex_l e4 = ex_l e3 /\ ex_reduction_features e4 = ex_reduction_features e3) as [<- <-].
  { case_match; [|by injection E4 as ->]. unfold feature_limit in E4. destruct (each_group _ _ _); [|done]. by injection E4 as <-. }
  cbn [mbind option_bind]. unfold spread. case_if; [by intros [= ->]|]. destruct (each_group _ _ _); [|done]. by intros [= <-].
Qed.

Section Ready.
Context {R W : Type} `{Reader R, Writer W, StdSort} (alloc : nat -> Z) (cfg : setup_config).
Implicit Type st : parser_state R W.

(** Whether example number [counter] of the pass is held out. *)
Definition held_out (counter : Z) : bool :=
  negb (holdout_set_off cfg) &&
  (if holdout_after cfg =? 0 then counter mod holdout_period cfg =? (if emptylines_separate_examples cfg then u32 (holdout_period cfg - 1) else 0)
   else holdout_after cfg <? counter).

(** The counter that decides about an example. *)
Definition counted st : Z := if emptylines_separate_examples cfg then in_pass_counter st else u32 (in_pass_counter st + 1).

Lemma setup_example_ready (e : example) st :
  write_cache cfg = false -> holdout_period cfg <> 0 -> 0 <= stride_shift cfg < 64 -> 0 <= total_feature_width cfg ->
  CONSTANT_NAMESPACE ∉ ex_indices e -> example_wf (audit_names cfg) e ->
  let lp := lbl_parser (R := R) alloc cfg in
  let w := lp_get_weight lp (ex_l e) (ex_reduction_features e) in
  bad_weight w = false \/ sc_strict_parse cfg = false ->
  exists r, setup_example alloc cfg e st =
      Done (r, ParserState (u64 (num_setup_examples st + 1)) (if ends_group cfg e then u32 (counted st + 1) else counted st) (output st) (cache_temp_buffer st)) /\
    aligned_example cfg (stride_shift cfg) (ae r) /\ weight r = w /\ warned r = bad_weight w /\
    test_only r = held_out (counted st) || lp_test_label lp (ex_l e) /\
    num_features r = foldr (fun i n => (size (ex_feature_space (ae r) i) + n)%nat) 0%nat (ex_indices (ae r)) /\
    ex_l (ae r) = ex_l e /\ ex_reduction_features (ae r) = ex_reduction_features e.
Proof.
  intros Hwc Hp Hs Hw Hc He lp w Hbad. unfold setup_example. rewrite Hwc.
  assert (exists e1, (if sort_features cfg && negb (ex_sorted e) then of_option (unique_sort_features cfg e) else Done e) = Done e1 /\
    example_wf (audit_names cfg) e1 /\ ex_indices e1 = ex_indices e /\ ex_l e1 = ex_l e /\ ex_reduction_features e1 = ex_reduction_features e /\ ex_is_newline e1 = ex_is_newline e)
    as (e1 & -> & He1 & Ei & El & Er & En).
  { case_if; [|by exists e]. destruct (unique_sort_ok cfg e He) as (e1 & -> & ?). by exists e1. }
  cbn [io_bind]. fold (counted st).
  assert (is_test_only cfg (counted st) (if emptylines_separate_examples cfg then u32 (holdout_period cfg - 1) else 0) = Some (held_out (counted st))) as ->.
  { unfold is_test_only, held_out. destruct (holdout_set_off cfg); [done|]. destruct (holdout_after cfg =? 0); [|done]. by rewrite (proj2 (Z.eqb_neq _ _)). }
  cbn [of_option io_bind]. rewrite El, Er. fold lp w.
  assert (bad_weight w && sc_strict_parse cfg = false) as -> by (destruct Hbad as [-> | ->]; [done|apply andb_false_r]).
  destruct (setup_features_ok cfg e1 Hs Hw) as (e2 & E2 & He2); [by rewrite Ei|done|]. rewrite E2. cbn [of_option io_bind].
  apply setup_features_label in E2 as [El2 Er2].
  assert (ends_group cfg e1 = ends_group cfg e) as -> by (unfold ends_group; by rewrite El, En).
  eexists. split; [reflexivity|]. cbn [ae weight warned test_only num_features]. by rewrite El2, Er2.
Qed.
End Ready.

(** ** Examples read from text *)

Lemma uniform_hash_nonneg bs h : 0 <= uniform_hash bs h.
Proof. unfold uniform_hash, murmurhash_x86_32. unfold fmix. cbv zeta. apply Z.lxor_nonneg. rewrite Z.shiftr_nonneg. split; intros _; apply u32_word. Qed.

Lemma hashstring_nonneg bs h : 0 <= hashstring bs h.
Proof. unfold hashstring. case_match; [apply u32_word|apply uniform_hash_nonneg]. Qed.

Section Text.
Context (cfg : text_config).
Hypothesis Hmask : 0 <= parse_mask cfg.
Hypothesis Hdict : forall i m name feats, m ∈ namespace_dictionaries cfg i -> m name = Some feats ->
  length (indices feats) = length (values feats) /\ Forall (Z.le 0) (indices feats).

(** All groups but [i] are well formed; affixes and spellings keep their one extent at the end. *)
Record others_wf (i : byte) (e : example) : Prop := {
  ow_groups j : j <> i -> group_wf (audit cfg) (group j e);
  ow_affix : extends_at (byte_val AFFIX_NAMESPACE) (group AFFIX_NAMESPACE e);
  ow_spelling : extends_at (byte_val SPELLING_NAMESPACE) (group SPELLING_NAMESPACE e)
}.

(** Group [i] with its last extent open. *)
Definition open_wf (fs : features f32) : Prop :=
  length (indices fs) = length (values fs) /\ Forall (Z.le 0) (indices fs) /\
  length (space_names fs) = (if audit cfg then length (values fs) else 0%nat) /\
  exists es m h, namespace_extents fs = es ++ [Extent m 0 h] /\ extents_ok 0 m es /\ (m <= length (values fs))%nat.

Lemma start_open h fs : group_wf (audit cfg) fs -> open_wf (start_ns_extent h fs).
Proof.
  intros [[Hi He Hs] Hn]. split; [done|]. split; [done|]. split; [done|]. exists (namespace_extents fs), (length (indices fs)), h. cbn. rewrite Hi.
  split; [done|]. split; [done|lia].
Qed.

Lemma end_closed fs : open_wf fs -> group_wf (audit cfg) (end_ns_extent fs).
Proof.
  intros (Hi & Hn & Hs & es & m & h & E & He & Hm). split; [split|]; cbn; [done| |done|done]. rewrite E, Hi. by apply close_extents_ok.
Qed.

Lemma push_open v i name fs : open_wf fs -> 0 <= i -> open_wf (named (audit cfg) name (push_back v i fs)).
Proof.
  intros (Hi & Hn & Hs & es & m & h & E & He & Hm) Hpos. unfold open_wf, named. destruct (audit cfg); cbn; rewrite ?length_app, ?Hi, ?Hs; cbn.
  - split; [done|]. split; [apply Forall_app; by repeat constructor|]. split; [lia|]. exists es, m, h. split; [done|]. split; [done|lia].
  - split; [done|]. split; [apply Forall_app; by repeat constructor|]. split; [done|]. exists es, m, h. split; [done|]. split; [done|lia].
Qed.

Lemma group_listed d j e : group j (list_if_empty d e) = group j e.
Proof. unfold list_if_empty. by destruct (values (group d e)). Qed.

Lemma set_others i d fs e : d <> i -> group_wf (audit cfg) fs ->
  (d = AFFIX_NAMESPACE -> extends_at (byte_val AFFIX_NAMESPACE) fs) -> (d = SPELLING_NAMESPACE -> extends_at (byte_val SPELLING_NAMESPACE) fs) ->
  others_wf i e -> others_wf i (set_group d fs (list_if_empty d e)).
Proof.
  intros Hd Hfs Ha Hs [Hg Hga Hgs]. split.
  - intros j Hj. rewrite group_set. case_decide; [done|]. rewrite group_listed. by apply Hg.
  - rewrite group_set. case_decide; [by apply Ha|]. by rewrite group_listed.
  - rewrite group_set. case_decide; [by apply Hs|]. by rewrite group_listed.
Qed.

Lemma push_affixes_wf fuel : forall affix i v hash name fs, group_wf (audit cfg) fs -> extends_at (byte_val AFFIX_NAMESPACE) fs ->
  group_wf (audit cfg) (push_affixes cfg fuel affix i v hash name fs) /\ extends_at (byte_val AFFIX_NAMESPACE) (push_affixes cfg fuel affix i v hash name fs).
Proof.
  induction fuel as [|fuel IH]; intros affix i v hash name fs Hg Hx; cbn [push_affixes]; [done|]. case_if; [done|].
  match goal with |- context [push_back_ns v ?w ?h fs] => match goal with |- context [push_name ?n _] =>
    destruct (push_ns_named_wf (audit cfg) v w h n fs Hg) as [Hg' Hx']; [apply Z.mod_pos_bound, eq_refl|done|] end end.
  by apply IH.
Qed.

Lemma add_affixes_wf i v hash name e : AFFIX_NAMESPACE <> i -> others_wf i e -> others_wf i (add_affixes cfg i v hash name e).
Proof.
  intros Hi He. unfold add_affixes. destruct name as [|c name]; [done|]. case_if; [|done].
  destruct (push_affixes_wf 16 (affix_features cfg i) i v hash (c :: name) (group AFFIX_NAMESPACE (list_if_empty AFFIX_NAMESPACE e))) as [Hg Hx];
    [rewrite group_listed; by apply (ow_groups _ _ He)|rewrite group_listed; apply He|]. apply set_others; done.
Qed.

Lemma add_spelling_wf i v hash name e : SPELLING_NAMESPACE <> i -> others_wf i e -> others_wf i (add_spelling cfg i v hash name e).
Proof.
  intros Hi He. unfold add_spelling. case_if; [|done].
  match goal with |- context [push_back_ns v ?w ?h ?fs] => match goal with |- context [push_name ?n _] =>
    destruct (push_ns_named_wf (audit cfg) v w h n fs) as [Hg Hx] end end;
    [rewrite group_listed; by apply (ow_groups _ _ He)|apply hashstring_nonneg|rewrite group_listed; apply He|]. apply set_others; done.
Qed.

Lemma add_dictionary_wf i name m e : DICTIONARY_NAMESPACE <> i -> m ∈ namespace_dictionaries cfg i -> others_wf i e -> others_wf i (add_dictionary cfg i name e m).
Proof.
  intros Hi Hm He. unfold add_dictionary. destruct (m name) as [feats|] eqn:E; [|done]. destruct (Hdict _ _ _ _ Hm E) as [Hl Hn].
  destruct (values feats) as [|x xs] eqn:Ev; [done|]. rewrite <- Ev in *. apply set_others; [done| |by intros ?%(f_equal byte_val)|by intros ?%(f_equal byte_val)|done].
  apply end_closed. rewrite group_listed. destruct (ow_groups _ _ He _ Hi) as [[Gi Ge Gn] Gnn].
  split; [cbn; rewrite !length_app; lia|]. split; [by apply Forall_app|]. split.
  - cbn. rewrite !length_app, Gn. destruct (audit cfg); cbn; rewrite ?length_fmap; lia.
  - exists (namespace_extents (group DICTIONARY_NAMESPACE e)), (length (indices (group DICTIONARY_NAMESPACE e))), (byte_val DICTIONARY_NAMESPACE). cbn.
    split; [done|]. rewrite Gi. split; [done|]. rewrite length_app. lia.
Qed.

Lemma add_dictionaries_wf i name e : DICTIONARY_NAMESPACE <> i -> others_wf i e -> others_wf i (add_dictionaries cfg i name e).
Proof.
  intros Hi. unfold add_dictionaries. assert (forall m, m ∈ namespace_dictionaries cfg i -> m ∈ namespace_dictionaries cfg i) as Hsub by done.
  revert Hsub e. generalize (namespace_dictionaries cfg i) at 1 3. induction l as [|m ms IH]; intros Hsub e He; [done|]. cbn [fold_left]. apply IH.
  - intros m' Hm'. apply Hsub, elem_of_cons. by right.
  - apply add_dictionary_wf; [done| |done]. apply Hsub, list_elem_of_here.
Qed.

(** Derived features leave the other groups alone. *)
Lemma derived_group i j e : j ∉ derived ->
  (forall v hash name, group j (add_affixes cfg i v hash name e) = group j e) /\ (forall v hash name, group j (add_spelling cfg i v hash name e) = group j e) /\
  (forall name, group j (add_dictionaries cfg i name e) = group j e).
Proof.
  intros Hi. assert (forall d fs e', d ∈ derived -> group j e' = group j e -> group j (set_group d fs (list_if_empty d e')) = group j e) as Hset.
  { intros d fs e' Hd E. rewrite group_set, decide_False by (intros ->; done). by rewrite group_listed. }
  split; [|split].
  - intros v hash name. unfold add_affixes. destruct name; [done|]. case_if; [|done]. apply Hset; [byte_in|done].
  - intros v hash name. unfold add_spelling. case_if; [|done]. apply Hset; [byte_in|done].
  - intros name. unfold add_dictionaries. assert (group j e = group j e) as E by done. revert E. generalize e at 1 3.
    induction (namespace_dictionaries cfg i) as [|m ms IH]; intros e' E; [done|]. cbn [fold_left]. apply IH.
    unfold add_dictionary. destruct (m name) as [feats|]; [|done]. destruct (values feats); [done|]. apply Hset; [byte_in|done].
Qed.

Lemma add_feature_wf i base hash name s v w e : i ∉ derived -> 0 <= w -> others_wf i e -> open_wf (group i e) ->
  others_wf i (add_feature cfg i base hash name s v w e) /\ open_wf (group i (add_feature cfg i base hash name s v w e)).
Proof.
  intros Hi Hw He Ho. unfold add_feature. fold (named (audit cfg) (AuditStrings base name s) (push_back v w (group i e))).
  set (fs := named _ _ _). assert (open_wf fs) as Hfs by by apply push_open.
  assert (others_wf i (set_group i fs e)) as He1.
  { destruct He as [Hg Ha Hs]. split; [intros j Hj; by rewrite group_set, decide_False; [apply Hg|]|..]; rewrite group_set, decide_False; try done; intros E; apply Hi; rewrite <- E; byte_in. }
  split.
  - apply add_dictionaries_wf; [apply (derived_ne i); [done|byte_in]|]. apply add_spelling_wf; [apply (derived_ne i); [done|byte_in]|].
    apply add_affixes_wf; [apply (derived_ne i); [done|byte_in]|done].
  - rewrite (proj2 (proj2 (derived_group i i _ Hi))), (proj1 (proj2 (derived_group i i _ Hi))), (proj1 (derived_group i i _ Hi)).
    by rewrite group_set, decide_True.
Qed.

Lemma feature_hash_nonneg hash an f : 0 <= (feature_hash cfg hash an f).1.
Proof. unfold feature_hash. repeat case_match; cbn; try (apply Z.land_nonneg; by right); apply Z.mod_pos_bound, eq_refl. Qed.

(** What the parser leaves: the groups with features are listed, and all are well formed. *)
Record text_wf (e : example) : Prop := {
  tw_exact : indices_exact e;
  tw_groups i : group_wf (audit cfg) (group i e);
  tw_affix : extends_at (byte_val AFFIX_NAMESPACE) (group AFFIX_NAMESPACE e);
  tw_spelling : extends_at (byte_val SPELLING_NAMESPACE) (group SPELLING_NAMESPACE e)
}.

Lemma apply_features_wf i base hash cur fs : i ∉ derived -> forall an new e, open_exact i new e -> others_wf i e -> open_wf (group i e) ->
  let e' := (fold_left (apply_feature cfg i base hash cur) fs (an, e)).2 in open_exact i new e' /\ others_wf i e' /\ open_wf (group i e').
Proof.
  intros Hi. induction fs as [|f fs IH]; intros an new e Hx He Ho; [done|]. cbn [fold_left].
  destruct (apply_feature cfg i base hash cur (an, e) f) as [an' e1] eqn:Ea. unfold apply_feature in Ea.
  pose proof (feature_hash_nonneg hash an f) as Hw. destruct (feature_hash cfg hash an f) as [w an1]. cbn [fst] in Hw. injection Ea as <- <-.
  case_if; [by apply (IH an1 new e)|].
  destruct (add_feature_wf i base hash (ft_name f) (value_string f) (feature_value cur f) w e Hi Hw He Ho) as [He' Ho'].
  apply (IH an1 new (add_feature cfg i base hash (ft_name f) (value_string f) (feature_value cur f) w e)); [by apply add_feature_exact|done|done].
Qed.

Lemma close_exact i new e : open_exact i new e -> indices_exact (if new && negb (group_empty i e) then push_index i e else e).
Proof.
  intros (Hnd & Hother & Hi). assert (forall j, j ∈ ex_indices e -> j <> i -> group_empty j e = false) as Hin by (intros j Hj Hne; by apply (Hother j Hne)).
  destruct new; cbn [andb].
  - destruct (group_empty i e) eqn:E; cbn [negb].
    + split; [done|]. intros j. destruct (decide (j = i)) as [->|Hj]; [by rewrite E|by apply Hother].
    + split; cbn.
      * apply NoDup_app. split; [done|]. split; [|by apply NoDup_singleton]. intros x Hx ->%list_elem_of_singleton. done.
      * intros j. rewrite elem_of_app, list_elem_of_singleton. destruct (decide (j = i)) as [->|Hj]; [tauto|].
        rewrite (Hother j Hj). unfold group_empty, group. cbn. tauto.
  - destruct Hi as [Hin' E]. split; [done|]. intros j. destruct (decide (j = i)) as [->|Hj]; [by rewrite E|by apply Hother].
Qed.

Lemma apply_namespace_wf base e ns : namespace_index cfg (nt_name ns) ∉ derived -> text_wf e -> text_wf (apply_namespace cfg (base, e) ns).2.
Proof.
  intros Hi [Hx Hg Ha Hs]. unfold apply_namespace. set (i := namespace_index cfg (nt_name ns)) in *. set (h := namespace_hash cfg (nt_name ns)).
  set (b := namespace_base cfg (nt_name ns) base).
  assert (others_wf i (open_extent i h e)) as He.
  { split; [intros j Hj|..]; unfold open_extent; rewrite group_set, decide_False; try done; intros E; apply Hi; rewrite <- E; byte_in. }
  assert (open_exact i (group_empty i e) (open_extent i h e)) as Ho by (apply set_current_exact; [done|by apply exact_open]).
  destruct (apply_features_wf i b h (scale_of (nt_value ns)) (nt_features ns) Hi 0 (group_empty i e) (open_extent i h e) Ho He) as (Ho' & He' & Hw').
  { unfold open_extent. rewrite group_set, decide_True by done. by apply start_open. }
  destruct (fold_left (apply_feature cfg i b h (scale_of (nt_value ns))) (nt_features ns) (0, open_extent i h e)) as [an e1]. cbn [snd] in *.
  apply close_exact in Ho'. set (e2 := if group_empty i e && negb (group_empty i e1) then push_index i e1 else e1) in *.
  assert (forall j, group j e2 = group j e1) as Eg by (intros j; unfold e2; by case_if).
  assert (forall j, values (group j (close_extent i e2)) = values (group j e2)) as Ev by (intros j; unfold close_extent; rewrite group_set; by case_decide; subst).
  split.
  - destruct Ho' as [Hnd Hin]. split; [done|]. intros j. unfold group_empty in *. rewrite Ev. apply Hin.
  - intros j. unfold close_extent. rewrite group_set. case_decide; [apply end_closed|]; rewrite Eg; [done|by apply (ow_groups _ _ He')].
  - unfold close_extent. rewrite group_set, decide_False by (intros E; apply Hi; rewrite <- E; byte_in). rewrite Eg. apply He'.
  - unfold close_extent. rewrite group_set, decide_False by (intros E; apply Hi; rewrite <- E; byte_in). rewrite Eg. apply He'.
Qed.

Lemma apply_namespaces_wf nss e : Forall (fun ns => namespace_index cfg (nt_name ns) ∉ derived) nss -> text_wf e -> text_wf (apply_namespaces cfg nss e).
Proof.
  intros Hn. unfold apply_namespaces. generalize (@nil byte). revert e. induction Hn as [|ns nss Hns _ IH]; intros e base He; [done|]. cbn [fold_left].
  pose proof (apply_namespace_wf base e ns Hns He) as He'. destruct (apply_namespace cfg (base, e) ns) as [base' e']. by apply IH.
Qed.

(** The namespaces listed afterwards are those of before, the derived ones and those named. *)
Definition letters (nss : list namespace_text) : list byte := (fun ns => namespace_index cfg (nt_name ns)) <$> nss.

Lemma text_example_wf e : text_wf e -> example_wf (audit cfg) e.
Proof.
  intros [[Hnd Hin] Hg _ _]. split; [done| |done]. intros i Hi. destruct (values (ex_feature_space e i)) eqn:E; [done|].
  destruct Hi. apply Hin. unfold group_empty, group. by rewrite E.
Qed.

Lemma text_wf_empty e : ex_indices e = [] -> ex_feature_space e = (fun _ => fs_empty) -> text_wf e.
Proof.
  intros Ei Es. split; unfold extends_at, group; rewrite ?Es; try done.
  - unfold indices_exact, group_empty, group. rewrite Ei, Es. split; [by apply NoDup_nil_2|]. intros i. cbn. split; [by intros ?%not_elem_of_nil|done].
  - intros i. apply group_wf_empty.
Qed.

Lemma group_untouched j nss e : j ∉ derived -> j ∉ letters nss -> group j (apply_namespaces cfg nss e) = group j e.
Proof.
  intros Hj. unfold apply_namespaces, letters. generalize (@nil byte). revert e. induction nss as [|ns nss IH]; intros e base Hl; [done|].
  rewrite fmap_cons, not_elem_of_cons in Hl. destruct Hl as [Hne Hl]. cbn [fold_left].
  destruct (apply_namespace cfg (base, e) ns) as [base' e'] eqn:E. rewrite (IH e' base' Hl). unfold apply_namespace in E.
  set (i := namespace_index cfg (nt_name ns)) in *.
  assert (forall fs an e0 b h cur, group j (fold_left (apply_feature cfg i b h cur) fs (an, e0)).2 = group j e0) as Hfold.
  { induction fs as [|f fs IHf]; intros an e0 b h cur; [done|]. cbn [fold_left]. destruct (apply_feature cfg i b h cur (an, e0) f) as [an' e1] eqn:Ea.
    rewrite IHf. unfold apply_feature in Ea. destruct (feature_hash cfg h an f). injection Ea as <- <-. case_if; [done|]. unfold add_feature.
    rewrite (proj2 (proj2 (derived_group i j _ Hj))), (proj1 (proj2 (derived_group i j _ Hj))), (proj1 (derived_group i j _ Hj)).
    by rewrite group_set, decide_False. }
  match type of E with context [fold_left ?f ?l ?a] => pose proof (Hfold l 0 (open_extent i (namespace_hash cfg (nt_name ns)) e)
    (namespace_base cfg (nt_name ns) base) (namespace_hash cfg (nt_name ns)) (scale_of (nt_value ns))) as Hg; destruct (fold_left f l a) as [an e1] end.
  injection E as <- <-. unfold close_extent. rewrite group_set, decide_False by done. cbn [snd] in Hg. unfold open_extent in Hg.
  rewrite group_set, decide_False in Hg by done. case_if; done.
Qed.

(** The label and its features are what the label parser left. *)
Definition same_label (e e' : example) : Prop := ex_l e' = ex_l e /\ ex_reduction_features e' = ex_reduction_features e.

Lemma list_if_empty_label d e : same_label e (list_if_empty d e).
Proof. unfold list_if_empty. by case_match. Qed.

Lemma add_feature_label i base hash name s v w e : same_label e (add_feature cfg i base hash name s v w e).
Proof.
  assert (forall d fs e0, same_label e e0 -> same_label e (set_group d fs (list_if_empty d e0))) as Hset by (intros d fs e0 He; unfold list_if_empty; by case_match).
  unfold add_feature. set (e1 := set_group i _ e). assert (same_label e e1) as H1 by done. generalize e1 H1. clear e1 H1. intros e1 H1.
  assert (same_label e (add_affixes cfg i v hash name e1)) as H2 by (unfold add_affixes; destruct name; [done|]; case_if; [by apply Hset|done]).
  generalize (add_affixes cfg i v hash name e1) H2. clear e1 H1 H2. intros e1 H1.
  assert (same_label e (add_spelling cfg i v hash name e1)) as H2 by (unfold add_spelling; case_if; [by apply Hset|done]).
  generalize (add_spelling cfg i v hash name e1) H2. clear e1 H1 H2. intros e1 H1. unfold add_dictionaries. revert e1 H1.
  induction (namespace_dictionaries cfg i) as [|m ms IH]; intros e1 H1; [done|]. cbn [fold_left]. apply IH.
  unfold add_dictionary. destruct (m name) as [feats|]; [|done]. destruct (values feats); [done|by apply Hset].
Qed.

Lemma apply_namespaces_label nss e : same_label e (apply_namespaces cfg nss e).
Proof.
  unfold apply_namespaces. generalize (@nil byte). enough (forall e1 base, same_label e e1 -> same_label e (fold_left (apply_namespace cfg) nss (base, e1)).2) as Hall
    by (intros base; by apply Hall).
  induction nss as [|ns nss IH]; intros e1 base He; [done|]. cbn [fold_left]. destruct (apply_namespace cfg (base, e1) ns) as [base' e2] eqn:E. apply IH.
  unfold apply_namespace in E. set (i := namespace_index cfg (nt_name ns)) in *.
  assert (forall fs an e0 b h cur, same_label e e0 -> same_label e (fold_left (apply_feature cfg i b h cur) fs (an, e0)).2) as Hfold.
  { induction fs as [|f fs IHf]; intros an e0 b h cur H0; [done|]. cbn [fold_left]. destruct (apply_feature cfg i b h cur (an, e0) f) as [an' e3] eqn:Ea.
    apply IHf. unfold apply_feature in Ea. destruct (feature_hash cfg h an f). injection Ea as <- <-. case_if; [done|].
    match goal with |- context [add_feature cfg i b h ?n ?s ?v ?w e0] => destruct (add_feature_label i b h n s v w e0) as [El Er] end.
    destruct H0 as [El0 Er0]. split; congruence. }
  match type of E with context [fold_left ?f ?l ?a] => pose proof (Hfold l 0 (open_extent i (namespace_hash cfg (nt_name ns)) e1)
    (namespace_base cfg (nt_name ns) base) (namespace_hash cfg (nt_name ns)) (scale_of (nt_value ns)) He) as Hg; destruct (fold_left f l a) as [an e3] end.
  injection E as <- <-. cbn [snd] in Hg. case_if; done.
Qed.

Lemma unlisted e j : text_wf e -> values (group j e) = [] -> j ∉ ex_indices e.
Proof. intros [[_ Hin] _ _ _] Hv Hj. apply Hin in Hj. unfold group_empty in Hj. by rewrite Hv in Hj. Qed.
End Text.

(** ** From a line of text to a prediction *)

Definition gd_space (e : example) (g : Z) : features f32 := if (0 <=? g) && (g <? 256) then ex_feature_space e (byte.of_Z g) else fs_empty.

(** The example as gradient descent reads it, with the interactions of the workspace. *)
Definition gd_example (interactions : list (list Z)) (extents : list (list InteractionPredict.extent_term)) (r : ready) : Gd.example f32 :=
  let e := ae r in
  Gd.Example_ (sl_label (simple (ex_l e))) (weight r) (slrf_initial (simple_rf (ex_reduction_features e))) 0 (byte_val <$> ex_indices e) (gd_space e)
    interactions extents (use_permutations r) f32_zero (partial_prediction r) f32_zero 0 None.

Lemma gd_example_wf cfg s interactions extents r : 0 <= s -> aligned_example cfg s (ae r) ->
  Forall (fun ns => 2 <= length ns)%nat interactions -> Forall (fun ns => 2 <= length ns)%nat extents ->
  Gd.example_ok s (gd_example interactions extents r).
Proof.
  intros Hs [He Ha] Hi Hx. split; cbn; [split; [done|apply Z.divide_0_r]|intros g|intros g|done|done]; unfold gd_space; case_if; try done.
  - destruct (ew_groups _ _ He (byte.of_Z g)) as [[Hl Hex _] _]. by split.
  - split; [done|]. split; [cbn; lia|done].
Qed.

(** * Theorems *)

Lemma skip_run_sorted {A} (rows : list (Z * A)) : forall i, StronglySorted Z.le (i :: rows.*1) -> StronglySorted Z.lt (i :: (skip_run i rows).*1).
Proof.
  induction rows as [|[j x] rows IH]; intros i Hs; cbn; [by repeat constructor|].
  apply StronglySorted_inv in Hs as [Hs Hall]. cbn in Hs, Hall. apply Forall_cons in Hall as [Hij Hall]. destruct (j =? i) eqn:E; bprop.
  - subst j. by apply IH.
  - cbn. pose proof (IH j Hs) as Hj. constructor; [done|]. apply StronglySorted_inv in Hj as [_ Hj]. constructor; [lia|].
    eapply Forall_impl; [exact Hj|]. intros k Hk. cbn in Hk. lia.
Qed.

Lemma skip_run_indices {A} (rows : list (Z * A)) : forall i j, j ∈ rows.*1 -> j = i \/ j ∈ (skip_run i rows).*1.
Proof.
  induction rows as [|[k x] rows IH]; intros i j; cbn; [by intros ?%not_elem_of_nil|]. rewrite elem_of_cons. intros [->|Hj].
  - destruct (k =? i) eqn:E; bprop; [by left|right; apply list_elem_of_here].
  - destruct (k =? i) eqn:E; bprop; [by apply IH|]. right. cbn. rewrite elem_of_cons. by apply IH.
Qed.

Lemma first_of_runs_length {A} (rows : list (Z * A)) : (length (first_of_runs rows) <= length rows)%nat.
Proof.
  destruct rows as [|[i x] rows]; cbn; [lia|]. enough (forall i, length (skip_run i rows) <= length rows)%nat as H by (specialize (H i); lia).
  induction rows as [|[j y] rows IH]; intros k; cbn; [lia|]. case_if; cbn; [specialize (IH k)|specialize (IH j)]; lia.
Qed.

(** Sorting a group and removing its duplicates leaves every index of the group exactly once, in
    ascending order, each with a value it had, as long as the mask does not change the indices. *)
Theorem sort_unique_distinct `{StdSort} (audit : bool) (fs : features Q) (mask : Z) :
  columns_wf audit fs -> Forall (fun i => Z.land i mask = i) (indices fs) -> Z.of_nat (size fs) < 2 ^ 64 ->
  exists sorted fs1 fs', sort mask fs = Some (sorted, fs1) /\ unique_features fs1 (-1) = Some fs' /\ columns_wf audit fs' /\
    StronglySorted Z.lt (indices fs') /\ (forall i, i ∈ indices fs' <-> i ∈ indices fs) /\ forall x, x ∈ feature_rows fs' -> x ∈ feature_rows fs.
Proof.
  intros Hc Hm Hlen. destruct (decide (indices fs = [])) as [E|Hne].
  { exists false, fs, fs. unfold sort, unique_features. rewrite E. split; [done|]. split; [done|]. split; [done|]. split; [constructor|done]. }
  destruct (sort_columns_wf audit fs mask Hc) as (b & fs1 & Es & Hc1 & _ & Pi & _).
  destruct (sort_spec fs mask (columns_wf_ok _ _ Hc) Hne) as (p & fs2 & Es' & Hp & Gv & Gi & _ & _ & _ & Hs & _).
  rewrite Es in Es'. injection Es' as -> <-.
  destruct (unique_features_ok audit fs1 (-1) Hc1 ltac:(lia)) as (fs' & Eu & Hc' & Hr).
  assert (length (feature_rows fs1) = size fs) as Hl1.
  { unfold feature_rows. rewrite length_zip_with, (go_indices _ _ Hc1). destruct Gv as [Gl _]. rewrite Nat.min_id. unfold size. by rewrite Gl. }
  rewrite take_ge in Hr by (pose proof (first_of_runs_length (feature_rows fs1)); change (u64 (-1)) with (2 ^ 64 - 1); lia).
  pose proof (indices_of_rows audit fs1 Hc1) as E1. pose proof (indices_of_rows audit fs' Hc') as E'. rewrite Hr in E'.
  exists true, fs1, fs'. split; [done|]. split; [done|]. split; [done|].
  assert (StronglySorted Z.le (indices fs1)) as Hsort.
  { assert (Forall (fun i => Z.land i mask = i) (indices fs1)) as Hm1 by by rewrite Pi. clear -Hs Hm1. induction Hs as [|i l Hs IH Hi]; [constructor|].
    apply Forall_cons in Hm1 as [Em Hm1]. constructor; [by apply IH|]. rewrite Forall_forall in *. intros j Hj. specialize (Hi j Hj). rewrite Em, (Hm1 j Hj) in Hi. done. }
  split; [|split].
  - rewrite E'. rewrite E1 in Hsort. destruct (feature_rows fs1) as [|[i x] rows]; [constructor|]. cbn in *. by apply skip_run_sorted.
  - intros i. rewrite <- Pi, E', E1. split.
    + intros (x & -> & Hx)%list_elem_of_fmap. by apply list_elem_of_fmap_2, first_of_runs_subset.
    + destruct (feature_rows fs1) as [|[j x] rows]; [done|]. cbn. rewrite !elem_of_cons. intros [|Hi]; [by left|]. by destruct (skip_run_indices rows j i Hi); auto.
  - intros x Hx. rewrite Hr in Hx. apply first_of_runs_subset, list_elem_of_lookup_1 in Hx as [k Hk]. destruct x as [i v].
    apply lookup_zip_Some in Hk as [Hki Hkv]. destruct Gv as [Gl Gv], Gi as [_ Gi].
    assert (k < length p)%nat as Hlt by (rewrite Hp, length_seq; apply lookup_lt_Some in Hkv; lia).
    destruct (lookup_lt_is_Some_2 p k Hlt) as [q Hq]. apply list_elem_of_lookup_2 with q. apply lookup_zip_Some.
    by rewrite <- (Gv k q Hq), <- (Gi k q Hq).
Qed.

(** Removing duplicates leaves a wrong sum of squares: the values that are moved up are
    overwritten before the sum of the removed ones is taken. Of three features of which the first two
    have one index, the first and the third are kept, and the sum is that of the first and the
    second. *)
Theorem unique_features_sum (v1 v2 v3 s : Q) (i j : Z) :
  i <> j -> (s == v1 * v1 + v2 * v2 + v3 * v3)%Q ->
  exists fs, unique_features (Features Q [v1; v2; v3] [i; i; j] [] [] s) (-1) = Some fs /\
    feature_rows fs = [(i, v1); (j, v3)] /\ (sum_feat_sq fs == v1 * v1 + v2 * v2)%Q.
Proof.
  intros Hij Hs. unfold unique_features. cbn -[u64]. rewrite Z.eqb_refl, (proj2 (Z.eqb_neq j i)) by congruence.
  change (u64 (-1) <=? 2) with false. cbn. eexists. split; [reflexivity|]. split; [done|]. cbn. qnum. rewrite Hs. change (inject_Z 0) with 0%Q. ring.
Qed.

Lemma unique_features_sum_witness :
  (7 <> 9) /\ exists fs, unique_features (Features Q [1; 2; 5]%Q [7; 7; 9] [] [] 30%Q) (-1) = Some fs /\
    feature_rows fs = [(7, 1%Q); (9, 5%Q)] /\ (sum_feat_sq fs == 5)%Q.
Proof. split; [lia|]. apply (unique_features_sum 1 2 5 30 7 9); [lia|reflexivity]. Defined.

Definition three_rows : features Q := Features Q [3; 1; 2]%Q [8; 5; 8] [] [Extent 0 3 4] 14%Q.

Lemma sort_unique_distinct_witness :
  exists sorted fs1 fs', sort (H0 := std_sort_stable) 15 three_rows = Some (sorted, fs1) /\ unique_features fs1 (-1) = Some fs' /\
    StronglySorted Z.lt (indices fs') /\ length (indices fs1) = 3%nat /\ indices fs' = [5; 8].
Proof.
  destruct (sort_unique_distinct (H := std_sort_stable) false three_rows 15) as (b & fs1 & fs' & E1 & E2 & _ & Hs & _).
  - split; [done| |done]. cbn. split; [lia|]. split; [done|lia].
  - repeat constructor.
  - cbn. lia.
  - exists b, fs1, fs'. split; [exact E1|]. split; [exact E2|]. split; [exact Hs|]. vm_compute in E1. injection E1 as <- <-. vm_compute in E2. by injection E2 as <-.
Defined.

(** C36: setting up a list of well-formed examples never fails, and readies each of them for a learner
    with the stride of the workspace: indices are multiples of the stride, each namespace is listed
    once. When blank lines do not separate examples, the example after [n] others of the pass is
    held out exactly if it has a test label or [n + 1] is a multiple of the period (or beyond
    [holdout_after]). *)
Theorem setup_examples_ready {R W : Type} `{Reader R, Writer W, StdSort} (alloc : nat -> Z) (cfg : setup_config) (es : list example) (st : parser_state R W) :
  write_cache cfg = false -> emptylines_separate_examples cfg = false -> holdout_period cfg <> 0 ->
  0 <= stride_shift cfg < 64 -> 0 <= total_feature_width cfg -> sc_strict_parse cfg = false ->
  0 <= num_setup_examples st < 2 ^ 64 -> 0 <= in_pass_counter st < 2 ^ 32 ->
  Forall (fun e => example_wf (audit_names cfg) e /\ CONSTANT_NAMESPACE ∉ ex_indices e) es ->
  let n := Z.of_nat (length es) in
  exists rs, setup_examples alloc cfg es st =
      Done (rs, ParserState (u64 (num_setup_examples st + n)) (u32 (in_pass_counter st + n)) (output st) (cache_temp_buffer st)) /\
    Forall (fun r => aligned_example cfg (stride_shift cfg) (ae r)) rs /\
    test_only <$> rs = imap (fun k e => held_out cfg (u32 (in_pass_counter st + Z.of_nat k + 1)) || lp_test_label (lbl_parser (R := R) alloc cfg) (ex_l e)) es.
Proof.
  intros Hwc Hel Hp Hs Hw Hst Hn1 Hn2 Hes n. unfold n. clear n. revert st Hn1 Hn2. induction Hes as [|e es [He Hc] _ IH]; intros st Hn1 Hn2.
  { exists []. cbn. rewrite !Z.add_0_r, u64_id, u32_id by done. by destruct st. }
  destruct (setup_example_ready alloc cfg e st Hwc Hp Hs Hw Hc He) as (r & E & Ha & _ & _ & Ht & _); [by right|].
  assert (ends_group cfg e = false) as Eg by (unfold ends_group; by rewrite Hel). assert (counted cfg st = u32 (in_pass_counter st + 1)) as Ec by (unfold counted; by rewrite Hel).
  rewrite Eg, Ec in E. rewrite Ec in Ht. set (st1 := ParserState _ _ _ _) in E.
  destruct (IH st1) as (rs & E' & Har & Htr); [apply Z.mod_pos_bound, eq_refl|apply Z.mod_pos_bound, eq_refl|].
  exists (r :: rs). cbn [setup_examples]. rewrite E. cbn [io_bind]. rewrite E'. cbn [io_bind].
  assert (forall k, u32 (u32 (in_pass_counter st + 1) + k) = u32 (in_pass_counter st + (1 + k))) as E32 by (intros k; unfold u32; rewrite Zplus_mod_idemp_l; f_equal; lia).
  assert (forall k, u64 (u64 (num_setup_examples st + 1) + k) = u64 (num_setup_examples st + (1 + k))) as E64 by (intros k; unfold u64; rewrite Zplus_mod_idemp_l; f_equal; lia).
  split; [|split].
  - cbn [num_setup_examples in_pass_counter output cache_temp_buffer st1]. rewrite E32, E64. do 3 f_equal; f_equal; cbn [length]; lia.
  - by constructor.
  - rewrite fmap_cons, imap_cons, Ht, Htr. f_equal; [by rewrite Z.add_0_r|]. apply imap_ext. intros k e' _. cbn [compose]. f_equal. f_equal.
    cbn [in_pass_counter st1]. rewrite <- Z.add_assoc, E32. f_equal. lia.
Qed.

(** C4: a line of text becomes a prediction: whatever the buffering, a line with a simple label, a tag
    and namespaces is read, set up - with any choice of sorting, ignored namespaces, grams, constant
    feature and limits - and predicted by gradient descent on any store of weights; the prediction is
    the sum over the features set up, from the initial value on the line, the weights are only read
    and the rest of the input is left to read. *)
Theorem line_of_text_predicted {R W D V : Type} `{Reader R, Writer W, StdSort} `{Num D, Widen f32 D, Losses.MathFns f32, Losses.MathFns D, NumComm f32 (H := num_f32), Weights.WeightStoreLaws V f32}
    (alloc : nat -> Z) (tcfg : text_config) (scfg : setup_config) (ldict : option named_labels) (e : example) (b : io_buf R W)
    (nums : list numeral) (lt : line_text) (sl : simple_label) (srf : simple_label_reduction_features) (bom cr : bool) (rest : list byte)
    (st : parser_state R W) (l1 : bool) (gcfg : Gd.config f32) (g : Gd.gd f32 D V) (interactions : list (list Z)) (extents : list (list InteractionPredict.extent_term)) :
  lt_words lt = numeral_text <$> nums -> Forall number_ok nums -> line_ok lt ->
  simple_numbers nums (simple_rf (ex_reduction_features e)) = Some (sl, srf) ->
  Byte.x0a ∉ line_chars lt -> (bom = false -> take 3 (line_chars lt ++ end_of_line cr) <> bom_chars true) ->
  wf b -> stream b = bom_chars bom ++ line_chars lt ++ end_of_line cr ++ rest ->
  ex_indices e = [] -> ex_feature_space e = (fun _ => fs_empty) ->
  0 <= parse_mask tcfg -> (forall i m name feats, m ∈ namespace_dictionaries tcfg i -> m name = Some feats ->
    length (indices feats) = length (values feats) /\ Forall (Z.le 0) (indices feats)) ->
  Forall (fun i => i ∉ CONSTANT_NAMESPACE :: derived) (letters tcfg (lt_namespaces lt)) ->
  label_type scfg = SIMPLE -> audit_names scfg = audit tcfg -> write_cache scfg = false -> holdout_period scfg <> 0 -> 0 <= total_feature_width scfg ->
  bad_weight (slrf_weight srf) = false \/ sc_strict_parse scfg = false ->
  Weights.ws_wf (Gd.weights g) -> stride_shift scfg = Weights.ws_stride_shift (Gd.weights g) ->
  Forall (fun ns => 2 <= length ns)%nat interactions -> Forall (fun ns => 2 <= length ns)%nat extents ->
  exists e' b' r st' g' x,
    read_features_string tcfg SIMPLE ldict alloc e b = Done (length (bom_chars bom ++ line_chars lt ++ end_of_line cr), (e', 0%nat), b') /\
    stream b' = rest /\ setup_example alloc scfg e' st = Done (r, st') /\ weight r = slrf_weight srf /\
    let gx := gd_example interactions extents r in
    Gd.predict l1 gcfg g gx = Some (g', x) /\ Gd.keeps (Gd.weights g) (Gd.weights g') /\
    Gd.ex_partial_prediction x = (Gd.raw_prediction l1 (narrow (Gd.sd_gravity g)) (Gd.weights g) (Gd.feats_of gcfg gx) (slrf_initial srf) * narrow (Gd.sd_contraction g))%num.
Proof.
  intros Hw Hn Hok Hr Hnl Hbom Hwf Hs Hei Hes Hmask Hdict Hlet Hlab Haud Hwc Hp Htw Hbad Hwsok Hst Hint Hext.
  destruct (read_simple_ok alloc tcfg ldict e b nums lt sl srf bom cr rest Hw Hn Hok Hr Hnl Hbom Hwf Hs) as (b' & E & Hs' & _).
  set (e1 := add_tag _ _) in E. set (e' := apply_namespaces tcfg (lt_namespaces lt) e1) in E.
  assert (text_wf tcfg e') as He'.
  { apply apply_namespaces_wf; [done|done| |by apply text_wf_empty]. unfold letters in Hlet. rewrite Forall_fmap in Hlet.
    eapply Forall_impl; [exact Hlet|]. intros ns Hns. cbn in Hns. rewrite not_elem_of_cons in Hns. tauto. }
  destruct (apply_namespaces_label tcfg (lt_namespaces lt) e1) as [El Er]. fold e' in El, Er.
  assert (CONSTANT_NAMESPACE ∉ ex_indices e') as Hc.
  { apply (unlisted tcfg); [done|]. unfold e'. rewrite (group_untouched tcfg).
    - unfold group. cbn. by rewrite Hes.
    - by apply (bool_decide_unpack _).
    - intros Hin. rewrite Forall_forall in Hlet. specialize (Hlet _ Hin). apply Hlet, list_elem_of_here. }
  assert (lp_get_weight (lbl_parser (R := R) alloc scfg) (ex_l e') (ex_reduction_features e') = slrf_weight srf) as Ew by (unfold lbl_parser; by rewrite Hlab, El, Er).
  destruct (setup_example_ready alloc scfg e' st Hwc Hp) as (r & Esx & Ha & Ewr & _ & _ & _ & Elr & Err); [rewrite Hst; by apply Gd.shift_range|done|done| | |].
  { rewrite Haud. by apply text_example_wf. }
  { by rewrite Ew. }
  pose proof (gd_example_wf scfg (stride_shift scfg) interactions extents r) as Hgx.
  destruct (Gd.predict_ok l1 gcfg g (gd_example interactions extents r) Hwsok) as (n & w' & _ & Hk & Ep).
  { rewrite <- Hst. apply Hgx; [rewrite Hst; by apply Gd.shift_range|done..]. }
  eexists e', b', r, _, _, _. split; [exact E|]. split; [done|]. split; [exact Esx|]. split; [by rewrite Ewr|].
  split; [exact Ep|]. split; [exact Hk|]. cbn [Gd.ex_partial_prediction Gd.set_predictions]. unfold gd_example at 2. cbn [Gd.ex_initial]. by rewrite Err, Er.
Qed.

(** *** Witnesses *)

(** Every fourth example is held out; a constant feature; at most two features in namespace [a]. *)
Definition sample_setup : setup_config :=
  SetupConfig true false false false SIMPLE 4 0 false true (is_chr Byte.x7a) None true false true (fun c => if is_chr Byte.x61 c then 2 else 100)
    1 2 (2 ^ 18 - 1) false.
Definition sample_state : parser_state buffer_view vector_writer := ParserState 0 2 (sample_input []) (sample_input []).
(** The namespaces of the sample line, with label 1. *)
Definition sample_read : example :=
  let e := TextParser.sample_example in
  apply_namespaces sample_text_config (lt_namespaces sample_line) (set_label (set_simple (SimpleLabel f32_one) (ex_l e)) (ex_reduction_features e) e).

Lemma sample_dictionaries : forall i m name feats, m ∈ namespace_dictionaries sample_text_config i -> m name = Some feats ->
  length (indices feats) = length (values feats) /\ Forall (Z.le 0) (indices feats).
Proof. intros i m name feats Hm. by apply not_elem_of_nil in Hm. Qed.

Lemma sample_read_wf : example_wf (audit_names sample_setup) sample_read /\ CONSTANT_NAMESPACE ∉ ex_indices sample_read.
Proof.
  split; [|by apply (bool_decide_unpack _); vm_compute].
  apply (text_example_wf sample_text_config), apply_namespaces_wf; [by vm_compute|exact sample_dictionaries| |by apply text_wf_empty].
  apply (bool_decide_unpack _). by vm_compute.
Qed.

(** The second of two examples is the fourth of the pass. *)
Lemma setup_examples_ready_witness :
  exists rs st, setup_examples (H1 := std_sort_stable) (fun _ => 0) sample_setup [sample_read; sample_read] sample_state = Done (rs, st) /\
    test_only <$> rs = [false; true] /\ in_pass_counter st = 4.
Proof.
  pose proof (setup_examples_ready (H1 := std_sort_stable) (fun _ => 0) sample_setup [sample_read; sample_read] sample_state) as Hready.
  destruct Hready as (rs & E & _ & Ht); [reflexivity|reflexivity|discriminate|cbn; lia|cbn; lia|reflexivity|cbn; lia|cbn; lia| |].
  - apply Forall_cons. split; [exact sample_read_wf|]. apply Forall_cons. split; [exact sample_read_wf|apply Forall_nil, I].
  - exists rs. eexists. split; [exact E|]. split; [rewrite Ht; vm_compute; reflexivity|vm_compute; reflexivity].
Defined.

#[local] Existing Instances Weights.dense_store Weights.dense_laws.
#[local] Instance no_f32_fns : Losses.MathFns f32 :=
  {| Losses.nexp x := x; Losses.nlog x := x; Losses.nlog1p x := x; Losses.nexpm1 x := x; Losses.nsqrt x := x; Losses.npow x _ := x; Losses.nisfinite _ := true |}.
#[local] Instance comm_f32 : NumComm f32 (H := num_f32) := num_comm_sf 24 128.
Definition sample_gcfg : Gd.config f32 := Gd.Config false (fun _ => false) false (Losses.squaredloss (D := f64) (H0 := num_f64) (H1 := widen_f32_f64)) f32_one 0 f32_zero f32_zero.
Definition sample_weights : Gd.gd f32 f64 (Weights.dense_parameters f32) :=
  Gd.Gd (Weights.dense_make (2 ^ Z.of_nat 8) (Z.of_nat 2)) f32_zero f32_one (Losses.LabelRange f32_zero f32_one) f32_zero f32_zero f32_zero [] None f32_one f32_zero f32_zero f32_zero.

(** A line with a byte-order mark, the label [1] with initial value 0 and weight 2, a tag and two
    namespaces. *)
Lemma line_of_text_predicted_witness :
  exists e' b' r st' g' x,
    read_features_string sample_text_config SIMPLE None (fun _ => 0) TextParser.sample_example (sample_input sample_text) = Done (36%nat, (e', 0%nat), b') /\
    stream b' = str "next" /\ setup_example (H1 := std_sort_stable) (fun _ => 0) sample_setup e' sample_state = Done (r, st') /\ weight r = number_of (digits "2") /\
    Gd.predict (H1 := widen_f32_f64) false sample_gcfg sample_weights (gd_example [[97; 98]] [] r) = Some (g', x).
Proof.
  destruct (line_of_text_predicted (D := f64) (H1 := std_sort_stable) (H2 := num_f64) (H3 := widen_f32_f64) (H5 := no_f32_fns) (fun _ => 0) sample_text_config sample_setup None TextParser.sample_example
    (sample_input sample_text) [digits "1"; digits "2"] sample_line (SimpleLabel (number_of (digits "1"))) (SimpleRF (number_of (digits "2")) f32_zero)
    true true (str "next") sample_state false sample_gcfg sample_weights [[97; 98]] []) as (e' & b' & r & st' & g' & x & E1 & E2 & E3 & E4 & E5 & _).
  - reflexivity.
  - apply Forall_cons. split; [digits_ok|]. apply Forall_cons. split; [digits_ok|apply Forall_nil, I].
  - exact sample_line_ok.
  - reflexivity.
  - by_decide.
  - discriminate.
  - unfold wf. cbn. lia.
  - vm_compute. reflexivity.
  - reflexivity.
  - reflexivity.
  - vm_compute. discriminate.
  - exact sample_dictionaries.
  - by_decide.
  - reflexivity.
  - reflexivity.
  - reflexivity.
  - discriminate.
  - vm_compute. discriminate.
  - left. vm_compute. reflexivity.
  - apply (Weights.dense_make_wf 8 2). lia.
  - reflexivity.
  - repeat constructor.
  - constructor.
  - exists e', b', r, st', g', x. split; [exact E1|]. split; [exact E2|]. split; [exact E3|]. split; [exact E4|exact E5].
Defined.
