(* ===== verification/Driver.v ===== *)
(** * The driver ([core/include/vw/core/parse_dispatch_loop.h], [core/src/learner.cc])

    The loop that takes examples from the pool, has them read and set up, and dispatches them; the
    handlers that learn from single examples or from groups of them, end passes and save models; and
    the pool the examples return to ([core/src/parser.cc], [vw.cc], [example.cc], [global_data.cc]).

    An example is known by its [example_counter], which [get_unused_example] gives out in order. What
    handlers change is [learning]; what only the parser changes is [parsing]. The learners are a
    record of functions on their state; an exception is the flag [true] beside the state it leaves.
    With a parser thread the handler gets the same examples through the queue of [Queue]; the
    handlers do not see the bounds of batches ([process_app]). *)

From S2P Require Import Prelude.
From S2P Require Import FloatBytes.
From S2P Require Import Features.
From S2P Require Import IoBuf.
From S2P Require Import Labels.
From S2P Require Import CacheParser.
From S2P Require Import Setup.
From S2P Require TextParser.

#[local] Existing Instance num_f32.

Record item := Item { example_counter : Z; end_pass : bool; rdy : ready }.
#[local] Abbreviation item_ex it := (ae (rdy it)).

(** [VW::empty_example] *)
Definition empty_example (e : example) : example :=
  let rf := ReductionFeatures simple_rf_reset continuous_rf_clear [] in
  Example_ (ex_l e) rf [] false [] (fun i => if bool_decide (i ∈ ex_indices e) then fs_empty else ex_feature_space e i) false.

Record driver_config := DriverConfig {
  numpasses : Z; max_examples : Z; training : bool; final_regressor_name : list byte; setup_cfg : setup_config
}.

Record learning {M : Type} := Learning {
  model : M; current_pass : Z; early_terminate : bool; parser_done : bool; pool_returns : list Z
}.
Arguments learning : clear implicits.
Arguments Learning {M}.

Record parsing {R W I : Type} := Parsing {
  source : I; pstate : parser_state R W; do_reset_source : bool; passes_complete : Z; pass_length : Z; num_examples_taken : Z
}.
Arguments parsing : clear implicits.
Arguments Parsing {R W I}.

(** What is below the driver: the learners, and their own examples [X] with a prediction [P]. *)
Record learner_stack {M X P : Type} := LearnerStack {
  import : ready -> X; get_pred : X -> P; set_pred : P -> X -> X; fresh_pred : P;
  learn_returns_prediction : bool;
  l_predict : M -> list X -> M * list X * bool;
  l_learn : M -> list X -> M * list X * bool;
  l_account : M -> list X -> M;
  l_end_pass : M -> M * bool;
  l_end_examples : M -> M;
  l_save : list byte -> M -> M * bool
}.
Arguments learner_stack : clear implicits.

(** The reader fills the example it is given and may take more from the pool; it returns 0 at the
    end of the input. [Failed n]: it throws after it has taken [n] more. *)
Inductive read_result {I : Type} := Filled (e : example) (es : list example) (i : I) | Ended (i : I) | Failed (n : nat) (i : I).
Arguments read_result : clear implicits.

Record input_source {I : Type} := InputSource { reader : I -> read_result I; reset_source : I -> option I }.
Arguments input_source : clear implicits.

(** [HS] is what a handler holds between examples. *)
Record handler {M HS : Type} := Handler {
  on_example : item -> HS -> learning M -> HS * learning M * bool;
  process_remaining : HS -> learning M -> HS * learning M * bool
}.
Arguments handler : clear implicits.

Definition counters (its : list item) : list Z := example_counter <$> its.

Section Learners.
Context {M X P : Type} (cfg : driver_config) (ls : learner_stack M X P).
Implicit Types (L : learning M) (it : item) (its : list item).

Definition set_model (m : M) L : learning M := Learning m (current_pass L) (early_terminate L) (parser_done L) (pool_returns L).
Definition return_items its L : learning M := Learning (model L) (current_pass L) (early_terminate L) (parser_done L) (pool_returns L ++ counters its).
Definition next_pass L : learning M := Learning (model L) (u64 (current_pass L + 1)) (early_terminate L) (parser_done L) (pool_returns L).
Definition lock_done L : learning M := Learning (model L) (current_pass L) (early_terminate L) true (pool_returns L).
Definition set_done L : learning M := lock_done (Learning (model L) (current_pass L) true (parser_done L) (pool_returns L)).

Definition head_pred (xs : list X) : P := match xs with x :: _ => get_pred ls x | [] => fresh_pred ls end.
Definition set_head_pred (p : P) (xs : list X) : list X := match xs with x :: xs => set_pred ls p x :: xs | [] => [] end.

(** [workspace::learn]; [test] is [ec.test_only] of a single example. *)
Definition workspace_learn (test : bool) (m : M) (xs : list X) : M * list X * bool :=
  if test || negb (training cfg) then l_predict ls m xs
  else if learn_returns_prediction ls then l_learn ls m xs
  else
    let '(m, xs, threw) := l_predict ls m xs in
    if threw : bool then (m, xs, true)
    else
      let saved_prediction := head_pred xs in
      let '(m, xs, threw) := l_learn ls m (set_head_pred (fresh_pred ls) xs) in
      if threw : bool then (m, xs, true) else (m, set_head_pred saved_prediction xs, false).

(** [learn_ex], [learn_multi_ex]: learning, accounting, and back to the pool. *)
Definition learn_items (test : bool) its L : learning M * bool :=
  let '(m, xs, threw) := workspace_learn test (model L) ((fun it => import ls (rdy it)) <$> its) in
  if threw : bool then (set_model m L, true) else (return_items its (set_model (l_account ls m xs) L), false).
Definition learn_ex it L : learning M * bool := learn_items (test_only (rdy it)) [it] L.
Definition learn_multi_ex its L : learning M * bool := learn_items false its L.

(** [end_pass] *)
Definition end_pass_ex it L : learning M :=
  let L := next_pass L in
  let '(m, early) := l_end_pass ls (model L) in
  let L := set_model m L in
  return_items [it] (if early : bool then set_done L else L).

(** [save] *)
Definition is_save_cmd it : bool := bool_decide (take 4 (ex_tag (item_ex it)) = str "save").
Definition save_name it : list byte :=
  let tag := ex_tag (item_ex it) in
  match tag !! 4%nat with Some c => if (6 <=? length tag)%nat && bool_decide (c = Byte.x5f) then drop 5 tag else final_regressor_name cfg | None => final_regressor_name cfg end.
Definition save_ex it L : learning M * bool :=
  let '(m, threw) := l_save ls (save_name it) (model L) in
  if threw : bool then (set_model m L, true) else (return_items [it] (set_model m L), false).

Definition ec_is_example_header (l : polylabel) : bool :=
  match label_type (setup_cfg cfg) with
  | CB => ec_is_example_header_cb (cb l)
  | CB_WITH_OBSERVATIONS => ec_is_example_header_cb (cbo_event (cb_with_observations l))
  | CCB => ccb_type (conditional_contextual_bandit l) =? SHARED
  | CS => is_cs_example_header (cs l)
  | _ => false
  end.
Definition example_is_newline_not_header it : bool := ex_is_newline (item_ex it) && negb (ec_is_example_header (ex_l (item_ex it))).

(** *** One example at a time *)

Definition single_on_example it (_ : unit) L : unit * learning M * bool :=
  let '(L, threw) :=
    if (1 <? length (ex_indices (item_ex it)))%nat then learn_ex it L
    else if end_pass it then (end_pass_ex it L, false)
    else if is_save_cmd it then save_ex it L
    else if ex_is_newline (item_ex it) then (return_items [it] L, false)
    else learn_ex it L in
  (tt, L, threw).
Definition single_example_handler : handler M unit := Handler _ _ single_on_example (fun _ L => (tt, L, false)).

(** *** Groups of examples, up to a newline or the end of the pass *)

Section Multi.
Context {R W : Type} `{Reader R, Writer W} (alloc : nat -> Z).

Definition is_newline it : bool :=
  example_is_newline_not_header it && lp_test_label (lbl_parser (R := R) alloc (setup_cfg cfg)) (ex_l (item_ex it)).

Definition complete_multi_ex it (ec_seq : list item) : list item * bool :=
  let ends := is_newline it || end_pass it in
  let ec_seq := if ends then ec_seq else ec_seq ++ [it] in
  (ec_seq, ends && match ec_seq with [] => false | _ => true end).

Definition try_complete_multi_ex it (ec_seq : list item) L : list item * learning M * bool * bool :=
  if (length (ex_indices (item_ex it)) <=? 1)%nat && is_save_cmd it
  then let '(L, threw) := save_ex it L in (ec_seq, L, false, threw)
  else let '(ec_seq, complete) := complete_multi_ex it ec_seq in (ec_seq, L, complete, false).

Definition learn_seq (ec_seq : list item) L : list item * learning M * bool :=
  let '(L, threw) := learn_multi_ex ec_seq L in (if threw : bool then ec_seq else [], L, threw).

Definition multi_on_example it (ec_seq : list item) L : list item * learning M * bool :=
  let '(ec_seq, L, complete, threw) := try_complete_multi_ex it ec_seq L in
  if threw : bool then (ec_seq, L, true)
  else
    let '(ec_seq, L, threw) := if complete : bool then learn_seq ec_seq L else (ec_seq, L, false) in
    if threw : bool then (ec_seq, L, true)
    else
      (ec_seq, if end_pass it then end_pass_ex it L else if ex_is_newline (item_ex it) then return_items [it] L else L, false).

Definition multi_process_remaining (ec_seq : list item) L : list item * learning M * bool :=
  match ec_seq with [] => ([], L, false) | _ => learn_seq ec_seq L end.
Definition multi_example_handler : handler M (list item) := Handler _ _ multi_on_example multi_process_remaining.
End Multi.

(** [process_examples], up to the first exception. *)
Fixpoint process_examples {HS : Type} (h : handler M HS) its (s : HS) L : HS * learning M * bool :=
  match its with
  | [] => (s, L, false)
  | it :: its =>
      let '(s, L, threw) := on_example h it s L in
      if threw : bool then (s, L, true) else process_examples h its s L
  end.
End Learners.

(** ** The loop *)

Section Loop.
Context {R W I M HS : Type} `{Reader R, Writer W, StdSort} (alloc : nat -> Z).
Context (cfg : driver_config) (src : input_source I) (pooled : example) (h : handler M HS).
Implicit Types (L : learning M) (p : parsing R W I).

(** Examples of a batch with their counters. *)
Definition counted_items (c : Z) (rs : list ready) : list item := imap (fun k r => Item (c + Z.of_nat k) false r) rs.
Definition blank_ready (e : example) : ready := Ready e false f32_zero f32_zero f32_zero 0 false false.

Definition with_label (l : polylabel) (e : example) : example :=
  Example_ l (ex_reduction_features e) (ex_tag e) (ex_is_newline e) (ex_indices e) (ex_feature_space e) (ex_sorted e).
(** The example that ends a pass; it is not set up. *)
Definition end_item (c : Z) : item :=
  let e := empty_example pooled in
  Item c true (blank_ready (with_label (lp_default_label (lbl_parser (R := R) alloc (setup_cfg cfg)) (ex_l e)) e)).

(** [get_unused_example], [n] times. *)
Definition take_examples (n : nat) p : parsing R W I :=
  Parsing (source p) (pstate p) (do_reset_source p) (passes_complete p) (pass_length p) (num_examples_taken p + Z.of_nat n).
Definition set_source (i : I) p : parsing R W I := Parsing i (pstate p) (do_reset_source p) (passes_complete p) (pass_length p) (num_examples_taken p).
Definition set_pstate (st : parser_state R W) p : parsing R W I :=
  Parsing (source p) st (do_reset_source p) (passes_complete p) (pass_length p) (num_examples_taken p).

(** The end of a pass of [n] examples, as far as the parser goes. *)
Definition complete_pass (n : Z) (i : I) p : parsing R W I :=
  let st := pstate p in
  let st := ParserState (u64 (num_setup_examples st + 1)) 0 (output st) (cache_temp_buffer st) in
  let complete := u64 (passes_complete p + 1) in
  if (complete =? numpasses cfg) && (n =? pass_length p) then Parsing i st false 0 (u64 (pass_length p * 2 + 1)) (num_examples_taken p)
  else Parsing i st false complete (pass_length p) (num_examples_taken p).

(** [return_multiple_example] and the end of the loop after an exception. *)
Definition return_counters (cs : list Z) L : learning M := Learning (model L) (current_pass L) (early_terminate L) (parser_done L) (pool_returns L ++ cs).
Definition batch (c : Z) (n : nat) : list Z := seqZ c (Z.of_nat n).
Definition stashed (cs : list Z) L : learning M := lock_done (return_counters cs L).

(** [parse_dispatch], with the number of examples of this pass; the flag is whether an exception was
    stashed. *)
Fixpoint parse_dispatch (fuel : nat) (n : Z) (s : HS) L p : io_result (HS * learning M * parsing R W I * bool) :=
  match fuel with
  | O => NoFuel
  | S fuel =>
      if parser_done L then Done (s, L, p, false)
      else
        let c := num_examples_taken p in
        let p := take_examples 1 p in
        let reads := negb (do_reset_source p) && negb (n =? pass_length p) && (n <? max_examples cfg) in
        match (if reads then reader src (source p) else Ended (source p)) with
        | Failed k i => Done (s, stashed (batch c (S k)) L, take_examples k (set_source i p), true)
        | Filled e es i =>
            let p := take_examples (length es) (set_source i p) in
            match setup_examples alloc (setup_cfg cfg) (e :: es) (pstate p) with
            | Done (rs, st) =>
                let its := counted_items c rs in
                let '(s, L, threw) := process_examples h its s L in
                if threw : bool then Done (s, stashed (counters its) L, set_pstate st p, true)
                else parse_dispatch fuel (u64 (n + Z.of_nat (length its))) s L (set_pstate st p)
            | Throw => Done (s, stashed (batch c (S (length es))) L, p, true)
            | Undefined => Undefined
            | NoFuel => NoFuel
            end
        | Ended i =>
            match reset_source src i with
            | None => Done (s, stashed [c] L, set_source i p, true)
            | Some i =>
                let p := complete_pass n i p in
                let '(s, L, threw) := process_examples h [end_item c] s L in
                if threw : bool then Done (s, stashed [c] L, p, true)
                else
                  let L := if (numpasses cfg <=? passes_complete p) && (n <=? max_examples cfg) then lock_done L else L in
                  parse_dispatch fuel 0 s L p
            end
        end
  end.

(** [generic_driver_onethread]; the last flag is whether an exception left it. *)
Definition generic_driver_onethread (end_examples : M -> M) (fuel : nat) (s : HS) L p : io_result (HS * learning M * parsing R W I * bool * bool) :=
  do (s, L, p, stash) <- parse_dispatch fuel 0 s L p;
  let '(s, L, threw) := process_remaining h s L in
  Done (s, if threw : bool then L else set_model (end_examples (model L)) L, p, stash, threw).
End Loop.

(** ** Handlers lose no example *)

(** What a handler does with an example that is [ok]: it goes back to the pool, or the handler holds
    it, unless the example throws; what is not held any more has gone back. *)
Class Conserves {M HS} (h : handler M HS) (held : HS -> list Z) (ok : item -> Prop) := {
  conserves_example it s L s' L' threw : ok it -> on_example h it s L = (s', L', threw) ->
    pool_returns L' ++ held s' ≡ₚ (if threw then [] else [example_counter it]) ++ pool_returns L ++ held s;
  conserves_remaining s L s' L' threw : process_remaining h s L = (s', L', threw) ->
    pool_returns L' ++ held s' ≡ₚ pool_returns L ++ held s /\ (threw = false -> held s' = [])
}.

Section Conservation.
Context {M X P : Type} (cfg : driver_config) (ls : learner_stack M X P).
Implicit Types (L : learning M) (it : item) (its : list item).

Lemma learn_items_returns test its L L' threw : learn_items cfg ls test its L = (L', threw) ->
  pool_returns L' = pool_returns L ++ (if threw then [] else counters its).
Proof.
  unfold learn_items. destruct (workspace_learn _ _ _ _ _) as [[m xs] []]; intros [= <- <-]; [by rewrite app_nil_r|done].
Qed.

Lemma save_returns it L L' threw : save_ex cfg ls it L = (L', threw) -> pool_returns L' = pool_returns L ++ (if threw then [] else [example_counter it]).
Proof. unfold save_ex. destruct (l_save _ _ _) as [m []]; intros [= <- <-]; [by rewrite app_nil_r|done]. Qed.

Lemma end_pass_returns it L : pool_returns (end_pass_ex ls it L) = pool_returns L ++ [example_counter it].
Proof. unfold end_pass_ex. destruct (l_end_pass _ _) as [m early]. by case_if. Qed.

#[export] Instance single_conserves : Conserves (single_example_handler cfg ls) (fun _ => []) (fun _ => True).
Proof.
  split.
  - intros it [] L [] L' threw _ E. rewrite !app_nil_r. cbn [on_example single_example_handler] in E. unfold single_on_example in E.
    assert (pool_returns L' = pool_returns L ++ (if threw then [] else [example_counter it])) as ->; [|apply Permutation_app_comm].
    destruct (if (1 <? length (ex_indices (item_ex it)))%nat then _ else _) as [L1 t] eqn:E1. injection E as <- <-.
    unfold learn_ex in E1. destruct (1 <? _)%nat; [by apply learn_items_returns in E1|].
    destruct (end_pass it); [injection E1 as <- <-; apply end_pass_returns|]. destruct (is_save_cmd it); [by apply save_returns in E1|].
    destruct (ex_is_newline _); [by injection E1 as <- <-|by apply learn_items_returns in E1].
  - intros [] L [] L' threw [= <- <-]. done.
Qed.

Context {R W : Type} `{Reader R, Writer W} (alloc : nat -> Z).

(** A newline example has a test label, and is no header; it does not save, nor does the end of a pass. *)
Definition plain_newline it : Prop :=
  (ex_is_newline (item_ex it) = true -> is_newline (R := R) cfg alloc it = true) /\
  (is_save_cmd it = true -> ex_is_newline (item_ex it) = false /\ end_pass it = false).

Lemma learn_seq_returns ec_seq L s' L' threw : learn_seq cfg ls ec_seq L = (s', L', threw) ->
  pool_returns L' ++ counters s' = pool_returns L ++ counters ec_seq /\ (threw = false -> s' = []) /\ (threw = true -> s' = ec_seq).
Proof.
  unfold learn_seq, learn_multi_ex. destruct (learn_items _ _ _ _ _) as [L1 t] eqn:E. apply learn_items_returns in E. intros [= <- <- <-].
  rewrite E. destruct t; cbn; by rewrite !app_nil_r.
Qed.

Lemma terminator_returns it L : plain_newline it -> is_newline (R := R) cfg alloc it || end_pass it = true ->
  pool_returns (if end_pass it then end_pass_ex ls it L else if ex_is_newline (item_ex it) then return_items [it] L else L) = pool_returns L ++ [example_counter it].
Proof.
  intros _ Ht. destruct (end_pass it); [apply end_pass_returns|]. rewrite orb_false_r in Ht. unfold is_newline, example_is_newline_not_header in Ht.
  by destruct (ex_is_newline (item_ex it)).
Qed.

#[export] Instance multi_conserves : Conserves (multi_example_handler (R := R) cfg ls alloc) counters plain_newline.
Proof.
  split.
  - intros it s L s' L' threw Hok E. cbn [on_example multi_example_handler] in E. unfold multi_on_example, try_complete_multi_ex in E.
    destruct (_ && is_save_cmd it) eqn:Esave.
    + apply andb_true_iff in Esave as [_ Es]. destruct (proj2 Hok Es) as [En Ee]. rewrite En, Ee in E.
      destruct (save_ex cfg ls it L) as [L1 t] eqn:E1. apply save_returns in E1. destruct t; injection E as <- <- <-; rewrite E1, ?app_nil_r; [done|].
      by rewrite (Permutation_app_comm _ [_]).
    + unfold complete_multi_ex in E. destruct (is_newline cfg alloc it || end_pass it) eqn:Et.
      * pose proof (fun L => terminator_returns it L Hok Et) as Hret. cbn [andb] in E. destruct s as [|i0 s0].
        -- injection E as <- <- <-. rewrite Hret, !app_nil_r. apply Permutation_app_comm.
        -- destruct (learn_seq cfg ls (i0 :: s0) L) as [[s1 L1] t] eqn:E1. apply learn_seq_returns in E1 as (Er & Ef & Et').
           destruct t; injection E as <- <- <-; [by rewrite Er|]. rewrite (Ef eq_refl) in *. cbn [counters fmap list_fmap] in *.
           rewrite !app_nil_r in *. rewrite Hret, Er. apply Permutation_app_comm.
      * cbn [andb] in E. apply orb_false_iff in Et as [Et Ee]. rewrite Ee in E. assert (ex_is_newline (item_ex it) = false) as En.
        { destruct (ex_is_newline (item_ex it)) eqn:En; [|done]. by rewrite (proj1 Hok En) in Et. }
        rewrite En in E. injection E as <- <- <-. unfold counters. rewrite fmap_app. cbn. rewrite app_assoc. apply Permutation_app_comm.
  - intros s L s' L' threw E. cbn [process_remaining multi_example_handler] in E. unfold multi_process_remaining in E.
    destruct s as [|i0 s0]; [by injection E as <- <- <-|]. apply learn_seq_returns in E as (-> & Hf & _).
    split; [done|]. intros Ht. by rewrite (Hf Ht).
Qed.
End Conservation.

Lemma done_inj {A B C D} (a a' : A) (b b' : B) (c c' : C) (d d' : D) : Done (a, b, c, d) = Done (a', b', c', d') -> a = a' /\ b = b' /\ c = c' /\ d = d'.
Proof. intros [=]. auto. Qed.

Section LoopConservation.
Context {R W I M HS : Type} `{Reader R, Writer W, StdSort} (alloc : nat -> Z).
Context (cfg : driver_config) (src : input_source I) (pooled : example) (h : handler M HS) (held : HS -> list Z) (ok : item -> Prop).
Context `{Hcons : !Conserves h held ok}.
Implicit Types (L : learning M) (p : parsing R W I) (its : list item).

(** The examples dispatched before the one that throws are not held any more, or have gone back. *)
Lemma process_returns its : forall s L s' L' threw, Forall ok its -> process_examples h its s L = (s', L', threw) ->
  exists k, (k <= length its)%nat /\ (threw = false -> k = length its) /\ (threw = true -> (k < length its)%nat) /\
    pool_returns L' ++ held s' ≡ₚ counters (take k its) ++ pool_returns L ++ held s.
Proof.
  induction its as [|it its IH]; intros s L s' L' threw Hok E; cbn [process_examples] in E.
  { injection E as <- <- <-. by exists O. }
  apply Forall_cons in Hok as [Hit Hok]. destruct (on_example h it s L) as [[s1 L1] t] eqn:E1. apply conserves_example in E1; [|done].
  destruct t.
  { injection E as <- <- <-. exists O. split; [cbn; lia|]. split; [done|]. split; [cbn; lia|]. exact E1. }
  apply IH in E as (k & Hk & Hf & Ht & Hp); [|done]. exists (S k). cbn [length take]. split; [lia|]. split; [intros Hn; by rewrite Hf|].
  split; [intros Hn; specialize (Ht Hn); lia|]. rewrite Hp, E1. unfold counters. cbn. symmetry. apply Permutation_middle.
Qed.

Lemma counters_counted c rs : counters (counted_items c rs) = batch c (length rs).
Proof.
  unfold counters, counted_items, batch. apply list_eq. intros k. rewrite list_lookup_fmap, list_lookup_imap.
  destruct (decide (k < length rs)%nat) as [Hk|Hk].
  - destruct (lookup_lt_is_Some_2 rs k Hk) as [r ->]. cbn. by rewrite lookup_seqZ_lt by lia.
  - rewrite lookup_ge_None_2 by lia. cbn. by rewrite lookup_seqZ_ge by lia.
Qed.

Lemma setup_length es : forall st rs st', setup_examples alloc (setup_cfg cfg) es st = Done (rs, st') -> length rs = length es.
Proof.
  induction es as [|e es IH]; intros st rs st' E; cbn [setup_examples] in E; [by injection E as <- <-|].
  destruct (setup_example _ _ e st) as [[r st1]| | |]; [|done..]. cbn [io_bind] in E. destruct (setup_examples _ _ es st1) as [[rs1 st2]| | |] eqn:E1; [|done..].
  injection E as <- <-. cbn. f_equal. by eapply IH.
Qed.
(** All the examples taken from the pool are held, or went back, each once. *)
Definition conserved (s : HS) L (taken : Z) : Prop := 0 <= taken /\ pool_returns L ++ held s ≡ₚ batch 0 (Z.to_nat taken).

Lemma batch_app t n : 0 <= t -> batch 0 (Z.to_nat (t + Z.of_nat n)) ≡ₚ batch t n ++ batch 0 (Z.to_nat t).
Proof.
  intros Ht. unfold batch. rewrite !Z2Nat.id by lia. rewrite seqZ_app by lia. rewrite Z.add_0_l. apply Permutation_app_comm.
Qed.

Lemma stashed_conserved s L t n : conserved s L t -> conserved s (stashed (batch t n) L) (t + Z.of_nat n).
Proof.
  intros [Ht Hp]. split; [lia|]. cbn. rewrite batch_app, <- Hp by done.
  rewrite <- app_assoc, (Permutation_app_comm (batch t n) (held s)), app_assoc. apply Permutation_app_comm.
Qed.

(** The reader takes no example from the pool but the one it is given. *)
Definition one_at_a_time : Prop := forall i e es i', reader src i = Filled e es i' -> es = [].

(** What is left of a run: every example taken is held or went back, and those dispatched in a batch of
    several before one of them threw have gone back [again]. *)
Definition settled (s : HS) L (taken : Z) (stash : bool) : Prop :=
  exists again, pool_returns L ++ held s ≡ₚ batch 0 (Z.to_nat taken) ++ again /\ again ⊆+ batch 0 (Z.to_nat taken) /\
    (stash = false \/ one_at_a_time -> again = []).

Lemma conserved_settled s L taken stash : conserved s L taken -> settled s L taken stash.
Proof. intros [_ Hp]. exists []. rewrite app_nil_r. split; [done|]. split; [apply submseteq_nil_l|done]. Qed.

(** A batch, dispatched: it is conserved, or something in it has thrown and all of it goes back. *)
Lemma dispatch_settled c its s L s' L' threw : Forall ok its -> counters its = batch c (length its) -> conserved s L c ->
  process_examples h its s L = (s', L', threw) ->
  if threw then
    exists again, pool_returns (stashed (counters its) L') ++ held s' ≡ₚ batch 0 (Z.to_nat (c + Z.of_nat (length its))) ++ again /\
      again ⊆+ batch 0 (Z.to_nat (c + Z.of_nat (length its))) /\ (length its = 1%nat -> again = [])
  else conserved s' L' (c + Z.of_nat (length its)).
Proof.
  intros Hok Hc [Hc0 Hcon] E. apply process_returns in E as (k & Hk & Hf & Ht & Hp); [|done]. destruct threw.
  - exists (counters (take k its)). split_and!.
    + cbn [stashed lock_done return_counters pool_returns]. rewrite batch_app by done. rewrite <- Hc, <- Hcon.
      rewrite <- app_assoc, (Permutation_app_comm (counters its) (held s')), app_assoc, Hp. solve_Permutation.
    + rewrite batch_app, <- Hc by done. transitivity (counters its); [|by apply submseteq_inserts_r].
      apply sublist_submseteq. unfold counters. rewrite fmap_take. apply sublist_take.
    + intros Hl. specialize (Ht eq_refl). by replace k with 0%nat by lia.
  - rewrite (Hf eq_refl), take_ge in Hp by done. split; [lia|]. rewrite Hp, batch_app, Hcon, Hc by done. done.
Qed.

Hypothesis read_ok : forall i e es i' st rs st' c, reader src i = Filled e es i' -> setup_examples alloc (setup_cfg cfg) (e :: es) st = Done (rs, st') ->
  Forall ok (counted_items c rs).
Hypothesis end_ok : forall c, ok (end_item (R := R) alloc cfg pooled c).

Lemma loop_settled fuel : forall n s L p s' L' p' stash, conserved s L (num_examples_taken p) ->
  parse_dispatch alloc cfg src pooled h fuel n s L p = Done (s', L', p', stash) -> settled s' L' (num_examples_taken p') stash.
Proof.
  induction fuel as [|fuel IH]; intros n s L p s' L' p' stash Hc E; [done|]. cbn [parse_dispatch] in E.
  destruct (parser_done L); [apply done_inj in E as (<- & <- & <- & <-); by apply conserved_settled|]. set (c := num_examples_taken p) in *.
  destruct (if _ && _ && _ then reader src (source (take_examples 1 p)) else Ended (source (take_examples 1 p))) as [e es i|i|k i] eqn:Er.
  - assert (reader src (source (take_examples 1 p)) = Filled e es i) as Ef by (by destruct (_ && _ && _)).
    destruct (setup_examples alloc (setup_cfg cfg) (e :: es) _) as [[rs st]| | |] eqn:Es; [| |done..].
    + pose proof (setup_length _ _ _ _ Es) as Hl. cbn [length] in Hl. pose proof (read_ok _ _ _ _ _ _ _ c Ef Es) as Hok.
      assert (length (counted_items c rs) = S (length es)) as Hli by (unfold counted_items; by rewrite length_imap).
      change (num_examples_taken (take_examples (length es) (set_source i (take_examples 1 p)))) with (c + Z.of_nat 1 + Z.of_nat (length es)) in E.
      destruct (process_examples h (counted_items c rs) s L) as [[s1 L1] t] eqn:E1.
      apply (dispatch_settled c) in E1; [|done|by rewrite Hli, <- Hl, counters_counted|done]. rewrite Hli in E1. destruct t.
      * apply done_inj in E as (<- & <- & <- & <-). cbn [num_examples_taken set_pstate take_examples set_source]. fold c.
        replace (c + Z.of_nat 1 + Z.of_nat (length es)) with (c + Z.of_nat (S (length es))) by lia.
        destruct E1 as (again & Hp & Hs & Hone1). exists again. split; [done|]. split; [done|]. intros [|Hone]; [done|]. apply Hone1. by rewrite (Hone _ _ _ _ Ef).
      * eapply IH; [|exact E]. cbn [num_examples_taken set_pstate take_examples set_source]. fold c.
        by replace (c + Z.of_nat 1 + Z.of_nat (length es)) with (c + Z.of_nat (S (length es))) by lia.
    + apply done_inj in E as (<- & <- & <- & <-). cbn [num_examples_taken take_examples set_source]. fold c.
      replace (c + Z.of_nat 1 + Z.of_nat (length es)) with (c + Z.of_nat (S (length es))) by lia. by apply conserved_settled, stashed_conserved.
  - destruct (reset_source src i) as [i'|].
    + destruct (process_examples h [_] s L) as [[s1 L1] t] eqn:E1. apply (dispatch_settled c) in E1; [|by repeat constructor|done|done]. cbn [length counters fmap list_fmap] in E1.
      assert (num_examples_taken (complete_pass cfg n i' (take_examples 1 p)) = c + Z.of_nat 1) as Et by (unfold complete_pass; by case_if).
      destruct t.
      * apply done_inj in E as (<- & <- & <- & <-). rewrite Et. destruct E1 as (again & Hp & Hs & Hone1). by exists again; auto.
      * eapply IH; [|exact E]. rewrite Et. by case_if.
    + apply done_inj in E as (<- & <- & <- & <-). by apply conserved_settled, (stashed_conserved s L c 1%nat).
  - apply done_inj in E as (<- & <- & <- & <-). cbn [num_examples_taken take_examples set_source]. fold c.
    replace (c + Z.of_nat 1 + Z.of_nat k) with (c + Z.of_nat (S k)) by lia. by apply conserved_settled, stashed_conserved.
Qed.

Lemma driver_settled (end_examples : M -> M) fuel s L p s' L' p' stash threw :
  num_examples_taken p = 0 -> pool_returns L = [] -> held s = [] ->
  generic_driver_onethread alloc cfg src pooled h end_examples fuel s L p = Done (s', L', p', stash, threw) ->
  settled s' L' (num_examples_taken p') stash /\ (threw = false -> held s' = []).
Proof.
  intros Ht HL Hs E. unfold generic_driver_onethread in E.
  destruct (parse_dispatch alloc cfg src pooled h fuel 0 s L p) as [[[[s1 L1] p1] t]| | |] eqn:E1; cbn [io_bind] in E; [|done..].
  apply loop_settled in E1 as (again & Hp & Hrest); [|split; [lia|by rewrite Ht, HL, Hs]].
  destruct (process_remaining h s1 L1) as [[s2 L2] t2] eqn:E2. apply conserves_remaining in E2 as [Hr Hf].
  assert (s2 = s' /\ p1 = p' /\ t = stash /\ t2 = threw /\ pool_returns L2 = pool_returns L') as (<- & <- & <- & <- & HL').
  { destruct t2; by inversion E. }
  split; [|done]. exists again. by rewrite <- HL', Hr.
Qed.
End LoopConservation.

(** ** The passes *)

Section Passes.
Context {R W I M HS : Type} `{Reader R, Writer W, StdSort} (alloc : nat -> Z).
Context (cfg : driver_config) (src : input_source I) (pooled : example) (h : handler M HS).
Implicit Types (L : learning M) (p : parsing R W I) (its : list item) (st : parser_state R W).

Lemma process_app its1 its2 s L : process_examples h (its1 ++ its2) s L =
  let '(s, L, threw) := process_examples h its1 s L in if threw : bool then (s, L, true) else process_examples h its2 s L.
Proof.
  revert s L. induction its1 as [|it its1 IH]; intros s L; [done|]. cbn. destruct (on_example h it s L) as [[s1 L1] []]; [done|apply IH].
Qed.

Lemma setup_app es1 es2 st : setup_examples alloc (setup_cfg cfg) (es1 ++ es2) st =
  (do (rs1, st) <- setup_examples alloc (setup_cfg cfg) es1 st; do (rs2, st) <- setup_examples alloc (setup_cfg cfg) es2 st; Done (rs1 ++ rs2, st)).
Proof.
  revert st. induction es1 as [|e es1 IH]; intros st; cbn [setup_examples app].
  { cbn [io_bind]. by destruct (setup_examples _ _ es2 st) as [[]| | |]. }
  destruct (setup_example _ _ e st) as [[r st1]| | |]; cbn [io_bind]; [|done..]. rewrite IH.
  destruct (setup_examples _ _ es1 st1) as [[rs1 st2]| | |]; cbn [io_bind]; [|done..]. by destruct (setup_examples _ _ es2 st2) as [[]| | |].
Qed.

Lemma counted_app c rs1 rs2 : counted_items c (rs1 ++ rs2) = counted_items c rs1 ++ counted_items (c + Z.of_nat (length rs1)) rs2.
Proof.
  unfold counted_items. rewrite imap_app. f_equal. apply imap_ext. intros k r _. cbn. f_equal. lia.
Qed.

Lemma length_counted c rs : length (counted_items c rs) = length rs.
Proof. unfold counted_items. by rewrite length_imap. Qed.

(** One round of the loop: a batch, or the end of a pass. *)
Definition reads (n : Z) p : bool := negb (do_reset_source p) && negb (n =? pass_length p) && (n <? max_examples cfg).

Lemma round_batch fuel n s L p e es i rs st s1 L1 : parser_done L = false -> reads n p = true -> reader src (source p) = Filled e es i ->
  setup_examples alloc (setup_cfg cfg) (e :: es) (pstate p) = Done (rs, st) ->
  process_examples h (counted_items (num_examples_taken p) rs) s L = (s1, L1, false) ->
  parse_dispatch alloc cfg src pooled h (S fuel) n s L p =
  parse_dispatch alloc cfg src pooled h fuel (u64 (n + Z.of_nat (length rs))) s1 L1
    (Parsing i st (do_reset_source p) (passes_complete p) (pass_length p) (num_examples_taken p + Z.of_nat (length rs))).
Proof.
  intros Hdone Hreads Hr Hs Hp. pose proof (setup_length _ _ _ _ _ _ Hs) as Hl. unfold reads in Hreads. cbn [parse_dispatch]. rewrite Hdone.
  cbn [take_examples do_reset_source pass_length source]. rewrite Hreads, Hr. cbn [pstate set_source take_examples]. rewrite Hs.
  cbn [num_examples_taken]. rewrite Hp, length_counted. cbn [length] in Hl.
  unfold set_pstate, set_source, take_examples. cbn [source pstate do_reset_source passes_complete pass_length num_examples_taken].
  by replace (num_examples_taken p + Z.of_nat 1 + Z.of_nat (length es)) with (num_examples_taken p + Z.of_nat (length rs)) by lia.
Qed.

Lemma round_end fuel n s L p i i' s1 L1 : parser_done L = false ->
  (if reads n p then reader src (source p) else Ended (source p)) = Ended i -> reset_source src i = Some i' ->
  on_example h (end_item (R := R) alloc cfg pooled (num_examples_taken p)) s L = (s1, L1, false) ->
  let p1 := complete_pass cfg n i' (take_examples 1 p) in
  parse_dispatch alloc cfg src pooled h (S fuel) n s L p =
  parse_dispatch alloc cfg src pooled h fuel 0 s1 (if (numpasses cfg <=? passes_complete p1) && (n <=? max_examples cfg) then lock_done L1 else L1) p1.
Proof.
  intros Hdone Hr Hreset Hp p1. unfold reads in Hr. cbn [parse_dispatch]. rewrite Hdone. cbn [take_examples do_reset_source pass_length source].
  rewrite Hr, Hreset. cbn [num_examples_taken process_examples]. rewrite Hp. reflexivity.
Qed.

Lemma complete_unbounded n i p : n <> pass_length p -> 0 <= passes_complete p < 2 ^ 64 - 1 ->
  complete_pass cfg n i (take_examples 1 p) =
  Parsing i (ParserState (u64 (num_setup_examples (pstate p) + 1)) 0 (output (pstate p)) (cache_temp_buffer (pstate p))) false
    (passes_complete p + 1) (pass_length p) (num_examples_taken p + 1).
Proof.
  intros Hn Hp. unfold complete_pass. cbn. rewrite (proj2 (Z.eqb_neq n _)) by done. rewrite andb_false_r. by rewrite (u64_id (passes_complete p + 1)) by lia.
Qed.

(** The reader fills these batches, then is at [i']. *)
Inductive yields : I -> list (list example) -> I -> Prop :=
| yields_nil i : yields i [] i
| yields_batch i e es i1 bs i' : reader src i = Filled e es i1 -> yields i1 bs i' -> yields i ((e :: es) :: bs) i'.

(** The passes over the input and the examples dispatched in them: each pass is read to its end, set
    up, and ended by an example of its own. *)
Inductive passes : I -> Z -> parser_state R W -> list (list (list example)) -> list item -> Prop :=
| passes_nil i c st : passes i c st [] []
| passes_cons i bs i1 i2 i3 c st rs st1 bss its :
    yields i bs i1 -> reader src i1 = Ended i2 -> reset_source src i2 = Some i3 ->
    setup_examples alloc (setup_cfg cfg) (List.concat bs) st = Done (rs, st1) ->
    passes i3 (c + Z.of_nat (length rs) + 1) (ParserState (u64 (num_setup_examples st1 + 1)) 0 (output st1) (cache_temp_buffer st1)) bss its ->
    passes i c st (bs :: bss) (counted_items c rs ++ end_item (R := R) alloc cfg pooled (c + Z.of_nat (length rs)) :: its).

(** The handler never ends the parsing. *)
Definition never_done : Prop := forall it s L, parser_done (on_example h it s L).1.2 = parser_done L.

Lemma process_not_done its : never_done -> forall s L, parser_done (process_examples h its s L).1.2 = parser_done L.
Proof.
  intros Hq. induction its as [|it its IH]; intros s L; [done|]. cbn. pose proof (Hq it s L) as Hd.
  destruct (on_example h it s L) as [[s1 L1] []]; cbn in *; [done|]. by rewrite IH.
Qed.

Lemma pass_loop bs : never_done -> forall i i' fuel n s L p rs st1 s1 L1,
  yields i bs i' -> source p = i -> do_reset_source p = false -> parser_done L = false ->
  setup_examples alloc (setup_cfg cfg) (List.concat bs) (pstate p) = Done (rs, st1) ->
  0 <= n -> n + Z.of_nat (length rs) < pass_length p -> n + Z.of_nat (length rs) < max_examples cfg -> pass_length p < 2 ^ 64 ->
  process_examples h (counted_items (num_examples_taken p) rs) s L = (s1, L1, false) ->
  parse_dispatch alloc cfg src pooled h (length bs + fuel) n s L p =
  parse_dispatch alloc cfg src pooled h fuel (n + Z.of_nat (length rs)) s1 L1
    (Parsing i' st1 false (passes_complete p) (pass_length p) (num_examples_taken p + Z.of_nat (length rs))).
Proof.
  intros Hq. induction bs as [|b bs IH]; intros i i' fuel n s L p rs st1 s1 L1 Hy Hi Hd Hdone Hs Hn Hpl Hme H64 Hp.
  { inversion Hy; subst. cbn in Hs. injection Hs as <- <-. cbn in Hp. injection Hp as <- <-. cbn. rewrite !Z.add_0_r, <- Hd. by destruct p. }
  inversion Hy as [|? e es i1 ? ? Hr Hy']; subst. cbn [List.concat] in Hs. rewrite setup_app in Hs.
  destruct (setup_examples alloc (setup_cfg cfg) (e :: es) (pstate p)) as [[rs1 st2]| | |] eqn:Es; cbn [io_bind] in Hs; [|done..].
  destruct (setup_examples alloc (setup_cfg cfg) (List.concat bs) st2) as [[rs2 st3]| | |] eqn:Es2; cbn [io_bind] in Hs; [|done..]. injection Hs as <- <-.
  pose proof (setup_length _ _ _ _ _ _ Es) as Hl. rewrite length_app in *. rewrite counted_app, process_app in Hp.
  pose proof (process_not_done (counted_items (num_examples_taken p) rs1) Hq s L) as Hnd.
  destruct (process_examples h (counted_items (num_examples_taken p) rs1) s L) as [[s2 L2] []] eqn:E1; [done|]. cbn in Hnd.
  cbn [length Nat.add]. erewrite round_batch; [|done| |exact Hr|exact Es|exact E1].
  2: { unfold reads. rewrite Hd, (proj2 (Z.eqb_neq n _)), (proj2 (Z.ltb_lt n _)) by lia. done. }
  rewrite u64_id by lia. rewrite (IH i1 i' fuel _ s2 L2 _ rs2 st3 s1 L1); try done.
  - cbn [passes_complete pass_length num_examples_taken]. rewrite !Nat2Z.inj_add, !Z.add_assoc. done.
  - congruence.
  - lia.
  - cbn. lia.
  - lia.
Qed.
(** One round per batch and one per end of a pass. *)
Definition loop_fuel (bss : list (list (list example))) : nat := S (foldr (fun bs n => length bs + S n)%nat 0%nat bss).

Definition fits (len most : Z) (bs : list (list example)) : Prop := Z.of_nat (length (List.concat bs)) < len /\ Z.of_nat (length (List.concat bs)) < most.

Lemma passes_loop i c st bss its : never_done -> passes i c st bss its -> forall s L p s' L',
  source p = i -> num_examples_taken p = c -> pstate p = st -> do_reset_source p = false -> parser_done L = false ->
  0 <= passes_complete p -> passes_complete p + Z.of_nat (length bss) = numpasses cfg -> numpasses cfg < 2 ^ 64 ->
  pass_length p < 2 ^ 64 -> Forall (fits (pass_length p) (max_examples cfg)) bss ->
  process_examples h its s L = (s', L', false) -> bss <> [] ->
  exists p', parse_dispatch alloc cfg src pooled h (loop_fuel bss) 0 s L p = Done (s', lock_done L', p', false) /\
    num_examples_taken p' = c + Z.of_nat (length its) /\ passes_complete p' = numpasses cfg.
Proof.
  intros Hq Hpass. induction Hpass as [|i bs i1 i2 i3 c st rs st1 bss its Hy Hend Hreset Hset Hpass IH];
    intros s L p s' L' Ei Ec Est Hd Hdone Hpc0 Hpc Hnp Hpl Hfit Hp Hne; [done|].
  cbn [length] in Hpc. apply Forall_cons in Hfit as [[Hf1 Hf2] Hfit]. pose proof (setup_length _ _ _ _ _ _ Hset) as Hl. rewrite process_app in Hp.
  pose proof (process_not_done (counted_items c rs) Hq s L) as Hnd.
  destruct (process_examples h (counted_items c rs) s L) as [[s1 L1] []] eqn:E1; [done|]. cbn in Hnd. cbn [process_examples] in Hp.
  pose proof (Hq (end_item (R := R) alloc cfg pooled (c + Z.of_nat (length rs))) s1 L1) as Hnd2.
  destruct (on_example h (end_item alloc cfg pooled (c + Z.of_nat (length rs))) s1 L1) as [[s2 L2] []] eqn:E2; [done|]. cbn in Hnd2.
  unfold loop_fuel. cbn [foldr]. rewrite <- Nat.add_succ_r.
  rewrite (pass_loop bs Hq i i1 _ 0 s L p rs st1 s1 L1) by (done || congruence || lia).
  rewrite Z.add_0_l, Ec. erewrite round_end; [|congruence| |exact Hreset|exact E2].
  2: { unfold reads. cbn [do_reset_source pass_length source]. rewrite (proj2 (Z.eqb_neq _ (pass_length p))), (proj2 (Z.ltb_lt _ (max_examples cfg))) by lia. exact Hend. }
  rewrite complete_unbounded by (cbn; lia). cbn [pstate passes_complete pass_length num_examples_taken].
  rewrite (proj2 (Z.leb_le _ (max_examples cfg))) by lia. rewrite andb_true_r.
  assert (Z.of_nat (length (counted_items c rs ++ end_item (R := R) alloc cfg pooled (c + Z.of_nat (length rs)) :: its)) =
    Z.of_nat (length rs) + 1 + Z.of_nat (length its)) as Hlen.
  { rewrite length_app. unfold counted_items. rewrite length_imap. cbn [length]. lia. }
  rewrite Hlen. destruct bss as [|bs2 bss].
  - inversion Hpass; subst. cbn in Hp. injection Hp as <- <-. rewrite (proj2 (Z.leb_le _ _)) by (cbn in Hpc; lia). cbn.
    eexists. split; [reflexivity|]. cbn. cbn in Hpc. lia.
  - rewrite (proj2 (Z.leb_gt _ _)) by (cbn [length] in Hpc; lia).
    destruct (IH s2 L2 (Parsing i3 (ParserState (u64 (num_setup_examples st1 + 1)) 0 (output st1) (cache_temp_buffer st1)) false
      (passes_complete p + 1) (pass_length p) (c + Z.of_nat (length rs) + 1)) s' L') as (p' & E & Et & Epc); try done.
    + congruence.
    + cbn. lia.
    + cbn [passes_complete]. lia.
    + exists p'. split; [exact E|]. split; [lia|done].
Qed.
End Passes.

(** The examples dispatched when every batch oversteps [max_examples]: a pass is ended after each. *)
Section Overstep.
Context {R W I M HS : Type} `{Reader R, Writer W, StdSort} (alloc : nat -> Z).
Context (cfg : driver_config) (src : input_source I) (pooled : example) (h : handler M HS).
Implicit Types (L : learning M) (p : parsing R W I) (its : list item) (st : parser_state R W).

Definition pass_ended st : parser_state R W := ParserState (u64 (num_setup_examples st + 1)) 0 (output st) (cache_temp_buffer st).

Inductive overstepped : I -> Z -> parser_state R W -> list (list example) -> list item -> Prop :=
| overstepped_end i i1 c st : reader src i = Ended i1 -> overstepped i c st [] [end_item (R := R) alloc cfg pooled c]
| overstepped_batch i e es i1 c st rs st1 bs its :
    reader src i = Filled e es i1 -> setup_examples alloc (setup_cfg cfg) (e :: es) st = Done (rs, st1) -> max_examples cfg < Z.of_nat (length (e :: es)) ->
    overstepped i1 (c + Z.of_nat (length rs) + 1) (pass_ended st1) bs its ->
    overstepped i c st ((e :: es) :: bs) (counted_items c rs ++ end_item (R := R) alloc cfg pooled (c + Z.of_nat (length rs)) :: its).

Hypothesis not_reset : forall i, reset_source src i = Some i.
Hypothesis Hq : never_done h.
Hypothesis Hmax : 0 < max_examples cfg.

Lemma overstepped_loop i c st bs its : overstepped i c st bs its -> forall s L p s' L',
  source p = i -> num_examples_taken p = c -> pstate p = st -> do_reset_source p = false -> parser_done L = false ->
  pass_length p = 2 ^ 64 - 1 -> Forall (fun b => Z.of_nat (length b) < 2 ^ 64 - 1) bs ->
  0 <= passes_complete p -> passes_complete p + Z.of_nat (length bs) + 1 < 2 ^ 64 -> numpasses cfg <= passes_complete p + 1 ->
  process_examples h its s L = (s', L', false) ->
  exists p', parse_dispatch alloc cfg src pooled h (2 * length bs + 2) 0 s L p = Done (s', lock_done L', p', false) /\
    passes_complete p' = passes_complete p + Z.of_nat (length bs) + 1.
Proof.
  induction 1 as [i i1 c st Hr|i e es i1 c st rs st1 bs its Hr Hset Hlong _ IH]; intros s L p s' L' Ei Ec Est Hd Hdone Hpl Hb Hpc0 Hpc Hnp Hp.
  - cbn [process_examples] in Hp. destruct (on_example h _ s L) as [[s1 L1] []] eqn:E1; [done|]. injection Hp as <- <-. rewrite <- Ec in E1.
    replace (2 * length (@nil (list example)) + 2)%nat with 2%nat by done. erewrite round_end; [|done| |apply not_reset|exact E1].
    2: { unfold reads. rewrite Hd, Hpl, Ei, (proj2 (Z.ltb_lt 0 _)) by done. exact Hr. }
    rewrite complete_unbounded by (rewrite ?Hpl; cbn in Hpc; lia). cbn [passes_complete].
    rewrite (proj2 (Z.leb_le _ _)), (proj2 (Z.leb_le 0 _)) by lia. eexists. split; [reflexivity|]. cbn. lia.
  - apply Forall_cons in Hb as [Hb1 Hb]. pose proof (setup_length _ _ _ _ _ _ Hset) as Hl. rewrite process_app in Hp. cbn [length] in Hpc.
    pose proof (process_not_done h (counted_items c rs) Hq s L) as Hnd.
    destruct (process_examples h (counted_items c rs) s L) as [[s1 L1] []] eqn:E1; [done|]. cbn [fst snd] in Hnd. cbn [process_examples] in Hp.
    pose proof (Hq (end_item (R := R) alloc cfg pooled (c + Z.of_nat (length rs))) s1 L1) as Hnd2.
    destruct (on_example h (end_item alloc cfg pooled (c + Z.of_nat (length rs))) s1 L1) as [[s2 L2] []] eqn:E2; [done|]. cbn [fst snd] in Hnd2.
    replace (2 * length ((e :: es) :: bs) + 2)%nat with (S (S (2 * length bs + 2))) by (cbn [length]; lia). subst c i st.
    erewrite round_batch; [|done| |exact Hr|exact Hset|exact E1].
    2: { unfold reads. by rewrite Hd, Hpl, (proj2 (Z.ltb_lt 0 _)) by done. }
    rewrite Z.add_0_l, u64_id by lia. erewrite round_end; [|congruence| |apply not_reset|exact E2].
    2: { unfold reads. cbn [do_reset_source pass_length source]. rewrite (proj2 (Z.ltb_ge _ (max_examples cfg))) by lia. by rewrite andb_false_r. }
    rewrite complete_unbounded by (cbn [pass_length passes_complete]; lia). cbn [pstate passes_complete pass_length num_examples_taken source].
    rewrite (proj2 (Z.leb_gt _ (max_examples cfg))) by lia. rewrite andb_false_r. cbn [negb andb].
    destruct (IH s2 L2 (Parsing i1 (pass_ended st1) false (passes_complete p + 1) (pass_length p) (num_examples_taken p + Z.of_nat (length rs) + 1)) s' L') as (p' & E & Epc); try done.
    + congruence.
    + cbn. lia.
    + cbn [passes_complete]. lia.
    + cbn [passes_complete]. lia.
    + exists p'. split; [exact E|]. rewrite Epc. cbn [passes_complete length]. lia.
Qed.
End Overstep.

(** Learners that never end the parsing leave it to the input. *)
Section Quiet.
Context {M X P : Type} (cfg : driver_config) (ls : learner_stack M X P).
Hypothesis Hquiet : forall m, snd (l_end_pass ls m) = false.
Implicit Types (L : learning M) (it : item).

Lemma end_pass_not_done it L : parser_done (end_pass_ex ls it L) = parser_done L.
Proof. unfold end_pass_ex. pose proof (Hquiet (model (next_pass L))) as Hq. destruct (l_end_pass ls _) as [m early]. cbn in Hq. by rewrite Hq. Qed.

Lemma learn_items_not_done test its L : parser_done (learn_items cfg ls test its L).1 = parser_done L.
Proof. unfold learn_items. by destruct (workspace_learn _ _ _ _ _) as [[m xs] []]. Qed.

Lemma save_not_done it L : parser_done (save_ex cfg ls it L).1 = parser_done L.
Proof. unfold save_ex. by destruct (l_save _ _ _) as [m []]. Qed.

Lemma single_never_done : never_done (single_example_handler cfg ls).
Proof.
  intros it [] L. cbn. unfold single_on_example, learn_ex. pose proof (learn_items_not_done (test_only (rdy it)) [it] L) as Hl.
  pose proof (save_not_done it L) as Hs. destruct (1 <? _)%nat; [by destruct (learn_items _ _ _ _ _)|].
  destruct (end_pass it); [apply end_pass_not_done|]. destruct (is_save_cmd it); [by destruct (save_ex _ _ _ _)|].
  destruct (ex_is_newline _); [done|by destruct (learn_items _ _ _ _ _)].
Qed.

Context {R W : Type} `{Reader R, Writer W} (alloc : nat -> Z).

Lemma multi_never_done : never_done (multi_example_handler (R := R) cfg ls alloc).
Proof.
  intros it s L. cbn. unfold multi_on_example, try_complete_multi_ex.
  assert (forall L0, parser_done L0 = parser_done L ->
    parser_done (if end_pass it then end_pass_ex ls it L0 else if ex_is_newline (item_ex it) then return_items [it] L0 else L0) = parser_done L) as Hend.
  { intros L0 E. destruct (end_pass it); [by rewrite end_pass_not_done|by case_if]. }
  destruct (_ && is_save_cmd it).
  - pose proof (save_not_done it L) as Hs. destruct (save_ex _ _ it L) as [L1 []]; [done|by apply Hend].
  - destruct (complete_multi_ex cfg alloc it s) as [s1 []]; [|by apply Hend]. unfold learn_seq, learn_multi_ex.
    pose proof (learn_items_not_done false s1 L) as Hl. destruct (learn_items _ _ _ _ _) as [L1 []]; [done|by apply Hend].
Qed.

(** ** Groups *)

(** An example of a group, and one that ends a group. *)
Definition member it : Prop :=
  is_newline (R := R) cfg alloc it || end_pass it = false /\ ex_is_newline (item_ex it) = false /\ (length (ex_indices (item_ex it)) <=? 1)%nat && is_save_cmd it = false.
Definition terminator it : Prop :=
  is_newline (R := R) cfg alloc it || end_pass it = true /\ (length (ex_indices (item_ex it)) <=? 1)%nat && is_save_cmd it = false.

Definition finish_terminator it L : learning M := if end_pass it then end_pass_ex ls it L else return_items [it] L.

(** What is done with the groups of a stream: each that is not empty is learned, then what ends it is
    dealt with. *)
Fixpoint learn_blocks (blocks : list (list item * item)) L : learning M * bool :=
  match blocks with
  | [] => (L, false)
  | (g, t) :: blocks =>
      let '(L, threw) := match g with [] => (L, false) | _ => learn_multi_ex cfg ls g L end in
      if threw : bool then (L, true) else learn_blocks blocks (finish_terminator t L)
  end.

Lemma members_held its : Forall member its -> forall s L, process_examples (multi_example_handler (R := R) cfg ls alloc) its s L = (s ++ its, L, false).
Proof.
  induction 1 as [|it its (Ht & Hn & Hs) _ IH]; intros s L; cbn; [by rewrite app_nil_r|].
  unfold multi_on_example, try_complete_multi_ex, complete_multi_ex. rewrite Hs, Ht. cbn. apply orb_false_iff in Ht as [_ He]. rewrite He, Hn, IH.
  by rewrite <- app_assoc.
Qed.

Lemma terminator_handled it g L : terminator it -> on_example (multi_example_handler (R := R) cfg ls alloc) it g L =
  let '(L, threw) := match g with [] => (L, false) | _ => learn_multi_ex cfg ls g L end in
  if threw : bool then (g, L, true) else ([], finish_terminator it L, false).
Proof.
  intros [Ht Hs]. cbn. unfold multi_on_example, try_complete_multi_ex, complete_multi_ex. rewrite Hs, Ht. cbn [andb].
  assert (forall L0, (if end_pass it then end_pass_ex ls it L0 else if ex_is_newline (item_ex it) then return_items [it] L0 else L0) = finish_terminator it L0) as Hf.
  { intros L0. unfold finish_terminator. destruct (end_pass it); [done|]. rewrite orb_false_r in Ht. unfold is_newline, example_is_newline_not_header in Ht.
    by destruct (ex_is_newline _). }
  destruct g as [|i0 g]; [by rewrite Hf|]. unfold learn_seq. destruct (learn_multi_ex cfg ls (i0 :: g) L) as [L1 []]; [done|by rewrite Hf].
Qed.

Lemma blocks_handled blocks rest : Forall (fun gt => Forall member gt.1 /\ terminator gt.2) blocks -> Forall member rest -> forall L,
  let '(s, L', threw) := process_examples (multi_example_handler (R := R) cfg ls alloc) (List.concat ((fun gt => gt.1 ++ [gt.2]) <$> blocks) ++ rest) [] L in
  (L', threw) = learn_blocks blocks L /\ (threw = false -> s = rest).
Proof.
  intros Hb Hrest. induction Hb as [|[g t] blocks [Hg Ht] Hb IH]; intros L.
  { cbn. by rewrite members_held. }
  cbn [fst snd] in *. cbn [fmap list_fmap List.concat fst snd]. rewrite <- !app_assoc, process_app, members_held by done. cbn [app process_examples].
  rewrite terminator_handled by done. cbn [learn_blocks].
  destruct (match g with [] => (L, false) | _ :: _ => learn_multi_ex cfg ls g L end) as [L1 []]; [done|]. apply IH.
Qed.
End Quiet.

(** * Theorems *)

Lemma learn_items_counters {M X P} cfg (ls : learner_stack M X P) test its L L' : learn_items cfg ls test its L = (L', false) -> pool_returns L' = pool_returns L ++ counters its.
Proof. apply learn_items_returns. Qed.

Lemma blocks_returned {M X P} cfg (ls : learner_stack M X P) blocks : forall L L', learn_blocks cfg ls blocks L = (L', false) ->
  pool_returns L' = pool_returns L ++ counters (List.concat ((fun gt => gt.1 ++ [gt.2]) <$> blocks)).
Proof.
  induction blocks as [|[g t] blocks IH]; intros L L'; cbn [learn_blocks]; [intros [= <-]; cbn; by rewrite app_nil_r|].
  destruct (match g with [] => (L, false) | _ => learn_multi_ex cfg ls g L end) as [L1 []] eqn:E1; [done|]. intros E. rewrite (IH _ _ E).
  assert (pool_returns (finish_terminator ls t L1) = pool_returns L1 ++ [example_counter t]) as -> by (unfold finish_terminator; case_if; [apply end_pass_returns|done]).
  assert (pool_returns L1 = pool_returns L ++ counters g) as ->.
  { destruct g as [|i0 g]; [injection E1 as <-; by rewrite app_nil_r|by eapply learn_items_counters]. }
  cbn [fmap list_fmap List.concat fst snd]. unfold counters. rewrite !fmap_app. by rewrite <- !app_assoc.
Qed.

(** C5: the driver runs the number of passes it is asked for over an input, however the reader cuts it
    into batches, and ends: when the examples of the passes are groups, each ended by an empty line or
    by the end of its pass, exactly the groups that are not empty are learned, in order and each as
    a whole, passes are ended where they end, and every example taken from the pool has gone back,
    in order. *)
Theorem driver_learns_groups {R W I M X P : Type} `{Reader R, Writer W, StdSort} (alloc : nat -> Z) (cfg : driver_config) (src : input_source I)
    (pooled : example) (ls : learner_stack M X P) (L L' : learning M) (p : parsing R W I) (bss : list (list (list example)))
    (its : list item) (blocks : list (list item * item)) :
  passes alloc cfg src pooled (source p) (num_examples_taken p) (pstate p) bss its ->
  Z.of_nat (length bss) = numpasses cfg -> bss <> [] -> numpasses cfg < 2 ^ 64 -> pass_length p < 2 ^ 64 ->
  Forall (fits (pass_length p) (max_examples cfg)) bss ->
  passes_complete p = 0 -> do_reset_source p = false -> parser_done L = false -> (forall m, snd (l_end_pass ls m) = false) ->
  its = List.concat ((fun gt => gt.1 ++ [gt.2]) <$> blocks) ->
  Forall (fun gt => Forall (member (R := R) cfg alloc) gt.1 /\ terminator (R := R) cfg alloc gt.2) blocks ->
  learn_blocks cfg ls blocks L = (L', false) ->
  exists p', generic_driver_onethread alloc cfg src pooled (multi_example_handler (R := R) cfg ls alloc) (l_end_examples ls) (loop_fuel bss) [] L p =
      Done ([], set_model (l_end_examples ls (model L')) (lock_done L'), p', false, false) /\
    passes_complete p' = numpasses cfg /\ num_examples_taken p' = num_examples_taken p + Z.of_nat (length its) /\
    pool_returns L' = pool_returns L ++ counters its.
Proof.
  intros Hpass Hn Hne Hnp Hpl Hfit Hpc Hd Hdone Hquiet Hits Hb Hl.
  pose proof (blocks_handled cfg ls alloc blocks [] Hb (Forall_nil_2 _) L) as Hh. rewrite app_nil_r, <- Hits in Hh.
  destruct (process_examples _ its [] L) as [[s' L1] threw] eqn:Ep. destruct Hh as [Hh Hs]. rewrite Hl in Hh. injection Hh as -> ->. specialize (Hs eq_refl) as ->.
  destruct (passes_loop alloc cfg src pooled (multi_example_handler (R := R) cfg ls alloc) _ _ _ _ _ (multi_never_done cfg ls Hquiet alloc) Hpass [] L p [] L')
    as (p' & E & Et & Epc); try done; [lia|lia|].
  exists p'. split; [|split; [done|split; [done|]]].
  - unfold generic_driver_onethread. rewrite E. reflexivity.
  - rewrite Hits. by eapply blocks_returned.
Qed.


(** C37: when every batch of the reader holds more examples than [max_examples] allows, the limit is not
    kept: after each batch a pass is ended, but since its examples are more than the limit the loop
    goes on, and an input that is not reset is read and dispatched to its end, in as many passes as it
    has batches, and one, though a single pass was asked for. *)
Theorem driver_oversteps_limit {R W I M HS : Type} `{Reader R, Writer W, StdSort} (alloc : nat -> Z) (cfg : driver_config) (src : input_source I)
    (pooled : example) (h : handler M HS) (s s' : HS) (L L' : learning M) (p : parsing R W I) (bs : list (list example)) (its : list item) :
  numpasses cfg = 1 -> 0 < max_examples cfg -> pass_length p = 2 ^ 64 - 1 -> (forall i, reset_source src i = Some i) ->
  overstepped alloc cfg src pooled (source p) (num_examples_taken p) (pstate p) bs its ->
  Forall (fun b => Z.of_nat (length b) < 2 ^ 64 - 1) bs -> Z.of_nat (length bs) < 2 ^ 64 - 1 ->
  never_done h -> parser_done L = false -> do_reset_source p = false -> passes_complete p = 0 ->
  process_examples h its s L = (s', L', false) ->
  exists fuel p', parse_dispatch alloc cfg src pooled h fuel 0 s L p = Done (s', lock_done L', p', false) /\
    passes_complete p' = Z.of_nat (length bs) + 1.
Proof.
  intros Hn Hmax Hpl Hnr Ho Hb Hlen Hq Hdone Hd Hpc Hp. exists (2 * length bs + 2)%nat.
  destruct (overstepped_loop alloc cfg src pooled h Hnr Hq Hmax _ _ _ _ _ Ho s L p s' L') as (p' & E & Epc); try done; [lia..|].
  exists p'. split; [done|lia].
Qed.

(** When learning from a group throws and the whole group came in one batch, its examples go back
    to the pool while the handler still holds them, to learn from them once more at the end. *)
Theorem exception_returns_held {R W I M X P : Type} `{Reader R, Writer W, StdSort} (alloc : nat -> Z) (cfg : driver_config) (src : input_source I)
    (pooled : example) (ls : learner_stack M X P) (fuel : nat) (L L1 : learning M) (p : parsing R W I)
    (e : example) (es : list example) (i : I) (rs : list ready) (t : ready) (st : parser_state R W) :
  let c := num_examples_taken p in
  let g := counted_items c rs in
  parser_done L = false -> reads cfg 0 p = true -> reader src (source p) = Filled e es i ->
  setup_examples alloc (setup_cfg cfg) (e :: es) (pstate p) = Done (rs ++ [t], st) ->
  rs <> [] -> Forall (member (R := R) cfg alloc) g -> terminator (R := R) cfg alloc (Item (c + Z.of_nat (length rs)) false t) ->
  learn_multi_ex cfg ls g L = (L1, true) ->
  exists L' p', parse_dispatch alloc cfg src pooled (multi_example_handler (R := R) cfg ls alloc) (S fuel) 0 [] L p = Done (g, L', p', true) /\
    forall x, x ∈ counters g -> x ∈ pool_returns L'.
Proof.
  intros c g Hdone Hreads Hr Hs Hne Hg Ht Hl. unfold reads in Hreads. cbn [parse_dispatch]. rewrite Hdone.
  cbn [take_examples do_reset_source pass_length source]. rewrite Hreads, Hr. cbn [pstate set_source take_examples]. rewrite Hs.
  cbn [num_examples_taken]. fold c. rewrite counted_app. fold g. rewrite process_app, members_held by done. cbn [app counted_items imap process_examples].
  rewrite Z.add_0_r, terminator_handled by done.
  assert (g <> []) as Hg0 by (intros E; apply (f_equal length) in E; unfold g in E; rewrite length_counted in E; by destruct rs).
  destruct g as [|i0 g']; [done|]. rewrite Hl. eexists _, _. split; [reflexivity|]. intros x Hx. cbn [stashed lock_done return_counters pool_returns].
  unfold counters in *. rewrite fmap_app. apply elem_of_app. right. apply elem_of_app. by left.
Qed.

(** *** Witnesses *)

Definition plain_setup : setup_config :=
  SetupConfig false false false false SIMPLE 10 0 true false (fun _ => false) None false false false (fun _ => 0) 1 0 (2 ^ 18 - 1) false.
Definition plain_driver (passes limit : Z) : driver_config := DriverConfig passes limit true (str "model") plain_setup.

Definition sample_labels (y : f32) : polylabel := set_simple (SimpleLabel y) ex_poly.
(** An example with two namespaces, and an empty line. *)
Definition group_line : example := Example_ (sample_labels f32_one) ex_rf [] false [Byte.x61; Byte.x62] (fun _ => fs_empty) false.
Definition empty_line : example := Example_ (sample_labels FLT_MAX) ex_rf [] true [] (fun _ => fs_empty) false.

(** An input that is a list of batches, read again after a reset. *)
Definition list_source (all : list (list example)) : input_source (list (list example)) := {|
  reader i := match i with (e :: es) :: i => Filled e es i | _ => Ended i end;
  reset_source i := Some all
|}.
(** Learners that note the sizes of the groups they learn from, and throw from groups of [bad]. *)
Definition noting (bad : nat) : learner_stack (list nat) ready unit := {|
  import r := r; get_pred _ := tt; set_pred _ r := r; fresh_pred := tt; learn_returns_prediction := true;
  l_predict m xs := (m, xs, false); l_learn m xs := if (length xs =? bad)%nat then (m, xs, true) else (m ++ [length xs], xs, false);
  l_account m xs := m; l_end_pass m := (m ++ [0%nat], false); l_end_examples m := m; l_save name m := (m, false)
|}.
Definition start : learning (list nat) := Learning [] 0 false false [].
Definition start_at (i : list (list example)) : parsing buffer_view vector_writer (list (list example)) :=
  Parsing i sample_state false 0 (2 ^ 64 - 1) 0.
Definition sample_batches : list (list example) := [[group_line]; [group_line]; [empty_line]; [group_line]].

Definition ready_of (e : example) : ready :=
  match setup_example (H1 := std_sort_stable) (fun _ => 0) plain_setup e sample_state with Done (r, _) => r | _ => blank_ready e end.
Definition sample_item (c : Z) (e : example) : item := Item c false (ready_of e).
Definition sample_end (c : Z) : item := end_item (R := buffer_view) (fun _ => 0) (plain_driver 2 100) group_line c.
Definition sample_pass (c : Z) : list (list item * item) :=
  [([sample_item c group_line; sample_item (c + 1) group_line], sample_item (c + 2) empty_line); ([sample_item (c + 3) group_line], sample_end (c + 4))].
Definition sample_blocks : list (list item * item) := sample_pass 0 ++ sample_pass 5.

Lemma sample_yields : yields (list_source sample_batches) sample_batches sample_batches [].
Proof. repeat (eapply yields_batch; [reflexivity|]). apply yields_nil. Qed.

Lemma sample_passes : passes (H1 := std_sort_stable) (fun _ => 0) (plain_driver 2 100) (list_source sample_batches) group_line sample_batches 0 sample_state
  [sample_batches; sample_batches] (List.concat ((fun gt => gt.1 ++ [gt.2]) <$> sample_blocks)).
Proof.
  refine (eq_rect _ (passes _ _ _ _ _ _ _ _) _ _ _).
  - eapply passes_cons; [exact sample_yields|reflexivity|reflexivity|vm_compute; reflexivity|].
    eapply passes_cons; [exact sample_yields|reflexivity|reflexivity|vm_compute; reflexivity|apply passes_nil].
  - vm_compute. reflexivity.
Qed.

#[local] Instance member_dec {R W} `{Reader R, Writer W} cfg alloc it : Decision (member (R := R) cfg alloc it).
Proof. unfold member. apply _. Defined.
#[local] Instance terminator_dec {R W} `{Reader R, Writer W} cfg alloc it : Decision (terminator (R := R) cfg alloc it).
Proof. unfold terminator. apply _. Defined.

Lemma driver_learns_groups_witness :
  exists p' L', generic_driver_onethread (H1 := std_sort_stable) (fun _ => 0) (plain_driver 2 100) (list_source sample_batches) group_line
      (multi_example_handler (R := buffer_view) (plain_driver 2 100) (noting 9) (fun _ => 0)) (l_end_examples (noting 9)) 11 [] start (start_at sample_batches) =
      Done ([], L', p', false, false) /\
    model L' = [2; 1; 0; 2; 1; 0]%nat /\ pool_returns L' = seqZ 0 10.
Proof.
  destruct (driver_learns_groups (H1 := std_sort_stable) (fun _ => 0) (plain_driver 2 100) (list_source sample_batches) group_line (noting 9) start
    (Learning [2; 1; 0; 2; 1; 0]%nat 2 false false (seqZ 0 10)) (start_at sample_batches) [sample_batches; sample_batches]
    (List.concat ((fun gt => gt.1 ++ [gt.2]) <$> sample_blocks)) sample_blocks) as (p' & E & _).
  - exact sample_passes.
  - reflexivity.
  - discriminate.
  - reflexivity.
  - reflexivity.
  - repeat constructor.
  - reflexivity.
  - reflexivity.
  - reflexivity.
  - reflexivity.
  - reflexivity.
  - apply (bool_decide_unpack _). vm_compute. exact I.
  - vm_compute. reflexivity.
  - exists p'. eexists. split; [exact E|]. split; reflexivity.
Defined.

(** An input of lines: [true] for an example, [false] for an empty line. *)
Definition line_source (all : list bool) : input_source (list bool) := {|
  reader i := match i with b :: i => Filled (if b : bool then group_line else empty_line) [] i | [] => Ended [] end;
  reset_source _ := Some all
|}.

Lemma line_setup (b : bool) (st : parser_state buffer_view vector_writer) :
  exists r st', setup_examples (H1 := std_sort_stable) (fun _ => 0) plain_setup [if b then group_line else empty_line] st = Done ([r], st') /\
    forall c, plain_newline (R := buffer_view) (plain_driver 1 100) (fun _ => 0) (Item c false r).
Proof.
  destruct b; eexists _, _; (split; [cbn -[u32 u64]; reflexivity|]); intros c; (split; [|by vm_compute]).
  - by vm_compute.
  - by vm_compute.
Qed.


Lemma driver_oversteps_limit_witness :
  exists fuel L' p', parse_dispatch (H1 := std_sort_stable) (fun _ => 0) (plain_driver 1 1) {| reader := reader (list_source []); reset_source := Some |} group_line
      (single_example_handler (plain_driver 1 1) (noting 9)) fuel 0 tt start (start_at [[group_line; group_line]; [group_line; group_line; group_line]]) = Done (tt, L', p', false) /\
    model L' = [1; 1; 0; 1; 1; 1; 0; 0]%nat /\ passes_complete p' = 3.
Proof.
  destruct (driver_oversteps_limit (H1 := std_sort_stable) (fun _ => 0) (plain_driver 1 1) {| reader := reader (list_source []); reset_source := Some |} group_line
    (single_example_handler (plain_driver 1 1) (noting 9)) tt tt start (Learning [1; 1; 0; 1; 1; 1; 0; 0]%nat 3 false false (seqZ 0 8))
    (start_at [[group_line; group_line]; [group_line; group_line; group_line]]) [[group_line; group_line]; [group_line; group_line; group_line]]
    ([sample_item 0 group_line; sample_item 1 group_line; sample_end 2; sample_item 3 group_line; sample_item 4 group_line; sample_item 5 group_line; sample_end 6; sample_end 7]))
    as (fuel & p' & E & Epc).
  - reflexivity.
  - reflexivity.
  - reflexivity.
  - reflexivity.
  - refine (eq_rect _ (overstepped _ _ _ _ _ _ _ _) _ _ _).
    + eapply overstepped_batch; [reflexivity|vm_compute; reflexivity|reflexivity|].
      eapply overstepped_batch; [reflexivity|vm_compute; reflexivity|reflexivity|]. eapply overstepped_end. reflexivity.
    + vm_compute. reflexivity.
  - repeat constructor.
  - reflexivity.
  - by apply single_never_done.
  - reflexivity.
  - reflexivity.
  - reflexivity.
  - vm_compute. reflexivity.
  - exists fuel, (lock_done (Learning [1; 1; 0; 1; 1; 1; 0; 0]%nat 3 false false (seqZ 0 8))), p'. split; [exact E|]. split; [reflexivity|exact Epc].
Defined.

Lemma exception_returns_held_witness :
  exists L' p', parse_dispatch (H1 := std_sort_stable) (fun _ => 0) (plain_driver 1 100) (list_source []) group_line
      (multi_example_handler (R := buffer_view) (plain_driver 1 100) (noting 2) (fun _ => 0)) 2 0 [] start (start_at [[group_line; group_line; empty_line]]) =
      Done ([sample_item 0 group_line; sample_item 1 group_line], L', p', true) /\ 0 ∈ pool_returns L' /\ 1 ∈ pool_returns L'.
Proof.
  destruct (exception_returns_held (H1 := std_sort_stable) (fun _ => 0) (plain_driver 1 100) (list_source []) group_line (noting 2) 1 start start
    (start_at [[group_line; group_line; empty_line]]) group_line [group_line; empty_line] [] [ready_of group_line; ready_of group_line] (ready_of empty_line)
    (ParserState 3 5 (TextParser.sample_input []) (TextParser.sample_input []))) as (L' & p' & E & Hin).
  - reflexivity.
  - reflexivity.
  - reflexivity.
  - vm_compute. reflexivity.
  - discriminate.
  - apply (bool_decide_unpack _). vm_compute. exact I.
  - by vm_compute.
  - reflexivity.
  - exists L', p'. split; [exact E|]. split; apply Hin; cbn; rewrite !elem_of_cons; auto.
Defined.
