(* ===== verification/Oaa.v ===== *)
(** * One against all ([core/src/reductions/oaa.cc])

    A label out of [k] by [k] binary models: prediction takes the model with the largest score, learning
    tells each model whether the label is its own; or, when negatives are subsampled, the model of the
    label and some of the others, in the order of a random permutation. Labels count from 0 or from 1,
    which the first labels can settle. *)

From Stdlib Require Import Reals Lra.
From Stdlib Require Import QArith.Qround.
From S2P Require Import Prelude.
From S2P Require Import Explore.
From S2P Require Import Losses.
From S2P Require Import Learner.
#[local] Open Scope Z_scope.

(** [subsample_order] is allocated when negatives are subsampled only. *)
Record oaa {F : Type} := Oaa { oaa_k : Z; oaa_pred : list F; num_subsample : Z; subsample_order : list Z; subsample_id : nat; indexing : Z }.
Arguments oaa : clear implicits.

Section Oaa.
Context {F X M : Type} `{Num F, MathFns F}.
Implicit Types (o : oaa F) (ec : example F X) (base : learner F X M) (m : M).

Definition set_oaa_pred (ps : list F) o : oaa F := Oaa _ (oaa_k o) ps (num_subsample o) (subsample_order o) (subsample_id o) (indexing o).
Definition set_subsample_id (p : nat) o : oaa F := Oaa _ (oaa_k o) (oaa_pred o) (num_subsample o) (subsample_order o) p (indexing o).
Definition set_indexing (ix : Z) o : oaa F := Oaa _ (oaa_k o) (oaa_pred o) (num_subsample o) (subsample_order o) (subsample_id o) ix.

(** 2 stands for not settled: the labels 0 and [k] settle it. *)
Definition update_indexing (label : Z) o : oaa F :=
  if (indexing o =? 2) && (label =? 0) then set_indexing 0 o
  else if (indexing o =? 2) && (label =? oaa_k o) then set_indexing 1 o
  else o.

(** A label out of range is replaced in the example. *)
Definition validate_label o ec : example F X :=
  let label := multi (l ec) in
  if (indexing o =? 0) && (oaa_k o <=? label) then set_multi 0 ec
  else if (indexing o =? 1) && ((label <? 1) || (oaa_k o <? label)) then set_multi (u32 (oaa_k o)) ec
  else ec.

Fixpoint update_classes (n : nat) (i : nat) (mc : Z) o base m ec : option (M * example F X) :=
  match n with
  | O => Some (m, ec)
  | S n =>
      let lbl := if indexing o =? 0 then Z.of_nat i else u32 (Z.of_nat i + 1) in
      let ec := set_simple (n_of_Z (if mc =? lbl then 1 else -1)) ec in
      s ← oaa_pred o !! i;
      '(m, ec) ← update base (Z.of_nat i) m (set_scalar s ec);
      update_classes n (S i) mc o base m ec
  end.

Definition oaa_learn o base m ec : option (oaa F * M * example F X) :=
  let o := update_indexing (multi (l ec)) o in
  let mc_label_data := multi (l ec) in
  let ec := validate_label o ec in
  let ec := reset_to_default (set_simple FLT_MAX ec) in
  '(m, ec) ← update_classes (Z.to_nat (oaa_k o)) 0 mc_label_data o base m ec;
  Some (o, m, set_multi mc_label_data ec).

(** The rounds of [while (count < o.num_subsample)]. *)
Fixpoint subsample_loop (fuel : nat) (label : Z) (count : Z) (p : nat) (best : F) (prediction : Z) o base m ec : option (nat * Z * M * example F X) :=
  if count <? num_subsample o then
    match fuel with
    | O => None
    | S fuel =>
        l ← subsample_order o !! p;
        let p := (S p mod Z.to_nat (oaa_k o))%nat in
        if l =? u64 (label + oaa_k o - 1) mod oaa_k o then subsample_loop fuel label count p best prediction o base m ec
        else
          '(m, ec) ← learn base l m ec;
          let '(best, prediction) :=
            if (partial_prediction ec >? best)%num then
              let prediction := u32 (l + 1) in
              (partial_prediction ec, if (indexing o =? 0) && (prediction =? oaa_k o) then 0 else prediction)
            else (best, prediction) in
          subsample_loop fuel label (count + 1) p best prediction o base m ec
    end
  else Some (p, prediction, m, ec).

Definition learn_randomized (fuel : nat) o base m ec : option (oaa F * M * example F X) :=
  let o := update_indexing (multi (l ec)) o in
  let ld := multi (l ec) in
  let ec := validate_label o ec in
  let ec := reset_to_default (set_simple (n_of_Z 1) ec) in
  let lbl_ind := if indexing o =? 0 then ld else u32 (ld - 1) in
  '(m, ec) ← learn base lbl_ind m ec;
  let best_partial_prediction := partial_prediction ec in
  let ec := set_simple (n_of_Z (-1)) ec in
  let weight_temp := weight ec in
  let ec := set_weight (weight ec * (n_of_Z (oaa_k o) / n_of_Z (num_subsample o)))%num ec in
  '(p, prediction, m, ec) ← subsample_loop fuel ld 0 (subsample_id o) best_partial_prediction ld o base m ec;
  Some (set_subsample_id p o, m, set_weight weight_temp (set_multi ld (set_multiclass (u32 prediction) ec))).

(** The first class with the largest score. *)
Fixpoint best_class (n i best : nat) (ps : list F) : option nat :=
  match n with
  | O => Some best
  | S n => x ← ps !! i; y ← ps !! best; best_class n (S i) (if (x >? y)%num then i else best) ps
  end.

Definition class_probability (s : F) : F := (n_of_Z 1 / (n_of_Z 1 + nexp (nopp s)))%num.
Definition probabilities_of (ps : list F) : list F :=
  let qs := class_probability <$> ps in
  let inv_sum_prob := (n_of_Z 1 / fold_left nadd qs (n_of_Z 0))%num in
  (fun q => q * inv_sum_prob)%num <$> qs.

Definition oaa_predict (scores probabilities : bool) o base m ec : option (oaa F * M * example F X) :=
  '(m, ec, ps) ← multipredict base 0 (Z.to_nat (oaa_k o)) true m ec;
  best ← best_class (Z.to_nat (oaa_k o) - 1) 1 0 ps;
  let prediction := if negb (indexing o =? 0) then u32 (Z.of_nat best + 1) else Z.of_nat best in
  Some (set_oaa_pred ps o, m,
    if scores then set_scalars (if probabilities then probabilities_of ps else ps) ec else set_multiclass prediction ec).

(** The lines [label:score] of the raw predictions. *)
Definition raw_predictions o : option (list (Z * F)) :=
  let k := Z.to_nat (oaa_k o) in
  if indexing o =? 0 then s ← oaa_pred o !! (k - 1)%nat; Some ((0, s) :: imap (fun i s => (Z.of_nat i + 1, s)) (take (k - 1) (oaa_pred o)))
  else Some (imap (fun i s => (Z.of_nat i + 1, s)) (take k (oaa_pred o))).

Definition zero_one_loss o ec : option F :=
  best ← best_class (Z.to_nat (oaa_k o) - 1) 1 0 (oaa_pred o);
  let pred_lbl := if indexing o =? 0 then Z.of_nat best else u32 (Z.of_nat best + 1) in
  Some (if multi (l ec) =? pred_lbl then n_of_Z 0 else weight ec).

(** *** [oaa_setup] *)

(** [static_cast<size_t>] of a [float]. *)
Context `{FromBits F} (to_size : F -> Z).

(** The random order: each place in turn is exchanged with one at or after it. *)
Fixpoint shuffle (n i : nat) (seed : Z) (order : list Z) : option (Z * list Z) :=
  match n with
  | O => Some (seed, order)
  | S n =>
      let '(seed, draw) := merand48 seed in
      let j := (Z.to_nat (u64 (to_size (draw * n_of_Z (Z.of_nat (S n)))%num)) + i)%nat in
      tmp ← order !! i; x ← order !! j;
      shuffle n (S i) seed (<[j := tmp]> (<[i := x]> order))
  end.

Definition oaa_setup_data (k n ix seed : Z) : option (Z * oaa F) :=
  let preds := replicate (Z.to_nat k) (n_of_Z 0) in
  if (n =? 0) || (k <=? n) then Some (seed, Oaa _ k preds 0 [] 0 ix)
  else '(seed, order) ← shuffle (Z.to_nat k) 0 seed (u32 <$> seqZ 0 k); Some (seed, Oaa _ k preds n order 0 ix).

Definition oaa_learner (fuel : nat) (scores probabilities : bool) o base : learner F X (oaa F * M) :=
  make_reduction_learner (oaa_k o) base (if 0 <? num_subsample o then learn_randomized fuel else oaa_learn) (oaa_predict scores probabilities).
End Oaa.

(** ** What the models are told *)

Section Teaching.
Context {F X M : Type} `{Num F, MathFns F} (base : learner F X M) (J : M -> example F X -> Prop).
Implicit Types (o : oaa F) (ec : example F X) (m : M).

(** The label of class [i], and what model [i] is told of an example with label [mc]. *)
Definition label_of o (i : Z) : Z := if indexing o =? 0 then i else i + 1.
Definition told o ec (mc : Z) (i : nat) (s : F) : call F :=
  Call (model_offset base ec (Z.of_nat i)) (n_of_Z (if mc =? label_of o (Z.of_nat i) then 1 else -1)) s (weight ec).

Lemma update_classes_ok `{!Taught (update base) J k} o mc n : oaa_k o = k -> k < 2 ^ 32 -> forall i calls m ec (ps : list F), J m ec ->
  drop i (oaa_pred o) = ps -> length ps = n -> Z.of_nat (i + n) = k ->
  exists m' ec', update_classes n i mc o (recording base) (calls, m) ec = Some (calls ++ imap (fun j s => told o ec mc (i + j) s) ps, m', ec') /\ J m' ec' /\
    ft_offset ec' = ft_offset ec /\ weight ec' = weight ec.
Proof.
  intros Ek Hk. induction n as [|n IH]; intros i calls m ec ps HJ Hps Hl Hn.
  { destruct ps; [|done]. cbn. rewrite app_nil_r. by exists m, ec. }
  destruct ps as [|s ps]; [done|]. injection Hl as Hl. cbn [update_classes].
  assert (oaa_pred o !! i = Some s) as Hs by (rewrite <- (Nat.add_0_r i), <- lookup_drop, Hps; done). rewrite Hs. cbn [mbind option_bind].
  set (ec1 := set_scalar s (set_simple _ ec)).
  destruct (taught_call (f := update base) m ec1 (Z.of_nat i)) as (m1 & ec2 & E & HJ2 & Eo & Ew & _); [by eapply taught_same|lia|].
  change (ft_offset ec1) with (ft_offset ec) in Eo. change (weight ec1) with (weight ec) in Ew. apply (recorded_update _ _ calls) in E. rewrite E. cbn [mbind option_bind].
  destruct (IH (S i) (calls ++ [call_of (increment_offset (feature_width_below base) (Z.of_nat i) ec1)]) m1 ec2 ps) as (m' & ec' & E' & HJ' & Eo' & Ew'); [done| |done|lia|].
  { by rewrite <- Nat.add_1_r, <- drop_drop, Hps. }
  exists m', ec'. split; [|split; [done|split; congruence]]. rewrite E', <- app_assoc. do 4 f_equal. cbn [app imap]. f_equal.
  - unfold told, call_of, model_offset. cbn. rewrite Nat.add_0_r. f_equal. unfold label_of. rewrite u32_id by lia. done.
  - apply imap_ext. intros j x _. cbn. unfold told, model_offset. cbn in Eo. unfold increment_offset. cbn. rewrite Eo, Ew. f_equal; [|]; by rewrite Nat.add_succ_r.
Qed.

(** *** Subsampling *)

(** What is read of the order from place [p] on, [c] times. *)
Definition window (order : list Z) (k p c : nat) : list Z := (fun j => order !!! ((p + j) mod k)%nat) <$> seq 0 c.

Lemma window_step order k p c : (p < k)%nat -> window order k p (S c) = order !!! p :: window order k (S p mod k) c.
Proof.
  intros Hp. unfold window. cbn [seq fmap list_fmap]. rewrite Nat.add_0_r, Nat.mod_small by done. f_equal.
  rewrite <- seq_shift, <- list_fmap_compose. apply list_fmap_ext. intros _ j _. cbn [compose]. f_equal.
  rewrite Nat.Div0.add_mod_idemp_l. f_equal. lia.
Qed.

Lemma subsample_loop_ok `{!Taught (learn base) J k} o label w y off fuel : 0 < k -> oaa_k o = k -> length (subsample_order o) = Z.to_nat k ->
  Forall (fun x => 0 <= x < k) (subsample_order o) -> 0 <= num_subsample o ->
  let skip := u64 (label + k - 1) mod k in
  forall c0 count p best prediction calls m ec, (c0 <= fuel)%nat -> (p < Z.to_nat k)%nat -> 0 <= count -> J m ec ->
  (Z.to_nat (num_subsample o - count) <= length (filter (fun x => x <> skip) (window (subsample_order o) (Z.to_nat k) p c0)))%nat ->
  ft_offset ec = off -> weight ec = w -> simple (l ec) = y ->
  exists c js new prediction' m' ec',
    subsample_loop fuel label count p best prediction o (recording base) (calls, m) ec = Some ((p + c) mod Z.to_nat k, prediction', (calls ++ new, m'), ec')%nat /\
    (c <= c0)%nat /\ js = filter (fun x => x <> skip) (window (subsample_order o) (Z.to_nat k) p c) /\ length js = Z.to_nat (num_subsample o - count) /\
    (told_of <$> new) = (fun j => (model_offset base ec j, y, w)) <$> js /\ J m' ec' /\ ft_offset ec' = off /\ weight ec' = w /\ l ec' = l ec.
Proof.
  intros Hk0 Ek Hlen Hall Hn skip. induction fuel as [|fuel IH]; intros c0 count p best prediction calls m ec Hc0 Hp Hc HJ Hw Eo Ew Ey.
  { assert (c0 = 0%nat) as -> by lia. cbn in Hw. exists O, [], [], prediction, m, ec. cbn [subsample_loop]. rewrite (proj2 (Z.ltb_ge _ _)) by lia.
    rewrite Nat.add_0_r, Nat.mod_small, app_nil_r by lia. cbn. by rewrite (proj1 (Nat.le_0_r _) Hw). }
  cbn [subsample_loop]. destruct (count <? num_subsample o) eqn:Elt; bprop; swap 1 2.
  { exists O, [], [], prediction, m, ec. rewrite Nat.add_0_r, Nat.mod_small, app_nil_r by lia. cbn. rewrite Z2Nat.nonpos by lia. split; [done|]. split; [lia|done]. }
  destruct c0 as [|c0]; [cbn in Hw; lia|]. rewrite window_step in Hw by done.
  destruct (lookup_lt_is_Some_2 (subsample_order o) p) as [x Hx]; [lia|]. rewrite Hx. cbn [mbind option_bind].
  rewrite (list_lookup_total_correct _ _ _ Hx) in Hw. rewrite filter_cons in Hw. rewrite Ek. fold skip.
  assert (S p mod Z.to_nat k < Z.to_nat k)%nat as Hp' by (apply Nat.mod_upper_bound; lia).
  assert (forall c, (S p mod Z.to_nat k + c) mod Z.to_nat k = (p + S c) mod Z.to_nat k)%nat as Emod.
  { intros c. rewrite Nat.Div0.add_mod_idemp_l. f_equal. lia. }
  destruct (x =? skip) eqn:Eskip; bprop.
  - rewrite decide_False in Hw by (intros Hne; by apply Hne).
    destruct (IH c0 count (S p mod Z.to_nat k)%nat best prediction calls m ec) as (c & js & new & pr & m' & ec' & E & Hcc & Ejs & Hj); try done; [lia|].
    exists (S c), js, new, pr, m', ec'. rewrite <- Emod. split; [exact E|]. split; [lia|]. split; [|exact Hj].
    rewrite window_step, (list_lookup_total_correct _ _ _ Hx), filter_cons, decide_False by (done || intros Hne; by apply Hne). exact Ejs.
  - rewrite decide_True in Hw by done. cbn [length] in Hw. rewrite Forall_lookup in Hall.
    destruct (taught_call (f := learn base) m ec x) as (m1 & ec1 & E1 & HJ1 & Eo1 & Ew1 & El1); [done|by eapply Hall|].
    apply (recorded_learn _ _ calls) in E1. rewrite E1. cbn [mbind option_bind].
    destruct (if (partial_prediction ec1 >? best)%num then _ else _) as [best1 pr1].
    destruct (IH c0 (count + 1) (S p mod Z.to_nat k)%nat best1 pr1 (calls ++ [call_of (increment_offset (feature_width_below base) x ec)]) m1 ec1)
      as (c & js & new & pr & m' & ec' & E & Hcc & Ejs & Hl & Hnew & HJ' & Eo' & Ew' & El'); try congruence; try lia.
    exists (S c), (x :: js), (call_of (increment_offset (feature_width_below base) x ec) :: new), pr, m', ec'.
    rewrite <- Emod. split; [rewrite E, <- app_assoc; done|]. split; [lia|]. split.
    { rewrite window_step, (list_lookup_total_correct _ _ _ Hx), filter_cons, decide_True by done. by rewrite Ejs. }
    split; [cbn [length]; lia|]. split; [|split; [done|split; [done|split; [done|congruence]]]].
    cbn [fmap list_fmap]. f_equal.
    + unfold told_of, call_of, model_offset. cbn. by rewrite Ey, Ew.
    + rewrite Hnew. apply list_fmap_ext. intros _ j _. unfold model_offset, increment_offset. cbn. by rewrite Eo1.
Qed.
End Teaching.

(** ** The class with the largest score *)

Lemma best_class_ok (ps : list Q) n : forall i b y, (i + n = length ps)%nat -> (b < i)%nat -> ps !! b = Some y ->
  (forall j x, (j < i)%nat -> ps !! j = Some x -> (x <= y)%Q) -> (forall j x, (j < b)%nat -> ps !! j = Some x -> (x < y)%Q) ->
  exists r z, best_class n i b ps = Some r /\ ps !! r = Some z /\ (forall x, x ∈ ps -> (x <= z)%Q) /\ (forall j x, (j < r)%nat -> ps !! j = Some x -> (x < z)%Q).
Proof.
  induction n as [|n IH]; intros i b y Hn Hb Hy Hle Hlt; cbn [best_class].
  { exists b, y. split; [done|]. split; [done|]. split; [|done]. intros x [j Hj]%list_elem_of_lookup. apply (Hle j); [apply lookup_lt_Some in Hj; lia|done]. }
  destruct (lookup_lt_is_Some_2 ps i) as [x Hx]; [lia|]. rewrite Hx, Hy. cbn [mbind option_bind]. qnum. destruct (Qle_bool x y) eqn:E; cbn [negb].
  - apply Qle_bool_iff in E. apply (IH (S i) b y); try done; [lia..|]. intros j z Hj Hz. destruct (decide (j = i)) as [->|]; [congruence|]. apply (Hle j); [lia|done].
  - assert (y < x)%Q as Hyx by (apply Qnot_le_lt; intros Hc; apply Qle_bool_iff in Hc; congruence). apply (IH (S i) i x); try done; [lia..| |].
    + intros j z Hj Hz. destruct (decide (j = i)) as [->|]; [rewrite Hx in Hz; injection Hz as <-; lra|]. specialize (Hle j z ltac:(lia) Hz). lra.
    + intros j z Hj Hz. specialize (Hle j z Hj Hz). lra.
Qed.

(** ** The random order *)

Lemma shuffle_permutes n : forall i seed order, (i + n = length order)%nat -> Z.of_nat (length order) < 2 ^ 64 ->
  exists seed' order', shuffle (F := Q) Qfloor n i seed order = Some (seed', order') /\ order' ≡ₚ order.
Proof.
  induction n as [|n IH]; intros i seed order Hn Hlen; cbn [shuffle]; [by eexists _, _|].
  destruct (merand48 seed) as [seed1 draw] eqn:Ed. pose proof (merand48_range seed) as Hr. unfold merand48_noadvance in Hr. rewrite Ed in Hr. cbn [snd] in Hr.
  assert (0 <= Qfloor (draw * inject_Z (Z.of_nat (S n))) <= Z.of_nat n) as Hj.
  { assert (0 <= draw * inject_Z (Z.of_nat (S n)))%Q as H0 by (apply Qmult_le_0_compat; [apply Hr|]; change 0%Q with (inject_Z 0); rewrite <- Zle_Qle; lia).
    assert (draw * inject_Z (Z.of_nat (S n)) < inject_Z (Z.of_nat (S n)))%Q as H1.
    { rewrite <- (Qmult_1_l (inject_Z (Z.of_nat (S n)))) at 2. apply Qmult_lt_compat_r; [|apply Hr]. change 0%Q with (inject_Z 0). rewrite <- Zlt_Qlt. lia. }
    pose proof (Qfloor_le (draw * inject_Z (Z.of_nat (S n)))) as Hf. split.
    - apply (Qfloor_resp_le 0) in H0. exact H0.
    - pose proof (Qle_lt_trans _ _ _ Hf H1) as H2. rewrite <- Zlt_Qlt in H2. lia. }
  cbn [n_of_Z num_Q nmul]. rewrite u64_id by lia. set (j := (Z.to_nat _ + i)%nat).
  destruct (lookup_lt_is_Some_2 order i) as [x Hx]; [lia|]. destruct (lookup_lt_is_Some_2 order j) as [y Hy]; [unfold j; lia|].
  rewrite Hx, Hy. cbn [mbind option_bind].
  destruct (IH (S i) seed1 (<[j := x]> (<[i := y]> order))) as (seed' & order' & E & Hp); rewrite ?length_insert; [lia|done|].
  exists seed', order'. split; [exact E|]. rewrite Hp. by apply Permutation_insert_swap.
Qed.

Section Window.
Context (order : list Z) (k : nat).
Hypothesis Hperm : order ≡ₚ seqZ 0 (Z.of_nat k).

Lemma order_length : length order = k.
Proof. rewrite Hperm, length_seqZ. lia. Qed.

Lemma order_range : Forall (fun x => 0 <= x < Z.of_nat k) order.
Proof. apply Forall_forall. intros x Hx. rewrite Hperm in Hx. apply elem_of_seqZ in Hx. lia. Qed.

Lemma window_NoDup p c : (c <= k)%nat -> NoDup (window order k p c).
Proof.
  intros Hc. unfold window. destruct (decide (k = 0%nat)) as [->|Hk]; [assert (c = 0%nat) as -> by lia; constructor|].
  apply NoDup_fmap_2_strong; [|apply NoDup_seq]. intros i j Hi Hj E. apply elem_of_seq in Hi, Hj.
  assert (NoDup order) as Hnd by (rewrite Hperm; apply NoDup_seqZ).
  assert (forall a, (a mod k < length order)%nat) as Hlt by (intros a; rewrite order_length; by apply Nat.mod_upper_bound).
  destruct (lookup_lt_is_Some_2 order _ (Hlt (p + i)%nat)) as [x Hx]. destruct (lookup_lt_is_Some_2 order _ (Hlt (p + j)%nat)) as [y Hy].
  rewrite (list_lookup_total_correct _ _ _ Hx), (list_lookup_total_correct _ _ _ Hy) in E. subst y.
  pose proof (NoDup_lookup _ _ _ _ Hnd Hx Hy) as Em.
  pose proof (Nat.Div0.div_mod (p + i) k) as Di. pose proof (Nat.Div0.div_mod (p + j) k) as Dj.
  destruct (Nat.lt_trichotomy ((p + i) / k) ((p + j) / k)) as [|[|]]; nia.
Qed.

(** At most one read of [c] is skipped. *)
Lemma window_rest p c skip : (c <= k)%nat -> (c - 1 <= length (filter (fun x => x <> skip) (window order k p c)))%nat.
Proof.
  intros Hc. pose proof (window_NoDup p c Hc) as Hnd. assert (length (window order k p c) = c) as Hl by (unfold window; by rewrite length_fmap, length_seq).
  rewrite <- Hl at 1. clear Hl. induction Hnd as [|x w Hx Hnd IH]; [cbn; lia|]. rewrite filter_cons. case_decide as Hd; cbn [length].
  - lia.
  - rewrite filter_every; [lia|]. apply Forall_forall. intros y Hy ->. congruence.
Qed.

Lemma window_range p c : (c <= k)%nat -> forall x, x ∈ window order k p c -> 0 <= x < Z.of_nat k.
Proof.
  intros Hc x. unfold window. intros (i & -> & Hi%elem_of_seq)%list_elem_of_fmap.
  destruct (lookup_lt_is_Some_2 order ((p + i) mod k)%nat) as [y Hy]; [rewrite order_length; apply Nat.mod_upper_bound; lia|].
  rewrite (list_lookup_total_correct _ _ _ Hy). pose proof order_range as Hr. rewrite Forall_lookup in Hr. by eapply Hr.
Qed.

(** All but the skipped one are read when as many are asked for. *)
Lemma window_all p c skip : (c <= k)%nat -> 0 <= skip < Z.of_nat k -> length (filter (fun x => x <> skip) (window order k p c)) = (k - 1)%nat ->
  forall y, 0 <= y < Z.of_nat k -> y <> skip -> y ∈ filter (fun x => x <> skip) (window order k p c).
Proof.
  intros Hc Hs Hl y Hy Hne. set (js := filter _ _) in *.
  assert (seqZ 0 (Z.of_nat k) ≡ₚ skip :: js) as Hp.
  { symmetry. apply submseteq_length_Permutation; [|rewrite length_seqZ; cbn [length]; lia]. apply NoDup_submseteq.
    - constructor; [intros Hin; apply list_elem_of_filter in Hin; by destruct Hin|]. by apply NoDup_filter, window_NoDup.
    - intros x Hx. apply elem_of_seqZ. apply elem_of_cons in Hx as [->|Hx]; [lia|]. apply list_elem_of_filter in Hx as [_ Hx]. apply window_range in Hx; [lia|done]. }
  assert (y ∈ skip :: js) as Hin by (rewrite <- Hp; apply elem_of_seqZ; lia). by apply elem_of_cons in Hin as [|].
Qed.
End Window.

Section Learning.
Context {F X M : Type} `{Num F, MathFns F} (base : learner F X M) (J : M -> example F X -> Prop).
Implicit Types (o : oaa F) (ec : example F X) (m : M).

Lemma update_indexing_fields label o : oaa_k (update_indexing label o) = oaa_k o /\ oaa_pred (update_indexing label o) = oaa_pred o /\
  num_subsample (update_indexing label o) = num_subsample o /\ subsample_order (update_indexing label o) = subsample_order o /\
  subsample_id (update_indexing label o) = subsample_id o.
Proof. unfold update_indexing. by repeat case_if. Qed.

(** Validation and the reset of the label leave features, offset and weight alone. *)
Lemma validated_same o ec y : let ec' := reset_to_default (set_simple y (validate_label o ec)) in
  ex_x ec' = ex_x ec /\ ft_offset ec' = ft_offset ec /\ weight ec' = weight ec.
Proof. unfold validate_label. by repeat case_if. Qed.

Lemma oaa_learn_told `{!Taught (update base) J k} o m ec : oaa_k o = k -> 0 <= k < 2 ^ 32 -> length (oaa_pred o) = Z.to_nat k -> J m ec ->
  let o' := update_indexing (multi (l ec)) o in
  exists m' ec', oaa_learn o (recording base) ([], m) ec = Some (o', (imap (told base o' ec (multi (l ec))) (oaa_pred o), m'), ec') /\ J m' ec' /\
    multi (l ec') = multi (l ec) /\ ft_offset ec' = ft_offset ec /\ weight ec' = weight ec.
Proof.
  intros Ek Hk Hl HJ o'. destruct (update_indexing_fields (multi (l ec)) o) as (Ek' & Ep' & _). fold o' in Ek', Ep'. unfold oaa_learn. fold o'.
  set (ec1 := reset_to_default (set_simple FLT_MAX (validate_label o' ec))).
  destruct (validated_same o' ec FLT_MAX) as (Ex & Eo & Ew). fold ec1 in Ex, Eo, Ew. assert (J m ec1) as HJ1 by by eapply taught_same.
  destruct (update_classes_ok base J o' (multi (l ec)) (Z.to_nat k) (eq_trans Ek' Ek) (proj2 Hk) 0 [] m ec1 (oaa_pred o') HJ1) as (m' & ec' & E & HJ' & Eo' & Ew'); [done|by rewrite Ep'|lia|].
  rewrite Ek', Ek, E. cbn [mbind option_bind app]. exists m', (set_multi (multi (l ec)) ec'). split; [|split; [by eapply taught_same|split; [done|split; cbn; congruence]]].
  rewrite Ep'. do 4 f_equal. apply imap_ext. intros i s _. cbn [Nat.add]. unfold told, model_offset, increment_offset. cbn [ft_offset set_offset]. by rewrite Eo, Ew.
Qed.

(** The model of the label. *)
Definition label_model o (label : Z) : Z := if indexing o =? 0 then label else label - 1.

Lemma randomized_told `{!Taught (learn base) J k} o m ec fuel : oaa_k o = k -> 0 < num_subsample o < k -> k < 2 ^ 32 ->
  subsample_order o ≡ₚ seqZ 0 k -> (subsample_id o < Z.to_nat k)%nat -> (Z.to_nat (num_subsample o) < fuel)%nat -> J m ec ->
  let label := multi (l ec) in let o' := update_indexing label o in
  0 <= label < 2 ^ 32 -> 0 <= label_model o' label < k ->
  let js c := filter (fun x => x <> (label + k - 1) mod k) (window (subsample_order o) (Z.to_nat k) (subsample_id o) c) in
  exists c calls m' ec', learn_randomized fuel o (recording base) ([], m) ec = Some (set_subsample_id ((subsample_id o + c) mod Z.to_nat k) o', (calls, m'), ec') /\
    told_of <$> calls = (model_offset base ec (label_model o' label), n_of_Z 1, weight ec) ::
      ((fun j => (model_offset base ec j, n_of_Z (-1), (weight ec * (n_of_Z k / n_of_Z (num_subsample o)))%num)) <$> js c) /\
    length (js c) = Z.to_nat (num_subsample o) /\ (c <= S (Z.to_nat (num_subsample o)))%nat /\
    J m' ec' /\ multi (l ec') = label /\ ft_offset ec' = ft_offset ec /\ weight ec' = weight ec.
Proof.
  intros Ek Hn Hk Hperm Hid Hfuel HJ label o' Hlabel Hmodel js. destruct (update_indexing_fields label o) as (Ek' & _ & En' & Eo' & Ei'). fold o' in Ek', En', Eo', Ei'.
  unfold learn_randomized. fold label o'. set (ec1 := reset_to_default (set_simple (n_of_Z 1) (validate_label o' ec))).
  destruct (validated_same o' ec (n_of_Z 1)) as (Ex & Eo & Ew). fold ec1 in Ex, Eo, Ew. assert (J m ec1) as HJ1 by by eapply taught_same.
  assert ((if indexing o' =? 0 then label else u32 (label - 1)) = label_model o' label) as ->.
  { unfold label_model in *. case_if; [done|]. by rewrite u32_id by lia. }
  destruct (taught_call (f := learn base) m ec1 (label_model o' label) HJ1 Hmodel) as (m1 & ec2 & E1 & HJ2 & Eo2 & Ew2 & El2).
  apply (recorded_learn _ _ []) in E1. rewrite E1. cbn [mbind option_bind].
  set (ec3 := set_weight _ _). assert (J m1 ec3) as HJ3 by by eapply taught_same.
  assert (length (subsample_order o) = Z.to_nat k) as Hlen by (apply order_length; by rewrite Z2Nat.id by lia).
  destruct (subsample_loop_ok base J (k := k) o' label (weight ec3) (simple (l ec3)) (ft_offset ec3) fuel) with (c0 := S (Z.to_nat (num_subsample o)))
    (count := 0) (p := subsample_id o') (best := partial_prediction ec2) (prediction := label)
    (calls := [call_of (increment_offset (feature_width_below base) (label_model o' label) ec1)]) (m := m1) (ec := ec3)
    as (c & js' & new & pr & m' & ec' & E & Hc & Ejs & Hjs & Hnew & HJ' & Eoff & Ewt & Elab); try done; try congruence; try lia.
  { rewrite Eo'. pose proof (order_range (subsample_order o) (Z.to_nat k)) as Hr. rewrite Z2Nat.id in Hr by lia. by apply Hr. }
  { rewrite En', Eo', Z.sub_0_r. etransitivity; [|apply window_rest; [by rewrite Z2Nat.id by lia|lia]]. lia. }
  change ([] ++ [call_of (increment_offset (feature_width_below base) (label_model o' label) ec1)]) with
    [call_of (increment_offset (feature_width_below base) (label_model o' label) ec1)].
  rewrite En', Z.sub_0_r in Hjs. rewrite Eo', Ei' in Ejs. rewrite (u64_id (label + k - 1)) in Ejs by lia.
  rewrite E. cbn [mbind option_bind]. rewrite Ei'. eexists c, _, m', _. split; [reflexivity|]. split.
  { rewrite fmap_app, Hnew. cbn [app fmap list_fmap]. unfold js. rewrite <- Ejs. f_equal.
    - unfold told_of, call_of, model_offset, increment_offset. cbn [c_offset c_label c_score c_weight ft_offset set_offset simple l weight pred]. by rewrite Eo, Ew.
    - apply list_fmap_ext. intros _ j _. unfold model_offset, increment_offset. cbn [ft_offset set_offset]. unfold ec3. cbn. by rewrite Eo2, Eo, Ew2, Ew, Ek', Ek, En'. }
  unfold js. rewrite <- Ejs. split; [done|]. split; [done|]. split; [by eapply taught_same|]. split; [done|]. cbn. rewrite Eoff. unfold ec3. cbn. split; congruence.
Qed.
End Learning.

Lemma table_taught {F} (score : Z -> F) n : 0 <= n < 2 ^ 32 -> Taught (learn (table_learner score)) at_zero n /\ Taught (update (table_learner score)) at_zero n.
Proof.
  intros Hn. assert (forall m (ec : example F unit) i, ft_offset ec = 0 -> 0 <= i < n ->
    with_offset (fun m ec => Some (ft_offset ec :: m, set_scalar (score (ft_offset ec)) ec)) 1 i m ec =
    Some (i :: m, set_scalar (score i) ec)) as E.
  { intros m ec i H0 Hi. unfold with_offset. rewrite increment_small by lia. cbn [mbind option_bind]. rewrite decrement_small by lia. cbn.
    rewrite H0, Z.mul_1_l, Z.add_0_l, (u64_id i), Z.sub_diag by lia. do 2 f_equal. unfold set_scalar. cbn. destruct ec; cbn in *. by subst. }
  split; (split; unfold at_zero; [congruence|]); intros m ec i HJ Hi; eexists _, _; (split; [by apply E|]); done.
Qed.

(** ** Probabilities *)

#[local] Ltac rlra := Lra.lra.

Lemma fold_Rplus (xs : list R) : forall a, fold_left Rplus xs a = (a + foldr Rplus 0 xs)%R.
Proof. induction xs as [|x xs IH]; intros a; cbn [fold_left foldr]; [rlra|]. rewrite IH. rlra. Qed.

Lemma foldr_scaled (c : R) (xs : list R) : foldr Rplus 0%R ((fun x => x * c)%R <$> xs) = (foldr Rplus 0 xs * c)%R.
Proof. induction xs as [|x xs IH]; cbn [fmap list_fmap foldr]; [rlra|]. rewrite IH. rlra. Qed.

Lemma foldr_positive (xs : list R) : Forall (Rlt 0) xs -> xs <> [] -> (0 < foldr Rplus 0 xs)%R /\ Forall (fun x => x <= foldr Rplus 0 xs)%R xs.
Proof.
  induction 1 as [|x xs Hx Hxs IH]; [done|]. intros _. destruct xs as [|x' xs]; [cbn [foldr]; split; [rlra|repeat constructor; rlra]|].
  destruct IH as [Hp Hle]; [done|]. change (foldr Rplus 0%R (x :: x' :: xs)) with (x + foldr Rplus 0 (x' :: xs))%R. split; [rlra|].
  constructor; [rlra|]. eapply Forall_impl; [exact Hle|]. cbn beta. intros y Hy. rlra.
Qed.

Lemma class_probability_logistic (s : R) : class_probability s = (1 / (1 + exp (- s)))%R.
Proof. unfold class_probability. rnum. do 3 f_equal. rlra. Qed.

Lemma logistic_positive (s : R) : (0 < class_probability s < 1)%R.
Proof.
  rewrite !class_probability_logistic. pose proof (exp_pos (- s)) as Hp. split; [apply Rdiv_lt_0_compat; rlra|].
  apply (Rmult_lt_reg_r (1 + exp (- s))); [rlra|]. field_simplify; rlra.
Qed.

Lemma logistic_increasing (s t : R) : (s < t)%R -> (class_probability s < class_probability t)%R.
Proof.
  intros Hst. rewrite !class_probability_logistic. pose proof (exp_pos (- s)). pose proof (exp_pos (- t)). assert (exp (- t) < exp (- s))%R by (apply exp_increasing; rlra).
  unfold Rdiv. rewrite !Rmult_1_l. apply Rinv_lt_contravar; [|rlra]. apply Rmult_lt_0_compat; rlra.
Qed.

(** * Theorems *)

Lemma length_scores {F} (score : Z -> F) k : length ((fun i => score (Z.of_nat i)) <$> seq 0 k) = k.
Proof. by rewrite length_fmap, length_seq. Qed.

Lemma score_at {F} (score : Z -> F) k (i : nat) : (i < k)%nat -> ((fun i => score (Z.of_nat i)) <$> seq 0 k) !! i = Some (score (Z.of_nat i)).
Proof. intros Hi. by rewrite list_lookup_fmap, lookup_seq_lt. Qed.

(** One against all predicts the label of the first model with the largest score, over any base
    learner that answers, keeps all the scores for the learning that follows and leaves label and weight
    alone. *)
Theorem oaa_predicts_largest {X M} `{MathFns Q} (base : learner Q X M) (I : M -> example Q X -> Prop) (score : Z -> Q) (o : oaa Q) (m : M) (ec : example Q X) :
  0 < oaa_k o < 2 ^ 32 -> Answers base I (oaa_k o) score -> I m ec ->
  let scores := (fun i => score (Z.of_nat i)) <$> seq 0 (Z.to_nat (oaa_k o)) in
  exists b m' ec', oaa_predict false false o base m ec = Some (set_oaa_pred scores o, m', ec') /\ I m' ec' /\
    0 <= b < oaa_k o /\ multiclass (pred ec') = label_of o b /\
    (forall i, 0 <= i < oaa_k o -> (score i <= score b)%Q) /\ (forall i, 0 <= i < b -> (score i < score b)%Q) /\
    l ec' = l ec /\ weight ec' = weight ec.
Proof.
  intros Hk HA HI scores. destruct (answers_multi m ec (Z.to_nat (oaa_k o)) HI) as (m' & ec' & E & HI' & El & Ew); [lia|lia|].
  assert (length scores = Z.to_nat (oaa_k o)) as Hl by apply length_scores.
  destruct (best_class_ok scores (Z.to_nat (oaa_k o) - 1) 1 0 (score 0)) as (b & z & Eb & Hz & Hmax & Hfirst).
  { lia. } { lia. } { apply (score_at score); lia. }
  { intros j x Hj Hx. assert (j = 0%nat) as -> by lia. unfold scores in Hx. rewrite (score_at score) in Hx by lia. injection Hx as <-. apply Qle_refl. }
  { intros j x Hj. lia. }
  pose proof (lookup_lt_Some _ _ _ Hz) as Hb. rewrite Hl in Hb. unfold scores in Hz. rewrite (score_at score) in Hz by lia. injection Hz as <-.
  unfold oaa_predict. rewrite E. cbn [mbind option_bind]. fold scores. rewrite Eb. cbn [mbind option_bind].
  exists (Z.of_nat b), m'. eexists. split; [reflexivity|]. split; [by eapply answers_same|]. split; [lia|]. split; [|split; [|split; [|done]]].
  - cbn. unfold label_of. destruct (indexing o =? 0); cbn [negb]; [done|]. rewrite u32_id by lia. done.
  - intros i Hi. apply Hmax, list_elem_of_lookup. exists (Z.to_nat i). unfold scores. by rewrite (score_at score), Z2Nat.id by lia.
  - intros i Hi. apply (Hfirst (Z.to_nat i)); [lia|]. unfold scores. rewrite (score_at score), Z2Nat.id by lia. done.
Qed.

(** C26: learning after predicting calls each of the [k] models once, in order, at its own offset, with
    its own prediction in the example - which gradient descent relies on - and with the weight of the
    example; the label it is told is 1 for the model of the label and -1 for all others, and the label
    of the example is given back. A label out of range is told to no model. *)
Theorem oaa_trains_each {F X M} `{Num F, MathFns F} (base : learner F X M) (I J : M -> example F X -> Prop) (score : Z -> F) (o : oaa F) (m : M) (ec : example F X) :
  0 < oaa_k o < 2 ^ 32 -> Answers base I (oaa_k o) score -> Taught (update base) J (oaa_k o) -> (forall m ec, I m ec -> J m ec) -> I m ec ->
  exists o1 m1 ec1 o2 calls m2 ec2, oaa_predict false false o base m ec = Some (o1, m1, ec1) /\
    oaa_learn o1 (recording base) ([], m1) ec1 = Some (o2, (calls, m2), ec2) /\
    calls = (fun i => Call (model_offset base ec1 (Z.of_nat i)) (n_of_Z (if multi (l ec) =? label_of o2 (Z.of_nat i) then 1 else -1))
                       (score (Z.of_nat i)) (weight ec)) <$> seq 0 (Z.to_nat (oaa_k o)) /\
    (~ (label_of o2 0 <= multi (l ec) <= label_of o2 (oaa_k o - 1)) -> Forall (fun c => c_label c = n_of_Z (-1)) calls) /\
    multi (l ec2) = multi (l ec) /\ weight ec2 = weight ec /\ J m2 ec2.
Proof.
  intros Hk HA HT HIJ HI. destruct (answers_multi m ec (Z.to_nat (oaa_k o)) HI) as (m1 & ec1 & E & HI' & El & Ew); [lia|lia|].
  set (scores := (fun i => score (Z.of_nat i)) <$> seq 0 (Z.to_nat (oaa_k o))) in *. assert (length scores = Z.to_nat (oaa_k o)) as Hl by apply length_scores.
  assert (exists b, best_class (Z.to_nat (oaa_k o) - 1) 1 0 scores = Some b) as [b Eb].
  { assert (forall n i b, (i + n = length scores)%nat -> (b < length scores)%nat -> exists r, best_class n i b scores = Some r) as Hbest.
    { induction n as [|n IH]; intros i b Hn Hb; [by exists b|]. cbn [best_class]. destruct (lookup_lt_is_Some_2 scores i) as [x ->]; [lia|].
      destruct (lookup_lt_is_Some_2 scores b) as [y ->]; [done|]. cbn [mbind option_bind]. apply IH; [lia|]. case_if; lia. }
    apply Hbest; lia. }
  unfold oaa_predict. rewrite E. cbn [mbind option_bind]. rewrite Eb. cbn [mbind option_bind].
  set (ec1' := set_multiclass _ ec1). set (o1 := set_oaa_pred scores o).
  destruct (oaa_learn_told base J o1 m1 ec1') as (m2 & ec2 & E2 & HJ & Em & Eo & Ew2); [done|cbn; lia|exact Hl|by eapply taught_same; [apply HIJ|..]|].
  change (l ec1') with (l ec1) in *. rewrite El in *. set (o2 := update_indexing (multi (l ec)) o1) in *.
  assert (imap (told base o2 ec1' (multi (l ec))) (oaa_pred o1) =
    (fun i => Call (model_offset base ec1' (Z.of_nat i)) (n_of_Z (if multi (l ec) =? label_of o2 (Z.of_nat i) then 1 else -1)) (score (Z.of_nat i)) (weight ec)) <$>
      seq 0 (Z.to_nat (oaa_k o))) as Ecalls.
  { apply list_eq. intros i. rewrite list_lookup_imap, list_lookup_fmap. cbn [oaa_pred o1 set_oaa_pred]. destruct (decide (i < Z.to_nat (oaa_k o))%nat) as [Hi|Hi].
    - unfold scores. rewrite (score_at score), lookup_seq_lt by done. cbn. by rewrite <- Ew.
    - rewrite lookup_seq_ge by lia. rewrite lookup_ge_None_2 by (rewrite Hl; lia). done. }
  exists o1, m1, ec1', o2, (imap (told base o2 ec1' (multi (l ec))) (oaa_pred o1)), m2, ec2. split; [done|]. split; [exact E2|]. split; [exact Ecalls|].
  split; [|split; [done|split; [by rewrite Ew2, <- Ew|done]]].
  intros Hout. rewrite Ecalls. apply Forall_fmap, Forall_forall. intros i Hi%elem_of_seq. cbn. rewrite (proj2 (Z.eqb_neq _ _)); [done|].
  intros Heq. apply Hout. unfold label_of in *. case_if; lia.
Qed.

Lemma setup_subsamples k n ix seed : 0 < n < k -> k < 2 ^ 32 ->
  exists seed' order, oaa_setup_data Qfloor k n ix seed = Some (seed', Oaa Q k (replicate (Z.to_nat k) 0%Q) n order 0 ix) /\ order ≡ₚ seqZ 0 k.
Proof.
  intros Hn Hk. unfold oaa_setup_data. rewrite (proj2 (Z.eqb_neq n 0)), (proj2 (Z.leb_gt k n)) by lia. cbn [orb].
  assert (u32 <$> seqZ 0 k = seqZ 0 k) as ->.
  { rewrite <- (list_fmap_id (seqZ 0 k)) at 2. apply list_fmap_ext. intros i x Hx. apply list_elem_of_lookup_2, elem_of_seqZ in Hx. change (u32 x = x). apply u32_id. lia. }
  destruct (shuffle_permutes (Z.to_nat k) 0 seed (seqZ 0 k)) as (seed' & order & -> & Hp); rewrite ?length_seqZ; [lia|lia|].
  by exists seed', order.
Qed.

(** The probabilities of the classes are a distribution - each is positive, none is above one and
    they sum to one - in the order of the scores, whatever the scores are. *)
Theorem probabilities_distribution (ps : list R) : ps <> [] ->
  let qs := probabilities_of ps in
  length qs = length ps /\ Forall (fun q => 0 < q <= 1)%R qs /\ fold_left Rplus qs 0%R = 1%R /\
  (forall i j s t p q, ps !! i = Some s -> ps !! j = Some t -> qs !! i = Some p -> qs !! j = Some q -> (s < t)%R -> (p < q)%R).
Proof.
  intros Hne qs. set (xs := class_probability <$> ps). set (c := (1 / foldr Rplus 0 xs)%R).
  assert (qs = (fun x => x * c)%R <$> xs) as E.
  { unfold qs, probabilities_of, c. fold xs. rnum. rewrite fold_Rplus, Rplus_0_l. done. }
  assert (Forall (Rlt 0) xs) as Hxs by (apply Forall_fmap, Forall_true; intros s; apply logistic_positive).
  destruct (foldr_positive xs Hxs) as [Hp Hle]; [by destruct ps|].
  assert (0 < c)%R as Hc by (apply Rdiv_lt_0_compat; rlra). split; [|split; [|split]].
  - unfold qs, probabilities_of. by rewrite !length_fmap.
  - rewrite E. apply Forall_fmap. rewrite Forall_forall in Hxs, Hle. apply Forall_forall. intros x Hx. specialize (Hxs x Hx). specialize (Hle x Hx). cbn. split; [by apply Rmult_lt_0_compat|].
    unfold c. apply (Rmult_le_reg_r (foldr Rplus 0 xs)%R); [done|]. field_simplify; rlra.
  - rewrite fold_Rplus, Rplus_0_l, E, foldr_scaled. unfold c. field. rlra.
  - intros i j s t p q Hs Ht Hq1 Hq2 Hst. rewrite E, !list_lookup_fmap in Hq1, Hq2. unfold xs in Hq1, Hq2. rewrite !list_lookup_fmap in Hq1, Hq2. rewrite Hs in Hq1. rewrite Ht in Hq2.
    injection Hq1 as <-. injection Hq2 as <-. apply Rmult_lt_compat_r; [done|]. by apply logistic_increasing.
Qed.

Section Subsample.
Context {X M : Type} `{MathFns Q} (base : learner Q X M) (J : M -> example Q X -> Prop).

(** C29: with labels from 1 on and negatives subsampled, learning ends after at most one more draw than
    negatives are asked for; it calls the model of the label with label 1, then as many other models
    as asked for, no model twice, with label -1 and a weight that makes up for those left out. They are
    the next in a random order of all the models, from where the last example stopped. *)
Theorem subsample_trains (k n seed : Z) (id fuel : nat) (m : M) (ec : example Q X) :
  0 < n < k -> k < 2 ^ 32 -> (id < Z.to_nat k)%nat -> (Z.to_nat n < fuel)%nat -> Taught (learn base) J k -> J m ec -> 1 <= multi (l ec) <= k ->
  exists seed' o, oaa_setup_data Qfloor k n 1 seed = Some (seed', o) /\ subsample_order o ≡ₚ seqZ 0 k /\
  let y := multi (l ec) - 1 in
  exists c js calls m' ec',
    learn_randomized fuel (set_subsample_id id o) (recording base) ([], m) ec = Some (set_subsample_id ((id + c) mod Z.to_nat k) o, (calls, m'), ec') /\
    told_of <$> calls = (model_offset base ec y, 1%Q, weight ec) :: ((fun j => (model_offset base ec j, (-1)%Q, weight ec * (inject_Z k / inject_Z n))%Q) <$> js) /\
    js = filter (fun x => x <> y) (window (subsample_order o) (Z.to_nat k) id c) /\ NoDup js /\ Z.of_nat (length js) = n /\ Z.of_nat c <= n + 1 /\
    J m' ec' /\ multi (l ec') = multi (l ec) /\ weight ec' = weight ec.
Proof.
  intros Hn Hk Hid Hf HT HJ Hy. destruct (setup_subsamples k n 1 seed Hn Hk) as (seed' & order & E & Hp). eexists seed', _. split; [exact E|]. split; [exact Hp|].
  intros y. set (o := Oaa _ _ _ _ _ _ _).
  assert (update_indexing (multi (l ec)) (set_subsample_id id o) = set_subsample_id id o) as Eu by done.
  destruct (randomized_told base J (k := k) (set_subsample_id id o) m ec fuel) as (c & calls & m' & ec' & El & Et & Hl & Hc & HJ' & Em & _ & Ew);
    [done|done|done|exact Hp|done|done|done|lia|rewrite Eu; cbn; lia|]. rewrite Eu in *. cbn [subsample_order subsample_id num_subsample set_subsample_id o] in *.
  assert ((multi (l ec) + k - 1) mod k = y) as Es by (replace (multi (l ec) + k - 1) with (y + 1 * k) by lia; rewrite Z_mod_plus, Z.mod_small; lia).
  rewrite Es in *. exists c. eexists _, calls, m', ec'. split; [exact El|]. split; [exact Et|]. split; [done|]. split; [|split; [lia|split; [lia|done]]].
  apply NoDup_filter, window_NoDup; [by rewrite Z2Nat.id by lia|lia].
Qed.

(** C38: with labels from 0 on, the model that is left out of the negatives is not that of the label: when
    all negatives but one are drawn, the model of the label is told that the example is its own, and
    then that it is not. *)
Theorem subsample_zero_indexed (k seed : Z) (id fuel : nat) (m : M) (ec : example Q X) :
  1 < k < 2 ^ 32 -> (id < Z.to_nat k)%nat -> (Z.to_nat k <= fuel)%nat -> Taught (learn base) J k -> J m ec -> 0 <= multi (l ec) < k ->
  exists seed' o, oaa_setup_data Qfloor k (k - 1) 0 seed = Some (seed', o) /\
  exists o' calls m' ec', learn_randomized fuel (set_subsample_id id o) (recording base) ([], m) ec = Some (o', (calls, m'), ec') /\
    let y := model_offset base ec (multi (l ec)) in
    told_of <$> head calls = Some (y, 1%Q, weight ec) /\
    (y, (-1)%Q, (weight ec * (inject_Z k / inject_Z (k - 1)))%Q) ∈ told_of <$> tail calls.
Proof.
  intros Hk Hid Hf HT HJ Hy. destruct (setup_subsamples k (k - 1) 0 seed) as (seed' & order & E & Hp); [lia|lia|]. eexists seed', _. split; [exact E|].
  set (o := Oaa _ _ _ _ _ _ _). assert (update_indexing (multi (l ec)) (set_subsample_id id o) = set_subsample_id id o) as Eu by done.
  destruct (randomized_told base J (k := k) (set_subsample_id id o) m ec fuel) as (c & calls & m' & ec' & El & Et & Hl & Hc & HJ' & Em & _ & Ew);
    [done|cbn; lia|lia|exact Hp|done|cbn; lia|done|lia|rewrite Eu; cbn; lia|]. rewrite Eu in *. cbn [subsample_order subsample_id num_subsample set_subsample_id o] in *.
  eexists _, calls, m', ec'. split; [exact El|]. destruct calls as [|call calls]; [done|]. cbn [fmap list_fmap] in Et. injection Et as Ec Ey Ewt Et.
  split; [cbn; unfold told_of; by rewrite Ec, Ey, Ewt|]. cbn [tail]. rewrite Et.
  assert ((multi (l ec) + k - 1) mod k <> multi (l ec)) as Hne.
  { intros Heq. pose proof (Z.div_mod (multi (l ec) + k - 1) k ltac:(lia)) as Hd. rewrite Heq in Hd. set (q := _ / _) in Hd. destruct (Z.lt_trichotomy q 0) as [|[|]]; nia. }
  apply list_elem_of_fmap. exists (multi (l ec)). split; [done|].
  assert (order ≡ₚ seqZ 0 (Z.of_nat (Z.to_nat k))) as Hpk by (rewrite Z2Nat.id by lia; exact Hp). pose proof (Z.mod_pos_bound (multi (l ec) + k - 1) k).
  apply (window_all order (Z.to_nat k)); [done|lia|lia|rewrite Hl; lia|lia|by apply not_eq_sym].
Qed.
End Subsample.

(** ** Witnesses *)

(** The elementary functions, which the samples do not call. *)
#[local] Definition plain_fns : MathFns Q :=
  {| nexp q := q; nlog q := q; nlog1p q := q; nexpm1 q := q; nsqrt q := q; npow q _ := q; nisfinite _ := true |}.
#[local] Existing Instance plain_fns.

Definition sample_oaa (ix : Z) : oaa Q := Oaa _ 3 [0%Q; 0%Q; 0%Q] 0 [] 0 ix.
Definition sample_scores (i : Z) : Q := if i =? 1 then 2%Q else 1%Q.

Lemma oaa_predicts_largest_witness : exists m' ec',
  oaa_predict false false (sample_oaa 1) (table_learner sample_scores) [] (plain_example 0%Q 1%Q 0%Q 3) = Some (set_oaa_pred [1; 2; 1]%Q (sample_oaa 1), m', ec') /\
  multiclass (pred ec') = 2.
Proof.
  destruct (oaa_predicts_largest (table_learner sample_scores) at_zero sample_scores (sample_oaa 1) [] (plain_example 0%Q 1%Q 0%Q 3))
    as (b & m' & ec' & E & _ & Hb & Em & _ & Hfirst & _).
  - split; done.
  - apply (answers_fewer _ _ (2 ^ 32 - 1)); [done|]. apply table_answers.
  - reflexivity.
  - exists m', ec'. split; [exact E|]. vm_compute in E. injection E as <- <-. reflexivity.
Defined.

Lemma oaa_trains_each_witness : exists o1 m1 ec1 o2 calls m2 ec2,
  oaa_predict false false (sample_oaa 2) (table_learner sample_scores) [] (plain_example 0%Q 1%Q 0%Q 0) = Some (o1, m1, ec1) /\
  oaa_learn o1 (recording (table_learner sample_scores)) ([], m1) ec1 = Some (o2, (calls, m2), ec2) /\
  calls = [Call 0 1%Q 1%Q 1%Q; Call 1 (-1)%Q 2%Q 1%Q; Call 2 (-1)%Q 1%Q 1%Q] /\ m2 = [2; 1; 0] /\ indexing o2 = 0.
Proof.
  destruct (oaa_trains_each (table_learner sample_scores) at_zero at_zero sample_scores (sample_oaa 2) [] (plain_example 0%Q 1%Q 0%Q 0))
    as (o1 & m1 & ec1 & o2 & calls & m2 & ec2 & E1 & E2 & _).
  - split; done.
  - apply (answers_fewer _ _ (2 ^ 32 - 1)); [done|]. apply table_answers.
  - by apply table_taught.
  - done.
  - reflexivity.
  - exists o1, m1, ec1, o2, calls, m2, ec2. split; [exact E1|]. split; [exact E2|].
    vm_compute in E1. injection E1 as <- <- <-. vm_compute in E2. injection E2 as <- <- <- <-. done.
Defined.

Lemma subsample_trains_witness : exists seed' o calls m' ec' p,
  oaa_setup_data Qfloor 4 2 1 7 = Some (seed', o) /\ subsample_order o ≡ₚ [0; 1; 2; 3] /\
  learn_randomized 3 (set_subsample_id 1 o) (recording (table_learner sample_scores)) ([], []) (plain_example 0%Q 1%Q 0%Q 3) = Some (set_subsample_id p o, (calls, m'), ec') /\
  c_offset <$> head calls = Some 2.
Proof.
  destruct (subsample_trains (table_learner sample_scores) at_zero 4 2 7 1 3 [] (plain_example 0%Q 1%Q 0%Q 3)) as (seed' & o & E & Hp & c & js & calls & m' & ec' & El & Et & _);
    [lia|lia|lia|lia|by apply table_taught|reflexivity|cbn; lia|].
  exists seed', o, calls, m', ec'. eexists. split; [exact E|]. split; [exact Hp|]. split; [exact El|].
  destruct calls as [|call calls]; [discriminate Et|]. injection Et as Eo _. cbn [head fmap option_fmap option_map]. rewrite Eo. reflexivity.
Defined.

Lemma subsample_zero_indexed_witness : exists seed' o o' calls m' ec',
  oaa_setup_data Qfloor 3 2 0 7 = Some (seed', o) /\
  learn_randomized 3 (set_subsample_id 0 o) (recording (table_learner sample_scores)) ([], []) (plain_example 0%Q 1%Q 0%Q 1) = Some (o', (calls, m'), ec') /\
  (1, 1%Q, 1%Q) ∈ told_of <$> calls /\ (1, (-1)%Q, (1 * (inject_Z 3 / inject_Z 2))%Q) ∈ told_of <$> calls.
Proof.
  destruct (subsample_zero_indexed (table_learner sample_scores) at_zero 3 7 0 3 [] (plain_example 0%Q 1%Q 0%Q 1)) as (seed' & o & E & o' & calls & m' & ec' & El & Hh & Ht);
    [lia|lia|lia|by apply table_taught|reflexivity|cbn; lia|].
  assert (3 - 1 = 2) as E2 by reflexivity. rewrite E2 in E, Ht.
  assert (model_offset (table_learner sample_scores) (plain_example 0%Q 1%Q 0%Q 1) (multi (l (plain_example 0%Q 1%Q 0%Q 1))) = 1) as Eo by reflexivity. rewrite Eo in Hh, Ht.
  exists seed', o, o', calls, m', ec'. split; [exact E|]. split; [exact El|].
  destruct calls as [|call calls]; [discriminate Hh|]. cbn [fmap list_fmap]. split; apply elem_of_cons; [left|right; exact Ht].
  change (Some (told_of call) = Some (1, 1%Q, 1%Q)) in Hh. congruence.
Defined.

Lemma probabilities_distribution_witness : [0%R; 1%R] <> [] /\ fold_left Rplus (probabilities_of [0%R; 1%R]) 0%R = 1%R.
Proof. split; [done|]. apply (probabilities_distribution [0%R; 1%R]). done. Defined.
