(* ===== verification/Plt.v ===== *)
(** * Probabilistic label trees ([core/src/reductions/plt.cc])

    Labels are the leaves of a [kary] tree of binary models. Learning trains the nodes above the labels
    of an example towards 1 and their other children towards -1; prediction walks down from the root
    with products of probabilities, either to all leaves above a threshold, or best first to the [top_k]
    most probable ones. *)

From stdpp Require Import gmap.
From Stdlib Require Import Reals Lra.
From Stdlib Require Import QArith.Qround.
From S2P Require Import Prelude.
From S2P Require Import Losses.
From S2P Require Import Learner.
#[local] Open Scope Z_scope.

(** [operator<] compares the probabilities. *)
Record node {F : Type} := Node { node_n : Z; node_p : F }.
Arguments node : clear implicits.
Definition node_lt {F} `{Num F} (a b : node F) : bool := (node_p a <? node_p b)%num.

(** [std::push_heap] moves the last element of a range into the heap before it, [std::pop_heap] moves
    the largest element of a heap to the end. *)
Class Heap (A : Type) := { push_heap : (A -> A -> bool) -> list A -> list A; pop_heap : (A -> A -> bool) -> list A -> list A }.

Definition pop_back {A} (q : list A) : option (list A * A) := x ← last q; Some (removelast q, x).

(** The counter of the shared data that the learning rate of a base learner depends on. *)
Class HasTime (M D : Type) := { sd_t : M -> D; set_sd_t : D -> M -> M }.

Record plt {F : Type} := Plt {
  plt_k : Z; plt_t : Z; plt_ti : Z; plt_kary : Z;
  nodes_time : list F; positive_nodes : gset Z; negative_nodes : gset Z;
  plt_threshold : F; plt_top_k : Z; plt_probabilities : bool;
  true_labels : gset Z; p_at : list F; r_at : list F; plt_tp : Z; plt_fp : Z; plt_fn : Z; ec_count : Z
}.
Arguments plt : clear implicits.

Section Plt.
Context {F D X M : Type} `{Num F, Num D, Widen F D, MathFns F, Heap (node F), HasTime M D}.
(** [static_cast<uint32_t>] of [std::floor], and the order an [unordered_set] is iterated in. *)
Context (floor_u32 : F -> Z) (iteration : gset Z -> list Z).
Implicit Types (p : plt F) (ec : example F X) (base : learner F X M) (m : M).

Definition set_nodes_time (ts : list F) p : plt F :=
  Plt _ (plt_k p) (plt_t p) (plt_ti p) (plt_kary p) ts (positive_nodes p) (negative_nodes p) (plt_threshold p) (plt_top_k p)
    (plt_probabilities p) (true_labels p) (p_at p) (r_at p) (plt_tp p) (plt_fp p) (plt_fn p) (ec_count p).
Definition set_nodes (pos neg : gset Z) p : plt F :=
  Plt _ (plt_k p) (plt_t p) (plt_ti p) (plt_kary p) (nodes_time p) pos neg (plt_threshold p) (plt_top_k p)
    (plt_probabilities p) (true_labels p) (p_at p) (r_at p) (plt_tp p) (plt_fp p) (plt_fn p) (ec_count p).
Definition set_true_labels (ys : gset Z) p : plt F :=
  Plt _ (plt_k p) (plt_t p) (plt_ti p) (plt_kary p) (nodes_time p) (positive_nodes p) (negative_nodes p) (plt_threshold p) (plt_top_k p)
    (plt_probabilities p) ys (p_at p) (r_at p) (plt_tp p) (plt_fp p) (plt_fn p) (ec_count p).
Definition set_counts (tp fp fn : Z) p : plt F :=
  Plt _ (plt_k p) (plt_t p) (plt_ti p) (plt_kary p) (nodes_time p) (positive_nodes p) (negative_nodes p) (plt_threshold p) (plt_top_k p)
    (plt_probabilities p) (true_labels p) (p_at p) (r_at p) tp fp fn (ec_count p).
Definition set_at (ps rs : list F) p : plt F :=
  Plt _ (plt_k p) (plt_t p) (plt_ti p) (plt_kary p) (nodes_time p) (positive_nodes p) (negative_nodes p) (plt_threshold p) (plt_top_k p)
    (plt_probabilities p) (true_labels p) ps rs (plt_tp p) (plt_fp p) (plt_fn p) (ec_count p).
Definition count_example p : plt F :=
  Plt _ (plt_k p) (plt_t p) (plt_ti p) (plt_kary p) (nodes_time p) (positive_nodes p) (negative_nodes p) (plt_threshold p) (plt_top_k p)
    (plt_probabilities p) (true_labels p) (p_at p) (r_at p) (plt_tp p) (plt_fp p) (plt_fn p) (u32 (ec_count p + 1)).

(** *** Nodes to update *)

(** The rounds of [while (tn > 0)]. *)
Fixpoint ancestors_loop (fuel : nat) (kary tn : Z) (nodes : gset Z) : option (gset Z) :=
  if 0 <? tn then
    match fuel with
    | O => None
    | S fuel =>
        let tn := floor_u32 (n_of_Z (tn - 1) / n_of_Z kary)%num in
        ancestors_loop fuel kary tn ({[tn]} ∪ nodes)
    end
  else Some nodes.

Fixpoint positive_loop p (labels : list Z) (nodes : gset Z) : option (gset Z) :=
  match labels with
  | [] => Some nodes
  | label :: labels =>
      let tn := u32 (label + plt_ti p) in
      nodes ← (if tn <? plt_t p then ancestors_loop (Z.to_nat tn) (plt_kary p) tn ({[tn]} ∪ nodes) else Some nodes);
      positive_loop p labels nodes
  end.

Definition negative_children p (pos : gset Z) (neg : gset Z) (n : Z) : gset Z :=
  if n <? plt_ti p then
    fold_left (fun neg i =>
      let n_child := u32 (plt_kary p * n + i) in
      if (n_child <? plt_t p) && bool_decide (n_child ∉ pos) then {[n_child]} ∪ neg else neg) (seqZ 1 (plt_kary p)) neg
  else neg.

Definition get_nodes_to_update p (labels : list Z) : option (plt F) :=
  match labels with
  | [] => Some (set_nodes ∅ {[0]} p)
  | _ => pos ← positive_loop p labels ∅; Some (set_nodes pos (fold_left (negative_children p pos) (iteration pos) ∅) p)
  end.

(** *** Learning *)

Definition learn_node p (n : Z) base m ec : option (plt F * M * example F X) :=
  time ← nodes_time p !! Z.to_nat n;
  let m := set_sd_t (widen time) m in
  let p := set_nodes_time (<[Z.to_nat n := (time + weight ec)%num]> (nodes_time p)) p in
  '(m, ec) ← learn base n m ec;
  Some (p, m, ec).

Fixpoint learn_nodes (ns : list Z) p base m ec (total : F) : option (plt F * M * example F X * F) :=
  match ns with
  | [] => Some (p, m, ec, total)
  | n :: ns => '(p, m, ec) ← learn_node p n base m ec; learn_nodes ns p base m ec (total + loss ec)%num
  end.

(** What [std::move] leaves behind of a prediction. *)
Definition moved_pred (q : polyprediction F) : polyprediction F :=
  Polyprediction (scalar q) [] (multiclass q) [] [] (pdf_action q) (pdf_density q) [].

Definition plt_learn p base m ec : option (plt F * M * example F X) :=
  let labels := multilabels (l ec) in
  let saved := pred ec in
  let ec := set_pred (moved_pred saved) (set_multilabels [] ec) in
  p ← get_nodes_to_update p labels;
  let t : D := sd_t m in
  let ec := reset_to_default (set_simple (n_of_Z 1) ec) in
  '(p, m, ec, total) ← learn_nodes (iteration (positive_nodes p)) p base m ec (n_of_Z 0);
  let ec := set_simple (n_of_Z (-1)) ec in
  '(p, m, ec, total) ← learn_nodes (iteration (negative_nodes p)) p base m ec total;
  Some (p, set_sd_t t m, set_multilabels labels (set_pred saved (set_loss total ec))).

(** *** Prediction *)

Definition sigmoid (x : F) : F := (n_of_Z 1 / (n_of_Z 1 + nexp (nopp x)))%num.

Definition unlabeled ec : example F X := reset_to_default (set_simple FLT_MAX ec).

Definition predict_node (n : Z) base m ec : option (M * example F X * F) :=
  '(m, ec) ← predict base n m (unlabeled ec); Some (m, ec, sigmoid (partial_prediction ec)).

(** [evaluate_node] for each. *)
Fixpoint evaluate_nodes (ns : list Z) base m ec (total : F) : option (M * example F X * F) :=
  match ns with
  | [] => Some (m, ec, total)
  | n :: ns => '(m, ec) ← predict base n m ec; evaluate_nodes ns base m ec (total + loss ec)%num
  end.

Definition evaluate p (labels : list Z) base m ec : option (plt F * M * example F X) :=
  match labels with
  | [] => Some (p, m, set_loss (n_of_Z 0) ec)
  | _ =>
      p ← get_nodes_to_update p labels;
      let ec := reset_to_default (set_simple (n_of_Z 1) ec) in
      '(m, ec, total) ← evaluate_nodes (iteration (positive_nodes p)) base m ec (n_of_Z 0);
      let ec := set_simple (n_of_Z (-1)) ec in
      '(m, ec, total) ← evaluate_nodes (iteration (negative_nodes p)) base m ec total;
      Some (p, m, set_loss total ec)
  end.

(** The queue, the labels found and their probabilities. *)
Definition found : Type := list (node F) * list Z * list (Z * F).

Fixpoint threshold_children p (cp : F) (scores : list F) (n_child : Z) (s : found) : found :=
  match scores with
  | [] => s
  | x :: scores =>
      let '(queue, labels, a_s) := s in
      let cp_child := (cp * sigmoid x)%num in
      let s :=
        if (cp_child >? plt_threshold p)%num then
          if n_child <? plt_ti p then (queue ++ [Node _ n_child cp_child], labels, a_s)
          else
            let y := u32 (n_child - plt_ti p) in
            (queue, labels ++ [y], if plt_probabilities p then a_s ++ [(y, cp_child)] else a_s)
        else s in
      threshold_children p cp scores (u32 (n_child + 1)) s
  end.

(** The rounds of [while (!p.node_queue.empty())], depth first. *)
Fixpoint threshold_loop (fuel : nat) p base (s : found) m ec : option (found * M * example F X) :=
  let '(queue, labels, a_s) := s in
  match pop_back queue with
  | None => Some (s, m, ec)
  | Some (queue, nd) =>
      match fuel with
      | O => None
      | S fuel =>
          let n_child := u32 (plt_kary p * node_n nd + 1) in
          '(m, ec, scores) ← multipredict base n_child (Z.to_nat (plt_kary p)) false m (unlabeled ec);
          threshold_loop fuel p base (threshold_children p (node_p nd) scores n_child (queue, labels, a_s)) m ec
      end
  end.

Fixpoint push_children (cp : F) (scores : list F) (n_child : Z) (queue : list (node F)) : list (node F) :=
  match scores with
  | [] => queue
  | x :: scores => push_children cp scores (u32 (n_child + 1)) (push_heap node_lt (queue ++ [Node _ n_child (cp * sigmoid x)%num]))
  end.

(** The same rounds, best first. *)
Fixpoint top_k_loop (fuel : nat) p base (s : found) m ec : option (found * M * example F X) :=
  let '(queue, labels, a_s) := s in
  match queue, fuel with
  | [], _ => Some (s, m, ec)
  | _, O => None
  | _, S fuel =>
      '(queue, nd) ← pop_back (pop_heap node_lt queue);
      if node_n nd <? plt_ti p then
        let n_child := u32 (plt_kary p * node_n nd + 1) in
        '(m, ec, scores) ← multipredict base n_child (Z.to_nat (plt_kary p)) false m (unlabeled ec);
        top_k_loop fuel p base (push_children (node_p nd) scores n_child queue, labels, a_s) m ec
      else
        let y := u32 (node_n nd - plt_ti p) in
        let s := (queue, labels ++ [y], if plt_probabilities p then a_s ++ [(y, node_p nd)] else a_s) in
        if plt_top_k p <=? Z.of_nat (length labels + 1) then Some (s, m, ec) else top_k_loop fuel p base s m ec
  end.

(** *** Quality of the prediction *)

Definition threshold_counts p (labels : list Z) : plt F :=
  if bool_decide (true_labels p = ∅) then p
  else
    let tp := Z.of_nat (length (filter (fun y => y ∈ true_labels p) labels)) in
    set_counts (u32 (plt_tp p + tp)) (u32 (plt_fp p + (Z.of_nat (length labels) - tp)))
      (u32 (plt_fn p + (Z.of_nat (size (true_labels p)) - tp))) p.

(** A label beyond those predicted is read out of bounds. *)
Fixpoint at_loop (n i : nat) p (labels : list Z) (tp_at : F) (ps rs : list F) : option (list F * list F) :=
  match n with
  | O => Some (ps, rs)
  | S n =>
      y ← labels !! i;
      let tp_at := if bool_decide (y ∈ true_labels p) then (tp_at + n_of_Z 1)%num else tp_at in
      a ← ps !! i; b ← rs !! i;
      at_loop n (S i) p labels tp_at (<[i := (a + tp_at / n_of_Z (Z.of_nat i + 1))%num]> ps)
        (<[i := (b + tp_at / n_of_Z (Z.of_nat (size (true_labels p))))%num]> rs)
  end.

Definition top_k_counts p (labels : list Z) : option (plt F) :=
  if bool_decide (true_labels p = ∅) then Some p
  else '(ps, rs) ← at_loop (Z.to_nat (plt_top_k p)) 0 p labels (n_of_Z 0) (p_at p) (r_at p); Some (set_at ps rs p).

Definition set_found (p : plt F) (saved : polyprediction F) (labels : list Z) (a_s : list (Z * F)) : polyprediction F :=
  Polyprediction (scalar saved) (scalars saved) (multiclass saved) a_s (pdf saved) (pdf_action saved) (pdf_density saved) labels.

(** The number of nodes that can be popped. *)
Definition loop_fuel p : nat := Z.to_nat (plt_kary p * plt_ti p + 1).

Definition plt_predict (threshold : bool) p base m ec : option (plt F * M * example F X) :=
  let labels := multilabels (l ec) in
  let saved := pred ec in
  let ec := set_pred (moved_pred saved) (set_multilabels [] ec) in
  '(p, m, ec) ← evaluate p labels base m ec;
  let a_s0 := if plt_probabilities p then [] else a_s saved in
  let p := set_true_labels (list_to_set (filter (fun y => y < plt_k p) labels)) p in
  '(m, ec, cp_root) ← predict_node 0 base m ec;
  '(found, m, ec, p) ←
    (if threshold then
      let queue := if (cp_root >? plt_threshold p)%num then [Node _ 0 cp_root] else [] in
      '(s, m, ec) ← threshold_loop (loop_fuel p) p base (queue, [], a_s0) m ec;
      Some (s, m, ec, threshold_counts p s.1.2)
    else
      '(s, m, ec) ← top_k_loop (loop_fuel p) p base (push_heap node_lt [Node _ 0 cp_root], [], a_s0) m ec;
      p ← top_k_counts p s.1.2;
      Some (s, m, ec, p));
  Some (count_example p, m, set_multilabels labels (set_pred (set_found p saved found.1.2 found.2) ec)).

(** *** [plt_setup] *)

(** The numbers of nodes and of internal nodes, with [std::floor], [std::ceil] and the cast of a [double]. *)
Definition plt_sizes `{MathFns D} (nfloor nceil : D -> D) (to_u32 : D -> Z) (k kary : Z) : Z * Z :=
  let a := npow (n_of_Z kary) (nfloor (nlog (n_of_Z k) / nlog (n_of_Z kary))%num) in
  let b := (n_of_Z k - a)%num in
  let c := nceil (b / (n_of_Z kary - n_of_Z 1))%num in
  let d := ((n_of_Z kary * a - n_of_Z 1) / (n_of_Z kary - n_of_Z 1))%num in
  let e := (n_of_Z k - (a - c))%num in
  let t := to_u32 (e + d)%num in
  (t, u32 (t - k)).

Definition plt_setup_data (sizes : Z * Z) (k kary top_k : Z) (threshold initial_t : F) (probabilities : bool) : plt F :=
  let zeros := replicate (Z.to_nat top_k) (n_of_Z 0) in
  Plt _ k sizes.1 sizes.2 kary (replicate (Z.to_nat sizes.1) initial_t) ∅ ∅ threshold top_k probabilities ∅
    (if 0 <? top_k then zeros else []) (if 0 <? top_k then zeros else []) 0 0 0 0.

Definition plt_learner p base : learner F X (plt F * M) :=
  make_reduction_learner (plt_t p) base plt_learn (plt_predict (negb (0 <? plt_top_k p))).
End Plt.

(** ** The tree *)

Section Tree.
Context (kary ti : Z).
Hypotheses (Hkary : 2 <= kary) (Hti : 1 <= ti).

(** The number of positions the walks can reach: the root and [kary] child positions of each internal
    node. Prediction does not test whether a position holds a node, so the last ones are reached also
    when the last internal node lacks children and the tree has fewer nodes ([plt_t]). *)
Definition total : Z := kary * ti + 1.
Definition parent (n : Z) : Z := (n - 1) / kary.

Lemma parent_child n i : 1 <= i <= kary -> parent (kary * n + i) = n.
Proof. intros Hi. unfold parent. replace (kary * n + i - 1) with (i - 1 + n * kary) by lia. rewrite Z.div_add, Z.div_small by lia. lia. Qed.

Lemma child_parent n : 1 <= n - kary * parent n <= kary.
Proof. unfold parent. pose proof (Z.div_mod (n - 1) kary). pose proof (Z.mod_pos_bound (n - 1) kary). lia. Qed.

Lemma parent_less n : 0 < n -> 0 <= parent n < n.
Proof. intros Hn. pose proof (child_parent n). split; [|nia]. assert (0 <= (n - 1) / kary) by (apply Z.div_pos; lia). done. Qed.

Lemma parent_internal n : 0 < n < total -> 0 <= parent n < ti.
Proof. unfold total. intros Hn. pose proof (child_parent n). pose proof (parent_less n). nia. Qed.

Definition children (n : Z) : list Z := seqZ (kary * n + 1) kary.

Lemma elem_of_children n c : c ∈ children n <-> parent c = n.
Proof.
  unfold children. rewrite elem_of_seqZ. split.
  - intros Hc. replace c with (kary * n + (c - kary * n)) by lia. apply parent_child. lia.
  - intros <-. pose proof (child_parent c). lia.
Qed.

(** Induction from the root. *)
Lemma tree_ind (P : Z -> Prop) : P 0 -> (forall n, 0 < n -> P (parent n) -> P n) -> forall n, 0 <= n -> P n.
Proof.
  intros H0 HS n Hn. revert n Hn. apply Zlt_0_ind. intros n IH Hn. destruct (decide (n = 0)) as [->|]; [done|].
  apply HS; [lia|]. apply IH. apply parent_less. lia.
Qed.

(** The nodes a walk has expanded, and those it has met but not expanded: a node is met when its
    parent is expanded. *)
Record explored (D V : list Z) : Prop := {
  explored_NoDup : NoDup (D ++ V);
  explored_root : 0 ∈ D ++ V;
  explored_range n : n ∈ D ++ V -> 0 <= n < total;
  explored_closed n : 0 < n < total -> n ∈ D ++ V <-> parent n ∈ D;
  explored_internal n : n ∈ D -> n < ti
}.

Lemma explored_start : explored [] [0].
Proof.
  split; cbn [app].
  - repeat constructor; set_solver.
  - set_solver.
  - intros n ->%list_elem_of_singleton. unfold total. nia.
  - intros n Hn. rewrite list_elem_of_singleton, elem_of_nil. lia.
  - set_solver.
Qed.

Lemma explored_perm D V V' : V ≡ₚ V' -> explored D V -> explored D V'.
Proof.
  intros HV [H1 H2 H3 H4 H5]. assert (forall n, n ∈ D ++ V <-> n ∈ D ++ V') as Hin by (intros n; by rewrite HV).
  split; [by rewrite <- HV|by apply Hin|intros n; rewrite <- Hin; apply H3|intros n; rewrite <- Hin; apply H4|done].
Qed.

Lemma explored_expand D V n : explored D (n :: V) -> n < ti -> explored (n :: D) (children n ++ V).
Proof.
  intros [H1 H2 H3 H4 H5] Hn.
  assert (n ∉ D) as HnD.
  { intros Hin. apply NoDup_app in H1 as (_ & Hd & _). apply (Hd n Hin). set_solver. }
  assert (0 <= n < total) as Hr by (apply H3; set_solver).
  assert (forall c, c ∈ children n -> 0 < c < total) as Hc.
  { intros c Hc%elem_of_children. pose proof (child_parent c). unfold total. nia. }
  assert (forall c, c ∈ children n -> c ∉ D ++ n :: V) as Hnew.
  { intros c Hin Hv. apply H4 in Hv; [|by apply Hc]. apply elem_of_children in Hin. congruence. }
  assert ((n :: D) ++ children n ++ V ≡ₚ children n ++ D ++ n :: V) as Hp by solve_Permutation.
  assert (forall x, x ∈ (n :: D) ++ children n ++ V <-> x ∈ children n ++ D ++ n :: V) as Hin by (intros x; by rewrite Hp).
  split.
  - rewrite Hp. apply NoDup_app. split; [apply NoDup_seqZ|]. split; [done|done].
  - apply Hin. set_solver.
  - intros x. rewrite Hin. intros [Hx|Hx]%elem_of_app; [apply Hc in Hx; lia|by apply H3].
  - intros x Hx. rewrite Hin, elem_of_app, H4, elem_of_children, elem_of_cons by done. done.
  - intros x [->|Hx]%elem_of_cons; [done|by apply H5].
Qed.

(** Expanding ends. *)
Lemma explored_length D V : explored D V -> (length D <= Z.to_nat ti)%nat /\ (length (D ++ V) <= Z.to_nat total)%nat.
Proof.
  intros [H1 H2 H3 H4 H5]. apply NoDup_app in H1 as Hs. destruct Hs as (HD & _ & _). split.
  - rewrite <- (length_seqZ 0 ti). apply submseteq_length, NoDup_submseteq; [done|]. intros n Hn. apply elem_of_seqZ.
    specialize (H5 n Hn). assert (0 <= n < total) by (apply H3; set_solver). lia.
  - rewrite <- (length_seqZ 0 total). apply submseteq_length, NoDup_submseteq; [done|]. intros n Hn. apply elem_of_seqZ. apply H3 in Hn. lia.
Qed.

(** ** Probabilities *)

Context (score : Z -> R).

Fixpoint cond_fuel (fuel : nat) (n : Z) : R :=
  match fuel with
  | O => sigmoid (score n)
  | S fuel => if n <=? 0 then sigmoid (score n) else (cond_fuel fuel (parent n) * sigmoid (score n))%R
  end.
(** The product along the path to the root. *)
Definition cond_prob (n : Z) : R := cond_fuel (Z.to_nat n) n.

Lemma cond_fuel_enough f f' : forall n, (Z.to_nat n <= f)%nat -> (Z.to_nat n <= f')%nat -> cond_fuel f n = cond_fuel f' n.
Proof.
  revert f'. induction f as [|f IH]; intros [|f'] n Hf Hf'; cbn [cond_fuel]; [done|by rewrite (proj2 (Z.leb_le n 0)) by lia..|].
  destruct (n <=? 0) eqn:E; [done|]. bprop. pose proof (parent_less n). f_equal. apply IH; lia.
Qed.

Lemma cond_prob_root : cond_prob 0 = sigmoid (score 0).
Proof. done. Qed.
Lemma cond_prob_child n : 0 < n -> cond_prob n = (cond_prob (parent n) * sigmoid (score n))%R.
Proof.
  intros Hn. unfold cond_prob at 1. destruct (Z.to_nat n) as [|f] eqn:E; [lia|]. cbn [cond_fuel]. rewrite (proj2 (Z.leb_gt n 0)) by lia.
  f_equal. pose proof (parent_less n). apply cond_fuel_enough; lia.
Qed.

Lemma sigmoid_range (x : R) : (0 < sigmoid x < 1)%R.
Proof.
  unfold sigmoid. rnum. match goal with |- context [exp ?y] => pose proof (exp_pos y) as Hp; generalize dependent (exp y) end. intros e He.
  split; [apply Rdiv_lt_0_compat; Lra.lra|]. apply (Rmult_lt_reg_r (1 + e)); [Lra.lra|]. unfold Rdiv. rewrite Rmult_assoc, Rinv_l by Lra.lra. Lra.lra.
Qed.

Lemma cond_prob_positive n : 0 <= n -> (0 < cond_prob n)%R.
Proof.
  revert n. apply tree_ind; [apply sigmoid_range|]. intros n Hn IH. rewrite cond_prob_child by done. apply Rmult_lt_0_compat; [done|apply sigmoid_range].
Qed.

Lemma cond_prob_parent n : 0 < n -> (cond_prob n <= cond_prob (parent n))%R.
Proof.
  intros Hn. rewrite cond_prob_child by done. pose proof (parent_less n Hn). pose proof (cond_prob_positive (parent n)). pose proof (sigmoid_range (score n)).
  rewrite <- (Rmult_1_r (cond_prob (parent n))) at 2. apply Rmult_le_compat_l; [apply Rlt_le; auto with lia|Lra.lra].
Qed.
End Tree.

(** ** What the walks need of the models *)

(** In the situations [I], which labels, predictions and weights do not change, model [i] of the first
    [n] can predict, and predicts [score i] from no initial prediction. *)
Class Scored {F X M} `{Num F} (base : learner F X M) (I : M -> example F X -> Prop) (n : Z) (score : Z -> F) : Prop := {
  scored_same m ec ec' : I m ec -> ex_x ec' = ex_x ec -> ft_offset ec' = ft_offset ec -> I m ec';
  scored_predict m ec i : I m ec -> 0 <= i < n ->
    exists m' ec', predict base i m ec = Some (m', ec') /\ I m' ec' /\ weight ec' = weight ec /\ (rf_initial ec = n_of_Z 0 -> partial_prediction ec' = score i);
  scored_multi m ec lo (count : nat) : I m ec -> 0 <= lo -> (0 < count)%nat -> lo + Z.of_nat count <= n -> rf_initial ec = n_of_Z 0 ->
    exists m' ec', multipredict base lo count false m ec = Some (m', ec', score <$> seqZ lo (Z.of_nat count)) /\ I m' ec' /\ weight ec' = weight ec
}.

(** What the standard promises of heaps: pushing keeps the elements, popping moves one to the end that
    no element is above. *)
Class HeapLaws {A} `{Heap A} (lt : A -> A -> bool) : Type := {
  is_heap : list A -> Prop;
  heap_nil : is_heap [];
  heap_push q x : is_heap q -> is_heap (push_heap lt (q ++ [x])) /\ push_heap lt (q ++ [x]) ≡ₚ q ++ [x];
  heap_pop q : is_heap q -> q <> [] ->
    exists r x, pop_heap lt q = r ++ [x] /\ is_heap r /\ q ≡ₚ r ++ [x] /\ Forall (fun y => lt x y = false) q
}.

Lemma nodes_numbered {F} (f : Z -> F) (ns : list Z) : node_n <$> ((fun x => Node _ x (f x)) <$> ns) = ns.
Proof. induction ns as [|n ns IH]; [done|]. cbn. by f_equal. Qed.

Lemma pop_back_snoc {A} (q : list A) x : pop_back (q ++ [x]) = Some (q, x).
Proof. unfold pop_back. rewrite last_snoc. cbn. by rewrite removelast_last. Qed.

Section Walk.
Context {X M : Type} `{Heap (node R)} (base : learner R X M) (I : M -> example R X -> Prop) (score : Z -> R) (p : plt R).
Local Abbreviation kary := (plt_kary p).
Local Abbreviation ti := (plt_ti p).
Local Abbreviation total := (total kary ti).
Hypotheses (Hkary : 2 <= kary) (Hti : 1 <= ti) (Htotal : total < 2 ^ 32).
Context `{HI : !Scored base I total score}.
Local Abbreviation cp := (cond_prob kary score).

(** The scores of the children of an expanded node. *)
Lemma children_scored m ec n : I m ec -> 0 <= n < ti -> exists m' ec',
  multipredict base (u32 (kary * n + 1)) (Z.to_nat kary) false m (unlabeled ec) = Some (m', ec', score <$> children kary n) /\ I m' ec' /\ weight ec' = weight ec.
Proof.
  intros Hm Hn. unfold total in *. rewrite u32_id by nia.
  pose proof (scored_multi m (unlabeled ec) (kary * n + 1) (Z.to_nat kary)) as Hs. rewrite Z2Nat.id in Hs by lia. unfold total in Hs.
  apply Hs; [by eapply scored_same|nia|lia|nia|done].
Qed.

Lemma children_prob n c : 0 <= n -> c ∈ children kary n -> cp c = (cp n * sigmoid (score c))%num.
Proof.
  intros Hn Hc. apply elem_of_children in Hc; [|done]. rewrite cond_prob_child; [by rewrite Hc|done|]. pose proof (child_parent kary Hkary c). nia.
Qed.

(** What is reported of leaves. *)
Definition labels_of (ns : list Z) : list Z := (fun n => n - ti) <$> ns.
Definition pairs_of (a_s0 : list (Z * R)) (ns : list Z) : list (Z * R) :=
  if plt_probabilities p then (fun n => (n - ti, cp n)) <$> ns else a_s0.

Definition node_ok (nd : node R) : Prop := node_p nd = cp (node_n nd).
Definition above (n : Z) : Prop := (plt_threshold p < cp n)%R.

Lemma threshold_children_ok n a_s0 : 0 <= n < ti -> forall len c q ns, 0 <= c -> c + Z.of_nat len <= total -> (forall x, x ∈ seqZ c (Z.of_nat len) -> x ∈ children kary n) ->
  exists new leaves low, threshold_children p (cp n) (score <$> seqZ c (Z.of_nat len)) c (q, labels_of ns, pairs_of a_s0 ns) = (q ++ new, labels_of (ns ++ leaves), pairs_of a_s0 (ns ++ leaves)) /\
    (node_n <$> new) ++ leaves ++ low ≡ₚ seqZ c (Z.of_nat len) /\
    Forall (fun nd => node_ok nd /\ node_n nd < ti /\ above (node_n nd)) new /\ Forall (fun n => ti <= n /\ above n) leaves /\ Forall (fun n => ~ above n) low.
Proof.
  intros Hn. induction len as [|len IH]; intros c q ns Hc Hl Hin.
  { exists [], [], []. cbn. by rewrite !app_nil_r. }
  rewrite seqZ_cons by lia. replace (Z.pred (Z.of_nat (S len))) with (Z.of_nat len) by lia. replace (Z.succ c) with (c + 1) by lia. cbn [fmap list_fmap threshold_children].
  rewrite <- (children_prob n c) by (lia || (apply Hin, elem_of_seqZ; lia)). rewrite (u32_id (c + 1)) by lia.
  assert (forall x, x ∈ seqZ (c + 1) (Z.of_nat len) -> x ∈ children kary n) as Hin' by (intros x Hx%elem_of_seqZ; apply Hin, elem_of_seqZ; lia).
  destruct (cp c >? plt_threshold p)%num eqn:Ea; rnum; destruct (Rltb_spec (plt_threshold p) (cp c)) as [Hab|Hab]; try done.
  - destruct (c <? ti) eqn:Ei; bprop.
    + destruct (IH (c + 1) (q ++ [Node _ c (cp c)]) ns) as (new & leaves & low & E & Hp & Hf); [lia|lia|done|].
      exists (Node _ c (cp c) :: new), leaves, low. rewrite E, <- app_assoc. split; [done|]. split; [cbn; by rewrite Hp|].
      destruct Hf as [Hf ?]. split; [|done]. by constructor.
    + rewrite u32_id by lia. destruct (IH (c + 1) q (ns ++ [c])) as (new & leaves & low & E & Hp & Hf & Hfl & ?); [lia|lia|done|].
      exists new, (c :: leaves), low. rewrite <- (assoc_L (++)) in E. cbn [app] in E. rewrite <- E. split; [|split; [|split; [done|split; [by constructor|done]]]].
      * f_equal. unfold labels_of, pairs_of. rewrite !fmap_app. by destruct (plt_probabilities p).
      * rewrite <- Hp. solve_Permutation.
  - destruct (IH (c + 1) q ns) as (new & leaves & low & E & Hp & Hf & Hfl & Hlow); [lia|lia|done|].
    exists new, leaves, (c :: low). split; [done|]. split; [rewrite <- Hp; solve_Permutation|]. split; [done|]. split; [done|]. constructor; [|done]. unfold above. Lra.lra.
Qed.

(** The positions below the internal nodes that are above the threshold, as labels; those of missing
    children count like the others. *)
Definition labels_exact (labels : list Z) : Prop :=
  NoDup labels /\ forall y, y ∈ labels <-> 0 <= y < total - ti /\ above (ti + y).

Lemma threshold_loop_ok a_s0 fuel : forall D q ns low m ec, I m ec ->
  explored kary ti D ((node_n <$> q) ++ ns ++ low) ->
  Forall (fun nd => node_ok nd /\ node_n nd < ti /\ above (node_n nd)) q -> Forall (fun n => ti <= n /\ above n) ns -> Forall (fun n => ~ above n) low ->
  (Z.to_nat ti <= length D + fuel)%nat ->
  exists D' ns' low' m' ec', threshold_loop fuel p base (q, labels_of ns, pairs_of a_s0 ns) m ec = Some (([], labels_of ns', pairs_of a_s0 ns'), m', ec') /\
    explored kary ti D' (ns' ++ low') /\ Forall (fun n => ti <= n /\ above n) ns' /\ Forall (fun n => ~ above n) low' /\ I m' ec'.
Proof.
  induction fuel as [|fuel IH]; intros D q ns low m ec Hm HE Hq Hns Hlow Hfuel.
  all: destruct q as [|nd q _] using rev_ind; [by exists D, ns, low, m, ec|].
  all: rewrite fmap_app, <- !(assoc_L (++)) in HE; cbn [fmap list_fmap app] in HE.
  all: apply Forall_app in Hq as [Hq Hnd]; apply Forall_singleton in Hnd as (Hok & Hi & Ha).
  all: assert (explored kary ti D (node_n nd :: (node_n <$> q) ++ ns ++ low)) as HE' by (eapply explored_perm; [|exact HE]; solve_Permutation).
  all: assert (0 <= node_n nd < ti) as Hn by (split; [eapply explored_range; [done..|]; set_solver|done]).
  all: apply explored_expand in HE'; [|done..].
  { apply explored_length in HE' as [Hl _]; [|done..]. cbn [length] in Hl. lia. }
  destruct (children_scored m ec (node_n nd)) as (m1 & ec1 & E & Hm1 & _); [done|done|].
  cbn [threshold_loop]. rewrite pop_back_snoc, E. cbn [mbind option_bind]. rewrite Hok.
  destruct (threshold_children_ok (node_n nd) a_s0 Hn (Z.to_nat kary) (kary * node_n nd + 1) q ns) as (new & leaves & low1 & Ec & Hp & Hnew & Hleaves & Hlow1).
  { nia. } { unfold total. nia. } { unfold children. by rewrite Z2Nat.id by lia. }
  rewrite Z2Nat.id in Ec, Hp by lia. fold (children kary (node_n nd)) in Ec, Hp. rewrite (u32_id (kary * node_n nd + 1)), Ec by (unfold total in *; nia).
  destruct (IH (node_n nd :: D) (q ++ new) (ns ++ leaves) (low ++ low1) m1 ec1) as (D' & ns' & low' & m' & ec' & El & Hrest); try done.
  - eapply explored_perm; [|exact HE']. rewrite <- Hp, fmap_app. solve_Permutation.
  - by apply Forall_app.
  - by apply Forall_app.
  - by apply Forall_app.
  - cbn [length]. lia.
  - by exists D', ns', low', m', ec'.
Qed.

(** At the end of the walk all nodes above the threshold have been met. *)
Lemma threshold_end D ns low : explored kary ti D (ns ++ low) -> Forall (fun n => ti <= n /\ above n) ns -> Forall (fun n => ~ above n) low ->
  labels_exact (labels_of ns).
Proof.
  intros HE Hns Hlow. rewrite Forall_forall in Hns, Hlow. pose proof HE as [H1 H2 H3 H4 H5].
  assert (forall n, 0 <= n -> n < total -> above n -> n ∈ D ++ ns) as Hall.
  { assert (forall n, n ∈ D ++ ns ++ low -> above n -> n ∈ D ++ ns) as Hv by (intros n Hn Ha; specialize (Hlow n); set_solver).
    apply (tree_ind kary Hkary (fun n => n < total -> above n -> n ∈ D ++ ns)); [by intros _; apply Hv|].
    intros n Hn IH Ht Ha. apply Hv; [|done]. apply H4; [lia|]. pose proof (parent_internal kary ti Hkary n ltac:(lia)) as Hpi.
    assert (parent kary n ∈ D ++ ns) as Hin.
    { apply IH; [unfold total in *; nia|]. unfold above in *. pose proof (cond_prob_parent kary Hkary score n Hn). Lra.lra. }
    apply elem_of_app in Hin as [|Hin]; [done|]. specialize (Hns _ Hin). lia. }
  split.
  - apply NoDup_fmap_2; [intros a b; lia|]. apply NoDup_app in H1 as (_ & _ & H1). by apply NoDup_app in H1 as (? & _).
  - intros y. unfold labels_of. rewrite list_elem_of_fmap. split.
    + intros (n & -> & Hn). specialize (Hns n Hn). assert (0 <= n < total) by (apply H3; set_solver). replace (ti + (n - ti)) with n by lia. split; [lia|apply Hns].
    + intros [Hy Ha]. exists (ti + y). split; [lia|]. specialize (Hall (ti + y) ltac:(lia) ltac:(lia) Ha). apply elem_of_app in Hall as [Hd|]; [|done].
      specialize (H5 _ Hd). lia.
Qed.

(** *** Best first *)

Context `{HL : !HeapLaws (A := node R) node_lt}.

Definition descending (ns : list Z) : Prop := StronglySorted (fun a b => cp b <= cp a)%R ns.

Lemma push_children_ok n : 0 <= n < ti -> forall len c q, is_heap q -> 0 <= c -> c + Z.of_nat len <= total -> (forall x, x ∈ seqZ c (Z.of_nat len) -> x ∈ children kary n) ->
  is_heap (push_children (cp n) (score <$> seqZ c (Z.of_nat len)) c q) /\
  push_children (cp n) (score <$> seqZ c (Z.of_nat len)) c q ≡ₚ q ++ ((fun x => Node _ x (cp x)) <$> seqZ c (Z.of_nat len)).
Proof.
  intros Hn. induction len as [|len IH]; intros c q Hq Hc Hl Hin; [cbn; by rewrite app_nil_r|].
  rewrite seqZ_cons by lia. replace (Z.pred (Z.of_nat (S len))) with (Z.of_nat len) by lia. replace (Z.succ c) with (c + 1) by lia. cbn [fmap list_fmap push_children].
  rewrite <- (children_prob n c) by (lia || (apply Hin, elem_of_seqZ; lia)). rewrite (u32_id (c + 1)) by lia.
  destruct (heap_push q (Node _ c (cp c)) Hq) as [Hq' Hp].
  destruct (IH (c + 1) (push_heap node_lt (q ++ [Node _ c (cp c)])) Hq') as [Hh Hp']; [lia|lia|intros x Hx%elem_of_seqZ; apply Hin, elem_of_seqZ; lia|].
  split; [done|]. rewrite Hp', Hp. by rewrite <- (assoc_L (++)).
Qed.

(** What is left is below what was found. *)
Definition below_all (q : list (node R)) (ns : list Z) : Prop := forall n nd, n ∈ ns -> nd ∈ q -> (cp (node_n nd) <= cp n)%R.

Lemma top_k_loop_ok a_s0 fuel : forall D q ns m ec, I m ec -> is_heap q ->
  explored kary ti D ((node_n <$> q) ++ ns) -> Forall node_ok q -> Forall (Z.le ti) ns -> descending ns -> below_all q ns ->
  Z.of_nat (length ns) < plt_top_k p -> (Z.to_nat total <= length D + length ns + fuel)%nat ->
  exists D' q' ns' m' ec', top_k_loop fuel p base (q, labels_of ns, pairs_of a_s0 ns) m ec = Some ((q', labels_of ns', pairs_of a_s0 ns'), m', ec') /\
    explored kary ti D' ((node_n <$> q') ++ ns') /\ Forall (Z.le ti) ns' /\ descending ns' /\ below_all q' ns' /\
    (q' = [] /\ Z.of_nat (length ns') <= plt_top_k p \/ Z.of_nat (length ns') = plt_top_k p) /\ I m' ec'.
Proof.
  induction fuel as [|fuel IH]; intros D q ns m ec Hm Hh HE Hq Hns Hs Hb Hk Hfuel.
  all: destruct (decide (q = [])) as [->|Hne]; [exists D, [], ns, m, ec; split; [done|]; split; [done|]; split; [done|]; split; [done|]; split; [done|]; split; [left; split; [done|lia]|done]|].
  { apply explored_length in HE as [_ Hl]; [|done..]. rewrite !length_app, length_fmap in Hl. destruct q; [done|]. cbn [length] in Hl. lia. }
  destruct (heap_pop q Hh Hne) as (r & nd & E & Hr & Hp & Hmax). cbn [top_k_loop]. destruct q as [|q0 q1]; [done|]. rewrite E, pop_back_snoc. cbn [mbind option_bind].
  set (q := q0 :: q1) in *. clearbody q. assert (node_ok nd /\ Forall node_ok r) as [Hok Hokr].
  { rewrite Hp, Forall_app, Forall_singleton in Hq. by destruct Hq. }
  assert (explored kary ti D (node_n nd :: (node_n <$> r) ++ ns)) as HE' by (eapply explored_perm; [|exact HE]; rewrite Hp, fmap_app; cbn; solve_Permutation).
  assert (0 <= node_n nd < total) as Hn by (eapply explored_range; [done..|]; set_solver).
  assert (forall x, x ∈ r -> cp (node_n x) <= cp (node_n nd))%R as Hrle.
  { intros x Hx. rewrite Forall_forall in Hmax, Hokr. specialize (Hmax x ltac:(rewrite Hp; set_solver)). unfold node_lt in Hmax. rnum.
    destruct (Rltb_spec (node_p nd) (node_p x)) as [|Hle]; [done|]. rewrite Hok, (Hokr x Hx) in Hle. done. }
  assert (forall n, n ∈ ns -> cp (node_n nd) <= cp n)%R as Hnle by (intros n Hin; apply Hb; [done|rewrite Hp; set_solver]).
  destruct (node_n nd <? ti) eqn:Ei; bprop.
  - destruct (children_scored m ec (node_n nd)) as (m1 & ec1 & Em & Hm1 & _); [done|lia|]. rewrite Em. cbn [mbind option_bind]. rewrite Hok.
    destruct (push_children_ok (node_n nd) ltac:(lia) (Z.to_nat kary) (kary * node_n nd + 1) r Hr) as [Hh' Hp'].
    { nia. } { unfold total in *. nia. } { unfold children. by rewrite Z2Nat.id by lia. }
    rewrite Z2Nat.id in Hh', Hp' by lia. fold (children kary (node_n nd)) in Hh', Hp'. rewrite (u32_id (kary * node_n nd + 1)) by (unfold total in *; nia).
    set (q' := push_children _ _ _ r) in *. clearbody q'.
    assert (forall c, c ∈ children kary (node_n nd) -> cp c <= cp (node_n nd))%R as Hcle.
    { intros c Hc. apply elem_of_children in Hc; [|done]. rewrite <- Hc. apply cond_prob_parent; [done|]. pose proof (child_parent kary Hkary c). nia. }
    destruct (IH (node_n nd :: D) q' ns m1 ec1) as (D' & q'' & ns' & m' & ec' & El & Hrest); try done.
    + eapply explored_perm; [|apply (explored_expand kary ti Hkary Hti D _ _ HE' Ei)]. rewrite Hp', fmap_app, nodes_numbered. solve_Permutation.
    + rewrite Hp'. apply Forall_app. split; [done|]. apply Forall_fmap, Forall_true. done.
    + intros n x Hin Hx. rewrite Hp' in Hx. apply elem_of_app in Hx as [Hx|Hx]; [apply Hb; [done|rewrite Hp; set_solver]|].
      apply list_elem_of_fmap in Hx as (c & -> & Hc). cbn. specialize (Hcle c Hc). specialize (Hnle n Hin). Lra.lra.
    + cbn [length]. lia.
    + by exists D', q'', ns', m', ec'.
  - assert (explored kary ti D ((node_n <$> r) ++ ns ++ [node_n nd])) as HE'' by (eapply explored_perm; [|exact HE']; solve_Permutation).
    assert (Forall (Z.le ti) (ns ++ [node_n nd])) as Hns' by (apply Forall_app; split; [done|by constructor]).
    assert (descending (ns ++ [node_n nd])) as Hs'.
    { apply StronglySorted_app. split; [|split; [done|repeat constructor]]. intros x1 x2 H1 ->%list_elem_of_singleton. by apply Hnle. }
    assert (below_all r (ns ++ [node_n nd])) as Hb'.
    { intros n x [Hin| ->%list_elem_of_singleton]%elem_of_app Hx; [apply Hb; [done|rewrite Hp; set_solver]|by apply Hrle]. }
    rewrite u32_id by lia.
    assert (labels_of (ns ++ [node_n nd]) = labels_of ns ++ [node_n nd - ti]) as El by (unfold labels_of; by rewrite fmap_app).
    assert (pairs_of a_s0 (ns ++ [node_n nd]) = if plt_probabilities p then pairs_of a_s0 ns ++ [(node_n nd - ti, node_p nd)] else pairs_of a_s0 ns) as Ep.
    { unfold pairs_of. rewrite Hok. destruct (plt_probabilities p); [by rewrite fmap_app|done]. }
    rewrite <- El, <- Ep. assert (length (labels_of ns) = length ns) as Ell by (unfold labels_of; by rewrite length_fmap). rewrite Ell.
    destruct (plt_top_k p <=? Z.of_nat (length ns + 1)) eqn:Et; bprop.
    + exists D, r, (ns ++ [node_n nd]), m, ec. split; [done|]. split; [done|]. split; [done|]. split; [done|]. split; [done|]. split; [|done]. right. rewrite length_app. cbn. lia.
    + apply (IH D); try done; rewrite length_app; cbn [length]; lia.
Qed.

(** A node that was not found is below one that is left. *)
Lemma left_above D (q : list (node R)) ns : explored kary ti D ((node_n <$> q) ++ ns) -> Forall (Z.le ti) ns ->
  forall n, 0 <= n -> n < total -> n ∈ D ++ ns \/ exists nd, nd ∈ q /\ (cp n <= cp (node_n nd))%R.
Proof.
  intros [H1 H2 H3 H4 H5] Hns. rewrite Forall_forall in Hns.
  assert (forall n, n ∈ D ++ (node_n <$> q) ++ ns -> n ∈ D ++ ns \/ exists nd, nd ∈ q /\ (cp n <= cp (node_n nd))%R) as Hv.
  { intros n Hn. rewrite !elem_of_app, list_elem_of_fmap in Hn. destruct Hn as [Hn|[(nd & -> & Hnd)|Hn]]; [left; set_solver|right; exists nd; split; [done|Lra.lra]|left; set_solver]. }
  apply (tree_ind kary Hkary (fun n => n < total -> n ∈ D ++ ns \/ exists nd, nd ∈ q /\ (cp n <= cp (node_n nd))%R)); [by intros _; apply Hv|].
  intros n Hn IH Ht. pose proof (parent_internal kary ti Hkary n ltac:(lia)) as Hpi. destruct IH as [Hin|(nd & Hnd & Hle)]; [unfold total in *; nia| |].
  - apply elem_of_app in Hin as [Hd|Hin]; [|specialize (Hns _ Hin); lia]. apply Hv, H4; [lia|done].
  - right. exists nd. split; [done|]. pose proof (cond_prob_parent kary Hkary score n Hn). Lra.lra.
Qed.

(** The [top_k] most probable positions below the internal nodes, in order; those of missing children
    count like the others. *)
Definition labels_best (labels : list Z) : Prop :=
  NoDup labels /\ Z.of_nat (length labels) = Z.min (plt_top_k p) (total - ti) /\
  (forall y, y ∈ labels -> 0 <= y < total - ti) /\
  StronglySorted (fun y y' => cp (ti + y')%Z <= cp (ti + y)%Z)%R labels /\
  (forall y y', y ∈ labels -> 0 <= y' < total - ti -> y' ∉ labels -> (cp (ti + y')%Z <= cp (ti + y)%Z)%R).

Lemma descending_labels ns : descending ns -> StronglySorted (fun y y' => cp (ti + y')%Z <= cp (ti + y)%Z)%R (labels_of ns).
Proof.
  unfold descending, labels_of. induction 1 as [|n ns Hs IH Hf]; cbn; constructor; [done|]. apply Forall_fmap. eapply Forall_impl; [exact Hf|]. cbn. intros x Hx.
  by replace (ti + (x - ti)) with x by lia; replace (ti + (n - ti)) with n by lia.
Qed.

Lemma top_k_end D q ns : explored kary ti D ((node_n <$> q) ++ ns) -> Forall (Z.le ti) ns -> descending ns -> below_all q ns ->
  (q = [] /\ Z.of_nat (length ns) <= plt_top_k p \/ Z.of_nat (length ns) = plt_top_k p) -> labels_best (labels_of ns).
Proof.
  intros HE Hns Hs Hb Hend. pose proof (left_above D q ns HE Hns) as Hall. pose proof HE as [H1 H2 H3 H4 H5]. rewrite Forall_forall in Hns.
  assert (NoDup ns) as Hnd by (apply NoDup_app in H1 as (_ & _ & H1); by apply NoDup_app in H1 as (_ & _ & ?)).
  assert (forall n, n ∈ ns -> n ∈ seqZ ti (total - ti)) as Hr.
  { intros n Hn. apply elem_of_seqZ. specialize (Hns n Hn). assert (0 <= n < total) by (apply H3; set_solver). lia. }
  assert (forall y, y ∈ labels_of ns <-> ti + y ∈ ns) as Hl.
  { intros y. unfold labels_of. rewrite list_elem_of_fmap. split; [intros (n & -> & Hn); by replace (ti + (n - ti)) with n by lia|].
    intros Hn. exists (ti + y). split; [lia|done]. }
  split; [apply NoDup_fmap_2; [intros a b; lia|done]|]. split; [|split; [|split; [by apply descending_labels|]]].
  - unfold labels_of. rewrite length_fmap. destruct Hend as [[-> Hle]| Heq].
    + assert (ns ≡ₚ seqZ ti (total - ti)) as Hp; [|rewrite Hp, length_seqZ in Hle |- *; unfold total in *; nia].
      apply NoDup_Permutation; [done|apply NoDup_seqZ|]. intros n. split; [by apply Hr|]. intros Hn%elem_of_seqZ.
      destruct (Hall n) as [[Hd|]%elem_of_app|(nd & Hin & _)]; [lia|lia| |done|by apply elem_of_nil in Hin]. specialize (H5 n Hd). lia.
    + assert (ns ⊆+ seqZ ti (total - ti)) as Hsub by (by apply NoDup_submseteq). apply submseteq_length in Hsub. rewrite length_seqZ in Hsub. unfold total in *. nia.
  - intros y Hy%Hl%Hr%elem_of_seqZ. lia.
  - intros y y' Hy%Hl Hy' Hn. destruct (Hall (ti + y')) as [Hin|(nd & Hin & Hle)]; [lia|lia| |].
    + apply elem_of_app in Hin as [Hd|Hin]; [specialize (H5 _ Hd); lia|]. by apply Hl in Hin.
    + specialize (Hb _ _ Hy Hin). Lra.lra.
Qed.
End Walk.

(** ** The nodes to update *)

(** [on_path kary n x]: [n] is [x] or above it. *)
Inductive on_path (kary : Z) (n : Z) : Z -> Prop :=
  | on_self : on_path kary n n
  | on_up x : 0 < x -> on_path kary n (parent kary x) -> on_path kary n x.

Lemma on_path_cases kary n x : on_path kary n x <-> n = x \/ 0 < x /\ on_path kary n (parent kary x).
Proof. split; [destruct 1; auto|intros [->|[? ?]]; [constructor|by constructor]]. Qed.

(** What is trained: the nodes above the labels towards 1, their other children towards -1. *)
Definition nodes_to_update {F} (p : plt F) (labels : list Z) (pos neg : gset Z) : Prop :=
  match labels with
  | [] => pos = ∅ /\ neg = {[0]}
  | _ =>
      (forall n, n ∈ pos <-> exists y, y ∈ labels /\ y < plt_k p /\ on_path (plt_kary p) n (plt_ti p + y)) /\
      (forall n, n ∈ neg <-> 0 < n < plt_t p /\ (n ∉ pos) /\ (parent (plt_kary p) n ∈ pos))
  end.

Section Nodes.
Context {F : Type} `{Num F} (floor_u32 : F -> Z) (iteration : gset Z -> list Z) (p : plt F).
Local Abbreviation kary := (plt_kary p).
Local Abbreviation ti := (plt_ti p).
Hypotheses (Hkary : 2 <= kary) (Hti : 1 <= ti) (Ht : plt_t p = plt_k p + ti) (Htree : ti <= plt_t p <= total kary ti) (Htotal : total kary ti < 2 ^ 32).
Hypothesis Hiter : forall s, iteration s ≡ₚ elements s.
Hypothesis Hfloor : forall a, 0 <= a < plt_t p -> floor_u32 (n_of_Z a / n_of_Z kary)%num = a / kary.

Lemma ancestors_loop_ok fuel : forall tn nodes, 0 <= tn < plt_t p -> (Z.to_nat tn <= fuel)%nat ->
  exists nodes', ancestors_loop floor_u32 fuel kary tn nodes = Some nodes' /\
    forall n, n ∈ nodes' <-> n ∈ nodes \/ 0 < tn /\ on_path kary n (parent kary tn).
Proof.
  induction fuel as [|fuel IH]; intros tn nodes Htn Hf; cbn [ancestors_loop]; (destruct (0 <? tn) eqn:E; bprop; [|exists nodes; split; [done|]; intros n; split; [auto|intros [|[]]; [done|lia]]]).
  { lia. }
  rewrite Hfloor by lia. fold (parent kary tn). pose proof (parent_less kary Hkary tn E) as Hp.
  destruct (IH (parent kary tn) ({[parent kary tn]} ∪ nodes)) as (nodes' & E' & Hn); [lia|lia|].
  exists nodes'. split; [done|]. intros n. rewrite Hn, (on_path_cases kary n (parent kary tn)), elem_of_union, elem_of_singleton. naive_solver.
Qed.

Lemma positive_loop_ok labels : Forall (fun y => 0 <= y < 2 ^ 32 - ti) labels -> forall nodes,
  exists nodes', positive_loop floor_u32 p labels nodes = Some nodes' /\
    forall n, n ∈ nodes' <-> n ∈ nodes \/ exists y, y ∈ labels /\ y < plt_k p /\ on_path kary n (ti + y).
Proof.
  induction 1 as [|y labels Hy _ IH]; intros nodes; cbn [positive_loop].
  { exists nodes. split; [done|]. intros n. split; [auto|]. intros [|(y & Hy & _)]; [done|by apply elem_of_nil in Hy]. }
  rewrite u32_id by lia. replace (y + ti) with (ti + y) by lia. destruct (ti + y <? plt_t p) eqn:E; bprop.
  - destruct (ancestors_loop_ok (Z.to_nat (ti + y)) (ti + y) ({[ti + y]} ∪ nodes)) as (nodes1 & -> & H1); [lia|lia|]. cbn [mbind option_bind].
    destruct (IH nodes1) as (nodes' & -> & Hn). exists nodes'. split; [done|]. intros n. rewrite Hn, H1, elem_of_union, elem_of_singleton. split.
    + intros [[[->|?]|?]|(z & ? & ?)]; [right; exists y; split; [set_solver|split; [lia|constructor]]|auto| |right; exists z; set_solver].
      right. exists y. split; [set_solver|]. split; [lia|]. apply on_path_cases. auto.
    + intros [?|(z & [->|Hz]%elem_of_cons & Hk & Hp)]; [auto| |right; by exists z]. left. apply on_path_cases in Hp as [->|?]; auto.
  - cbn [mbind option_bind]. destruct (IH nodes) as (nodes' & -> & Hn). exists nodes'. split; [done|]. intros n. rewrite Hn. split.
    + intros [?|(z & ? & ?)]; [auto|right; exists z; set_solver].
    + intros [?|(z & [->|Hz]%elem_of_cons & Hk & Hp)]; [auto|lia|right; by exists z].
Qed.

Lemma negative_children_ok pos neg q : 0 <= q -> forall n, n ∈ negative_children p pos neg q <-> n ∈ neg \/ q < ti /\ parent kary n = q /\ n < plt_t p /\ n ∉ pos.
Proof.
  intros Hq n. unfold negative_children. destruct (q <? ti) eqn:E; bprop; [|naive_solver lia].
  assert (forall (js : list Z) (neg : gset Z), Forall (fun i => 1 <= i <= kary) js ->
    n ∈ fold_left (fun (neg : gset Z) i => let n_child := u32 (kary * q + i) in if (n_child <? plt_t p) && bool_decide (n_child ∉ pos) then {[n_child]} ∪ neg else neg) js neg <->
    n ∈ neg \/ exists i, i ∈ js /\ n = kary * q + i /\ n < plt_t p /\ n ∉ pos) as Hfold.
  { clear neg. induction js as [|i js IH]; intros neg Hi; cbn [fold_left]; [split; [auto|intros [|(i & Hi' & _)]; [done|by apply elem_of_nil in Hi']]|].
    apply Forall_cons in Hi as [Hi His]. rewrite IH by done. rewrite u32_id by (unfold total in *; nia). cbn zeta.
    destruct (kary * q + i <? plt_t p) eqn:Et; destruct (decide (kary * q + i ∉ pos)) as [Hd|Hd]; cbn [andb]; rewrite ?bool_decide_true, ?bool_decide_false by done; bprop.
    - rewrite elem_of_union, elem_of_singleton. split; [intros [[->|?]|(j & ? & ?)]|intros [?|(j & [->|?]%elem_of_cons & ?)]]; naive_solver set_solver.
    - split; [intros [?|(j & ? & ?)]|intros [?|(j & [->|?]%elem_of_cons & -> & ? & ?)]]; [auto|right; exists j; set_solver|auto|done|right; by exists j].
    - split; [intros [?|(j & ? & ?)]|intros [?|(j & [->|?]%elem_of_cons & -> & ? & ?)]]; [auto|right; exists j; set_solver|auto|lia|right; by exists j].
    - split; [intros [?|(j & ? & ?)]|intros [?|(j & [->|?]%elem_of_cons & -> & ? & ?)]]; [auto|right; exists j; set_solver|auto|lia|right; by exists j]. }
  rewrite Hfold by (apply Forall_forall; intros i Hi%elem_of_seqZ; lia). split.
  - intros [?|(i & Hi%elem_of_seqZ & -> & ? & ?)]; [auto|]. right. rewrite parent_child by lia. auto.
  - intros [?|(_ & Hp & ? & ?)]; [auto|]. right. exists (n - kary * q). pose proof (child_parent kary Hkary n) as Hc. rewrite Hp in Hc. split; [apply elem_of_seqZ; lia|]. split; [lia|done].
Qed.

Lemma on_path_bound n x : on_path kary n x -> 0 <= x -> 0 <= n <= x.
Proof. induction 1 as [|x Hx _ IH]; intros H0; [lia|]. pose proof (parent_less kary Hkary x Hx). lia. Qed.

Lemma get_nodes_ok labels : Forall (fun y => 0 <= y < 2 ^ 32 - ti) labels ->
  exists pos neg, get_nodes_to_update floor_u32 iteration p labels = Some (set_nodes pos neg p) /\ nodes_to_update p labels pos neg /\
    (forall n, n ∈ pos ∪ neg -> 0 <= n < plt_t p) /\ pos ## neg.
Proof.
  intros Hl. destruct labels as [|y labels]; cbn [get_nodes_to_update].
  { exists ∅, {[0]}. split; [done|]. split; [done|]. split; [set_solver by lia|set_solver]. }
  destruct (positive_loop_ok _ Hl ∅) as (pos & -> & Hpos). cbn [mbind option_bind].
  assert (forall n, n ∈ pos <-> exists z, z ∈ y :: labels /\ z < plt_k p /\ on_path kary n (ti + z)) as Hpos' by (intros n; rewrite Hpos; set_solver).
  assert (forall n, n ∈ pos -> 0 <= n < plt_t p) as Hr.
  { intros n (z & Hz & Hk & Hp)%Hpos'. rewrite Forall_forall in Hl. specialize (Hl z Hz). apply on_path_bound in Hp; lia. }
  assert (forall qs neg, Forall (Z.le 0) qs -> forall n, n ∈ fold_left (negative_children p pos) qs neg <-> n ∈ neg \/ exists q, q ∈ qs /\ q < ti /\ parent kary n = q /\ n < plt_t p /\ n ∉ pos) as Hfold.
  { induction qs as [|q qs IH]; intros neg Hq n; cbn [fold_left]; [set_solver|]. apply Forall_cons in Hq as [Hq Hqs]. rewrite IH, negative_children_ok by done. set_solver. }
  eexists pos, _. split; [done|]. assert (forall n, n ∈ fold_left (negative_children p pos) (iteration pos) ∅ <-> 0 < n < plt_t p /\ (n ∉ pos) /\ (parent kary n ∈ pos)) as Hneg.
  { intros n. rewrite Hfold; [|apply Forall_forall; intros q Hq; rewrite Hiter, elem_of_elements in Hq; apply Hr in Hq; lia]. split.
    - intros [Hn|(q & Hq & Hqi & <- & Ht' & Hn)]; [set_solver|]. rewrite Hiter, elem_of_elements in Hq. split; [|done]. split; [|done].
      pose proof (child_parent kary Hkary n). apply Hr in Hq as Hq'. nia.
    - intros (Hn & Hnp & Hp). right. exists (parent kary n). split; [by rewrite Hiter, elem_of_elements|].
      pose proof (parent_internal kary ti Hkary n ltac:(lia)). split; [lia|]. split; [done|]. split; [lia|done]. }
  split; [split; [done|exact Hneg]|]. split.
  - intros n [Hn|Hn]%elem_of_union; [by apply Hr|]. apply Hneg in Hn. lia.
  - intros n Hn1 Hn2. apply Hneg in Hn2 as (_ & Hn2 & _). done.
Qed.
End Nodes.

(** ** Learning *)

#[export] Instance noted_time {C M D} `{HasTime M D} : HasTime (list C * M) D := {| sd_t cm := sd_t cm.2; set_sd_t x cm := (cm.1, set_sd_t x cm.2) |}.

(** The shape of a tree of [plt_k] labels: at most the last internal node lacks children. *)
Record tree_ok {F} (p : plt F) : Prop := {
  tree_kary : 2 <= plt_kary p;
  tree_ti : 1 <= plt_ti p;
  tree_t : plt_t p = plt_k p + plt_ti p;
  tree_range : plt_ti p <= plt_t p <= total (plt_kary p) (plt_ti p);
  tree_u32 : total (plt_kary p) (plt_ti p) < 2 ^ 32;
  tree_times : Z.of_nat (length (nodes_time p)) = plt_t p
}.

Section Learning.
Context {F D X M : Type} `{Num F, Num D, Widen F D, MathFns F, HasTime M D} (floor_u32 : F -> Z) (iteration : gset Z -> list Z).
Context (base : learner F X M) (J : M -> example F X -> Prop).
Hypothesis Hset : forall x m, sd_t (set_sd_t x m) = x.

(** The counter a call sees, and what it is told. *)
Definition seen (m : M) (ec : example F X) : D * (Z * F * F) := (sd_t m, told_of (call_of ec)).

(** What training node [n] looks like from below. *)
Definition trained (times : list F) (ec : example F X) (y : F) (n : Z) : D * (Z * F * F) :=
  (widen (nth (Z.to_nat n) times (n_of_Z 0)), (model_offset base ec n, y, weight ec)).

Lemma learn_nodes_ok `{!Taught (learn base) J n0} (HJt : forall x m ec, J m ec -> J (set_sd_t x m) ec) ns : NoDup ns ->
  forall p calls m ec total, Forall (fun n => 0 <= n < n0) ns -> n0 = Z.of_nat (length (nodes_time p)) -> J m ec ->
  exists times m' ec' total', learn_nodes ns p (noting seen base) (calls, m) ec total =
      Some (set_nodes_time times p, (calls ++ (trained (nodes_time p) ec (simple (l ec)) <$> ns), m'), ec', total') /\
    length times = length (nodes_time p) /\
    (forall n, 0 <= n -> times !! Z.to_nat n = (fun x => if bool_decide (n ∈ ns) then (x + weight ec)%num else x) <$> nodes_time p !! Z.to_nat n) /\
    J m' ec' /\ l ec' = l ec /\ ft_offset ec' = ft_offset ec /\ weight ec' = weight ec.
Proof.
  induction 1 as [|n ns Hn Hnd IH]; intros p calls m ec total Hns Hlen HJ; cbn [learn_nodes].
  { exists (nodes_time p), m, ec, total. cbn [fmap list_fmap]. rewrite app_nil_r. split; [by destruct p|]. split; [done|]. split; [|done].
    intros n _. by destruct (nodes_time p !! Z.to_nat n). }
  apply Forall_cons in Hns as [Hr Hns]. unfold learn_node.
  destruct (lookup_lt_is_Some_2 (nodes_time p) (Z.to_nat n)) as [time Htime]; [lia|]. rewrite Htime. cbn [mbind option_bind set_sd_t noted_time fst snd].
  destruct (taught_call (f := learn base) (set_sd_t (widen time) m) ec n) as (m1 & ec1 & E & HJ1 & Eo & Ew & El); [by apply HJt|done|].
  apply (noted seen _ _ _ calls) in E. change (learn (noting seen base) n (calls, set_sd_t (widen time) m) ec) with (with_offset (note seen (learn_f base)) (feature_width_below base) n (calls, set_sd_t (widen time) m) ec).
  rewrite E. cbn [mbind option_bind]. set (p1 := set_nodes_time _ p).
  assert (length (nodes_time p1) = length (nodes_time p)) as Hl1 by (cbn; by rewrite length_insert).
  match goal with |- context [learn_nodes ns p1 _ (?c1, m1) ec1 ?t1] => destruct (IH p1 c1 m1 ec1 t1) as (times & m' & ec' & total' & E' & Hl & Ht & HJ' & El' & Eo' & Ew') end; [done|congruence|done|].
  exists times, m', ec', total'. split; [|split; [congruence|split; [|split; [done|split; [congruence|split; congruence]]]]].
  - rewrite E', <- app_assoc. cbn [app fmap list_fmap]. do 4 f_equal. f_equal.
    unfold seen, trained, told_of, call_of, model_offset. cbn. rewrite Hset. erewrite nth_lookup_Some by exact Htime. do 2 f_equal.
    apply list_fmap_ext. intros i x Hx%list_elem_of_lookup_2. rewrite El, Eo, Ew. do 2 f_equal.
      rewrite !nth_lookup. rewrite list_lookup_insert_ne; [done|]. intros Heq. rewrite Forall_forall in Hns. specialize (Hns x Hx). assert (n = x) by lia. congruence.
  - intros x Hx. rewrite Ht by done. cbn. rewrite Ew. destruct (decide (x = n)) as [->|Hne].
    + rewrite list_lookup_insert_eq by lia. rewrite Htime. cbn. rewrite bool_decide_false by done. by rewrite bool_decide_true by set_solver.
    + rewrite list_lookup_insert_ne by lia. assert (bool_decide (x ∈ n :: ns) = bool_decide (x ∈ ns)) as -> by (apply bool_decide_ext; set_solver). done.
Qed.

Lemma plt_learn_ok `{!Taught (learn base) J (plt_t p)} (HJt : forall x m ec, J m ec -> J (set_sd_t x m) ec)
    (Hiter : forall s, iteration s ≡ₚ elements s) (Htree : tree_ok p)
    (Hfloor : forall a, 0 <= a < plt_t p -> floor_u32 (n_of_Z a / n_of_Z (plt_kary p))%num = a / plt_kary p) m ec :
  Forall (fun y => 0 <= y < 2 ^ 32 - plt_ti p) (multilabels (l ec)) -> J m ec ->
  exists pos neg times m' ec', nodes_to_update p (multilabels (l ec)) pos neg /\
    plt_learn floor_u32 iteration p (noting seen base) ([], m) ec = Some (set_nodes_time times (set_nodes pos neg p),
      ((trained (nodes_time p) ec (n_of_Z 1) <$> iteration pos) ++ (trained (nodes_time p) ec (n_of_Z (-1)) <$> iteration neg), m'), ec') /\
    (forall n, 0 <= n -> times !! Z.to_nat n = (fun x => if bool_decide (n ∈ pos ∪ neg) then (x + weight ec)%num else x) <$> nodes_time p !! Z.to_nat n) /\
    J m' ec' /\ sd_t m' = sd_t m /\ multilabels (l ec') = multilabels (l ec) /\ pred ec' = pred ec /\ weight ec' = weight ec.
Proof.
  intros Hl HJ. destruct Htree as [T1 T2 T3 T4 T5 T6].
  destruct (get_nodes_ok floor_u32 iteration p T1 T2 T3 T4 T5 Hiter Hfloor _ Hl) as (pos & neg & E & Hspec & Hr & Hd). exists pos, neg.
  assert (forall s : gset Z, NoDup (iteration s)) as Hnd by (intros s; rewrite Hiter; apply NoDup_elements).
  assert (forall (s : gset Z) n, n ∈ iteration s <-> n ∈ s) as Hin by (intros s n; by rewrite Hiter, elem_of_elements).
  unfold plt_learn. rewrite E. cbn [mbind option_bind]. set (ec1 := reset_to_default (set_simple (n_of_Z 1) _)).
  destruct (learn_nodes_ok HJt (iteration pos) (Hnd pos) (set_nodes pos neg p) [] m ec1 (n_of_Z 0)) as (times & m1 & ec2 & tot & E1 & L1 & N1 & J1 & El1 & Eo1 & Ew1).
  { apply Forall_forall. intros n Hn%Hin. apply Hr. set_solver. } { done. } { by eapply taught_same. }
  change (positive_nodes (set_nodes pos neg p)) with pos. rewrite E1. cbn [mbind option_bind].
  change (negative_nodes (set_nodes_time times (set_nodes pos neg p))) with neg. set (ec3 := set_simple (n_of_Z (-1)) ec2).
  match goal with |- context [learn_nodes (iteration neg) ?q _ (?c, m1) ec3 tot] =>
    destruct (learn_nodes_ok HJt (iteration neg) (Hnd neg) q c m1 ec3 tot) as (times' & m2 & ec4 & tot' & E2 & L2 & N2 & J2 & El2 & Eo2 & Ew2) end.
  { apply Forall_forall. intros n Hn%Hin. apply Hr. set_solver. } { cbn. by rewrite L1. } { by eapply taught_same. }
  rewrite E2. cbn [mbind option_bind]. exists times', (set_sd_t (sd_t m) m2), (set_multilabels (multilabels (l ec)) (set_pred (pred ec) (set_loss tot' ec4))). split; [done|].
  change (nodes_time (set_nodes pos neg p)) with (nodes_time p) in *. change (nodes_time (set_nodes_time times (set_nodes pos neg p))) with times in *.
  change (weight ec1) with (weight ec) in *. change (weight ec3) with (weight ec2) in *. change (ft_offset ec1) with (ft_offset ec) in *. change (ft_offset ec3) with (ft_offset ec2) in *. change (l ec3) with (l ec3) in El2.
  split; [|split; [|split; [eapply taught_same; [apply HJt, J2|done|done]|split; [apply Hset|split; [done|split; [done|cbn; congruence]]]]]].
  - assert (trained times ec3 (simple (l ec3)) <$> iteration neg = trained (nodes_time p) ec (n_of_Z (-1)) <$> iteration neg) as ->; [|done].
    apply list_fmap_ext. intros i n Hi%list_elem_of_lookup_2. apply Hin in Hi.
    unfold trained, model_offset, increment_offset. cbn. rewrite Eo1, Ew1. do 2 f_equal. rewrite !nth_lookup, N1 by (apply Hr; set_solver).
    rewrite bool_decide_false by (rewrite Hin; set_solver). by destruct (nodes_time p !! Z.to_nat n).
  - intros n Hn. rewrite N2, N1 by done. destruct (nodes_time p !! Z.to_nat n) as [x|]; [|done]. cbn. f_equal. rewrite Ew1.
    assert (bool_decide (n ∈ iteration pos) = bool_decide (n ∈ pos)) as -> by (apply bool_decide_ext, Hin).
    assert (bool_decide (n ∈ iteration neg) = bool_decide (n ∈ neg)) as -> by (apply bool_decide_ext, Hin).
    destruct (decide (n ∈ pos)) as [Hp|Hp]; [rewrite (bool_decide_true (n ∈ pos)), (bool_decide_false (n ∈ neg)), bool_decide_true by set_solver; done|].
    rewrite (bool_decide_false (n ∈ pos)) by done. apply (f_equal (fun b : bool => if b then _ else _)). apply bool_decide_ext. set_solver.
Qed.
End Learning.

(** ** Prediction *)

Lemma Int_part_div a b : 0 < b -> Int_part (IZR a / IZR b) = a / b.
Proof.
  intros Hb. symmetry. apply Int_part_spec. assert (0 < IZR b)%R as Hr by (by apply IZR_lt).
  pose proof (Z.div_mod a b ltac:(lia)) as Hd. pose proof (Z.mod_pos_bound a b Hb) as Hm. apply (f_equal IZR) in Hd. rewrite plus_IZR, mult_IZR in Hd.
  assert (0 <= IZR (a mod b) < IZR b)%R as Hm' by (split; [apply IZR_le|apply IZR_lt]; lia).
  assert (IZR a / IZR b = IZR (a / b) + IZR (a mod b) / IZR b)%R as -> by (rewrite Hd; field; Lra.lra).
  assert (0 <= IZR (a mod b) / IZR b < 1)%R as Hq; [|Lra.lra]. split; [apply Rle_mult_inv_pos; Lra.lra|].
  apply (Rmult_lt_reg_r (IZR b)); [done|]. unfold Rdiv. rewrite Rmult_assoc, Rinv_l by Lra.lra. Lra.lra.
Qed.

Section Predicting.
Context {X M : Type} `{Heap (node R)} (base : learner R X M) (I : M -> example R X -> Prop) (score : Z -> R) (iteration : gset Z -> list Z) (p : plt R).
Hypotheses (Htree : tree_ok p) (Hiter : forall s, iteration s ≡ₚ elements s).
Local Abbreviation nodes_total := (total (plt_kary p) (plt_ti p)).
Context `{HS : !Scored base I nodes_total score}.

Lemma evaluate_nodes_ok ns : Forall (fun n => 0 <= n < nodes_total) ns -> forall m ec tot, I m ec ->
  exists m' ec' tot', evaluate_nodes ns base m ec tot = Some (m', ec', tot') /\ I m' ec' /\ weight ec' = weight ec.
Proof.
  induction 1 as [|n ns Hn _ IH]; intros m ec tot Hm; cbn [evaluate_nodes]; [by exists m, ec, tot|].
  destruct (scored_predict m ec n Hm Hn) as (m1 & ec1 & -> & Hm1 & Ew & _). cbn [mbind option_bind].
  destruct (IH m1 ec1 (tot + loss ec1)%num Hm1) as (m' & ec' & tot' & E & HI' & Ew'). exists m', ec', tot'. split; [done|]. split; [done|congruence].
Qed.

(** Evaluating the true labels, if there are any, changes the sets of nodes only. *)
Lemma evaluate_ok labels m ec : Forall (fun y => 0 <= y < 2 ^ 32 - plt_ti p) labels -> I m ec ->
  exists pos neg m' ec', evaluate Int_part iteration p labels base m ec = Some (set_nodes pos neg p, m', ec') /\ I m' ec' /\ weight ec' = weight ec.
Proof.
  intros Hl Hm. pose proof Htree as [T1 T2 T3 T4 T5 T6]. destruct labels as [|y labels]; cbn [evaluate].
  { exists (positive_nodes p), (negative_nodes p), m, (set_loss (n_of_Z 0) ec). split; [by destruct p|]. split; [by eapply scored_same|done]. }
  destruct (get_nodes_ok Int_part iteration p T1 T2 T3 T4 T5 Hiter) with (labels := y :: labels) as (pos & neg & -> & _ & Hr & _); [|done|].
  { intros a Ha. rnum. apply Int_part_div. lia. }
  cbn [mbind option_bind]. assert (forall s : gset Z, s ⊆ pos ∪ neg -> Forall (fun n => 0 <= n < nodes_total) (iteration s)) as Hall.
  { intros s Hs. apply Forall_forall. intros n Hn. rewrite Hiter, elem_of_elements in Hn. specialize (Hr n (Hs n Hn)). lia. }
  change (positive_nodes (set_nodes pos neg p)) with pos. change (negative_nodes (set_nodes pos neg p)) with neg.
  destruct (evaluate_nodes_ok _ (Hall pos ltac:(set_solver)) m (reset_to_default (set_simple (n_of_Z 1) ec)) (n_of_Z 0)) as (m1 & ec1 & tot & -> & Hm1 & Ew1); [by eapply scored_same|].
  cbn [mbind option_bind].
  destruct (evaluate_nodes_ok _ (Hall neg ltac:(set_solver)) m1 (set_simple (n_of_Z (-1)) ec1) tot) as (m2 & ec2 & tot' & -> & Hm2 & Ew2); [by eapply scored_same|].
  exists pos, neg, m2, (set_loss tot' ec2). split; [done|]. split; [by eapply scored_same|cbn in *; congruence].
Qed.

(** The start of a walk. *)
Lemma predict_root_ok m ec : I m ec ->
  exists m' ec', predict_node 0 base m ec = Some (m', ec', cond_prob (plt_kary p) score 0) /\ I m' ec' /\ weight ec' = weight ec.
Proof.
  intros Hm. pose proof Htree as [T1 T2 T3 T4 T5 T6]. unfold predict_node.
  destruct (scored_predict m (unlabeled ec) 0) as (m' & ec' & -> & Hm' & Ew & Hs); [by eapply scored_same|unfold total; nia|]. cbn [mbind option_bind].
  exists m', ec'. rewrite Hs by done. done.
Qed.

Lemma loop_fuel_enough : (Z.to_nat nodes_total <= loop_fuel p)%nat /\ (Z.to_nat (plt_ti p) <= loop_fuel p)%nat.
Proof. pose proof Htree as [T1 T2 T3 T4 T5 T6]. unfold loop_fuel, total in *. split; nia. Qed.

Lemma predict_threshold_ok m ec : Forall (fun y => 0 <= y < 2 ^ 32 - plt_ti p) (multilabels (l ec)) -> I m ec ->
  exists p' m' ec', plt_predict Int_part iteration true p base m ec = Some (p', m', ec') /\ I m' ec' /\
    labels_exact score p (pred_multilabels (pred ec')) /\
    (plt_probabilities p = true -> a_s (pred ec') = (fun y => (y, cond_prob (plt_kary p) score (plt_ti p + y))) <$> pred_multilabels (pred ec')) /\
    multilabels (l ec') = multilabels (l ec).
Proof.
  intros Hl Hm. pose proof Htree as [T1 T2 T3 T4 T5 T6]. unfold plt_predict.
  destruct (evaluate_ok (multilabels (l ec)) m (set_pred (moved_pred (pred ec)) (set_multilabels [] ec)) Hl) as (pos & neg & m1 & ec1 & -> & Hm1 & Ew1); [by eapply scored_same|].
  cbn [mbind option_bind]. set (p1 := set_true_labels _ _).
  destruct (predict_root_ok m1 ec1 Hm1) as (m2 & ec2 & -> & Hm2 & Ew2). cbn [mbind option_bind]. set (a_s0 := if plt_probabilities (set_nodes pos neg p) then _ else _).
  assert (pairs_of score p1 a_s0 [] = a_s0) as Ea by (unfold pairs_of, a_s0; cbn; by destruct (plt_probabilities p)).
  set (queue := if (plt_threshold p1 <? cond_prob (plt_kary p) score 0)%num then [Node R 0 (cond_prob (plt_kary p) score 0)] else []).
  assert (exists low, explored (plt_kary p) (plt_ti p) [] ((node_n <$> queue) ++ [] ++ low) /\
    Forall (fun nd => node_ok score p1 nd /\ node_n nd < plt_ti p /\ above score p1 (node_n nd)) queue /\ Forall (fun n => ~ above score p1 n) low) as (low & HE & Hq & Hlow).
  { pose proof (explored_start (plt_kary p) (plt_ti p) T1 T2) as HE. unfold queue, above. rnum. change (plt_threshold p1) with (plt_threshold p). change (plt_kary p1) with (plt_kary p).
    destruct (Rltb_spec (plt_threshold p) (cond_prob (plt_kary p) score 0)).
    - exists []. split; [done|]. split; [|done]. constructor; [|done]. cbn. split; [done|]. split; [lia|done].
    - exists [0]. split; [done|]. split; [done|]. constructor; [Lra.lra|done]. }
  destruct (threshold_loop_ok base I score p1 T1 T2 T5 a_s0 (loop_fuel p1) [] queue [] low m2 ec2) as (D & ns & low' & m3 & ec3 & E & HE' & Hns & Hlow' & Hm3); try done.
  { apply loop_fuel_enough. }
  rewrite Ea in E. change (labels_of p1 []) with (@nil Z) in E. rewrite E. cbn [mbind option_bind fst snd].
  eexists _, m3, _. split; [done|]. split; [by eapply scored_same|]. split; [|split; [|done]].
  - by eapply (threshold_end base I score p1).
  - intros Hp. cbn. unfold pairs_of, labels_of. change (plt_probabilities p1) with (plt_probabilities p). rewrite Hp. rewrite <- list_fmap_compose. apply list_fmap_ext. intros i n _. cbn.
    change (plt_ti p1) with (plt_ti p). change (plt_kary p1) with (plt_kary p). do 2 f_equal. lia.
Qed.

Context `{HL : !HeapLaws (A := node R) node_lt}.

(** The counts at each rank read no label out of bounds. *)
Lemma at_loop_ok n : forall i q labels tp_at ps rs, (i + n <= length labels)%nat -> (i + n <= length ps)%nat -> (i + n <= length rs)%nat ->
  exists ps' rs', at_loop n i q labels tp_at ps rs = Some (ps', rs').
Proof.
  induction n as [|n IH]; intros i q labels tp_at ps rs Hl Hp Hr; cbn [at_loop]; [by eexists _, _|].
  destruct (lookup_lt_is_Some_2 labels i) as [y ->]; [lia|]. destruct (lookup_lt_is_Some_2 ps i) as [a ->]; [lia|]. destruct (lookup_lt_is_Some_2 rs i) as [b ->]; [lia|].
  cbn [mbind option_bind]. apply IH; rewrite ?length_insert; lia.
Qed.

Lemma predict_top_k_ok m ec : Forall (fun y => 0 <= y < 2 ^ 32 - plt_ti p) (multilabels (l ec)) -> I m ec ->
  1 <= plt_top_k p <= nodes_total - plt_ti p -> Z.of_nat (length (p_at p)) = plt_top_k p -> Z.of_nat (length (r_at p)) = plt_top_k p ->
  exists p' m' ec', plt_predict Int_part iteration false p base m ec = Some (p', m', ec') /\ I m' ec' /\
    labels_best score p (pred_multilabels (pred ec')) /\
    (plt_probabilities p = true -> a_s (pred ec') = (fun y => (y, cond_prob (plt_kary p) score (plt_ti p + y))) <$> pred_multilabels (pred ec')) /\
    multilabels (l ec') = multilabels (l ec).
Proof.
  intros Hl Hm Hk Hps Hrs. pose proof Htree as [T1 T2 T3 T4 T5 T6]. unfold plt_predict.
  destruct (evaluate_ok (multilabels (l ec)) m (set_pred (moved_pred (pred ec)) (set_multilabels [] ec)) Hl) as (pos & neg & m1 & ec1 & -> & Hm1 & Ew1); [by eapply scored_same|].
  cbn [mbind option_bind]. set (p1 := set_true_labels _ _).
  destruct (predict_root_ok m1 ec1 Hm1) as (m2 & ec2 & -> & Hm2 & Ew2). cbn [mbind option_bind]. set (a_s0 := if plt_probabilities (set_nodes pos neg p) then _ else _).
  assert (pairs_of score p1 a_s0 [] = a_s0) as Ea by (unfold pairs_of, a_s0; cbn; by destruct (plt_probabilities p)).
  destruct (heap_push [] (Node _ 0 (cond_prob (plt_kary p) score 0)) heap_nil) as [Hh Hp]. cbn [app] in Hh, Hp. set (queue := push_heap _ _) in *. clearbody queue.
  assert (explored (plt_kary p) (plt_ti p) [] ((node_n <$> queue) ++ [])) as HE by (eapply explored_perm; [|by apply explored_start]; by rewrite Hp).
  destruct (top_k_loop_ok base I score p1 T1 T2 T5 a_s0 (loop_fuel p1) [] queue [] m2 ec2) as (D & q & ns & m3 & ec3 & E & HE' & Hns & Hd & Hb & Hend & Hm3); try done.
  { rewrite Hp. by constructor. } { constructor. } { intros n nd Hn. by apply elem_of_nil in Hn. } { change (plt_top_k p1) with (plt_top_k p). cbn. lia. }
  assert (labels_best score p1 (labels_of p1 ns)) as Hbest by by eapply (top_k_end base I score p1).
  rewrite Ea in E. change (labels_of p1 []) with (@nil Z) in E. rewrite E. cbn [mbind option_bind fst snd].
  assert (exists p2, top_k_counts p1 (labels_of p1 ns) = Some p2) as [p2 ->].
  { unfold top_k_counts. case_bool_decide; [by eexists|]. destruct Hbest as (_ & Hlen & _).
    change (plt_top_k p1) with (plt_top_k p) in *. change (plt_kary p1) with (plt_kary p) in *. change (plt_ti p1) with (plt_ti p) in *.
    destruct (at_loop_ok (Z.to_nat (plt_top_k p)) 0 p1 (labels_of p1 ns) (n_of_Z 0) (p_at p1) (r_at p1)) as (ps & rs & ->); cbn [p_at r_at p1 set_true_labels set_nodes]; [lia..|]. by eexists. }
  cbn [mbind option_bind fst snd]. eexists _, m3, _. split; [done|]. split; [by eapply scored_same|]. split; [exact Hbest|]. split; [|done].
  intros Hpr. cbn. unfold pairs_of, labels_of. change (plt_probabilities p1) with (plt_probabilities p). rewrite Hpr. rewrite <- list_fmap_compose. apply list_fmap_ext. intros i n _. cbn.
  change (plt_ti p1) with (plt_ti p). change (plt_kary p1) with (plt_kary p). do 2 f_equal. lia.
Qed.
End Predicting.

(** ** The size of the tree *)

Lemma pow_remainder b m : 0 <= m -> exists g, b ^ m = 1 + (b - 1) * g.
Proof.
  revert m. apply natlike_ind; [exists 0; rewrite Z.pow_0_r; lia|]. intros m Hm [g Hg]. exists (1 + b * g). rewrite Z.pow_succ_r by done. rewrite Hg. ring.
Qed.

Lemma Int_part_IZR z : Int_part (IZR z) = z.
Proof. symmetry. apply Int_part_spec. Lra.lra. Qed.

Lemma Rpower_IZR b m : 0 < b -> 0 <= m -> Rpower (IZR b) (IZR m) = IZR (b ^ m).
Proof.
  intros Hb Hm. rewrite <- (Z2Nat.id m) at 1 by done. rewrite <- INR_IZR_INZ, Rpower_pow by (by apply IZR_lt).
  by rewrite pow_IZR, Z2Nat.id.
Qed.

(** [std::floor] and [std::ceil]. *)
Definition Rfloor (x : R) : R := IZR (Int_part x).
Definition Rceil (x : R) : R := (- IZR (Int_part (- x)))%R.

Definition internal_nodes (k kary : Z) : Z := - ((1 - k) / (kary - 1)).

Lemma internal_nodes_bounds k kary : 2 <= kary -> 2 <= k ->
  let ti := internal_nodes k kary in 1 <= ti /\ kary * (ti - 1) + 2 < k + ti <= total kary ti.
Proof.
  intros Hb Hk ti. unfold ti, internal_nodes, total. pose proof (Z.div_mod (1 - k) (kary - 1) ltac:(lia)) as Hd.
  pose proof (Z.mod_pos_bound (1 - k) (kary - 1) ltac:(lia)) as Hm. set (q := (1 - k) / (kary - 1)) in *. nia.
Qed.

Lemma plt_sizes_ok k kary : 2 <= kary -> 2 <= k -> k + internal_nodes k kary < 2 ^ 32 ->
  plt_sizes (D := R) Rfloor Rceil Int_part k kary = (k + internal_nodes k kary, internal_nodes k kary).
Proof.
  intros Hb Hk Hu. destruct (internal_nodes_bounds k kary Hb Hk) as [Hti _]. unfold plt_sizes. rnum.
  set (m := Int_part (ln (IZR k) / ln (IZR kary))). unfold Rfloor. fold m.
  assert (0 < ln (IZR kary))%R as Hln by (rewrite <- ln_1; apply ln_increasing; [Lra.lra|apply IZR_lt; lia]).
  assert (0 <= m) as Hm.
  { unfold m. assert (0 <= ln (IZR k) / ln (IZR kary))%R as H0.
    { apply Rle_mult_inv_pos; [|done]. rewrite <- ln_1. apply Rlt_le, ln_increasing; [Lra.lra|apply IZR_lt; lia]. }
    destruct (base_Int_part (ln (IZR k) / ln (IZR kary))) as [_ Hi]. apply Z.lt_succ_r, lt_IZR. rewrite succ_IZR. Lra.lra. }
  cbn [npow math_R]. rewrite (Rpower_IZR kary m) by (done || lia). destruct (pow_remainder kary m Hm) as [g Hg]. rewrite Hg.
  assert (0 < IZR (kary - 1))%R as Hk1 by (apply IZR_lt; lia).
  unfold Rceil. rewrite <- !minus_IZR.
  assert (- (IZR (k - (1 + (kary - 1) * g)) / IZR (kary - 1)) = IZR (1 - k + g * (kary - 1)) / IZR (kary - 1))%R as ->.
  { replace (1 - k + g * (kary - 1)) with (- (k - (1 + (kary - 1) * g))) by lia. rewrite opp_IZR. field. Lra.lra. }
  rewrite Int_part_div, Z.div_add by lia.
  assert ((IZR kary * IZR (1 + (kary - 1) * g) - 1) / IZR (kary - 1) = IZR (1 + kary * g))%R as ->.
  { rewrite <- mult_IZR, <- minus_IZR. replace (kary * (1 + (kary - 1) * g) - 1) with ((1 + kary * g) * (kary - 1)) by ring. rewrite mult_IZR. field. Lra.lra. }
  rewrite <- opp_IZR, <- !minus_IZR, <- plus_IZR, Int_part_IZR. unfold internal_nodes in *.
  f_equal; [|rewrite u32_id by lia]; lia.
Qed.

(** ** Tables as base learners *)

(** A learner without a multipredict function keeps the promise when its predictions do. *)
Lemma scored_of_predict {F X M} `{Num F} (base : learner F X M) (I : M -> example F X -> Prop) n (score : Z -> F) :
  multipredict_f base = None -> keeps_offset (predict_f base) -> 0 <= feature_width_below base -> feature_width_below base * n < 2 ^ 32 -> n < 2 ^ 64 ->
  (forall m ec, I m ec -> 0 <= ft_offset ec < 2 ^ 64) ->
  (forall m ec ec', I m ec -> ex_x ec' = ex_x ec -> ft_offset ec' = ft_offset ec -> I m ec') ->
  (forall m ec i, I m ec -> 0 <= i < n -> exists m' ec', predict base i m ec = Some (m', ec') /\ I m' ec' /\ weight ec' = weight ec /\
    rf_initial ec' = rf_initial ec /\ (rf_initial ec = n_of_Z 0 -> partial_prediction ec' = score i)) ->
  Scored base I n score.
Proof.
  intros Hm Hk Hw Hs Hn Ho Hsame Hp. split; [done| |].
  - intros m ec i HI Hi. destruct (Hp m ec i HI Hi) as (m' & ec' & E & HI' & Ew & _ & Es). by exists m', ec'.
  - intros m ec lo count HI Hlo _ Hc Hr. rewrite multipredict_small by (done || nia || by eapply Ho). revert lo m ec HI Hlo Hc Hr.
    induction count as [|c IH]; intros lo m ec HI Hlo Hc Hr; cbn [predicts]; [by exists m, ec|].
    destruct (Hp m ec lo HI ltac:(lia)) as (m1 & ec1 & -> & HI1 & Ew & Er & Es). cbn [mbind option_bind].
    destruct (IH (lo + 1) m1 ec1 HI1 ltac:(lia) ltac:(lia)) as (m2 & ec2 & -> & HI2 & Ew2); [congruence|]. cbn [mbind option_bind].
    exists m2, ec2. split; [|split; [done|congruence]]. rewrite (seqZ_cons lo) by lia. replace (Z.pred (Z.of_nat (S c))) with (Z.of_nat c) by lia. cbn [fmap list_fmap]. by rewrite Es.
Qed.

(** A learner that looks its scores up by the offset, and counts the examples it learns from. *)
Definition counting_learner {F} `{Num F} (score : Z -> F) : learner F unit F :=
  let f := fun m ec => Some (m, set_partial (score (ft_offset ec)) ec) in
  let g := fun m ec => Some ((m + weight ec)%num, set_partial (score (ft_offset ec)) ec) in
  Learner 1 g f g None.
Definition at_origin {F} (m : F) (ec : example F unit) : Prop := ft_offset ec = 0.
#[export] Instance counting_time {F} : HasTime F F := {| sd_t m := m; set_sd_t x m := x |}.

Lemma at_origin_offset {F} (f : F -> example F unit -> option (F * example F unit)) (g : example F unit -> F) h (m : F) (ec : example F unit) i :
  (forall m ec, f m ec = Some (h m ec, set_partial (g ec) ec)) -> ft_offset ec = 0 -> 0 <= i < 2 ^ 32 ->
  with_offset f 1 i m ec = Some (h m (set_offset i ec), set_partial (g (set_offset i ec)) ec).
Proof.
  intros Hf H0 Hi. unfold with_offset. rewrite increment_small by lia. rewrite Hf. cbn [mbind option_bind]. rewrite decrement_small by lia.
  cbn [ft_offset set_offset set_partial]. rewrite H0, Z.mul_1_l, Z.add_0_l, (u64_id i), Z.sub_diag by lia. destruct ec; cbn in *. by subst.
Qed.

Lemma counting_scored {F} `{Num F} (score : Z -> F) n : n < 2 ^ 32 -> Scored (counting_learner score) at_origin n score.
Proof.
  intros Hn. apply scored_of_predict; try done; unfold at_origin.
  - by intros m ec m' ec' [= <- <-].
  - cbn. lia.
  - lia.
  - intros m ec ->. lia.
  - congruence.
  - intros m ec i H0 Hi. eexists _, _. split; [eapply at_origin_offset; [by intros ??|done|lia]|]. done.
Qed.

Lemma counting_taught {F} `{Num F} (score : Z -> F) n : n < 2 ^ 32 -> Taught (learn (counting_learner score)) at_origin n.
Proof.
  intros Hn. split; unfold at_origin; [congruence|]. intros m ec i H0 Hi. eexists _, _.
  split; [eapply (at_origin_offset _ (fun ec => score (ft_offset ec)) (fun m ec => (m + weight ec)%num)); [by intros ??|done|lia]|]. done.
Qed.

(** A heap can be an ascending list. *)
Fixpoint insert_ascending {A} (lt : A -> A -> bool) (x : A) (q : list A) : list A :=
  match q with
  | [] => [x]
  | y :: q => if lt x y then x :: y :: q else y :: insert_ascending lt x q
  end.
#[export] Instance ascending_heap {A} : Heap A :=
  {| push_heap lt q := match pop_back q with Some (q, x) => insert_ascending lt x q | None => [] end; pop_heap _ q := q |}.

Lemma insert_ascending_perm {A} (lt : A -> A -> bool) x q : insert_ascending lt x q ≡ₚ x :: q.
Proof. induction q as [|y q IH]; cbn; [done|]. destruct (lt x y); [done|]. rewrite IH. apply Permutation_swap. Qed.

Lemma node_lt_spec (a b : node R) : BoolSpec (node_p a < node_p b)%R (node_p b <= node_p a)%R (node_lt a b).
Proof. apply Rltb_spec. Qed.

#[export] Instance ascending_laws : HeapLaws (A := node R) node_lt.
Proof.
  refine {| is_heap := StronglySorted (fun a b => (node_p a <= node_p b)%R) |}.
  - constructor.
  - intros q x Hq. cbn [push_heap ascending_heap]. rewrite pop_back_snoc. split; [|rewrite insert_ascending_perm; by rewrite Permutation_app_comm].
    induction Hq as [|y q Hs IH Hf]; cbn [insert_ascending]; [repeat constructor|]. rewrite Forall_forall in Hf. destruct (node_lt_spec x y) as [Hlt|Hle].
    + constructor; [by constructor; [|apply Forall_forall]|]. apply Forall_forall. intros z [->|Hz]%elem_of_cons; [Lra.lra|]. specialize (Hf z Hz). Lra.lra.
    + constructor; [done|]. apply Forall_forall. intros z Hz. rewrite insert_ascending_perm in Hz. apply elem_of_cons in Hz as [->|Hz]; [done|by apply Hf].
  - intros q Hq Hne. destruct q as [|x q _] using rev_ind; [done|]. exists q, x. cbn [pop_heap ascending_heap]. apply StronglySorted_app in Hq as (Hle & Hq & _).
    split; [done|]. split; [done|]. split; [done|]. apply Forall_forall. intros y Hy. destruct (node_lt_spec x y) as [Hlt|]; [|done].
    apply elem_of_app in Hy as [Hy| ->%list_elem_of_singleton]; [|Lra.lra]. specialize (Hle y x Hy ltac:(set_solver)). cbn in Hle. Lra.lra.
Qed.

#[local] Existing Instance num_f32.

Lemma rounded_parent : (n_of_Z (16777220 - 1) / n_of_Z 2 : f32)%num = n_of_Z 8388610.
Proof. vm_compute. reflexivity. Qed.

(** * Theorems *)

(** C25: learning trains the nodes on the paths from the root to the labels of the example towards 1 and
    their children that are on no such path towards -1 - the root, when there is no label - each once,
    in the order of the sets. Each node keeps time of its own: it is trained at the time that it has
    seen, which grows by the weight of the example, and the counter of the learner below, the label and
    the prediction are given back. *)
Theorem plt_trains {F D X M} `{Num F, Num D, Widen F D, MathFns F, HasTime M D} (floor_u32 : F -> Z) (iteration : gset Z -> list Z)
    (base : learner F X M) (J : M -> example F X -> Prop) (p : plt F) (m : M) (ec : example F X) :
  (forall x m, sd_t (set_sd_t x m) = x) -> (forall x m ec, J m ec -> J (set_sd_t x m) ec) -> Taught (learn base) J (plt_t p) ->
  (forall s, iteration s ≡ₚ elements s) -> tree_ok p ->
  (forall a, 0 <= a < plt_t p -> floor_u32 (n_of_Z a / n_of_Z (plt_kary p))%num = a / plt_kary p) ->
  Forall (fun y => 0 <= y < 2 ^ 32 - plt_ti p) (multilabels (l ec)) -> J m ec ->
  exists pos neg times m' ec', nodes_to_update p (multilabels (l ec)) pos neg /\
    plt_learn floor_u32 iteration p (noting seen base) ([], m) ec = Some (set_nodes_time times (set_nodes pos neg p),
      ((trained base (nodes_time p) ec (n_of_Z 1) <$> iteration pos) ++ (trained base (nodes_time p) ec (n_of_Z (-1)) <$> iteration neg), m'), ec') /\
    (forall n, 0 <= n -> times !! Z.to_nat n = (fun x => if bool_decide (n ∈ pos ∪ neg) then (x + weight ec)%num else x) <$> nodes_time p !! Z.to_nat n) /\
    sd_t m' = sd_t m /\ multilabels (l ec') = multilabels (l ec) /\ pred ec' = pred ec.
Proof.
  intros Hset HJt HT Hiter Htree Hfloor Hl HJ.
  destruct (plt_learn_ok floor_u32 iteration base J Hset (p := p) HJt Hiter Htree Hfloor m ec Hl HJ) as (pos & neg & times & m' & ec' & Hn & E & Ht & _ & Hm & El & Ep & _).
  by exists pos, neg, times, m', ec'.
Qed.

(** The labels above the threshold: each of the [plt_k] labels of the tree exactly when its leaf is, and
    no other number when no internal node lacks children. *)
Definition threshold_labels (score : Z -> R) (p : plt R) (labels : list Z) : Prop :=
  NoDup labels /\
  (forall y, 0 <= y < plt_k p -> y ∈ labels <-> (plt_threshold p < cond_prob (plt_kary p) score (plt_ti p + y))%R) /\
  (plt_t p = total (plt_kary p) (plt_ti p) -> forall y, y ∈ labels -> 0 <= y < plt_k p).

(** The [top_k] best labels, from the most probable down: no label of the tree that was left out is more
    probable than one that was taken, and only labels of the tree are taken when no internal node lacks
    children. *)
Definition top_labels (score : Z -> R) (p : plt R) (labels : list Z) : Prop :=
  NoDup labels /\ Z.of_nat (length labels) = plt_top_k p /\
  StronglySorted (fun y y' => cond_prob (plt_kary p) score (plt_ti p + y') <= cond_prob (plt_kary p) score (plt_ti p + y))%R labels /\
  (forall y y', y ∈ labels -> 0 <= y' < plt_k p -> y' ∉ labels ->
    (cond_prob (plt_kary p) score (plt_ti p + y') <= cond_prob (plt_kary p) score (plt_ti p + y))%R) /\
  (plt_t p = total (plt_kary p) (plt_ti p) -> forall y, y ∈ labels -> 0 <= y < plt_k p).

Lemma labels_exact_threshold score p labels : tree_ok p -> labels_exact score p labels -> threshold_labels score p labels.
Proof.
  intros [_ _ Et Hr _ _] [Hnd Hex]. split; [done|]. split.
  - intros y Hy. rewrite Hex. unfold above. split; [by intros [_ ?]|]. split; [lia|done].
  - intros Heq y Hy%Hex. lia.
Qed.

Lemma labels_best_top score p labels : tree_ok p -> 1 <= plt_top_k p <= plt_k p -> labels_best score p labels -> top_labels score p labels.
Proof.
  intros [_ _ Et Hr _ _] Hk (Hnd & Hlen & Hin & Hs & Hbest). split; [done|]. split; [lia|]. split; [done|]. split.
  - intros y y' Hy Hy'. apply Hbest; [done|lia].
  - intros Heq y Hy%Hin. lia.
Qed.

(** C24: Prediction with a threshold ends. In a tree in which every internal node has all its children
    ([plt_t = total]) it finds exactly the labels whose probability, the product of the logistic scores
    on the path from the root to their leaf, is above the threshold, once each and with that
    probability. When the last internal node lacks children this still holds of the labels the tree
    has, but the positions of the missing children are treated like leaves and can be predicted, too
    (label 4 of 0 to 3 in a ternary tree). Labels that are given are kept. *)
Theorem plt_threshold_exact {X M} `{Heap (node R)} (base : learner R X M) (I : M -> example R X -> Prop) (score : Z -> R) (iteration : gset Z -> list Z)
    (p : plt R) (m : M) (ec : example R X) :
  tree_ok p -> (forall s, iteration s ≡ₚ elements s) -> Scored base I (total (plt_kary p) (plt_ti p)) score ->
  Forall (fun y => 0 <= y < 2 ^ 32 - plt_ti p) (multilabels (l ec)) -> I m ec ->
  exists p' m' ec', plt_predict Int_part iteration true p base m ec = Some (p', m', ec') /\ I m' ec' /\
    threshold_labels score p (pred_multilabels (pred ec')) /\
    (plt_probabilities p = true -> a_s (pred ec') = (fun y => (y, cond_prob (plt_kary p) score (plt_ti p + y))) <$> pred_multilabels (pred ec')) /\
    multilabels (l ec') = multilabels (l ec).
Proof.
  intros Htree Hiter HS Hl HI. destruct (predict_threshold_ok base I score iteration p Htree Hiter m ec Hl HI) as (p' & m' & ec' & E & HI' & Hex & Hrest).
  exists p', m', ec'. split; [done|]. split; [done|]. split; [by apply labels_exact_threshold|done].
Qed.

(** C21: Prediction of the [top_k] ends and gives that many different labels with their probabilities,
    from the most probable one down. No label of the tree that is left out is more probable than one that
    is given, whatever the heap does with equal ones. In a tree in which every internal node has all its
    children ([plt_t = total]) they are labels of the tree, so its [top_k] most probable ones; when the
    last internal node lacks children, the position of a missing child can take a place among them. *)
Theorem plt_top_k_best {X M} `{HeapLaws (node R) node_lt} (base : learner R X M) (I : M -> example R X -> Prop) (score : Z -> R) (iteration : gset Z -> list Z)
    (p : plt R) (m : M) (ec : example R X) :
  tree_ok p -> (forall s, iteration s ≡ₚ elements s) -> Scored base I (total (plt_kary p) (plt_ti p)) score ->
  Forall (fun y => 0 <= y < 2 ^ 32 - plt_ti p) (multilabels (l ec)) -> I m ec ->
  1 <= plt_top_k p <= plt_k p -> Z.of_nat (length (p_at p)) = plt_top_k p -> Z.of_nat (length (r_at p)) = plt_top_k p ->
  exists p' m' ec', plt_predict Int_part iteration false p base m ec = Some (p', m', ec') /\ I m' ec' /\
    top_labels score p (pred_multilabels (pred ec')) /\
    (plt_probabilities p = true -> a_s (pred ec') = (fun y => (y, cond_prob (plt_kary p) score (plt_ti p + y))) <$> pred_multilabels (pred ec')) /\
    multilabels (l ec') = multilabels (l ec).
Proof.
  intros Htree Hiter HS Hl HI Hk Hps Hrs. destruct (predict_top_k_ok base I score iteration p Htree Hiter m ec Hl HI) as (p' & m' & ec' & E & HI' & Hbest & Hrest);
    [destruct Htree; lia|done..|].
  exists p', m', ec'. split; [done|]. split; [done|]. split; [by apply labels_best_top|done].
Qed.

(** C39: when the last internal node lacks children, the walks go on to those, too: if the product with
    what the learner below answers there is above the threshold, the prediction holds a label that the
    tree does not have. *)
Theorem plt_predicts_no_label {X M} `{Heap (node R)} (base : learner R X M) (I : M -> example R X -> Prop) (score : Z -> R) (iteration : gset Z -> list Z)
    (p : plt R) (m : M) (ec : example R X) :
  tree_ok p -> (forall s, iteration s ≡ₚ elements s) -> Scored base I (total (plt_kary p) (plt_ti p)) score ->
  Forall (fun y => 0 <= y < 2 ^ 32 - plt_ti p) (multilabels (l ec)) -> I m ec -> 1 <= plt_k p ->
  plt_t p < total (plt_kary p) (plt_ti p) -> (plt_threshold p < cond_prob (plt_kary p) score (plt_t p))%R ->
  exists p' m' ec', plt_predict Int_part iteration true p base m ec = Some (p', m', ec') /\ plt_k p ∈ pred_multilabels (pred ec').
Proof.
  intros Htree Hiter HS Hl HI Hk Ht Hp. destruct (predict_threshold_ok base I score iteration p Htree Hiter m ec Hl HI) as (p' & m' & ec' & E & _ & [_ Hex] & _).
  exists p', m', ec'. split; [done|]. apply Hex. destruct Htree as [_ _ E3 _ _ _]. split; [lia|]. unfold above. by replace (plt_ti p + plt_k p) with (plt_t p) by lia.
Qed.

(** In exact arithmetic the set-up makes a tree with a leaf for each label, in which every internal
    node has at least two of its [kary] children and only the last lacks any. *)
Theorem plt_sizes_tree (k kary top_k : Z) (threshold initial_t : R) (probabilities : bool) :
  2 <= kary -> 2 <= k -> total kary (internal_nodes k kary) < 2 ^ 32 ->
  let p := plt_setup_data (plt_sizes (D := R) Rfloor Rceil Int_part k kary) k kary top_k threshold initial_t probabilities in
  tree_ok p /\ plt_t p = plt_k p + plt_ti p /\ kary * (plt_ti p - 1) + 2 < plt_t p <= kary * plt_ti p + 1.
Proof.
  intros Hb Hk Hu. destruct (internal_nodes_bounds k kary Hb Hk) as (Hti & Hlo & Hhi). rewrite plt_sizes_ok by (done || lia).
  split; [|cbn; unfold total in Hhi; lia]. split; cbn [plt_kary plt_ti plt_t plt_k nodes_time plt_setup_data fst snd]; try done.
  - lia.
  - rewrite length_replicate. lia.
Qed.

(** Beyond 2^24 nodes the parent of a node is computed wrongly: in single precision the parent of
    node 2^24 + 4 of a binary tree is node 2^23 + 2, whose children are others, so that learning
    trains nodes that are not above the label. *)
Theorem ancestor_rounds (floor_u32 : f32 -> Z) (fuel : nat) :
  floor_u32 (n_of_Z 8388610) = 8388610 ->
  ancestors_loop floor_u32 (S fuel) 2 16777220 {[16777220]} = ancestors_loop floor_u32 fuel 2 8388610 {[8388610; 16777220]} /\
  parent 2 16777220 = 8388609 /\ children 2 8388610 = [16777221; 16777222].
Proof.
  intros Hf. split; [|done]. cbn [ancestors_loop]. rewrite (proj2 (Z.ltb_lt 0 16777220)) by lia. cbn zeta.
  rewrite rounded_parent, Hf. done.
Qed.

(** ** Witnesses *)

(** The elementary functions, which learning does not call. *)
#[local] Definition plain_fns : MathFns Q :=
  {| nexp q := q; nlog q := q; nlog1p q := q; nexpm1 q := q; nsqrt q := q; npow q _ := q; nisfinite _ := true |}.
#[local] Existing Instance plain_fns.
#[local] Instance same_Q : Widen Q Q := {| widen q := q; narrow q := q |}.

(** Three labels in a binary tree of five nodes. *)
Definition sample_plt {F} (x : F) (times : list F) (top_k : Z) : plt F := Plt _ 3 5 2 2 times ∅ ∅ x top_k true ∅ [x] [x] 0 0 0 0.

Lemma sample_tree_ok {F} (x : F) times top_k : length times = 5%nat -> tree_ok (sample_plt x times top_k).
Proof. intros Hl. split; cbn; try lia; unfold total; lia. Qed.

Definition sample_labeled {F} (zero one : F) (ys : list Z) : example F unit := set_multilabels ys (plain_example zero one zero 0).

Lemma plt_trains_witness : exists p' calls m' ec',
  plt_learn Qfloor elements (sample_plt 0%Q [1; 2; 3; 4; 5]%Q 0) (noting seen (counting_learner (fun _ => 0%Q))) ([], 7%Q) (sample_labeled 0%Q 1%Q [1]) = Some (p', (calls, m'), ec') /\
  m' = 7%Q /\ multilabels (l ec') = [1].
Proof.
  destruct (plt_trains Qfloor elements (counting_learner (fun _ => 0%Q)) at_origin (sample_plt 0%Q [1; 2; 3; 4; 5]%Q 0) 7%Q (sample_labeled 0%Q 1%Q [1]))
    as (pos & neg & times & m' & ec' & _ & E & _ & Hm & Hl & _).
  - done.
  - done.
  - by apply counting_taught.
  - done.
  - by apply sample_tree_ok.
  - intros a _. symmetry. exact (Zdiv_Qdiv a 2).
  - repeat constructor; cbn; lia.
  - done.
  - eexists _, _, m', ec'. split; [exact E|]. split; [exact Hm|exact Hl].
Defined.

(** Models that answer 0: every node has its parent's probability, halved. *)
Definition even_score (i : Z) : R := 0%R.

Lemma sigmoid_zero : sigmoid 0%R = (1 / 2)%R.
Proof. unfold sigmoid. rnum. match goal with |- context [exp ?y] => replace y with 0%R by Lra.lra end. rewrite exp_0. Lra.lra. Qed.

Lemma even_child kary n q : 2 <= kary -> 0 < n -> parent kary n = 0 -> cond_prob kary even_score n = (1 / 4)%R /\
  (0 < q -> parent kary q = n -> cond_prob kary even_score q = (1 / 8)%R).
Proof.
  intros Hk Hn Hp. assert (cond_prob kary even_score n = (1 / 4)%R) as E.
  { rewrite cond_prob_child, Hp, cond_prob_root by done. unfold even_score. rewrite sigmoid_zero. Lra.lra. }
  split; [done|]. intros Hq Hpq. rewrite cond_prob_child, Hpq, E by done. unfold even_score. rewrite sigmoid_zero. Lra.lra.
Qed.
Lemma even_binary : cond_prob 2 even_score 2 = (1 / 4)%R /\ cond_prob 2 even_score 3 = (1 / 8)%R /\ cond_prob 2 even_score 4 = (1 / 8)%R.
Proof. split; [by apply (even_child 2 2 3)|]. by split; [apply (even_child 2 1 3)|apply (even_child 2 1 4)]. Qed.

Lemma plt_threshold_exact_witness : exists p' m' ec',
  plt_predict Int_part elements true (sample_plt (1 / 5)%R (replicate 5 0%R) 0) (counting_learner even_score) 0%R (sample_labeled 0%R 1%R [2]) = Some (p', m', ec') /\
  pred_multilabels (pred ec') = [0].
Proof.
  destruct (plt_threshold_exact (counting_learner even_score) at_origin even_score elements (sample_plt (1 / 5)%R (replicate 5 0%R) 0) 0%R (sample_labeled 0%R 1%R [2]))
    as (p' & m' & ec' & E & _ & (Hnd & Hex & Hk) & _).
  - by apply sample_tree_ok.
  - done.
  - by apply counting_scored.
  - repeat constructor; cbn; lia.
  - done.
  - exists p', m', ec'. split; [exact E|]. cbn [plt_kary plt_ti plt_threshold plt_k plt_t sample_plt] in Hex, Hk. specialize (Hk eq_refl).
    destruct even_binary as (E2 & E3 & E4). apply Permutation_singleton_r, NoDup_Permutation; [exact Hnd|apply NoDup_singleton|].
    intros y. rewrite list_elem_of_singleton. split.
    + intros Hy. pose proof (Hk y Hy) as Hr. apply Hex in Hy; [|exact Hr].
      assert (y = 0 \/ y = 1 \/ y = 2) as [-> |[-> | ->]] by lia; [done|change (2 + 1) with 3 in Hy; rewrite E3 in Hy|change (2 + 2) with 4 in Hy; rewrite E4 in Hy]; Lra.lra.
    + intros ->. apply Hex; [lia|]. change (2 + 0) with 2. rewrite E2. Lra.lra.
Defined.

Lemma plt_top_k_best_witness : exists p' m' ec',
  plt_predict Int_part elements false (sample_plt (1 / 5)%R (replicate 5 0%R) 1) (counting_learner even_score) 0%R (sample_labeled 0%R 1%R [2]) = Some (p', m', ec') /\
  pred_multilabels (pred ec') = [0].
Proof.
  destruct (plt_top_k_best (counting_learner even_score) at_origin even_score elements (sample_plt (1 / 5)%R (replicate 5 0%R) 1) 0%R (sample_labeled 0%R 1%R [2]))
    as (p' & m' & ec' & E & _ & (_ & Hlen & _ & Hbest & Hr) & _).
  - by apply sample_tree_ok.
  - done.
  - by apply counting_scored.
  - repeat constructor; cbn; lia.
  - done.
  - cbn. lia.
  - done.
  - done.
  - exists p', m', ec'. split; [exact E|]. cbn [plt_top_k plt_kary plt_ti plt_k plt_t sample_plt] in *. specialize (Hr eq_refl).
    destruct (pred_multilabels (pred ec')) as [|y [|]]; [cbn in Hlen; lia| |cbn in Hlen; lia].
    specialize (Hr y ltac:(set_solver)). f_equal. destruct (decide (y = 0)) as [|Hne]; [done|]. specialize (Hbest y 0 ltac:(set_solver) ltac:(lia) ltac:(set_solver)).
    assert (y = 1 \/ y = 2) as [-> | ->] by lia; change (2 + 0) with 2 in Hbest; destruct even_binary as (E2 & E3 & E4); rewrite E2 in Hbest; [change (2 + 1) with 3 in Hbest|change (2 + 2) with 4 in Hbest]; rewrite ?E3, ?E4 in Hbest; Lra.lra.
Defined.

(** Four labels in a ternary tree of six nodes: the last internal node has two children. *)
Definition sample_ternary : plt R := Plt _ 4 6 2 3 (replicate 6 0%R) ∅ ∅ (1 / 10)%R 0 false ∅ [] [] 0 0 0 0.

Lemma plt_predicts_no_label_witness : exists p' m' ec',
  plt_predict Int_part elements true sample_ternary (counting_learner even_score) 0%R (sample_labeled 0%R 1%R []) = Some (p', m', ec') /\ 4 ∈ pred_multilabels (pred ec').
Proof.
  destruct (plt_predicts_no_label (counting_learner even_score) at_origin even_score elements sample_ternary 0%R (sample_labeled 0%R 1%R [])) as (p' & m' & ec' & E & Hin).
  - split; cbn; try lia; unfold total; lia.
  - done.
  - by apply counting_scored.
  - done.
  - done.
  - cbn. lia.
  - cbn. unfold total. lia.
  - cbn [plt_threshold plt_kary plt_t sample_ternary]. assert (cond_prob 3 even_score 6 = (1 / 8)%R) as -> by by apply (even_child 3 1 6). Lra.lra.
  - by exists p', m', ec'.
Defined.

Lemma plt_sizes_tree_witness : total 3 (internal_nodes 4 3) < 2 ^ 32 /\
  plt_t (plt_setup_data (plt_sizes (D := R) Rfloor Rceil Int_part 4 3) 4 3 0 (1 / 2)%R 0%R false) <= 7.
Proof.
  split; [done|]. destruct (plt_sizes_tree 4 3 0 (1 / 2)%R 0%R false) as (Htree & _ & _ & Hle); [lia|lia|reflexivity|].
  etransitivity; [exact Hle|]. cbn [plt_ti plt_setup_data]. rewrite plt_sizes_ok by (lia || reflexivity). change (3 * 2 + 1 <= 7). lia.
Defined.

Lemma ancestor_rounds_witness : exists floor_u32 : f32 -> Z, floor_u32 (n_of_Z 8388610) = 8388610 /\
  ancestors_loop floor_u32 1 2 16777220 {[16777220]} = ancestors_loop floor_u32 0 2 8388610 {[8388610; 16777220]}.
Proof.
  exists (fun _ => 8388610). split; [done|]. apply (ancestor_rounds (fun _ => 8388610) 0). done.
Defined.
